(* ===== verification/_CoqProject ===== *)
-Q . S2P
Prelude.v
Tables.v
Interning.v
Caches.v
Index.v
Stores.v
Startup.v
StartupFacts.v
StartupChecks.v
Started.v
SampleStart.v
Opened.v
Freelist.v
Prototypes.v
Listeners.v
HazardSlots.v
Claims.v
Handles.v
Casts.v
Runtime.v
RuntimeFacts.v
Sample.v
Resolution.v
Shutdown.v
Ready.v
World.v
SampleWorld.v
Contexts.v
Living.v
Service.v
Access.v
Sweep.v
Holding.v
Starting.v
Serving.v
Reflection.v
Identities.v
Discovery.v
Generation.v
Generated.v
SampleProgram.v
Compiled.v
Injection.v
Metadata.v
Dereferenced.v
Cycles.v
Owned.v
Thunks.v
Programs.v
Views.v
