(* ===== verification/Prelude.v ===== *)
(** * ctorium: a verification development for the dependency-injection container

    ctorium is a header-only C++26 container.  The compiler turns annotated
    classes into contributed descriptors (compile-time reflection, under
    [src/include/internal/detail/*Gen.hpp]); at run time one [Registry] per root
    context merges them, builds an index from (type, name) to candidates, and
    then serves [resolve], constructs beans on demand from several threads,
    dispatches lifecycle listeners and destroys everything at [stop()].  This
    library models both halves: the generation, over an explicit table of
    reflected entities, and the run-time core.  Paths below are relative to
    [src/include/].

    ** The parts and the files that model them

    - [Prelude]: machine integers ([u32]), C++ vectors with their out-of-range
      behaviour ([vat], [vset], [vresize]), the exceptions ([exn], from
      [api/ctr/Errors.hpp]), the results of fallible code ([outcome]: a value, a
      throw, or undefined behaviour such as a failed [assert]), [std::sort] as
      the class [StdSort] with an instance, shared list lemmas.
    - [Tables]: [internal/Descriptor.hpp], [internal/ContributedDescriptor.hpp],
      [Module DescriptorTable] ([detail/DescriptorTable.hpp]) and
      [Module DefaultsTable] ([detail/DefaultsTable.hpp]).
    - [Interning]: [Module NameInterning] and [Module TypeInterning], strings
      and types to dense ids.
    - [Index]: [Module TypeIndex] ([detail/TypeIndex.hpp],
      [internal/NameTable.hpp]), the index every resolution reads.
    - [Stores]: [Module InstanceArray] (the growable array of atomic slots that
      the two stores share), [Module SingletonStore], [Module SessionStore],
      [Module ThreadLocalStore].
    - [Freelist]: [Module Treiber] ([detail/TreiberFreelist.hpp]).
    - [Prototypes]: [Module PrototypeStore] ([detail/PrototypeStore.hpp]) over
      the freelist.
    - [Listeners]: [Module ListenerStore] ([detail/ListenerStore.hpp],
      [api/ctr/ListenerHandle.hpp]) and [Module Hazard], the hazard slots that
      protect its lock-free dispatch.
    - [Claims]: [Module Tokens] (thread tokens) and [Module Claims] (who
      constructs which bean, who waits for whom, dependency cycles), from
      [detail/RegistryResolutionImpl.hpp] and [detail/Registry.hpp].
    - [Handles]: [Module Handle] ([api/ctr/Bean.hpp], [api/ctr/AnyBean.hpp],
      [detail/HandleInlineImpl.hpp]) over the prototype store.
    - [Casts]: [Module Cast], the casts of [detail/HandleInlineImpl.hpp] over the
      descriptor table and the index.
    - [Runtime]: [Module Runtime], what one thread does with a started registry:
      [resolve], [materializeOneImpl] and the four lifetimes
      ([detail/RegistryResolutionImpl.hpp], [detail/RegistryScopedRuntimeImpl.hpp],
      [detail/RegistryThreadLocalImpl.hpp]), the destruction lifecycle
      ([detail/RegistryRuntimeCoreImpl.hpp]), [stop()] and [stopScope()].  It
      composes the stores, the index, the claims, the listeners and the handles.
      User constructors, hooks and listener callbacks are programs ([prog]) that
      resolve beans, go on with the handle or the exception, and return or throw.
    - [RuntimeFacts]: the invariant of that state ([inv]), what nested calls keep
      ([ext]) and the specification of every function of [Runtime] up to [resolve].
    - [Sample]: a seven-descriptor application for the witnesses.
    - [Resolution]: the theorems about [resolve]; [Shutdown]: those about [stop()].
    - [Startup]: [Module Startup], the registry before [start()] and [start()] itself
      ([detail/Registry.hpp], [registerContextBean], the pre-start half of
      [bindSingleton]): contributions and bindings become descriptors, names, types,
      index, session slots and stored objects, or a [ConfigurationError].
      [StartupFacts] specifies the merge and the links, [StartupChecks] the
      validation, [Started] the whole; [SampleStart] is an application for the
      witnesses; [Opened] has the theorems.
    - [Ready]: the bridge from [Startup] to [Runtime]: the world [resolve] runs in after
      a successful [start()], and the invariant of [RuntimeFacts] for it.
    - [Caches]: the two-level scope table, the packed scope-name cache of a call site and
      the [TypeId] cache of [typeIdFor], with the slots that types claim in the process.
    - [World]: [Module World], one [BeanContext] as a whole: the registry, its run-time
      half, the scopes ([ScopedContext]), defaults and listeners in one state, with the
      public operations of [api/ctr/BeanContext.hpp] and [ScopedContext.hpp]
      ([detail/ContextLifecycleImpl.hpp], [detail/BindReflectiveImpl.hpp],
      [detail/RegistryStartupImpl.hpp]): [start], [stop], [bindSingleton], [bindSession],
      [resolveScope], the scope's [start], [defaultNamed], [on], [remove], the
      destructors.  [SampleWorld] has contexts for the witnesses.
    - [Contexts]: names and named defaults.  [Living]: what a change between two requests
      (a new descriptor, scope, default or listener) needs for the invariant of
      [RuntimeFacts] to go on holding.  [Service]: the invariant [running] of a started
      context.  [Access]: [operator->] of the three forms of a handle, on a [World]
      ([detail/HandleInlineImpl.hpp]).  [Starting]: [BeanContext::start] from an unstarted context to [running],
      or its rollback.  [Serving]: each operation on a [running] context, and any
      sequence of them.
    - [Reflection]: [Module Meta], the queries of [std::meta] the code uses, on a table
      of entities, and constant evaluation ([consteval]: a value or a diagnostic); the
      annotations of [api/ctr/Markers.hpp].
    - [Identities]: [Module IdentityGen] ([detail/IdentityGen.hpp]): FNV-1a, qualified
      names written into their buffer, identities, annotation scans.
    - [Discovery]: [Module Discovery] ([internal/Discovery.hpp] and the member scan of
      [detail/DescriptorThunkGen.hpp]).
    - [Generation]: [Module Generation], the contributed descriptors of classes, exposed
      bases, factories and products ([detail/DescriptorBuilderGen.hpp],
      [detail/ReflectiveDataGen.hpp], [detail/DescriptorThunkGen.hpp]).  [Generated] is
      the bridge to [Ready]; [SampleProgram] a program with its contribution, started;
      [Compiled] has the theorems.
    - [Injection]: [injectParam] and its two caches, on a [World].
    - [Metadata]: [api/ctr/BeanMetadata.hpp] and [metadata()] of the handles.
    - [Dereferenced]: what a handle gives in a started context, and that what a request
      returns can be dereferenced.
    - [Sweep]: [Module Sweep], what the destruction of one scope's beans leaves behind
      ([stopScope] in [detail/RegistryScopedRuntimeImpl.hpp]), and [Module
      ScopeStop], [ScopedContext::stop] and [restart] on a [running] context.  [Cycles]:
      the end of a scope's beans and their renewal.
    - [Holding]: copies and destructions of handles on a started context
      ([detail/HandleInlineImpl.hpp], [api/ctr/AnyBean.hpp]): the counts, and the
      destruction lifecycle behind the last one.  [Owned]: a prototype lives as long as
      its handles.
    - [Thunks]: the bodies of the construct, hook, factory-product and destroy thunks
      ([detail/DescriptorThunkGen.hpp]): the arguments in the order the compiler chose,
      the call of user code, what a throw leaves.
    - [Programs]: [BeanContext::discover] ([detail/DiscoverySubmitImpl.hpp]) and the whole
      way from a program to a started context that serves what was discovered.
    - [Views]: the casts of [AnyBean] on a context ([detail/HandleInlineImpl.hpp]), with
      the references their views take.
    - [HazardSlots]: which thread has which hazard slot ([detail/ListenerStore.hpp]), the
      ground on which [Listeners.Hazard] stands.
    ** How state and operations correspond

    Each Module has the record [t] (or a named record) for the fields of the
    C++ class, under the C++ names, and one definition per member function,
    under its name.  A member function that changes state takes the state last
    and returns the new one; [option] marks undefined behaviour ([None]) and
    [outcome] marks code that can also throw.  Where the code is concurrent, the
    operations become the steps of a relation ([step]) or of an executable
    function over events ([exec]), one step per atomic access or per critical
    section; the interleavings are sequentially consistent.

    ** What the theorems show

    - Functional correctness and refinement: the stores, the index, the interning
      tables, the defaults, the listener dispatch and the casts implement finite
      maps, stable sorts, dense numberings and the descriptor graph, on every
      branch.
    - Concurrency: lock-free reads of a growing store, the freelist when pops do
      not overlap, hazard-protected dispatch, hazard slots with one owner as long as the
      pops of their freelist do not overlap, mutual exclusion of construction and freedom
      from deadlock, for any number of threads and otherwise any interleaving.
    - The run-time half end to end: selection equals a reference definition;
      [resolve] terminates, is exception safe and serves what selection chose; over
      any sequence of requests every bean is built once, in lifecycle order, and
      [stop()] ends each of these lives with one complete destruction.
    - The whole context: when no exception escapes from a destruction, [start()] leaves a
      context ready for use or takes everything back; requests, bindings, scopes, defaults and listeners in any order keep it
      ready; requests are well typed; a late binding is refused or selected at once;
      a default changes the requests it is for and no other; and a handle looks its
      bean up again on each access, building it if its scope has none.
    - The cycles of a scope: over any sequence of operations a session bean lives any
      number of complete lives, one per cycle of its scope; a stop ends each one once,
      in reverse construction order, and after a restart a proxy gives a new bean.
    - Ownership: over any sequence of store operations, each run alone, a prototype object
      is destroyed exactly once, when its last handle goes, also in a started context,
      where it has its complete destruction; the handles of user code never lose or double
      a reference as long as they are copied while their object exists, and a view of it
      keeps it alive.
    - The compile-time half: the enumeration finds what the roots declare, the scan of
      a class visits its bases once and in order, the qualified names fit their buffer,
      the identities can be told apart, and the contribution of a program that compiles
      is one [start()] can link; a thunk injects what [start()]'s check would look at on the
      tables of the moment; a constructor, hook or factory thunk calls user code once with
      the arguments it injected one after the other, gives them back when an injection
      throws, and leaves a ready context; what a handle's metadata tells is what the class declares.
    - Both halves together: a context that discovers a program that compiles and starts
      has a candidate with the promised lifetime for everything the program declares, or
      takes everything back.
    - Side conditions that many of these share: a configured limit of prototype slots
      within the slot table, room below the 32-bit sentinels, user code that ends and
      resolves from contexts that exist, and, where a destruction runs, destruction hooks
      and listeners of the destruction phases that let no exception escape (the code calls
      them from [noexcept] functions).  The comment of each property names its own.
    - Limits, as lemmas that exhibit what the code does not promise although a comment or
      a guide says it does: overlapping pops of the freelist, a start that is retried,
      nested dispatches, deferred listeners, session constructions that cross scopes, the
      typed listener view, thread-local beans that [stop()] misses.

    ** Bounds and fuel

    The wait-graph walk has the fuel of the code ([materializing_.size()] steps)
    and [claim_decides] shows that it is enough.  [resolve] has fuel for the nesting
    of user code in resolutions; every nested construction puts a new (descriptor,
    context) pair out of reach, so descriptors times contexts plus one is enough
    ([resolve_total]), and [stop()] needs one.  The other loops are structural, or
    recurse on the length of the sequence they consume.  The [consteval] functions
    that recurse over scopes and bases have a depth [limit], and [Meta.nested] gives
    the depth of a program's scopes and bases, which is enough ([discovery_enumerates],
    [qualified_name], [member_scan]).  Hypotheses such as
    [nlen _ < two32] are the 32-bit limits of the identifiers.

    ** Not modelled

    The reflected program is a table of entities ([Meta.program]); what the compiler
    itself contributes (addresses of instantiated functions, [type_info], static data)
    is the class [Toolchain].  [Thunks] has the bodies of the generated thunks with user
    code as programs that take over their arguments; [Runtime] calls what lies behind a
    function pointer as one such program, so that the thunks and [resolve] are composed
    in one direction only (a thunk resolves; [resolve] calls a program).  The memory of
    a heap product is not given back in the model, and a producer does not return an
    empty [unique_ptr] (the code has no check for it).  User code (constructors, factory
    methods, destroy methods, listener callbacks) is
    data or a parameter; in [Runtime] it only resolves and throws (it does not bind
    beans, add listeners or set defaults while a bean is built, and a destructor
    only leaves an event), runs on one thread ([Claims] has the threads), and fresh
    memory is never at an old address.  A throw out of a [noexcept] function is
    undefined behaviour there.  The sequences of [Serving] leave out the context's own
    [stop()] ([Shutdown] has it, from any state of the invariant); the stop and the
    restart of a scope and the destruction of handles are in them when the destruction
    hooks and listeners let no exception escape.  Weak memory orders are not modelled: atomics are sequentially
    consistent. *)
From stdpp Require Export sorting.
From stdpp Require Export base tactics numbers strings list gmap sets.

(** * Machine integers

    Every identifier of the container ([TypeId], [NameId], [DescriptorId],
    [SlotId], registry ids, thread tokens) is a [std::uint32_t]; they are
    numbers of [N] and each [static_cast<std::uint32_t>] is [u32]. *)

Declare Scope ctr_scope.
Delimit Scope ctr_scope with ctr.

Definition two32 : N := 4294967296%N.

Definition u32 (x : N) : N := (x mod two32)%N.

Abbreviation TypeId := N (only parsing).

Abbreviation NameId := N (only parsing).

Abbreviation DescriptorId := N (only parsing).

Abbreviation SlotId := N (only parsing).

(** Sentinels: [std::numeric_limits<std::uint32_t>::max()] and its
    neighbours. *)
Definition kInvalidTypeId : TypeId := 4294967295%N.

Definition kInvalidDescriptorId : DescriptorId := 4294967295%N.

Definition kInvalidSlotId : SlotId := 4294967295%N.

Definition kUnnamed : NameId := 0%N.

Definition kInvalidNameId : NameId := 4294967295%N.

Definition kThreadLocalSentinel : NameId := (kInvalidNameId - 1)%N.

(** An object address; [0] is [nullptr]. *)
Abbreviation ptr := N (only parsing).

Definition nullptr : ptr := 0%N.

Lemma u32_small (x : N) : (x < two32)%N → u32 x = x.
Proof. intros; by apply N.mod_small. Qed.

Lemma u32_lt (x : N) : (u32 x < two32)%N.
Proof. apply N.mod_lt; unfold two32; lia. Qed.

(** * Vectors indexed by machine integers

    [nlen] is [size()]; [vat] is a checked [operator[]] ([None] is the
    out-of-range read, undefined behaviour in the source); [vset] writes an
    element; [vresize] is [resize(n, x)].  The comparison with the size is made
    on [N] first, so that a sentinel index evaluates at once. *)

Definition nlen {A} (l : list A) : N := N.of_nat (length l).

Definition vat {A} (l : list A) (i : N) : option A :=
  if (i <? nlen l)%N then l !! N.to_nat i else None.

Definition vset {A} (i : N) (x : A) (l : list A) : list A :=
  if (i <? nlen l)%N then <[N.to_nat i := x]> l else l.

Definition vresize {A} (n : N) (x : A) (l : list A) : list A :=
  resize (N.to_nat n) x l.

Section vectors.
Context {A : Type}.
Implicit Types (l : list A) (i j : N) (x : A).

Lemma vat_lookup l i : vat l i = l !! N.to_nat i.
Proof.
  unfold vat, nlen. destruct (N.ltb_spec i (N.of_nat (length l))); [done|].
  symmetry; apply lookup_ge_None; lia.
Qed.

Lemma vset_insert i x l : vset i x l = <[N.to_nat i := x]> l.
Proof.
  unfold vset, nlen. destruct (N.ltb_spec i (N.of_nat (length l))); [done|].
  symmetry; apply list_insert_ge; lia.
Qed.

Lemma vat_is_Some l i : is_Some (vat l i) ↔ (i < nlen l)%N.
Proof. rewrite vat_lookup, lookup_lt_is_Some. unfold nlen; lia. Qed.

Lemma vat_lt l i x : vat l i = Some x → (i < nlen l)%N.
Proof. intros H; apply vat_is_Some; eauto. Qed.

Lemma vat_None l i : vat l i = None ↔ (nlen l ≤ i)%N.
Proof. rewrite vat_lookup, lookup_ge_None. unfold nlen; lia. Qed.

Lemma vat_nil i : vat ([] : list A) i = None.
Proof. apply vat_None. unfold nlen; simpl; lia. Qed.

Lemma vat_vset_eq l i x : (i < nlen l)%N → vat (vset i x l) i = Some x.
Proof.
  intros H. rewrite vat_lookup, vset_insert. apply list_lookup_insert_eq.
  unfold nlen in H; lia.
Qed.

Lemma vat_vset_ne l i j x : i ≠ j → vat (vset i x l) j = vat l j.
Proof.
  intros H. rewrite !vat_lookup, vset_insert. apply list_lookup_insert_ne.
  intros E; apply H; lia.
Qed.

Lemma nlen_vset i x l : nlen (vset i x l) = nlen l.
Proof. unfold nlen. by rewrite vset_insert, length_insert. Qed.

Lemma nlen_app l1 l2 : nlen (l1 ++ l2) = (nlen l1 + nlen l2)%N.
Proof. unfold nlen. rewrite length_app; lia. Qed.

Lemma nlen_snoc l x : nlen (l ++ [x]) = (nlen l + 1)%N.
Proof. rewrite nlen_app. done. Qed.

Lemma vat_app_l l1 l2 i : (i < nlen l1)%N → vat (l1 ++ l2) i = vat l1 i.
Proof. intros H. rewrite !vat_lookup. apply lookup_app_l. unfold nlen in H; lia. Qed.

Lemma vat_app_Some l1 l2 i x : vat l1 i = Some x → vat (l1 ++ l2) i = Some x.
Proof. intros H. rewrite vat_app_l; [done|]. by eapply vat_lt. Qed.

Lemma vat_snoc_eq l x : vat (l ++ [x]) (nlen l) = Some x.
Proof.
  rewrite vat_lookup. unfold nlen. rewrite Nat2N.id.
  by rewrite lookup_app_r, Nat.sub_diag by lia.
Qed.

Lemma vat_snoc_inv l x i y :
  vat (l ++ [x]) i = Some y → vat l i = Some y ∨ (i = nlen l ∧ y = x).
Proof.
  intros H. destruct (decide (i < nlen l)%N) as [Hi|Hi].
  - left. by rewrite vat_app_l in H.
  - right. pose proof (vat_lt _ _ _ H) as Hlt. rewrite nlen_snoc in Hlt.
    assert (i = nlen l) as -> by lia. rewrite vat_snoc_eq in H. by simplify_eq.
Qed.

Lemma nlen_vresize n x l : nlen (vresize n x l) = n.
Proof. unfold nlen, vresize. rewrite length_resize. lia. Qed.

Lemma vat_vresize_old l n x i :
  (i < n)%N → (i < nlen l)%N → vat (vresize n x l) i = vat l i.
Proof.
  intros Hn Hl. unfold vresize, nlen in *. rewrite !vat_lookup.
  apply lookup_resize; lia.
Qed.

Lemma vat_vresize_new l n x i :
  (nlen l ≤ i)%N → (i < n)%N → vat (vresize n x l) i = Some x.
Proof.
  intros Hl Hn. unfold vresize, nlen in *. rewrite vat_lookup.
  apply lookup_resize_new; lia.
Qed.

Lemma vat_replicate (n : nat) x i :
  vat (replicate n x) i = if decide (i < N.of_nat n)%N then Some x else None.
Proof.
  rewrite vat_lookup. case_decide.
  - apply lookup_replicate_2; lia.
  - apply lookup_ge_None. rewrite length_replicate; lia.
Qed.
End vectors.

Lemma vat_snoc {A} (l : list A) x i :
  vat (l ++ [x]) i = if decide (i = nlen l) then Some x else vat l i.
Proof.
  case_decide as H; [subst; apply vat_snoc_eq|].
  destruct (decide (i < nlen l)%N); [by apply vat_app_l|].
  rewrite !(proj2 (vat_None _ _)); [done|lia|rewrite nlen_snoc; lia].
Qed.

Lemma vat_vset {A} (l : list A) i x j : (i < nlen l)%N →
  vat (vset i x l) j = if decide (j = i) then Some x else vat l j.
Proof. intros H. case_decide; [subst; by apply vat_vset_eq|by apply vat_vset_ne]. Qed.

Lemma vat_elem {A} (l : list A) x : x ∈ l ↔ ∃ i, vat l i = Some x.
Proof.
  rewrite list_elem_of_lookup. split.
  - intros [i Hi]. exists (N.of_nat i). by rewrite vat_lookup, Nat2N.id.
  - intros [i Hi]. exists (N.to_nat i). by rewrite <-vat_lookup.
Qed.

Create HintDb ctr.
Create Rewrite HintDb ctr.
#[export] Hint Rewrite @nlen_vset @nlen_snoc @nlen_vresize @nlen_app : ctr.
#[export] Hint Resolve vat_app_Some vat_lt u32_lt : ctr.

(** * Errors and effects

    [exn] is the public exception hierarchy of [api/ctr/Errors.hpp]
    ([CtoriumError] is only its base class) with one more case for the
    exceptions user code throws, which the container propagates unchanged. *)

Inductive exn : Type :=
| ResolutionError (message : string)
| ContextStateError (message : string)
| ConfigurationError (message : string)
| UserException (n : N).

#[export] Instance exn_eq_dec : EqDecision exn.
Proof. solve_decision. Defined.

(** How a call ends.  [Ub] is a call outside a function's precondition (an
    [assert] that fails, an out-of-range vector access); [Blocked] is a wait on
    a condition variable that only another thread can end; [OutOfFuel] belongs
    to the model's recursion bound and is never an outcome of the code. *)
Inductive outcome (A : Type) : Type :=
| Ok (a : A)
| Throw (e : exn)
| Ub
| Blocked
| OutOfFuel.
Arguments Ok {A} _.
Arguments Throw {A} _.
Arguments Ub {A}.
Arguments Blocked {A}.
Arguments OutOfFuel {A}.

(** A stateful computation.  A C++ exception does not roll the state back, so
    the state is returned with every outcome. *)
Definition M (S A : Type) : Type := S → outcome A * S.

Definition mreturn {S A} (a : A) : M S A := λ s, (Ok a, s).

Definition mthrow_ {S A} (e : exn) : M S A := λ s, (Throw e, s).

Definition mub {S A} : M S A := λ s, (Ub, s).

Definition obind {A B} (o : outcome A) (k : A → outcome B) : outcome B :=
  match o with
  | Ok a => k a
  | Throw e => Throw e
  | Ub => Ub
  | Blocked => Blocked
  | OutOfFuel => OutOfFuel
  end.

Definition mbind_ {S A B} (m : M S A) (k : A → M S B) : M S B := λ s,
  match m s with
  | (Ok a, s') => k a s'
  | (Throw e, s') => (Throw e, s')
  | (Ub, s') => (Ub, s')
  | (Blocked, s') => (Blocked, s')
  | (OutOfFuel, s') => (OutOfFuel, s')
  end.

Definition mget {S} : M S S := λ s, (Ok s, s).

Definition mupd {S} (f : S → S) : M S unit := λ s, (Ok tt, f s).

(** [mcatch m h]: run [h] when [m] throws (a [catch (...)] block); [h] usually
    ends by throwing the exception again. *)
Definition mcatch {S A} (m : M S A) (h : exn → M S A) : M S A := λ s,
  match m s with
  | (Throw e, s') => h e s'
  | r => r
  end.

Notation "'let!' x ':=' m 'in' k" := (mbind_ m (λ x, k))
  (at level 10, x pattern, m at level 100, k at level 200)
  : ctr_scope.
Notation "'do!' m 'in' k" := (mbind_ m (λ _, k))
  (at level 10, m at level 100, k at level 200)
  : ctr_scope.

(** A failed assertion. *)
Definition mlift {S A} (o : option A) : M S A :=
  match o with Some a => mreturn a | None => mub end.

(** Range-based [for] loops: without and with a value carried along. *)
Fixpoint mfor {S A} (f : A → M S unit) (l : list A) : M S unit :=
  match l with
  | [] => mreturn tt
  | a :: l' => mbind_ (f a) (λ _, mfor f l')
  end.

Fixpoint mfold {S A B} (f : A → B → M S B) (l : list A) (b : B) : M S B :=
  match l with
  | [] => mreturn b
  | a :: l' => mbind_ (f a b) (mfold f l')
  end.

(** * [std::sort] and [std::upper_bound]

    The standard library only promises that [std::sort] returns a sorted
    permutation: equal elements may be exchanged.  The components are
    parameterised by any such function; [merge_std_sort] is one. *)

Record strict_weak {A} (lt : A → A → bool) : Prop := {
  sw_asym a b : lt a b = true → lt b a = false;
  sw_negtrans a b c : lt a b = false → lt b c = false → lt a c = false
}.

Class StdSort : Type := {
  std_sort : ∀ {A : Type}, (A → A → bool) → list A → list A;
  std_sort_perm : ∀ (A : Type) (lt : A → A → bool) (l : list A),
    std_sort lt l ≡ₚ l;
  std_sort_sorted : ∀ (A : Type) (lt : A → A → bool) (l : list A),
    strict_weak lt → StronglySorted (λ a b, lt b a = false) (std_sort lt l)
}.

Section merge.
Context {A : Type} (lt : A → A → bool).

Definition not_after (a b : A) : Prop := lt b a = false.

#[local] Instance not_after_dec : RelDecision not_after.
Proof. intros a b; unfold not_after; apply _. Defined.

Definition merge_std (l : list A) : list A := merge_sort not_after l.

Lemma merge_std_sorted (l : list A) :
  strict_weak lt → StronglySorted not_after (merge_std l).
Proof.
  intros [Has Htr]. apply StronglySorted_merge_sort.
  - intros a b c H1 H2; unfold not_after in *. by eapply Htr.
  - intros a b; unfold not_after. destruct (lt b a) eqn:E; auto.
Qed.
End merge.

#[export] Program Instance merge_std_sort : StdSort := {|
  std_sort := λ A lt l, merge_std lt l
|}.
Next Obligation. intros A lt l. apply merge_sort_Permutation. Qed.
Next Obligation. intros A lt l H. by apply merge_std_sorted. Qed.

(** The descending comparison [key(a) > key(b)] the code sorts by. *)
Lemma gtb_strict_weak {A} (key : A → Z) :
  strict_weak (λ a b, Z.gtb (key a) (key b)).
Proof.
  split; intros *; rewrite ?Z.gtb_ltb, ?Z.ltb_lt, ?Z.ltb_ge; lia.
Qed.

Lemma ltb_strict_weak {A} (key : A → N) :
  strict_weak (λ a b, N.ltb (key a) (key b)).
Proof. split; intros *; rewrite ?N.ltb_lt, ?N.ltb_ge; lia. Qed.

(** [std::upper_bound(begin, end, v, comp)] on a range partitioned by
    [comp(v, _)]: the number of leading elements [comp(v, _)] rejects. *)
Fixpoint upper_bound_index {A} (after : A → bool) (l : list A) : nat :=
  match l with
  | [] => 0
  | x :: l' => if after x then 0 else S (upper_bound_index after l')
  end.

Lemma StronglySorted_app_iff {A} (R : A → A → Prop) (l1 l2 : list A) :
  StronglySorted R (l1 ++ l2) ↔
  StronglySorted R l1 ∧ StronglySorted R l2 ∧
  (∀ x y, x ∈ l1 → y ∈ l2 → R x y).
Proof.
  induction l1 as [|a l1 IH]; simpl.
  - split; [|naive_solver]. intros H; repeat split; [constructor|done|].
    intros x y Hx; by apply elem_of_nil in Hx.
  - rewrite !StronglySorted_cons, IH, Forall_app. split.
    + intros ([H1 H2] & H3 & H4 & H5). rewrite Forall_forall in H2.
      repeat split; [by auto..|].
      intros x y [->|Hx]%elem_of_cons Hy; [by apply H2|by apply H5].
    + intros ([H1 H2] & H3 & H4). repeat split; [by auto| |by auto..|].
      * apply Forall_forall; intros y Hy. apply H4; [by left|done].
      * intros x y Hx Hy. apply H4; [by right|done].
Qed.

Lemma StronglySorted_weaken {A} (R R' : A → A → Prop) (l : list A) :
  (∀ a b, R a b → R' a b) → StronglySorted R l → StronglySorted R' l.
Proof.
  intros H. induction 1; constructor; [done|]. by eapply Forall_impl; [|intros; apply H].
Qed.

Lemma StronglySorted_filter {A} (R : A → A → Prop) (P : A → Prop)
    `{∀ x, Decision (P x)} (l : list A) :
  StronglySorted R l → StronglySorted R (filter P l).
Proof.
  induction 1 as [|x l Hs IH Hx]; [constructor|]. rewrite filter_cons.
  case_decide; [|done]. constructor; [done|].
  rewrite Forall_forall in Hx |- *. intros y Hy%list_elem_of_filter. apply Hx, Hy.
Qed.

(** [upper_bound_index] splits the range at the first element [after] accepts. *)
Lemma upper_bound_split {A} (after : A → bool) (l : list A) :
  let pos := upper_bound_index after l in
  l = take pos l ++ drop pos l ∧
  Forall (λ x, after x = false) (take pos l) ∧
  match drop pos l with [] => True | y :: _ => after y = true end.
Proof.
  induction l as [|x l IH]; simpl; [by split_and!|].
  destruct (after x) eqn:E; simpl; [by split_and!|].
  destruct IH as (H1 & H2 & H3). split_and!; [by f_equal|by constructor|done].
Qed.

Lemma filter_all {A} (P : A → Prop) `{∀ x, Decision (P x)} (l : list A) :
  (∀ x, x ∈ l → P x) → filter P l = l.
Proof.
  induction l as [|x l IH]; intros H1; [done|].
  rewrite filter_cons_True by (apply H1; by left). f_equal. apply IH. intros; apply H1; by right.
Qed.

(** * Verification rules for stateful computations

    [ends U m s Q X]: from [s], [m] returns a value that satisfies [Q] or throws
    an exception that satisfies [X]; undefined behaviour only in a state [U]
    allows; and it neither blocks nor runs out of fuel. *)
Definition ends {S A} (U : S → Prop) (m : M S A) (s : S) (Q : A → S → Prop)
    (X : exn → S → Prop) : Prop :=
  match m s with
  | (Ok a, s') => Q a s'
  | (Throw e, s') => X e s'
  | (Ub, s') => U s'
  | (Blocked, _) | (OutOfFuel, _) => False
  end.

Section rules.
Context {S : Type} (U : S → Prop).

Lemma ends_mono {A} (m : M S A) s (Q Q' : A → S → Prop) (X X' : exn → S → Prop) :
  ends U m s Q X → (∀ a s', Q a s' → Q' a s') → (∀ e s', X e s' → X' e s') →
  ends U m s Q' X'.
Proof. unfold ends. destruct (m s) as [[a|e| | |] s']; naive_solver. Qed.

Lemma ends_bind {A B} (m : M S A) (k : A → M S B) s Q X (P : A → S → Prop) :
  ends U m s P X → (∀ a s', P a s' → ends U (k a) s' Q X) →
  ends U (mbind_ m k) s Q X.
Proof. unfold ends, mbind_. destruct (m s) as [[a|e| | |] s']; naive_solver. Qed.

(** A first step of which the result is known. *)
Lemma ends_run {A B} (m : M S A) (k : A → M S B) s a s' Q X :
  m s = (Ok a, s') → ends U (k a) s' Q X → ends U (mbind_ m k) s Q X.
Proof. intros Hm. unfold ends, mbind_. by rewrite Hm. Qed.

Lemma ends_return {A} (a : A) s (Q : A → S → Prop) X : Q a s → ends U (mreturn a) s Q X.
Proof. done. Qed.

Lemma ends_throw {A} e s (Q : A → S → Prop) (X : exn → S → Prop) :
  X e s → ends U (mthrow_ e) s Q X.
Proof. done. Qed.

Lemma ends_upd f s (Q : unit → S → Prop) X : Q tt (f s) → ends U (mupd f) s Q X.
Proof. done. Qed.

Lemma ends_catch {A} (m : M S A) h s (Q : A → S → Prop) X (Y : exn → S → Prop) :
  ends U m s Q Y → (∀ e s', Y e s' → ends U (h e) s' Q X) →
  ends U (mcatch m h) s Q X.
Proof. unfold ends, mcatch. destruct (m s) as [[a|e| | |] s']; naive_solver. Qed.
End rules.

Definition never {S} : S → Prop := λ _, False.

Lemma ends_for {S A} U (f : A → M S unit) l s (Q : unit → S → Prop) X :
  ends U (mfor f l) s Q X ↔
  match l with
  | [] => Q tt s
  | a :: l' => ends U (f a) s (λ _ s', ends U (mfor f l') s' Q X) X
  end.
Proof.
  destruct l as [|a l]; [done|]. cbn [mfor]. unfold ends at 1 2, mbind_.
  destruct (f a s) as [[[]|e| | |] s']; naive_solver.
Qed.

Lemma ends_fold {S A B} U (f : A → B → M S B) l b s (Q : B → S → Prop) X :
  ends U (mfold f l b) s Q X ↔
  match l with
  | [] => Q b s
  | a :: l' => ends U (f a b) s (λ b' s', ends U (mfold f l' b') s' Q X) X
  end.
Proof.
  destruct l as [|a l]; [done|]. cbn [mfold]. unfold ends at 1 2, mbind_.
  destruct (f a b s) as [[b'|e| | |] s']; naive_solver.
Qed.

(** The rule of the head construct; the intermediate assertion of a sequence is
    left to unification. *)
Ltac ends_step :=
  lazymatch goal with
  | |- ends _ (mbind_ _ _) _ _ _ => eapply ends_bind
  | |- ends _ (mreturn _) _ _ _ => apply ends_return
  | |- ends _ (mthrow_ _) _ _ _ => apply ends_throw
  | |- ends _ (mupd _) _ _ _ => apply ends_upd
  | |- ends _ (mcatch _ _) _ _ _ => eapply ends_catch
  end.
