(* ===== verification/Tables.v ===== *)
(** Descriptors and the two tables indexed by dense ids.

    The data of [internal/Descriptor.hpp], [internal/ContributedDescriptor.hpp]
    and the enumerations of [api/ctr], then [Module DescriptorTable]
    ([internal/detail/DescriptorTable.hpp]) and [Module DefaultsTable]
    ([internal/detail/DefaultsTable.hpp]) with the invariant that keeps the
    three parallel vectors of the descriptor table in step. *)
From S2P Require Import Prelude.

Local Open Scope N_scope.

(** * Data *)

Inductive Lifetime : Type :=
| Prototype
| Singleton
| Session
| ThreadLocal.

#[export] Instance Lifetime_eq_dec : EqDecision Lifetime.
Proof. solve_decision. Defined.

Inductive Origin : Type :=
| AnnotatedType
| FactoryProduct
| RuntimeBinding.

#[export] Instance Origin_eq_dec : EqDecision Origin.
Proof. solve_decision. Defined.

(** A function pointer is the address of a thunk; what the thunk does is a
    parameter of the components that call it. *)
Abbreviation FnPtr := N (only parsing).

(** The object [typeid(T)] returns; the getters of the source are modelled by
    the object they return. *)
Abbreviation TypeInfo := N (only parsing).

(** [std::uint64_t] data-based hash. *)
Abbreviation Identity := N (only parsing).

Definition kNoFactoryMethod : Identity := 0.

Abbreviation SessionSlot := N (only parsing).

Definition kInvalidSessionSlot : SessionSlot := 4294967295.

Record DescriptorCold : Type := {
  exposedType : TypeId;
  concreteType : TypeId;
  name : NameId;
  size : N;
  align : N;
  factoryMethodDescriptor : DescriptorId;
  factoryMethodName : option string;
  origin : Origin;
  lazy : bool;
  construct : FnPtr;
  destroy : FnPtr;
  postConstruct : option FnPtr;
  preDestroy : option FnPtr;
  allocAndConstruct : option FnPtr;
  dealloc : option FnPtr;
  observedTypeGetter : option TypeInfo;
  exactTypeGetter : option TypeInfo;
  nameStr : string;
  reflectiveData : option N;
  adjustToConcrete : option FnPtr
}.

Record Descriptor : Type := {
  priority : Z;
  primaryDescriptor : DescriptorId;
  sessionSlot : SessionSlot;
  lifetime : Lifetime;
  adjustToExposed : option FnPtr
}.

Definition set_primaryDescriptor (p : DescriptorId) (d : Descriptor) : Descriptor :=
  {| priority := priority d; primaryDescriptor := p; sessionSlot := sessionSlot d;
     lifetime := lifetime d; adjustToExposed := adjustToExposed d |}.

Definition set_sessionSlot (s : SessionSlot) (d : Descriptor) : Descriptor :=
  {| priority := priority d; primaryDescriptor := primaryDescriptor d;
     sessionSlot := s; lifetime := lifetime d;
     adjustToExposed := adjustToExposed d |}.

Definition set_factoryMethodDescriptor (f : DescriptorId) (c : DescriptorCold)
    : DescriptorCold :=
  {| exposedType := exposedType c; concreteType := concreteType c;
     name := name c; size := size c; align := align c;
     factoryMethodDescriptor := f; factoryMethodName := factoryMethodName c;
     origin := origin c; lazy := lazy c; construct := construct c;
     destroy := destroy c; postConstruct := postConstruct c;
     preDestroy := preDestroy c; allocAndConstruct := allocAndConstruct c;
     dealloc := dealloc c; observedTypeGetter := observedTypeGetter c;
     exactTypeGetter := exactTypeGetter c; nameStr := nameStr c;
     reflectiveData := reflectiveData c; adjustToConcrete := adjustToConcrete c |}.

(** One injectable parameter of a constructor ([cpd_] fields) and one
    contribution of [discover<>()] ([cd_] fields). *)
Record ContributedParamDescriptor : Type := {
  injectedTypeName : option string;
  injectedTypeInfo : TypeInfo;
  hasScopedAnnotation : bool;
  hasNamedAnnotation : bool;
  targetName : option string;
  scopeName : string
}.

Record ContributedDescriptor : Type := {
  cd_identity : Identity;
  cd_exposedTypeName : string;
  cd_concreteTypeName : string;
  cd_exposedTypeInfo : TypeInfo;
  cd_concreteTypeInfo : TypeInfo;
  cd_beanName : string;
  cd_priority : Z;
  cd_lazy : bool;
  cd_lifetime : Lifetime;
  cd_origin : Origin;
  cd_construct : FnPtr;
  cd_destroy : FnPtr;
  cd_postConstruct : option FnPtr;
  cd_preDestroy : option FnPtr;
  cd_size : N;
  cd_align : N;
  cd_factoryMethodIdentity : Identity;
  cd_factoryMethodName : option string;
  cd_allocAndConstruct : option FnPtr;
  cd_dealloc : option FnPtr;
  cd_params : list ContributedParamDescriptor;
  cd_reflectiveData : option N;
  cd_isExposedAlias : bool;
  cd_aliasOfPrimaryIdentity : Identity;
  cd_adjustToExposed : option FnPtr;
  cd_adjustToConcrete : option FnPtr
}.

(** * [DescriptorTable] *)

Module DescriptorTable.

Record t : Type := {
  entries_ : list Descriptor;
  coldEntries_ : list DescriptorCold;
  lifetimes_ : list Lifetime
}.

Definition empty : t := {| entries_ := []; coldEntries_ := []; lifetimes_ := [] |}.

Definition size (T : t) : N := nlen (entries_ T).

Definition append (d : Descriptor) (cold : DescriptorCold) (T : t)
    : DescriptorId * t :=
  let id := u32 (nlen (entries_ T)) in
  (id, {| entries_ := entries_ T ++ [d];
          coldEntries_ := coldEntries_ T ++ [cold];
          lifetimes_ := lifetimes_ T ++ [lifetime d] |}).

(** The accessors; [None] is the failed [assert]. *)
Definition lifetimeOf (T : t) (id : DescriptorId) : option Lifetime :=
  vat (lifetimes_ T) id.

Definition at_ (T : t) (id : DescriptorId) : option Descriptor :=
  vat (entries_ T) id.

Definition coldAt (T : t) (id : DescriptorId) : option DescriptorCold :=
  vat (coldEntries_ T) id.

(** Writes through the mutable references [atMutable] and [coldAtMutable]. *)
Definition atMutable (id : DescriptorId) (f : Descriptor → Descriptor) (T : t)
    : option t :=
  match vat (entries_ T) id with
  | Some d => Some {| entries_ := vset id (f d) (entries_ T);
                      coldEntries_ := coldEntries_ T;
                      lifetimes_ := lifetimes_ T |}
  | None => None
  end.

Definition coldAtMutable (id : DescriptorId) (f : DescriptorCold → DescriptorCold)
    (T : t) : option t :=
  match vat (coldEntries_ T) id with
  | Some c => Some {| entries_ := entries_ T;
                      coldEntries_ := vset id (f c) (coldEntries_ T);
                      lifetimes_ := lifetimes_ T |}
  | None => None
  end.

(** The three vectors have one element per descriptor and the lifetime vector
    repeats the descriptors' lifetimes. *)
Record wf (T : t) : Prop := {
  wf_cold : nlen (coldEntries_ T) = nlen (entries_ T);
  wf_lifetimes : lifetimes_ T = lifetime <$> entries_ T
}.

(** [T'] extends [T]: ids already given keep their hot and cold blocks. *)
Definition extends (T T' : t) : Prop :=
  size T ≤ size T' ∧
  ∀ id, id < size T →
    at_ T' id = at_ T id ∧ coldAt T' id = coldAt T id ∧
    lifetimeOf T' id = lifetimeOf T id.

Lemma descriptors_wf_empty : wf empty.
Proof. done. Qed.

Lemma wf_lifetimeOf T id : wf T → lifetimeOf T id = lifetime <$> at_ T id.
Proof.
  intros [_ H]. unfold lifetimeOf, at_. rewrite H, !vat_lookup.
  apply list_lookup_fmap.
Qed.

Lemma nlen_lifetimes T : wf T → nlen (lifetimes_ T) = size T.
Proof. intros [_ ->]. unfold nlen, size. by rewrite length_fmap. Qed.

Lemma at_is_Some T id : wf T → id < size T →
  ∃ d c, at_ T id = Some d ∧ coldAt T id = Some c ∧
         lifetimeOf T id = Some (lifetime d).
Proof.
  intros Hwf Hid. assert (is_Some (at_ T id)) as [d Hd] by by apply vat_is_Some.
  assert (is_Some (coldAt T id)) as [c Hc].
  { apply vat_is_Some. by rewrite wf_cold. }
  exists d, c. rewrite wf_lifetimeOf, Hd by done. done.
Qed.

Lemma append_size d c T : size (append d c T).2 = size T + 1.
Proof. unfold size; simpl. by rewrite nlen_snoc. Qed.

Lemma append_wf d c T : wf T → wf (append d c T).2.
Proof.
  intros [H1 H2]. split; simpl.
  - by rewrite !nlen_snoc, H1.
  - by rewrite fmap_app, H2.
Qed.

Lemma append_extends d c T : wf T → extends T (append d c T).2.
Proof.
  intros Hwf. split; [rewrite append_size; lia|].
  intros id Hid. unfold at_, coldAt, lifetimeOf; simpl.
  rewrite !vat_app_l; [done|rewrite nlen_lifetimes by done; done
    |rewrite wf_cold by done; done|done].
Qed.

Lemma append_new d c T : wf T → size T < two32 →
  let '(id, T') := append d c T in
  id = size T ∧ at_ T' id = Some d ∧ coldAt T' id = Some c ∧
  lifetimeOf T' id = Some (lifetime d).
Proof.
  intros Hwf Hlt. simpl. rewrite u32_small by done. unfold at_, coldAt, lifetimeOf.
  simpl. split; [done|]. split; [apply vat_snoc_eq|]. split.
  - rewrite <-(wf_cold _ Hwf). apply vat_snoc_eq.
  - change (nlen (entries_ T)) with (size T).
    rewrite <-(nlen_lifetimes _ Hwf). apply vat_snoc_eq.
Qed.

Lemma atMutable_wf id f T T' :
  (∀ d, lifetime (f d) = lifetime d) →
  wf T → atMutable id f T = Some T' → wf T'.
Proof.
  intros Hf [H1 H2]. unfold atMutable.
  destruct (vat (entries_ T) id) as [d|] eqn:E; intros; simplify_eq. split; simpl.
  - by rewrite nlen_vset.
  - rewrite H2, vset_insert, list_fmap_insert, Hf. rewrite vat_lookup in E.
    symmetry. apply list_insert_id. by rewrite list_lookup_fmap, E.
Qed.

Lemma coldAtMutable_wf id f T T' :
  wf T → coldAtMutable id f T = Some T' → wf T'.
Proof.
  intros [H1 H2]. unfold coldAtMutable.
  destruct (vat (coldEntries_ T) id) eqn:E; intros; simplify_eq. split; simpl.
  - by rewrite nlen_vset.
  - done.
Qed.

Lemma extends_refl T : extends T T.
Proof. split; [lia|done]. Qed.

Lemma extends_trans T1 T2 T3 : extends T1 T2 → extends T2 T3 → extends T1 T3.
Proof.
  intros [H1 H2] [H3 H4]. split; [lia|]. intros id Hid.
  destruct (H2 id Hid) as (? & ? & ?). destruct (H4 id) as (? & ? & ?); [lia|].
  split_and!; congruence.
Qed.

#[export] Instance extends_preorder : PreOrder extends.
Proof. split; [exact extends_refl|exact extends_trans]. Qed.


(** [append] gives dense ids and never disturbs the earlier ones: below
    2^32 descriptors the id is the insertion index, the appended hot block, cold
    block and lifetime are read back at it, the three parallel vectors stay in
    step and every id given before still reads the same blocks. *)
Lemma append_dense_stable (d : Descriptor) (c : DescriptorCold) (T : t) :
  wf T → size T < two32 →
  let '(id, T') := append d c T in
  id = size T ∧ wf T' ∧ extends T T' ∧
  at_ T' id = Some d ∧ coldAt T' id = Some c ∧
  lifetimeOf T' id = Some (lifetime d).
Proof.
  intros Hwf Hlt. pose proof (append_new d c T Hwf Hlt) as (? & ? & ? & ?).
  split; [done|]. split; [by apply append_wf|]. split; [by apply append_extends|].
  done.
Qed.

End DescriptorTable.

(** * [DefaultsTable] *)

Module DefaultsTable.

Record t : Type := { defaults_ : list NameId; size_ : N }.

Definition empty : t := {| defaults_ := []; size_ := 0 |}.

(** [make_unique<atomic<NameId>[]>(typeCount)] value-initialises every slot. *)
Definition resize (typeCount : N) (T : t) : t :=
  {| defaults_ := replicate (N.to_nat typeCount) 0; size_ := typeCount |}.

Definition setDefault (typeId : TypeId) (nameId : NameId) (T : t) : option t :=
  if typeId <? size_ T then
    Some {| defaults_ := vset typeId nameId (defaults_ T); size_ := size_ T |}
  else None.

Definition getDefault (T : t) (typeId : TypeId) : NameId :=
  if size_ T <=? typeId then kUnnamed
  else default kUnnamed (vat (defaults_ T) typeId).

Definition wf (T : t) : Prop := nlen (defaults_ T) = size_ T.

Lemma wf_resize n T : wf (resize n T).
Proof. unfold wf, resize, nlen; simpl. rewrite length_replicate. lia. Qed.

Lemma getDefault_resize n T i : getDefault (resize n T) i = kUnnamed.
Proof.
  unfold getDefault, resize; simpl. destruct (n <=? i); [done|].
  rewrite vat_replicate. by case_decide.
Qed.

Lemma getDefault_out T i : size_ T ≤ i → getDefault T i = kUnnamed.
Proof. intros H. unfold getDefault. by rewrite (proj2 (N.leb_le _ _) H). Qed.

Lemma setDefault_spec T T' i n :
  wf T → setDefault i n T = Some T' →
  wf T' ∧ size_ T' = size_ T ∧ i < size_ T ∧
  (∀ j, getDefault T' j = if decide (j = i) then n else getDefault T j).
Proof.
  unfold wf, setDefault, getDefault. intros Hwf.
  destruct (N.ltb_spec i (size_ T)); intros; simplify_eq; simpl.
  split; [by rewrite nlen_vset|]. split; [done|]. split; [done|].
  intros j. case_decide as E; [subst|].
  - destruct (N.leb_spec (size_ T) i); [lia|].
    rewrite vat_vset_eq; [done|lia].
  - destruct (size_ T <=? j); [done|]. by rewrite vat_vset_ne.
Qed.


(** The table after a sequence of [setDefault] calls, and the map of the same
    writes. *)
Definition setDefaults (ops : list (TypeId * NameId)) (T : t) : option t :=
  foldl (λ acc op, T ← acc; setDefault op.1 op.2 T) (Some T) ops.

Definition writes (ops : list (TypeId * NameId)) (m : gmap N N) : gmap N N :=
  foldl (λ m op, <[op.1 := op.2]> m) m ops.

Lemma setDefault_in_range T i n :
  i < size_ T → is_Some (setDefault i n T).
Proof.
  intros H. unfold setDefault. rewrite (proj2 (N.ltb_lt _ _) H). eauto.
Qed.

Lemma setDefaults_map ops : ∀ T (m : gmap N N),
  wf T → (∀ i, getDefault T i = default kUnnamed (m !! i)) →
  Forall (λ op, op.1 < size_ T) ops →
  ∃ T', setDefaults ops T = Some T' ∧
        ∀ i, getDefault T' i = default kUnnamed (writes ops m !! i).
Proof.
  induction ops as [|[k v] ops IH]; intros T m Hwf Hm Hops.
  { by exists T. }
  apply Forall_cons in Hops as [Hk Hops]; simpl in Hk.
  destruct (setDefault_in_range T k v Hk) as [T1 HT1].
  destruct (setDefault_spec _ _ _ _ Hwf HT1) as (Hwf1 & Hs & _ & Hget).
  destruct (IH T1 (<[k := v]> m)) as (T' & HT' & H'); [done| |by rewrite Hs|].
  - intros i. rewrite Hget. destruct (decide (i = k)) as [->|Hne].
    + by rewrite lookup_insert_eq.
    + by rewrite lookup_insert_ne.
  - exists T'. split; [|done]. unfold setDefaults in *; simpl. by rewrite HT1.
Qed.

(** Refinement of the per-type defaults to a finite map: after [resize] at
    [start()] every in-range sequence of [setDefault] calls succeeds, and
    [getDefault] then answers the last value written for the type, [kUnnamed]
    for a type never written or cleared, and [kUnnamed] out of range. *)
Lemma defaults_refine_map (n : N) (ops : list (TypeId * NameId)) (T : t) :
  Forall (λ op, op.1 < n) ops →
  ∃ T', setDefaults ops (resize n T) = Some T' ∧
        (∀ i, getDefault T' i = default kUnnamed (writes ops ∅ !! i)) ∧
        (∀ i, n ≤ i → getDefault T' i = kUnnamed).
Proof.
  intros H. destruct (setDefaults_map ops (resize n T) ∅) as (T' & HT' & Hget).
  - apply wf_resize.
  - intros i. by rewrite getDefault_resize, lookup_empty.
  - done.
  - exists T'. split_and!; [done|done|]. intros i Hi. rewrite Hget.
    change kUnnamed with (default kUnnamed (@None N)) at 2. f_equal.
    revert H. clear -Hi.
    assert (∀ m : gmap N N, m !! i = None → Forall (λ op, op.1 < n) ops →
      writes ops m !! i = None) as Hw; [|intros; by apply Hw].
    induction ops as [|[k v] ops IH]; intros m Hm H; [done|].
    apply Forall_cons in H as [Hk H]. simpl in Hk. apply IH; [|done].
    rewrite lookup_insert_ne; [done|simpl; lia].
Qed.

End DefaultsTable.
