(* ===== verification/Interning.v ===== *)
(** Interning tables.

    [Module NameInterning] models [internal/detail/NameInterning.hpp] and
    [Module TypeInterning] models [internal/detail/TypeInterning.hpp]: strings
    and types are mapped to dense 32-bit ids.  The mutexes only serialise the
    operations, so each operation is one function of the state. *)
From S2P Require Import Prelude Tables.

Local Open Scope N_scope.

(** * [NameInterning] *)

Module NameInterning.

Record t : Type := {
  nameToId_ : gmap string NameId;
  idToName_ : list string
}.

(** Slot 0 is [kUnnamed], pre-assigned without a map entry. *)
Definition empty : t := {| nameToId_ := ∅; idToName_ := [""%string] |}.

Definition size (T : t) : N := nlen (idToName_ T).

Definition intern (beanName : string) (T : t) : NameId * t :=
  if decide (beanName = ""%string) then (kUnnamed, T)
  else match nameToId_ T !! beanName with
       | Some id => (id, T)
       | None =>
           let id := u32 (nlen (idToName_ T)) in
           (id, {| nameToId_ := <[beanName := id]> (nameToId_ T);
                   idToName_ := idToName_ T ++ [beanName] |})
       end.

Definition lookup (T : t) (beanName : string) : NameId :=
  if decide (beanName = ""%string) then kUnnamed
  else default kInvalidNameId (nameToId_ T !! beanName).

(** [None] is the failed [assert] of an id that was never given. *)
Definition nameOf (T : t) (id : NameId) : option string := vat (idToName_ T) id.

(** The table is a bijection between the interned non-empty strings and the ids
    [1 .. size-1], below the sentinels. *)
Record wf (T : t) : Prop := {
  wf_unnamed : nameOf T 0 = Some ""%string;
  wf_forward : ∀ s id, nameToId_ T !! s = Some id →
    s ≠ ""%string ∧ nameOf T id = Some s ∧ 0 < id;
  wf_backward : ∀ id s, nameOf T id = Some s → 0 < id →
    nameToId_ T !! s = Some id;
  wf_small : size T ≤ kThreadLocalSentinel - 1
}.

Lemma names_wf_empty : wf empty.
Proof.
  split.
  - done.
  - intros s id H. simpl in H. by rewrite lookup_empty in H.
  - intros id s H Hid. apply vat_lt in H. unfold nlen in H; simpl in H. lia.
  - done.
Qed.

Lemma intern_empty_string T : intern "" T = (kUnnamed, T).
Proof. done. Qed.

Lemma name_intern_wf s T : wf T → size T < kThreadLocalSentinel - 1 → wf (intern s T).2.
Proof.
  intros [H0 Hf Hb Hs] Hsz. unfold intern. case_decide as Hne; [done|].
  destruct (nameToId_ T !! s) as [id|] eqn:E; [done|]. simpl.
  assert (u32 (nlen (idToName_ T)) = size T) as Hid.
  { apply u32_small. unfold size, kThreadLocalSentinel, kInvalidNameId, two32 in *. lia. }
  assert (0 < size T) as Hpos by (by apply vat_lt in H0).
  rewrite Hid. split; unfold nameOf, size in *; simpl.
  - by apply vat_app_Some.
  - intros s' id'. destruct (decide (s' = s)) as [->|Hs'].
    + rewrite lookup_insert_eq. intros; simplify_eq. split_and!; [done| |done].
      apply vat_snoc_eq.
    + rewrite lookup_insert_ne by done. intros H.
      destruct (Hf _ _ H) as (? & ? & ?). split_and!; [done| |done].
      by apply vat_app_Some.
  - intros id' s' H Hpos'. apply vat_snoc_inv in H as [H|[-> ->]].
    + rewrite lookup_insert_ne; [by apply Hb|]. intros <-.
      pose proof (Hb _ _ H Hpos'). congruence.
    + by rewrite lookup_insert_eq.
  - rewrite nlen_snoc. lia.
Qed.

Lemma intern_lookup s T : wf T → size T < kThreadLocalSentinel - 1 →
  lookup (intern s T).2 s = (intern s T).1.
Proof.
  intros Hwf Hsz. unfold lookup, intern. case_decide; [done|].
  destruct (nameToId_ T !! s) as [id|] eqn:E; simpl; [by rewrite E|].
  by rewrite lookup_insert_eq.
Qed.

Lemma lookup_cases s T : wf T → lookup T s ≠ kInvalidNameId →
  nameOf T (lookup T s) = Some s.
Proof.
  intros Hwf. unfold lookup. case_decide as Hs.
  - intros _. subst. apply Hwf.
  - destruct (nameToId_ T !! s) as [id|] eqn:E; simpl; [|done].
    intros _. by apply Hwf in E as (_ & ? & _).
Qed.

Lemma nameOf_lookup s id T : wf T → nameOf T id = Some s → lookup T s = id.
Proof.
  intros Hwf H. unfold lookup. destruct (decide (id = 0)) as [->|Hid].
  - rewrite (wf_unnamed _ Hwf) in H. simplify_eq. by rewrite decide_True.
  - pose proof (wf_backward _ Hwf _ _ H ltac:(lia)) as E.
    rewrite decide_False; [by rewrite E|].
    by apply (wf_forward _ Hwf) in E as (? & _).
Qed.

Lemma intern_stable s T id : wf T → nameOf T id ≠ None →
  nameOf (intern s T).2 id = nameOf T id.
Proof.
  intros Hwf Hid. unfold intern. case_decide; [done|].
  destruct (nameToId_ T !! s); [done|]. unfold nameOf in *; simpl.
  destruct (vat (idToName_ T) id) eqn:E; [|done]. by apply vat_app_Some.
Qed.

Lemma intern_reads s T : wf T → size T < kThreadLocalSentinel - 1 →
  nameOf (intern s T).2 (intern s T).1 = Some s ∧
  intern s (intern s T).2 = intern s T.
Proof.
  intros Hwf Hsz. unfold intern. case_decide as Hs; simpl.
  - subst. split; [apply Hwf|done].
  - destruct (nameToId_ T !! s) as [i|] eqn:E; simpl.
    + rewrite E. split; [by apply Hwf in E as (_ & ? & _)|done].
    + unfold nameOf; simpl. rewrite lookup_insert_eq. split; [|done].
      rewrite u32_small; [apply vat_snoc_eq|].
      unfold size, kThreadLocalSentinel, kInvalidNameId, two32 in *. lia.
Qed.

Lemma intern_size s T : size T ≤ size (intern s T).2 ≤ size T + 1.
Proof.
  unfold intern. case_decide; [simpl; lia|]. destruct (nameToId_ T !! s); simpl; [lia|].
  unfold size; simpl. rewrite nlen_snoc. lia.
Qed.

(** Round trip of name interning: on a well-formed table below the 32-bit
    sentinels, [intern] keeps the bijection, the id it returns reads back the
    interned string, [lookup] finds the same id afterwards, a second [intern]
    changes nothing, every earlier id keeps its string, and the id is none of
    the reserved values [kInvalidNameId] and [kThreadLocalSentinel]. *)
Theorem name_intern_roundtrip (s : string) (T : t) :
  wf T → size T < kThreadLocalSentinel - 1 →
  let '(id, T') := intern s T in
  wf T' ∧ nameOf T' id = Some s ∧ lookup T' s = id ∧ intern s T' = (id, T') ∧
  id < kThreadLocalSentinel ∧
  (∀ i s', nameOf T i = Some s' → nameOf T' i = Some s' ∧ lookup T' s' = i).
Proof.
  intros Hwf Hsz. pose proof (name_intern_wf s T Hwf Hsz) as Hwf'.
  pose proof (intern_lookup s T Hwf Hsz) as Hl.
  assert (∀ i s', nameOf T i = Some s' → nameOf (intern s T).2 i = Some s') as Hst.
  { intros i s' H. rewrite intern_stable; [done|done|congruence]. }
  destruct (intern_reads s T Hwf Hsz) as [Hn Hi].
  destruct (intern s T) as [id T'] eqn:E; simpl in *.
  split_and!; try done.
  - apply vat_lt in Hn. pose proof (wf_small _ Hwf'). unfold size in *. lia.
  - intros i s' H. split; [by eauto|]. apply nameOf_lookup; eauto.
Qed.

End NameInterning.

(** * [TypeInterning] *)

Module TypeInterning.

Record t : Type := {
  nameToId_ : gmap string TypeId;
  idToName_ : list string;
  indexToId_ : gmap N TypeId;
  overflowNameToId_ : gmap string TypeId;
  overflowIdToName_ : list string;
  overflowIndexToId_ : gmap N TypeId;
  frozen_ : bool
}.

Definition empty : t :=
  {| nameToId_ := ∅; idToName_ := []; indexToId_ := ∅;
     overflowNameToId_ := ∅; overflowIdToName_ := []; overflowIndexToId_ := ∅;
     frozen_ := false |}.

(** [unordered_map::emplace] keeps the value of a key that is present. *)
Definition emplace {K V} `{Countable K} (k : K) (v : V) (m : gmap K V) : gmap K V :=
  match m !! k with Some _ => m | None => <[k := v]> m end.

Definition internByName (qualifiedName : string) (typeInfoGetter : TypeInfo) (T : t)
    : TypeId * t :=
  match nameToId_ T !! qualifiedName with
  | Some id => (id, T)
  | None =>
      if negb (frozen_ T) then
        let id := u32 (nlen (idToName_ T)) in
        (id, {| nameToId_ := <[qualifiedName := id]> (nameToId_ T);
                idToName_ := idToName_ T ++ [qualifiedName];
                indexToId_ := emplace typeInfoGetter id (indexToId_ T);
                overflowNameToId_ := overflowNameToId_ T;
                overflowIdToName_ := overflowIdToName_ T;
                overflowIndexToId_ := overflowIndexToId_ T;
                frozen_ := frozen_ T |})
      else
        match overflowNameToId_ T !! qualifiedName with
        | Some id => (id, T)
        | None =>
            let id := u32 (nlen (idToName_ T) + nlen (overflowIdToName_ T)) in
            (id, {| nameToId_ := nameToId_ T;
                    idToName_ := idToName_ T;
                    indexToId_ := indexToId_ T;
                    overflowNameToId_ := <[qualifiedName := id]> (overflowNameToId_ T);
                    overflowIdToName_ := overflowIdToName_ T ++ [qualifiedName];
                    overflowIndexToId_ :=
                      emplace typeInfoGetter id (overflowIndexToId_ T);
                    frozen_ := frozen_ T |})
        end
  end.

Definition freeze (T : t) : t :=
  {| nameToId_ := nameToId_ T; idToName_ := idToName_ T; indexToId_ := indexToId_ T;
     overflowNameToId_ := overflowNameToId_ T;
     overflowIdToName_ := overflowIdToName_ T;
     overflowIndexToId_ := overflowIndexToId_ T; frozen_ := true |}.

Definition lookupByTypeIndex (T : t) (index : TypeInfo) : TypeId :=
  match indexToId_ T !! index with
  | Some id => id
  | None => default kInvalidTypeId (overflowIndexToId_ T !! index)
  end.

Definition nameOf (T : t) (id : TypeId) : option string :=
  let baseSize := nlen (idToName_ T) in
  if id <? baseSize then vat (idToName_ T) id
  else vat (overflowIdToName_ T) (id - baseSize).

Definition size (T : t) : N := nlen (idToName_ T) + nlen (overflowIdToName_ T).

(** The id of a name, whichever map holds it. *)
Definition idOf (T : t) (n : string) : option TypeId :=
  match nameToId_ T !! n with
  | Some id => Some id
  | None => overflowNameToId_ T !! n
  end.

Record wf (T : t) : Prop := {
  wf_bij : ∀ n id, idOf T n = Some id ↔ nameOf T id = Some n;
  wf_start : ∀ n id, nameToId_ T !! n = Some id → id < nlen (idToName_ T);
  wf_over : ∀ n id, overflowNameToId_ T !! n = Some id →
    nlen (idToName_ T) ≤ id ∧ nameToId_ T !! n = None;
  wf_unfrozen : frozen_ T = false →
    overflowIdToName_ T = [] ∧ overflowNameToId_ T = ∅ ∧ overflowIndexToId_ T = ∅
}.

Lemma nameOf_lt T id n : nameOf T id = Some n → id < size T.
Proof.
  unfold nameOf, size. destruct (N.ltb_spec id (nlen (idToName_ T))); intros E.
  - apply vat_lt in E. lia.
  - apply vat_lt in E. lia.
Qed.

Lemma types_wf_empty : wf empty.
Proof.
  split; try done.
  intros n id. unfold idOf; simpl. rewrite !lookup_empty. split; [done|].
  intros H. apply nameOf_lt in H. unfold size, nlen in H; simpl in H. lia.
Qed.

Lemma freeze_wf T : wf T → wf (freeze T).
Proof. intros [H1 H2 H3 _]. by split. Qed.

Lemma emplace_fresh {K V} `{Countable K} (k : K) (v : V) (m : gmap K V) :
  m !! k = None → emplace k v m !! k = Some v.
Proof. intros E. unfold emplace. by rewrite E, lookup_insert_eq. Qed.

Lemma emplace_ne {K V} `{Countable K} (k k' : K) (v : V) (m : gmap K V) :
  k ≠ k' → emplace k v m !! k' = m !! k'.
Proof.
  intros Hne. unfold emplace. destruct (m !! k); [done|]. by rewrite lookup_insert_ne.
Qed.

(** The first contribution of a name: it takes the next id of the sequence
    formed by the startup names followed by the overflow names. *)
Lemma nameOf_startup T n g id : frozen_ T = false → nameToId_ T !! n = None →
  wf T → size T < two32 →
  nameOf (internByName n g T).2 id =
    if decide (id = size T) then Some n else nameOf T id.
Proof.
  intros Hf Hn Hwf Hsz. unfold internByName. rewrite Hn, Hf. simpl.
  destruct (wf_unfrozen _ Hwf Hf) as (Ho & _ & _).
  unfold nameOf, size in *; simpl. rewrite Ho in *. rewrite nlen_snoc.
  change (nlen []) with 0 in *. rewrite N.add_0_r in *.
  case_decide as Hid; [subst|].
  - rewrite (proj2 (N.ltb_lt _ _)) by lia. apply vat_snoc_eq.
  - destruct (N.ltb_spec id (nlen (idToName_ T))).
    + rewrite (proj2 (N.ltb_lt _ _)) by lia. by apply vat_app_l.
    + rewrite (proj2 (N.ltb_ge _ _)) by lia.
      rewrite !(proj2 (vat_None _ _)); unfold nlen; simpl; [done|lia|lia].
Qed.

Lemma nameOf_overflow T n g id : frozen_ T = true → idOf T n = None →
  wf T → size T < two32 →
  nameOf (internByName n g T).2 id =
    if decide (id = size T) then Some n else nameOf T id.
Proof.
  unfold idOf. intros Hf Hn Hwf Hsz. destruct (nameToId_ T !! n) eqn:Hs; [done|].
  unfold internByName. rewrite Hs, Hf, Hn. simpl. unfold nameOf, size in *; simpl.
  case_decide as Hid; [subst|].
  - rewrite (proj2 (N.ltb_ge _ _)) by lia.
    replace (_ + _ - _) with (nlen (overflowIdToName_ T)) by lia. apply vat_snoc_eq.
  - destruct (N.ltb_spec id (nlen (idToName_ T))); [done|].
    destruct (decide (id - nlen (idToName_ T) < nlen (overflowIdToName_ T))).
    + by apply vat_app_l.
    + rewrite !(proj2 (vat_None _ _)); [done|lia|rewrite nlen_snoc; lia].
Qed.

Lemma idOf_new T n g : idOf T n = None → wf T → size T < two32 →
  (internByName n g T).1 = size T ∧
  (∀ m, idOf (internByName n g T).2 m = if decide (m = n) then Some (size T) else idOf T m).
Proof.
  unfold idOf, internByName. intros Hn Hwf Hsz.
  destruct (nameToId_ T !! n) eqn:Hs; [done|].
  destruct (frozen_ T) eqn:Hf; simpl; [rewrite Hn; simpl|].
  - unfold size in *. rewrite u32_small by done. split; [done|]. intros m.
    case_decide as Hm; [subst; by rewrite Hs, lookup_insert_eq|].
    by rewrite lookup_insert_ne.
  - destruct (wf_unfrozen _ Hwf Hf) as (Ho & Hoe & _). unfold size in *.
    rewrite Ho in *. change (nlen []) with 0 in *. rewrite N.add_0_r in *.
    rewrite u32_small by done. split; [done|]. intros m.
    case_decide as Hm; [subst; by rewrite lookup_insert_eq|].
    by rewrite lookup_insert_ne.
Qed.

Lemma intern_known T n g id : idOf T n = Some id →
  frozen_ T = true ∨ nameToId_ T !! n ≠ None → internByName n g T = (id, T).
Proof.
  unfold idOf, internByName. intros Hn Hor.
  destruct (nameToId_ T !! n) eqn:Hs; [by simplify_eq|].
  destruct Hor as [->|?]; [|done]. simpl. by rewrite Hn.
Qed.

Lemma wf_known T n id : wf T → idOf T n = Some id →
  frozen_ T = true ∨ nameToId_ T !! n ≠ None.
Proof.
  intros Hwf Hn. destruct (frozen_ T) eqn:Hf; [by left|right].
  destruct (wf_unfrozen _ Hwf Hf) as (_ & Ho & _). unfold idOf in Hn.
  rewrite Ho, lookup_empty in Hn. by destruct (nameToId_ T !! n).
Qed.

Lemma nameOf_new T n g id : idOf T n = None → wf T → size T < two32 →
  nameOf (internByName n g T).2 id =
    if decide (id = size T) then Some n else nameOf T id.
Proof.
  intros Hn Hwf Hsz. destruct (frozen_ T) eqn:Hf.
  - by apply nameOf_overflow.
  - apply nameOf_startup; try done. unfold idOf in Hn.
    by destruct (nameToId_ T !! n).
Qed.

Lemma type_intern_wf T n g : wf T → size T < two32 → wf (internByName n g T).2.
Proof.
  intros Hwf Hsz. destruct (idOf T n) as [id|] eqn:Hn.
  { rewrite (intern_known _ _ _ id); eauto using wf_known. }
  destruct (idOf_new _ _ g Hn Hwf Hsz) as [Hid Hof].
  pose proof (λ i, nameOf_new _ _ g i Hn Hwf Hsz) as Hno.
  split.
  - intros m i. rewrite Hof, Hno.
    destruct (decide (m = n)) as [->|Hm], (decide (i = size T)) as [->|Hi].
    + done.
    + split; [congruence|]. intros H%(wf_bij _ Hwf). congruence.
    + split; [|congruence]. intros H%(wf_bij _ Hwf)%nameOf_lt. lia.
    + apply (wf_bij _ Hwf).
  - intros m i. unfold internByName, idOf, size in *.
    destruct (nameToId_ T !! n) eqn:Hs; [done|].
    destruct (frozen_ T) eqn:Hf; simpl; [rewrite Hn; apply (wf_start _ Hwf)|].
    destruct (wf_unfrozen _ Hwf Hf) as (Ho & _ & _). rewrite Ho in *.
    change (nlen []) with 0 in *. rewrite N.add_0_r in *. rewrite nlen_snoc.
    destruct (decide (m = n)) as [->|Hm].
    + rewrite lookup_insert_eq, u32_small by done. intros; simplify_eq. lia.
    + rewrite lookup_insert_ne by done. intros H%(wf_start _ Hwf). lia.
  - intros m i. unfold internByName, idOf, size in *.
    destruct (nameToId_ T !! n) eqn:Hs; [done|].
    destruct (frozen_ T) eqn:Hf; simpl.
    + rewrite Hn; simpl. destruct (decide (m = n)) as [->|Hm].
      * rewrite lookup_insert_eq, u32_small by done. intros; simplify_eq. split; [lia|done].
      * rewrite lookup_insert_ne by done. apply (wf_over _ Hwf).
    + destruct (wf_unfrozen _ Hwf Hf) as (_ & Hoe & _).
      rewrite Hoe, lookup_empty. done.
  - unfold internByName, idOf in *. destruct (nameToId_ T !! n) eqn:Hs; [done|].
    destruct (frozen_ T) eqn:Hf; simpl; [rewrite Hn; simpl; congruence|].
    intros _. by apply (wf_unfrozen _ Hwf).
Qed.

Lemma size_new T n g : idOf T n = None → size (internByName n g T).2 = size T + 1.
Proof.
  unfold idOf, internByName, size. intros Hn.
  destruct (nameToId_ T !! n); [done|].
  destruct (frozen_ T); simpl; [rewrite Hn; simpl|]; rewrite nlen_snoc; lia.
Qed.

Lemma intern_frozen T n g : frozen_ (internByName n g T).2 = frozen_ T.
Proof.
  unfold internByName. destruct (nameToId_ T !! n); [done|].
  destruct (frozen_ T) eqn:Hf; simpl; [|done].
  destruct (overflowNameToId_ T !! n); [done|]. done.
Qed.

Lemma lookupByTypeIndex_other T n g g' : wf T → g' ≠ g →
  lookupByTypeIndex (internByName n g T).2 g' = lookupByTypeIndex T g'.
Proof.
  intros Hwf Hg. unfold internByName, lookupByTypeIndex.
  destruct (nameToId_ T !! n); [done|].
  destruct (frozen_ T) eqn:Hf; simpl.
  - destruct (overflowNameToId_ T !! n); [done|]. simpl. by rewrite emplace_ne.
  - by rewrite emplace_ne.
Qed.

(** A type is indexed once its name is new and no contribution used its
    [type_info] before. *)
Lemma lookupByTypeIndex_new T n g : wf T → idOf T n = None →
  indexToId_ T !! g = None → overflowIndexToId_ T !! g = None →
  lookupByTypeIndex (internByName n g T).2 g = (internByName n g T).1.
Proof.
  unfold idOf. intros Hwf Hn Hi Ho. unfold internByName, lookupByTypeIndex.
  destruct (nameToId_ T !! n); [done|].
  destruct (frozen_ T) eqn:Hf; simpl.
  - rewrite Hn; simpl. by rewrite Hi, emplace_fresh.
  - by rewrite emplace_fresh.
Qed.

(** One [internByName]: the id reads the name, the earlier names stay. *)
Lemma intern_type_reads n g T : wf T → size T < two32 →
  let T' := (internByName n g T).2 in
  nameOf T' (internByName n g T).1 = Some n ∧
  (∀ i m, nameOf T i = Some m → nameOf T' i = Some m) ∧
  size T ≤ size T' ≤ size T + 1.
Proof.
  intros Hwf Hsz. destruct (idOf T n) as [id|] eqn:Hn.
  - rewrite (intern_known _ _ _ id) by eauto using wf_known. simpl.
    split_and!; [by apply (wf_bij _ Hwf)|done|lia|lia].
  - destruct (idOf_new T n g Hn Hwf Hsz) as [Hid _]. simpl. rewrite Hid, size_new by done.
    split_and!; [|intros i m Hi|lia..]; rewrite nameOf_new by done.
    + by rewrite decide_True.
    + rewrite decide_False; [done|]. apply nameOf_lt in Hi. lia.
Qed.

(** Type interning is dense and stable across [freeze()]: on a well-formed
    table the interned name reads back at its id, a second [internByName] is the
    identity, a name not seen before takes the next id whether it lands in the
    startup maps or in the overflow, earlier ids keep their names, the lookup by
    [type_info] of any other type is unchanged, and a fresh [type_info] is found
    at the new id. *)
Theorem type_intern_dense (n : string) (g : TypeInfo) (T : t) :
  wf T → size T < two32 →
  let '(id, T') := internByName n g T in
  wf T' ∧ nameOf T' id = Some n ∧ internByName n g T' = (id, T') ∧
  (idOf T n = None → id = size T ∧ size T' = size T + 1) ∧
  (∀ i m, nameOf T i = Some m → nameOf T' i = Some m) ∧
  (∀ g', g' ≠ g → lookupByTypeIndex T' g' = lookupByTypeIndex T g') ∧
  (idOf T n = None → indexToId_ T !! g = None → overflowIndexToId_ T !! g = None →
   lookupByTypeIndex T' g = id).
Proof.
  intros Hwf Hsz. pose proof (type_intern_wf T n g Hwf Hsz) as Hwf'.
  pose proof (λ g', lookupByTypeIndex_other T n g g' Hwf) as Hoth.
  pose proof (lookupByTypeIndex_new T n g Hwf) as Hnew.
  destruct (idOf T n) as [id|] eqn:Hn.
  - rewrite (intern_known _ _ _ id); [|done|by eapply wf_known].
    rewrite (intern_known T n g id); [|done|by eapply wf_known].
    split_and!; try done. by apply (wf_bij _ Hwf).
  - destruct (idOf_new T n g Hn Hwf Hsz) as [Hid Hof].
    pose proof (λ i, nameOf_new T n g i Hn Hwf Hsz) as Hno.
    pose proof (size_new T n g Hn) as Hs'.
    destruct (internByName n g T) as [id T'] eqn:E; simpl in *. subst id.
    specialize (Hof n) as Hofn. rewrite decide_True in Hofn by done.
    split_and!; try done.
    + rewrite Hno. by rewrite decide_True.
    + apply intern_known; [done|]. by eapply wf_known.
    + intros i m Hi. rewrite Hno. rewrite decide_False; [done|].
      apply nameOf_lt in Hi. lia.
Qed.

End TypeInterning.
