(* ===== verification/Caches.v ===== *)
(** The lookup tables beside the registry's core ([internal/detail/Registry.hpp]).

    [Module ScopeTable] is the two-level table from scope names to scopes;
    [Module ScopeNameCache] the packed cache of a scope name at a call site;
    [Module TypeIdCache] the slots each type claims in the process and the
    [TypeId]s a registry caches in them. *)
From S2P Require Import Prelude Tables Interning.

Local Open Scope N_scope.

Module ScopeTable.
Local Open Scope ctr_scope.

Definition kScopeChunkSize : N := 256.
Definition kScopeTopCapacity : N := 256.

(** [scopeChunks_]: a null pointer or a published chunk. *)
Definition t : Type := list (option (list ptr)).

Definition empty : t := replicate (N.to_nat kScopeTopCapacity) None.

Definition new_chunk : list ptr := replicate (N.to_nat kScopeChunkSize) nullptr.

Definition capacity_error : exn :=
  ConfigurationError "Registry::registerScope: scope NameId exceeds segmented scope table capacity.".

Definition registerScope (id : NameId) (scope : ptr) : M t unit := λ T,
  let chunkIndex := id / kScopeChunkSize in
  if kScopeTopCapacity <=? chunkIndex then (Throw capacity_error, T)
  else match vat T chunkIndex with
       | None => (Ub, T)
       | Some c => (Ok tt, vset chunkIndex
           (Some (vset (id mod kScopeChunkSize) scope (default new_chunk c))) T)
       end.

Definition findScope (T : t) (id : NameId) : ptr :=
  let chunkIndex := id / kScopeChunkSize in
  if kScopeTopCapacity <=? chunkIndex then nullptr
  else match mjoin (vat T chunkIndex) with
       | None => nullptr
       | Some c => default nullptr (vat c (id mod kScopeChunkSize))
       end.

(** ** Refinement *)

(** The names the table has room for. *)
Definition room (id : NameId) : Prop := id < kScopeChunkSize * kScopeTopCapacity.

#[export] Instance room_dec id : Decision (room id).
Proof. unfold room. apply _. Defined.

Lemma room_spec id : (kScopeTopCapacity <=? id / kScopeChunkSize) = negb (bool_decide (room id)).
Proof.
  assert (room id ↔ id / kScopeChunkSize < kScopeTopCapacity) as Hiff.
  { unfold room. split; intros H.
    - by apply N.Div0.div_lt_upper_bound.
    - pose proof (N.mod_upper_bound id kScopeChunkSize ltac:(done)).
      pose proof (N.div_mod id kScopeChunkSize ltac:(done)). unfold kScopeChunkSize, kScopeTopCapacity in *. lia. }
  case_bool_decide as H; simpl; [apply N.leb_gt|apply N.leb_le]; unfold kScopeTopCapacity in *.
  - by apply Hiff.
  - apply N.nlt_ge. by rewrite <-Hiff.
Qed.

(** The table has its shape and holds the map [m]. *)
Record holds (T : t) (m : gmap NameId ptr) : Prop := {
  h_top : nlen T = kScopeTopCapacity;
  h_chunk i c : vat T i = Some (Some c) → nlen c = kScopeChunkSize;
  h_map id : room id → findScope T id = default nullptr (m !! id)
}.

Lemma holds_empty : holds empty ∅.
Proof.
  assert (∀ i, mjoin (vat empty i) = None) as He.
  { intros i. unfold empty. rewrite vat_replicate. by case_decide. }
  split; [done| |].
  - intros i c H. specialize (He i). by rewrite H in He.
  - intros id Hid. rewrite lookup_empty. unfold findScope. by destruct (_ <=? _); rewrite ?He.
Qed.

Lemma findScope_empty id : findScope empty id = nullptr.
Proof.
  unfold findScope, empty. rewrite vat_replicate. by case_decide; destruct (_ <=? _).
Qed.

Lemma split_inj i j : i / kScopeChunkSize = j / kScopeChunkSize →
  i mod kScopeChunkSize = j mod kScopeChunkSize → i = j.
Proof.
  intros Hd Hm. rewrite (N.div_mod i kScopeChunkSize), (N.div_mod j kScopeChunkSize) by done.
  by rewrite Hd, Hm.
Qed.

Lemma registerScope_holds id scope T m : holds T m → room id →
  ∃ T', registerScope id scope T = (Ok tt, T') ∧ holds T' (<[id := scope]> m).
Proof.
  intros [Ht Hc Hm] Hid. unfold registerScope. rewrite room_spec, bool_decide_true by done. simpl.
  destruct (proj2 (vat_is_Some T (id / kScopeChunkSize))) as [c Hv].
  { rewrite Ht. pose proof (room_spec id) as Hr. rewrite bool_decide_true in Hr by done. by apply N.leb_gt in Hr. }
  rewrite Hv. set (k := id / kScopeChunkSize) in *. set (o := id mod kScopeChunkSize).
  assert (nlen (default new_chunk c) = kScopeChunkSize) as Hlen.
  { destruct c as [c|]; [by apply (Hc k)|done]. }
  assert (o < kScopeChunkSize) as Ho by by apply N.mod_upper_bound.
  pose proof (vat_lt _ _ _ Hv) as Hk.
  eexists. split; [done|]. split.
  - by rewrite nlen_vset.
  - intros i c'. rewrite vat_vset by done. case_decide as Hi; [|apply Hc].
    intros [= <-]. by rewrite nlen_vset.
  - intros id' Hid'. unfold findScope. rewrite room_spec, bool_decide_true by done. simpl.
    rewrite vat_vset by done. pose proof (Hm id' Hid') as Hold. unfold findScope in Hold.
    rewrite room_spec, bool_decide_true in Hold by done. simpl in Hold.
    case_decide as Hk'; simpl.
    + rewrite vat_vset by by rewrite Hlen. case_decide as Ho'.
      * rewrite (split_inj id' id) by done. by rewrite lookup_insert_eq.
      * rewrite lookup_insert_ne by (intros ->; by destruct Ho'). rewrite <-Hold.
        rewrite Hk', Hv. simpl. destruct c as [c|]; [done|]. simpl. unfold new_chunk.
        rewrite vat_replicate. by case_decide.
    + rewrite lookup_insert_ne by (intros ->; by destruct Hk'). exact Hold.
Qed.

(** A sequence of registrations; the caller of a failing one sees the exception. *)
Fixpoint registers (ops : list (NameId * ptr)) (T : t) : t :=
  match ops with
  | [] => T
  | (id, scope) :: ops' => registers ops' (registerScope id scope T).2
  end.

Definition registered (ops : list (NameId * ptr)) : gmap NameId ptr :=
  foldl (λ m op, if decide (room op.1) then <[op.1 := op.2]> m else m) ∅ ops.

(** The scope table refines a finite map: after any registrations, [findScope] returns
    the scope last registered under a name, null for a name never registered, and the
    names from 65536 on are refused by [registerScope] and never found. *)
Theorem scope_table_refines_map (ops : list (NameId * ptr)) (id : NameId) :
  let T := registers ops empty in
  findScope T id = (if decide (room id) then default nullptr (registered ops !! id) else nullptr) ∧
  (∀ scope, (registerScope id scope T).1 =
     if decide (room id) then Ok tt else Throw capacity_error).
Proof.
  intros T. assert (holds T (registered ops)) as H.
  { unfold T, registered. generalize holds_empty. generalize (∅ : gmap NameId ptr). generalize empty.
    induction ops as [|[i s] ops IH]; intros T0 m H0; [done|]. cbn [registers foldl fst snd].
    apply IH. case_decide as Hr.
    - by destruct (registerScope_holds i s T0 m H0 Hr) as (T' & -> & H').
    - unfold registerScope. by rewrite room_spec, bool_decide_false. }
  split.
  - case_decide as Hr; [by apply (h_map _ _ H)|]. unfold findScope.
    by rewrite room_spec, bool_decide_false.
  - intros scope. case_decide as Hr.
    + by destruct (registerScope_holds id scope T _ H Hr) as (T' & -> & _).
    + unfold registerScope. by rewrite room_spec, bool_decide_false.
Qed.

End ScopeTable.

Module ScopeNameCache.

(** The name tables of the registries of the process, by registry id, and the packed
    atomic of one call site: [(registryId << 32) | NameId]. *)
Record t : Type := {
  names : gmap N NameInterning.t;
  cache : N
}.

Definition names_of (r : N) (S : t) : NameInterning.t :=
  default NameInterning.empty (names S !! r).

Definition set_names (r : N) (T : NameInterning.t) (S : t) : t :=
  {| names := <[r := T]> (names S); cache := cache S |}.

(** [internNameSafe] *)
Definition internNameSafe (r : N) (name : string) (S : t) : NameId * t :=
  if decide (name = ""%string) then (kUnnamed, S)
  else let '(id, T) := NameInterning.intern name (names_of r S) in (id, set_names r T S).

Definition pack (r : N) (id : NameId) : N := N.lor (N.shiftl r 32) id.

Definition internScopeNameCached (r : N) (name : string) (S : t) : NameId * t :=
  if decide (name = ""%string) then (kUnnamed, S)
  else
    let e := cache S in
    if N.shiftr e 32 =? r then (N.land e 0xFFFFFFFF, S)
    else
      let '(nid, S') := internNameSafe r name S in
      (nid, {| names := names S'; cache := pack r nid |}).

(** ** The cache is transparent *)

Lemma unpack_id r id : id < two32 → N.land (pack r id) 0xFFFFFFFF = id.
Proof.
  intros H. unfold pack. change 0xFFFFFFFF with (N.ones 32). rewrite N.land_lor_distr_l.
  rewrite !N.land_ones, N.shiftl_mul_pow2, N.Div0.mod_mul, N.lor_0_l.
  by apply N.mod_small.
Qed.

Lemma unpack_registry r id : id < two32 → N.shiftr (pack r id) 32 = r.
Proof.
  intros H. unfold pack. rewrite N.shiftr_lor, N.shiftr_shiftl_l by done.
  rewrite N.sub_diag, N.shiftl_0_r, (N.shiftr_div_pow2 id).
  rewrite (N.div_small id) by exact H. apply N.lor_0_r.
Qed.

(** Every id is a 32-bit number. *)
Definition small_ids (T : NameInterning.t) : Prop :=
  ∀ s id, NameInterning.nameToId_ T !! s = Some id → id < two32.

Lemma intern_small s T : small_ids T → small_ids (NameInterning.intern s T).2.
Proof.
  intros H. unfold NameInterning.intern. case_decide; [done|].
  destruct (NameInterning.nameToId_ T !! s); [done|]. intros s' id. simpl.
  destruct (decide (s' = s)) as [->|Hne]; [|rewrite lookup_insert_ne by done; apply H].
  rewrite lookup_insert_eq. intros [= <-]. apply u32_lt.
Qed.

Lemma intern_entry s T : s ≠ ""%string →
  NameInterning.nameToId_ (NameInterning.intern s T).2 !! s = Some (NameInterning.intern s T).1.
Proof.
  intros Hs. unfold NameInterning.intern. rewrite decide_False by done.
  destruct (NameInterning.nameToId_ T !! s) eqn:E; [done|]. simpl. by rewrite lookup_insert_eq.
Qed.

Lemma entry_stable s s' T id : NameInterning.nameToId_ T !! s = Some id →
  NameInterning.nameToId_ (NameInterning.intern s' T).2 !! s = Some id.
Proof.
  intros H. unfold NameInterning.intern. case_decide; [done|].
  destruct (NameInterning.nameToId_ T !! s') eqn:E; [done|]. simpl.
  rewrite lookup_insert_ne; [done|]. intros ->. congruence.
Qed.

Lemma intern_hit s T id : s ≠ ""%string → NameInterning.nameToId_ T !! s = Some id →
  NameInterning.intern s T = (id, T).
Proof. intros Hs H. unfold NameInterning.intern. by rewrite decide_False, H. Qed.

Record coherent (name : string) (S : t) : Prop := {
  co_small r : small_ids (names_of r S);
  co_cache : cache S = 0 ∨ ∃ r id, cache S = pack r id ∧ id < two32 ∧
    NameInterning.nameToId_ (names_of r S) !! name = Some id
}.

Definition start : t := {| names := ∅; cache := 0 |}.

Lemma coherent_start name : coherent name start.
Proof. split; [|by left]. intros r s id. unfold names_of, start. simpl. by rewrite !lookup_empty. Qed.

Lemma names_of_set r r' T S : names_of r (set_names r' T S) = if decide (r = r') then T else names_of r S.
Proof.
  unfold names_of, set_names. simpl. case_decide as H; [subst; by rewrite lookup_insert_eq|].
  by rewrite lookup_insert_ne.
Qed.

Lemma intern_coherent name r s S : coherent name S → coherent name (internNameSafe r s S).2.
Proof.
  intros [Hs Hc]. unfold internNameSafe. case_decide; [done|].
  pose proof (intern_small s _ (Hs r)) as Hi. pose proof (λ id, entry_stable name s (names_of r S) id) as He.
  destruct (NameInterning.intern s (names_of r S)) as [id T]. simpl in *. split.
  - intros r'. rewrite names_of_set. by case_decide.
  - destruct Hc as [Hc|(r' & id' & Hc & Hid & Hn)]; [by left|right].
    exists r', id'. rewrite names_of_set. case_decide; subst; auto.
Qed.

(** What happens in the process: this call site runs in registry [r], or any other code
    interns a name. *)
Inductive event : Type :=
| Site (r : N)
| Other (r : N) (s : string).

(** The answers of the call site, with a way to compute the site's name. *)
Fixpoint run (site : N → t → NameId * t) (es : list event) (S : t) : list NameId * gmap N NameInterning.t :=
  match es with
  | [] => ([], names S)
  | Site r :: es' => let '(id, S') := site r S in let '(ids, N) := run site es' S' in (id :: ids, N)
  | Other r s :: es' => run site es' (internNameSafe r s S).2
  end.

(** The packed cache of a call site is transparent: whatever registries the call site
    runs in (their ids are never zero) and whatever other names are interned between, it
    returns the ids that interning the name each time would return, and leaves every name
    table as interning would. *)
Theorem scope_name_cache_transparent (name : string) (es : list event) :
  (∀ r, Site r ∈ es → r ≠ 0) →
  run (λ r, internScopeNameCached r name) es start = run (λ r, internNameSafe r name) es start.
Proof.
  intros Hr.
  assert (∀ S S', coherent name S → names S = names S' →
    run (λ r, internScopeNameCached r name) es S = run (λ r, internNameSafe r name) es S') as H;
    [|apply (H start start (coherent_start name) eq_refl)].
  induction es as [|e es IH]; intros S S' HS Heq; [by simpl; rewrite Heq|].
  assert (∀ r, Site r ∈ es → r ≠ 0) as Hes by (intros r Hin; apply Hr; by right).
  specialize (IH Hes). destruct e as [r|r s]; cbn [run].
  - assert (r ≠ 0) as Hr0 by (apply Hr; by left).
    assert ((internScopeNameCached r name S).1 = (internNameSafe r name S').1 ∧
      names (internScopeNameCached r name S).2 = names (internNameSafe r name S').2 ∧
      coherent name (internScopeNameCached r name S).2) as (H1 & H2 & H3).
    { assert (names_of r S' = names_of r S) as Hn by by unfold names_of; rewrite Heq.
      unfold internScopeNameCached, internNameSafe. case_decide as Hne; [done|]. rewrite Hn.
      destruct HS as [Hs Hc]. destruct (N.eqb_spec (N.shiftr (cache S) 32) r) as [Hhit|Hmiss].
      - destruct Hc as [Hc|(r' & id & Hc & Hid & Hent)].
        { destruct Hr0. by rewrite <-Hhit, Hc. }
        rewrite Hc, unpack_registry in Hhit by done. subst r'.
        rewrite Hc, unpack_id by done. rewrite (intern_hit name (names_of r S) id) by done. simpl.
        split_and!; [done| |split; [done|right; by exists r, id]].
        unfold set_names. simpl. rewrite <-Heq. symmetry.
        apply insert_id. revert Hent. unfold names_of.
        destruct (names S !! r) as [T|] eqn:E; [by simpl|]. simpl. by rewrite lookup_empty.
      - pose proof (intern_small name _ (Hs r)) as Hi.
        pose proof (intern_entry name (names_of r S) Hne) as He.
        destruct (NameInterning.intern name (names_of r S)) as [id T]. simpl in *.
        split_and!; [done|by rewrite Heq|]. split.
        + intros r'. change (names_of r' {| names := <[r:=T]> (names S); cache := pack r id |})
            with (names_of r' (set_names r T S)). rewrite names_of_set. by case_decide.
        + right. exists r, id. change (names_of r {| names := <[r:=T]> (names S); cache := pack r id |})
            with (names_of r (set_names r T S)). rewrite names_of_set, decide_True by done.
          split_and!; [done| |done]. by apply (Hi name). }
    destruct (internScopeNameCached r name S) as [id S1], (internNameSafe r name S') as [id' S1'].
    simpl in *. subst id'. by rewrite (IH S1 S1').
  - apply IH; [by apply intern_coherent|].
    unfold internNameSafe. case_decide; [done|]. unfold names_of. rewrite Heq.
    destruct (NameInterning.intern s _). simpl. by rewrite Heq.
Qed.

End ScopeNameCache.

Module TypeIdCache.

Definition kTypeIdCacheChunkSize : N := 256.
Definition kTypeIdCacheTopCapacity : N := 256.

(** ** Claiming a slot, by any number of threads *)

(** Between the atomic accesses of [claimTypeIdCacheSlot] for type [ty]: before the load
    of the counter, before its compare-exchange, before that of the type's atomic. *)
Inductive pc : Type :=
| Idle
| Claiming (ty : TypeInfo)
| Loaded (ty : TypeInfo) (next : N)
| Won (ty : TypeInfo) (next : N).

(** [nextTypeIdCacheSlot_], the atomics of the types (absent: [kInvalidTypeId]), the
    threads, and the slots returned so far. *)
Record claims : Type := {
  nextTypeIdCacheSlot_ : N;
  slotCache : gmap TypeInfo N;
  threads : gmap N pc;
  returned : list (TypeInfo * N)
}.

Definition pc_of (C : claims) (i : N) : pc := default Idle (threads C !! i).

Definition goto (i : N) (p : pc) (C : claims) : claims :=
  {| nextTypeIdCacheSlot_ := nextTypeIdCacheSlot_ C; slotCache := slotCache C;
     threads := <[i := p]> (threads C); returned := returned C |}.

Definition return_slot (i : N) (ty : TypeInfo) (s : N) (C : claims) : claims :=
  {| nextTypeIdCacheSlot_ := nextTypeIdCacheSlot_ C; slotCache := slotCache C;
     threads := <[i := Idle]> (threads C); returned := returned C ++ [(ty, s)] |}.

Definition with_next (n : N) (C : claims) : claims :=
  {| nextTypeIdCacheSlot_ := n; slotCache := slotCache C; threads := threads C;
     returned := returned C |}.

Definition with_slot (ty : TypeInfo) (s : N) (C : claims) : claims :=
  {| nextTypeIdCacheSlot_ := nextTypeIdCacheSlot_ C; slotCache := <[ty := s]> (slotCache C);
     threads := threads C; returned := returned C |}.

(** One atomic access of thread [i]; [ty] is the type of a new call, [spurious] a weak
    compare-exchange that fails without cause. *)
Definition claim_step (i : N) (ty : TypeInfo) (spurious : bool) (C : claims) : claims :=
  match pc_of C i with
  | Idle =>
      match slotCache C !! ty with
      | Some s => return_slot i ty s C
      | None => goto i (Claiming ty) C
      end
  | Claiming ty => goto i (Loaded ty (nextTypeIdCacheSlot_ C)) C
  | Loaded ty next =>
      if next =? kInvalidTypeId then return_slot i ty kInvalidTypeId C
      else if (nextTypeIdCacheSlot_ C =? next) && negb spurious
      then goto i (Won ty next) (with_next (u32 (next + 1)) C)
      else goto i (Loaded ty (nextTypeIdCacheSlot_ C)) C
  | Won ty next =>
      match slotCache C !! ty with
      | None => return_slot i ty next (with_slot ty next C)
      | Some current => return_slot i ty current C
      end
  end.

Definition claim_steps (l : list (N * TypeInfo * bool)) (C : claims) : claims :=
  foldl (λ C x, claim_step x.1.1 x.1.2 x.2 C) C l.

Definition no_claims : claims :=
  {| nextTypeIdCacheSlot_ := 0; slotCache := ∅; threads := ∅; returned := [] |}.

Record claims_inv (C : claims) : Prop := {
  ci_next : nextTypeIdCacheSlot_ C ≤ kInvalidTypeId;
  ci_slot ty s : slotCache C !! ty = Some s → s < nextTypeIdCacheSlot_ C;
  ci_won i ty s : pc_of C i = Won ty s → s < nextTypeIdCacheSlot_ C ∧
    ∀ ty', slotCache C !! ty' ≠ Some s;
  ci_loaded i ty s : pc_of C i = Loaded ty s → s ≤ kInvalidTypeId;
  ci_won_inj i j ty ty' s : pc_of C i = Won ty s → pc_of C j = Won ty' s → i = j;
  ci_inj ty ty' s : slotCache C !! ty = Some s → slotCache C !! ty' = Some s → ty = ty';
  ci_returned ty s : (ty, s) ∈ returned C → s = kInvalidTypeId ∨ slotCache C !! ty = Some s
}.

Lemma pc_of_goto i p C j : pc_of (goto i p C) j = if decide (j = i) then p else pc_of C j.
Proof.
  unfold pc_of, goto. simpl. case_decide; [subst; by rewrite lookup_insert_eq|].
  by rewrite lookup_insert_ne.
Qed.

Lemma pc_of_return i ty s C j :
  pc_of (return_slot i ty s C) j = if decide (j = i) then Idle else pc_of C j.
Proof.
  unfold pc_of, return_slot. simpl. case_decide; [subst; by rewrite lookup_insert_eq|].
  by rewrite lookup_insert_ne.
Qed.

(** A thread moves to a point where it holds no slot. *)
Lemma goto_inv i p C : claims_inv C → (∀ ty s, p ≠ Won ty s) →
  (∀ ty s, p = Loaded ty s → s ≤ kInvalidTypeId) → claims_inv (goto i p C).
Proof.
  intros [H1 H2 H3 H4 H5 H6 H7] Hw Hl. split; try done.
  - intros j ty s. rewrite pc_of_goto. case_decide; [by intros ?%Hw|apply H3].
  - intros j ty s. rewrite pc_of_goto. case_decide; [apply Hl|apply H4].
  - intros j k ty ty' s. rewrite !pc_of_goto. do 2 case_decide; [by subst|by intros ?%Hw|
      by intros _ ?%Hw|apply H5].
Qed.

Lemma return_inv i ty s C : claims_inv C → s = kInvalidTypeId ∨ slotCache C !! ty = Some s →
  claims_inv (return_slot i ty s C).
Proof.
  intros [H1 H2 H3 H4 H5 H6 H7] Hs. split; try done.
  - intros j ty' s'. rewrite pc_of_return. case_decide; [done|apply H3].
  - intros j ty' s'. rewrite pc_of_return. case_decide; [done|apply H4].
  - intros j k ty' ty'' s'. rewrite !pc_of_return. do 2 case_decide; try done. apply H5.
  - simpl. intros ty' s' [Hin|Heq%list_elem_of_singleton]%elem_of_app; [by apply H7|].
    by injection Heq as -> ->.
Qed.

Lemma claim_step_inv i ty sp C : claims_inv C → claims_inv (claim_step i ty sp C).
Proof.
  intros HC. pose proof HC as [H1 H2 H3 H4 H5 H6 H7]. unfold claim_step.
  destruct (pc_of C i) as [|t|t n|t n] eqn:Hp.
  - destruct (slotCache C !! ty) eqn:Hs; [by apply return_inv; auto|by apply goto_inv].
  - apply goto_inv; [done|done|]. by intros ty' s [= _ <-].
  - destruct (N.eqb_spec n kInvalidTypeId) as [Hn|Hn]; [by apply return_inv; auto|].
    destruct (N.eqb_spec (nextTypeIdCacheSlot_ C) n) as [Heq|Hne]; simpl.
    2: { apply goto_inv; [done|done|]. by intros ty' s [= _ <-]. }
    destruct sp; simpl; [apply goto_inv; [done|done|]; by intros ty' s [= _ <-]|].
    assert (u32 (n + 1) = n + 1) as Hu.
    { apply u32_small. unfold kInvalidTypeId, two32 in *. lia. }
    split; cbn [nextTypeIdCacheSlot_ slotCache returned goto with_next]; try done.
    + rewrite Hu. unfold kInvalidTypeId in *. lia.
    + intros ty' s Hs. apply H2 in Hs. lia.
    + intros j ty' s. rewrite pc_of_goto. case_decide as Hj.
      * intros [= <- <-]. split; [lia|]. intros ty'' Hs. apply H2 in Hs. lia.
      * intros Hw. destruct (H3 j ty' s Hw). split; [lia|done].
    + intros j ty' s. rewrite pc_of_goto. case_decide; [done|apply H4].
    + intros j k ty' ty'' s. rewrite !pc_of_goto.
      do 2 case_decide; [by subst|intros [= _ <-] Hw|intros Hw [= _ <-]|apply H5];
        apply H3 in Hw as [Hlt _]; lia.
  - destruct (slotCache C !! t) as [c|] eqn:Hs; [by apply return_inv; auto|].
    destruct (H3 i t n Hp) as [Hlt Hfresh].
    split; cbn [nextTypeIdCacheSlot_ slotCache returned return_slot with_slot]; try done.
    + intros ty' s. rewrite lookup_insert_Some. intros [[_ <-]|[_ Hs']]; [done|by eapply H2].
    + intros j ty' s. rewrite pc_of_return. case_decide as Hj; [done|]. intros Hw.
      destruct (H3 j ty' s Hw) as [Hls Hf]. split; [done|]. intros ty''.
      rewrite lookup_insert_Some. intros [[_ ->]|[_ Hs']]; [|by eapply Hf].
      apply Hj. by eapply H5.
    + intros j ty' s. rewrite pc_of_return. case_decide; [done|apply H4].
    + intros j k ty' ty'' s. rewrite !pc_of_return. do 2 case_decide; try done. apply H5.
    + intros ty' ty'' s. rewrite !lookup_insert_Some.
      intros [[<- <-]|[_ Hs1]] [[<- Hs2]|[_ Hs2]]; [done|by destruct (Hfresh ty'')| |by eapply H6].
      subst s. by destruct (Hfresh ty').
    + intros ty' s [Hin|Heq%list_elem_of_singleton]%elem_of_app.
      * destruct (H7 _ _ Hin) as [->|Hs']; [by left|right]. rewrite lookup_insert_ne; [done|].
        intros ->. congruence.
      * injection Heq as -> ->. right. by rewrite lookup_insert_eq.
Qed.

Lemma no_claims_inv : claims_inv no_claims.
Proof.
  assert (∀ i, pc_of no_claims i = Idle) as Hp by (intros i; unfold pc_of; simpl; by rewrite lookup_empty).
  split.
  - done.
  - intros ty s. simpl. by rewrite lookup_empty.
  - intros i ty s. by rewrite Hp.
  - intros i ty s. by rewrite Hp.
  - intros i j ty ty' s. by rewrite Hp.
  - intros ty ty' s. simpl. by rewrite lookup_empty.
  - by intros ty s ?%not_elem_of_nil.
Qed.

Lemma claim_steps_inv l : ∀ C, claims_inv C → claims_inv (claim_steps l C).
Proof.
  induction l as [|x l IH]; intros C HC; [done|]. by apply IH, claim_step_inv.
Qed.

(** Slots are private to a type: in every interleaving of the threads' accesses, the
    slots two calls return (when they return one) are equal exactly when the calls are for
    the same type; a thread that loses the race for its type's atomic returns the
    winner's slot. *)
Theorem type_slots_private (l : list (N * TypeInfo * bool)) (ty ty' : TypeInfo) (s s' : N) :
  let C := claim_steps l no_claims in
  (ty, s) ∈ returned C → (ty', s') ∈ returned C →
  s ≠ kInvalidTypeId → s' ≠ kInvalidTypeId → s = s' ↔ ty = ty'.
Proof.
  intros C Hs Hs' Hne Hne'. pose proof (claim_steps_inv l _ no_claims_inv) as HC. fold C in HC.
  destruct (ci_returned _ HC _ _ Hs) as [|H]; [done|].
  destruct (ci_returned _ HC _ _ Hs') as [|H']; [done|].
  split; [intros <-; by eapply (ci_inj _ HC)|intros <-; congruence].
Qed.

(** ** The registry's cache *)

Section registry.
(** The slot each type has claimed, or [kInvalidTypeId]. *)
Context (slot : TypeInfo → N).

(** [typeIdCacheChunks_] and the interned types. *)
Record t : Type := {
  typeIdCacheChunks_ : list (option (list TypeId));
  types : TypeInterning.t
}.

Definition empty : t :=
  {| typeIdCacheChunks_ := replicate (N.to_nat kTypeIdCacheTopCapacity) None;
     types := TypeInterning.empty |}.

Definition makeTypeIdCacheChunk : list TypeId :=
  replicate (N.to_nat kTypeIdCacheChunkSize) kInvalidTypeId.

Definition cachedTypeIdForSlot (s : N) (S : t) : TypeId :=
  let chunkIndex := s / kTypeIdCacheChunkSize in
  if kTypeIdCacheTopCapacity <=? chunkIndex then kInvalidTypeId
  else match mjoin (vat (typeIdCacheChunks_ S) chunkIndex) with
       | None => kInvalidTypeId
       | Some c => default kInvalidTypeId (vat c (s mod kTypeIdCacheChunkSize))
       end.

Definition put (s : N) (id : TypeId) (c : list TypeId) (S : t) : t :=
  {| typeIdCacheChunks_ := vset (s / kTypeIdCacheChunkSize)
       (Some (vset (s mod kTypeIdCacheChunkSize) id c)) (typeIdCacheChunks_ S);
     types := types S |}.

(** [alloc] is false when the allocation of a new chunk fails. *)
Definition cacheTypeIdForSlot (s : N) (index : TypeInfo) (alloc : bool) (S : t) : TypeId * t :=
  let chunkIndex := s / kTypeIdCacheChunkSize in
  if kTypeIdCacheTopCapacity <=? chunkIndex
  then (TypeInterning.lookupByTypeIndex (types S) index, S)
  else
    let cached := cachedTypeIdForSlot s S in
    if negb (cached =? kInvalidTypeId) then (cached, S)
    else
      let id := TypeInterning.lookupByTypeIndex (types S) index in
      if id =? kInvalidTypeId then (id, S)
      else match mjoin (vat (typeIdCacheChunks_ S) chunkIndex) with
           | None => if alloc then (id, put s id makeTypeIdCacheChunk S) else (id, S)
           | Some c => (id, put s id c S)
           end.

Definition typeIdFor (index : TypeInfo) (alloc : bool) (S : t) : TypeId * t :=
  let s := slot index in
  if s =? kInvalidTypeId then (TypeInterning.lookupByTypeIndex (types S) index, S)
  else
    let cached := cachedTypeIdForSlot s S in
    if negb (cached =? kInvalidTypeId) then (cached, S)
    else cacheTypeIdForSlot s index alloc S.

(** ** The cache is transparent *)

Inductive event : Type :=
| Lookup (index : TypeInfo) (alloc : bool)
| Intern (n : string) (g : TypeInfo)
| Freeze.

Definition set_types (ti : TypeInterning.t) (S : t) : t :=
  {| typeIdCacheChunks_ := typeIdCacheChunks_ S; types := ti |}.

Fixpoint run (look : TypeInfo → bool → t → TypeId * t) (es : list event) (S : t)
    : list TypeId :=
  match es with
  | [] => []
  | Lookup g alloc :: es' => let '(id, S') := look g alloc S in id :: run look es' S'
  | Intern n g :: es' =>
      run look es' (set_types (TypeInterning.internByName n g (types S)).2 S)
  | Freeze :: es' => run look es' (set_types (TypeInterning.freeze (types S)) S)
  end.

Record cached_ok (S : t) : Prop := {
  co_top : nlen (typeIdCacheChunks_ S) = kTypeIdCacheTopCapacity;
  co_chunk i c : vat (typeIdCacheChunks_ S) i = Some (Some c) → nlen c = kTypeIdCacheChunkSize;
  co_cached g : slot g ≠ kInvalidTypeId → cachedTypeIdForSlot (slot g) S ≠ kInvalidTypeId →
    TypeInterning.lookupByTypeIndex (types S) g = cachedTypeIdForSlot (slot g) S;
  co_unfrozen : TypeInterning.frozen_ (types S) = false →
    TypeInterning.overflowIndexToId_ (types S) = ∅
}.

(** A type keeps the id it was found under. *)
Lemma lookup_stable n g g' T : (TypeInterning.frozen_ T = false → TypeInterning.overflowIndexToId_ T = ∅) →
  TypeInterning.lookupByTypeIndex T g ≠ kInvalidTypeId →
  TypeInterning.lookupByTypeIndex (TypeInterning.internByName n g' T).2 g =
    TypeInterning.lookupByTypeIndex T g.
Proof.
  unfold TypeInterning.internByName, TypeInterning.lookupByTypeIndex, TypeInterning.emplace.
  intros Hf. destruct (TypeInterning.nameToId_ T !! n); [done|].
  destruct (TypeInterning.frozen_ T) eqn:E; simpl.
  - destruct (TypeInterning.overflowNameToId_ T !! n); [done|]. simpl.
    destruct (TypeInterning.indexToId_ T !! g); [done|].
    destruct (TypeInterning.overflowIndexToId_ T !! g') eqn:Hg'; [done|].
    destruct (decide (g = g')) as [<-|Hne]; [by rewrite Hg'|]. by rewrite lookup_insert_ne.
  - rewrite Hf, lookup_empty by done. simpl.
    destruct (TypeInterning.indexToId_ T !! g) eqn:Hg; [|done]. intros _.
    destruct (TypeInterning.indexToId_ T !! g') eqn:Hg'; [by rewrite Hg|].
    rewrite lookup_insert_ne by (intros ->; congruence). by rewrite Hg.
Qed.

Lemma intern_unfrozen n g T : (TypeInterning.frozen_ T = false → TypeInterning.overflowIndexToId_ T = ∅) →
  TypeInterning.frozen_ (TypeInterning.internByName n g T).2 = false →
  TypeInterning.overflowIndexToId_ (TypeInterning.internByName n g T).2 = ∅.
Proof.
  intros H. unfold TypeInterning.internByName. destruct (TypeInterning.nameToId_ T !! n); [done|].
  destruct (TypeInterning.frozen_ T) eqn:E; simpl; [|done].
  destruct (TypeInterning.overflowNameToId_ T !! n); simpl; congruence.
Qed.

Lemma cached_intern n g S : cached_ok S →
  cached_ok (set_types (TypeInterning.internByName n g (types S)).2 S).
Proof.
  intros [H1 H2 H3 H4]. split; try done; simpl; [|by apply intern_unfrozen].
  intros g' Hs Hc. specialize (H3 g' Hs Hc). simpl in H3. rewrite lookup_stable; [done..|].
  by rewrite H3.
Qed.

Lemma cached_freeze S : cached_ok S → cached_ok (set_types (TypeInterning.freeze (types S)) S).
Proof. by intros [H1 H2 H3 H4]. Qed.

(** [type_slots_private] *)
Hypothesis private : ∀ g g', slot g = slot g' → slot g ≠ kInvalidTypeId → g = g'.

Lemma put_ok g c S : cached_ok S → slot g ≠ kInvalidTypeId →
  slot g / kTypeIdCacheChunkSize < kTypeIdCacheTopCapacity →
  (vat (typeIdCacheChunks_ S) (slot g / kTypeIdCacheChunkSize) = Some (Some c) ∨
   c = makeTypeIdCacheChunk ∧
   vat (typeIdCacheChunks_ S) (slot g / kTypeIdCacheChunkSize) = Some None) →
  cached_ok (put (slot g) (TypeInterning.lookupByTypeIndex (types S) g) c S).
Proof.
  intros [H1 H2 H3 H4] Hs Hk Hc.
  assert (nlen c = kTypeIdCacheChunkSize) as Hlen by (destruct Hc as [Hc|[-> _]]; [by eapply H2|done]).
  assert (slot g mod kTypeIdCacheChunkSize < nlen c) as Ho.
  { rewrite Hlen. by apply N.mod_upper_bound. }
  assert (slot g / kTypeIdCacheChunkSize < nlen (typeIdCacheChunks_ S)) as Hk' by by rewrite H1.
  split; cbn [put types typeIdCacheChunks_]; try done.
  - by rewrite nlen_vset.
  - intros i c'. rewrite vat_vset by done. case_decide; [|apply H2]. intros [= <-]. by rewrite nlen_vset.
  - intros g' Hs'. specialize (H3 g' Hs'). revert H3. unfold cachedTypeIdForSlot.
    cbn [put types typeIdCacheChunks_]. rewrite vat_vset by done.
    destruct (kTypeIdCacheTopCapacity <=? slot g' / kTypeIdCacheChunkSize); [done|].
    case_decide as Hd; [|done]. simpl. rewrite vat_vset by done.
    case_decide as Hm; simpl.
    + intros _ _. f_equal. apply private; [|done].
      rewrite (N.div_mod (slot g') kTypeIdCacheChunkSize), (N.div_mod (slot g) kTypeIdCacheChunkSize) by done.
      by rewrite Hd, Hm.
    + rewrite Hd. destruct Hc as [Hc|[-> Hc]]; rewrite Hc; simpl; [done|].
      intros _ Hn. destruct Hn. unfold makeTypeIdCacheChunk. rewrite vat_replicate. by case_decide.
Qed.

Lemma typeIdFor_spec g alloc S : cached_ok S →
  let '(id, S') := typeIdFor g alloc S in
  id = TypeInterning.lookupByTypeIndex (types S) g ∧ types S' = types S ∧ cached_ok S'.
Proof.
  intros HS. unfold typeIdFor. destruct (N.eqb_spec (slot g) kInvalidTypeId) as [|Hs]; [done|].
  destruct (N.eqb_spec (cachedTypeIdForSlot (slot g) S) kInvalidTypeId) as [Hc|Hc]; simpl.
  2: { split_and!; [|done|done]. symmetry. by apply (co_cached _ HS). }
  unfold cacheTypeIdForSlot. destruct (N.leb_spec kTypeIdCacheTopCapacity (slot g / kTypeIdCacheChunkSize))
    as [|Hk]; [done|]. rewrite Hc. simpl.
  destruct (N.eqb_spec (TypeInterning.lookupByTypeIndex (types S) g) kInvalidTypeId); [done|].
  destruct (proj2 (vat_is_Some (typeIdCacheChunks_ S) (slot g / kTypeIdCacheChunkSize))) as [c Hv].
  { by rewrite (co_top _ HS). }
  rewrite Hv. destruct c as [c|]; simpl.
  - split_and!; [done|done|]. by apply put_ok; auto.
  - destruct alloc; split_and!; try done. by apply put_ok; auto.
Qed.

(** The per-registry cache of [typeIdFor] is transparent: however types are interned,
    before and after [freeze()], and whether or not chunks can be allocated, every lookup
    answers what [lookupTypeId] answers at that moment, an unknown type included. *)
Theorem type_id_cache_transparent (es : list event) :
  run typeIdFor es empty =
  run (λ g _ S, (TypeInterning.lookupByTypeIndex (types S) g, S)) es empty.
Proof.
  assert (cached_ok empty) as H0.
  { split; try done.
    - intros i c. unfold empty; cbn [typeIdCacheChunks_]. rewrite vat_replicate. by case_decide.
    - intros g _ []. unfold cachedTypeIdForSlot, empty. cbn [typeIdCacheChunks_].
      destruct (_ <=? _); [done|]. rewrite vat_replicate. by case_decide. }
  assert (∀ S S', cached_ok S → types S = types S' → run typeIdFor es S =
    run (λ g _ S, (TypeInterning.lookupByTypeIndex (types S) g, S)) es S') as H; [|by apply H].
  clear H0. induction es as [|[g alloc|n g|] es IH]; intros S S' HS Heq; cbn [run]; [done|..].
  - pose proof (typeIdFor_spec g alloc S HS) as Hf. destruct (typeIdFor g alloc S) as [id S1].
    destruct Hf as (-> & Ht & H1). rewrite Heq. f_equal. apply IH; [done|congruence].
  - apply IH; [by apply cached_intern|]. simpl. by rewrite Heq.
  - apply IH; [by apply cached_freeze|]. simpl. by rewrite Heq.
Qed.

End registry.

End TypeIdCache.
