(* ===== verification/Index.v ===== *)
(** The candidate index.

    [Module TypeIndex] models [internal/detail/TypeIndex.hpp] and the entries of
    [internal/NameTable.hpp]: the two-level map from (type, name) to the
    candidate descriptors, filled during [start()], sorted once by
    [sortAllCandidates] and read by every [resolve]. *)
From S2P Require Import Prelude.

Local Open Scope N_scope.

Module TypeIndex.

(** ** Data *)

Record NameEntry : Type := {
  candidates : list DescriptorId;
  head : DescriptorId;
  ambiguous : bool
}.

Definition empty_entry : NameEntry :=
  {| candidates := []; head := kInvalidDescriptorId; ambiguous := false |}.

(** [std::flat_map<NameId, NameEntry>]: the entries in ascending key order. *)
Definition NameTable : Type := list (NameId * NameEntry).

(** [typeIndex_] holds one owned table per registered type, so a pointer into
    [ownedTables_] is the table itself and a null pointer is [None]. *)
Record t : Type := {
  typeIndex_ : list (option NameTable);
  pending_ : list (list (NameId * DescriptorId));
  finalized_ : bool;
  ambiguous_ : list (option (list NameId));
  singleUnnamed_ : list DescriptorId
}.

Definition empty : t :=
  {| typeIndex_ := []; pending_ := []; finalized_ := false; ambiguous_ := [];
     singleUnnamed_ := [] |}.

(** ** Flat-map operations *)

Fixpoint find (m : NameTable) (k : NameId) : option NameEntry :=
  match m with
  | [] => None
  | (k', e) :: m' => if k =? k' then Some e else find m' k
  end.

(** [f] applied to the entry [try_emplace(k).first->second]. *)
Fixpoint try_emplace_with (k : NameId) (f : NameEntry → NameEntry) (m : NameTable)
    : NameTable :=
  match m with
  | [] => [(k, f empty_entry)]
  | (k', e) :: m' =>
      if k =? k' then (k', f e) :: m'
      else if k <? k' then (k, f empty_entry) :: (k', e) :: m'
      else (k', e) :: try_emplace_with k f m'
  end.

Definition push_candidates (ds : list DescriptorId) (e : NameEntry) : NameEntry :=
  {| candidates := candidates e ++ ds; head := head e; ambiguous := ambiguous e |}.

(** ** Private helpers *)

Definition tbl_at (ti : list (option NameTable)) (typeId : TypeId)
    : option NameTable :=
  mjoin (vat ti typeId).

Definition ensureTable (typeId : TypeId) (ti : list (option NameTable))
    : list (option NameTable) :=
  let ti' := if nlen ti <=? typeId then vresize (typeId + 1) None ti else ti in
  match tbl_at ti' typeId with
  | Some _ => ti'
  | None => vset typeId (Some []) ti'
  end.

Definition modTable (typeId : TypeId) (f : NameTable → NameTable)
    (ti : list (option NameTable)) : list (option NameTable) :=
  match tbl_at ti typeId with
  | Some m => vset typeId (Some (f m)) ti
  | None => ti
  end.

Definition ensurePending (typeId : TypeId) (pend : list (list (NameId * DescriptorId)))
    : list (list (NameId * DescriptorId)) :=
  if nlen pend <=? typeId then vresize (typeId + 1) [] pend else pend.

(** ** Operations *)

Definition insertCandidate (typeId : TypeId) (nameId : NameId) (descId : DescriptorId)
    (T : t) : t :=
  if finalized_ T then
    {| typeIndex_ := modTable typeId
         (try_emplace_with nameId (push_candidates [descId]))
         (ensureTable typeId (typeIndex_ T));
       pending_ := pending_ T; finalized_ := finalized_ T;
       ambiguous_ := ambiguous_ T; singleUnnamed_ := singleUnnamed_ T |}
  else
    let pend := ensurePending typeId (pending_ T) in
    {| typeIndex_ := typeIndex_ T;
       pending_ := vset typeId (default [] (vat pend typeId) ++ [(nameId, descId)]) pend;
       finalized_ := finalized_ T;
       ambiguous_ := ambiguous_ T; singleUnnamed_ := singleUnnamed_ T |}.

Definition entryFor (T : t) (typeId : TypeId) (nameId : NameId) : option NameEntry :=
  m ← tbl_at (typeIndex_ T) typeId; find m nameId.

Definition candidatesFor (T : t) (typeId : TypeId) (nameId : NameId)
    : option (list DescriptorId) :=
  candidates <$> entryFor T typeId nameId.

Definition tableFor (T : t) (typeId : TypeId) : option NameTable :=
  tbl_at (typeIndex_ T) typeId.

Definition headFor (T : t) (typeId : TypeId) (nameId : NameId) : DescriptorId * bool :=
  match entryFor T typeId nameId with
  | None => (kInvalidDescriptorId, false)
  | Some e => (head e, ambiguous e)
  end.

(** [std::binary_search]: the first element not below [x] is [x]. *)
Fixpoint binary_search (v : list N) (x : N) : bool :=
  match v with
  | [] => false
  | y :: v' => if y <? x then binary_search v' x else y =? x
  end.

Definition isAmbiguousFor (T : t) (typeId : TypeId) (nameId : NameId) : bool :=
  match mjoin (vat (ambiguous_ T) typeId) with
  | None => false
  | Some v => binary_search v nameId
  end.

Definition singleUnnamedCandidate (T : t) (typeId : TypeId) : DescriptorId :=
  default kInvalidDescriptorId (vat (singleUnnamed_ T) typeId).

Definition updateSingleUnnamed (typeId : TypeId) (T : t) : t :=
  let su := if nlen (singleUnnamed_ T) <=? typeId
            then vresize (typeId + 1) kInvalidDescriptorId (singleUnnamed_ T)
            else singleUnnamed_ T in
  let d := match candidatesFor T typeId kUnnamed with
           | Some [d] => d
           | _ => kInvalidDescriptorId
           end in
  {| typeIndex_ := typeIndex_ T; pending_ := pending_ T; finalized_ := finalized_ T;
     ambiguous_ := ambiguous_ T; singleUnnamed_ := vset typeId d su |}.

Section sorting.
Context `{SS : StdSort} (priorityOf : DescriptorId → Z).

(** The leading elements of key [cur], and the rest: the inner [do ... while]. *)
Fixpoint take_group (cur : NameId) (pend : list (NameId * DescriptorId))
    : list DescriptorId * list (NameId * DescriptorId) :=
  match pend with
  | (k, d) :: pend' =>
      if k =? cur then let '(g, r) := take_group cur pend' in (d :: g, r)
      else ([], pend)
  | [] => ([], [])
  end.

(** The grouping loop; each turn consumes at least one element, so the length of
    the range bounds the turns. *)
Fixpoint insert_groups (fuel : nat) (pend : list (NameId * DescriptorId))
    (m : NameTable) : NameTable :=
  match fuel, pend with
  | S fuel', (cur, _) :: _ =>
      let '(g, rest) := take_group cur pend in
      insert_groups fuel' rest (try_emplace_with cur (push_candidates g) m)
  | _, _ => m
  end.

Definition sort_pending (pend : list (NameId * DescriptorId))
    : list (NameId * DescriptorId) :=
  std_sort (λ a b, a.1 <? b.1) pend.

(** The first loop of [sortAllCandidates], from type [i] on. *)
Fixpoint flushPending (i : N) (pend : list (list (NameId * DescriptorId)))
    (ti : list (option NameTable)) : list (option NameTable) :=
  match pend with
  | [] => ti
  | p :: rest =>
      flushPending (i + 1) rest
        (match p with
         | [] => ti
         | _ :: _ =>
             let s := sort_pending p in
             modTable i (insert_groups (length s) s) (ensureTable i ti)
         end)
  end.

Definition sort_candidates (v : list DescriptorId) : list DescriptorId :=
  std_sort (λ a b, Z.gtb (priorityOf a) (priorityOf b)) v.

Definition top_tie (vec : list DescriptorId) : bool :=
  match vec with
  | a :: b :: _ => Z.eqb (priorityOf a) (priorityOf b)
  | _ => false
  end.

Definition vec_head (vec : list DescriptorId) : DescriptorId :=
  default kInvalidDescriptorId (hd_error vec).

(** The second loop over one type's entries: the rewritten entries, the sorted
    list of ambiguous names and the single unnamed candidate. *)
Fixpoint sortEntries (m : NameTable) (amb : option (list NameId)) (su : DescriptorId)
    : NameTable * option (list NameId) * DescriptorId :=
  match m with
  | [] => ([], amb, su)
  | (nameId, e) :: m' =>
      let vec := sort_candidates (candidates e) in
      let ambig := top_tie vec in
      let amb' := if ambig then Some (default [] amb ++ [nameId]) else amb in
      let su' := if (nameId =? kUnnamed) && (nlen vec =? 1) && negb ambig
                 then vec_head vec else su in
      let '(r, a, s) := sortEntries m' amb' su' in
      ((nameId, {| candidates := vec; head := vec_head vec; ambiguous := ambig |}) :: r,
       a, s)
  end.

Definition sortTable (o : option NameTable)
    : option NameTable * option (list NameId) * DescriptorId :=
  match o with
  | None => (None, None, kInvalidDescriptorId)
  | Some m =>
      let '(r, a, s) := sortEntries m None kInvalidDescriptorId in (Some r, a, s)
  end.

Definition sortAllCandidates (T : t) : t :=
  let ti := flushPending 0 (pending_ T) (typeIndex_ T) in
  {| typeIndex_ := (λ o, (sortTable o).1.1) <$> ti;
     pending_ := [];
     finalized_ := true;
     ambiguous_ := (λ o, (sortTable o).1.2) <$> ti;
     singleUnnamed_ := (λ o, (sortTable o).2) <$> ti |}.
End sorting.

(** ** Flat-map lemmas *)

Definition keys_sorted (m : NameTable) : Prop := StronglySorted N.lt m.*1.

Lemma find_lt m k : Forall (λ x, k < x) m.*1 → find m k = None.
Proof.
  induction m as [|[k' e] m IH]; simpl; [done|]. intros [Hk H]%Forall_cons.
  destruct (N.eqb_spec k k'); [lia|]. by apply IH.
Qed.

Lemma find_Some_key m k e : find m k = Some e → k ∈ m.*1.
Proof.
  induction m as [|[k' e'] m IH]; simpl; [done|].
  destruct (N.eqb_spec k k') as [->|]; [intros _; by left|].
  intros H; right; by apply IH.
Qed.

Lemma find_try_emplace k f m k' : keys_sorted m →
  find (try_emplace_with k f m) k' =
  if decide (k' = k) then Some (f (default empty_entry (find m k))) else find m k'.
Proof.
  unfold keys_sorted. induction m as [|[k1 e] m IH]; simpl.
  { intros _. case_decide as E; destruct (N.eqb_spec k' k); try done; congruence. }
  intros [Hs Hlt]%StronglySorted_cons.
  destruct (N.eqb_spec k k1) as [->|Hk]; simpl.
  { case_decide; destruct (N.eqb_spec k' k1); try done; congruence. }
  destruct (N.ltb_spec k k1) as [Hlt'|Hge]; simpl.
  - assert (find m k = None) as ->.
    { apply find_lt. eapply Forall_impl; [exact Hs|]. simpl; lia. }
    case_decide; destruct (N.eqb_spec k' k); try done; congruence.
  - rewrite IH by done.
    case_decide; destruct (N.eqb_spec k' k1); try done; congruence.
Qed.

Lemma try_emplace_keys k f m x :
  x ∈ (try_emplace_with k f m).*1 → x = k ∨ x ∈ m.*1.
Proof.
  induction m as [|[k1 e] m IH]; simpl.
  { intros H%list_elem_of_singleton; by left. }
  destruct (k =? k1); simpl; [by right|].
  destruct (k <? k1); simpl.
  - intros [->|H]%elem_of_cons; [by left|by right].
  - intros [->|H]%elem_of_cons; [right; by left|].
    destruct (IH H); [by left|right; by right].
Qed.

Lemma try_emplace_sorted k f m : keys_sorted m → keys_sorted (try_emplace_with k f m).
Proof.
  unfold keys_sorted. induction m as [|[k1 e] m IH]; simpl.
  { intros _; repeat constructor. }
  intros [Hs Hlt]%StronglySorted_cons.
  destruct (N.eqb_spec k k1) as [->|Hk]; simpl; [by constructor|].
  destruct (N.ltb_spec k k1) as [Hlt'|Hge]; simpl.
  - constructor; [by constructor|]. constructor; [done|].
    eapply Forall_impl; [exact Hs|]. simpl; lia.
  - constructor; [by apply IH|]. apply Forall_forall; intros x Hx.
    apply try_emplace_keys in Hx as [->|Hx]; [lia|].
    rewrite Forall_forall in Hs. by apply Hs.
Qed.

(** ** The build phase: what the flush puts in a table *)

Definition cands (m : NameTable) (k : NameId) : list DescriptorId :=
  default [] (candidates <$> find m k).

Definition vals (k : NameId) (pend : list (NameId * DescriptorId))
    : list DescriptorId :=
  (filter (λ p, p.1 = k) pend).*2.

(** Every entry of the table is one the flush made, so it is never empty. *)
Definition no_empty (m : NameTable) : Prop :=
  ∀ k e, find m k = Some e → candidates e ≠ [].

Lemma vals_app k l1 l2 : vals k (l1 ++ l2) = vals k l1 ++ vals k l2.
Proof. unfold vals. by rewrite filter_app, fmap_app. Qed.

Lemma vals_perm k l1 l2 : l1 ≡ₚ l2 → vals k l1 ≡ₚ vals k l2.
Proof. intros H. unfold vals. by rewrite H. Qed.

Lemma take_group_spec cur pend g rest : take_group cur pend = (g, rest) →
  pend = ((λ d, (cur, d)) <$> g) ++ rest.
Proof.
  revert g rest. induction pend as [|[k d] pend IH]; simpl; intros g rest H.
  { by simplify_eq. }
  destruct (N.eqb_spec k cur) as [->|]; [|by simplify_eq].
  destruct (take_group cur pend) as [g' r'] eqn:E. simplify_eq; simpl.
  f_equal. by apply IH.
Qed.

Lemma vals_group k cur (g : list DescriptorId) :
  vals k ((λ d, (cur, d)) <$> g) = if decide (cur = k) then g else [].
Proof.
  unfold vals. case_decide as Hk; induction g as [|d g IH]; rewrite ?fmap_cons; try done.
  - rewrite filter_cons_True by done. rewrite fmap_cons. by f_equal.
  - by rewrite filter_cons_False by done.
Qed.

Lemma cands_try_emplace cur g m k : keys_sorted m →
  cands (try_emplace_with cur (push_candidates g) m) k =
  cands m k ++ (if decide (cur = k) then g else []).
Proof.
  intros Hs. unfold cands. rewrite find_try_emplace by done.
  repeat case_decide; subst; try done.
  - by destruct (find m _).
  - by rewrite app_nil_r.
Qed.

Lemma take_group_head cur d pend : (take_group cur ((cur, d) :: pend)).1 ≠ [].
Proof. simpl. rewrite N.eqb_refl. by destruct (take_group cur pend). Qed.

Lemma insert_groups_spec fuel : ∀ pend m,
  (length pend ≤ fuel)%nat → keys_sorted m → no_empty m →
  let m' := insert_groups fuel pend m in
  keys_sorted m' ∧ no_empty m' ∧ ∀ k, cands m' k = cands m k ++ vals k pend.
Proof.
  induction fuel as [|fuel IH]; intros [|[cur d] pend] m Hlen Hs Hne; simpl in Hlen.
  1,3: simpl; split_and!; [done..|]; intros k; by rewrite app_nil_r.
  - lia.
  - cbn [insert_groups].
    destruct (take_group cur ((cur, d) :: pend)) as [g rest] eqn:E.
    pose proof (take_group_spec _ _ _ _ E) as Hp.
    pose proof (take_group_head cur d pend) as Hg. rewrite E in Hg; simpl in Hg.
    assert (length rest < S (length pend))%nat as Hr.
    { apply (f_equal length) in Hp. simpl in Hp.
      rewrite length_app, length_fmap in Hp.
      destruct g; [done|]. simpl in Hp. lia. }
    destruct (IH rest (try_emplace_with cur (push_candidates g) m))
      as (H1 & H2 & H3); [lia|by apply try_emplace_sorted| |].
    { intros k e. rewrite find_try_emplace by done. case_decide; [|apply Hne].
      intros ?; simplify_eq; simpl. destruct (candidates _); simpl; done. }
    split_and!; [done..|]. intros k. rewrite H3, cands_try_emplace, <-(app_assoc _ _ _) by done.
    f_equal. rewrite Hp, vals_app, vals_group. done.
Qed.

Lemma find_cands m k : no_empty m →
  candidates <$> find m k = match cands m k with [] => None | v => Some v end.
Proof.
  intros H. unfold cands. specialize (H k). destruct (find m k) as [e|]; simpl; [|done].
  specialize (H e eq_refl). by destruct (candidates e).
Qed.

(** ** The vector of tables *)

Lemma tbl_at_ensure ti t t' :
  tbl_at (ensureTable t ti) t' =
  if decide (t' = t) then Some (default [] (tbl_at ti t)) else tbl_at ti t'.
Proof.
  assert (∀ u, tbl_at (if nlen ti <=? t then vresize (t + 1) None ti else ti) u
     = tbl_at ti u) as Hti.
  { intros u. destruct (N.leb_spec (nlen ti) t) as [H|H]; [|done]. unfold tbl_at.
    destruct (decide (u < nlen ti)) as [Hu|Hu].
    - by rewrite vat_vresize_old by lia.
    - rewrite (proj2 (vat_None ti u)) by lia.
      destruct (decide (u < t + 1)).
      + by rewrite vat_vresize_new by lia.
      + rewrite (proj2 (vat_None _ u)); [done|]. rewrite nlen_vresize; lia. }
  assert (t < nlen (if nlen ti <=? t then vresize (t + 1) None ti else ti)) as Hlen.
  { destruct (N.leb_spec (nlen ti) t); [rewrite nlen_vresize|]; lia. }
  unfold ensureTable. rewrite Hti. destruct (tbl_at ti t) as [m|] eqn:E.
  - rewrite Hti. case_decide; [subst; by rewrite E|done].
  - case_decide as Ht; [subst; unfold tbl_at; by rewrite vat_vset_eq|].
    unfold tbl_at in *. by rewrite vat_vset_ne by congruence.
Qed.

Lemma tbl_at_mod ti t f t' :
  tbl_at (modTable t f ti) t' = if decide (t' = t) then f <$> tbl_at ti t else tbl_at ti t'.
Proof.
  unfold modTable. destruct (tbl_at ti t) as [m|] eqn:E.
  - unfold tbl_at in *. case_decide as H; [subst|by rewrite vat_vset_ne by congruence].
    rewrite vat_vset_eq; [done|]. apply vat_is_Some.
    destruct (vat ti t); [eauto|done].
  - case_decide; [subst; by rewrite E|done].
Qed.

(** A vector of tables is well formed when every table is. *)
Definition tables_wf (ti : list (option NameTable)) : Prop :=
  ∀ t m, tbl_at ti t = Some m → keys_sorted m ∧ no_empty m.

Definition cands_at (ti : list (option NameTable)) (t : TypeId) (n : NameId)
    : list DescriptorId := default [] ((λ m, cands m n) <$> tbl_at ti t).

Definition pending_at (pend : list (list (NameId * DescriptorId))) (t : TypeId)
    : list (NameId * DescriptorId) := default [] (vat pend t).

Section flush.
Context `{SS : StdSort}.

Lemma sort_pending_perm p : sort_pending p ≡ₚ p.
Proof. apply std_sort_perm. Qed.

Lemma flush_one ti i p : tables_wf ti → p ≠ [] →
  let s := sort_pending p in
  let ti' := modTable i (insert_groups (length s) s) (ensureTable i ti) in
  tables_wf ti' ∧
  ∀ t n, cands_at ti' t n ≡ₚ cands_at ti t n ++ if decide (t = i) then vals n p else [].
Proof.
  intros Hwf Hp s ti'.
  assert (keys_sorted (default [] (tbl_at ti i)) ∧ no_empty (default [] (tbl_at ti i)))
    as [Hk Hn].
  { destruct (tbl_at ti i) eqn:E; [by eapply Hwf|]. split; [constructor|done]. }
  destruct (insert_groups_spec (length s) s (default [] (tbl_at ti i)))
    as (H1 & H2 & H3); [lia|done..|].
  assert (∀ t, tbl_at ti' t = if decide (t = i)
    then Some (insert_groups (length s) s (default [] (tbl_at ti i))) else tbl_at ti t)
    as Hat.
  { intros t. unfold ti'. rewrite tbl_at_mod, !tbl_at_ensure.
    case_decide as E1; subst; [|done]. by rewrite decide_True by done. }
  split.
  - intros t m. rewrite Hat. case_decide; [intros; by simplify_eq|apply Hwf].
  - intros t n. unfold cands_at. rewrite Hat. case_decide; subst; simpl.
    + rewrite H3, (vals_perm n s p (sort_pending_perm p)).
      by destruct (tbl_at ti i).
    + by rewrite app_nil_r.
Qed.

Lemma flushPending_spec pend : ∀ i ti, tables_wf ti →
  let ti' := flushPending i pend ti in
  tables_wf ti' ∧
  ∀ t n, cands_at ti' t n ≡ₚ
    cands_at ti t n ++ if decide (i ≤ t) then vals n (pending_at pend (t - i)) else [].
Proof.
  induction pend as [|p pend IH]; intros i ti Hwf; simpl.
  { split; [done|]. intros t n. unfold pending_at.
    rewrite vat_nil.
    simpl. case_decide; by rewrite app_nil_r. }
  set (ti1 := match p with [] => ti | _ :: _ => _ end).
  assert (tables_wf ti1 ∧ ∀ t n, cands_at ti1 t n ≡ₚ
    cands_at ti t n ++ if decide (t = i) then vals n p else []) as [Hwf1 Hc1].
  { unfold ti1. destruct p as [|x p']; [|by apply flush_one].
    split; [done|]. intros t n. case_decide; by rewrite app_nil_r. }
  destruct (IH (i + 1) ti1 Hwf1) as [Hwf2 Hc2]. split; [done|].
  intros t n. rewrite Hc2, Hc1, <-(app_assoc _ _ _). apply Permutation_app_head.
  unfold pending_at. destruct (decide (t = i)) as [->|Ht].
  - rewrite decide_False, decide_True, app_nil_r by lia.
    replace (i - i) with 0 by lia. done.
  - destruct (decide (i ≤ t)) as [Hi|Hi].
    + rewrite decide_True by lia. simpl. rewrite !vat_lookup.
      replace (N.to_nat (t - i)) with (S (N.to_nat (t - (i + 1)))) by lia. done.
    + by rewrite decide_False by lia.
Qed.
End flush.

(** ** The sort phase *)

Section sort_phase.
Context `{SS : StdSort} (priorityOf : DescriptorId → Z).

Definition desc_sorted (v : list DescriptorId) : Prop :=
  StronglySorted (λ a b, (priorityOf b ≤ priorityOf a)%Z) v.

Lemma sort_candidates_perm v : sort_candidates priorityOf v ≡ₚ v.
Proof. apply std_sort_perm. Qed.

Lemma sort_candidates_sorted v : desc_sorted (sort_candidates priorityOf v).
Proof.
  eapply StronglySorted_weaken; [|apply std_sort_sorted, gtb_strict_weak].
  intros a b; simpl. rewrite Z.gtb_ltb, Z.ltb_ge. done.
Qed.

Definition finish (e : NameEntry) : NameEntry :=
  let vec := sort_candidates priorityOf (candidates e) in
  {| candidates := vec; head := vec_head vec; ambiguous := top_tie priorityOf vec |}.

Lemma sortEntries_find m amb su k :
  find (sortEntries priorityOf m amb su).1.1 k = finish <$> find m k.
Proof.
  revert amb su. induction m as [|[k' e] m IH]; intros amb su; simpl; [done|].
  destruct (sortEntries priorityOf m _ _) as [[r a] s] eqn:E; simpl.
  destruct (k =? k'); [done|].
  match type of E with sortEntries _ _ ?a0 ?s0 = _ => specialize (IH a0 s0) end.
  by rewrite E in IH.
Qed.

Definition entry_tie (m : NameTable) (k : NameId) : bool :=
  match find m k with Some e => ambiguous (finish e) | None => false end.

(** The recorded names are exactly the tied ones, in ascending order. *)
Lemma sortEntries_amb m amb su : keys_sorted m →
  StronglySorted N.lt (default [] amb) →
  (∀ x k, x ∈ default [] amb → k ∈ m.*1 → x < k) →
  let v := default [] (sortEntries priorityOf m amb su).1.2 in
  StronglySorted N.lt v ∧
  ∀ x, x ∈ v ↔ x ∈ default [] amb ∨ entry_tie m x = true.
Proof.
  unfold keys_sorted, entry_tie. revert amb su.
  induction m as [|[k e] m IH]; intros amb su Hm Ha Hlt; simpl.
  { split; [done|]. naive_solver. }
  apply StronglySorted_cons in Hm as [Hk Hm]. rewrite Forall_forall in Hk.
  set (vec := sort_candidates priorityOf (candidates e)).
  set (amb' := if top_tie priorityOf vec then Some (default [] amb ++ [k]) else amb).
  set (su' := if _ && _ && _ then vec_head vec else su).
  destruct (IH amb' su') as [H1 H2]; [done| | |].
  - unfold amb'. destruct (top_tie _ _); [|done]. simpl.
    apply StronglySorted_app_iff. split_and!; [done|repeat constructor|].
    intros x y Hx ->%list_elem_of_singleton. apply Hlt; [done|by left].
  - intros x k' Hx Hk'. unfold amb' in Hx.
    destruct (top_tie _ _); [|apply Hlt; [done|by right]].
    simpl in Hx. apply elem_of_app in Hx as [Hx| ->%list_elem_of_singleton].
    + apply Hlt; [done|by right].
    + by apply Hk.
  - destruct (sortEntries priorityOf m amb' su') as [[r a] s] eqn:E; simpl in *.
    split; [done|]. intros x. rewrite H2. unfold amb'.
    destruct (N.eqb_spec x k) as [->|Hx].
    + assert (find m k = None) as ->.
      { destruct (find m k) eqn:Hf; [|done]. apply find_Some_key, Hk in Hf. lia. }
      simpl. fold vec. destruct (top_tie _ _); simpl; [|naive_solver].
      rewrite elem_of_app, list_elem_of_singleton. naive_solver.
    + destruct (top_tie _ _); simpl; [|done].
      rewrite elem_of_app, list_elem_of_singleton. naive_solver.
Qed.

(** The fast-path slot after the sort. *)
Definition single_of (v : list DescriptorId) (su : DescriptorId) : DescriptorId :=
  match v with [d] => d | _ => su end.

Lemma sort_single (v : list DescriptorId) :
  (nlen (sort_candidates priorityOf v) =? 1) &&
    negb (top_tie priorityOf (sort_candidates priorityOf v)) =
  match v with [_] => true | _ => false end ∧
  (∀ d, v = [d] → sort_candidates priorityOf v = [d]).
Proof.
  pose proof (sort_candidates_perm v) as Hp.
  pose proof (Permutation_length Hp) as Hl. split.
  - unfold nlen. destruct (sort_candidates priorityOf v) as [|a [|b l]];
      destruct v as [|c [|d l']]; simpl in Hl; try done.
    destruct (N.eqb_spec (N.of_nat (length (a :: b :: l))) 1); [simpl in *; lia|done].
  - intros d ->. by apply Permutation_singleton_r.
Qed.

Lemma sortEntries_single m amb su : keys_sorted m →
  (sortEntries priorityOf m amb su).2 =
  match find m kUnnamed with Some e => single_of (candidates e) su | None => su end.
Proof.
  unfold keys_sorted. revert amb su.
  induction m as [|[k e] m IH]; intros amb su Hm; [done|].
  apply StronglySorted_cons in Hm as [Hk Hm]. rewrite Forall_forall in Hk.
  cbn [sortEntries]. rewrite <-andb_assoc.
  destruct (sort_single (candidates e)) as [-> Hd].
  match goal with |- context [sortEntries _ _ ?a0 ?s0] =>
    specialize (IH a0 s0 Hm); destruct (sortEntries priorityOf m a0 s0) as [[r a] s] end.
  simpl in *. rewrite IH. clear IH.
  destruct (N.eqb_spec k kUnnamed) as [->|Hne].
  - simpl. assert (find m kUnnamed = None) as ->.
    { destruct (find m kUnnamed) eqn:Hf; [|done]. apply find_Some_key, Hk in Hf. lia. }
    destruct (candidates e) as [|d [|d' l]]; try done. by rewrite (Hd d).
  - simpl. destruct k; [done|]. done.
Qed.

End sort_phase.

Lemma binary_search_spec v x : StronglySorted N.lt v →
  binary_search v x = bool_decide (x ∈ v).
Proof.
  induction v as [|y v IH]; intros Hs; cbn [binary_search].
  { done. }
  apply StronglySorted_cons in Hs as [Hy Hs]. rewrite Forall_forall in Hy.
  destruct (N.ltb_spec y x).
  - rewrite IH by done. apply bool_decide_ext. rewrite elem_of_cons.
    split; [by right|]. intros [->|]; [lia|done].
  - destruct (N.eqb_spec y x) as [->|Hne].
    + symmetry; apply bool_decide_eq_true; by left.
    + symmetry; apply bool_decide_eq_false. intros [->|Hx]%elem_of_cons; [done|].
      apply Hy in Hx. lia.
Qed.

(** ** The whole start-up sequence *)

Section startup.
Context `{SS : StdSort} (priorityOf : DescriptorId → Z).

Definition inserts (ops : list (TypeId * NameId * DescriptorId)) (T : t) : t :=
  foldl (λ T op, insertCandidate op.1.1 op.1.2 op.2 T) T ops.

(** The descriptors contributed for a (type, name) pair, in call order. *)
Definition registered (ops : list (TypeId * NameId * DescriptorId))
    (ty : TypeId) (n : NameId) : list DescriptorId :=
  (filter (λ op, op.1 = (ty, n)) ops).*2.

Lemma pending_at_ensure pend i ty :
  pending_at (ensurePending i pend) ty = pending_at pend ty.
Proof.
  unfold ensurePending, pending_at. destruct (N.leb_spec (nlen pend) i); [|done].
  destruct (decide (ty < nlen pend)); [by rewrite vat_vresize_old by lia|].
  rewrite (proj2 (vat_None pend ty)) by lia. destruct (decide (ty < i + 1)).
  - by rewrite vat_vresize_new by lia.
  - by rewrite (proj2 (vat_None _ ty)) by (rewrite nlen_vresize; lia).
Qed.

Lemma insertCandidate_build i n d T : finalized_ T = false →
  let T' := insertCandidate i n d T in
  finalized_ T' = false ∧ typeIndex_ T' = typeIndex_ T ∧
  ∀ ty, pending_at (pending_ T') ty =
        pending_at (pending_ T) ty ++ if decide (ty = i) then [(n, d)] else [].
Proof.
  intros Hf. unfold insertCandidate. rewrite Hf. simpl. split_and!; [done..|].
  intros ty. rewrite <-(pending_at_ensure (pending_ T) i ty).
  assert (i < nlen (ensurePending i (pending_ T))) as Hi.
  { unfold ensurePending. destruct (N.leb_spec (nlen (pending_ T)) i);
      [rewrite nlen_vresize|]; lia. }
  unfold pending_at. case_decide as E; [subst|].
  - by rewrite vat_vset_eq.
  - by rewrite vat_vset_ne, app_nil_r by congruence.
Qed.

Lemma inserts_pending ops : ∀ T, finalized_ T = false →
  let T' := inserts ops T in
  finalized_ T' = false ∧ typeIndex_ T' = typeIndex_ T ∧
  ∀ ty n, vals n (pending_at (pending_ T') ty) =
          vals n (pending_at (pending_ T) ty) ++ registered ops ty n.
Proof.
  induction ops as [|[[i n'] d] ops IH]; intros T Hf; simpl.
  { split_and!; [done..|]. intros. by rewrite app_nil_r. }
  destruct (insertCandidate_build i n' d T Hf) as (H1 & H2 & H3).
  destruct (IH (insertCandidate i n' d T) H1) as (H4 & H5 & H6).
  split_and!; [done|congruence|]. intros ty n. rewrite H6, H3, vals_app, <-(app_assoc _ _ _).
  f_equal. unfold registered. rewrite filter_cons. simpl.
  destruct (decide (ty = i)) as [->|Hty].
  - unfold vals. rewrite filter_cons, filter_nil; simpl.
    repeat case_decide; simplify_eq; done.
  - rewrite decide_False by congruence. done.
Qed.

(** The table of a type after the flush of a fresh index. *)
Lemma built_tables ops :
  let ti := flushPending 0 (pending_ (inserts ops empty)) [] in
  tables_wf ti ∧ ∀ ty n, cands_at ti ty n ≡ₚ registered ops ty n.
Proof.
  assert (tables_wf []) as H0.
  { intros ty m. unfold tbl_at. by rewrite vat_nil. }
  destruct (flushPending_spec (pending_ (inserts ops empty)) 0 [] H0) as [H1 H2].
  split; [done|]. intros ty n. rewrite H2, decide_True, N.sub_0_r by lia.
  destruct (inserts_pending ops empty eq_refl) as (_ & _ & ->).
  unfold cands_at, tbl_at, pending_at.
  simpl. rewrite !vat_nil. done.
Qed.

Lemma mjoin_vat_fmap {A B} (f : option A → option B) (l : list (option A)) i :
  f None = None → mjoin (vat (f <$> l) i) = f (mjoin (vat l i)).
Proof.
  intros Hf. rewrite !vat_lookup, list_lookup_fmap.
  destruct (l !! N.to_nat i); simpl; [by destruct o|done].
Qed.

Lemma entryFor_sorted T ty n :
  entryFor (sortAllCandidates priorityOf T) ty n =
  finish priorityOf <$>
    (m ← tbl_at (flushPending 0 (pending_ T) (typeIndex_ T)) ty; find m n).
Proof.
  unfold entryFor, sortAllCandidates, tbl_at; simpl.
  rewrite (mjoin_vat_fmap (λ o, (sortTable priorityOf o).1.1)) by done.
  destruct (mjoin (vat (flushPending _ _ _) ty)) as [m|]; simpl; [|done].
  pose proof (sortEntries_find priorityOf m None kInvalidDescriptorId n) as H.
  by destruct (sortEntries _ _ _ _) as [[r a] s].
Qed.

(** An index that answers for [ops]: candidates in descending priority, the precomputed
    head and tie, the fast path of a single unnamed candidate. *)
Record settled (ops : list (TypeId * NameId * DescriptorId)) (T : t) : Prop := {
  se_entry ty n :
    match registered ops ty n with
    | [] => entryFor T ty n = None
    | _ :: _ => ∃ v, v ≡ₚ registered ops ty n ∧ desc_sorted priorityOf v ∧
         entryFor T ty n = Some {| candidates := v; head := vec_head v;
                                   ambiguous := top_tie priorityOf v |}
    end;
  se_single ty : singleUnnamedCandidate T ty =
    match registered ops ty kUnnamed with [d] => d | _ => kInvalidDescriptorId end
}.

Lemma sorted_settled ops T :
  let ti := flushPending 0 (pending_ T) (typeIndex_ T) in
  tables_wf ti → (∀ ty n, cands_at ti ty n ≡ₚ registered ops ty n) →
  settled ops (sortAllCandidates priorityOf T).
Proof.
  intros ti Hwf Hc. split.
  - intros ty n. rewrite entryFor_sorted. fold ti. specialize (Hc ty n). revert Hc.
    unfold cands_at. destruct (tbl_at ti ty) as [m|] eqn:Em; simpl.
    + destruct (Hwf _ _ Em) as [_ Hne]. specialize (find_cands m n Hne).
      destruct (find m n) as [e|] eqn:Ef; simpl; intros Hf Hc.
      * destruct (cands m n) as [|d v] eqn:Ecm; [done|]. simplify_eq.
        destruct (registered ops ty n) eqn:Er.
        { by apply Permutation_nil_r in Hc. }
        exists (sort_candidates priorityOf (candidates e)).
        split_and!; [|apply sort_candidates_sorted|done].
        rewrite sort_candidates_perm. by rewrite <-Hc, Hf.
      * destruct (cands m n) as [|d v] eqn:Ecm; [|done].
        apply Permutation_nil_l in Hc. by rewrite <-Hc.
    + intros Hc. apply Permutation_nil_l in Hc. by rewrite <-Hc.
  - intros ty. specialize (Hc ty kUnnamed).
    unfold singleUnnamedCandidate, sortAllCandidates; simpl. fold ti.
    rewrite vat_lookup, list_lookup_fmap, <-vat_lookup.
    assert (default kInvalidDescriptorId ((λ o, (sortTable priorityOf o).2) <$> vat ti ty)
      = (sortTable priorityOf (tbl_at ti ty)).2) as ->.
    { unfold tbl_at. destruct (vat ti ty); done. }
    unfold cands_at in Hc. destruct (tbl_at ti ty) as [m|] eqn:Em; simpl in *.
    + destruct (Hwf _ _ Em) as [Hs Hne].
      pose proof (sortEntries_single priorityOf m None kInvalidDescriptorId Hs) as H.
      destruct (sortEntries _ _ _ _) as [[r a] s]. simpl in *. rewrite H.
      unfold cands in Hc. destruct (find m kUnnamed) as [e|]; simpl in *.
      * unfold single_of. pose proof (Permutation_length Hc).
        destruct (candidates e) as [|d [|d' l]];
          destruct (registered ops ty kUnnamed) as [|d1 [|d2 l2]]; try done.
        apply Permutation_length_1 in Hc. done.
      * apply Permutation_nil_l in Hc. by rewrite <-Hc.
    + apply Permutation_nil_l in Hc. by rewrite <-Hc.
Qed.

Lemma built_settled ops : settled ops (sortAllCandidates priorityOf (inserts ops empty)).
Proof.
  destruct (inserts_pending ops empty eq_refl) as (_ & Hti & _).
  apply sorted_settled; rewrite Hti; apply built_tables.
Qed.

(** The sorted index in terms of the contributions. *)
Lemma entryFor_registered ops ty n :
  let T := sortAllCandidates priorityOf (inserts ops empty) in
  match registered ops ty n with
  | [] => entryFor T ty n = None
  | _ :: _ => ∃ v, v ≡ₚ registered ops ty n ∧ desc_sorted priorityOf v ∧
       entryFor T ty n = Some {| candidates := v; head := vec_head v;
                                 ambiguous := top_tie priorityOf v |}
  end.
Proof. apply se_entry, built_settled. Qed.

Lemma isAmbiguousFor_sorted T ty n :
  tables_wf (flushPending 0 (pending_ T) (typeIndex_ T)) →
  let T' := sortAllCandidates priorityOf T in
  isAmbiguousFor T' ty n = (headFor T' ty n).2.
Proof.
  intros Hwf T'. unfold headFor, isAmbiguousFor, T'. rewrite entryFor_sorted.
  unfold sortAllCandidates; simpl.
  rewrite (mjoin_vat_fmap (λ o, (sortTable priorityOf o).1.2)) by done.
  change (mjoin (vat ?l ty)) with (tbl_at l ty).
  destruct (tbl_at _ ty) as [m|] eqn:Em; simpl; [|done].
  destruct (Hwf _ _ Em) as [Hs _].
  destruct (sortEntries_amb priorityOf m None kInvalidDescriptorId) as [H1 H2];
    [done|constructor|by intros ?? ?%not_elem_of_nil|].
  destruct (sortEntries _ _ _ _) as [[r a] s]. simpl in *.
  specialize (H2 n). unfold entry_tie in H2.
  destruct a as [v|]; simpl in *.
  - rewrite binary_search_spec by done.
    destruct (find m n) as [e|]; simpl in *.
    + destruct (top_tie _ _) eqn:Ht.
      * apply bool_decide_eq_true. rewrite H2. by right.
      * apply bool_decide_eq_false. rewrite H2. intros [?%not_elem_of_nil|]; done.
    + apply bool_decide_eq_false. rewrite H2. intros [?%not_elem_of_nil|]; done.
  - destruct (find m n) as [e|]; simpl in *; [|done].
    destruct (top_tie _ _); [|done]. exfalso. apply (not_elem_of_nil n), H2. by right.
Qed.

Lemma singleUnnamed_sorted ops ty :
  let T := sortAllCandidates priorityOf (inserts ops empty) in
  singleUnnamedCandidate T ty =
  match registered ops ty kUnnamed with [d] => d | _ => kInvalidDescriptorId end.
Proof. apply se_single, built_settled. Qed.
End startup.

(** ** Properties *)

(** A finalised index whose tables are flat maps. *)
Record wf (T : t) : Prop := {
  wf_finalized : finalized_ T = true;
  wf_tables : ∀ ty m, tableFor T ty = Some m → keys_sorted m
}.

Section properties.
Context `{SS : StdSort} (priorityOf : DescriptorId → Z).

Lemma sortEntries_keys m amb su : (sortEntries priorityOf m amb su).1.1.*1 = m.*1.
Proof.
  revert amb su. induction m as [|[k e] m IH]; intros amb su; simpl; [done|].
  match goal with |- context [sortEntries _ _ ?a0 ?s0] =>
    specialize (IH a0 s0); destruct (sortEntries priorityOf m a0 s0) as [[r a] s] end.
  simpl in *. by f_equal.
Qed.

Lemma sorted_wf ops : wf (sortAllCandidates priorityOf (inserts ops empty)).
Proof.
  split; [done|]. intros ty m. destruct (inserts_pending ops empty eq_refl) as (_ & Hti & _).
  destruct (built_tables ops) as [Hwf _].
  unfold tableFor, sortAllCandidates, tbl_at; simpl. rewrite Hti.
  rewrite (mjoin_vat_fmap (λ o, (sortTable priorityOf o).1.1)) by done.
  change (mjoin (vat ?l ty)) with (tbl_at l ty).
  change (typeIndex_ empty) with (@nil (option NameTable)).
  destruct (tbl_at _ ty) as [m0|] eqn:Em; simpl; [|done].
  destruct (Hwf _ _ Em) as [Hs _]. unfold keys_sorted in *.
  rewrite <-(sortEntries_keys m0 None kInvalidDescriptorId) in Hs.
  destruct (sortEntries _ _ _ _) as [[r a] s]; simpl. intros; by simplify_eq.
Qed.

(** The meaning of a tie for a sorted vector. *)
Definition unique_top (reg : list DescriptorId) (d : DescriptorId) : Prop :=
  ∃ l, reg ≡ₚ d :: l ∧ ∀ x, x ∈ l → (priorityOf x < priorityOf d)%Z.

Definition tied_top (reg : list DescriptorId) (d : DescriptorId) : Prop :=
  ∃ d' l, reg ≡ₚ d :: d' :: l ∧ priorityOf d' = priorityOf d ∧
          ∀ x, x ∈ l → (priorityOf x ≤ priorityOf d)%Z.

Lemma top_tie_spec d v : desc_sorted priorityOf (d :: v) →
  if top_tie priorityOf (d :: v) then tied_top (d :: v) d else unique_top (d :: v) d.
Proof.
  intros [Hd Hs]%StronglySorted_cons. rewrite Forall_forall in Hd.
  destruct v as [|d' v]; simpl.
  { exists []. split; [done|]. by intros x ?%not_elem_of_nil. }
  apply StronglySorted_cons in Hs as [Hd' Hs]. rewrite Forall_forall in Hd'.
  destruct (Z.eqb_spec (priorityOf d) (priorityOf d')) as [E|E].
  - exists d', v. split_and!; [done..|]. intros x Hx. apply Hd. by right.
  - exists (d' :: v). split; [done|].
    assert (priorityOf d' ≤ priorityOf d)%Z by (apply Hd; by left).
    intros x [->|Hx]%elem_of_cons; [lia|]. specialize (Hd' x Hx). lia.
Qed.

(** Start-up index: after any sequence of [insertCandidate] calls and one
    [sortAllCandidates], [candidatesFor] answers for every (type, name) pair a
    permutation of exactly the descriptors registered for it, in descending
    priority, and nothing when none was registered; the two ambiguity caches
    (the bit of the entry and the binary-searched vector) agree; and the
    fast-path slot holds the candidate exactly when it is the only unnamed one. *)
Theorem sort_all_candidates_spec (ops : list (TypeId * NameId * DescriptorId))
    (ty : TypeId) (n : NameId) :
  let T := sortAllCandidates priorityOf (inserts ops empty) in
  (match candidatesFor T ty n with
   | None => registered ops ty n = []
   | Some v => v ≡ₚ registered ops ty n ∧ v ≠ [] ∧
        StronglySorted (λ a b, (priorityOf b ≤ priorityOf a)%Z) v
   end) ∧
  isAmbiguousFor T ty n = (headFor T ty n).2 ∧
  singleUnnamedCandidate T ty =
    match registered ops ty kUnnamed with [d] => d | _ => kInvalidDescriptorId end.
Proof.
  intros T. split_and!.
  - unfold candidatesFor. pose proof (entryFor_registered priorityOf ops ty n) as H.
    fold T in H. destruct (registered ops ty n) as [|d l] eqn:Er; [by rewrite H|].
    destruct H as (v & Hp & Hs & ->). simpl. split_and!; [done| |done].
    intros ->. by apply Permutation_nil_l in Hp.
  - apply isAmbiguousFor_sorted.
    destruct (inserts_pending ops empty eq_refl) as (_ & -> & _). by apply built_tables.
  - apply singleUnnamed_sorted.
Qed.

(** C33 The head read on the resolve path decides resolution: right after the candidates
    have been sorted, before any late insertion, for every (type, name) pair either nothing
    was registered and the head is the invalid descriptor, or the head is registered and the
    ambiguity bit says whether it beats every other candidate strictly or is tied at the
    highest priority. (The pair of the context bean is inserted by [start()] after its sort,
    and has no head until the next one.) *)
Theorem head_decides (ops : list (TypeId * NameId * DescriptorId))
    (ty : TypeId) (n : NameId) :
  let T := sortAllCandidates priorityOf (inserts ops empty) in
  let reg := registered ops ty n in
  (reg = [] ∧ headFor T ty n = (kInvalidDescriptorId, false)) ∨
  (∃ d, headFor T ty n = (d, false) ∧ unique_top reg d) ∨
  (∃ d, headFor T ty n = (d, true) ∧ tied_top reg d).
Proof.
  intros T reg. unfold headFor. pose proof (entryFor_registered priorityOf ops ty n) as H.
  fold T reg in H. destruct reg as [|d0 l0] eqn:Er; [left; by rewrite H|].
  destruct H as (v & Hp & Hs & ->). right.
  destruct v as [|d v]; [by apply Permutation_nil_l in Hp|].
  pose proof (top_tie_spec d v Hs) as Ht.
  destruct (top_tie priorityOf (d :: v)) eqn:E.
  - right. exists d. split; [done|].
    destruct Ht as (d' & l & H1 & H2). exists d', l. by rewrite <-Hp.
  - left. exists d. split; [done|].
    destruct Ht as (l & H1 & H2). exists l. by rewrite <-Hp.
Qed.

(** A late insertion, table by table and entry by entry. *)
Lemma late_tables ty n d T : finalized_ T = true → ∀ ty',
  tbl_at (typeIndex_ (updateSingleUnnamed ty (insertCandidate ty n d T))) ty' =
    if decide (ty' = ty) then Some (try_emplace_with n (push_candidates [d])
      (default [] (tbl_at (typeIndex_ T) ty))) else tbl_at (typeIndex_ T) ty'.
Proof.
  intros Hf ty'. unfold insertCandidate. rewrite Hf. simpl.
  rewrite tbl_at_mod, !tbl_at_ensure. case_decide; subst; [by rewrite decide_True|done].
Qed.

Lemma late_entryFor ty n d T : wf T → ∀ ty' n',
  entryFor (updateSingleUnnamed ty (insertCandidate ty n d T)) ty' n' =
    if decide ((ty', n') = (ty, n))
    then Some (push_candidates [d] (default empty_entry (entryFor T ty n)))
    else entryFor T ty' n'.
Proof.
  intros [Hf Hwf] ty' n'. unfold entryFor. rewrite late_tables by done.
  assert (keys_sorted (default [] (tbl_at (typeIndex_ T) ty))) as Hks.
  { destruct (tbl_at _ ty) eqn:E; [by eapply Hwf|constructor]. }
  destruct (decide (ty' = ty)) as [->|Hty]; [|by rewrite decide_False by congruence].
  simpl. rewrite find_try_emplace by done. destruct (decide (n' = n)) as [->|Hn].
  - rewrite decide_True by done. by destruct (tbl_at _ ty).
  - rewrite decide_False by congruence. by destruct (tbl_at _ ty).
Qed.

Lemma late_single ty n d T ty' :
  let T' := updateSingleUnnamed ty (insertCandidate ty n d T) in
  singleUnnamedCandidate T' ty' =
    if decide (ty' = ty)
    then match candidatesFor T' ty kUnnamed with
         | Some [u] => u | _ => kInvalidDescriptorId end
    else singleUnnamedCandidate T ty'.
Proof.
  intros T'. unfold T', singleUnnamedCandidate, updateSingleUnnamed; cbn [singleUnnamed_].
  assert (singleUnnamed_ (insertCandidate ty n d T) = singleUnnamed_ T) as ->.
  { unfold insertCandidate. by destruct (finalized_ T). }
  case_decide as Hne; [subst ty'|].
  - rewrite vat_vset_eq; [done|]. case_match eqn:Hle; [rewrite nlen_vresize; lia|].
    by apply N.leb_gt in Hle.
  - rewrite vat_vset_ne by congruence. case_match eqn:Hle; [|done]. apply N.leb_le in Hle.
    destruct (decide (ty' < nlen (singleUnnamed_ T))); [by rewrite vat_vresize_old by lia|].
    rewrite (proj2 (vat_None (singleUnnamed_ T) ty')) by lia.
    destruct (decide (ty' < ty + 1)); [by rewrite vat_vresize_new by lia|].
    rewrite (proj2 (vat_None _ ty')); [done|]. rewrite nlen_vresize; lia.
Qed.

(** A descriptor inserted after the sort and without a new one, as
    [registerContextBean] does: on a finalised index [insertCandidate] followed by
    [updateSingleUnnamed] appends the descriptor to the candidates of its pair and
    leaves every other pair alone, keeps the precomputed head and ambiguity of a
    pair that had one (a first candidate gets the invalid head), and refreshes the
    fast path of the type from the new unnamed candidates. *)
Theorem late_insert_spec (ty : TypeId) (n : NameId) (d : DescriptorId) (T : t) :
  wf T →
  let T' := updateSingleUnnamed ty (insertCandidate ty n d T) in
  wf T' ∧
  candidatesFor T' ty n = Some (default [] (candidatesFor T ty n) ++ [d]) ∧
  (∀ ty' n', (ty', n') ≠ (ty, n) → candidatesFor T' ty' n' = candidatesFor T ty' n') ∧
  (∀ ty' n', headFor T' ty' n' = headFor T ty' n') ∧
  singleUnnamedCandidate T' ty =
    (match candidatesFor T' ty kUnnamed with
     | Some [u] => u | _ => kInvalidDescriptorId end) ∧
  (∀ ty', ty' ≠ ty → singleUnnamedCandidate T' ty' = singleUnnamedCandidate T ty').
Proof.
  intros HT T'. pose proof (late_entryFor ty n d T HT) as He. fold T' in He.
  split_and!.
  - destruct HT as [Hf Hwf]. split; [unfold T', insertCandidate; by rewrite Hf|].
    unfold tableFor, T'. intros ty' m. rewrite late_tables by done. case_decide; [|apply Hwf].
    intros; simplify_eq. apply try_emplace_sorted.
    destruct (tbl_at _ ty) eqn:E; [by eapply Hwf|constructor].
  - unfold candidatesFor. rewrite He, decide_True by done. simpl.
    by destruct (entryFor T ty n).
  - intros ty' n' Hne. unfold candidatesFor. by rewrite He, decide_False.
  - intros ty' n'. unfold headFor. rewrite He. case_decide as E; [|done].
    simplify_eq. by destruct (entryFor T ty n).
  - unfold T'. by rewrite late_single, decide_True.
  - intros ty' Hne. unfold T'. by rewrite late_single, decide_False.
Qed.
End properties.

(** ** A finalised index that takes new candidates *)

(** What every insertion and every resort keeps: flat tables, nothing pending, and the
    candidates of a pair are those registered for it. *)
Record lists (ops : list (TypeId * NameId * DescriptorId)) (T : t) : Prop := {
  ls_final : finalized_ T = true;
  ls_pending : pending_ T = [];
  ls_tables : tables_wf (typeIndex_ T);
  ls_cands ty n : cands_at (typeIndex_ T) ty n ≡ₚ registered ops ty n
}.

Section lists.
Context `{SS : StdSort} (priorityOf : DescriptorId → Z).

Lemma registered_snoc ops ty n d ty' n' : registered (ops ++ [(ty, n, d)]) ty' n' =
  registered ops ty' n' ++ if decide ((ty', n') = (ty, n)) then [d] else [].
Proof.
  unfold registered. rewrite filter_app, fmap_app. f_equal. rewrite filter_cons. simpl.
  repeat case_decide; simplify_eq; done.
Qed.

Lemma lists_entry ops T ty n : lists ops T →
  match entryFor T ty n with
  | Some e => candidates e ≡ₚ registered ops ty n ∧ registered ops ty n ≠ []
  | None => registered ops ty n = []
  end.
Proof.
  intros [_ _ Hwf Hc]. specialize (Hc ty n). unfold entryFor, cands_at in *.
  change (mjoin (vat ?l ty)) with (tbl_at l ty).
  destruct (tbl_at (typeIndex_ T) ty) as [m|] eqn:Em; simpl in *.
  - destruct (Hwf _ _ Em) as [_ Hne]. unfold cands in Hc. specialize (Hne n).
    destruct (find m n) as [e|]; simpl in *; [|by apply Permutation_nil_l in Hc].
    split; [done|]. intros Hr. rewrite Hr in Hc. apply Permutation_nil_r in Hc. by apply (Hne e).
  - by apply Permutation_nil_l in Hc.
Qed.

Lemma lists_single ops T ty : lists ops T → lists ops (updateSingleUnnamed ty T).
Proof. intros []. by split. Qed.

Lemma lists_insert ops T ty n d : lists ops T →
  lists (ops ++ [(ty, n, d)]) (insertCandidate ty n d T).
Proof.
  intros [Hf Hp Hwf Hc]. unfold insertCandidate. rewrite Hf.
  assert (keys_sorted (default [] (tbl_at (typeIndex_ T) ty)) ∧
    no_empty (default [] (tbl_at (typeIndex_ T) ty))) as [Hk Hn].
  { destruct (tbl_at (typeIndex_ T) ty) eqn:E; [by eapply Hwf|]. split; [constructor|done]. }
  assert (∀ t, tbl_at (modTable ty (try_emplace_with n (push_candidates [d]))
      (ensureTable ty (typeIndex_ T))) t =
    if decide (t = ty) then Some (try_emplace_with n (push_candidates [d])
      (default [] (tbl_at (typeIndex_ T) ty))) else tbl_at (typeIndex_ T) t) as Hat.
  { intros t'. rewrite tbl_at_mod, !tbl_at_ensure.
    case_decide as E1; subst; [|done]. by rewrite decide_True by done. }
  split; simpl; [done|done|..].
  - intros t m. rewrite Hat. case_decide; [intros; simplify_eq|apply Hwf].
    split; [by apply try_emplace_sorted|]. intros k e. rewrite find_try_emplace by done.
    case_decide; [intros [= <-]|by apply Hn]. simpl. by destruct (candidates _).
  - intros t k. unfold cands_at. rewrite Hat, registered_snoc.
    case_decide as Ht; [subst t|].
    + simpl. rewrite cands_try_emplace by done. specialize (Hc ty k). unfold cands_at in Hc.
      assert (cands (default [] (tbl_at (typeIndex_ T) ty)) k ≡ₚ registered ops ty k) as <-
        by by destruct (tbl_at (typeIndex_ T) ty).
      apply Permutation_app_head. repeat case_decide; simplify_eq; done.
    + rewrite decide_False by congruence. rewrite app_nil_r. apply Hc.
Qed.

Lemma finish_no_empty m : no_empty m → no_empty (sortEntries priorityOf m None kInvalidDescriptorId).1.1.
Proof.
  intros Hm k e. rewrite sortEntries_find. destruct (find m k) as [e'|] eqn:Hf; [|done].
  intros [= <-]. specialize (Hm k e' Hf). simpl. intros Hs.
  pose proof (sort_candidates_perm priorityOf (candidates e')) as Hp. rewrite Hs in Hp.
  by apply Permutation_nil_l in Hp.
Qed.

(** A resort keeps the candidates and settles the index. *)
Lemma lists_resort ops T ty : lists ops T →
  let T' := updateSingleUnnamed ty (sortAllCandidates priorityOf T) in
  lists ops T' ∧ settled priorityOf ops T'.
Proof.
  intros [Hf Hp Hwf Hc] T'.
  assert (settled priorityOf ops (sortAllCandidates priorityOf T)) as [He Hs].
  { apply sorted_settled; rewrite Hp; done. }
  assert (∀ t, tbl_at (typeIndex_ (sortAllCandidates priorityOf T)) t =
    (λ m, (sortEntries priorityOf m None kInvalidDescriptorId).1.1) <$> tbl_at (typeIndex_ T) t) as Ht.
  { intros t. unfold sortAllCandidates, tbl_at. simpl. rewrite Hp.
    rewrite (mjoin_vat_fmap (λ o, (sortTable priorityOf o).1.1)) by done.
    simpl. destruct (mjoin (vat (typeIndex_ T) t)) as [m|]; [|done]. simpl.
    by destruct (sortEntries _ _ _ _) as [[r a] s]. }
  split.
  - apply lists_single. split; [done|done|..].
    + intros t m. rewrite Ht. destruct (tbl_at (typeIndex_ T) t) as [m0|] eqn:E; [|done].
      intros [= <-]. destruct (Hwf _ _ E) as [H1 H2]. split; [|by apply finish_no_empty].
      unfold keys_sorted. by rewrite sortEntries_keys.
    + intros t n. rewrite <-Hc. unfold cands_at. rewrite Ht.
      destruct (tbl_at (typeIndex_ T) t) as [m0|]; [|done]. simpl. unfold cands.
      rewrite sortEntries_find. destruct (find m0 n); [|done]. apply sort_candidates_perm.
  - split; [done|]. intros ty'. rewrite <-Hs. unfold T', singleUnnamedCandidate, updateSingleUnnamed.
    cbn [singleUnnamed_]. set (X := sortAllCandidates priorityOf T) in *.
    assert (match candidatesFor X ty kUnnamed with Some [d] => d | _ => kInvalidDescriptorId end =
      singleUnnamedCandidate X ty) as Hty.
    { rewrite Hs. unfold candidatesFor. specialize (He ty kUnnamed).
      destruct (registered ops ty kUnnamed) as [|d l]; [by rewrite He|].
      destruct He as (v & Hv & _ & ->). simpl. pose proof (Permutation_length Hv) as Hl.
      destruct v as [|a [|b v]], l as [|d' l]; try done.
      by apply Permutation_length_1 in Hv. }
    rewrite Hty. unfold singleUnnamedCandidate.
    set (su := singleUnnamed_ X). destruct (decide (ty' = ty)) as [->|Hne].
    + rewrite vat_vset_eq; [done|]. destruct (N.leb_spec (nlen su) ty); [rewrite nlen_vresize|]; lia.
    + rewrite vat_vset_ne by congruence. destruct (N.leb_spec (nlen su) ty) as [Hle|]; [|done].
      destruct (decide (ty' < nlen su)); [by rewrite vat_vresize_old by lia|].
      rewrite (proj2 (vat_None su ty')) by lia.
      destruct (decide (ty' < ty + 1)); [by rewrite vat_vresize_new by lia|].
      rewrite (proj2 (vat_None _ ty')); [done|]. rewrite nlen_vresize; lia.
Qed.

Lemma built_lists ops : lists ops (sortAllCandidates priorityOf (inserts ops empty)).
Proof.
  destruct (inserts_pending ops empty eq_refl) as (_ & Hti & _).
  destruct (built_tables ops) as [Hwf Hc].
  set (X := {| typeIndex_ := flushPending 0 (pending_ (inserts ops empty)) [];
               pending_ := []; finalized_ := true; ambiguous_ := []; singleUnnamed_ := [] |}).
  assert (lists ops X) as HX by by split.
  destruct (lists_resort ops X 0 HX) as [[H1 H2 H3 H4] _]. split; [done|done|..].
  - intros t m Ht. apply (H3 t m). revert Ht. unfold sortAllCandidates. simpl. by rewrite Hti.
  - intros t n. rewrite <-H4. unfold sortAllCandidates. simpl. by rewrite Hti.
Qed.

End lists.

(** Two candidates of equal top priority: the head is one of them and the pair
    is ambiguous; a lone unnamed candidate fills the fast path. *)
Example index_ambiguous_example :
  let T := sortAllCandidates (λ d, if d =? 7 then 1%Z else 5%Z)
             (inserts [(3, 0, 7); (3, 0, 8); (3, 0, 9); (4, 0, 7)] empty) in
  (candidatesFor T 3 0, headFor T 3 0, isAmbiguousFor T 3 0,
   singleUnnamedCandidate T 3, singleUnnamedCandidate T 4) =
  (Some [8; 9; 7], (8, true), true, kInvalidDescriptorId, 7).
Proof. vm_compute. reflexivity. Qed.

End TypeIndex.
