(* ===== verification/Stores.v ===== *)
(** The instance stores.

    [Module InstanceArray] holds the growable, never-freed array of atomic
    slots shared by the two stores; [Module SingletonStore] models
    [internal/detail/SingletonStore.hpp] with its frozen snapshot and the
    interleaving of a growing writer with lock-free readers, [Module
    SessionStore] models [internal/detail/SessionStore.hpp] with its retired
    blocks, and [Module ThreadLocalStore] models
    [internal/detail/ThreadLocalStore.hpp]. *)
From S2P Require Import Prelude.

Local Open Scope N_scope.

(** * The array of slots *)

Module InstanceArray.

(** The arrays live in the graveyard; a pointer to an array is its index there
    ([None] is the null pointer). *)
Record t : Type := {
  graveyard : list (list ptr);
  base : option N;
  size : N
}.

Definition empty : t := {| graveyard := []; base := None; size := 0 |}.

(** [array[idx].load()]; [None] outside the array or through a null or freed
    pointer. *)
Definition load (A : t) (a : option N) (idx : N) : option ptr :=
  a' ← a; arr ← vat (graveyard A) a'; vat arr idx.

Definition write (a : option N) (idx : N) (p : ptr) (A : t) : option t :=
  match a with
  | None => None
  | Some a' =>
      match vat (graveyard A) a' with
      | Some arr =>
          if idx <? nlen arr then
            Some {| graveyard := vset a' (vset idx p arr) (graveyard A);
                    base := base A; size := size A |}
          else None
      | None => None
      end
  end.

(** A fresh array of [n] slots that starts with the [copied] values. *)
Definition push_array (copied : list ptr) (n : N) (A : t) : N * t :=
  (nlen (graveyard A),
   {| graveyard := graveyard A ++ [copied ++ replicate (N.to_nat (n - nlen copied)) nullptr];
      base := base A; size := size A |}).

Definition publish_base (a : N) (A : t) : t :=
  {| graveyard := graveyard A; base := Some a; size := size A |}.

Definition publish_size (n : N) (A : t) : t :=
  {| graveyard := graveyard A; base := base A; size := n |}.

(** The slots the growth loop copies: the first [size] of the current array. *)
Definition copied_slots (A : t) : option (list ptr) :=
  match base A with
  | None => if size A =? 0 then Some [] else None
  | Some b =>
      match vat (graveyard A) b with
      | Some arr => if size A <=? nlen arr then Some (take (N.to_nat (size A)) arr) else None
      | None => None
      end
  end.

(** Allocation, copy and publication of the base, before the size. *)
Definition grow_base (newSize : N) (A : t) : option t :=
  match copied_slots A with
  | Some slots => let '(a, A') := push_array slots newSize A in Some (publish_base a A')
  | None => None
  end.

Definition grow (newSize : N) (A : t) : option t :=
  if size A <? newSize then publish_size newSize <$> grow_base newSize A else Some A.

Definition resize (n : N) (A : t) : t :=
  let '(a, A') := push_array [] n A in publish_size n (publish_base a A').

(** The lock-free read: size, then base, then slot. *)
Definition find (A : t) (idx : N) : option ptr :=
  if size A <=? idx then Some nullptr
  else match base A with
       | None => Some nullptr
       | Some b => load A (Some b) idx
       end.

(** The published base has at least the published size. *)
Record wf (A : t) : Prop := {
  wf_base : match base A with
            | None => size A = 0
            | Some b => ∃ arr, vat (graveyard A) b = Some arr ∧ size A ≤ nlen arr
            end
}.

(** The current value of a slot; [nullptr] outside the array. *)
Definition slot (A : t) (a : option N) (i : N) : ptr := default nullptr (load A a i).

Definition cur (A : t) (i : N) : ptr := slot A (base A) i.

Lemma array_wf_empty : wf empty.
Proof. by split. Qed.

Lemma find_cur A i : wf A → find A i = Some (if size A <=? i then nullptr else cur A i).
Proof.
  intros [Hb]. unfold find, cur, slot. destruct (N.leb_spec (size A) i); [done|].
  destruct (base A) as [b|] eqn:Eb; [|lia].
  destruct Hb as (arr & Harr & Hlen). simpl. rewrite Harr; simpl.
  destruct (proj2 (vat_is_Some arr i)) as [p ->]; [lia|done].
Qed.

Lemma load_push A c n a i :
  a < nlen (graveyard A) → load (push_array c n A).2 (Some a) i = load A (Some a) i.
Proof. intros H. unfold load; simpl. by rewrite vat_app_l. Qed.

Lemma vat_padded (c : list ptr) n i :
  default nullptr (vat (c ++ replicate n nullptr) i) = default nullptr (vat c i).
Proof.
  destruct (decide (i < nlen c)) as [H|H]; [by rewrite vat_app_l|].
  rewrite (proj2 (vat_None c i)) by lia. rewrite vat_lookup.
  unfold nlen in H. rewrite lookup_app_r by lia.
  destruct (replicate n nullptr !! _) eqn:E; [|done].
  by apply lookup_replicate in E as [-> _].
Qed.

Lemma vat_take {A} (l : list A) (n i : N) :
  vat (take (N.to_nat n) l) i = if n <=? i then None else vat l i.
Proof.
  rewrite !vat_lookup. destruct (N.leb_spec n i).
  - apply lookup_take_ge. lia.
  - apply lookup_take_lt. lia.
Qed.

Lemma copied_slots_spec A : wf A →
  ∃ c, copied_slots A = Some c ∧ nlen c = size A ∧
       ∀ i, default nullptr (vat c i) = if size A <=? i then nullptr else cur A i.
Proof.
  intros [Hb]. unfold copied_slots, cur, slot, load. destruct (base A) as [b|].
  - destruct Hb as (arr & Harr & Hlen). rewrite Harr. simpl.
    rewrite (proj2 (N.leb_le _ _)) by done. eexists; split_and!; [done| |].
    + unfold nlen in *. rewrite length_take. lia.
    + intros i. rewrite vat_take, Harr. by destruct (size A <=? i).
  - rewrite Hb. simpl. exists []. split_and!; [done..|].
    intros i. rewrite vat_nil. by destruct i.
Qed.

(** What each micro-step of the writer does to the slots. *)
Lemma grow_base_spec n A : wf A → size A ≤ n →
  ∃ A', grow_base n A = Some A' ∧ wf A' ∧ size A' = size A ∧
    base A' = Some (nlen (graveyard A)) ∧
    (∃ arr, graveyard A' = graveyard A ++ [arr] ∧ nlen arr = n ∧
       ∀ i, default nullptr (vat arr i) = if size A <=? i then nullptr else cur A i).
Proof.
  intros Hwf Hn. destruct (copied_slots_spec A Hwf) as (c & Hc & Hlen & Hv).
  unfold grow_base. rewrite Hc. unfold push_array.
  set (arr := c ++ _).
  assert (nlen arr = n) as Harr.
  { unfold arr. rewrite nlen_app. unfold nlen at 2. rewrite length_replicate. lia. }
  eexists; split_and!; [done| |done|done|].
  - split; simpl. rewrite vat_snoc_eq. exists arr. split; [done|lia].
  - exists arr. split_and!; [done..|]. intros i. unfold arr. by rewrite vat_padded.
Qed.

Lemma write_spec a i p A : is_Some (load A a i) →
  ∃ A', write a i p A = Some A' ∧ base A' = base A ∧ size A' = size A ∧
    nlen (graveyard A') = nlen (graveyard A) ∧
    (∀ a' arr', vat (graveyard A') a' = Some arr' →
       ∃ arr, vat (graveyard A) a' = Some arr ∧ nlen arr' = nlen arr) ∧
    (∀ a' arr, vat (graveyard A) a' = Some arr →
       ∃ arr', vat (graveyard A') a' = Some arr' ∧ nlen arr' = nlen arr) ∧
    (∀ a' j, load A' a' j = if decide (a' = a ∧ j = i) then Some p else load A a' j).
Proof.
  unfold load, write. destruct a as [a|]; simpl; [|by intros []].
  destruct (vat (graveyard A) a) as [arr|] eqn:Ea; simpl; [|by intros []].
  intros Hi%vat_is_Some. pose proof (vat_lt _ _ _ Ea) as Hlt.
  rewrite (proj2 (N.ltb_lt _ _)) by done.
  eexists; split_and!; [done..|simpl; by rewrite nlen_vset| | |]; simpl.
  - intros a' arr'. destruct (decide (a' = a)) as [->|Hne].
    + rewrite vat_vset_eq by done. intros; simplify_eq. exists arr. by rewrite nlen_vset.
    + rewrite vat_vset_ne by congruence. eauto.
  - intros a' arr1. destruct (decide (a' = a)) as [->|Hne].
    + rewrite vat_vset_eq by done. intros. simplify_eq. eexists. by rewrite nlen_vset.
    + rewrite vat_vset_ne by congruence. eauto.
  - intros [a'|] j; cbn [mbind option_bind]; [|by rewrite decide_False by naive_solver].
    destruct (decide (a' = a)) as [->|Hne].
    + rewrite vat_vset_eq, Ea by done; simpl. destruct (decide (j = i)) as [->|Hj].
      * rewrite decide_True by done. by apply vat_vset_eq.
      * rewrite decide_False by naive_solver. by rewrite vat_vset_ne by congruence.
    + rewrite vat_vset_ne by congruence. by rewrite decide_False by naive_solver.
Qed.

Lemma resize_spec n A :
  wf (resize n A) ∧ size (resize n A) = n ∧
  base (resize n A) = Some (nlen (graveyard A)) ∧ ∀ i, cur (resize n A) i = nullptr.
Proof.
  split_and!; [|done|done|].
  - split; simpl. rewrite vat_snoc_eq. eexists; split; [done|].
    unfold nlen; simpl. rewrite length_replicate. lia.
  - intros i. unfold cur, slot, load; simpl. rewrite vat_snoc_eq; simpl.
    rewrite vat_replicate. by case_decide.
Qed.

End InstanceArray.

(** * [SingletonStore] *)

Module SingletonStore.
Import InstanceArray.

Record t : Type := {
  instances_ : InstanceArray.t;
  frozenBase_ : option N;
  frozenSize_ : N;
  insertionOrder_ : list DescriptorId
}.

Definition empty : t :=
  {| instances_ := InstanceArray.empty; frozenBase_ := None; frozenSize_ := 0;
     insertionOrder_ := [] |}.

Definition set_instances (A : InstanceArray.t) (S : t) : t :=
  {| instances_ := A; frozenBase_ := frozenBase_ S; frozenSize_ := frozenSize_ S;
     insertionOrder_ := insertionOrder_ S |}.

Definition push_order (d : DescriptorId) (S : t) : t :=
  {| instances_ := instances_ S; frozenBase_ := frozenBase_ S;
     frozenSize_ := frozenSize_ S; insertionOrder_ := insertionOrder_ S ++ [d] |}.

(** [None] is a failed assertion or an access outside the array. *)
Definition store (descId : DescriptorId) (mem : ptr) (S : t) : option t :=
  let A := instances_ S in
  match load A (base A) descId with
  | Some 0 =>
      match write (base A) descId mem A with
      | Some A1 =>
          let S1 := set_instances A1 (push_order descId S) in
          if (descId <? frozenSize_ S) && bool_decide (frozenBase_ S ≠ None)
             && bool_decide (frozenBase_ S ≠ base A)
          then match load A1 (frozenBase_ S) descId with
               | Some 0 =>
                   match write (frozenBase_ S) descId mem A1 with
                   | Some A2 => Some (set_instances A2 S1)
                   | None => None
                   end
               | _ => None
               end
          else Some S1
      | None => None
      end
  | _ => None
  end.

Definition growAndStore (descId : DescriptorId) (mem : ptr) (S : t) : option t :=
  A ← grow (descId + 1) (instances_ S); store descId mem (set_instances A S).

Definition resize (descriptorCount : N) (S : t) : t :=
  let A := InstanceArray.resize descriptorCount (instances_ S) in
  {| instances_ := A; frozenBase_ := base A; frozenSize_ := descriptorCount;
     insertionOrder_ := insertionOrder_ S |}.

Definition find (S : t) (descId : DescriptorId) : option ptr :=
  if descId <? frozenSize_ S then
    match frozenBase_ S with
    | None => Some nullptr
    | Some f => load (instances_ S) (Some f) descId
    end
  else InstanceArray.find (instances_ S) descId.

Definition insertionOrder (S : t) : list DescriptorId := insertionOrder_ S.

Definition releaseAll (S : t) : t := empty.

Definition size (S : t) : N := nlen (insertionOrder_ S).

(** The value the live array holds for a descriptor. *)
Definition value (S : t) (d : DescriptorId) : ptr := cur (instances_ S) d.

(** The store between two writer operations. *)
Record wf (S : t) : Prop := {
  wf_arrays : InstanceArray.wf (instances_ S);
  wf_pad : ∀ i, InstanceArray.size (instances_ S) ≤ i → value S i = nullptr;
  wf_frozen : match frozenBase_ S with
              | None => frozenSize_ S = 0
              | Some f => ∃ farr, vat (graveyard (instances_ S)) f = Some farr ∧
                            nlen farr = frozenSize_ S
              end;
  wf_frozen_size : frozenSize_ S ≤ InstanceArray.size (instances_ S);
  wf_mirror : ∀ i, i < frozenSize_ S →
    slot (instances_ S) (frozenBase_ S) i = value S i;
  wf_order : ∀ d, d ∈ insertionOrder_ S ↔ value S d ≠ nullptr;
  wf_nodup : NoDup (insertionOrder_ S)
}.

Lemma singleton_wf_empty : wf empty.
Proof.
  split; try done.
  - simpl. intros d. split; [by intros ?%not_elem_of_nil|]. intros H; by destruct H.
  - constructor.
Qed.

Lemma load_slot A a i : is_Some (load A a i) → load A a i = Some (slot A a i).
Proof. intros [p Hp]. unfold slot. by rewrite Hp. Qed.

Lemma find_value S d : wf S → find S d = Some (value S d).
Proof.
  intros Hwf. unfold find. destruct (N.ltb_spec d (frozenSize_ S)) as [Hd|Hd].
  - pose proof (wf_frozen _ Hwf) as Hf. rewrite <-(wf_mirror _ Hwf) by done.
    destruct (frozenBase_ S) as [f|]; [|lia]. destruct Hf as (farr & Hfarr & Hlen).
    apply load_slot. unfold load; simpl. rewrite Hfarr; simpl.
    apply vat_is_Some. by rewrite Hlen.
  - rewrite find_cur by apply Hwf.
    destruct (N.leb_spec (InstanceArray.size (instances_ S)) d); [|done].
    by rewrite wf_pad.
Qed.

Lemma singleton_resize_wf n S : insertionOrder_ S = [] → wf (resize n S).
Proof.
  intros Ho. destruct (resize_spec n (instances_ S)) as (H1 & H2 & H3 & H4).
  split; simpl; try done.
  - intros; apply H4.
  - rewrite vat_snoc_eq. eexists; split; [done|].
    unfold nlen; simpl. rewrite length_replicate; lia.
  - intros d. rewrite Ho. unfold value; simpl. rewrite H4.
    split; [by intros ?%not_elem_of_nil|done].
  - rewrite Ho. constructor.
Qed.

Lemma resize_value n S d : value (resize n S) d = nullptr.
Proof. apply resize_spec. Qed.

Lemma load_base A i : InstanceArray.wf A → i < InstanceArray.size A →
  is_Some (load A (base A) i).
Proof.
  intros [Hb] Hi. unfold load. destruct (base A) as [b|]; [|lia].
  destruct Hb as (arr & Harr & Hlen). simpl. rewrite Harr; simpl.
  apply vat_is_Some. lia.
Qed.

Lemma slot_write A A' a i p a' j :
  (∀ a' j, load A' a' j = if decide (a' = a ∧ j = i) then Some p else load A a' j) →
  slot A' a' j = if decide (a' = a ∧ j = i) then p else slot A a' j.
Proof. intros H. unfold slot. rewrite H. by case_decide. Qed.

(** The invariant after a store, from what the writes did to the slots. *)
Lemma store_finish d p S (A2 : InstanceArray.t) : wf S →
  d < InstanceArray.size (instances_ S) → value S d = nullptr → p ≠ nullptr →
  base A2 = base (instances_ S) →
  InstanceArray.size A2 = InstanceArray.size (instances_ S) →
  InstanceArray.wf A2 →
  (∀ a arr, vat (graveyard (instances_ S)) a = Some arr →
     ∃ arr', vat (graveyard A2) a = Some arr' ∧ nlen arr' = nlen arr) →
  (∀ j, slot A2 (base (instances_ S)) j = if decide (j = d) then p else value S j) →
  (∀ j, j < frozenSize_ S →
     slot A2 (frozenBase_ S) j = slot A2 (base (instances_ S)) j) →
  let S' := set_instances A2 (push_order d S) in
  wf S' ∧ insertionOrder_ S' = insertionOrder_ S ++ [d] ∧
  frozenSize_ S' = frozenSize_ S ∧
  InstanceArray.size (instances_ S') = InstanceArray.size (instances_ S) ∧
  ∀ i, value S' i = if decide (i = d) then p else value S i.
Proof.
  intros Hwf Hd Hnull Hp Hb2 Hs2 HwfA2 Hlen2 Hbase2 Hfroz2 S'.
  assert (∀ i, value S' i = if decide (i = d) then p else value S i) as Hv.
  { intros i. unfold value, cur; simpl. rewrite Hb2. apply Hbase2. }
  split_and!; [|done..]. split; [done| | | | | |]; simpl.
  - intros i Hi. rewrite Hv. rewrite Hs2 in Hi.
    rewrite decide_False by lia. by apply wf_pad.
  - pose proof (wf_frozen _ Hwf) as Hf. destruct (frozenBase_ S); [|done].
    destruct Hf as (farr & Hfarr & <-). by apply Hlen2.
  - rewrite Hs2. apply (wf_frozen_size _ Hwf).
  - intros i Hi. rewrite Hv, <-Hbase2. by apply Hfroz2.
  - intros i. rewrite elem_of_app, list_elem_of_singleton, Hv, (wf_order _ Hwf).
    case_decide; subst; naive_solver.
  - apply NoDup_app. split_and!; [apply Hwf| |apply NoDup_singleton].
    intros i Hi ->%list_elem_of_singleton. by apply (wf_order _ Hwf) in Hi.
Qed.

Lemma write_wf (A A' : InstanceArray.t) : InstanceArray.wf A →
  base A' = base A → InstanceArray.size A' = InstanceArray.size A →
  (∀ a arr, vat (graveyard A) a = Some arr →
     ∃ arr', vat (graveyard A') a = Some arr' ∧ nlen arr' = nlen arr) →
  InstanceArray.wf A'.
Proof.
  intros [Hb] Hb' Hs' Hlen. split. rewrite Hb', Hs'.
  destruct (base A) as [b|]; [|done]. destruct Hb as (arr & Harr & Hle).
  destruct (Hlen _ _ Harr) as (arr' & ? & Hl). exists arr'. by rewrite Hl.
Qed.

Lemma frozen_loads S i : wf S → i < frozenSize_ S →
  frozenBase_ S ≠ None ∧ load (instances_ S) (frozenBase_ S) i = Some (value S i).
Proof.
  intros Hwf Hi. rewrite <-(wf_mirror _ Hwf) by done.
  pose proof (wf_frozen _ Hwf) as Hf. destruct (frozenBase_ S) as [f|]; [|lia].
  split; [done|]. destruct Hf as (farr & Hfarr & Hlen). apply load_slot.
  unfold load; simpl. rewrite Hfarr; simpl. apply vat_is_Some. by rewrite Hlen.
Qed.

Lemma store_spec d p S : wf S → d < InstanceArray.size (instances_ S) →
  value S d = nullptr → p ≠ nullptr →
  ∃ S', store d p S = Some S' ∧ wf S' ∧
    insertionOrder_ S' = insertionOrder_ S ++ [d] ∧ frozenSize_ S' = frozenSize_ S ∧
    InstanceArray.size (instances_ S') = InstanceArray.size (instances_ S) ∧
    ∀ i, value S' i = if decide (i = d) then p else value S i.
Proof.
  intros Hwf Hd Hnull Hp. set (A := instances_ S) in *.
  pose proof (load_base A d (wf_arrays _ Hwf) Hd) as Hl.
  unfold store. fold A. rewrite (load_slot _ _ _ Hl).
  change (slot A (base A) d) with (value S d). rewrite Hnull.
  destruct (write_spec _ _ p _ Hl) as (A1 & -> & Hb1 & Hs1 & _ & _ & Hlen1 & Hload1).
  pose proof (λ a' j, slot_write A A1 _ _ _ a' j Hload1) as Hslot1.
  pose proof (write_wf A A1 (wf_arrays _ Hwf) Hb1 Hs1 Hlen1) as HwfA1.
  destruct (_ && _ && _) eqn:Hc.
  - apply andb_true_iff in Hc as [[Hlt _]%andb_true_iff Hne2].
    apply N.ltb_lt in Hlt. apply bool_decide_eq_true in Hne2.
    destruct (frozen_loads S d Hwf Hlt) as [_ Hf]. rewrite Hnull in Hf.
    assert (load A1 (frozenBase_ S) d = Some nullptr) as Hf1.
    { by rewrite Hload1, decide_False by naive_solver. }
    rewrite Hf1. destruct (write_spec (frozenBase_ S) d p A1)
      as (A2 & -> & Hb2 & Hs2 & _ & _ & Hlen2 & Hload2); [by rewrite Hf1|].
    pose proof (λ a' j, slot_write A1 A2 _ _ _ a' j Hload2) as Hslot2.
    eexists; split; [done|].
    apply (store_finish d p S A2); [done..|by etrans|by etrans| | | |].
    + by apply (write_wf A1).
    + intros a arr (arr1 & H1 & Hl1)%Hlen1.
      destruct (Hlen2 _ _ H1) as (arr2 & ? & ?). exists arr2. split; congruence.
    + intros j. rewrite Hslot2, Hslot1, (decide_False (P := _ ∧ _)) by naive_solver.
      destruct (decide (j = d)) as [->|]; [by rewrite decide_True|].
      by rewrite decide_False by naive_solver.
    + intros j Hj. rewrite !Hslot2, !Hslot1.
      rewrite (decide_False (P := base _ = frozenBase_ S ∧ _)) by naive_solver.
      destruct (decide (j = d)) as [->|Hjd]; [by rewrite !decide_True|].
      rewrite !decide_False by naive_solver. by apply (wf_mirror _ Hwf).
  - eexists; split; [done|]. apply (store_finish d p S A1); [done..| |].
    + intros j. rewrite Hslot1. destruct (decide (j = d)) as [->|Hjd].
      * by rewrite decide_True.
      * by rewrite decide_False by naive_solver.
    + intros j Hj. rewrite !Hslot1. fold A.
      destruct (decide (frozenBase_ S = base A)) as [E|E]; [by rewrite E|].
      destruct (decide (j = d)) as [->|Hjd].
      * exfalso. destruct (frozen_loads S d Hwf Hj) as [Hne _].
        rewrite (proj2 (N.ltb_lt _ _) Hj), !bool_decide_true in Hc by done. done.
      * rewrite !decide_False by naive_solver. by apply (wf_mirror _ Hwf).
Qed.

Lemma slot_publish_size n A a i : slot (publish_size n A) a i = slot A a i.
Proof. done. Qed.

(** Growth changes no value and keeps every array readers may hold. *)
Lemma grow_spec n S : wf S → n ≠ 0 →
  ∃ A, grow n (instances_ S) = Some A ∧ wf (set_instances A S) ∧
    n ≤ InstanceArray.size A ∧
    (∀ a arr, vat (graveyard (instances_ S)) a = Some arr → vat (graveyard A) a = Some arr) ∧
    ∀ i, cur A i = value S i.
Proof.
  intros Hwf Hn. unfold grow. destruct (N.ltb_spec (InstanceArray.size (instances_ S)) n).
  - destruct (grow_base_spec n (instances_ S)) as (A & -> & HA & Hs & Hb & arr & Hg & Hl & Hv);
      [apply Hwf|lia|]. simpl.
    assert (∀ i, cur A i = value S i) as Hcur.
    { intros i. unfold cur, slot, load at 1. rewrite Hb; simpl.
      rewrite Hg, vat_snoc_eq; simpl. rewrite Hv.
      destruct (N.leb_spec (InstanceArray.size (instances_ S)) i); [|done].
      by rewrite wf_pad. }
    assert (∀ a i, a < nlen (graveyard (instances_ S)) →
      slot A (Some a) i = slot (instances_ S) (Some a) i) as Hold.
    { intros a i Ha. unfold slot, load; simpl. by rewrite Hg, vat_app_l. }
    exists (publish_size n A). split_and!; [done| |simpl; lia| |done].
    + split; simpl.
      * split; simpl. rewrite Hb, Hg. rewrite vat_snoc_eq. exists arr. split; [done|lia].
      * intros i Hi. unfold value; simpl. change (cur A i = nullptr). rewrite Hcur.
        apply wf_pad; [done|lia].
      * pose proof (wf_frozen _ Hwf) as Hf. destruct (frozenBase_ S); [|done].
        destruct Hf as (farr & Hfarr & <-). exists farr.
        split; [|done]. rewrite Hg. by apply vat_app_Some.
      * pose proof (wf_frozen_size _ Hwf). lia.
      * intros i Hi. change (slot A (frozenBase_ S) i = cur A i).
        rewrite Hcur, <-(wf_mirror _ Hwf) by done.
        destruct (frozen_loads S i Hwf Hi) as [Hne Hf].
        destruct (frozenBase_ S) as [f|]; [|done]. apply Hold.
        unfold load in Hf; simpl in Hf.
        destruct (vat (graveyard (instances_ S)) f) eqn:E; [|done]. by eapply vat_lt.
      * intros d. rewrite (wf_order _ Hwf). change (value S d ≠ nullptr ↔ cur A d ≠ nullptr).
        by rewrite Hcur.
      * apply Hwf.
    + intros a arr0 Ha. simpl. rewrite Hg. by apply vat_app_Some.
  - exists (instances_ S). split_and!; [done|by destruct S|lia|done|done].
Qed.

Lemma growAndStore_spec d p S : wf S → value S d = nullptr → p ≠ nullptr →
  ∃ S', growAndStore d p S = Some S' ∧ wf S' ∧
    insertionOrder_ S' = insertionOrder_ S ++ [d] ∧ frozenSize_ S' = frozenSize_ S ∧
    ∀ i, value S' i = if decide (i = d) then p else value S i.
Proof.
  intros Hwf Hnull Hp.
  destruct (grow_spec (d + 1) S Hwf) as (A & HA & HwfA & Hsz & _ & Hcur); [lia|].
  destruct (store_spec d p (set_instances A S)) as (S' & HS' & ? & ? & ? & _ & Hv); simpl.
  - done.
  - lia.
  - unfold value; simpl. by rewrite Hcur.
  - done.
  - exists S'. unfold growAndStore. rewrite HA; simpl. split_and!; [done..|].
    intros i. rewrite Hv. unfold value at 1; simpl. by rewrite Hcur.
Qed.

Definition stores (ops : list (DescriptorId * ptr)) (S : t) : option t :=
  foldl (λ acc op, S ← acc; growAndStore op.1 op.2 S) (Some S) ops.

Lemma stores_spec ops : ∀ S, wf S → NoDup ops.*1 →
  (∀ op, op ∈ ops → value S op.1 = nullptr ∧ op.2 ≠ nullptr) →
  ∃ S', stores ops S = Some S' ∧ wf S' ∧
    insertionOrder_ S' = insertionOrder_ S ++ ops.*1 ∧
    ∀ i, value S' i = default (value S i) ((list_to_map ops : gmap N N) !! i).
Proof.
  induction ops as [|[d p] ops IH]; intros S Hwf Hnd Hops.
  { exists S. split_and!; [done..| |done]. by rewrite app_nil_r. }
  rewrite fmap_cons in *. apply NoDup_cons in Hnd as [Hd Hnd]. simpl in Hd.
  destruct (Hops (d, p)) as [Hv Hp]; [by left|]. simpl in *.
  destruct (growAndStore_spec d p S Hwf Hv Hp) as (S1 & HS1 & Hwf1 & Ho1 & _ & Hv1).
  assert (∀ op, op ∈ ops → op.1 ≠ d) as Hne.
  { intros op Hop E. apply Hd. rewrite <-E. by apply list_elem_of_fmap_2. }
  destruct (IH S1 Hwf1 Hnd) as (S' & HS' & Hwf' & Ho' & Hv').
  { intros op Hop. rewrite Hv1, decide_False by by apply Hne. apply Hops. by right. }
  exists S'. split_and!; [|done|by rewrite Ho', Ho1, <-(app_assoc _ _ _)|].
  - unfold stores in *; simpl. by rewrite HS1.
  - intros i. rewrite Hv', Hv1. case_decide as E; [subst|].
    + rewrite lookup_insert_eq. rewrite not_elem_of_list_to_map_1; [done|done].
    + by rewrite lookup_insert_ne by congruence.
Qed.

(** Refinement of the singleton store to an insertion-ordered map: after
    [resize] at [start()], any sequence of [growAndStore] calls for distinct
    descriptors, in or beyond the frozen range, succeeds; [find] then answers the
    stored object for each descriptor and null for the others on both the frozen
    and the grown path, the insertion order is the call order, and [releaseAll]
    empties the store. *)
Theorem singleton_store_refines_map (n : N) (ops : list (DescriptorId * ptr)) :
  NoDup ops.*1 → Forall (λ op, op.2 ≠ nullptr) ops →
  ∃ S, stores ops (resize n empty) = Some S ∧
    insertionOrder S = ops.*1 ∧
    (∀ d, find S d = Some (default nullptr ((list_to_map ops : gmap N N) !! d))) ∧
    (∀ d, find (releaseAll S) d = Some nullptr).
Proof.
  intros Hnd Hp. rewrite Forall_forall in Hp.
  assert (wf (resize n empty)) as Hwf by by apply singleton_resize_wf.
  destruct (stores_spec ops (resize n empty)) as (S & HS & HwfS & Ho & Hv); [done..| |].
  { intros op Hop. split; [apply resize_value|by apply Hp]. }
  exists S. split_and!; [done|done| |].
  - intros d. rewrite find_value by done. by rewrite Hv, resize_value.
  - intros d. rewrite find_value by apply singleton_wf_empty. done.
Qed.

(** ** Lock-free readers against a growing writer

    The writer's operations as the sequence of its atomic publications; a
    reader's [find] loads the size, the base and the slot at three different
    times.  The acquire/release pairs of the code make each load see a state of
    this sequence. *)

Inductive wstep (S : t) : t → Prop :=
| w_base n A : InstanceArray.size (instances_ S) ≤ n →
    grow_base n (instances_ S) = Some A → wstep S (set_instances A S)
| w_size n b arr : base (instances_ S) = Some b →
    vat (graveyard (instances_ S)) b = Some arr →
    InstanceArray.size (instances_ S) ≤ n → n ≤ nlen arr →
    wstep S (set_instances (publish_size n (instances_ S)) S)
| w_order d : wstep S (push_order d S)
| w_slot d p A : d < InstanceArray.size (instances_ S) → value S d = nullptr →
    write (base (instances_ S)) d p (instances_ S) = Some A →
    wstep S (set_instances A S)
| w_mirror d p A : value S d = p →
    write (frozenBase_ S) d p (instances_ S) = Some A →
    wstep S (set_instances A S).

(** A [find] whose three loads happen in the states [S1], [S2] and [S3]; the
    frozen fields are fixed before the readers start. *)
Definition find_racy (S1 S2 S3 : t) (descId : DescriptorId) : option ptr :=
  if descId <? frozenSize_ S1 then
    match frozenBase_ S1 with
    | None => Some nullptr
    | Some f => load (instances_ S3) (Some f) descId
    end
  else if InstanceArray.size (instances_ S1) <=? descId then Some nullptr
  else match base (instances_ S2) with
       | None => Some nullptr
       | Some b => load (instances_ S3) (Some b) descId
       end.

(** What holds between any two micro-steps of the writer. *)
Record cinv (S : t) : Prop := {
  ci_arrays : InstanceArray.wf (instances_ S);
  ci_pad : ∀ i, InstanceArray.size (instances_ S) ≤ i → value S i = nullptr;
  ci_agree : ∀ a i, slot (instances_ S) a i ≠ nullptr →
    value S i = slot (instances_ S) a i;
  ci_frozen : match frozenBase_ S with
              | None => frozenSize_ S = 0
              | Some f => ∃ farr, vat (graveyard (instances_ S)) f = Some farr ∧
                            nlen farr = frozenSize_ S
              end
}.

(** What a later state keeps of an earlier one. *)
Record later (S S' : t) : Prop := {
  lt_arrays : ∀ a arr, vat (graveyard (instances_ S)) a = Some arr →
    ∃ arr', vat (graveyard (instances_ S')) a = Some arr' ∧ nlen arr' = nlen arr;
  lt_size : InstanceArray.size (instances_ S) ≤ InstanceArray.size (instances_ S');
  lt_value : ∀ i, value S i ≠ nullptr → value S' i = value S i;
  lt_slot : ∀ a i, slot (instances_ S) a i ≠ nullptr →
    slot (instances_ S') a i = slot (instances_ S) a i;
  lt_frozen : frozenBase_ S' = frozenBase_ S ∧ frozenSize_ S' = frozenSize_ S
}.

#[export] Instance later_preorder : PreOrder later.
Proof.
  split.
  - intros S. split; try done. intros a arr H. by exists arr.
  - intros S1 S2 S3 [A1 B1 C1 D1 [E1 F1]] [A2 B2 C2 D2 [E2 F2]]. split.
    + intros a arr (arr1 & H1 & L1)%A1. destruct (A2 _ _ H1) as (arr2 & ? & ?).
      exists arr2. split; congruence.
    + lia.
    + intros i Hi. rewrite C2; [by apply C1|]. by rewrite C1.
    + intros a i Hi. rewrite D2; [by apply D1|]. by rewrite D1.
    + split; congruence.
Qed.

Lemma wf_resize_cinv n : cinv (resize n empty).
Proof.
  assert (wf (resize n empty)) as Hwf by by apply singleton_resize_wf.
  split; [apply Hwf|apply Hwf| |apply Hwf].
  intros [[|a]|] i; [|unfold slot, load; simpl..].
  - intros _. done.
  - rewrite (proj2 (vat_None _ _)) by (unfold nlen; simpl; lia). done.
  - done.
Qed.

Lemma frozen_kept S S' :
  frozenBase_ S' = frozenBase_ S → frozenSize_ S' = frozenSize_ S →
  (∀ a arr, vat (graveyard (instances_ S)) a = Some arr →
    ∃ arr', vat (graveyard (instances_ S')) a = Some arr' ∧ nlen arr' = nlen arr) →
  cinv S →
  match frozenBase_ S' with
  | None => frozenSize_ S' = 0
  | Some f => ∃ farr, vat (graveyard (instances_ S')) f = Some farr ∧
                nlen farr = frozenSize_ S'
  end.
Proof.
  intros -> -> Hl Hci. pose proof (ci_frozen _ Hci) as Hf.
  destruct (frozenBase_ S); [|done]. destruct Hf as (farr & H & <-). by apply Hl.
Qed.

(** Steps that write one slot, to the value the descriptor has afterwards. *)
Lemma write_step a d p S A : cinv S → write a d p (instances_ S) = Some A →
  (value S d = nullptr ∧ a = base (instances_ S) ∧ d < InstanceArray.size (instances_ S))
    ∨ value S d = p →
  cinv (set_instances A S) ∧ later S (set_instances A S).
Proof.
  intros Hci Hw Hcase.
  assert (is_Some (load (instances_ S) a d)) as Hl.
  { unfold write in Hw. unfold load. destruct a as [a|]; [simpl|done].
    destruct (vat (graveyard (instances_ S)) a) as [arr|]; simpl in *; [|done].
    apply vat_is_Some. destruct (N.ltb_spec d (nlen arr)); done. }
  destruct (write_spec a d p _ Hl) as (A' & Hw' & Hb & Hs & _ & _ & Hlen & Hload).
  rewrite Hw in Hw'. simplify_eq.
  pose proof (λ a' j, slot_write _ A' _ _ _ a' j Hload) as Hslot.
  assert (∀ j, value (set_instances A' S) j =
    if decide (base (instances_ S) = a ∧ j = d) then p else value S j) as Hv.
  { intros j. unfold value, cur; simpl. by rewrite Hb, Hslot. }
  pose proof (ci_agree _ Hci) as Hag. split; split; simpl.
  - by apply (write_wf (instances_ S)); [apply Hci|..].
  - intros i Hi. rewrite Hv. rewrite Hs in Hi.
    destruct (decide (base (instances_ S) = a ∧ i = d)) as [[<- ->]|E]; [|by apply Hci].
    destruct Hcase as [(_ & _ & ?)|Hp]; [lia|].
    rewrite <-Hp. by apply Hci.
  - intros a' i. rewrite Hslot, Hv. destruct (decide (a' = a ∧ i = d)) as [[-> ->]|E1].
    + intros Hp. destruct (decide (base (instances_ S) = a ∧ d = d)) as [E2|E2]; [done|].
      destruct Hcase as [(_ & -> & _)|Hp']; [naive_solver|done].
    + intros Hn. specialize (Hag _ _ Hn).
      destruct (decide (base (instances_ S) = a ∧ i = d)) as [[<- ->]|E2]; [|done].
      destruct Hcase as [(Hz & _)|Hp]; congruence.
  - by apply (frozen_kept S (set_instances A' S)).
  - done.
  - by rewrite Hs.
  - intros i Hi. rewrite Hv.
    destruct (decide (base (instances_ S) = a ∧ i = d)) as [[_ ->]|E]; [|done].
    by destruct Hcase as [(? & _)|?].
  - intros a' i Hi. rewrite Hslot.
    destruct (decide (a' = a ∧ i = d)) as [[-> ->]|E]; [|done].
    specialize (Hag _ _ Hi). destruct Hcase as [(? & _)|?]; congruence.
  - done.
Qed.

Lemma base_step n S A : cinv S → InstanceArray.size (instances_ S) ≤ n →
  grow_base n (instances_ S) = Some A →
  cinv (set_instances A S) ∧ later S (set_instances A S).
Proof.
  intros Hci Hn Hg.
  destruct (grow_base_spec n (instances_ S)) as (A' & HA' & HwfA & Hs & Hb & arr & Hgr & Hl & Hv);
    [apply Hci|done|]. rewrite Hg in HA'. simplify_eq.
  assert (∀ i, value (set_instances A' S) i = value S i) as Hval.
  { intros i. unfold value at 1, cur, slot, load; simpl. rewrite Hb; simpl.
    rewrite Hgr, vat_snoc_eq; simpl. rewrite Hv.
    destruct (N.leb_spec (InstanceArray.size (instances_ S)) i); [|done].
    symmetry; by apply Hci. }
  assert (∀ a arr, vat (graveyard (instances_ S)) a = Some arr →
    ∃ arr', vat (graveyard A') a = Some arr' ∧ nlen arr' = nlen arr) as Hkeep.
  { intros a arr0 Ha. exists arr0. rewrite Hgr. split; [by apply vat_app_Some|done]. }
  assert (∀ a i, slot A' a i ≠ nullptr → a = Some (nlen (graveyard (instances_ S))) ∧
     slot A' a i = value S i ∨ slot A' a i = slot (instances_ S) a i) as Hsl.
  { intros [a|] i; [|by right]. unfold slot, load; simpl. rewrite Hgr.
    destruct (decide (a < nlen (graveyard (instances_ S)))) as [Ha|Ha].
    - right. by rewrite vat_app_l.
    - destruct (decide (a = nlen (graveyard (instances_ S)))) as [->|Ha'].
      + rewrite vat_snoc_eq; simpl. rewrite Hv. case_match; [done|]. by left.
      + rewrite (proj2 (vat_None _ a)); [done|]. rewrite nlen_snoc. lia. }
  split; split; simpl.
  - done.
  - intros i. rewrite Hs, Hval. apply Hci.
  - intros a i Hi. rewrite Hval.
    destruct (Hsl a i Hi) as [[_ ->]|E]; [done|]. rewrite E in Hi |- *. by apply Hci.
  - by apply (frozen_kept S (set_instances A' S)).
  - done.
  - by rewrite Hs.
  - intros i _. apply Hval.
  - intros [a|] i; [|done]. unfold slot, load; simpl. intros Hi.
    destruct (decide (a < nlen (graveyard (instances_ S)))) as [Ha|Ha].
    + by rewrite Hgr, vat_app_l.
    + by rewrite (proj2 (vat_None (graveyard (instances_ S)) a)) in Hi by lia.
  - done.
Qed.

Lemma wstep_ok S S' : cinv S → wstep S S' → cinv S' ∧ later S S'.
Proof.
  intros Hci. destruct 1 as [n A Hn Hg|n b arr Hb Harr Hn Hle|d|d p A Hd Hv Hw|d p A Hv Hw].
  - by eapply base_step.
  - split; split; simpl; try done; try apply Hci.
    + split; simpl. rewrite Hb. eauto.
    + intros i Hi. change (value S i = nullptr). apply Hci. lia.
    + intros a arr' H. by exists arr'.
  - split; [split; apply Hci|]. split; try done. intros a arr H. by exists arr.
  - eapply write_step; [done|exact Hw|]. by left.
  - eapply write_step; [done|exact Hw|]. by right.
Qed.

Lemma wsteps_ok S S' : cinv S → rtc wstep S S' → cinv S' ∧ later S S'.
Proof.
  intros Hci H. induction H as [S|S S1 S' Hst _ IH]; [split; [done|reflexivity]|].
  destruct (wstep_ok _ _ Hci Hst) as [Hci1 Hl]. destruct (IH Hci1) as [? ?].
  split; [done|]. by transitivity S1.
Qed.

(** The writer's operation is a sequence of these steps. *)
Lemma growAndStore_steps d p S S' : wf S → value S d = nullptr →
  growAndStore d p S = Some S' → rtc wstep S S'.
Proof.
  intros Hwf Hnull. unfold growAndStore.
  destruct (grow_spec (d + 1) S Hwf) as (A & HA & HwfA & Hsz & _ & Hcur); [lia|].
  rewrite HA; simpl. intros Hst.
  transitivity (set_instances A S).
  { clear Hst. unfold grow in HA.
    destruct (N.ltb_spec (InstanceArray.size (instances_ S)) (d + 1)).
    - destruct (grow_base_spec (d + 1) (instances_ S)) as (A0 & HA0 & _ & Hs & Hb & arr & Hg & Hl & _);
        [apply Hwf|lia|]. rewrite HA0 in HA. simplify_eq/=.
      eapply rtc_l; [apply (w_base _ (d + 1)); [lia|done]|]. apply rtc_once.
      apply (w_size (set_instances A0 S) (d + 1) _ arr Hb); simpl; [|lia|lia].
      rewrite Hg. apply vat_snoc_eq.
    - simplify_eq. by destruct S. }
  unfold store in Hst; simpl in Hst.
  destruct (load A (base A) d) as [[|]|] eqn:El; try done.
  destruct (write (base A) d p A) as [A1|] eqn:E1; [|done].
  assert (rtc wstep (set_instances A S) (set_instances A1 (push_order d S))) as H1.
  { eapply rtc_l; [apply (w_order _ d)|]. apply rtc_once.
    apply (w_slot (push_order d (set_instances A S)) d p); simpl; [lia| |done].
    unfold value; simpl. by rewrite Hcur. }
  destruct (_ && _ && _); [|by simplify_eq].
  destruct (load A1 (frozenBase_ S) d) as [[|]|]; try done.
  destruct (write (frozenBase_ S) d p A1) as [A2|] eqn:E2; [|done]. simplify_eq.
  etrans; [exact H1|]. apply rtc_once.
  apply (w_mirror (set_instances A1 (push_order d S)) d p); [|done].
  destruct (write_spec (base A) d p A) as (A1' & HA1' & Hb1 & _ & _ & _ & _ & Hload); [by rewrite El|].
  rewrite E1 in HA1'. simplify_eq. unfold value, cur, slot; simpl.
  by rewrite Hb1, Hload, decide_True.
Qed.

(** C35 Lock-free reads against a growing writer: let the writer run any of its
    publication steps (new base, new size, slot, frozen mirror) between the three
    loads of a [find].  The read never leaves an array, returns null or the
    object the store holds for the descriptor, and returns every object that was
    already visible when the [find] began. *)
Theorem find_racy_linearizable (n : N) (S1 S2 S3 : t) (d : DescriptorId) :
  rtc wstep (resize n empty) S1 → rtc wstep S1 S2 → rtc wstep S2 S3 →
  ∃ v, find_racy S1 S2 S3 d = Some v ∧
    (v ≠ nullptr → v = value S3 d) ∧
    (∀ p, find S1 d = Some p → p ≠ nullptr → v = p).
Proof.
  intros H1 H2 H3.
  destruct (wsteps_ok _ _ (wf_resize_cinv n) H1) as [C1 _].
  destruct (wsteps_ok _ _ C1 H2) as [C2 L12]. destruct (wsteps_ok _ _ C2 H3) as [C3 L23].
  pose proof (transitivity L12 L23) as L13.
  unfold find_racy, find, InstanceArray.find.
  destruct (N.ltb_spec d (frozenSize_ S1)) as [Hd|Hd].
  - pose proof (ci_frozen _ C1) as Hf.
    destruct (frozenBase_ S1) as [f|]; [|lia]. destruct Hf as (farr & Hfarr & Hlf).
    destruct (lt_arrays _ _ L13 _ _ Hfarr) as (farr3 & Hfarr3 & Hl3).
    assert (load (instances_ S3) (Some f) d = Some (slot (instances_ S3) (Some f) d)) as ->.
    { apply load_slot. unfold load; simpl. rewrite Hfarr3; simpl. apply vat_is_Some. lia. }
    eexists; split_and!; [done| |].
    + intros Hv. symmetry. by apply C3.
    + intros p Hp Hne. rewrite (lt_slot _ _ L13); unfold slot; rewrite Hp; done.
  - destruct (N.leb_spec (InstanceArray.size (instances_ S1)) d) as [Hs|Hs].
    { exists nullptr. split_and!; [done|done|]. intros; by simplify_eq. }
    pose proof (lt_size _ _ L12) as Hs2. pose proof (wf_base _ (ci_arrays _ C2)) as Hb2.
    destruct (base (instances_ S2)) as [b2|] eqn:Eb2; [|lia].
    destruct Hb2 as (arr2 & Harr2 & Hl2).
    destruct (lt_arrays _ _ L23 _ _ Harr2) as (arr3 & Harr3 & Hl3).
    assert (load (instances_ S3) (Some b2) d = Some (slot (instances_ S3) (Some b2) d)) as ->.
    { apply load_slot. unfold load; simpl. rewrite Harr3; simpl. apply vat_is_Some. lia. }
    eexists; split_and!; [done| |].
    + intros Hv. symmetry. by apply C3.
    + intros p Hp Hne.
      assert (value S1 d = p) as Hv1.
      { unfold value, cur, slot. destruct (base (instances_ S1)); [by rewrite Hp|].
        by simplify_eq. }
      assert (slot (instances_ S2) (Some b2) d = p) as Hs2'.
      { rewrite <-Hv1, <-(lt_value _ _ L12) by congruence. unfold value, cur. by rewrite Eb2. }
      rewrite (lt_slot _ _ L23), Hs2'; [done|congruence].
Qed.

(** A reader that loads the size, then meets a growth before it loads the base,
    and a store before it loads the slot. *)
Lemma find_racy_linearizable_witness :
  ∃ S1 S2 S3,
    growAndStore 3 100 (resize 2 empty) = Some S1 ∧
    growAndStore 5 101 S1 = Some S2 ∧ growAndStore 4 102 S2 = Some S3 ∧
    ∃ v, find_racy S1 S2 S3 3 = Some v ∧
      (v ≠ nullptr → v = value S3 3) ∧
      (∀ p, find S1 3 = Some p → p ≠ nullptr → v = p).
Proof.
  assert (wf (resize 2 empty)) as Hwf by by apply singleton_resize_wf.
  destruct (growAndStore_spec 3 100 (resize 2 empty)) as (S1 & HS1 & Hwf1 & _ & _ & Hv1);
    [done|apply resize_value|done|].
  destruct (growAndStore_spec 5 101 S1) as (S2 & HS2 & Hwf2 & _ & _ & Hv2);
    [done|by rewrite Hv1, resize_value|done|].
  destruct (growAndStore_spec 4 102 S2) as (S3 & HS3 & Hwf3 & _ & _ & Hv3);
    [done|by rewrite Hv2, Hv1, resize_value|done|].
  exists S1, S2, S3. split; [done|]. split; [done|]. split; [done|].
  apply (find_racy_linearizable 2).
  - by eapply growAndStore_steps; [|apply resize_value|].
  - eapply growAndStore_steps; [done| |done]. by rewrite Hv1, resize_value.
  - eapply growAndStore_steps; [done| |done]. by rewrite Hv2, Hv1, resize_value.
Defined.

End SingletonStore.

(** * [SessionStore] *)

Module SessionStore.
Import InstanceArray.

Abbreviation SessionSlot := N (only parsing).

Record RetiredSessionBlock : Type := {
  descId : DescriptorId;
  memory : ptr;
  dealloc : option N;
  bsize : N;
  balign : N
}.

(** The memory effects of the store: a call of a descriptor's [dealloc] thunk or
    of the sized, aligned [operator delete]. *)
Inductive mem_event : Type :=
| CallDealloc (fn : N) (mem : ptr)
| OperatorDelete (mem : ptr) (sz al : N).

Record t : Type := {
  instances_ : InstanceArray.t;
  insertionOrder_ : list DescriptorId;
  retiredBlocks_ : list RetiredSessionBlock;
  freed : list mem_event
}.

Definition empty : t :=
  {| instances_ := InstanceArray.empty; insertionOrder_ := []; retiredBlocks_ := [];
     freed := [] |}.

Definition releaseRetiredBlock_ (b : RetiredSessionBlock) : list mem_event :=
  match dealloc b with
  | Some fn => [CallDealloc fn (memory b)]
  | None => if bsize b =? 0 then [] else [OperatorDelete (memory b) (bsize b) (balign b)]
  end.

(** [v[i] = v.back(); v.pop_back();] *)
Definition swap_pop {A} (i : nat) (l : list A) : list A :=
  match last l with
  | Some x => removelast (<[i := x]> l)
  | None => l
  end.

(** The loop of [releaseRetired]; each turn shortens the list or advances [i], so
    [length] turns are enough. *)
Fixpoint release_loop (fuel : nat) (i : nat) (d : DescriptorId)
    (blocks : list RetiredSessionBlock) (log : list mem_event)
    : list RetiredSessionBlock * list mem_event :=
  match fuel, blocks !! i with
  | S fuel', Some b =>
      if descId b =? d
      then release_loop fuel' i d (swap_pop i blocks) (log ++ releaseRetiredBlock_ b)
      else release_loop fuel' (S i) d blocks log
  | _, _ => (blocks, log)
  end.

Definition releaseRetired (d : DescriptorId) (S : t) : t :=
  let '(blocks, log) :=
    release_loop (length (retiredBlocks_ S)) 0 d (retiredBlocks_ S) (freed S) in
  {| instances_ := instances_ S; insertionOrder_ := insertionOrder_ S;
     retiredBlocks_ := blocks; freed := log |}.

Definition releaseRetiredBlocks_ (S : t) : t :=
  {| instances_ := instances_ S; insertionOrder_ := insertionOrder_ S;
     retiredBlocks_ := [];
     freed := freed S ++ (retiredBlocks_ S ≫= releaseRetiredBlock_) |}.

(** The [push_back] that does not throw; its [catch] arm releases at once. *)
Definition retireDeallocation (b : RetiredSessionBlock) (S : t) : t :=
  {| instances_ := instances_ S; insertionOrder_ := insertionOrder_ S;
     retiredBlocks_ := retiredBlocks_ S ++ [b]; freed := freed S |}.

Definition set_instances (A : InstanceArray.t) (S : t) : t :=
  {| instances_ := A; insertionOrder_ := insertionOrder_ S;
     retiredBlocks_ := retiredBlocks_ S; freed := freed S |}.

Definition push_order (d : DescriptorId) (S : t) : t :=
  {| instances_ := instances_ S; insertionOrder_ := insertionOrder_ S ++ [d];
     retiredBlocks_ := retiredBlocks_ S; freed := freed S |}.

Definition resize (sessionSlotCount : N) (S : t) : t :=
  set_instances (InstanceArray.resize sessionSlotCount (instances_ S)) S.

Definition store (slt : SessionSlot) (d : DescriptorId) (mem : ptr) (S : t) : option t :=
  let S1 := push_order d S in
  A ← write (base (instances_ S1)) slt mem (instances_ S1);
  Some (releaseRetired d (set_instances A S1)).

Definition growAndStore (slt : SessionSlot) (d : DescriptorId) (mem : ptr) (S : t)
    : option t :=
  A ← grow (slt + 1) (instances_ S); store slt d mem (set_instances A S).

Definition find (S : t) (slt : SessionSlot) : option ptr :=
  InstanceArray.find (instances_ S) slt.

Definition nullSlot (slt : SessionSlot) (S : t) : option t :=
  A ← write (base (instances_ S)) slt nullptr (instances_ S); Some (set_instances A S).

Definition insertionOrder (S : t) : list DescriptorId := insertionOrder_ S.

Definition releaseAll (releaseRetiredBlocks : bool) (S : t) : t :=
  let S1 := if releaseRetiredBlocks then releaseRetiredBlocks_ S else S in
  {| instances_ := InstanceArray.empty; insertionOrder_ := [];
     retiredBlocks_ := retiredBlocks_ S1; freed := freed S1 |}.

Definition initialized (S : t) : bool := 0 <? InstanceArray.size (instances_ S).

(** ** The retired blocks *)

Lemma swap_pop_spec {A} (l1 l2 : list A) (b : A) :
  ∃ l2', swap_pop (length l1) (l1 ++ b :: l2) = l1 ++ l2' ∧ l2' ≡ₚ l2.
Proof.
  unfold swap_pop. destruct l2 as [|x l2 _] using rev_ind.
  - rewrite last_snoc, insert_app_r_alt, Nat.sub_diag by lia. simpl.
    rewrite removelast_app by done. simpl. rewrite app_nil_r. exists [].
    by rewrite app_nil_r.
  - rewrite app_comm_cons, app_assoc, last_snoc, <-app_assoc.
    rewrite insert_app_r_alt, Nat.sub_diag by lia. simpl.
    rewrite removelast_app by done.
    change (x :: l2 ++ [x]) with ((x :: l2) ++ [x]).
    rewrite removelast_last. exists (x :: l2). split; [done|].
    by rewrite Permutation_app_comm.
Qed.

Definition is_desc (d : DescriptorId) (b : RetiredSessionBlock) : Prop := descId b = d.

#[local] Instance is_desc_dec d b : Decision (is_desc d b).
Proof. unfold is_desc; apply _. Defined.

Lemma release_loop_spec fuel d : ∀ l1 l2 log, (length l2 ≤ fuel)%nat →
  Forall (λ b, ¬ is_desc d b) l1 →
  ∃ blocks gone,
    release_loop fuel (length l1) d (l1 ++ l2) log =
      (blocks, log ++ (gone ≫= releaseRetiredBlock_)) ∧
    blocks ≡ₚ l1 ++ filter (λ b, ¬ is_desc d b) l2 ∧ gone ≡ₚ filter (is_desc d) l2.
Proof.
  induction fuel as [|fuel IH]; intros l1 l2 log Hlen Hl1.
  { destruct l2; [|simpl in Hlen; lia]. exists l1, []. simpl. by rewrite !app_nil_r. }
  destruct l2 as [|b l2].
  { exists l1, []. cbn [release_loop]. rewrite app_nil_r.
    rewrite lookup_ge_None_2 by lia. by rewrite !app_nil_r. }
  cbn [release_loop]. rewrite list_lookup_middle by done. simpl in Hlen.
  destruct (N.eqb_spec (descId b) d) as [Hd|Hd].
  - destruct (swap_pop_spec l1 l2 b) as (l2' & -> & Hp).
    destruct (IH l1 l2' (log ++ releaseRetiredBlock_ b)) as (blocks & gone & He & Hb & Hg).
    { rewrite Hp. lia. } { done. }
    exists blocks, (b :: gone). rewrite He. split_and!.
    + by rewrite bind_cons, (assoc_L (++)).
    + rewrite Hb, Hp, filter_cons_False; [done|]. unfold is_desc. naive_solver.
    + by rewrite Hg, Hp, filter_cons_True.
  - destruct (IH (l1 ++ [b]) l2 log) as (blocks & gone & He & Hb & Hg); [lia| |].
    { apply Forall_app; split; [done|]. by repeat constructor. }
    rewrite length_app, <-(assoc_L (++)) in He. simpl in He.
    rewrite Nat.add_1_r in He. exists blocks, gone. rewrite He. split_and!; [done| |].
    + rewrite Hb, filter_cons_True by done. by rewrite <-(assoc_L (++)).
    + by rewrite Hg, filter_cons_False.
Qed.

Lemma releaseRetired_spec d S :
  let S' := releaseRetired d S in
  instances_ S' = instances_ S ∧ insertionOrder_ S' = insertionOrder_ S ∧
  retiredBlocks_ S' ≡ₚ filter (λ b, ¬ is_desc d b) (retiredBlocks_ S) ∧
  ∃ gone, gone ≡ₚ filter (is_desc d) (retiredBlocks_ S) ∧
    freed S' = freed S ++ (gone ≫= releaseRetiredBlock_).
Proof.
  unfold releaseRetired.
  destruct (release_loop_spec (length (retiredBlocks_ S)) d [] (retiredBlocks_ S) (freed S))
    as (blocks & gone & He & Hb & Hg); [lia|constructor|].
  simpl in He. rewrite He. simpl. split_and!; [done|done|done|by exists gone].
Qed.

(** Events still to come and events done. *)
Definition account (S : t) : list mem_event :=
  freed S ++ (retiredBlocks_ S ≫= releaseRetiredBlock_).

Lemma releaseRetired_account d S : account (releaseRetired d S) ≡ₚ account S.
Proof.
  destruct (releaseRetired_spec d S) as (_ & _ & Hb & gone & Hg & Hf).
  unfold account. rewrite Hf, Hb, Hg, <-(assoc_L (++)). f_equiv.
  rewrite <-bind_app. f_equiv. apply filter_app_complement.
Qed.

(** ** The slots *)

Record wf (S : t) : Prop := {
  wf_arrays : InstanceArray.wf (instances_ S);
  wf_pad : ∀ i, InstanceArray.size (instances_ S) ≤ i → cur (instances_ S) i = nullptr
}.

Lemma find_spec S i : wf S → find S i = Some (cur (instances_ S) i).
Proof.
  intros [Ha Hp]. unfold find. rewrite find_cur by done.
  destruct (N.leb_spec (InstanceArray.size (instances_ S)) i); [by rewrite Hp|done].
Qed.

Lemma session_wf_empty : wf empty.
Proof. split; [apply InstanceArray.array_wf_empty|done]. Qed.

Lemma session_resize_wf n S : wf (resize n S).
Proof.
  destruct (resize_spec n (instances_ S)) as (H1 & H2 & H3 & H4).
  split; simpl; [done|]. intros; apply H4.
Qed.

Lemma write_cur S i p : wf S → i < InstanceArray.size (instances_ S) →
  ∃ A, write (base (instances_ S)) i p (instances_ S) = Some A ∧
    wf (set_instances A S) ∧
    InstanceArray.size A = InstanceArray.size (instances_ S) ∧
    ∀ j, cur A j = if decide (j = i) then p else cur (instances_ S) j.
Proof.
  intros [Ha Hp] Hi. pose proof (SingletonStore.load_base _ _ Ha Hi) as Hl.
  destruct (write_spec _ _ p _ Hl) as (A & HA & Hb & Hs & _ & _ & Hlen & Hload).
  assert (∀ j, cur A j = if decide (j = i) then p else cur (instances_ S) j) as Hc.
  { intros j. unfold cur. rewrite Hb, (SingletonStore.slot_write _ _ _ _ _ _ _ Hload).
    destruct (decide (j = i)) as [->|]; [by rewrite decide_True|].
    by rewrite decide_False by naive_solver. }
  exists A. split_and!; [done| |done|done]. split; simpl.
  - by apply (SingletonStore.write_wf (instances_ S)).
  - intros j Hj. rewrite Hc. rewrite Hs in Hj. rewrite decide_False by lia. by apply Hp.
Qed.

Lemma grow_cur S n : wf S → n ≠ 0 →
  ∃ A, grow n (instances_ S) = Some A ∧ wf (set_instances A S) ∧
    n ≤ InstanceArray.size A ∧ ∀ j, cur A j = cur (instances_ S) j.
Proof.
  intros [Ha Hp] Hn. unfold grow.
  destruct (N.ltb_spec (InstanceArray.size (instances_ S)) n) as [Hlt|Hge].
  - destruct (grow_base_spec n (instances_ S) Ha) as (A & -> & HA & Hs & Hb & arr & Hg & Hl & Hv);
      [lia|]. simpl.
    assert (∀ j, cur A j = cur (instances_ S) j) as Hc.
    { intros j. unfold cur at 1, slot, load. rewrite Hb; simpl.
      rewrite Hg, vat_snoc_eq; simpl. rewrite Hv.
      destruct (N.leb_spec (InstanceArray.size (instances_ S)) j); [by rewrite Hp|done]. }
    eexists; split_and!; [done| |simpl; lia|done]. split; simpl.
    + split; simpl. rewrite Hb, Hg, vat_snoc_eq. exists arr. split; [done|lia].
    + intros j Hj. change (cur A j = nullptr). rewrite Hc. apply Hp. lia.
  - exists (instances_ S). split_and!; [done|by destruct S|lia|done].
Qed.

(** One store, slot by slot. *)
Lemma store_slot slt d p S : wf S → slt < InstanceArray.size (instances_ S) →
  ∃ S', store slt d p S = Some S' ∧ wf S' ∧
    InstanceArray.size (instances_ S') = InstanceArray.size (instances_ S) ∧
    ∀ j, cur (instances_ S') j = if decide (j = slt) then p else cur (instances_ S) j.
Proof.
  intros Hwf Hs. destruct (write_cur S slt p Hwf Hs) as (A & HA & HwfA & HsA & HcA).
  set (S1 := set_instances A (push_order d S)).
  destruct (releaseRetired_spec d S1) as (Hi & _). exists (releaseRetired d S1). split_and!.
  - unfold store. simpl. by rewrite HA.
  - split; rewrite Hi; apply HwfA.
  - by rewrite Hi.
  - intros j. by rewrite Hi.
Qed.

Lemma store_order slt d p S S' : store slt d p S = Some S' →
  insertionOrder S' = insertionOrder S ++ [d].
Proof.
  unfold store. destruct (write _ _ _ _) as [A|]; [|done]. intros [= <-].
  by destruct (releaseRetired_spec d (set_instances A (push_order d S))) as (_ & Ho & _).
Qed.

Lemma growAndStore_order slt d p S S' : growAndStore slt d p S = Some S' →
  insertionOrder S' = insertionOrder S ++ [d].
Proof. unfold growAndStore. destruct (grow _ _); [|done]. intros H. apply (store_order _ _ _ _ _ H). Qed.

Lemma growAndStore_slot slt d p S : wf S →
  ∃ S', growAndStore slt d p S = Some S' ∧ wf S' ∧
    InstanceArray.size (instances_ S) ≤ InstanceArray.size (instances_ S') ∧
    ∀ j, cur (instances_ S') j = if decide (j = slt) then p else cur (instances_ S) j.
Proof.
  intros Hwf. destruct (grow_cur S (slt + 1) Hwf) as (A & HA & HwfA & Hsz & Hc); [lia|].
  destruct (store_slot slt d p (set_instances A S) HwfA) as (S' & HS' & Hwf' & Hs' & Hc');
    [simpl; lia|].
  exists S'. split_and!; [unfold growAndStore; by rewrite HA|done| |].
  - rewrite Hs'. simpl. unfold grow in HA.
    destruct (N.ltb_spec (InstanceArray.size (instances_ S)) (slt + 1)); [lia|].
    by injection HA as <-.
  - intros j. rewrite Hc'. simpl. by rewrite Hc.
Qed.

(** A session store behaves as a growing map with retired memory: on a
    well-formed store [growAndStore] succeeds for any slot, changes exactly that
    slot, appends the descriptor to the destruction order, releases exactly the
    blocks retired for that descriptor and keeps the others; [nullSlot] then
    clears exactly that slot. *)
Theorem session_store_spec (slt : SessionSlot) (d : DescriptorId) (p : ptr) (S : t) :
  wf S →
  ∃ S', growAndStore slt d p S = Some S' ∧ wf S' ∧
    (∀ j, find S' j = if decide (j = slt) then Some p else find S j) ∧
    insertionOrder S' = insertionOrder S ++ [d] ∧
    retiredBlocks_ S' ≡ₚ filter (λ b, descId b ≠ d) (retiredBlocks_ S) ∧
    freed S' ≡ₚ freed S ++
      (filter (λ b, descId b = d) (retiredBlocks_ S) ≫= releaseRetiredBlock_) ∧
    ∃ S'', nullSlot slt S' = Some S'' ∧ wf S'' ∧
      ∀ j, find S'' j = if decide (j = slt) then Some nullptr else find S' j.
Proof.
  intros Hwf.
  destruct (grow_cur S (slt + 1) Hwf) as (A & HA & HwfA & Hsz & Hc); [lia|].
  destruct (write_cur (set_instances A S) slt p HwfA) as (A' & HA' & HwfA' & Hs' & Hc');
    [simpl; lia|]. simpl in *.
  set (S1 := set_instances A' (push_order d (set_instances A S))).
  destruct (releaseRetired_spec d S1) as (Hi & Ho & Hb & gone & Hg & Hf).
  set (S2 := releaseRetired d S1) in *.
  assert (wf S2) as Hwf2 by (split; rewrite Hi; apply HwfA').
  destruct (write_cur S2 slt nullptr Hwf2) as (A3 & HA3 & HwfA3 & _ & Hc3).
  { rewrite Hi. simpl. lia. }
  exists S2. split_and!.
  - unfold growAndStore, store. rewrite HA; simpl. by rewrite HA'.
  - done.
  - intros j. rewrite !find_spec by done. rewrite Hi. simpl. rewrite Hc', Hc. by case_decide.
  - unfold insertionOrder. by rewrite Ho.
  - by rewrite Hb.
  - by rewrite Hf, Hg.
  - exists (set_instances A3 S2). split_and!; [unfold nullSlot; by rewrite HA3|done|].
    intros j. rewrite !find_spec by done. simpl. rewrite Hc3. by case_decide.
Qed.

Definition sample_block (d : DescriptorId) (m : ptr) : RetiredSessionBlock :=
  {| descId := d; memory := m; dealloc := None; bsize := 16; balign := 8 |}.

(** The operations that touch retired memory. *)
Inductive op : Type :=
| OpRetire (b : RetiredSessionBlock)
| OpStore (slt : SessionSlot) (d : DescriptorId) (p : ptr)
| OpNull (slt : SessionSlot)
| OpResize (n : N)
| OpReleaseAll (releaseRetiredBlocks : bool).

Definition run_op (S : t) (o : op) : option t :=
  match o with
  | OpRetire b => Some (retireDeallocation b S)
  | OpStore slt d p => growAndStore slt d p S
  | OpNull slt => nullSlot slt S
  | OpResize n => Some (resize n S)
  | OpReleaseAll flag => Some (releaseAll flag S)
  end.

Definition run (ops : list op) (S : t) : option t :=
  foldl (λ acc o, S ← acc; run_op S o) (Some S) ops.

Definition retired_by (o : op) : list mem_event :=
  match o with OpRetire b => releaseRetiredBlock_ b | _ => [] end.

Lemma run_op_account S S' o : run_op S o = Some S' →
  account S' ≡ₚ account S ++ retired_by o.
Proof.
  destruct o as [b|slt d p|slt|n|flag]; simpl.
  - intros; simplify_eq. unfold account; simpl. rewrite bind_app, (assoc_L (++)); simpl.
    by rewrite app_nil_r.
  - rewrite app_nil_r. unfold growAndStore, store.
    destruct (grow _ _) as [A|]; simpl; [|done].
    destruct (write _ _ _ _) as [A'|]; simpl; [|done]. intros; simplify_eq.
    by rewrite releaseRetired_account.
  - rewrite app_nil_r. unfold nullSlot. destruct (write _ _ _ _); simpl; [|done].
    intros; by simplify_eq.
  - rewrite app_nil_r. intros; by simplify_eq.
  - rewrite app_nil_r. intros; simplify_eq. unfold releaseAll, account.
    destruct flag; simpl; [|done]. by rewrite app_nil_r.
Qed.

Lemma run_cons o ops S : run (o :: ops) S = (S' ← run_op S o; run ops S').
Proof.
  unfold run; simpl. destruct (run_op S o); simpl; [done|].
  induction ops as [|o' ops IH]; [done|]. exact IH.
Qed.

Lemma run_account ops : ∀ S S', run ops S = Some S' →
  account S' ≡ₚ account S ++ (ops ≫= retired_by).
Proof.
  induction ops as [|o ops IH]; intros S S'.
  { intros H. unfold run in H; simpl in H. simplify_eq. by rewrite app_nil_r. }
  rewrite run_cons. destruct (run_op S o) as [S1|] eqn:E; simpl; [|done].
  intros ->%IH. by rewrite (run_op_account _ _ _ E), <-(assoc_L (++)).
Qed.

(** Retired memory is never lost and never freed twice: through any sequence
    of retirements, stores, slot clears, resizes and releases that runs, the
    blocks freed so far together with the blocks still retired are exactly, with
    multiplicity, the blocks that were retired; a final [releaseAll(true)] (the
    destructor) therefore frees each exactly once. *)
Theorem retired_conservation (ops : list op) (S : t) :
  run ops empty = Some S →
  freed S ++ (retiredBlocks_ S ≫= releaseRetiredBlock_) ≡ₚ (ops ≫= retired_by) ∧
  freed (releaseAll true S) ≡ₚ (ops ≫= retired_by) ∧
  retiredBlocks_ (releaseAll true S) = [].
Proof. intros H%run_account. split_and!; [exact H|exact H|done]. Qed.

(** Two restarts of a scope: the block retired in the first cycle is freed by the
    second cycle's store, the other one by the final release. *)
Definition restart_ops : list op :=
  [OpResize 1; OpStore 0 4 901; OpRetire (sample_block 4 901); OpReleaseAll false;
   OpResize 1; OpStore 0 4 902; OpRetire (sample_block 4 902); OpReleaseAll false].

End SessionStore.

(** * Thread-local storage *)

Module ThreadLocalStore.

Abbreviation RegistryId := N (only parsing).

Record RegistryEntries : Type := {
  instances : list ptr;
  order : list DescriptorId
}.

Definition empty_entries : RegistryEntries := {| instances := []; order := [] |}.

(** [InstanceIndex]: the cached pointer into the (node-stable) [unordered_map] is
    the key of the node it points to. *)
Record t : Type := {
  registries : gmap N RegistryEntries;
  cachedRegistryId : RegistryId;
  cachedRegistryEntries : option RegistryId
}.

Definition empty : t :=
  {| registries := ∅; cachedRegistryId := 0; cachedRegistryEntries := None |}.

Definition read_instance (e : RegistryEntries) (d : DescriptorId) : ptr :=
  default nullptr (vat (instances e) d).

Definition set_cache (r : RegistryId) (T : t) : t :=
  {| registries := registries T; cachedRegistryId := r; cachedRegistryEntries := Some r |}.

(** The cache is [mutable]: a lookup returns the new state too.  A cached pointer
    whose node is gone has no value to read ([None]). *)
Definition findInstance (registryId : RegistryId) (d : DescriptorId) (T : t)
    : option (ptr * t) :=
  let slow :=
    match registries T !! registryId with
    | None => Some (nullptr, T)
    | Some e => Some (read_instance e d, set_cache registryId T)
    end in
  match cachedRegistryEntries T with
  | Some node =>
      if cachedRegistryId T =? registryId
      then e ← registries T !! node; Some (read_instance e d, T)
      else slow
  | None => slow
  end.

Definition storeInstance (registryId : RegistryId) (d : DescriptorId) (p : ptr) (T : t)
    : bool * t :=
  let entry := default empty_entries (registries T !! registryId) in
  let values := if nlen (instances entry) <=? d
                then vresize (d + 1) nullptr (instances entry) else instances entry in
  let firstStore := default nullptr (vat values d) =? nullptr in
  let entry' := {| instances := vset d p values;
                   order := if firstStore then order entry ++ [d] else order entry |} in
  (firstStore,
   {| registries := <[registryId := entry']> (registries T);
      cachedRegistryId := registryId; cachedRegistryEntries := Some registryId |}).

(** [find] and [end]: an iterator is its key and pointer when present. *)
Definition find (key : RegistryId * DescriptorId) (T : t)
    : option (option (RegistryId * DescriptorId * ptr) * t) :=
  '(p, T') ← findInstance key.1 key.2 T;
  Some (if p =? nullptr then None else Some (key, p), T').

Definition erase (it : option (RegistryId * DescriptorId * ptr)) (T : t) : t :=
  match it with
  | None => T
  | Some (r, d, _) =>
      match registries T !! r with
      | None => T
      | Some e =>
          {| registries :=
               <[r := {| instances := vset d nullptr (instances e);
                         order := filter (λ d', d' ≠ d) (order e) |}]> (registries T);
             cachedRegistryId := r; cachedRegistryEntries := Some r |}
      end
  end.

Definition eraseRegistry (r : RegistryId) (T : t) : t :=
  let hit := cachedRegistryId T =? r in
  {| registries := delete r (registries T);
     cachedRegistryId := if hit then 0 else cachedRegistryId T;
     cachedRegistryEntries := if hit then None else cachedRegistryEntries T |}.

Definition hasEntriesFor (r : RegistryId) (T : t) : bool :=
  match registries T !! r with
  | Some e => match order e with [] => false | _ :: _ => true end
  | None => false
  end.

Fixpoint collect_entry (e : RegistryEntries) (ds : list DescriptorId)
    : list (DescriptorId * ptr) :=
  match ds with
  | [] => []
  | d :: ds' =>
      let p := read_instance e d in
      if p =? nullptr then collect_entry e ds' else (d, p) :: collect_entry e ds'
  end.

Definition collectFor (r : RegistryId) (out : list (DescriptorId * ptr)) (T : t)
    : list (DescriptorId * ptr) * t :=
  match registries T !! r with
  | None => (out, T)
  | Some e => (out ++ collect_entry e (order e), eraseRegistry r T)
  end.

(** The instance of a (registry, descriptor) pair, cache aside. *)
Definition value (T : t) (r : RegistryId) (d : DescriptorId) : ptr :=
  match registries T !! r with Some e => read_instance e d | None => nullptr end.

Definition order_of (T : t) (r : RegistryId) : list DescriptorId :=
  match registries T !! r with Some e => order e | None => [] end.

(** A non-null cached pointer is the live node of the cached id, and every
    order vector lists the registry's live instances once. *)
Record wf (T : t) : Prop := {
  wf_cache : ∀ node, cachedRegistryEntries T = Some node →
    node = cachedRegistryId T ∧ is_Some (registries T !! node);
  wf_order : ∀ r d, d ∈ order_of T r ↔ value T r d ≠ nullptr;
  wf_nodup : ∀ r, NoDup (order_of T r)
}.

Lemma tl_wf_empty : wf empty.
Proof.
  split; [done| |].
  - intros r d. unfold order_of, value, empty; simpl. rewrite lookup_empty.
    split; [by intros ?%not_elem_of_nil|done].
  - intros r. unfold order_of, empty; simpl. rewrite lookup_empty. constructor.
Qed.

Lemma value_map r e m c c' r' d :
  value {| registries := <[r := e]> m;
           cachedRegistryId := c; cachedRegistryEntries := c' |} r' d =
  if decide (r' = r) then read_instance e d
  else match m !! r' with Some e => read_instance e d | None => nullptr end.
Proof.
  unfold value; simpl. case_decide; subst; [by rewrite lookup_insert_eq|].
  by rewrite lookup_insert_ne by congruence.
Qed.

Lemma order_map r e m c c' r' :
  order_of {| registries := <[r := e]> m;
              cachedRegistryId := c; cachedRegistryEntries := c' |} r' =
  if decide (r' = r) then order e
  else match m !! r' with Some e => order e | None => [] end.
Proof.
  unfold order_of; simpl. case_decide; subst; [by rewrite lookup_insert_eq|].
  by rewrite lookup_insert_ne by congruence.
Qed.

Lemma findInstance_spec r d T : wf T →
  ∃ T', findInstance r d T = Some (value T r d, T') ∧ wf T' ∧
    registries T' = registries T.
Proof.
  intros Hwf. unfold findInstance, value. pose proof (wf_cache _ Hwf) as Hc.
  assert (∀ e, registries T !! r = Some e → wf (set_cache r T)) as Hset.
  { intros e He. split; [|apply Hwf|apply Hwf]. simpl. intros; simplify_eq. eauto. }
  assert (∃ T', match registries T !! r with
    | None => Some (nullptr, T) | Some e => Some (read_instance e d, set_cache r T) end =
      Some (match registries T !! r with
            | Some e => read_instance e d | None => nullptr end, T') ∧
    wf T' ∧ registries T' = registries T) as Hslow.
  { destruct (registries T !! r) as [e'|] eqn:Er; [|eauto].
    eexists; split_and!; [done|by eapply Hset|done]. }
  destruct (cachedRegistryEntries T) as [node|]; [|exact Hslow].
  destruct (Hc node eq_refl) as [-> [e He]].
  destruct (N.eqb_spec (cachedRegistryId T) r) as [<-|Hne]; [|exact Hslow].
  rewrite He; simpl. eauto.
Qed.

(** The vector of a registry after the resize of [storeInstance]. *)
Lemma grown_instances (l : list ptr) d d' :
  default nullptr (vat (if nlen l <=? d then vresize (d + 1) nullptr l else l) d') =
  default nullptr (vat l d').
Proof.
  destruct (N.leb_spec (nlen l) d); [|done].
  destruct (decide (d' < nlen l)); [by rewrite vat_vresize_old by lia|].
  rewrite (proj2 (vat_None l d')) by lia.
  destruct (decide (d' < d + 1)); [by rewrite vat_vresize_new by lia|].
  by rewrite (proj2 (vat_None _ d')) by (rewrite nlen_vresize; lia).
Qed.

Lemma storeInstance_spec r d p T : wf T → p ≠ nullptr →
  let '(first, T') := storeInstance r d p T in
  wf T' ∧ first = bool_decide (value T r d = nullptr) ∧
  (∀ r' d', value T' r' d' = if decide ((r', d') = (r, d)) then p else value T r' d') ∧
  (∀ r', order_of T' r' = order_of T r' ++ if decide (r' = r ∧ value T r d = nullptr)
                                           then [d] else []).
Proof.
  intros Hwf Hp. unfold storeInstance. rewrite grown_instances.
  set (entry := default empty_entries (registries T !! r)).
  set (values := if nlen (instances entry) <=? d then _ else _).
  assert (∀ d', default nullptr (vat (instances entry) d') = value T r d') as Hval.
  { intros d'. unfold value, entry. destruct (registries T !! r); [done|].
    simpl. by rewrite vat_nil. }
  assert (d < nlen values) as Hlen.
  { unfold values. destruct (N.leb_spec (nlen (instances entry)) d); [|done].
    rewrite nlen_vresize. lia. }
  assert (order entry = order_of T r) as Hord.
  { unfold entry, order_of. by destruct (registries T !! r). }
  rewrite Hval, Hord.
  assert (∀ o d', read_instance {| instances := vset d p values; order := o |} d' =
    if decide (d' = d) then p else value T r d') as Hread.
  { intros o d'. unfold read_instance; simpl. case_decide; subst; [by rewrite vat_vset_eq|].
    rewrite vat_vset_ne by congruence. unfold values. by rewrite grown_instances. }
  split_and!; simpl.
  - split; simpl.
    + intros node ?; simplify_eq. split; [done|]. by rewrite lookup_insert_eq.
    + intros r' d'. rewrite value_map, order_map. case_decide; subst; [|apply Hwf].
      rewrite Hread; simpl. destruct (N.eqb_spec (value T r d) nullptr) as [E|E].
      * rewrite elem_of_app, list_elem_of_singleton, (wf_order _ Hwf).
        case_decide; subst; naive_solver.
      * rewrite (wf_order _ Hwf). case_decide; subst; naive_solver.
    + intros r'. rewrite order_map. case_decide; subst; [|apply Hwf]. simpl.
      destruct (N.eqb_spec (value T r d) nullptr) as [E|E]; [|apply Hwf].
      apply NoDup_app. split_and!; [apply Hwf| |apply NoDup_singleton].
      intros d' Hd' ->%list_elem_of_singleton. by apply (wf_order _ Hwf) in Hd'.
  - destruct (N.eqb_spec (value T r d) nullptr); case_bool_decide; done.
  - intros r' d'. rewrite value_map. destruct (decide (r' = r)) as [->|Hr].
    + rewrite Hread. destruct (decide (d' = d)) as [->|Hd]; [by rewrite decide_True|].
      by rewrite decide_False by congruence.
    + by rewrite decide_False by congruence.
  - intros r'. rewrite order_map. destruct (decide (r' = r)) as [->|Hr]; simpl.
    + destruct (N.eqb_spec (value T r d) nullptr) as [E|E].
      * by rewrite decide_True.
      * rewrite decide_False by naive_solver. by rewrite app_nil_r.
    + rewrite decide_False by naive_solver. by rewrite app_nil_r.
Qed.

Lemma erase_spec r d p T : wf T → is_Some (registries T !! r) →
  let T' := erase (Some (r, d, p)) T in
  wf T' ∧
  (∀ r' d', value T' r' d' = if decide ((r', d') = (r, d)) then nullptr else value T r' d') ∧
  (∀ r', order_of T' r' = if decide (r' = r) then filter (λ d', d' ≠ d) (order_of T r)
                          else order_of T r').
Proof.
  intros Hwf [e He]. unfold erase. rewrite He. set (e' := {| instances := _ |}).
  assert (∀ d', read_instance e' d' = if decide (d' = d) then nullptr else value T r d')
    as Hread.
  { intros d'. unfold read_instance, value, e'; rewrite He; simpl. case_decide; subst.
    - destruct (decide (d < nlen (instances e))); [by rewrite vat_vset_eq|].
      rewrite (proj2 (vat_None _ d)); [done|]. rewrite nlen_vset. lia.
    - by rewrite vat_vset_ne by congruence. }
  assert (order e' = filter (λ d', d' ≠ d) (order_of T r)) as Hord.
  { unfold e', order_of. by rewrite He. }
  split_and!.
  - split; simpl.
    + intros node ?; simplify_eq. split; [done|]. by rewrite lookup_insert_eq.
    + intros r' d'. rewrite value_map, order_map. case_decide; subst; [|apply Hwf].
      rewrite Hread, Hord, list_elem_of_filter, (wf_order _ Hwf).
      case_decide; subst; naive_solver.
    + intros r'. rewrite order_map. case_decide; subst; [|apply Hwf].
      rewrite Hord. apply NoDup_filter, Hwf.
  - intros r' d'. rewrite value_map. destruct (decide (r' = r)) as [->|Hr].
    + rewrite Hread. destruct (decide (d' = d)) as [->|Hd]; [by rewrite decide_True|].
      by rewrite decide_False by congruence.
    + by rewrite decide_False by congruence.
  - intros r'. rewrite order_map. by case_decide.
Qed.

Lemma eraseRegistry_spec r T : wf T →
  let T' := eraseRegistry r T in
  wf T' ∧
  (∀ r' d', value T' r' d' = if decide (r' = r) then nullptr else value T r' d') ∧
  (∀ r', order_of T' r' = if decide (r' = r) then [] else order_of T r').
Proof.
  intros Hwf T'.
  assert (∀ r' d', value T' r' d' = if decide (r' = r) then nullptr else value T r' d') as Hv.
  { intros r' d'. unfold value; simpl. case_decide; subst; [by rewrite lookup_delete_eq|].
    by rewrite lookup_delete_ne by congruence. }
  assert (∀ r', order_of T' r' = if decide (r' = r) then [] else order_of T r') as Ho.
  { intros r'. unfold order_of; simpl. case_decide; subst; [by rewrite lookup_delete_eq|].
    by rewrite lookup_delete_ne by congruence. }
  split_and!; [|done..]. split.
  - intros node. unfold T', eraseRegistry; simpl.
    destruct (N.eqb_spec (cachedRegistryId T) r) as [E|E]; [done|].
    intros Hn. destruct (wf_cache _ Hwf _ Hn) as [-> Hs]. split; [done|].
    by rewrite lookup_delete_ne by congruence.
  - intros r' d'. rewrite Hv, Ho. case_decide; [|apply Hwf].
    split; [by intros ?%not_elem_of_nil|done].
  - intros r'. rewrite Ho. case_decide; [constructor|apply Hwf].
Qed.

(** ** Refinement to a map *)

Inductive op : Type :=
| OpFind (r : RegistryId) (d : DescriptorId)
| OpStore (r : RegistryId) (d : DescriptorId) (p : ptr)
| OpErase (r : RegistryId) (d : DescriptorId)
| OpEraseRegistry (r : RegistryId).

(** One operation and what it answers; an erasure goes through [find], as
    [destroyBeanInstance] does. *)
Definition run_op (o : op) (T : t) : option (ptr * t) :=
  match o with
  | OpFind r d => findInstance r d T
  | OpStore r d p => let '(first, T') := storeInstance r d p T in
                     Some (if first then 1 else 0, T')
  | OpErase r d => '(it, T') ← find (r, d) T; Some (nullptr, erase it T')
  | OpEraseRegistry r => Some (nullptr, eraseRegistry r T)
  end.

Fixpoint run (ops : list op) (T : t) : option (list ptr) :=
  match ops with
  | [] => Some []
  | o :: ops' => '(x, T') ← run_op o T; xs ← run ops' T'; Some (x :: xs)
  end.

(** The same operations on a finite map from (registry, descriptor). *)
Definition spec_op (o : op) (m : gmap (N * N) ptr) : ptr * gmap (N * N) ptr :=
  match o with
  | OpFind r d => (default nullptr (m !! (r, d)), m)
  | OpStore r d p =>
      (if decide (m !! (r, d) = None) then 1 else 0, <[(r, d) := p]> m)
  | OpErase r d => (nullptr, delete (r, d) m)
  | OpEraseRegistry r => (nullptr, filter (λ kv, kv.1.1 ≠ r) m)
  end.

Fixpoint spec (ops : list op) (m : gmap (N * N) ptr) : list ptr :=
  match ops with
  | [] => []
  | o :: ops' => let '(x, m') := spec_op o m in x :: spec ops' m'
  end.

Definition op_ok (o : op) : Prop := match o with OpStore _ _ p => p ≠ nullptr | _ => True end.

Definition rel (T : t) (m : gmap (N * N) ptr) : Prop :=
  ∀ r d, value T r d = default nullptr (m !! (r, d)) ∧ m !! (r, d) ≠ Some nullptr.

Lemma rel_null T m r d : rel T m → value T r d = nullptr ↔ m !! (r, d) = None.
Proof.
  intros H. destruct (H r d) as [-> Hn]. destruct (m !! (r, d)); simpl; naive_solver.
Qed.

Lemma run_op_spec o T m : wf T → rel T m → op_ok o →
  ∃ T', run_op o T = Some ((spec_op o m).1, T') ∧ wf T' ∧ rel T' (spec_op o m).2.
Proof.
  intros Hwf Hrel Hok.
  destruct o as [r d|r d p|r d|r]; cbn [run_op spec_op op_ok fst snd] in *.
  - destruct (findInstance_spec r d T Hwf) as (T' & -> & HwfT' & Hreg).
    exists T'. rewrite (proj1 (Hrel r d)). split_and!; [done|done|].
    intros r' d'. unfold value. rewrite Hreg. apply Hrel.
  - pose proof (storeInstance_spec r d p T Hwf Hok) as H.
    destruct (storeInstance r d p T) as [first T']. destruct H as (HwfT' & -> & Hv & _).
    exists T'. split_and!; [|done|].
    + f_equal. f_equal. case_bool_decide as Hb; case_decide as Hd; try done;
        rewrite (rel_null _ _ _ _ Hrel) in Hb; done.
    + intros r' d'. rewrite Hv. case_decide as E.
      * rewrite E, lookup_insert_eq. simpl. naive_solver.
      * rewrite lookup_insert_ne by congruence. apply Hrel.
  - destruct (findInstance_spec r d T Hwf) as (T1 & Hf & Hwf1 & Hreg).
    unfold find; simpl. rewrite Hf; simpl.
    assert (rel T1 m) as Hrel1 by (intros r' d'; unfold value; rewrite Hreg; apply Hrel).
    destruct (N.eqb_spec (value T r d) nullptr) as [E|E].
    + exists T1. split_and!; [done..|]. rewrite delete_id; [done|].
      by apply (rel_null T m).
    + eexists. split; [done|]. destruct (erase_spec r d (value T r d) T1 Hwf1) as (H1 & H2 & _).
      { rewrite Hreg. unfold value in E. destruct (registries T !! r); [eauto|done]. }
      split; [done|]. intros r' d'. rewrite H2. case_decide as E'.
      * rewrite E', lookup_delete_eq. done.
      * rewrite lookup_delete_ne by congruence. apply Hrel1.
  - eexists. split; [done|]. destruct (eraseRegistry_spec r T Hwf) as (H1 & H2 & _).
    split; [done|]. intros r' d'. rewrite H2. case_decide as E; subst.
    + rewrite map_lookup_filter_None_2; [done|]. right. intros x _ Hx. by apply Hx.
    + destruct (Hrel r' d') as [-> Hn]. destruct (m !! (r', d')) as [x|] eqn:Em.
      * by rewrite (map_lookup_filter_Some_2 _ _ _ x).
      * by rewrite map_lookup_filter_None_2 by by left.
Qed.

Lemma run_spec ops : ∀ T m, wf T → rel T m → Forall op_ok ops →
  run ops T = Some (spec ops m).
Proof.
  induction ops as [|o ops IH]; intros T m Hwf Hrel Hok; [done|].
  apply Forall_cons in Hok as [Ho Hok]. cbn [run spec].
  destruct (run_op_spec o T m Hwf Hrel Ho) as (T' & -> & HwfT' & HrelT').
  destruct (spec_op o m) as [x m']. simpl in *. by rewrite (IH T' m').
Qed.

(** Cache transparency of the per-thread instance index: on any sequence of
    finds, stores, erasures of one instance and erasures of a whole registry, with
    any number of registries sharing the one-entry cache, the index answers what a
    finite map from (registry, descriptor) answers, and never reads through a
    stale cached pointer. *)
Theorem thread_local_refines_map (ops : list op) :
  Forall op_ok ops → run ops empty = Some (spec ops ∅).
Proof.
  intros H. apply run_spec; [apply tl_wf_empty| |done].
  intros r d. unfold value; simpl. by rewrite !lookup_empty.
Qed.

Lemma collect_entry_live e ds : Forall (λ d, read_instance e d ≠ nullptr) ds →
  collect_entry e ds = (λ d, (d, read_instance e d)) <$> ds.
Proof.
  induction 1 as [|d ds Hd _ IH]; simpl; [done|].
  destruct (N.eqb_spec (read_instance e d) nullptr); [done|]. by f_equal.
Qed.

(** [collectFor] at [stop()] or thread exit hands out every live instance of
    the registry exactly once, in construction order, removes them all and leaves
    the other registries of the thread untouched. *)
Theorem collect_exact (r : RegistryId) (out : list (DescriptorId * ptr)) (T : t) :
  wf T →
  let '(out', T') := collectFor r out T in
  out' = out ++ ((λ d, (d, value T r d)) <$> order_of T r) ∧
  (∀ d, d ∈ order_of T r ↔ value T r d ≠ nullptr) ∧ NoDup (order_of T r) ∧
  wf T' ∧ hasEntriesFor r T' = false ∧
  ∀ r' d, value T' r' d = if decide (r' = r) then nullptr else value T r' d.
Proof.
  intros Hwf. pose proof (wf_order _ Hwf r) as Ho. pose proof (wf_nodup _ Hwf r) as Hn.
  unfold collectFor. destruct (registries T !! r) as [e|] eqn:He.
  - assert (order_of T r = order e) as Hoe by (unfold order_of; by rewrite He).
    assert (∀ d, value T r d = read_instance e d) as Hve
      by (intros d; unfold value; by rewrite He).
    destruct (eraseRegistry_spec r T Hwf) as (H1 & H2 & _).
    split_and!; [|done|done|done| |done].
    + rewrite collect_entry_live.
      * rewrite Hoe. f_equal. apply list_fmap_ext. intros. by rewrite Hve.
      * apply Forall_forall. intros d Hd. rewrite <-Hve. apply Ho. by rewrite Hoe.
    + unfold hasEntriesFor; simpl. by rewrite lookup_delete_eq.
  - assert (order_of T r = []) as Hoe by (unfold order_of; by rewrite He).
    split_and!; [by rewrite Hoe, app_nil_r|done|done|done| |].
    + unfold hasEntriesFor. by rewrite He.
    + intros r' d. case_decide; subst; [|done]. unfold value. by rewrite He.
Qed.

End ThreadLocalStore.
