(* ===== verification/Startup.v ===== *)
(** Start-up: from contributions to tables.

    [Module Startup] models the state of [Registry] that [start()] builds
    ([internal/detail/Registry.hpp], [RegistryRuntimeCoreImpl.hpp]): the merge of the
    submitted contributions, the runtime singletons bound before the start, the
    resolution of factory and alias links, the validation of the graph, the context
    bean and the session slots.  A [ConfigurationError] leaves the tables as they are
    at the throw. *)
From S2P Require Import Prelude Tables Interning Index Stores.

Local Open Scope N_scope.

Module Startup.
Local Open Scope ctr_scope.

(** ** State *)

(** A [bindSingleton] made before [start()]. *)
Record PendingRuntimeSingleton : Type := {
  p_instance : ptr;
  p_typeName : string;
  p_typeInfoGetter : TypeInfo;
  p_nameId : NameId;
  p_priority : Z;
  p_destroy : FnPtr;
  p_preDestroy : option FnPtr;
  p_dealloc : option FnPtr;
  p_size : N;
  p_align : N
}.

(** [BoundAtStart] and [StartBound]. *)
Record StartBound : Type := {
  sb_descId : DescriptorId;
  sb_instance : ptr;
  sb_exposedTypeId : TypeId
}.

(** The tables the merge fills. *)
Record tables : Type := {
  descriptors_ : DescriptorTable.t;
  typeInterning_ : TypeInterning.t;
  nameInterning_ : NameInterning.t;
  typeIndex_ : TypeIndex.t
}.

Record t : Type := {
  started_ : bool;
  root_ : ptr;
  beanContextDescId_ : DescriptorId;
  sessionSlotCount_ : N;
  beanContextStartLifecyclePending_ : bool;
  tables_ : tables;
  defaults_ : DefaultsTable.t;
  singletons_ : SingletonStore.t;
  pending_ : list (list ContributedDescriptor);
  startLifecyclePending_ : list StartBound;
  pendingRuntimeSingletons_ : list PendingRuntimeSingleton
}.

Definition no_tables : tables :=
  {| descriptors_ := DescriptorTable.empty; typeInterning_ := TypeInterning.empty;
     nameInterning_ := NameInterning.empty; typeIndex_ := TypeIndex.empty |}.

(** [Registry()] *)
Definition new_registry : t :=
  {| started_ := false; root_ := nullptr; beanContextDescId_ := kInvalidDescriptorId;
     sessionSlotCount_ := 0; beanContextStartLifecyclePending_ := false;
     tables_ := no_tables; defaults_ := DefaultsTable.empty;
     singletons_ := SingletonStore.empty; pending_ := []; startLifecyclePending_ := [];
     pendingRuntimeSingletons_ := [] |}.

Definition set_descriptors (D : DescriptorTable.t) (T : tables) : tables :=
  {| descriptors_ := D; typeInterning_ := typeInterning_ T;
     nameInterning_ := nameInterning_ T; typeIndex_ := typeIndex_ T |}.

Definition set_typeInterning (ti : TypeInterning.t) (T : tables) : tables :=
  {| descriptors_ := descriptors_ T; typeInterning_ := ti;
     nameInterning_ := nameInterning_ T; typeIndex_ := typeIndex_ T |}.

Definition set_nameInterning (ni : NameInterning.t) (T : tables) : tables :=
  {| descriptors_ := descriptors_ T; typeInterning_ := typeInterning_ T;
     nameInterning_ := ni; typeIndex_ := typeIndex_ T |}.

Definition set_typeIndex (X : TypeIndex.t) (T : tables) : tables :=
  {| descriptors_ := descriptors_ T; typeInterning_ := typeInterning_ T;
     nameInterning_ := nameInterning_ T; typeIndex_ := X |}.

(** [submitContribution] *)
Definition submitContribution (span : list ContributedDescriptor) : M t unit := λ R,
  if started_ R then
    (Throw (ContextStateError
       "discover<>() called after start() — contributions must be submitted before the context is started."), R)
  else
    (Ok tt, {| started_ := started_ R; root_ := root_ R;
               beanContextDescId_ := beanContextDescId_ R;
               sessionSlotCount_ := sessionSlotCount_ R;
               beanContextStartLifecyclePending_ := beanContextStartLifecyclePending_ R;
               tables_ := tables_ R; defaults_ := defaults_ R; singletons_ := singletons_ R;
               pending_ := pending_ R ++ [span];
               startLifecyclePending_ := startLifecyclePending_ R;
               pendingRuntimeSingletons_ := pendingRuntimeSingletons_ R |}).

Definition set_bindings (pbs : list PendingRuntimeSingleton) (R : t) : t :=
  {| started_ := started_ R; root_ := root_ R; beanContextDescId_ := beanContextDescId_ R;
     sessionSlotCount_ := sessionSlotCount_ R;
     beanContextStartLifecyclePending_ := beanContextStartLifecyclePending_ R;
     tables_ := tables_ R; defaults_ := defaults_ R; singletons_ := singletons_ R;
     pending_ := pending_ R; startLifecyclePending_ := startLifecyclePending_ R;
     pendingRuntimeSingletons_ := pbs |}.

Definition same_binding (pb pb' : PendingRuntimeSingleton) : bool :=
  bool_decide (p_typeName pb = p_typeName pb') && (p_nameId pb =? p_nameId pb')
  && bool_decide (p_priority pb = p_priority pb').

Definition binding_error (typeName : string) : exn :=
  ConfigurationError ("Registry::bindSingleton: type '" +:+ typeName
    +:+ "' binding already exists for the same name and priority.").

(** [bindSingleton] before [start()]: enqueue the object for phase 1.5. *)
Definition enqueue_binding (pb : PendingRuntimeSingleton) : M t unit := λ R,
  if existsb (same_binding pb) (pendingRuntimeSingletons_ R)
  then (Throw (binding_error (p_typeName pb)), R)
  else (Ok tt, set_bindings (pendingRuntimeSingletons_ R ++ [pb]) R).

(** ** Phase 1: merging the contributions *)

(** [internByName] and [intern] on the registry's tables. *)
Definition internByName (n : string) (g : TypeInfo) : M tables TypeId := λ T,
  let '(id, ti) := TypeInterning.internByName n g (typeInterning_ T) in
  (Ok id, set_typeInterning ti T).

Definition intern (n : string) : M tables NameId := λ T,
  let '(id, ni) := NameInterning.intern n (nameInterning_ T) in
  (Ok id, set_nameInterning ni T).

(** Append a descriptor, link it to itself when it is a primary, and enter it in the
    type index. *)
Definition add_descriptor (primary : bool) (d : Descriptor) (cold : DescriptorCold)
    : M tables DescriptorId := λ T,
  let '(id, D) := DescriptorTable.append d cold (descriptors_ T) in
  match (if primary then DescriptorTable.atMutable id (set_primaryDescriptor id) D
         else Some D) with
  | None => (Ub, T)
  | Some D' =>
      (Ok id, {| descriptors_ := D'; typeInterning_ := typeInterning_ T;
                 nameInterning_ := nameInterning_ T;
                 typeIndex_ := TypeIndex.insertCandidate (exposedType cold) (name cold) id
                                 (typeIndex_ T) |})
  end.

Definition hot_of (cd : ContributedDescriptor) : Descriptor :=
  {| priority := cd_priority cd; primaryDescriptor := kInvalidDescriptorId;
     sessionSlot := kInvalidSessionSlot; lifetime := cd_lifetime cd;
     adjustToExposed := cd_adjustToExposed cd |}.

Definition cold_of (cd : ContributedDescriptor) (exposed concrete : TypeId) (n : NameId)
    : DescriptorCold :=
  {| exposedType := exposed; concreteType := concrete; name := n;
     Tables.size := cd_size cd; align := cd_align cd;
     factoryMethodDescriptor := kInvalidDescriptorId;
     factoryMethodName := cd_factoryMethodName cd; origin := cd_origin cd;
     lazy := cd_lazy cd; construct := cd_construct cd; destroy := cd_destroy cd;
     postConstruct := cd_postConstruct cd; preDestroy := cd_preDestroy cd;
     allocAndConstruct := cd_allocAndConstruct cd; dealloc := cd_dealloc cd;
     observedTypeGetter := Some (cd_exposedTypeInfo cd);
     exactTypeGetter := Some (cd_concreteTypeInfo cd); nameStr := cd_beanName cd;
     reflectiveData := cd_reflectiveData cd; adjustToConcrete := cd_adjustToConcrete cd |}.

(** The local maps of [start()]. *)
Record links : Type := {
  identityMap : gmap Identity DescriptorId;
  factoryLinks : list (DescriptorId * Identity);
  aliasLinks : list (DescriptorId * Identity)
}.

Definition no_links : links := {| identityMap := ∅; factoryLinks := []; aliasLinks := [] |}.

(** The links a new descriptor adds. *)
Definition add_links (cd : ContributedDescriptor) (id : DescriptorId) (L : links) : links :=
  {| identityMap := <[cd_identity cd := id]> (identityMap L);
     factoryLinks := factoryLinks L ++
       (if cd_factoryMethodIdentity cd =? kNoFactoryMethod then []
        else [(id, cd_factoryMethodIdentity cd)]);
     aliasLinks := aliasLinks L ++
       (if cd_isExposedAlias cd && negb (cd_aliasOfPrimaryIdentity cd =? kNoFactoryMethod)
        then [(id, cd_aliasOfPrimaryIdentity cd)] else []) |}.

Definition merge_new (cd : ContributedDescriptor) (L : links) : M tables links :=
  let! exposedType := internByName (cd_exposedTypeName cd) (cd_exposedTypeInfo cd) in
  let! concreteType := internByName (cd_concreteTypeName cd) (cd_concreteTypeInfo cd) in
  let! n := intern (cd_beanName cd) in
  let! id := add_descriptor (negb (cd_isExposedAlias cd)) (hot_of cd)
               (cold_of cd exposedType concreteType n) in
  mreturn (add_links cd id L).

Definition collision_error (cd : ContributedDescriptor) (existing : string) : exn :=
  ConfigurationError ("Registry::start(): Identity collision between '"
    +:+ cd_exposedTypeName cd +:+ "' and existing '" +:+ existing
    +:+ "' — divergent exposedTypeName, beanName, or lifetime for the same Identity value.").

(** A contribution of a known identity: its key fields must match. *)
Definition check_duplicate (cd : ContributedDescriptor) (id : DescriptorId) : M tables unit :=
  let! T := mget in
  let! existing := mlift (DescriptorTable.at_ (descriptors_ T) id) in
  let! existingCold := mlift (DescriptorTable.coldAt (descriptors_ T) id) in
  let! ty := mlift (TypeInterning.nameOf (typeInterning_ T) (exposedType existingCold)) in
  let! n := mlift (NameInterning.nameOf (nameInterning_ T) (name existingCold)) in
  if bool_decide (ty ≠ cd_exposedTypeName cd) || bool_decide (n ≠ cd_beanName cd)
     || bool_decide (lifetime existing ≠ cd_lifetime cd)
  then mthrow_ (collision_error cd ty)
  else mreturn tt.

Definition merge_one (cd : ContributedDescriptor) (L : links) : M tables links :=
  match identityMap L !! cd_identity cd with
  | None => merge_new cd L
  | Some id => do! check_duplicate cd id in mreturn L
  end.

(** ** Phase 1.5: runtime singletons bound before the start *)

Definition candidateKeyExists (D : DescriptorTable.t) (typeId : TypeId) (nameId : NameId)
    (prio : Z) : bool :=
  existsb (λ x : Descriptor * DescriptorCold,
             (exposedType x.2 =? typeId) && (name x.2 =? nameId)
             && Z.eqb (priority x.1) prio)
    (zip (DescriptorTable.entries_ D) (DescriptorTable.coldEntries_ D)).

Definition runtime_hot (prio : Z) : Descriptor :=
  {| priority := prio; primaryDescriptor := kInvalidDescriptorId;
     sessionSlot := kInvalidSessionSlot; lifetime := Singleton; adjustToExposed := None |}.

Section engine.
Context `{SS : StdSort}.
(** The address of the empty constructor and destructor thunks, [typeid] and [alignof]
    of [ctr::BeanContext]. *)
Context (noop : FnPtr) (contextTypeInfo : TypeInfo) (contextAlign : N).

Definition bound_cold (pb : PendingRuntimeSingleton) (typeId : TypeId) : DescriptorCold :=
  {| exposedType := typeId; concreteType := typeId; name := p_nameId pb;
     Tables.size := p_size pb; align := p_align pb;
     factoryMethodDescriptor := kInvalidDescriptorId; factoryMethodName := None;
     origin := RuntimeBinding; lazy := true; construct := noop; destroy := p_destroy pb;
     postConstruct := None; preDestroy := p_preDestroy pb; allocAndConstruct := None;
     dealloc := p_dealloc pb; observedTypeGetter := Some (p_typeInfoGetter pb);
     exactTypeGetter := Some (p_typeInfoGetter pb); nameStr := p_typeName pb;
     reflectiveData := None; adjustToConcrete := None |}.

Definition bound_error (typeName : string) : exn :=
  ConfigurationError ("Registry::start(): runtime singleton binding for type '"
    +:+ typeName +:+ "' collides with an existing candidate for the same name and priority.").

Definition bind_one (pb : PendingRuntimeSingleton) (bound : list StartBound)
    : M tables (list StartBound) :=
  let! typeId := internByName (p_typeName pb) (p_typeInfoGetter pb) in
  let! T := mget in
  if candidateKeyExists (descriptors_ T) typeId (p_nameId pb) (p_priority pb)
  then mthrow_ (bound_error (p_typeName pb))
  else
    let! descId := add_descriptor true (runtime_hot (p_priority pb)) (bound_cold pb typeId) in
    mreturn (bound ++ [{| sb_descId := descId; sb_instance := p_instance pb;
                          sb_exposedTypeId := typeId |}]).

(** ** Phases 2 and 2.5: factory and alias links *)

Definition factory_error (beanType : string) : exn :=
  ConfigurationError ("Registry::start(): factory method identity not found for bean '"
    +:+ beanType +:+ "'.").

Definition link_factory (L : links) (lk : DescriptorId * Identity) : M tables unit := λ T,
  match identityMap L !! lk.2 with
  | None =>
      (let! cold := mlift (DescriptorTable.coldAt (descriptors_ T) lk.1) in
       let! n := mlift (TypeInterning.nameOf (typeInterning_ T) (concreteType cold)) in
       mthrow_ (factory_error n)) T
  | Some f =>
      match DescriptorTable.coldAtMutable lk.1 (set_factoryMethodDescriptor f)
              (descriptors_ T) with
      | None => (Ub, T)
      | Some D => (Ok tt, set_descriptors D T)
      end
  end.

Definition alias_error (exposed : string) : exn :=
  ConfigurationError ("Registry::start(): primary descriptor not found for exposed alias '"
    +:+ exposed +:+ "'.").

Definition link_alias (L : links) (lk : DescriptorId * Identity) : M tables unit := λ T,
  match identityMap L !! lk.2 with
  | None =>
      (let! cold := mlift (DescriptorTable.coldAt (descriptors_ T) lk.1) in
       let! n := mlift (TypeInterning.nameOf (typeInterning_ T) (exposedType cold)) in
       mthrow_ (alias_error n)) T
  | Some p =>
      match DescriptorTable.atMutable lk.1 (set_primaryDescriptor p) (descriptors_ T) with
      | None => (Ub, T)
      | Some D => (Ok tt, set_descriptors D T)
      end
  end.

(** ** Phase 3: sorting *)

(** The candidates are ids of the table. *)
Definition priority_at (D : DescriptorTable.t) (id : DescriptorId) : Z :=
  from_option priority 0%Z (DescriptorTable.at_ D id).

Definition sort_index : M tables unit := λ T,
  (Ok tt, set_typeIndex
            (TypeIndex.sortAllCandidates (priority_at (descriptors_ T)) (typeIndex_ T)) T).

(** ** Phase 3.5: producer methods of one factory *)

Fixpoint factoryIds (D : DescriptorTable.t) (cs : list DescriptorId)
    : option (list DescriptorId) :=
  match cs with
  | [] => Some []
  | id :: cs' =>
      cold ← DescriptorTable.coldAt D id;
      ids ← factoryIds D cs';
      Some (if bool_decide (origin cold = FactoryProduct)
               && negb (factoryMethodDescriptor cold =? kInvalidDescriptorId)
            then factoryMethodDescriptor cold :: ids else ids)
  end.

Fixpoint adjacent_find (v : list N) : bool :=
  match v with
  | a :: (b :: _) as v' => (a =? b) || adjacent_find v'
  | _ => false
  end.

Definition producer_error (ty n : string) : exn :=
  ConfigurationError ("Registry::start(): two producer methods on the same factory return the same type and named key: type='"
    +:+ ty +:+ "' name='" +:+ n +:+ "'.").

Definition check_producers_entry (typeId : TypeId) (ne : NameId * TypeIndex.NameEntry)
    : M tables unit := λ T,
  match factoryIds (descriptors_ T) (TypeIndex.candidates ne.2) with
  | None => (Ub, T)
  | Some ids =>
      if adjacent_find (std_sort N.ltb ids) then
        (let! ty := mlift (TypeInterning.nameOf (typeInterning_ T) typeId) in
         let! n := mlift (NameInterning.nameOf (nameInterning_ T) ne.1) in
         mthrow_ (producer_error ty n)) T
      else (Ok tt, T)
  end.

Definition check_producers (typeId : TypeId) : M tables unit := λ T,
  match TypeIndex.tableFor (typeIndex_ T) typeId with
  | None => (Ok tt, T)
  | Some table => mfor (check_producers_entry typeId) table T
  end.

(** The ids [0 .. n-1]. *)
Definition ids (n : N) : list N := N.of_nat <$> seq 0 (N.to_nat n).

(** ** Phase 3.75: session injection *)

Definition scoped_error (n : option string) : exn :=
  ConfigurationError ("start(): [[=ctr::scoped]] targets non-session bean '"
    +:+ default "?"%string n +:+ "'.").

Definition session_error (n : option string) : exn :=
  ConfigurationError ("start(): session bean '" +:+ default "?"%string n
    +:+ "' injected into a non-session consumer without [[=ctr::scoped]].").

(** The candidate a parameter injects: the first of its pair, when there is one. *)
Definition injected (T : tables) (p : ContributedParamDescriptor) : option DescriptorId :=
  let injTypeId := TypeInterning.lookupByTypeIndex (typeInterning_ T) (injectedTypeInfo p) in
  if injTypeId =? kInvalidTypeId then None
  else
    let candidateName :=
      if hasNamedAnnotation p
      then NameInterning.lookup (nameInterning_ T) (default ""%string (targetName p))
      else kUnnamed in
    if hasNamedAnnotation p && (candidateName =? kInvalidNameId) then None
    else match TypeIndex.candidatesFor (typeIndex_ T) injTypeId candidateName with
         | Some (d :: _) => Some d
         | _ => None
         end.

Definition check_param (consumer : Lifetime) (p : ContributedParamDescriptor)
    : M tables unit :=
  let! T := mget in
  match injected T p with
  | None => mreturn tt
  | Some d =>
      let! x := mlift (DescriptorTable.at_ (descriptors_ T) d) in
      let injLt := lifetime x in
      if hasScopedAnnotation p && bool_decide (injLt ≠ Session)
      then mthrow_ (scoped_error (injectedTypeName p))
      else if negb (hasScopedAnnotation p) && bool_decide (injLt = Session)
              && bool_decide (consumer ≠ Session)
      then mthrow_ (session_error (injectedTypeName p))
      else mreturn tt
  end.

Definition check_injection (cd : ContributedDescriptor) : M tables unit :=
  mfor (check_param (cd_lifetime cd)) (cd_params cd).

(** ** Phase 4: the context bean, the session slots, the bound instances *)

Definition context_cold (typeId : TypeId) : DescriptorCold :=
  {| exposedType := typeId; concreteType := typeId; name := kUnnamed; Tables.size := 0;
     align := contextAlign; factoryMethodDescriptor := kInvalidDescriptorId;
     factoryMethodName := None; origin := RuntimeBinding; lazy := true;
     construct := noop; destroy := noop; postConstruct := None; preDestroy := None;
     allocAndConstruct := None; dealloc := None;
     observedTypeGetter := Some contextTypeInfo; exactTypeGetter := Some contextTypeInfo;
     nameStr := "ctr::BeanContext"; reflectiveData := None; adjustToConcrete := None |}.

(** [registerContextBean], up to the singleton store; its descriptor keeps the
    invalid primary. *)
Definition register_context : M tables DescriptorId :=
  let! typeId := internByName "ctr::BeanContext" contextTypeInfo in
  let! id := add_descriptor false (runtime_hot 0) (context_cold typeId) in
  do! mupd (λ T, set_typeIndex (TypeIndex.updateSingleUnnamed typeId (typeIndex_ T)) T) in
  mreturn id.

(** The slot loop, from descriptor [i] on; [count] is [sessionSlotCount_]. *)
Fixpoint slots_from (ds : list Descriptor) (count : N) : list Descriptor * N :=
  match ds with
  | [] => ([], count)
  | d :: ds' =>
      if decide (lifetime d = Session) then
        let '(r, n) := slots_from ds' (count + 1) in (set_sessionSlot (u32 count) d :: r, n)
      else
        let '(r, n) := slots_from ds' count in (set_sessionSlot kInvalidSessionSlot d :: r, n)
  end.

Definition assign_slots : M tables N := λ T,
  let D := descriptors_ T in
  let '(es, n) := slots_from (DescriptorTable.entries_ D) 0 in
  (Ok n, set_descriptors
           {| DescriptorTable.entries_ := es;
              DescriptorTable.coldEntries_ := DescriptorTable.coldEntries_ D;
              DescriptorTable.lifetimes_ := DescriptorTable.lifetimes_ D |} T).

(** Steps of [start()] on the tables, and on the whole registry. *)
Definition set_tables (T : tables) (R : t) : t :=
  {| started_ := started_ R; root_ := root_ R;
     beanContextDescId_ := beanContextDescId_ R;
     sessionSlotCount_ := sessionSlotCount_ R;
     beanContextStartLifecyclePending_ := beanContextStartLifecyclePending_ R;
     tables_ := T; defaults_ := defaults_ R; singletons_ := singletons_ R;
     pending_ := pending_ R; startLifecyclePending_ := startLifecyclePending_ R;
     pendingRuntimeSingletons_ := pendingRuntimeSingletons_ R |}.

Definition on_tables {A} (m : M tables A) : M t A := λ R,
  let '(o, T) := m (tables_ R) in (o, set_tables T R).

Definition clear_bound : t → t := set_bindings [].

Definition set_context (ctx : ptr) (id : DescriptorId) (st : SingletonStore.t) (R : t) : t :=
  {| started_ := started_ R; root_ := ctx; beanContextDescId_ := id;
     sessionSlotCount_ := sessionSlotCount_ R;
     beanContextStartLifecyclePending_ := beanContextStartLifecyclePending_ R;
     tables_ := tables_ R; defaults_ := defaults_ R; singletons_ := st;
     pending_ := pending_ R; startLifecyclePending_ := startLifecyclePending_ R;
     pendingRuntimeSingletons_ := pendingRuntimeSingletons_ R |}.

(** [singletons_.resize(n); singletons_.store(id, ctx)] *)
Definition store_context (ctx : ptr) (id : DescriptorId) : M t unit := λ R,
  let n := DescriptorTable.size (descriptors_ (tables_ R)) in
  match SingletonStore.store id ctx (SingletonStore.resize n (singletons_ R)) with
  | None => (Ub, R)
  | Some st => (Ok tt, set_context ctx id st R)
  end.

Definition set_slotCount (n : N) (R : t) : t :=
  {| started_ := started_ R; root_ := root_ R; beanContextDescId_ := beanContextDescId_ R;
     sessionSlotCount_ := n;
     beanContextStartLifecyclePending_ := beanContextStartLifecyclePending_ R;
     tables_ := tables_ R; defaults_ := defaults_ R; singletons_ := singletons_ R;
     pending_ := pending_ R; startLifecyclePending_ := startLifecyclePending_ R;
     pendingRuntimeSingletons_ := pendingRuntimeSingletons_ R |}.

(** [singletons_.store(...)] and [startLifecyclePending_.push_back(...)] *)
Definition store_bound (b : StartBound) : M t unit := λ R,
  match SingletonStore.store (sb_descId b) (sb_instance b) (singletons_ R) with
  | None => (Ub, R)
  | Some st =>
      (Ok tt, {| started_ := started_ R; root_ := root_ R;
                 beanContextDescId_ := beanContextDescId_ R;
                 sessionSlotCount_ := sessionSlotCount_ R;
                 beanContextStartLifecyclePending_ := beanContextStartLifecyclePending_ R;
                 tables_ := tables_ R; defaults_ := defaults_ R; singletons_ := st;
                 pending_ := pending_ R;
                 startLifecyclePending_ := startLifecyclePending_ R ++ [b];
                 pendingRuntimeSingletons_ := pendingRuntimeSingletons_ R |})
  end.

(** [freeze()], the defaults table, and the flags. *)
Definition publish (R : t) : t :=
  let T := tables_ R in
  let ti := TypeInterning.freeze (typeInterning_ T) in
  {| started_ := true; root_ := root_ R; beanContextDescId_ := beanContextDescId_ R;
     sessionSlotCount_ := sessionSlotCount_ R; beanContextStartLifecyclePending_ := true;
     tables_ := set_typeInterning ti T;
     defaults_ := DefaultsTable.resize (TypeInterning.size ti) (defaults_ R);
     singletons_ := singletons_ R; pending_ := pending_ R;
     startLifecyclePending_ := startLifecyclePending_ R;
     pendingRuntimeSingletons_ := pendingRuntimeSingletons_ R |}.

(** A registry that was started before: its tables are kept. *)
Definition restarted (R : t) : t :=
  {| started_ := true; root_ := root_ R; beanContextDescId_ := beanContextDescId_ R;
     sessionSlotCount_ := sessionSlotCount_ R; beanContextStartLifecyclePending_ := true;
     tables_ := tables_ R; defaults_ := defaults_ R; singletons_ := singletons_ R;
     pending_ := pending_ R; startLifecyclePending_ := startLifecyclePending_ R;
     pendingRuntimeSingletons_ := pendingRuntimeSingletons_ R |}.

(** Phases 1 to 3.75. *)
Definition merge_phases (cds : list ContributedDescriptor)
    (pbs : list PendingRuntimeSingleton) : M t (list StartBound) :=
  let! L := on_tables (mfold merge_one cds no_links) in
  let! runtimeBound := on_tables (mfold bind_one pbs []) in
  do! mupd clear_bound in
  do! on_tables (mfor (link_factory L) (factoryLinks L)) in
  do! on_tables (mfor (link_alias L) (aliasLinks L)) in
  do! on_tables sort_index in
  let! R := mget in
  do! on_tables (mfor check_producers
                   (ids (TypeInterning.size (typeInterning_ (tables_ R))))) in
  do! on_tables (mfor check_injection cds) in
  mreturn runtimeBound.

(** [Registry::start(ctx)] *)
Definition start (ctx : ptr) : M t unit :=
  let! R := mget in
  if started_ R then mreturn tt
  else if negb (beanContextDescId_ R =? kInvalidDescriptorId) then
    do! store_context ctx (beanContextDescId_ R) in
    mupd restarted
  else
    let! runtimeBound := merge_phases (mjoin (pending_ R)) (pendingRuntimeSingletons_ R) in
    let! id := on_tables register_context in
    do! store_context ctx id in
    let! n := on_tables assign_slots in
    do! mupd (set_slotCount n) in
    do! mfor store_bound runtimeBound in
    mupd publish.

End engine.
End Startup.
