(* ===== verification/StartupFacts.v ===== *)
(** What [start()] does to the tables, phase by phase. *)
From S2P Require Import Prelude Tables Interning Index Stores Startup.

Local Open Scope N_scope.

Module StartupFacts.
Import Startup.

(** ** The tables while they are built *)

(** The index holds one entry per descriptor, under its type and name. *)
Definition keys (D : DescriptorTable.t) : list (TypeId * NameId * DescriptorId) :=
  imap (λ i c, (exposedType c, name c, N.of_nat i)) (DescriptorTable.coldEntries_ D).

Definition typed (T : tables) (c : DescriptorCold) : Prop :=
  is_Some (TypeInterning.nameOf (typeInterning_ T) (exposedType c)) ∧
  is_Some (TypeInterning.nameOf (typeInterning_ T) (concreteType c)) ∧
  is_Some (NameInterning.nameOf (nameInterning_ T) (name c)).

Record built (T : tables) : Prop := {
  b_table : DescriptorTable.wf (descriptors_ T);
  b_types : TypeInterning.wf (typeInterning_ T);
  b_unfrozen : TypeInterning.frozen_ (typeInterning_ T) = false;
  b_names : NameInterning.wf (nameInterning_ T);
  b_index : typeIndex_ T = TypeIndex.inserts (keys (descriptors_ T)) TypeIndex.empty;
  b_typed i c : DescriptorTable.coldAt (descriptors_ T) i = Some c → typed T c
}.

(** Room for [k] more descriptors below the 32-bit sentinels. *)
Definition room (k : N) (T : tables) : Prop :=
  DescriptorTable.size (descriptors_ T) + k < kInvalidDescriptorId ∧
  TypeInterning.size (typeInterning_ T) + 2 * k < kInvalidTypeId ∧
  NameInterning.size (nameInterning_ T) + k < kThreadLocalSentinel.

(** Interned strings keep their ids. *)
Record grows (T T' : tables) : Prop := {
  g_types i m : TypeInterning.nameOf (typeInterning_ T) i = Some m →
    TypeInterning.nameOf (typeInterning_ T') i = Some m;
  g_names i m : NameInterning.nameOf (nameInterning_ T) i = Some m →
    NameInterning.nameOf (nameInterning_ T') i = Some m
}.

(** The size conditions that [room] leaves. *)
Ltac small :=
  unfold room, kInvalidTypeId, kInvalidDescriptorId, two32 in *; simpl in *; lia.

Lemma grows_refl T : grows T T.
Proof. by split. Qed.

Lemma grows_trans T1 T2 T3 : grows T1 T2 → grows T2 T3 → grows T1 T3.
Proof. intros [] []; split; eauto. Qed.

#[export] Instance grows_preorder : PreOrder grows.
Proof. split; [exact grows_refl|exact grows_trans]. Qed.

Lemma typed_grows T T' c : grows T T' → typed T c → typed T' c.
Proof. intros [Ht Hn] ([] & [] & []). split_and!; eauto. Qed.

Lemma no_tables_built : built no_tables.
Proof.
  split; try done; [apply TypeInterning.types_wf_empty|apply NameInterning.names_wf_empty|].
  intros i c H. apply vat_lt in H. unfold nlen in H; simpl in H. lia.
Qed.

Lemma keys_snoc d c D :
  keys (DescriptorTable.append d c D).2 =
    keys D ++ [(exposedType c, name c, nlen (DescriptorTable.coldEntries_ D))].
Proof. unfold keys; simpl. by rewrite imap_app; simpl; rewrite Nat.add_0_r. Qed.

Lemma inserts_snoc ops ty n d T :
  TypeIndex.inserts (ops ++ [(ty, n, d)]) T =
    TypeIndex.insertCandidate ty n d (TypeIndex.inserts ops T).
Proof. unfold TypeIndex.inserts. by rewrite foldl_app. Qed.

(** ** The operations on the tables *)

Lemma internByName_spec n g T :
  built T → TypeInterning.size (typeInterning_ T) < two32 →
  ∃ id ti, internByName n g T = (Ok id, set_typeInterning ti T) ∧
    built (set_typeInterning ti T) ∧ grows T (set_typeInterning ti T) ∧
    TypeInterning.nameOf ti id = Some n ∧
    TypeInterning.size ti ≤ TypeInterning.size (typeInterning_ T) + 1.
Proof.
  intros [H1 H2 H3 H4 H5 H6] Hsz.
  pose proof (TypeInterning.intern_type_reads n g _ H2 Hsz) as (Hn & Hold & Hs).
  pose proof (TypeInterning.type_intern_wf _ n g H2 Hsz) as Hwf.
  pose proof (TypeInterning.intern_frozen (typeInterning_ T) n g) as Hf.
  unfold internByName.
  destruct (TypeInterning.internByName n g (typeInterning_ T)) as [id ti]; simpl in *.
  assert (grows T (set_typeInterning ti T)) as Hg by by split.
  exists id, ti. split_and!; [done| |done|done|lia].
  split; try done; simpl; [congruence|]. intros i c Hc. by eapply typed_grows, H6.
Qed.

Lemma intern_spec n T :
  built T → NameInterning.size (nameInterning_ T) < kThreadLocalSentinel - 1 →
  ∃ id ni, intern n T = (Ok id, set_nameInterning ni T) ∧
    built (set_nameInterning ni T) ∧ grows T (set_nameInterning ni T) ∧
    NameInterning.nameOf ni id = Some n ∧
    NameInterning.size ni ≤ NameInterning.size (nameInterning_ T) + 1.
Proof.
  intros [H1 H2 H3 H4 H5 H6] Hsz.
  pose proof (NameInterning.intern_reads n _ H4 Hsz) as [Hn _].
  pose proof (NameInterning.name_intern_wf n _ H4 Hsz) as Hwf.
  pose proof (NameInterning.intern_size n (nameInterning_ T)) as Hs.
  pose proof (λ i, NameInterning.intern_stable n (nameInterning_ T) i H4) as Hold.
  unfold intern. destruct (NameInterning.intern n (nameInterning_ T)) as [id ni]; simpl in *.
  assert (grows T (set_nameInterning ni T)) as Hg.
  { split; simpl; [done|]. intros i m Hi. rewrite Hold; congruence. }
  exists id, ni. split_and!; [done| |done|done|lia].
  split; try done. intros i c Hc. by eapply typed_grows, H6.
Qed.

(** The tables with one more descriptor. *)
Record added (d : Descriptor) (c : DescriptorCold) (T T' : tables) : Prop := {
  a_types : typeInterning_ T' = typeInterning_ T;
  a_names : nameInterning_ T' = nameInterning_ T;
  a_size : DescriptorTable.size (descriptors_ T') = DescriptorTable.size (descriptors_ T) + 1;
  a_at i : DescriptorTable.at_ (descriptors_ T') i =
    if decide (i = DescriptorTable.size (descriptors_ T)) then Some d
    else DescriptorTable.at_ (descriptors_ T) i;
  a_cold i : DescriptorTable.coldAt (descriptors_ T') i =
    if decide (i = DescriptorTable.size (descriptors_ T)) then Some c
    else DescriptorTable.coldAt (descriptors_ T) i
}.

Lemma added_grows d c T T' : added d c T T' → grows T T'.
Proof. intros [Ht Hn _ _ _]. split; intros i m; by rewrite ?Ht, ?Hn. Qed.

Definition linked_to (p : bool) (id : DescriptorId) (d : Descriptor) : Descriptor :=
  if p then set_primaryDescriptor id d else d.

Lemma add_descriptor_spec p d c T :
  built T → DescriptorTable.size (descriptors_ T) < two32 → typed T c →
  ∃ T', add_descriptor p d c T = (Ok (DescriptorTable.size (descriptors_ T)), T') ∧
    built T' ∧ added (linked_to p (DescriptorTable.size (descriptors_ T)) d) c T T'.
Proof.
  intros [H1 H2 H3 H4 H5 H6] Hr Hc.
  set (n := DescriptorTable.size (descriptors_ T)) in *.
  assert (u32 (nlen (DescriptorTable.entries_ (descriptors_ T))) = n) as Hn.
  { by apply u32_small. }
  pose proof (DescriptorTable.append_wf d c _ H1) as Hwf.
  pose proof (DescriptorTable.wf_cold _ H1) as Hcold.
  change (nlen (DescriptorTable.entries_ (descriptors_ T))) with n in Hcold.
  set (D0 := (DescriptorTable.append d c (descriptors_ T)).2) in *.
  assert (∃ D, (if p then DescriptorTable.atMutable n (set_primaryDescriptor n) D0 else Some D0)
      = Some D ∧ DescriptorTable.wf D ∧
      DescriptorTable.coldEntries_ D = DescriptorTable.coldEntries_ D0 ∧
      DescriptorTable.size D = n + 1 ∧
      ∀ i, DescriptorTable.at_ D i = if decide (i = n) then Some (linked_to p n d)
             else DescriptorTable.at_ (descriptors_ T) i) as (D & HD & HDwf & HDc & HDs & HDat).
  { unfold DescriptorTable.at_, DescriptorTable.atMutable, linked_to.
    assert (∀ i, vat (DescriptorTable.entries_ D0) i = if decide (i = n) then Some d
      else vat (DescriptorTable.entries_ (descriptors_ T)) i) as Hat.
    { intros i. apply (vat_snoc (DescriptorTable.entries_ (descriptors_ T)) d i). }
    assert (nlen (DescriptorTable.entries_ D0) = n + 1) as Hl.
    { apply (nlen_snoc (DescriptorTable.entries_ (descriptors_ T)) d). }
    destruct p; [|by exists D0].
    rewrite Hat, decide_True by done. eexists; split_and!; [done| |done| |].
    - eapply (DescriptorTable.atMutable_wf n (set_primaryDescriptor n)); [done|exact Hwf|].
      unfold DescriptorTable.atMutable. by rewrite Hat, decide_True.
    - unfold DescriptorTable.size; cbn [DescriptorTable.entries_]. by rewrite nlen_vset.
    - intros i; cbn [DescriptorTable.entries_]. rewrite vat_vset by (rewrite Hl; lia). rewrite Hat. by case_decide. }
  unfold add_descriptor. change (DescriptorTable.append d c (descriptors_ T)) with
    (u32 (nlen (DescriptorTable.entries_ (descriptors_ T))), D0). cbv beta iota.
  rewrite Hn, HD. eexists. split; [done|]. set (T' := {| descriptors_ := D |}).
  assert (added (linked_to p n d) c T T') as Ha.
  { split; try done. intros i. change (vat (DescriptorTable.coldEntries_ D) i =
      if decide (i = n) then Some c else vat (DescriptorTable.coldEntries_ (descriptors_ T)) i).
    rewrite HDc, <-Hcold. apply vat_snoc. }
  split; [|done]. split; try done; simpl.
  - unfold keys. rewrite HDc. change (imap _ (DescriptorTable.coldEntries_ D0)) with (keys D0).
    unfold D0. rewrite keys_snoc, Hcold, inserts_snoc. by rewrite H5.
  - intros i c' Hc'. eapply typed_grows; [by eapply added_grows|].
    rewrite (a_cold _ _ _ _ Ha) in Hc'. case_decide; [by simplify_eq|by eapply H6].
Qed.

(** ** Phase 1 *)

Definition entry_of (i : DescriptorId) (cd : ContributedDescriptor) : Descriptor :=
  linked_to (negb (cd_isExposedAlias cd)) i (hot_of cd).

(** Descriptor [i] is the translation of [cd]; [f] is its factory link. *)
Definition cold_translates (T : tables) (cd : ContributedDescriptor) (f : DescriptorId)
    (c : DescriptorCold) : Prop :=
  ∃ e k n, c = set_factoryMethodDescriptor f (cold_of cd e k n) ∧
    TypeInterning.nameOf (typeInterning_ T) e = Some (cd_exposedTypeName cd) ∧
    TypeInterning.nameOf (typeInterning_ T) k = Some (cd_concreteTypeName cd) ∧
    NameInterning.nameOf (nameInterning_ T) n = Some (cd_beanName cd).

Definition merged_at (T : tables) (i : DescriptorId) (cd : ContributedDescriptor) : Prop :=
  DescriptorTable.at_ (descriptors_ T) i = Some (entry_of i cd) ∧
  ∃ c, DescriptorTable.coldAt (descriptors_ T) i = Some c ∧
       cold_translates T cd kInvalidDescriptorId c.

Section merge.
(** The tables [start()] finds: a session binding made before the start has a
    descriptor already. *)
Context (T0 : tables).

Let base := DescriptorTable.size (descriptors_ T0).

(** The identities a contribution refers to. *)
Definition factory_ref (cd : ContributedDescriptor) : option Identity :=
  if cd_factoryMethodIdentity cd =? kNoFactoryMethod then None
  else Some (cd_factoryMethodIdentity cd).

Definition alias_ref (cd : ContributedDescriptor) : option Identity :=
  if cd_isExposedAlias cd && negb (cd_aliasOfPrimaryIdentity cd =? kNoFactoryMethod)
  then Some (cd_aliasOfPrimaryIdentity cd) else None.

Definition links_by (g : ContributedDescriptor → option Identity)
    (seen : list ContributedDescriptor) : list (DescriptorId * Identity) :=
  imap pair seen ≫= λ ix,
    match g ix.2 with Some k => [(base + N.of_nat ix.1, k)] | None => [] end.

(** The descriptors of [T0] are those of [T]. *)
Definition keeps_old (T : tables) : Prop :=
  ∀ i, i < base →
    DescriptorTable.at_ (descriptors_ T) i = DescriptorTable.at_ (descriptors_ T0) i ∧
    DescriptorTable.coldAt (descriptors_ T) i = DescriptorTable.coldAt (descriptors_ T0) i.

(** The tables after the contributions [seen], all of distinct identities. *)
Record merged (seen : list ContributedDescriptor) (T : tables) (L : links) : Prop := {
  m_built : built T;
  m_grows : grows T0 T;
  m_old : keeps_old T;
  m_size : DescriptorTable.size (descriptors_ T) = base + nlen seen;
  m_at i cd : vat seen i = Some cd → merged_at T (base + i) cd;
  m_identity k id : identityMap L !! k = Some id ↔
    ∃ i cd, id = base + i ∧ vat seen i = Some cd ∧ cd_identity cd = k;
  m_factory : factoryLinks L = links_by factory_ref seen;
  m_alias : aliasLinks L = links_by alias_ref seen
}.

Lemma merged_nil : built T0 → merged [] T0 no_links.
Proof.
  intros Hb. split; try done.
  - unfold nlen; simpl. lia.
  - intros i cd. by rewrite vat_nil.
  - intros k i. simpl. rewrite lookup_empty. split; [done|].
    intros (j & cd & _ & Hj & _). by rewrite vat_nil in Hj.
Qed.

Lemma cold_translates_grows T T' cd f c :
  grows T T' → cold_translates T cd f c → cold_translates T' cd f c.
Proof.
  intros [Ht Hn] (e & k & n & -> & H1 & H2 & H3). exists e, k, n. split_and!; eauto.
Qed.

Lemma imap_pair_snoc {A} (l : list A) x : imap pair (l ++ [x]) = imap pair l ++ [(length l, x)].
Proof. rewrite imap_app. simpl. by rewrite Nat.add_0_r. Qed.

Lemma links_snoc seen cd L : factoryLinks L = links_by factory_ref seen →
  aliasLinks L = links_by alias_ref seen →
  factoryLinks (add_links cd (base + nlen seen) L) = links_by factory_ref (seen ++ [cd]) ∧
  aliasLinks (add_links cd (base + nlen seen) L) = links_by alias_ref (seen ++ [cd]).
Proof.
  intros Hf Ha. unfold add_links; simpl. rewrite Hf, Ha. unfold links_by.
  rewrite !imap_pair_snoc, !bind_app, !bind_singleton. simpl.
  unfold factory_ref, alias_ref. split; f_equal; by case_match.
Qed.

(** One more descriptor after those of [T0] and [seen]. *)
Lemma added_old d c T T' : added d c T T' → keeps_old T →
  base ≤ DescriptorTable.size (descriptors_ T) → keeps_old T'.
Proof.
  intros Hadd Hold Hs i Hi. rewrite (a_at _ _ _ _ Hadd), (a_cold _ _ _ _ Hadd).
  rewrite !decide_False by lia. by apply Hold.
Qed.

Lemma merge_new_spec cd seen T L k : merged seen T L → room (k + 1) T →
  identityMap L !! cd_identity cd = None →
  ∃ T', merge_new cd L T = (Ok (add_links cd (base + nlen seen) L), T') ∧
    merged (seen ++ [cd]) T' (add_links cd (base + nlen seen) L) ∧ room k T'.
Proof.
  intros [Hb Hg0 Hold Hs Hat Hid Hf Ha] Hr Hnew.
  destruct (internByName_spec (cd_exposedTypeName cd) (cd_exposedTypeInfo cd) T)
    as (e & t1 & E1 & Hb1 & Hg1 & He & Hs1); [done|small|].
  destruct (internByName_spec (cd_concreteTypeName cd) (cd_concreteTypeInfo cd)
    (set_typeInterning t1 T)) as (c & t2 & E2 & Hb2 & Hg2 & Hc & Hs2); [done|small|].
  destruct (intern_spec (cd_beanName cd) (set_typeInterning t2 (set_typeInterning t1 T)))
    as (n & n3 & E3 & Hb3 & Hg3 & Hn & Hs3); [done|small|].
  set (T3 := set_nameInterning n3 _) in *. set (c3 := cold_of cd e c n).
  assert (grows T T3) as Hg by (by do 2 (etrans; [eassumption|])).
  destruct (add_descriptor_spec (negb (cd_isExposedAlias cd)) (hot_of cd) c3 T3)
    as (T' & E4 & Hb4 & Hadd); [done|small| |].
  { split_and!; simpl; [exists (cd_exposedTypeName cd); by apply Hg2|by eexists..]. }
  assert (DescriptorTable.size (descriptors_ T3) = base + nlen seen) as Hs0 by done.
  rewrite Hs0 in *. pose proof (added_grows _ _ _ _ Hadd) as Hg4.
  exists T'. split; [|split].
  - unfold merge_new, mbind_. by rewrite E1, E2, E3; cbv beta iota; fold T3; fold c3; rewrite E4.
  - assert (∀ i, DescriptorTable.at_ (descriptors_ T') i = if decide (i = base + nlen seen)
      then Some (entry_of i cd) else DescriptorTable.at_ (descriptors_ T) i) as Hat'.
    { intros i. rewrite (a_at _ _ _ _ Hadd), Hs0. by case_decide; subst. }
    assert (∀ i, DescriptorTable.coldAt (descriptors_ T') i = if decide (i = base + nlen seen)
      then Some c3 else DescriptorTable.coldAt (descriptors_ T) i) as Hc'.
    { intros i. by rewrite (a_cold _ _ _ _ Hadd), Hs0. }
    split; [done|by do 2 (etrans; [eassumption|])| | | | | |].
    + eapply (added_old _ _ T3 T'); [done|done|lia].
    + rewrite (a_size _ _ _ _ Hadd), nlen_snoc, Hs0. lia.
    + intros i cd' [Hi|[-> ->]]%vat_snoc_inv; unfold merged_at; rewrite Hat', Hc'.
      * destruct (Hat _ _ Hi) as (Ho & c0 & Hc0 & Htr). apply vat_lt in Hi.
        rewrite !decide_False by lia. split; [done|]. exists c0. split; [done|].
        eapply cold_translates_grows; [|done]. by etrans.
      * rewrite !decide_True by done. split; [done|]. eexists; split; [done|].
        exists e, c, n. split_and!; [done|..]; apply Hg4; simpl; [by apply Hg2|done|done].
    + intros k' id. simpl. destruct (decide (k' = cd_identity cd)) as [->|Hk].
      * rewrite lookup_insert_eq. split.
        { intros [= <-]. exists (nlen seen), cd. split_and!; [done|apply vat_snoc_eq|done]. }
        intros (i & cd' & -> & [Hi|[-> ->]]%vat_snoc_inv & Hk'); [|done].
        assert (identityMap L !! cd_identity cd = Some (base + i)) by (apply Hid; eauto).
        congruence.
      * rewrite lookup_insert_ne, Hid by done. split; intros (i & cd' & -> & Hi & Hk').
        { exists i, cd'. split_and!; [done|by apply vat_app_Some|done]. }
        apply vat_snoc_inv in Hi as [Hi|[-> ->]]; [by eauto|done].
    + by apply links_snoc.
    + by apply links_snoc.
  - unfold room in *. rewrite (a_size _ _ _ _ Hadd), (a_types _ _ _ _ Hadd), (a_names _ _ _ _ Hadd).
    unfold T3; simpl. simpl in Hs2, Hs3. lia.
Qed.

(** The key fields a repeated identity must agree on. *)
Definition same_key (cd cd' : ContributedDescriptor) : Prop :=
  cd_exposedTypeName cd = cd_exposedTypeName cd' ∧ cd_beanName cd = cd_beanName cd' ∧
  cd_lifetime cd = cd_lifetime cd'.

#[export] Instance same_key_dec : RelDecision same_key.
Proof. intros cd cd'. unfold same_key. apply _. Defined.

Definition knows (seen : list ContributedDescriptor) (k : Identity) : bool :=
  existsb (λ cd, cd_identity cd =? k) seen.

(** The first contribution of each identity, in order. *)
Fixpoint distinct (seen cds : list ContributedDescriptor) : list ContributedDescriptor :=
  match cds with
  | [] => seen
  | cd :: cds' =>
      if knows seen (cd_identity cd) then distinct seen cds' else distinct (seen ++ [cd]) cds'
  end.

Definition is_config (e : exn) : Prop := ∃ m, e = ConfigurationError m.

Lemma knows_spec seen k :
  knows seen k = true ↔ ∃ cd, cd ∈ seen ∧ cd_identity cd = k.
Proof.
  unfold knows. rewrite existsb_exists. split; intros (cd & H1 & H2); exists cd.
  - split; [by apply list_elem_of_In|by apply N.eqb_eq].
  - split; [by apply list_elem_of_In|by apply N.eqb_eq].
Qed.

Lemma merged_known seen T L k : merged seen T L →
  knows seen k = bool_decide (is_Some (identityMap L !! k)).
Proof.
  intros H. apply eq_bool_prop_intro. rewrite bool_decide_spec, Is_true_true, knows_spec.
  split.
  - intros (cd & [i Hi]%vat_elem & Hk). exists (base + i). apply (m_identity _ _ _ H); eauto.
  - intros [id (i & cd & -> & Hi & Hk)%(m_identity _ _ _ H)]. exists cd. rewrite vat_elem. eauto.
Qed.

Lemma merged_identity seen T L i j cd cd' : merged seen T L →
  vat seen i = Some cd → vat seen j = Some cd' → cd_identity cd = cd_identity cd' → i = j.
Proof.
  intros H Hi Hj Hk.
  assert (identityMap L !! cd_identity cd = Some (base + i)) by (apply (m_identity _ _ _ H); eauto).
  assert (identityMap L !! cd_identity cd = Some (base + j)) by (apply (m_identity _ _ _ H); eauto).
  simplify_eq. lia.
Qed.

(** A repeated identity is compared with its first contribution. *)
Lemma check_duplicate_run cd cd' i seen T L : merged seen T L → vat seen i = Some cd' →
  ∃ e, is_config e ∧
    check_duplicate cd (base + i) T = (if decide (same_key cd' cd) then Ok tt else Throw e, T).
Proof.
  intros H Hi. destruct (m_at _ _ _ H _ _ Hi) as (Hat & c & Hc & e & k & n & -> & He & _ & Hn).
  exists (collision_error cd (cd_exposedTypeName cd')). split; [by eexists|].
  unfold check_duplicate, mbind_, mget. rewrite Hat, Hc; cbn [mlift mreturn].
  cbn [exposedType name cold_of set_factoryMethodDescriptor]. rewrite He; cbn [mlift mreturn].
  unfold mreturn at 1. cbn [mlift]. rewrite Hn. unfold mlift, mreturn.
  assert (lifetime (entry_of (base + i) cd') = cd_lifetime cd') as -> by by destruct (cd_isExposedAlias cd') eqn:E; unfold entry_of; rewrite E.
  destruct (decide (same_key cd' cd)) as [(-> & -> & ->)|Hne].
  - by rewrite !bool_decide_eq_false_2 by tauto.
  - case_match eqn:Hb; [done|]. destruct Hne.
    rewrite !orb_false_iff, !bool_decide_eq_false in Hb.
    destruct Hb as [[H1 H2] H3]. by split_and!; apply dec_stable.
Qed.

Lemma distinct_known seen cds : ∀ cd, cd ∈ seen → cd ∈ distinct seen cds.
Proof.
  revert seen. induction cds as [|cd0 cds IH]; intros seen cd Hcd; simpl; [done|].
  destruct (knows seen _); apply IH; [done|]. apply elem_of_app; by left.
Qed.

Lemma distinct_from seen cds : ∀ cd, cd ∈ distinct seen cds → cd ∈ seen ++ cds.
Proof.
  revert seen. induction cds as [|cd0 cds IH]; intros seen cd Hcd; simpl in *.
  { by rewrite app_nil_r. }
  destruct (knows seen _); apply IH in Hcd; set_solver.
Qed.

Lemma merge_one_spec cd seen T L k : merged seen T L → room (k + 1) T →
  ends never (merge_one cd L) T
    (λ L' T', merged (distinct seen [cd]) T' L' ∧ room k T' ∧
       ∃ cd', cd' ∈ distinct seen [cd] ∧ cd_identity cd' = cd_identity cd ∧ same_key cd' cd)
    (λ e T', is_config e ∧ ∃ cd', cd' ∈ seen ∧ cd_identity cd' = cd_identity cd ∧
       ¬ same_key cd' cd).
Proof.
  intros H Hr. unfold merge_one, distinct. rewrite (merged_known _ _ _ _ H).
  destruct (identityMap L !! cd_identity cd) as [id|] eqn:Hi.
  - rewrite bool_decide_eq_true_2 by by eexists.
    apply (m_identity _ _ _ H) in Hi as (i & cd' & -> & Hi & Hk).
    destruct (check_duplicate_run cd cd' i seen T L H Hi) as (e & He & Hrun).
    unfold ends, mbind_. rewrite Hrun.
    assert (cd' ∈ seen) as Hin by (apply vat_elem; eauto).
    case_decide as Hs; [|naive_solver].
    split; [done|]. split; [small|by exists cd'].
  - rewrite bool_decide_eq_false_2 by by intros [].
    destruct (merge_new_spec cd seen T L k H Hr Hi) as (T' & Hrun & HT' & Hr').
    unfold ends. rewrite Hrun. split_and!; [done|done|]. exists cd.
    split_and!; [set_solver|done|by split_and!].
Qed.

(** The key fields agree wherever an identity is repeated. *)
Definition consistent (cds : list ContributedDescriptor) : Prop :=
  ∀ cd cd', cd ∈ cds → cd' ∈ cds → cd_identity cd = cd_identity cd' → same_key cd cd'.

Lemma merge_all_spec cds : ∀ seen T L k, merged seen T L → room (k + nlen cds) T →
  ends never (mfold merge_one cds L) T
    (λ L' T', merged (distinct seen cds) T' L' ∧ room k T' ∧
       ∀ cd, cd ∈ cds → ∃ cd', cd' ∈ distinct seen cds ∧ cd_identity cd' = cd_identity cd ∧
         same_key cd' cd)
    (λ e T', is_config e ∧ ¬ consistent (seen ++ cds)).
Proof.
  induction cds as [|cd cds IH]; intros seen T L k H Hr; rewrite ends_fold.
  { split_and!; [done| |by intros cd ?%not_elem_of_nil].
    by rewrite N.add_0_r in Hr. }
  eapply ends_mono; [apply (merge_one_spec cd seen T L (k + nlen cds) H)| |].
  { replace (k + nlen cds + 1) with (k + nlen (cd :: cds)); [done|].
    unfold nlen; simpl. lia. }
  - intros L' T' (H' & Hr' & cd' & Hin & Hk & Hs). eapply ends_mono; [by apply IH| |].
    + intros L'' T'' (H'' & Hr'' & Hall).
      assert (distinct (distinct seen [cd]) cds = distinct seen (cd :: cds)) as Hd
        by (simpl; by destruct (knows seen _)).
      rewrite Hd in *. split_and!; [done..|]. intros cd0 [->|Hin0]%elem_of_cons; [|by apply Hall].
      exists cd'. split; [|done]. rewrite <-Hd. by apply distinct_known.
    + intros e T'' [He Hc]. split; [done|]. intros Hc'. apply Hc. intros c1 c2 H1 H2.
      apply Hc'; [apply elem_of_app in H1 as [H1|H1]|apply elem_of_app in H2 as [H2|H2]].
      * apply distinct_from in H1. set_solver.
      * set_solver.
      * apply distinct_from in H2. set_solver.
      * set_solver.
  - intros e T' (He & cd' & Hin & Hk & Hs). split; [done|]. intros Hc. apply Hs, Hc; set_solver.
Qed.

Lemma merged_consistent cds T L : merged (distinct [] cds) T L →
  (∀ cd, cd ∈ cds → ∃ cd', cd' ∈ distinct [] cds ∧ cd_identity cd' = cd_identity cd ∧
     same_key cd' cd) →
  consistent cds.
Proof.
  intros H Hall c1 c2 H1 H2 Hk.
  destruct (Hall c1 H1) as (d1 & [i Hi]%vat_elem & Hk1 & S1).
  destruct (Hall c2 H2) as (d2 & [j Hj]%vat_elem & Hk2 & S2).
  assert (i = j) as -> by (eapply merged_identity; [exact H|exact Hi|exact Hj|congruence]).
  simplify_eq. destruct S1 as (? & ? & ?), S2 as (? & ? & ?). split_and!; congruence.
Qed.

(** ** Phase 1.5 *)

(** The key of a candidate: type name, bean name and priority. *)
Definition bean_key : Type := string * string * Z.

Definition key_at (T : tables) (i : DescriptorId) (k : bean_key) : Prop :=
  ∃ x c, DescriptorTable.at_ (descriptors_ T) i = Some x ∧
    DescriptorTable.coldAt (descriptors_ T) i = Some c ∧
    TypeInterning.nameOf (typeInterning_ T) (exposedType c) = Some k.1.1 ∧
    NameInterning.nameOf (nameInterning_ T) (name c) = Some k.1.2 ∧ priority x = k.2.

Lemma type_name_inj ti i j n : TypeInterning.wf ti →
  TypeInterning.nameOf ti i = Some n → TypeInterning.nameOf ti j = Some n → i = j.
Proof. intros H H1%(TypeInterning.wf_bij _ H) H2%(TypeInterning.wf_bij _ H). congruence. Qed.

Lemma bean_name_inj ni i j n : NameInterning.wf ni →
  NameInterning.nameOf ni i = Some n → NameInterning.nameOf ni j = Some n → i = j.
Proof.
  intros H H1 H2. apply NameInterning.nameOf_lookup in H1; [|done].
  apply NameInterning.nameOf_lookup in H2; [|done]. congruence.
Qed.

Lemma candidateKeyExists_spec T ty nm prio tn ns : built T →
  TypeInterning.nameOf (typeInterning_ T) ty = Some tn →
  NameInterning.nameOf (nameInterning_ T) nm = Some ns →
  candidateKeyExists (descriptors_ T) ty nm prio = true ↔ ∃ i, key_at T i (tn, ns, prio).
Proof.
  intros Hb Ht Hn. unfold candidateKeyExists. rewrite existsb_exists. split.
  - intros ((x & c) & Hin%list_elem_of_In & Heq).
    apply list_elem_of_lookup in Hin as [i Hi].
    apply lookup_zip_Some in Hi as [Hx Hc]. simpl in Heq.
    rewrite !andb_true_iff, !N.eqb_eq, Z.eqb_eq in Heq. destruct Heq as ((<- & <-) & <-).
    exists (N.of_nat i), x, c. unfold DescriptorTable.at_, DescriptorTable.coldAt.
    by rewrite !vat_lookup, Nat2N.id.
  - intros (i & x & c & Hx & Hc & Htn & Hnn & Hp). simpl in *. exists (x, c). split.
    + apply list_elem_of_In, list_elem_of_lookup. exists (N.to_nat i).
      apply lookup_zip_Some. by rewrite <-!vat_lookup.
    + simpl. rewrite (type_name_inj _ _ ty _ (b_types _ Hb) Htn Ht).
      rewrite (bean_name_inj _ _ nm _ (b_names _ Hb) Hnn Hn).
      by rewrite !N.eqb_refl, (proj2 (Z.eqb_eq _ _) Hp).
Qed.

Section bind.
Context (noop : FnPtr).

Definition bound_at (T : tables) (i : DescriptorId) (pb : PendingRuntimeSingleton) : Prop :=
  DescriptorTable.at_ (descriptors_ T) i =
    Some (set_primaryDescriptor i (runtime_hot (p_priority pb))) ∧
  ∃ ty, DescriptorTable.coldAt (descriptors_ T) i = Some (bound_cold noop pb ty) ∧
        TypeInterning.nameOf (typeInterning_ T) ty = Some (p_typeName pb).

(** Their names were interned by [bindSingleton]. *)
Definition pb_known (pb : PendingRuntimeSingleton) : Prop :=
  is_Some (NameInterning.nameOf (nameInterning_ T0) (p_nameId pb)).

Definition cd_key (cd : ContributedDescriptor) : bean_key :=
  (cd_exposedTypeName cd, cd_beanName cd, cd_priority cd).

Definition pb_key (pb : PendingRuntimeSingleton) : bean_key :=
  (p_typeName pb, default ""%string (NameInterning.nameOf (nameInterning_ T0) (p_nameId pb)),
   p_priority pb).

Definition taken (seen : list ContributedDescriptor) (bs : list PendingRuntimeSingleton)
    (k : bean_key) : Prop :=
  (∃ i, key_at T0 i k) ∨ k ∈ cd_key <$> seen ∨ k ∈ pb_key <$> bs.

(** The tables and the list of bound instances after the bindings [bs]. *)
Record assembled (seen : list ContributedDescriptor) (bs : list PendingRuntimeSingleton)
    (bound : list StartBound) (T : tables) : Prop := {
  as_built : built T;
  as_grows : grows T0 T;
  as_old : keeps_old T;
  as_size : DescriptorTable.size (descriptors_ T) = base + nlen seen + nlen bs;
  as_seen i cd : vat seen i = Some cd → merged_at T (base + i) cd;
  as_bound j pb : vat bs j = Some pb → bound_at T (base + nlen seen + j) pb;
  as_length : nlen bound = nlen bs;
  as_list j b : vat bound j = Some b →
    ∃ pb, vat bs j = Some pb ∧ sb_descId b = base + nlen seen + j ∧
      sb_instance b = p_instance pb
}.

Lemma merged_assembled seen T L : merged seen T L → assembled seen [] [] T.
Proof.
  intros [Hb Hg Hold Hs Hat _ _ _]. split; try done.
  - rewrite Hs. unfold nlen at 3; simpl. lia.
  - intros j pb. by rewrite vat_nil.
  - intros j b. by rewrite vat_nil.
Qed.

Lemma key_at_lt T i k : built T → key_at T i k → i < DescriptorTable.size (descriptors_ T).
Proof. intros _ (x & c & Hx & _). by eapply vat_lt. Qed.

Lemma key_at_old T i k : built T0 → keeps_old T → grows T0 T → i < base →
  key_at T i k ↔ key_at T0 i k.
Proof.
  intros Hb0 Hold Hg Hi. destruct (Hold i Hi) as [H1 H2]. unfold key_at. rewrite H1, H2.
  split; intros (x & c & Hx & Hc & Ht & Hn & Hp); exists x, c; split_and!; try done.
  - destruct (b_typed _ Hb0 _ _ Hc) as ([m Hm] & _). by rewrite (g_types _ _ Hg _ _ Hm) in Ht; rewrite Hm.
  - destruct (b_typed _ Hb0 _ _ Hc) as (_ & _ & [m Hm]). by rewrite (g_names _ _ Hg _ _ Hm) in Hn; rewrite Hm.
  - by apply Hg.
  - by apply Hg.
Qed.

Lemma merged_key T i cd k : merged_at T i cd → key_at T i k ↔ k = cd_key cd.
Proof.
  intros (Hat & c & Hc & e & k0 & n & -> & He & _ & Hn).
  assert (priority (entry_of i cd) = cd_priority cd) as Hp.
  { unfold entry_of. by destruct (negb _). }
  split.
  - intros (x & c & Hx & Hc' & Ht & Hn' & Hp'). simplify_eq. simpl in *.
    destruct k as [[] ]; simpl in *. unfold cd_key. congruence.
  - intros ->. by exists (entry_of i cd), (set_factoryMethodDescriptor kInvalidDescriptorId (cold_of cd e k0 n)).
Qed.

Lemma bound_key T i pb k : grows T0 T → pb_known pb → bound_at T i pb →
  key_at T i k ↔ k = pb_key pb.
Proof.
  intros Hg [m Hm] (Hat & ty & Hc & Ht). unfold pb_key. rewrite Hm. simpl.
  apply (g_names _ _ Hg) in Hm as Hm'. split.
  - intros (x & c & Hx & Hc' & Ht' & Hn' & Hp'). simplify_eq. simpl in *.
    destruct k as [[] ]; simpl in *. congruence.
  - intros ->. by eexists _, _.
Qed.

Lemma assembled_taken seen bs bound T k : built T0 → Forall pb_known bs →
  assembled seen bs bound T → (∃ i, key_at T i k) ↔ taken seen bs k.
Proof.
  intros Hb0 Hbs [Hb Hg Hold Hs Hat Hbd _ _]. unfold taken. split.
  - intros [i Hk]. pose proof (key_at_lt _ _ _ Hb Hk) as Hi. rewrite Hs in Hi.
    destruct (decide (i < base)) as [Hlt|Hge]; [left; exists i; by apply (key_at_old T)|right].
    destruct (decide (i < base + nlen seen)) as [Hlt|Hge'].
    + left. destruct (proj2 (vat_is_Some seen (i - base))) as [cd Hcd]; [lia|].
      pose proof (Hat _ _ Hcd) as Hm. replace (base + (i - base)) with i in Hm by lia.
      apply (merged_key _ _ _ _ Hm) in Hk as ->. apply list_elem_of_fmap_2, vat_elem. eauto.
    + right. destruct (proj2 (vat_is_Some bs (i - base - nlen seen))) as [pb Hpb]; [lia|].
      pose proof (Hbd _ _ Hpb) as Hm.
      replace (base + nlen seen + (i - base - nlen seen)) with i in Hm by lia.
      assert (pb ∈ bs) as Hin by (apply vat_elem; eauto).
      apply (bound_key T i pb k Hg) in Hk as ->; [by apply list_elem_of_fmap_2| |done].
      by rewrite Forall_forall in Hbs; apply Hbs.
  - intros [[i Hi]|[(cd & -> & [i Hi]%vat_elem)%list_elem_of_fmap
      |(pb & -> & [j Hj]%vat_elem)%list_elem_of_fmap]].
    + exists i. apply (key_at_old T); [done..| |done]. by apply (key_at_lt T0 i k).
    + exists (base + i). by apply (merged_key _ _ cd); [apply Hat|].
    + exists (base + nlen seen + j). apply (bound_key _ _ pb); [done| |by apply Hbd|done].
      rewrite Forall_forall in Hbs. apply Hbs, vat_elem; eauto.
Qed.

Lemma bind_one_spec seen bs bound pb T k : built T0 → Forall pb_known bs → pb_known pb →
  assembled seen bs bound T → room (k + 1) T →
  ends never (bind_one noop pb bound) T
    (λ bound' T', assembled seen (bs ++ [pb]) bound' T' ∧ room k T' ∧
       ¬ taken seen bs (pb_key pb))
    (λ e T', is_config e ∧ taken seen bs (pb_key pb)).
Proof.
  intros Hb0 Hbs [ns Hns] H Hr.
  destruct (internByName_spec (p_typeName pb) (p_typeInfoGetter pb) T)
    as (ty & t1 & E1 & Hb1 & Hg1 & Hty & Hs1); [apply H|small|].
  set (T1 := set_typeInterning t1 T) in *.
  assert (assembled seen bs bound T1) as H1.
  { destruct H as [Hb Hg Hold Hs Hat Hbd Hl Hls]. split; try done; [by etrans| |].
    - intros i cd Hi. destruct (Hat _ _ Hi) as (Ha & c & Hc & Htr). split; [done|].
      exists c. split; [done|]. by eapply cold_translates_grows.
    - intros j pb' Hj. destruct (Hbd _ _ Hj) as (Ha & ty' & Hc & Hn). split; [done|].
      exists ty'. split; [done|]. by apply (g_types _ _ Hg1). }
  pose proof (as_grows _ _ _ _ H1) as Hg01. apply (g_names _ _ Hg01) in Hns as Hns1.
  pose proof (candidateKeyExists_spec T1 ty (p_nameId pb) (p_priority pb) _ _ Hb1 Hty Hns1) as Hc.
  assert (pb_key pb = (p_typeName pb, ns, p_priority pb)) as Hk.
  { unfold pb_key. by rewrite Hns. }
  rewrite <-Hk, (assembled_taken _ _ _ _ _ Hb0 Hbs H1) in Hc.
  unfold bind_one, mget. unfold ends, mbind_. rewrite E1. fold T1.
  destruct (candidateKeyExists _ _ _ _) eqn:Hex.
  { split; [by eexists|by apply Hc]. }
  destruct (add_descriptor_spec true (runtime_hot (p_priority pb)) (bound_cold noop pb ty) T1)
    as (T' & E2 & Hb2 & Hadd); [done|unfold T1; small| |].
  { split_and!; simpl; [by eexists..|]. by exists ns. }
  fold T1. rewrite E2. pose proof (added_grows _ _ _ _ Hadd) as Hg2.
  destruct H1 as [_ _ Hold Hs Hat Hbd Hl Hls].
  set (n := DescriptorTable.size (descriptors_ T1)) in *.
  unfold mreturn. split; [split|split].
  - done.
  - by etrans.
  - eapply (added_old _ _ T1 T'); [done..|]. fold n. lia.
  - rewrite (a_size _ _ _ _ Hadd), nlen_snoc. fold n. lia.
  - intros i cd Hi. destruct (Hat _ _ Hi) as (Ha & c & Hc0 & Htr). apply vat_lt in Hi.
    unfold merged_at. rewrite (a_at _ _ _ _ Hadd), (a_cold _ _ _ _ Hadd). fold n.
    rewrite !decide_False by lia. split; [done|]. exists c. split; [done|].
    by eapply cold_translates_grows.
  - intros j pb' Hj. unfold bound_at. rewrite (a_at _ _ _ _ Hadd), (a_cold _ _ _ _ Hadd).
    fold n. apply vat_snoc_inv in Hj as [Hj|[-> ->]].
    + destruct (Hbd _ _ Hj) as (Ha & ty' & Hc0 & Hn). apply vat_lt in Hj.
      rewrite !decide_False by lia. split; [done|]. exists ty'. split; [done|]. by apply Hg2.
    + rewrite !decide_True by lia. split; [by rewrite <-Hs|]. exists ty. split; [done|].
      by apply Hg2.
  - by rewrite !nlen_snoc, Hl.
  - intros j b Hj. rewrite vat_snoc in Hj. case_decide as E.
    + simplify_eq. exists pb. rewrite Hl. cbn [sb_descId sb_instance]. split_and!; [apply vat_snoc_eq|lia|done].
    + destruct (Hls _ _ Hj) as (pb' & Hp & ?). exists pb'. split; [by apply vat_app_Some|done].
  - unfold room in *. rewrite (a_size _ _ _ _ Hadd), (a_types _ _ _ _ Hadd), (a_names _ _ _ _ Hadd).
    unfold T1 in *; simpl in *. change n with (DescriptorTable.size (descriptors_ T)). lia.
  - intros Ht. apply Hc in Ht. congruence.
Qed.

Lemma bind_all_spec pbs : ∀ seen bs bound T k, built T0 →
  Forall pb_known bs → Forall pb_known pbs →
  assembled seen bs bound T → room (k + nlen pbs) T →
  ends never (mfold (bind_one noop) pbs bound) T
    (λ bound' T', assembled seen (bs ++ pbs) bound' T' ∧ room k T' ∧
       ∀ pre pb post, pbs = pre ++ pb :: post → ¬ taken seen (bs ++ pre) (pb_key pb))
    (λ e T', is_config e ∧
       ∃ pre pb post, pbs = pre ++ pb :: post ∧ taken seen (bs ++ pre) (pb_key pb)).
Proof.
  induction pbs as [|pb pbs IH]; intros seen bs bound T k Hb0 Hbs Hpbs H Hr; rewrite ends_fold.
  { rewrite app_nil_r. split_and!; [done|by rewrite N.add_0_r in Hr|]. by intros [] ? ? ?. }
  apply Forall_cons in Hpbs as [Hpb Hpbs].
  eapply ends_mono; [apply (bind_one_spec seen bs bound pb T (k + nlen pbs))| |]; try done.
  { replace (k + nlen pbs + 1) with (k + nlen (pb :: pbs)); [done|]. unfold nlen; simpl. lia. }
  - intros bound' T' (H' & Hr' & Hn). eapply ends_mono; [apply (IH seen (bs ++ [pb]))| |]; try done.
    + apply Forall_app; by split; [|apply Forall_singleton].
    + intros bound'' T''. rewrite <-(assoc_L (++)). intros (H'' & Hr'' & Hall).
      split_and!; [done..|]. intros [|pb' pre] pb0 post Heq; simplify_eq/=.
      { by rewrite app_nil_r. }
      specialize (Hall pre pb0 post eq_refl). by rewrite <-(assoc_L (++)) in Hall.
    + intros e T'' (He & pre & pb0 & post & -> & Ht). split; [done|].
      exists (pb :: pre), pb0, post. split; [done|]. by rewrite <-(assoc_L (++)) in Ht.
  - intros e T' [He Ht]. split; [done|]. exists [], pb, pbs. by rewrite app_nil_r.
Qed.

(** ** Phases 2 and 2.5 *)

(** Everything of [built] but the index. *)
Record core (T : tables) : Prop := {
  c_table : DescriptorTable.wf (descriptors_ T);
  c_types : TypeInterning.wf (typeInterning_ T);
  c_unfrozen : TypeInterning.frozen_ (typeInterning_ T) = false;
  c_names : NameInterning.wf (nameInterning_ T);
  c_typed i c : DescriptorTable.coldAt (descriptors_ T) i = Some c → typed T c
}.

Lemma built_core T : built T → core T.
Proof. by intros []. Qed.

(** Descriptor [i] is the translation of [cd] with primary [p] and factory [f]. *)
Definition slot_of (T : tables) (p f i : DescriptorId) (cd : ContributedDescriptor) : Prop :=
  DescriptorTable.at_ (descriptors_ T) i = Some (set_primaryDescriptor p (hot_of cd)) ∧
  ∃ c, DescriptorTable.coldAt (descriptors_ T) i = Some c ∧ cold_translates T cd f c.

(** [prim] and [fac]: the links of the contributions, by position. *)
Record linked (prim fac : N → ContributedDescriptor → DescriptorId)
    (seen : list ContributedDescriptor) (bs : list PendingRuntimeSingleton)
    (T : tables) : Prop := {
  k_core : core T;
  k_grows : grows T0 T;
  k_old : keeps_old T;
  k_size : DescriptorTable.size (descriptors_ T) = base + nlen seen + nlen bs;
  k_seen i cd : vat seen i = Some cd → slot_of T (prim i cd) (fac i cd) (base + i) cd;
  k_bound j pb : vat bs j = Some pb → bound_at T (base + nlen seen + j) pb
}.

Definition prim0 (i : N) (cd : ContributedDescriptor) : DescriptorId :=
  if cd_isExposedAlias cd then kInvalidDescriptorId else base + i.

Definition fac0 (i : N) (cd : ContributedDescriptor) : DescriptorId := kInvalidDescriptorId.

Lemma assembled_linked seen bs bound T :
  assembled seen bs bound T → linked prim0 fac0 seen bs T.
Proof.
  intros [Hb Hg Hold Hs Hat Hbd _ _]. split; try done; [by apply built_core|].
  intros i cd Hi. destruct (Hat _ _ Hi) as [Ha Hc]. split; [|done]. rewrite Ha.
  unfold entry_of, prim0. by destruct (cd_isExposedAlias cd).
Qed.

(** The interning tables, the index and what it was built from stay. *)
Record same_index (T T' : tables) : Prop := {
  si_types : typeInterning_ T' = typeInterning_ T;
  si_names : nameInterning_ T' = nameInterning_ T;
  si_index : typeIndex_ T' = typeIndex_ T;
  si_keys : keys (descriptors_ T') = keys (descriptors_ T)
}.

Definition relink (f : N → ContributedDescriptor → DescriptorId) (id v : DescriptorId)
    : N → ContributedDescriptor → DescriptorId :=
  λ j cd, if decide (base + j = id) then v else f j cd.

Lemma keys_cold D D' : nlen (DescriptorTable.coldEntries_ D') = nlen (DescriptorTable.coldEntries_ D) →
  (∀ i c c', DescriptorTable.coldAt D i = Some c → DescriptorTable.coldAt D' i = Some c' →
     exposedType c' = exposedType c ∧ name c' = name c) → keys D' = keys D.
Proof.
  intros Hl H. unfold keys. apply list_eq. intros i. rewrite !list_lookup_imap.
  specialize (H (N.of_nat i)). unfold DescriptorTable.coldAt in H.
  rewrite !vat_lookup, Nat2N.id in H. unfold nlen in Hl.
  destruct (DescriptorTable.coldEntries_ D !! i) as [c|] eqn:E.
  - destruct (lookup_lt_is_Some_2 (DescriptorTable.coldEntries_ D') i) as [c' E'].
    { apply lookup_lt_Some in E. lia. }
    rewrite E'. simpl. by destruct (H _ _ eq_refl E') as [-> ->].
  - rewrite (proj2 (lookup_ge_None _ _)); [done|]. apply lookup_ge_None in E. lia.
Qed.

Lemma link_factory_spec prim fac seen bs L T i cd k : linked prim fac seen bs T →
  vat seen i = Some cd →
  match identityMap L !! k with
  | Some f => ∃ T', link_factory L (base + i, k) T = (Ok tt, T') ∧
      linked prim (relink fac (base + i) f) seen bs T' ∧ same_index T T'
  | None => ∃ e, link_factory L (base + i, k) T = (Throw e, T) ∧ is_config e
  end.
Proof.
  intros [Hc Hg Hold Hs Hat Hbd] Hi. destruct (Hat _ _ Hi) as (Hx & c & Hc0 & Htr).
  unfold link_factory; cbn [fst snd]. destruct (identityMap L !! k) as [f|].
  2:{ destruct Htr as (e & k0 & n & -> & He & Hk & Hn). eexists. split; [|by eexists].
      unfold mbind_. rewrite Hc0. cbn [mlift]. unfold mreturn. simpl. by rewrite Hk. }
  destruct (DescriptorTable.coldAtMutable (base + i) (set_factoryMethodDescriptor f)
    (descriptors_ T)) as [D|] eqn:ED.
  2:{ unfold DescriptorTable.coldAtMutable in ED. unfold DescriptorTable.coldAt in Hc0.
      by rewrite Hc0 in ED. }
  pose proof (DescriptorTable.coldAtMutable_wf _ _ _ _ (c_table _ Hc) ED) as Hwf.
  unfold DescriptorTable.coldAtMutable in ED. unfold DescriptorTable.coldAt in Hc0.
  rewrite Hc0 in ED. injection ED as <-. set (D := {| DescriptorTable.entries_ := _ |}) in *.
  assert (∀ j, DescriptorTable.coldAt D j = if decide (j = base + i)
    then Some (set_factoryMethodDescriptor f c)
    else DescriptorTable.coldAt (descriptors_ T) j) as HD.
  { intros j. apply vat_vset. by eapply vat_lt. }
  eexists. split; [done|]. set (T' := set_descriptors D T).
  assert (grows T T') as Hg' by done.
  split; [split; [|exact (grows_trans _ _ _ Hg Hg')| |exact Hs| |]|split; [done|done|done|]].
  - split; [exact Hwf|apply Hc|apply Hc|apply Hc|]. intros j c'. simpl. rewrite HD. case_decide; intros Hj.
    + simplify_eq. pose proof (c_typed _ Hc _ _ Hc0) as Ht. by apply Ht.
    + by eapply Hc.
  - intros j Hj. simpl. rewrite HD, decide_False by lia. by apply Hold.
  - intros j cd' Hj. unfold slot_of, relink. simpl. rewrite HD.
    destruct (Hat _ _ Hj) as (Hx' & c' & Hc' & Htr'). split; [done|].
    destruct (decide (j = i)) as [->|Hne].
    + rewrite !decide_True by done. simplify_eq. eexists; split; [done|].
      destruct Htr as (e & k0 & n & -> & H1). by exists e, k0, n.
    + rewrite !decide_False by lia. by exists c'.
  - intros j pb Hj. unfold bound_at. simpl. rewrite HD.
    apply vat_lt in Hi. rewrite decide_False by lia. by apply Hbd.
  - apply keys_cold; [unfold D; simpl; by rewrite nlen_vset|]. intros j c1 c2 H1.
    simpl. rewrite HD. case_decide; intros; simplify_eq; [|done].
    unfold DescriptorTable.coldAt in H1. by simplify_eq.
Qed.

Lemma link_alias_spec prim fac seen bs L T i cd k : linked prim fac seen bs T →
  vat seen i = Some cd →
  match identityMap L !! k with
  | Some p => ∃ T', link_alias L (base + i, k) T = (Ok tt, T') ∧
      linked (relink prim (base + i) p) fac seen bs T' ∧ same_index T T'
  | None => ∃ e, link_alias L (base + i, k) T = (Throw e, T) ∧ is_config e
  end.
Proof.
  intros [Hc Hg Hold Hs Hat Hbd] Hi. destruct (Hat _ _ Hi) as (Hx & c & Hc0 & Htr).
  unfold link_alias; cbn [fst snd]. destruct (identityMap L !! k) as [p|].
  2:{ destruct Htr as (e & k0 & n & -> & He & Hk & Hn). eexists. split; [|by eexists].
      unfold mbind_. rewrite Hc0. cbn [mlift]. unfold mreturn. simpl. by rewrite He. }
  destruct (DescriptorTable.atMutable (base + i) (set_primaryDescriptor p)
    (descriptors_ T)) as [D|] eqn:ED.
  2:{ unfold DescriptorTable.atMutable in ED. unfold DescriptorTable.at_ in Hx.
      by rewrite Hx in ED. }
  assert (DescriptorTable.wf D) as Hwf.
  { by eapply (DescriptorTable.atMutable_wf (base + i) (set_primaryDescriptor p)), ED; [|apply Hc]. }
  unfold DescriptorTable.atMutable in ED. unfold DescriptorTable.at_ in Hx.
  rewrite Hx in ED. injection ED as <-. set (D := {| DescriptorTable.entries_ := _ |}) in *.
  assert (∀ j, DescriptorTable.at_ D j = if decide (j = base + i)
    then Some (set_primaryDescriptor p (hot_of cd))
    else DescriptorTable.at_ (descriptors_ T) j) as HD.
  { intros j. rewrite <-(vat_vset _ _ _ j (vat_lt _ _ _ Hx)). done. }
  eexists. split; [done|]. set (T' := set_descriptors D T).
  assert (grows T T') as Hg' by done.
  split; [split; [|exact (grows_trans _ _ _ Hg Hg')| | | |]|done].
  - split; [exact Hwf|apply Hc|apply Hc|apply Hc|]. apply Hc.
  - intros j Hj. simpl. rewrite HD, decide_False by lia. by apply Hold.
  - simpl. unfold DescriptorTable.size, D; cbn [DescriptorTable.entries_].
    rewrite nlen_vset. exact Hs.
  - intros j cd' Hj. unfold slot_of, relink. simpl. rewrite HD.
    destruct (Hat _ _ Hj) as (Hx' & c' & Hc' & Htr').
    destruct (decide (j = i)) as [->|Hne].
    + rewrite !decide_True by done. simplify_eq. split; [done|]. by eexists.
    + rewrite !decide_False by lia. split; [done|]. by exists c'.
  - intros j pb Hj. unfold bound_at. simpl. rewrite HD.
    apply vat_lt in Hi. rewrite decide_False by lia. by apply Hbd.
Qed.

Lemma elem_links_by g seen lk :
  lk ∈ links_by g seen ↔
  ∃ i cd, vat seen i = Some cd ∧ g cd = Some lk.2 ∧ lk.1 = base + i.
Proof.
  unfold links_by. rewrite list_elem_of_bind. split.
  - intros ([i cd] & Hlk & Hin). simpl in Hlk.
    apply elem_of_lookup_imap in Hin as (i' & cd' & Heq & Hi).
    injection Heq as <- <-. exists (N.of_nat i), cd. rewrite vat_lookup, Nat2N.id.
    destruct (g cd); [|by apply not_elem_of_nil in Hlk].
    by apply list_elem_of_singleton in Hlk as ->.
  - intros (i & cd & Hi & Hg & H1). exists (N.to_nat i, cd). split.
    + simpl. rewrite Hg, N2Nat.id, <-H1. by apply list_elem_of_singleton; destruct lk.
    + apply elem_of_lookup_imap. exists (N.to_nat i), cd. split; [done|].
      by rewrite <-vat_lookup.
Qed.

Definition resolve_link (L : links) (k : Identity) : DescriptorId :=
  default kInvalidDescriptorId (identityMap L !! k).

Fixpoint relinks (L : links) (lks : list (DescriptorId * Identity))
    (f : N → ContributedDescriptor → DescriptorId) : N → ContributedDescriptor → DescriptorId :=
  match lks with
  | [] => f
  | lk :: lks' => relinks L lks' (relink f lk.1 (resolve_link L lk.2))
  end.

Lemma relinks_none L lks j cd : ∀ f, (∀ lk, lk ∈ lks → lk.1 ≠ base + j) →
  relinks L lks f j cd = f j cd.
Proof.
  induction lks as [|lk lks IH]; intros f H; [done|]. simpl. rewrite IH by set_solver.
  unfold relink. rewrite decide_False; [done|]. intros Heq. apply (H lk); [by left|done].
Qed.

Lemma relinks_some L lks j cd k : ∀ f, (∀ lk, lk ∈ lks → lk.1 = base + j → lk.2 = k) →
  (∃ lk, lk ∈ lks ∧ lk.1 = base + j) ∨ f j cd = resolve_link L k →
  relinks L lks f j cd = resolve_link L k.
Proof.
  induction lks as [|lk lks IH]; intros f H Hor; simpl.
  { destruct Hor as [(lk & ?%not_elem_of_nil & _)|]; done. }
  apply IH; [set_solver|]. unfold relink. case_decide as Hd.
  - right. by rewrite (H lk) by (by left || done).
  - destruct Hor as [(lk' & Hin & Hlk)|Hf]; [|by right].
    apply elem_of_cons in Hin as [->|Hin]; [congruence|left; by exists lk'].
Qed.

Lemma relinks_by L g seen f j cd : vat seen j = Some cd →
  relinks L (links_by g seen) f j cd =
    match g cd with Some k => resolve_link L k | None => f j cd end.
Proof.
  intros Hj. destruct (g cd) as [k|] eqn:Hg.
  - apply relinks_some.
    + intros lk (i & cd' & Hi & Hg' & Hlk)%elem_links_by Heq.
      assert (i = j) as -> by lia. simplify_eq. congruence.
    + left. exists (base + j, k). split; [|done]. apply elem_links_by. by exists j, cd.
  - apply relinks_none. intros lk (i & cd' & Hi & Hg' & Hlk)%elem_links_by Heq.
    assert (i = j) as -> by lia. congruence.
Qed.

Lemma linked_ext prim prim' fac fac' seen bs T : linked prim fac seen bs T →
  (∀ i cd, vat seen i = Some cd → prim' i cd = prim i cd ∧ fac' i cd = fac i cd) →
  linked prim' fac' seen bs T.
Proof.
  intros [Hc Hg Hold Hs Hat Hbd] H. split; try done. intros i cd Hi.
  destruct (H _ _ Hi) as [-> ->]. by apply Hat.
Qed.

Lemma same_index_trans T1 T2 T3 : same_index T1 T2 → same_index T2 T3 → same_index T1 T3.
Proof. intros [] []. split; congruence. Qed.

Lemma same_index_refl T : same_index T T.
Proof. done. Qed.

(** The two link loops have the same shape. *)
Section loops.
Context (seen : list ContributedDescriptor) (bs : list PendingRuntimeSingleton) (L : links).
Context (loop : DescriptorId * Identity → M tables unit)
  (P : (N → ContributedDescriptor → DescriptorId) → tables → Prop).
Hypothesis loop_step : ∀ f T i cd k, P f T → vat seen i = Some cd →
  match identityMap L !! k with
  | Some v => ∃ T', loop (base + i, k) T = (Ok tt, T') ∧
      P (relink f (base + i) v) T' ∧ same_index T T'
  | None => ∃ e, loop (base + i, k) T = (Throw e, T) ∧ is_config e
  end.

Lemma link_loop lks : ∀ f T, P f T →
  (∀ lk, lk ∈ lks → ∃ i cd, vat seen i = Some cd ∧ lk.1 = base + i) →
  ends never (mfor loop lks) T
    (λ _ T', P (relinks L lks f) T' ∧ same_index T T' ∧
       ∀ lk, lk ∈ lks → is_Some (identityMap L !! lk.2))
    (λ e _, is_config e ∧ ∃ lk, lk ∈ lks ∧ identityMap L !! lk.2 = None).
Proof.
  induction lks as [|[id k] lks IH]; intros f T HP Hlks; rewrite ends_for.
  { split_and!; [done..|by intros lk ?%not_elem_of_nil]. }
  destruct (Hlks (id, k)) as (i & cd & Hi & Hid); [by left|]. simpl in Hid. subst id.
  pose proof (loop_step f T i cd k HP Hi) as Hstep.
  destruct (identityMap L !! k) as [v|] eqn:Hk.
  - destruct Hstep as (T' & E & HP' & Hsame). unfold ends at 1. rewrite E.
    assert (relink f (base + i) v = relink f (base + i) (resolve_link L k)) as Hv.
    { unfold resolve_link. by rewrite Hk. }
    rewrite Hv in HP'. eapply ends_mono; [apply (IH _ _ HP'); set_solver| |].
    + intros _ T'' (HP'' & Hsame' & Hall). split_and!; [done|by eapply same_index_trans|].
      intros lk [->|Hin]%elem_of_cons; [simpl; rewrite Hk; by eexists|by apply Hall].
    + intros e T'' (He & lk & Hin & Hnone). split; [done|]. exists lk. split; [by right|done].
  - destruct Hstep as (e & E & He). unfold ends. rewrite E. split; [done|].
    exists (base + i, k). split; [by left|done].
Qed.
End loops.

(** The links after both loops. *)
Definition prim_of (L : links) (i : N) (cd : ContributedDescriptor) : DescriptorId :=
  match alias_ref cd with Some k => resolve_link L k | None => prim0 i cd end.

Definition fac_of (L : links) (i : N) (cd : ContributedDescriptor) : DescriptorId :=
  match factory_ref cd with Some k => resolve_link L k | None => kInvalidDescriptorId end.

(** Every identity referred to is known. *)
Definition resolved_refs (g : ContributedDescriptor → option Identity)
    (seen : list ContributedDescriptor) (L : links) : Prop :=
  ∀ cd k, cd ∈ seen → g cd = Some k → is_Some (identityMap L !! k).

Lemma resolved_links g seen L :
  resolved_refs g seen L ↔ ∀ lk, lk ∈ links_by g seen → is_Some (identityMap L !! lk.2).
Proof.
  split.
  - intros H lk (i & cd & Hi & Hg & _)%elem_links_by. apply (H cd); [|done].
    apply vat_elem; eauto.
  - intros H cd k [i Hi]%vat_elem Hg. apply (H (base + i, k)), elem_links_by. by exists i, cd.
Qed.

Lemma links_known g seen lk : lk ∈ links_by g seen →
  ∃ i cd, vat seen i = Some cd ∧ lk.1 = base + i.
Proof. intros (i & cd & Hi & _ & Hlk)%elem_links_by. eauto. Qed.

Lemma unresolved_links g seen L :
  (∃ lk, lk ∈ links_by g seen ∧ identityMap L !! lk.2 = None) → ¬ resolved_refs g seen L.
Proof.
  intros (lk & Hin & Hn) H. rewrite resolved_links in H. destruct (H _ Hin). congruence.
Qed.

Lemma link_factories_spec seen bs L T : linked prim0 fac0 seen bs T →
  ends never (mfor (link_factory L) (links_by factory_ref seen)) T
    (λ _ T', linked prim0 (fac_of L) seen bs T' ∧ same_index T T' ∧
       resolved_refs factory_ref seen L)
    (λ e _, is_config e ∧ ¬ resolved_refs factory_ref seen L).
Proof.
  intros H. eapply ends_mono.
  - apply (link_loop seen L (link_factory L) (λ f T, linked prim0 f seen bs T)); [|exact H|].
    + intros f T1 i cd k H1 Hi. by apply (link_factory_spec prim0 f seen bs L T1 i cd k).
    + apply links_known.
  - intros _ T' (H' & Hsame & Hall). split_and!; [|done|by apply resolved_links].
    eapply linked_ext; [exact H'|]. intros i cd Hi. split; [done|].
    by rewrite (relinks_by L factory_ref seen fac0 i cd Hi).
  - intros e T' [He Hn]. split; [done|]. by apply unresolved_links.
Qed.

Lemma link_aliases_spec fac seen bs L T : linked prim0 fac seen bs T →
  ends never (mfor (link_alias L) (links_by alias_ref seen)) T
    (λ _ T', linked (prim_of L) fac seen bs T' ∧ same_index T T' ∧
       resolved_refs alias_ref seen L)
    (λ e _, is_config e ∧ ¬ resolved_refs alias_ref seen L).
Proof.
  intros H. eapply ends_mono.
  - apply (link_loop seen L (link_alias L) (λ f T, linked f fac seen bs T)); [|exact H|].
    + intros f T1 i cd k H1 Hi. by apply (link_alias_spec f fac seen bs L T1 i cd k).
    + apply links_known.
  - intros _ T' (H' & Hsame & Hall). split_and!; [|done|by apply resolved_links].
    eapply linked_ext; [exact H'|]. intros i cd Hi. split; [|done].
    by rewrite (relinks_by L alias_ref seen prim0 i cd Hi).
  - intros e T' [He Hn]. split; [done|]. by apply unresolved_links.
Qed.

End bind.
End merge.

End StartupFacts.
