(* ===== verification/StartupChecks.v ===== *)
(** Phases 3 to 3.75 of [start()]: the sorted index and the two validations.

    Both validations only read the tables; each is characterised by what it
    rejects. *)
From S2P Require Import Prelude Tables Interning Index Stores Startup StartupFacts.

Local Open Scope N_scope.

Module StartupChecks.
Import Startup StartupFacts.

(** ** Read-only loops *)

(** A check leaves the state alone, passes exactly when nothing is bad and throws a
    [ConfigurationError] otherwise. *)
Definition checks {S} (m : M S unit) (s : S) (bad : Prop) : Prop :=
  ends never m s (λ _ s', s' = s ∧ ¬ bad) (λ e s', s' = s ∧ is_config e ∧ bad).

Lemma checks_for {S A} (f : A → M S unit) (bad : A → Prop) l s :
  (∀ a, a ∈ l → checks (f a) s (bad a)) → checks (mfor f l) s (∃ a, a ∈ l ∧ bad a).
Proof.
  induction l as [|a l IH]; intros H; unfold checks; rewrite ends_for.
  { split; [done|]. by intros (a & ?%not_elem_of_nil & _). }
  eapply ends_mono; [apply (H a); by left| |].
  - intros _ s' [-> Hn]. eapply ends_mono; [apply IH; intros; apply H; by right| |].
    + intros _ s' [-> Hall]. split; [done|]. intros (a' & [->|Hin]%elem_of_cons & Hb); [done|].
      apply Hall. eauto.
    + intros e s' (-> & He & a' & Hin & Hb). split_and!; [done..|]. exists a'.
      split; [by right|done].
  - intros e s' (-> & He & Hb). split_and!; [done..|]. exists a. split; [by left|done].
Qed.

Lemma checks_iff {S} (m : M S unit) s (P Q : Prop) : (P ↔ Q) → checks m s P → checks m s Q.
Proof. intros HPQ H. eapply ends_mono; [exact H|naive_solver..]. Qed.

(** ** Sorted vectors and duplicates *)

Lemma adjacent_find_spec v : StronglySorted N.le v → adjacent_find v = false ↔ NoDup v.
Proof.
  induction v as [|a [|b v] IH]; intros Hs.
  - split; [constructor|done].
  - split; [intros _; apply NoDup_singleton|done].
  - apply StronglySorted_cons in Hs as [Ha Hs]. specialize (IH Hs).
    cbn [adjacent_find]. rewrite orb_false_iff, IH, (NoDup_cons a (b :: v)).
    apply StronglySorted_cons in Hs as [Hb _]. apply Forall_cons in Ha as [Hab Ha].
    rewrite N.eqb_neq. split; intros [Hne Hnd]; (split; [|done]).
    + intros [->|Hin]%elem_of_cons; [done|]. rewrite Forall_forall in Hb.
      specialize (Hb _ Hin). lia.
    + intros ->. apply Hne. by left.
Qed.

Lemma NoDup_omap_neg {A} (f : A → option N) (l : list A) : NoDup l →
  ¬ NoDup (omap f l) ↔ ∃ i j v, i ∈ l ∧ j ∈ l ∧ i ≠ j ∧ f i = Some v ∧ f j = Some v.
Proof.
  induction 1 as [|a l Hin Hnd IH].
  { split; [intros []; constructor|]. by intros (i & j & v & ?%not_elem_of_nil & _). }
  split.
  - intros H. simpl in H. destruct (f a) as [v|] eqn:Ea.
    + destruct (decide (v ∈ omap f l)) as [Hv|Hv].
      * apply list_elem_of_omap in Hv as (j & Hj & Hfj). exists a, j, v.
        split_and!; [by left|by right|by intros ->|done|done].
      * destruct (proj1 IH) as (i & j & v' & Hi & Hj & ?).
        { intros Hnd'. apply H. by apply NoDup_cons. }
        exists i, j, v'. split_and!; [by right|by right|naive_solver..].
    + destruct (proj1 IH H) as (i & j & v' & Hi & Hj & ?).
      exists i, j, v'. split_and!; [by right|by right|naive_solver..].
  - intros (i & j & v & Hi & Hj & Hne & Hfi & Hfj) H. simpl in H.
    assert (NoDup (omap f l) ∧ ∀ v', f a = Some v' → v' ∉ omap f l) as [H1 H2].
    { destruct (f a); [apply NoDup_cons in H as [? ?]; split; [done|]; by intros ? [= <-]|done]. }
    apply elem_of_cons in Hi, Hj.
    destruct Hi as [->|Hi], Hj as [->|Hj]; [done|..].
    + apply (H2 v Hfi), list_elem_of_omap. eauto.
    + apply (H2 v Hfj), list_elem_of_omap. eauto.
    + apply (proj2 IH); [|done]. by exists i, j, v.
Qed.

Lemma NoDup_fmap_filter {A B} (f : A → B) (P : A → Prop) `{∀ x, Decision (P x)} (l : list A) :
  NoDup (f <$> l) → NoDup (f <$> filter P l).
Proof.
  induction l as [|a l IH]; [done|]. rewrite fmap_cons, filter_cons.
  intros [Hn Hnd]%NoDup_cons. case_decide; [|by apply IH]. rewrite fmap_cons.
  apply NoDup_cons. split; [|by apply IH].
  intros (x & Hx & [_ Hin]%list_elem_of_filter)%list_elem_of_fmap. apply Hn.
  apply list_elem_of_fmap. eauto.
Qed.

Section checks.
Context `{SS : StdSort} (T : tables).
Hypothesis HC : core T.
Hypothesis HS : typeIndex_ T = TypeIndex.sortAllCandidates (priority_at (descriptors_ T))
                  (TypeIndex.inserts (keys (descriptors_ T)) TypeIndex.empty).

(** ** The sorted index *)

(** The candidates of a pair, in contribution order. *)
Definition of_pair (ty : TypeId) (n : NameId) : list DescriptorId :=
  TypeIndex.registered (keys (descriptors_ T)) ty n.

Lemma elem_of_pair ty n i :
  i ∈ of_pair ty n ↔
  ∃ c, DescriptorTable.coldAt (descriptors_ T) i = Some c ∧ exposedType c = ty ∧ name c = n.
Proof.
  unfold of_pair, TypeIndex.registered, DescriptorTable.coldAt. rewrite list_elem_of_fmap. split.
  - intros ([[ty' n'] i'] & -> & [Heq Hin]%list_elem_of_filter). simpl in *. simplify_eq.
    apply elem_of_lookup_imap in Hin as (j & c & Heq & Hj). simplify_eq.
    exists c. by rewrite vat_lookup, Nat2N.id.
  - intros (c & Hi & <- & <-). exists (exposedType c, name c, i). split; [done|].
    apply list_elem_of_filter. split; [done|]. apply elem_of_lookup_imap.
    exists (N.to_nat i), c. by rewrite N2Nat.id, <-vat_lookup.
Qed.

Lemma keys_ids D : (keys D).*2 = N.of_nat <$> seq 0 (length (DescriptorTable.coldEntries_ D)).
Proof.
  apply list_eq. intros i. unfold keys. rewrite !list_lookup_fmap, list_lookup_imap.
  destruct (DescriptorTable.coldEntries_ D !! i) eqn:E; simpl.
  - rewrite lookup_seq_lt; [done|]. by eapply lookup_lt_Some.
  - rewrite lookup_seq_ge; [done|]. by apply lookup_ge_None.
Qed.

Lemma of_pair_nodup ty n : NoDup (of_pair ty n).
Proof.
  unfold of_pair, TypeIndex.registered. apply NoDup_fmap_filter.
  rewrite keys_ids. apply (NoDup_fmap_2 N.of_nat), NoDup_seq.
Qed.

(** The entries of a table, and the pairs that have one. *)
Lemma sorted_keys ty m : TypeIndex.tableFor (typeIndex_ T) ty = Some m →
  TypeIndex.keys_sorted m.
Proof. rewrite HS. apply TypeIndex.sorted_wf. Qed.

Lemma find_elem (m : TypeIndex.NameTable) n e : TypeIndex.keys_sorted m →
  TypeIndex.find m n = Some e ↔ (n, e) ∈ m.
Proof.
  unfold TypeIndex.keys_sorted. induction m as [|[k e'] m IH]; simpl.
  { split; [done|by intros ?%not_elem_of_nil]. }
  intros [Hk Hs]%StronglySorted_cons. rewrite elem_of_cons. destruct (N.eqb_spec n k) as [->|Hne].
  - split; [intros [= <-]; by left|]. intros [[= <-]|Hin]; [done|].
    rewrite Forall_forall in Hk. assert (k < k); [|lia].
    apply Hk. apply list_elem_of_fmap. by exists (k, e).
  - rewrite IH by done. split; [by right|]. intros [[= <- <-]|]; done.
Qed.

Lemma entry_perm ty n e : TypeIndex.entryFor (typeIndex_ T) ty n = Some e →
  TypeIndex.candidates e ≡ₚ of_pair ty n ∧ of_pair ty n ≠ [].
Proof.
  rewrite HS. intros He.
  pose proof (TypeIndex.entryFor_registered (priority_at (descriptors_ T))
    (keys (descriptors_ T)) ty n) as H. cbv zeta in H. unfold of_pair.
  destruct (TypeIndex.registered _ ty n) eqn:E.
  - congruence.
  - destruct H as (v & Hp & _ & Hv). rewrite He in Hv. injection Hv as ->. simpl. by split.
Qed.

Lemma pair_entry ty n : of_pair ty n ≠ [] → ∃ e, TypeIndex.entryFor (typeIndex_ T) ty n = Some e.
Proof.
  rewrite HS. intros He.
  pose proof (TypeIndex.entryFor_registered (priority_at (descriptors_ T))
    (keys (descriptors_ T)) ty n) as H. cbv zeta in H.
  unfold of_pair in He.
  destruct (TypeIndex.registered _ ty n) eqn:E; [done|]. naive_solver.
Qed.

(** ** Producer methods *)

Definition producer_of (i : DescriptorId) : option DescriptorId :=
  c ← DescriptorTable.coldAt (descriptors_ T) i;
  if bool_decide (origin c = FactoryProduct)
     && negb (factoryMethodDescriptor c =? kInvalidDescriptorId)
  then Some (factoryMethodDescriptor c) else None.

Lemma factoryIds_omap cs :
  Forall (λ i, is_Some (DescriptorTable.coldAt (descriptors_ T) i)) cs →
  factoryIds (descriptors_ T) cs = Some (omap producer_of cs).
Proof.
  induction 1 as [|i cs [c Hc] _ IH]; [done|]. cbn [factoryIds]. rewrite Hc, IH.
  assert (producer_of i = if bool_decide (origin c = FactoryProduct)
     && negb (factoryMethodDescriptor c =? kInvalidDescriptorId)
     then Some (factoryMethodDescriptor c) else None) as Hp.
  { unfold producer_of. by rewrite Hc. }
  simpl. rewrite Hp. by case_match.
Qed.

(** Two candidates of the pair come from producer methods of one factory. *)
Definition clash_in (ty : TypeId) (n : NameId) : Prop :=
  ∃ i j f, i ∈ of_pair ty n ∧ j ∈ of_pair ty n ∧ i ≠ j ∧
    producer_of i = Some f ∧ producer_of j = Some f.

Lemma check_entry_spec ty n e : TypeIndex.entryFor (typeIndex_ T) ty n = Some e →
  checks (check_producers_entry ty (n, e)) T (clash_in ty n).
Proof.
  intros He. destruct (entry_perm _ _ _ He) as [Hp Hne].
  assert (Forall (λ i, is_Some (DescriptorTable.coldAt (descriptors_ T) i))
    (TypeIndex.candidates e)) as Hall.
  { rewrite Hp. apply Forall_forall. intros i (c & Hc & _)%elem_of_pair. by eexists. }
  unfold checks, ends, check_producers_entry. cbn [snd fst]. rewrite (factoryIds_omap _ Hall).
  set (ids0 := omap producer_of (TypeIndex.candidates e)).
  assert (StronglySorted N.le (std_sort N.ltb ids0)) as Hs.
  { eapply StronglySorted_weaken; [|apply (std_sort_sorted _ N.ltb), (ltb_strict_weak id)].
    intros a b. by rewrite N.ltb_ge. }
  assert (clash_in ty n ↔ ¬ NoDup (std_sort N.ltb ids0)) as Hcl.
  { rewrite (std_sort_perm _ N.ltb). unfold ids0.
    rewrite NoDup_omap_neg by (rewrite Hp; apply of_pair_nodup). unfold clash_in.
    setoid_rewrite Hp. naive_solver. }
  destruct (adjacent_find (std_sort N.ltb ids0)) eqn:Ha.
  - assert (clash_in ty n) as Hc.
    { apply Hcl. intros Hnd%adjacent_find_spec; [congruence|done]. }
    destruct Hc as (i & j & f & (c & Hci & Hty & Hn)%elem_of_pair & Hrest).
    destruct (c_typed _ HC _ _ Hci) as ([tn Htn] & _ & [nn Hnn]). rewrite Hty in Htn. rewrite Hn in Hnn.
    unfold mbind_. rewrite Htn. cbn [mlift]. unfold mreturn. rewrite Hnn. cbn [mlift].
    split_and!; [done|by eexists|]. exists i, j, f. split; [|done]. apply elem_of_pair; eauto.
  - split; [done|]. rewrite Hcl. intros Hn. apply Hn, adjacent_find_spec; done.
Qed.

Definition clash : Prop := ∃ ty n, clash_in ty n.

Lemma check_producers_spec ty : checks (check_producers ty) T (∃ n, clash_in ty n).
Proof.
  unfold check_producers. destruct (TypeIndex.tableFor (typeIndex_ T) ty) as [m|] eqn:Hm.
  2:{ unfold checks, ends. rewrite Hm. split; [done|].
      intros (n & i & _ & _ & Hi & _). destruct (pair_entry ty n) as [e He].
      { intros Hnil. rewrite Hnil in Hi. by apply not_elem_of_nil in Hi. }
      unfold TypeIndex.entryFor in He. unfold TypeIndex.tableFor in Hm. by rewrite Hm in He. }
  pose proof (sorted_keys _ _ Hm) as Hks.
  assert (∀ n e, (n, e) ∈ m ↔ TypeIndex.entryFor (typeIndex_ T) ty n = Some e) as Hent.
  { intros n e. unfold TypeIndex.entryFor. unfold TypeIndex.tableFor in Hm. rewrite Hm.
    simpl. by rewrite find_elem. }
  unfold checks, ends. rewrite Hm. apply (checks_iff _ _ (∃ ne, ne ∈ m ∧ clash_in ty ne.1)).
  - split; [intros ([n e] & _ & H); eauto|]. intros (n & H).
    destruct (pair_entry ty n) as [e He]; [|exists (n, e); by rewrite Hent].
    destruct H as (i & _ & _ & Hi & _). intros Hnil. rewrite Hnil in Hi.
    by apply not_elem_of_nil in Hi.
  - apply checks_for. intros [n e] Hin. apply check_entry_spec. by apply Hent.
Qed.

Lemma elem_ids n i : i ∈ ids n ↔ i < n.
Proof.
  unfold ids. rewrite list_elem_of_fmap. split.
  - intros (j & -> & Hj%elem_of_seq). lia.
  - intros Hi. exists (N.to_nat i). split; [lia|]. apply elem_of_seq. lia.
Qed.

Lemma check_all_producers_spec :
  checks (mfor check_producers (ids (TypeInterning.size (typeInterning_ T)))) T clash.
Proof.
  eapply checks_iff; [|apply checks_for; intros ty _; apply check_producers_spec].
  unfold clash. split; [intros (ty & _ & n & H); eauto|].
  intros (ty & n & H). exists ty. split; [|by exists n]. apply elem_ids.
  destruct H as (i & _ & _ & (c & Hc & <- & _)%elem_of_pair & _).
  destruct (c_typed _ HC _ _ Hc) as ([tn Htn] & _). by eapply TypeInterning.nameOf_lt.
Qed.

(** ** Session injection *)

(** A parameter whose annotation contradicts the lifetime of what it injects. *)
Definition misannotated (consumer : Lifetime) (p : ContributedParamDescriptor) : Prop :=
  ∃ d x, injected T p = Some d ∧ DescriptorTable.at_ (descriptors_ T) d = Some x ∧
    if hasScopedAnnotation p then lifetime x ≠ Session
    else lifetime x = Session ∧ consumer ≠ Session.

Lemma injected_valid p d : injected T p = Some d →
  d < DescriptorTable.size (descriptors_ T).
Proof.
  unfold injected. case_match; [done|]. case_match; [done|].
  unfold TypeIndex.candidatesFor.
  match goal with |- context [TypeIndex.entryFor _ ?ty ?n] =>
    destruct (TypeIndex.entryFor (typeIndex_ T) ty n) as [e|] eqn:He end; [|done].
  simpl. destruct (TypeIndex.candidates e) as [|d' l] eqn:Hc; [done|]. intros [= <-].
  apply entry_perm in He as [Hp _]. rewrite Hc in Hp.
  assert (d' ∈ of_pair _ _) as (c & Hd & _)%elem_of_pair by (rewrite <-Hp; by left).
  apply vat_lt in Hd. by rewrite (DescriptorTable.wf_cold _ (c_table _ HC)) in Hd.
Qed.

Lemma check_param_spec consumer p :
  checks (check_param consumer p) T (misannotated consumer p).
Proof.
  unfold checks, ends, check_param, mbind_, mget, misannotated.
  destruct (injected T p) as [d|] eqn:Hd.
  2:{ split; [done|]. by intros (d & x & ? & _). }
  destruct (DescriptorTable.at_is_Some _ d (c_table _ HC) (injected_valid _ _ Hd))
    as (x & _ & Hx & _). rewrite Hx. cbn [mlift]. unfold mreturn at 1.
  destruct (hasScopedAnnotation p) eqn:Hs; cbn [andb negb].
  - case_bool_decide as Hl.
    + split_and!; [done|by eexists|]. by exists d, x.
    + split; [done|]. intros (d' & x' & [= <-] & Hx' & Hm).
      rewrite Hx in Hx'. injection Hx' as <-. tauto.
  - case_bool_decide as Hl; [case_bool_decide as Hc|]; cbn [andb].
    + split_and!; [done|by eexists|]. by exists d, x.
    + split; [done|]. intros (d' & x' & [= <-] & Hx' & Hm).
      rewrite Hx in Hx'. injection Hx' as <-. tauto.
    + split; [done|]. intros (d' & x' & [= <-] & Hx' & Hm).
      rewrite Hx in Hx'. injection Hx' as <-. tauto.
Qed.

(** Some contribution has such a parameter. *)
Definition misinjected (cds : list ContributedDescriptor) : Prop :=
  ∃ cd, cd ∈ cds ∧ ∃ p, p ∈ cd_params cd ∧ misannotated (cd_lifetime cd) p.

Lemma check_injections_spec cds : checks (mfor check_injection cds) T (misinjected cds).
Proof.
  apply checks_for. intros cd _. apply checks_for. intros p _. apply check_param_spec.
Qed.

End checks.
End StartupChecks.
