(* ===== verification/Started.v ===== *)
(** [start()] as a whole: what it accepts and what it leaves. *)
From S2P Require Import Prelude Tables Interning Index Stores Startup StartupFacts StartupChecks.

Local Open Scope N_scope.

Module Started.
Import Startup StartupFacts StartupChecks.
Local Open Scope ctr_scope.

(** Rules for the steps on the tables. *)
Lemma ends_on_tables {A} (m : M tables A) R Q X :
  ends never m (tables_ R) Q X →
  ends never (on_tables m) R (λ a R', ∃ T, R' = set_tables T R ∧ Q a T)
    (λ e R', ∃ T, R' = set_tables T R ∧ X e T).
Proof.
  unfold ends, on_tables. destruct (m (tables_ R)) as [[a|e| | |] T]; simpl; eauto.
Qed.

Lemma set_set_tables T T' R : set_tables T' (set_tables T R) = set_tables T' R.
Proof. done. Qed.

Section start.
Context `{SS : StdSort} (noop : FnPtr) (contextTypeInfo : TypeInfo) (contextAlign : N).

(** ** What [start()] accepts *)

(** Two products of one factory under the same type and name. *)
Definition producer_clash (seen : list ContributedDescriptor) : Prop :=
  ∃ i j cd cd' k, vat seen i = Some cd ∧ vat seen j = Some cd' ∧ i ≠ j ∧
    cd_origin cd = FactoryProduct ∧ cd_origin cd' = FactoryProduct ∧
    factory_ref cd = Some k ∧ factory_ref cd' = Some k ∧
    cd_exposedTypeName cd = cd_exposedTypeName cd' ∧ cd_beanName cd = cd_beanName cd'.

Definition refs_known (g : ContributedDescriptor → option Identity)
    (seen : list ContributedDescriptor) : Prop :=
  ∀ cd k, cd ∈ seen → g cd = Some k → ∃ cd', cd' ∈ seen ∧ cd_identity cd' = k.

Definition no_collision (T0 : tables) (seen : list ContributedDescriptor)
    (pbs : list PendingRuntimeSingleton) : Prop :=
  ∀ pre pb post, pbs = pre ++ pb :: post → ¬ taken T0 seen pre (pb_key T0 pb).

(** The contributions and bindings [start()] can merge. *)
Record acceptable (T0 : tables) (cds : list ContributedDescriptor)
    (pbs : list PendingRuntimeSingleton) : Prop := {
  ac_consistent : consistent cds;
  ac_bindings : no_collision T0 (distinct [] cds) pbs;
  ac_factories : refs_known factory_ref (distinct [] cds);
  ac_aliases : refs_known alias_ref (distinct [] cds);
  ac_producers : ¬ producer_clash (distinct [] cds)
}.

(** The registry before its first [start()]: only runtime bindings have descriptors. *)
Record unstarted (R : t) : Prop := {
  u_started : started_ R = false;
  u_context : beanContextDescId_ R = kInvalidDescriptorId;
  u_built : built (tables_ R);
  u_runtime i c : DescriptorTable.coldAt (descriptors_ (tables_ R)) i = Some c →
    origin c = RuntimeBinding;
  u_bound : Forall (pb_known (tables_ R)) (pendingRuntimeSingletons_ R);
  u_instances : Forall (λ pb, p_instance pb ≠ nullptr) (pendingRuntimeSingletons_ R);
  u_singletons : SingletonStore.insertionOrder (singletons_ R) = [];
  u_pending : startLifecyclePending_ R = []
}.

Lemma unstarted_new : unstarted new_registry.
Proof.
  split; try done; try by constructor. 2: { intros i c Hc. apply vat_lt in Hc. by apply N.nlt_0_r in Hc. }
  split; try done; try apply TypeInterning.types_wf_empty; try apply NameInterning.names_wf_empty.
  intros i c Hc. apply vat_lt in Hc. by apply N.nlt_0_r in Hc.
Qed.

Lemma unstarted_submit span R : unstarted R → unstarted (submitContribution span R).2.
Proof. intros H. unfold submitContribution. rewrite (u_started _ H). destruct H. by split. Qed.

Lemma unstarted_enqueue pb R : unstarted R → p_instance pb ≠ nullptr →
  pb_known (tables_ R) pb → unstarted (enqueue_binding pb R).2.
Proof.
  intros H Hi Hn. unfold enqueue_binding. case_match; [done|]. destruct H.
  split; try done; simpl; apply Forall_app; split; try done; by constructor.
Qed.

(** Room for the contributions, the bindings and the context bean. *)
Definition enough_room (R : t) : Prop :=
  room (nlen (mjoin (pending_ R)) + nlen (pendingRuntimeSingletons_ R) + 1) (tables_ R).

(** The tables when the graph is validated. *)
Record graph (T0 : tables) (cds : list ContributedDescriptor)
    (pbs : list PendingRuntimeSingleton) (bound : list StartBound) (L : links)
    (T : tables) : Prop := {
  gr_linked : linked T0 noop (prim_of T0 L) (fac_of L) (distinct [] cds) pbs T;
  gr_identity k id : identityMap L !! k = Some id ↔
    ∃ i cd, id = DescriptorTable.size (descriptors_ T0) + i ∧
      vat (distinct [] cds) i = Some cd ∧ cd_identity cd = k;
  gr_index : typeIndex_ T = TypeIndex.sortAllCandidates (priority_at (descriptors_ T))
    (TypeIndex.inserts (keys (descriptors_ T)) TypeIndex.empty);
  gr_bound_length : nlen bound = nlen pbs;
  gr_bound j b : vat bound j = Some b →
    ∃ pb, vat pbs j = Some pb ∧
      sb_descId b = DescriptorTable.size (descriptors_ T0) + nlen (distinct [] cds) + j ∧
      sb_instance b = p_instance pb;
  gr_room : room 1 T
}.

Lemma resolved_known g T0 seen L : (∀ k id, identityMap L !! k = Some id ↔
    ∃ i cd, id = DescriptorTable.size (descriptors_ T0) + i ∧
      vat seen i = Some cd ∧ cd_identity cd = k) →
  resolved_refs g seen L ↔ refs_known g seen.
Proof.
  intros Hid. unfold resolved_refs, refs_known.
  split; intros H cd k Hin Hg; specialize (H cd k Hin Hg).
  - destruct H as [id (i & cd' & _ & Hi & Hk)%Hid]. exists cd'. rewrite vat_elem. eauto.
  - destruct H as (cd' & [i Hi]%vat_elem & Hk).
    exists (DescriptorTable.size (descriptors_ T0) + i). apply Hid. eauto.
Qed.

(** ** The clash of producers, seen from the contributions *)

Section producers.
Context (R : t) (HR : unstarted R) (bound : list StartBound) (L : links) (T : tables).
Let T0 := tables_ R.
Let cds := mjoin (pending_ R).
Let pbs := pendingRuntimeSingletons_ R.
Let base := DescriptorTable.size (descriptors_ T0).
Hypothesis G : graph T0 cds pbs bound L T.

(** A descriptor is an older one, a contribution or a binding. *)
Lemma descriptor_cases i : i < DescriptorTable.size (descriptors_ T) →
  (i < base) ∨
  (∃ j cd, i = base + j ∧ vat (distinct [] cds) j = Some cd ∧
     slot_of T (prim_of T0 L j cd) (fac_of L j cd) i cd) ∨
  (∃ j pb, i = base + nlen (distinct [] cds) + j ∧ vat pbs j = Some pb ∧ bound_at noop T i pb).
Proof.
  pose proof (gr_linked _ _ _ _ _ _ G) as Hl. intros Hi. rewrite (k_size _ _ _ _ _ _ _ Hl) in Hi.
  fold base in Hi. destruct (decide (i < base)); [by left|right].
  destruct (decide (i < base + nlen (distinct [] cds))).
  - left. destruct (proj2 (vat_is_Some (distinct [] cds) (i - base))) as [cd Hcd]; [lia|].
    exists (i - base), cd. pose proof (k_seen _ _ _ _ _ _ _ Hl _ _ Hcd) as Hs. fold base in Hs.
    replace (base + (i - base)) with i in Hs by lia. split_and!; [lia|done|done].
  - right. destruct (proj2 (vat_is_Some pbs (i - base - nlen (distinct [] cds)))) as [pb Hpb]; [lia|].
    exists (i - base - nlen (distinct [] cds)), pb.
    pose proof (k_bound _ _ _ _ _ _ _ Hl _ _ Hpb) as Hs. fold base in Hs.
    replace (base + nlen (distinct [] cds) + (i - base - nlen (distinct [] cds))) with i in Hs by lia.
    split_and!; [lia|done|done].
Qed.

Lemma producer_cases i f : producer_of T i = Some f →
  ∃ j cd k, i = base + j ∧ vat (distinct [] cds) j = Some cd ∧ cd_origin cd = FactoryProduct ∧
    factory_ref cd = Some k ∧ identityMap L !! k = Some f.
Proof.
  pose proof (gr_linked _ _ _ _ _ _ G) as Hl.
  unfold producer_of. destruct (DescriptorTable.coldAt (descriptors_ T) i) as [c|] eqn:Hc; [|done].
  simpl. destruct (bool_decide _ && _) eqn:Hb; [|done]. intros [= <-].
  apply andb_true_iff in Hb as [Ho%bool_decide_eq_true Hf%negb_true_iff%N.eqb_neq].
  assert (i < DescriptorTable.size (descriptors_ T)) as Hi.
  { apply vat_lt in Hc. by rewrite (DescriptorTable.wf_cold _ (c_table _ (k_core _ _ _ _ _ _ _ Hl))) in Hc. }
  destruct (descriptor_cases i Hi) as [Hlt|[(j & cd & -> & Hj & Hs)|(j & pb & -> & Hj & Hs)]].
  - destruct (k_old _ _ _ _ _ _ _ Hl i Hlt) as [_ H]. rewrite Hc in H.
    rewrite (u_runtime _ HR i c) in Ho by done. done.
  - destruct Hs as (_ & c' & Hc' & e & k & n & -> & _). rewrite Hc in Hc'. injection Hc' as ->.
    simpl in *. unfold fac_of, resolve_link in *. destruct (factory_ref cd) as [k0|] eqn:Hk0; [|done].
    exists j, cd, k0. split_and!; [done..|].
    destruct (identityMap L !! k0); [done|]. by destruct Hf.
  - destruct Hs as (_ & ty & Hc' & _). rewrite Hc in Hc'. injection Hc' as ->. done.
Qed.

Lemma clash_producers : refs_known factory_ref (distinct [] cds) →
  clash T ↔ producer_clash (distinct [] cds).
Proof.
  pose proof (gr_linked _ _ _ _ _ _ G) as Hl. pose proof (gr_identity _ _ _ _ _ _ G) as Hid.
  fold base in Hid. intros Hrefs. pose proof (k_core _ _ _ _ _ _ _ Hl) as HC.
  assert (Hinv : ∀ m cd, vat (distinct [] cds) m = Some cd → (base + m =? kInvalidDescriptorId) = false).
  { intros m cd Hm%vat_lt. apply N.eqb_neq. pose proof (gr_room _ _ _ _ _ _ G) as (Hr & _ & _).
    rewrite (k_size _ _ _ _ _ _ _ Hl) in Hr. fold base in Hr. lia. }
  assert (Hcd : ∀ j cd, vat (distinct [] cds) j = Some cd →
    ∃ e k n, DescriptorTable.coldAt (descriptors_ T) (base + j) =
        Some (set_factoryMethodDescriptor (fac_of L j cd) (cold_of cd e k n)) ∧
      TypeInterning.nameOf (typeInterning_ T) e = Some (cd_exposedTypeName cd) ∧
      NameInterning.nameOf (nameInterning_ T) n = Some (cd_beanName cd)).
  { intros j cd Hj. destruct (k_seen _ _ _ _ _ _ _ Hl _ _ Hj) as (_ & c & Hc & e & k & n & -> & He & _ & Hn).
    by exists e, k, n. }
  split.
  - intros (ty & n & i & j & f & Hi & Hj & Hne & Hfi & Hfj).
    apply producer_cases in Hfi as (i' & cd & k & -> & Hi' & Ho & Hk & Hf).
    apply producer_cases in Hfj as (j' & cd' & k' & -> & Hj' & Ho' & Hk' & Hf').
    assert (k = k') as <-.
    { apply Hid in Hf as (m & x & -> & Hm & <-), Hf' as (m' & x' & Heq & Hm' & <-).
      assert (m = m') as -> by lia. congruence. }
    apply elem_of_pair in Hi as (c & Hc & Hty & Hn), Hj as (c' & Hc' & Hty' & Hn').
    destruct (Hcd _ _ Hi') as (e & k1 & n1 & E1 & He & Hn1), (Hcd _ _ Hj') as (e' & k2 & n2 & E2 & He' & Hn2).
    rewrite E1 in Hc. rewrite E2 in Hc'. injection Hc as <-. injection Hc' as <-. simpl in *.
    exists i', j', cd, cd', k. split_and!; try done; [|congruence|congruence].
    intros ->. done.
  - intros (i & j & cd & cd' & k & Hi & Hj & Hne & Ho & Ho' & Hk & Hk' & Ht & Hb).
    destruct (Hcd _ _ Hi) as (e & k1 & n1 & E1 & He & Hn1), (Hcd _ _ Hj) as (e' & k2 & n2 & E2 & He' & Hn2).
    assert (e' = e) as -> by (eapply type_name_inj; [apply HC|exact He'|congruence]).
    assert (n2 = n1) as -> by (eapply bean_name_inj; [apply HC|exact Hn2|congruence]).
    destruct (Hrefs cd k) as (x & [m Hm]%vat_elem & Hx); [apply vat_elem; eauto|done|].
    assert (identityMap L !! k = Some (base + m)) as Hf by (apply Hid; eauto).
    exists e, n1, (base + i), (base + j), (base + m). split_and!.
    + apply elem_of_pair. by eexists; split.
    + apply elem_of_pair. by eexists; split.
    + lia.
    + unfold producer_of. rewrite E1. simpl. unfold fac_of, resolve_link. rewrite Hk, Hf, Ho. simpl.
      by rewrite (Hinv _ _ Hm).
    + unfold producer_of. rewrite E2. simpl. unfold fac_of, resolve_link. rewrite Hk', Hf, Ho'. simpl.
      by rewrite (Hinv _ _ Hm).
Qed.
End producers.

(** ** Phases 1 to 3.75 *)

Section phases.
Context (R : t) (HR : unstarted R) (Hroom : enough_room R).
Let T0 := tables_ R.
Let cds := mjoin (pending_ R).
Let pbs := pendingRuntimeSingletons_ R.

Definition graph_of (bound : list StartBound) (T : tables) : Prop :=
  ∃ L, graph T0 cds pbs bound L T.

(** How the phases fail. *)
Definition rejected (e : exn) (R' : t) : Prop :=
  is_config e ∧ started_ R' = false ∧
  (acceptable T0 cds pbs → ∃ bound T, graph_of bound T ∧ misinjected T cds).

Lemma sort_graph L bound T :
  linked T0 noop (prim_of T0 L) (fac_of L) (distinct [] cds) pbs T →
  (∀ k id, identityMap L !! k = Some id ↔
    ∃ i cd, id = DescriptorTable.size (descriptors_ T0) + i ∧
      vat (distinct [] cds) i = Some cd ∧ cd_identity cd = k) →
  typeIndex_ T = TypeIndex.inserts (keys (descriptors_ T)) TypeIndex.empty →
  room 1 T → nlen bound = nlen pbs →
  (∀ j b, vat bound j = Some b → ∃ pb, vat pbs j = Some pb ∧
      sb_descId b = DescriptorTable.size (descriptors_ T0) + nlen (distinct [] cds) + j ∧
      sb_instance b = p_instance pb) →
  graph T0 cds pbs bound L (set_typeIndex
    (TypeIndex.sortAllCandidates (priority_at (descriptors_ T)) (typeIndex_ T)) T).
Proof.
  intros [HC Hg Hold Hs Hat Hbd] Hid Hx Hr Hl Hb. split; try done.
  - split; try done; [by destruct HC|by destruct Hg].
  - simpl. by rewrite Hx.
Qed.

(** A step that throws leaves a registry that is not started. *)
Lemma rejected_at e (R1 : t) : is_config e → started_ R1 = false →
  ¬ acceptable T0 cds pbs → rejected e R1.
Proof. by intros. Qed.

Lemma merging_ends :
  ends never (on_tables (mfold merge_one cds no_links)) R
    (λ L R1, ∃ T, R1 = set_tables T R ∧ merged T0 (distinct [] cds) T L ∧
       room (nlen pbs + 1) T ∧ consistent cds) rejected.
Proof.
  destruct HR as [Hst _ Hb0 _ _ _ _ _]. eapply ends_mono; [apply ends_on_tables|..].
  - apply (merge_all_spec T0 cds [] T0 no_links (nlen pbs + 1)); [by apply merged_nil|].
    replace (nlen pbs + 1 + nlen cds) with (nlen cds + nlen pbs + 1) by lia. exact Hroom.
  - intros L R1 (T & -> & Hm & Hr & Hall). exists T. split_and!; [done..|].
    by eapply merged_consistent.
  - intros e R1 (T & -> & He & Hn). apply rejected_at; [done|exact Hst|].
    by intros [Hc _ _ _ _].
Qed.

Lemma binding_ends L T R1 : merged T0 (distinct [] cds) T L → room (nlen pbs + 1) T →
  started_ R1 = false → tables_ R1 = T →
  ends never (on_tables (mfold (bind_one noop) pbs [])) R1
    (λ bound R2, ∃ T', R2 = set_tables T' R1 ∧
       assembled T0 noop (distinct [] cds) pbs bound T' ∧ room 1 T' ∧
       no_collision T0 (distinct [] cds) pbs) rejected.
Proof.
  intros Hm Hr Hst <-. destruct HR as [_ _ Hb0 _ Hbd _ _ _].
  eapply ends_mono; [apply ends_on_tables|..].
  - apply (bind_all_spec T0 noop pbs (distinct [] cds) [] [] (tables_ R1) 1);
      [done|constructor|done| |by rewrite (N.add_comm 1)].
    by apply (merged_assembled T0 noop _ _ L).
  - intros bound R2 (T2 & -> & Ha & Hr2 & Hall). by exists T2.
  - intros e R2 (T2 & -> & He & pre & pb & post & Heq & Ht).
    apply rejected_at; [done|exact Hst|]. intros [_ Hc _ _ _]. by destruct (Hc pre pb post Heq).
Qed.

Section links.
Context (L : links) (bound : list StartBound).
Hypothesis Hid : ∀ k id, identityMap L !! k = Some id ↔
  ∃ i cd, id = DescriptorTable.size (descriptors_ T0) + i ∧
    vat (distinct [] cds) i = Some cd ∧ cd_identity cd = k.

Lemma factories_ends T R1 : linked T0 noop (prim0 T0) fac0 (distinct [] cds) pbs T →
  started_ R1 = false → tables_ R1 = T →
  ends never (on_tables (mfor (link_factory L) (links_by T0 factory_ref (distinct [] cds)))) R1
    (λ _ R2, ∃ T', R2 = set_tables T' R1 ∧
       linked T0 noop (prim0 T0) (fac_of L) (distinct [] cds) pbs T' ∧ same_index T T' ∧
       refs_known factory_ref (distinct [] cds)) rejected.
Proof.
  intros Hl Hst <-. eapply ends_mono; [apply ends_on_tables|..].
  - by apply (link_factories_spec T0 noop (distinct [] cds) pbs L).
  - intros _ R2 (T2 & -> & Hk & Hsame & Hrf). exists T2. split_and!; [done..|].
    by apply (resolved_known _ _ _ _ Hid).
  - intros e R2 (T2 & -> & He & Hn). apply rejected_at; [done|exact Hst|].
    intros [_ _ Hc _ _]. by apply (resolved_known _ _ _ _ Hid) in Hc.
Qed.

Lemma aliases_ends T R1 : linked T0 noop (prim0 T0) (fac_of L) (distinct [] cds) pbs T →
  started_ R1 = false → tables_ R1 = T →
  ends never (on_tables (mfor (link_alias L) (links_by T0 alias_ref (distinct [] cds)))) R1
    (λ _ R2, ∃ T', R2 = set_tables T' R1 ∧
       linked T0 noop (prim_of T0 L) (fac_of L) (distinct [] cds) pbs T' ∧ same_index T T' ∧
       refs_known alias_ref (distinct [] cds)) rejected.
Proof.
  intros Hl Hst <-. eapply ends_mono; [apply ends_on_tables|..].
  - by apply (link_aliases_spec T0 noop (fac_of L) (distinct [] cds) pbs L).
  - intros _ R2 (T2 & -> & Hk & Hsame & Hrf). exists T2. split_and!; [done..|].
    by apply (resolved_known _ _ _ _ Hid).
  - intros e R2 (T2 & -> & He & Hn). apply rejected_at; [done|exact Hst|].
    intros [_ _ _ Hc _]. by apply (resolved_known _ _ _ _ Hid) in Hc.
Qed.

Lemma checks_ends T R1 : graph T0 cds pbs bound L T →
  consistent cds → no_collision T0 (distinct [] cds) pbs →
  refs_known factory_ref (distinct [] cds) → refs_known alias_ref (distinct [] cds) →
  started_ R1 = false → tables_ R1 = T →
  ends never (do! on_tables (mfor check_producers (ids (TypeInterning.size (typeInterning_ T)))) in
              do! on_tables (mfor check_injection cds) in mreturn bound) R1
    (λ b R2, b = bound ∧ R2 = R1 ∧ acceptable T0 cds pbs ∧ ¬ misinjected T cds) rejected.
Proof.
  intros G H1 H2 H3 H4 Hst <-. pose proof (k_core _ _ _ _ _ _ _ (gr_linked _ _ _ _ _ _ G)) as HC.
  pose proof (clash_producers R HR bound L _ G H3) as Hcl.
  assert (Hback : set_tables (tables_ R1) R1 = R1) by by destruct R1.
  eapply ends_bind with (P := λ _ R2, R2 = R1 ∧ ¬ producer_clash (distinct [] cds)).
  { eapply ends_mono; [apply ends_on_tables, (check_all_producers_spec _ HC (gr_index _ _ _ _ _ _ G))|..].
    - intros _ R2 (T2 & -> & -> & Hn). split; [exact Hback|]. intros Hc. by apply Hn, Hcl.
    - intros e R2 (T2 & -> & -> & He & Hc%Hcl). apply rejected_at; [done|exact Hst|].
      by intros [_ _ _ _ ?]. }
  intros _ R2 [-> Hn]. eapply ends_bind with (P := λ _ R3, R3 = R1 ∧ ¬ misinjected (tables_ R1) cds).
  { eapply ends_mono; [apply ends_on_tables, (check_injections_spec _ HC (gr_index _ _ _ _ _ _ G))|..].
    - intros _ R3 (T3 & -> & -> & Hm). by split; [exact Hback|].
    - intros e R3 (T3 & -> & -> & He & Hm). split_and!; [done|exact Hst|]. intros _.
      exists bound, (tables_ R1). split; [by exists L|done]. }
  intros _ R3 [-> Hm]. split_and!; [done..|by split|done].
Qed.
End links.

Lemma merge_phases_spec :
  ends never (merge_phases noop cds pbs) R
    (λ bound R', ∃ T, R' = set_tables T (clear_bound R) ∧ graph_of bound T ∧
       acceptable T0 cds pbs ∧ ¬ misinjected T cds)
    rejected.
Proof.
  pose proof (u_started _ HR) as Hst. unfold merge_phases.
  eapply ends_bind; [apply merging_ends|].
  intros L R1 (T1 & -> & Hm & Hr1 & Hcons). pose proof (m_identity _ _ _ _ Hm) as Hid.
  eapply ends_bind; [by apply (binding_ends L T1)|].
  intros bound R2 (T2 & -> & Ha & Hr2 & Hcol).
  eapply ends_bind with (P := λ _ R3, R3 = set_tables T2 (clear_bound R)); [done|].
  intros _ R3 ->. rewrite (m_factory _ _ _ _ Hm), (m_alias _ _ _ _ Hm).
  eapply ends_bind; [apply (factories_ends L Hid T2); [by eapply assembled_linked|done..]|].
  intros _ R4 (T4 & -> & Hk4 & Hs4 & Hfac).
  eapply ends_bind; [by apply (aliases_ends L Hid T4)|].
  intros _ R5 (T5 & -> & Hk5 & Hs5 & Hali).
  pose proof (same_index_trans _ _ _ Hs4 Hs5) as Hs.
  set (T6 := set_typeIndex
    (TypeIndex.sortAllCandidates (priority_at (descriptors_ T5)) (typeIndex_ T5)) T5).
  assert (graph T0 cds pbs bound L T6) as G.
  { apply sort_graph; [done|done| | |apply Ha|apply Ha].
    - rewrite (si_index _ _ Hs), (si_keys _ _ Hs). apply (b_index _ (as_built _ _ _ _ _ _ Ha)).
    - unfold room in *. rewrite (si_types _ _ Hs), (si_names _ _ Hs).
      by rewrite (k_size _ _ _ _ _ _ _ Hk5), <-(as_size _ _ _ _ _ _ Ha). }
  eapply ends_bind with (P := λ _ R6, R6 = set_tables T6 (clear_bound R)); [done|].
  intros _ R6 ->. eapply ends_bind with (P := λ x R7, x = R7 ∧ R7 = set_tables T6 (clear_bound R)); [done|].
  intros x R7 [-> ->]. eapply ends_mono; [by apply (checks_ends L bound T6)| |done].
  intros b R8 (-> & -> & Hac & Hmis). exists T6. split_and!; [done|by exists L|done|done].
Qed.

End phases.

(** ** Phase 4: the context bean *)

Lemma add_descriptor_index p d c T id T' X : add_descriptor p d c T = (Ok id, T') →
  add_descriptor p d c (set_typeIndex X T) =
    (Ok id, set_typeIndex (TypeIndex.insertCandidate (exposedType c) (name c) id X) T').
Proof.
  unfold add_descriptor. simpl. destruct (if p then _ else _) as [D|]; [|done].
  by intros [= <- <-].
Qed.

(** The tables with the context bean, whose type is [ty]. *)
Record contexted (T T' : tables) (ty : TypeId) : Prop := {
  x_core : core T';
  x_grows : grows T T';
  x_types : TypeInterning.nameOf (typeInterning_ T') ty = Some "ctr::BeanContext"%string;
  x_size : DescriptorTable.size (descriptors_ T') = DescriptorTable.size (descriptors_ T) + 1;
  x_at i : DescriptorTable.at_ (descriptors_ T') i =
    if decide (i = DescriptorTable.size (descriptors_ T)) then Some (runtime_hot 0)
    else DescriptorTable.at_ (descriptors_ T) i;
  x_cold i : DescriptorTable.coldAt (descriptors_ T') i =
    if decide (i = DescriptorTable.size (descriptors_ T))
    then Some (context_cold noop contextTypeInfo contextAlign ty)
    else DescriptorTable.coldAt (descriptors_ T) i;
  x_index : typeIndex_ T' = TypeIndex.updateSingleUnnamed ty
    (TypeIndex.insertCandidate ty kUnnamed (DescriptorTable.size (descriptors_ T)) (typeIndex_ T))
}.

Lemma register_context_spec T : core T → room 1 T →
  ∃ T' ty, register_context noop contextTypeInfo contextAlign T =
      (Ok (DescriptorTable.size (descriptors_ T)), T') ∧ contexted T T' ty.
Proof.
  intros HC (Hr1 & Hr2 & _). unfold kInvalidDescriptorId, kInvalidTypeId in *.
  set (X := TypeIndex.inserts (keys (descriptors_ T)) TypeIndex.empty).
  assert (built (set_typeIndex X T)) as Hb by by destruct HC.
  destruct (internByName_spec "ctr::BeanContext" contextTypeInfo (set_typeIndex X T))
    as (ty & ti & E1 & Hb1 & Hg1 & Hty & _); [done|simpl; unfold two32; lia|].
  set (c := context_cold noop contextTypeInfo contextAlign ty).
  destruct (add_descriptor_spec false (runtime_hot 0) c (set_typeInterning ti (set_typeIndex X T)))
    as (T2 & E2 & Hb2 & Ha); [done|simpl; unfold two32; lia| |].
  { split_and!; simpl; [by eexists..|]. exists ""%string. apply (NameInterning.wf_unnamed _ (c_names _ HC)). }
  pose proof (added_grows _ _ _ _ Ha) as Hg2.
  apply (add_descriptor_index _ _ _ _ _ _ (typeIndex_ T)) in E2.
  change (set_typeIndex (typeIndex_ T) (set_typeInterning ti (set_typeIndex X T)))
    with (set_typeInterning ti T) in E2.
  eexists _, ty. split.
  - unfold register_context, mbind_.
    assert (internByName "ctr::BeanContext" contextTypeInfo T = (Ok ty, set_typeInterning ti T)) as ->.
    { revert E1. unfold internByName. simpl. destruct (TypeInterning.internByName _ _ _) as [id ti'].
      intros [= -> ->]. done. }
    fold c. rewrite E2. done.
  - split; try done; simpl.
    + by destruct (built_core _ Hb2).
    + split; simpl; intros i m Hi; apply Hg2, Hg1, Hi.
    + by apply Hg2.
    + apply (a_size _ _ _ _ Ha).
    + apply (a_at _ _ _ _ Ha).
    + apply (a_cold _ _ _ _ Ha).
Qed.

(** ** Phase 4: the session slots *)

Definition sessions_in (ds : list Descriptor) : N :=
  nlen (filter (λ d, lifetime d = Session) ds).

Lemma sessions_in_cons d ds :
  sessions_in (d :: ds) = (if decide (lifetime d = Session) then 1 else 0) + sessions_in ds.
Proof. unfold sessions_in, nlen. rewrite filter_cons. case_decide; simpl; lia. Qed.

Lemma slots_from_spec ds : ∀ n, n + nlen ds < two32 →
  let '(r, n') := slots_from ds n in
  nlen r = nlen ds ∧ n' = n + sessions_in ds ∧
  ∀ i d, ds !! i = Some d → r !! i = Some (set_sessionSlot
    (if decide (lifetime d = Session) then n + sessions_in (take i ds)
     else kInvalidSessionSlot) d).
Proof.
  induction ds as [|d ds IH]; intros n Hn; cbn [slots_from].
  { split_and!; [done|unfold sessions_in, nlen; simpl; lia|done]. }
  assert (nlen (d :: ds) = nlen ds + 1) as Hl by (unfold nlen; simpl; lia).
  rewrite Hl in Hn. destruct (decide (lifetime d = Session)) as [Hs|Hs].
  - specialize (IH (n + 1)). destruct (slots_from ds (n + 1)) as [r n'].
    destruct IH as (IH1 & -> & IH2); [lia|].
    rewrite u32_small by lia. rewrite sessions_in_cons, decide_True by done.
    split_and!; [unfold nlen in *; simpl; lia|lia|]. intros [|i] x Hx; simpl in Hx.
    + injection Hx as <-. rewrite decide_True by done. simpl. do 2 f_equal. unfold sessions_in, nlen. simpl. lia.
    + simpl. rewrite (IH2 _ _ Hx). do 2 f_equal. case_decide; [|done].
      rewrite sessions_in_cons, decide_True by done. lia.
  - specialize (IH n). destruct (slots_from ds n) as [r n'].
    destruct IH as (IH1 & -> & IH2); [lia|].
    rewrite sessions_in_cons, decide_False by done.
    split_and!; [unfold nlen in *; simpl; lia|lia|]. intros [|i] x Hx; simpl in Hx.
    + injection Hx as <-. by rewrite decide_False by done.
    + simpl. rewrite (IH2 _ _ Hx). do 2 f_equal. case_decide; [|done].
      rewrite sessions_in_cons, decide_False by done. lia.
Qed.

(** The slot of descriptor [i]. *)
Definition slot_at (D : DescriptorTable.t) (i : DescriptorId) (x : Descriptor) : SessionSlot :=
  if decide (lifetime x = Session)
  then sessions_in (take (N.to_nat i) (DescriptorTable.entries_ D)) else kInvalidSessionSlot.

Record slotted (T T' : tables) : Prop := {
  l_core : core T';
  l_types : typeInterning_ T' = typeInterning_ T;
  l_names : nameInterning_ T' = nameInterning_ T;
  l_index : typeIndex_ T' = typeIndex_ T;
  l_size : DescriptorTable.size (descriptors_ T') = DescriptorTable.size (descriptors_ T);
  l_at i : DescriptorTable.at_ (descriptors_ T') i =
    (λ x, set_sessionSlot (slot_at (descriptors_ T) i x) x) <$> DescriptorTable.at_ (descriptors_ T) i;
  l_cold i : DescriptorTable.coldAt (descriptors_ T') i = DescriptorTable.coldAt (descriptors_ T) i
}.

Lemma assign_slots_spec T : core T → DescriptorTable.size (descriptors_ T) < two32 →
  ∃ T', assign_slots T = (Ok (sessions_in (DescriptorTable.entries_ (descriptors_ T))), T') ∧
    slotted T T'.
Proof.
  intros HC Hn. unfold assign_slots.
  pose proof (slots_from_spec (DescriptorTable.entries_ (descriptors_ T)) 0 Hn) as H.
  destruct (slots_from _ 0) as [r n]. destruct H as (Hl & -> & Hr). rewrite N.add_0_l.
  eexists. split; [done|].
  assert (∀ i, vat r i = (λ x, set_sessionSlot (slot_at (descriptors_ T) i x) x) <$>
    vat (DescriptorTable.entries_ (descriptors_ T)) i) as Hat.
  { intros i. rewrite !vat_lookup.
    destruct (DescriptorTable.entries_ (descriptors_ T) !! N.to_nat i) as [x|] eqn:Hx; simpl.
    - rewrite (Hr _ _ Hx). unfold slot_at. by rewrite N.add_0_l.
    - apply lookup_ge_None in Hx. apply lookup_ge_None. unfold nlen in Hl. lia. }
  split; try done; simpl.
  destruct HC as [[H1 H2] H3 H4 H5 H6]. split; try done. split; simpl; [by rewrite Hl|].
  rewrite H2. apply list_eq. intros i. rewrite !list_lookup_fmap.
  specialize (Hat (N.of_nat i)). rewrite !vat_lookup, Nat2N.id in Hat. rewrite Hat.
  by destruct (DescriptorTable.entries_ (descriptors_ T) !! i).
Qed.

(** ** Phase 4: the stored instances *)

(** What storing [bound] leaves. *)
Record stored (bound : list StartBound) (R R' : t) : Prop := {
  o_tables : tables_ R' = tables_ R;
  o_started : started_ R' = started_ R;
  o_context : beanContextDescId_ R' = beanContextDescId_ R;
  o_root : root_ R' = root_ R;
  o_slots : sessionSlotCount_ R' = sessionSlotCount_ R;
  o_pending : pending_ R' = pending_ R;
  o_bindings : pendingRuntimeSingletons_ R' = pendingRuntimeSingletons_ R;
  o_lifecycle : startLifecyclePending_ R' = startLifecyclePending_ R ++ bound;
  o_wf : SingletonStore.wf (singletons_ R');
  o_capacity : InstanceArray.size (SingletonStore.instances_ (singletons_ R')) =
    InstanceArray.size (SingletonStore.instances_ (singletons_ R));
  o_order : SingletonStore.insertionOrder (singletons_ R') =
    SingletonStore.insertionOrder (singletons_ R) ++ (sb_descId <$> bound);
  o_bound b : b ∈ bound → SingletonStore.value (singletons_ R') (sb_descId b) = sb_instance b;
  o_other d : d ∉ sb_descId <$> bound →
    SingletonStore.value (singletons_ R') d = SingletonStore.value (singletons_ R) d
}.

Lemma store_bound_all bound : ∀ R, SingletonStore.wf (singletons_ R) →
  NoDup (sb_descId <$> bound) →
  (∀ b, b ∈ bound → sb_instance b ≠ nullptr ∧
     sb_descId b < InstanceArray.size (SingletonStore.instances_ (singletons_ R)) ∧
     SingletonStore.value (singletons_ R) (sb_descId b) = nullptr) →
  ∃ R', mfor store_bound bound R = (Ok tt, R') ∧ stored bound R R'.
Proof.
  induction bound as [|b bound IH]; intros R Hwf Hnd Hb.
  { exists R. split; [done|]. split; try done; [by rewrite app_nil_r..|].
    by intros b ?%not_elem_of_nil. }
  rewrite fmap_cons in Hnd. apply NoDup_cons in Hnd as [Hnin Hnd].
  destruct (Hb b) as (Hi & Hlt & Hnull); [by left|].
  destruct (SingletonStore.store_spec _ _ _ Hwf Hlt Hnull Hi) as (st & E & Hwf' & Ho & _ & Hs & Hv).
  cbn [mfor]. unfold mbind_ at 1, store_bound at 1. rewrite E.
  match goal with |- context [mfor store_bound bound ?r] => set (R1 := r) end.
  destruct (IH R1) as (R' & E' & H'); [done|done| |].
  { intros b' Hb'. destruct (Hb b') as (? & ? & ?); [by right|]. simpl.
    rewrite Hs, Hv. rewrite decide_False; [done|]. intros Heq. apply Hnin. rewrite <-Heq.
    by apply list_elem_of_fmap_2. }
  exists R'. split; [done|]. destruct H'. split; try done; simpl in *.
  - by rewrite o_lifecycle0, <-(assoc_L (++)).
  - by rewrite o_capacity0.
  - rewrite o_order0. unfold SingletonStore.insertionOrder. by rewrite Ho, <-(assoc_L (++)).
  - intros b' [->|Hin]%elem_of_cons; [|by apply o_bound0].
    rewrite o_other0 by done. by rewrite Hv, decide_True.
  - intros d Hd. apply not_elem_of_cons in Hd as [Hd1 Hd2].
    rewrite o_other0 by done. by rewrite Hv, decide_False.
Qed.

(** ** The started registry *)

Record opened (ctx : ptr) (R R' : t) (bound : list StartBound) (T : tables) (ty : TypeId)
    (T1 T2 : tables) : Prop := {
  p_graph : graph_of R bound T;
  p_context : contexted T T1 ty;
  p_slots : slotted T1 T2;
  p_tables : tables_ R' = set_typeInterning (TypeInterning.freeze (typeInterning_ T2)) T2;
  p_started : started_ R' = true;
  p_root : root_ R' = ctx;
  p_id : beanContextDescId_ R' = DescriptorTable.size (descriptors_ T);
  p_count : sessionSlotCount_ R' = sessions_in (DescriptorTable.entries_ (descriptors_ T1));
  p_defaults : defaults_ R' = DefaultsTable.resize
    (TypeInterning.size (typeInterning_ (tables_ R'))) (defaults_ R);
  p_flag : beanContextStartLifecyclePending_ R' = true;
  p_lifecycle : startLifecyclePending_ R' = bound;
  p_pending : pending_ R' = pending_ R;
  p_bindings : pendingRuntimeSingletons_ R' = [];
  p_wf : SingletonStore.wf (singletons_ R');
  p_capacity : InstanceArray.size (SingletonStore.instances_ (singletons_ R')) =
    DescriptorTable.size (descriptors_ T) + 1;
  p_order : SingletonStore.insertionOrder (singletons_ R') =
    DescriptorTable.size (descriptors_ T) :: (sb_descId <$> bound);
  p_ctx : SingletonStore.value (singletons_ R') (DescriptorTable.size (descriptors_ T)) = ctx;
  p_bound b : b ∈ bound → SingletonStore.value (singletons_ R') (sb_descId b) = sb_instance b;
  p_none d : d ≠ DescriptorTable.size (descriptors_ T) → d ∉ sb_descId <$> bound →
    SingletonStore.value (singletons_ R') d = nullptr
}.

(** The ids of the bound instances are those of the bindings, in order. *)
Lemma bound_ids R bound T L :
  graph (tables_ R) (mjoin (pending_ R)) (pendingRuntimeSingletons_ R) bound L T →
  NoDup (sb_descId <$> bound) ∧
  ∀ b, b ∈ bound → sb_descId b < DescriptorTable.size (descriptors_ T) ∧
    ∃ pb, pb ∈ pendingRuntimeSingletons_ R ∧ sb_instance b = p_instance pb.
Proof.
  intros G. split.
  - apply NoDup_alt. intros i j d Hi Hj. rewrite list_lookup_fmap in Hi, Hj.
    destruct (bound !! i) as [b|] eqn:Ei; [|done]. destruct (bound !! j) as [b'|] eqn:Ej; [|done].
    simpl in *. injection Hi as Hi. injection Hj as Hj.
    destruct (gr_bound _ _ _ _ _ _ G (N.of_nat i) b) as (_ & _ & Hb & _); [by rewrite vat_lookup, Nat2N.id|].
    destruct (gr_bound _ _ _ _ _ _ G (N.of_nat j) b') as (_ & _ & Hb' & _); [by rewrite vat_lookup, Nat2N.id|].
    lia.
  - intros b [j Hj]%vat_elem. destruct (gr_bound _ _ _ _ _ _ G _ _ Hj) as (pb & Hpb & Hid & Hi).
    split; [|exists pb; split; [apply vat_elem; eauto|done]].
    rewrite (k_size _ _ _ _ _ _ _ (gr_linked _ _ _ _ _ _ G)), Hid. apply vat_lt in Hpb. lia.
Qed.

Lemma store_context_spec ctx id R : ctx ≠ nullptr →
  SingletonStore.insertionOrder (singletons_ R) = [] →
  id < DescriptorTable.size (descriptors_ (tables_ R)) →
  ∃ st, store_context ctx id R = (Ok tt, set_context ctx id st R) ∧ SingletonStore.wf st ∧
    InstanceArray.size (SingletonStore.instances_ st) = DescriptorTable.size (descriptors_ (tables_ R)) ∧
    SingletonStore.insertionOrder st = [id] ∧
    ∀ d, SingletonStore.value st d = if decide (d = id) then ctx else nullptr.
Proof.
  intros Hctx Ho Hid. set (n := DescriptorTable.size _) in *.
  pose proof (SingletonStore.singleton_resize_wf n _ Ho) as Hwf.
  destruct (SingletonStore.store_spec id ctx _ Hwf) as (st & E & Hwf' & Ho' & _ & Hs & Hv);
    [exact Hid|apply SingletonStore.resize_value|done|].
  exists st. unfold store_context. fold n. rewrite E. split_and!; [done|done|by rewrite Hs| |].
  - unfold SingletonStore.insertionOrder in *. rewrite Ho'. simpl. by rewrite Ho.
  - intros d. rewrite Hv. by rewrite SingletonStore.resize_value.
Qed.

Lemma open_spec ctx R bound T R1 : unstarted R → ctx ≠ nullptr → graph_of R bound T →
  R1 = set_tables T (clear_bound R) →
  ∃ R' ty T1 T2,
    (let! id := on_tables (register_context noop contextTypeInfo contextAlign) in
     do! store_context ctx id in
     let! n := on_tables assign_slots in
     do! mupd (set_slotCount n) in
     do! mfor store_bound bound in
     mupd publish) R1 = (Ok tt, R') ∧ opened ctx R R' bound T ty T1 T2.
Proof.
  intros HR Hctx [L G] ->. pose proof (k_core _ _ _ _ _ _ _ (gr_linked _ _ _ _ _ _ G)) as HC.
  pose proof (gr_room _ _ _ _ _ _ G) as Hroom. pose proof Hroom as (Hr & _ & _).
  destruct (register_context_spec T HC Hroom) as (T1 & ty & E1 & HX).
  set (R2 := set_tables T1 (clear_bound R)).
  set (m := DescriptorTable.size (descriptors_ T)) in *.
  destruct (store_context_spec ctx m R2 Hctx) as (st & E2 & Hwf & Hcap & Hord & Hval);
    [apply HR|simpl; rewrite (x_size _ _ _ HX); fold m; lia|].
  destruct (assign_slots_spec T1 (x_core _ _ _ HX)) as (T2 & E3 & HS).
  { rewrite (x_size _ _ _ HX). unfold kInvalidDescriptorId, two32 in *. lia. }
  set (n := sessions_in (DescriptorTable.entries_ (descriptors_ T1))) in *.
  set (R3 := set_slotCount n (set_tables T2 (set_context ctx m st R2))).
  destruct (bound_ids R bound T L G) as [Hnd Hb].
  destruct (store_bound_all bound R3) as (R4 & E4 & HO); [done|done| |].
  { intros b Hin. destruct (Hb b Hin) as (Hlt & pb & Hpb & ->). simpl. split_and!.
    - pose proof (u_instances _ HR) as Hi. rewrite Forall_forall in Hi. by apply Hi.
    - rewrite Hcap. simpl. rewrite (x_size _ _ _ HX). fold m. lia.
    - rewrite Hval, decide_False; [done|]. fold m in Hlt. lia. }
  exists (publish R4), ty, T1, T2. split.
  - unfold mbind_, on_tables. cbn [tables_ set_tables]. rewrite E1. cbv beta iota.
    change (set_tables T1 (set_tables T (clear_bound R))) with R2. rewrite E2. change (tables_ (set_context ctx m st R2)) with T1. rewrite E3. cbv beta iota.
    unfold mupd at 1. fold R3. by rewrite E4.
  - assert (tables_ R4 = T2) as Ht by apply (o_tables _ _ _ HO).
    split; [by exists L|done|done|cbn; by rewrite Ht|done|..].
    + exact (o_root _ _ _ HO).
    + exact (o_context _ _ _ HO).
    + exact (o_slots _ _ _ HO).
    + cbn. by rewrite Ht.
    + done.
    + cbn. rewrite (o_lifecycle _ _ _ HO). cbn. by rewrite (u_pending _ HR).
    + exact (o_pending _ _ _ HO).
    + exact (o_bindings _ _ _ HO).
    + exact (o_wf _ _ _ HO).
    + cbn. rewrite (o_capacity _ _ _ HO). cbn. rewrite Hcap. apply (x_size _ _ _ HX).
    + cbn. rewrite (o_order _ _ _ HO). cbn. by rewrite Hord.
    + cbn. rewrite (o_other _ _ _ HO); [cbn; by rewrite Hval, decide_True|].
      intros (b & Heq & Hin)%list_elem_of_fmap. destruct (Hb b Hin) as [Hlt _]. fold m in Hlt. lia.
    + exact (o_bound _ _ _ HO).
    + intros d Hd1 Hd2. cbn. rewrite (o_other _ _ _ HO) by done. cbn.
      by rewrite Hval, decide_False.
Qed.

Lemma start_spec ctx R : unstarted R → enough_room R → ctx ≠ nullptr →
  ends never (start noop contextTypeInfo contextAlign ctx) R
    (λ _ R', acceptable (tables_ R) (mjoin (pending_ R)) (pendingRuntimeSingletons_ R) ∧
       ∃ bound T ty T1 T2, opened ctx R R' bound T ty T1 T2 ∧
         ¬ misinjected T (mjoin (pending_ R)))
    (rejected R).
Proof.
  intros HR Hroom Hctx. unfold start.
  eapply ends_bind with (P := λ x R1, x = R ∧ R1 = R); [done|]. intros x R1 [-> ->].
  rewrite (u_started _ HR), (u_context _ HR), N.eqb_refl. cbn [negb].
  eapply ends_bind; [by apply merge_phases_spec|].
  intros bound R1 (T & HR1 & G & Hac & Hmis).
  destruct (open_spec ctx R bound T R1 HR Hctx G HR1) as (R' & ty & T1 & T2 & E & Hop).
  unfold ends. rewrite E. split; [done|]. by exists bound, T, ty, T1, T2.
Qed.

End start.
End Started.
