(* ===== verification/SampleStart.v ===== *)
(** A small application the witnesses of the start-up theorems evaluate.

    Discovered: a factory bean, one of its products, the interface the factory is
    exposed under, a session bean and a consumer of it; bound before the start: one
    singleton, at address 500. *)
From S2P Require Import Prelude Tables Interning Index Stores Startup StartupFacts StartupChecks Started.

Local Open Scope N_scope.

Module SampleStart.
Import Startup Started.

Definition bean (id : Identity) (ty : string) (g : TypeInfo) (l : Lifetime)
    : ContributedDescriptor :=
  {| cd_identity := id; cd_exposedTypeName := ty; cd_concreteTypeName := ty;
     cd_exposedTypeInfo := g; cd_concreteTypeInfo := g; cd_beanName := ""; cd_priority := 0;
     cd_lazy := true; cd_lifetime := l; cd_origin := AnnotatedType; cd_construct := 10 + id;
     cd_destroy := 0; cd_postConstruct := None; cd_preDestroy := None; cd_size := 8;
     cd_align := 8; cd_factoryMethodIdentity := kNoFactoryMethod;
     cd_factoryMethodName := None; cd_allocAndConstruct := None; cd_dealloc := None;
     cd_params := []; cd_reflectiveData := None; cd_isExposedAlias := false;
     cd_aliasOfPrimaryIdentity := kNoFactoryMethod; cd_adjustToExposed := None;
     cd_adjustToConcrete := None |}.

Definition product (f : Identity) (cd : ContributedDescriptor) : ContributedDescriptor :=
  {| cd_identity := cd_identity cd; cd_exposedTypeName := cd_exposedTypeName cd;
     cd_concreteTypeName := cd_concreteTypeName cd; cd_exposedTypeInfo := cd_exposedTypeInfo cd;
     cd_concreteTypeInfo := cd_concreteTypeInfo cd; cd_beanName := cd_beanName cd;
     cd_priority := cd_priority cd; cd_lazy := cd_lazy cd; cd_lifetime := cd_lifetime cd;
     cd_origin := FactoryProduct; cd_construct := cd_construct cd; cd_destroy := 0;
     cd_postConstruct := None; cd_preDestroy := None; cd_size := 8; cd_align := 8;
     cd_factoryMethodIdentity := f; cd_factoryMethodName := Some "make"%string;
     cd_allocAndConstruct := None; cd_dealloc := None; cd_params := [];
     cd_reflectiveData := None; cd_isExposedAlias := false;
     cd_aliasOfPrimaryIdentity := kNoFactoryMethod; cd_adjustToExposed := None;
     cd_adjustToConcrete := None |}.

(** The factory seen as [I], at an offset computed by function 60. *)
Definition interface : ContributedDescriptor :=
  {| cd_identity := 4; cd_exposedTypeName := "I"; cd_concreteTypeName := "F";
     cd_exposedTypeInfo := 44; cd_concreteTypeInfo := 41; cd_beanName := "";
     cd_priority := 0; cd_lazy := true; cd_lifetime := Singleton; cd_origin := AnnotatedType;
     cd_construct := 11; cd_destroy := 0; cd_postConstruct := None; cd_preDestroy := None;
     cd_size := 8; cd_align := 8; cd_factoryMethodIdentity := kNoFactoryMethod;
     cd_factoryMethodName := None; cd_allocAndConstruct := None; cd_dealloc := None;
     cd_params := []; cd_reflectiveData := None; cd_isExposedAlias := true;
     cd_aliasOfPrimaryIdentity := 1; cd_adjustToExposed := Some 60;
     cd_adjustToConcrete := Some 61 |}.

(** A parameter of the session type, with or without [[[=ctr::scoped]]]. *)
Definition session_param (scoped : bool) : ContributedParamDescriptor :=
  {| injectedTypeName := Some "S"%string; injectedTypeInfo := 43; hasNamedAnnotation := false;
     targetName := None; scopeName := ""; hasScopedAnnotation := scoped |}.

Definition consumer (scoped : bool) : ContributedDescriptor :=
  let cd := bean 5 "C" 45 Singleton in
  {| cd_identity := cd_identity cd; cd_exposedTypeName := cd_exposedTypeName cd;
     cd_concreteTypeName := cd_concreteTypeName cd; cd_exposedTypeInfo := cd_exposedTypeInfo cd;
     cd_concreteTypeInfo := cd_concreteTypeInfo cd; cd_beanName := cd_beanName cd;
     cd_priority := cd_priority cd; cd_lazy := cd_lazy cd; cd_lifetime := cd_lifetime cd;
     cd_origin := cd_origin cd; cd_construct := cd_construct cd; cd_destroy := 0;
     cd_postConstruct := None; cd_preDestroy := None; cd_size := 8; cd_align := 8;
     cd_factoryMethodIdentity := kNoFactoryMethod; cd_factoryMethodName := None;
     cd_allocAndConstruct := None; cd_dealloc := None; cd_params := [session_param scoped];
     cd_reflectiveData := None; cd_isExposedAlias := false;
     cd_aliasOfPrimaryIdentity := kNoFactoryMethod; cd_adjustToExposed := None;
     cd_adjustToConcrete := None |}.

Definition factory : ContributedDescriptor := bean 1 "F" 41 Singleton.
Definition made : ContributedDescriptor := product 1 (bean 2 "A" 42 Singleton).
Definition session_bean : ContributedDescriptor := bean 3 "S" 43 Session.

Definition unit1 : list ContributedDescriptor := [made; session_bean; consumer true].
Definition unit2 : list ContributedDescriptor := [factory; interface].

Definition bound : PendingRuntimeSingleton :=
  {| p_instance := 500; p_typeName := "B"; p_typeInfoGetter := 46; p_nameId := kUnnamed;
     p_priority := 0; p_destroy := 0; p_preDestroy := None; p_dealloc := Some 71; p_size := 8;
     p_align := 8 |}.

(** The registry before [start()], with [units] discovered. *)
Definition registry (units : list (list ContributedDescriptor)) : t :=
  foldl (λ R u, (submitContribution u R).2) (enqueue_binding bound new_registry).2 units.

Definition discovered : t := registry [unit1; unit2].

(** The context at address 300; [noop] is function 0, [typeid] 99, alignment 8. *)
Definition launch : M t unit := Startup.start 0 99 8 300.

Lemma registry_unstarted units : unstarted (registry units).
Proof.
  unfold registry. assert (unstarted (enqueue_binding bound new_registry).2) as H.
  { apply unstarted_enqueue; [apply unstarted_new|done|by eexists]. }
  revert H. generalize (enqueue_binding bound new_registry).2.
  induction units as [|u units IH]; intros R H; [done|]. by apply IH, unstarted_submit.
Qed.

Lemma discovered_unstarted : unstarted discovered.
Proof. apply registry_unstarted. Qed.

Lemma discovered_room : enough_room discovered.
Proof. by vm_compute. Qed.

End SampleStart.
