(* ===== verification/Opened.v ===== *)
(** The registry after [start()]: its descriptors, its index and its slots. *)
From S2P Require Import Prelude Tables Interning Index Stores Startup StartupFacts StartupChecks Started SampleStart.

Local Open Scope N_scope.

Module Opened.
Import Startup StartupFacts StartupChecks Started.
Local Open Scope ctr_scope.

(** ** Counting sessions *)

Lemma sessions_in_app l1 l2 : sessions_in (l1 ++ l2) = sessions_in l1 + sessions_in l2.
Proof. unfold sessions_in. by rewrite filter_app, nlen_app. Qed.

Lemma sessions_in_take_lt ds i j x : ds !! i = Some x → lifetime x = Session → (i < j)%nat →
  sessions_in (take i ds) < sessions_in (take j ds).
Proof.
  intros Hi Hx Hij.
  assert (take j ds = take i ds ++ x :: take (j - S i) (drop (S i) ds)) as ->.
  { rewrite <-(take_drop_middle ds i x Hi) at 1.
    assert (length (take i ds) = i) as Hl.
    { rewrite length_take. apply lookup_lt_Some in Hi. lia. }
    rewrite take_app_ge by lia. rewrite Hl. f_equal.
    destruct (j - i)%nat as [|k] eqn:E; [lia|]. simpl. do 2 f_equal. lia. }
  rewrite sessions_in_app, sessions_in_cons, decide_True by done. lia.
Qed.

Lemma sessions_in_take_le ds i : sessions_in (take i ds) ≤ sessions_in ds.
Proof. rewrite <-(take_drop i ds) at 2. rewrite sessions_in_app. lia. Qed.

Lemma sessions_in_nth ds s : s < sessions_in ds →
  ∃ i x, ds !! i = Some x ∧ lifetime x = Session ∧ sessions_in (take i ds) = s.
Proof.
  revert s. induction ds as [|d ds IH]; intros s Hs; [unfold sessions_in, nlen in Hs; simpl in Hs; lia|].
  rewrite sessions_in_cons in Hs. destruct (decide (lifetime d = Session)) as [Hd|Hd].
  - destruct (decide (s = 0)) as [->|Hz]; [by exists O, d|].
    destruct (IH (s - 1)) as (i & x & Hi & Hx & Ht); [lia|]. exists (S i), x.
    split_and!; [done..|]. simpl. rewrite sessions_in_cons, decide_True by done. lia.
  - destruct (IH s) as (i & x & Hi & Hx & Ht); [lia|]. exists (S i), x.
    split_and!; [done..|]. simpl. rewrite sessions_in_cons, decide_False by done. lia.
Qed.

Lemma sessions_in_length ds : sessions_in ds ≤ nlen ds.
Proof. unfold sessions_in, nlen. pose proof (length_filter (λ d, lifetime d = Session) ds). lia. Qed.

Section opened.
Context `{SS : StdSort} (noop : FnPtr) (contextTypeInfo : TypeInfo) (contextAlign : N).
Context (ctx : ptr) (R R' : t) (bound : list StartBound) (T : tables) (ty : TypeId) (T1 T2 : tables).
Hypothesis HR : unstarted R.
Hypothesis O : opened noop contextTypeInfo contextAlign ctx R R' bound T ty T1 T2.

Let T' := tables_ R'.
Let D' := descriptors_ T'.
Let base := DescriptorTable.size (descriptors_ (tables_ R)).
Let seen := distinct [] (mjoin (pending_ R)).
Let pbs := pendingRuntimeSingletons_ R.
Let m := DescriptorTable.size (descriptors_ T).

Lemma final_descriptors : D' = descriptors_ T2.
Proof. unfold D', T'. by rewrite (p_tables _ _ _ _ _ _ _ _ _ _ _ O). Qed.

Lemma final_size : DescriptorTable.size D' = m + 1.
Proof.
  rewrite final_descriptors, (l_size _ _ (p_slots _ _ _ _ _ _ _ _ _ _ _ O)).
  apply (x_size _ _ _ _ _ _ (p_context _ _ _ _ _ _ _ _ _ _ _ O)).
Qed.

(** The descriptor of [T] at [i], or the context bean's. *)
Lemma final_at i : DescriptorTable.at_ D' i =
  (λ x, set_sessionSlot (slot_at (descriptors_ T1) i x) x) <$>
    (if decide (i = m) then Some (runtime_hot 0) else DescriptorTable.at_ (descriptors_ T) i).
Proof.
  rewrite final_descriptors, (l_at _ _ (p_slots _ _ _ _ _ _ _ _ _ _ _ O)).
  by rewrite (x_at _ _ _ _ _ _ (p_context _ _ _ _ _ _ _ _ _ _ _ O)).
Qed.

Lemma final_cold i : DescriptorTable.coldAt D' i =
  if decide (i = m) then Some (context_cold noop contextTypeInfo contextAlign ty)
  else DescriptorTable.coldAt (descriptors_ T) i.
Proof.
  rewrite final_descriptors, (l_cold _ _ (p_slots _ _ _ _ _ _ _ _ _ _ _ O)).
  by rewrite (x_cold _ _ _ _ _ _ (p_context _ _ _ _ _ _ _ _ _ _ _ O)).
Qed.

Lemma final_wf : DescriptorTable.wf D'.
Proof. rewrite final_descriptors. apply (l_core _ _ (p_slots _ _ _ _ _ _ _ _ _ _ _ O)). Qed.

Lemma final_types i n : TypeInterning.nameOf (typeInterning_ T) i = Some n →
  TypeInterning.nameOf (typeInterning_ T') i = Some n.
Proof.
  intros H. unfold T'. rewrite (p_tables _ _ _ _ _ _ _ _ _ _ _ O). simpl.
  change (TypeInterning.nameOf (typeInterning_ T2) i = Some n).
  rewrite (l_types _ _ (p_slots _ _ _ _ _ _ _ _ _ _ _ O)).
  by apply (g_types _ _ (x_grows _ _ _ _ _ _ (p_context _ _ _ _ _ _ _ _ _ _ _ O))).
Qed.

Lemma final_names i n : NameInterning.nameOf (nameInterning_ T) i = Some n →
  NameInterning.nameOf (nameInterning_ T') i = Some n.
Proof.
  intros H. unfold T'. rewrite (p_tables _ _ _ _ _ _ _ _ _ _ _ O). simpl.
  rewrite (l_names _ _ (p_slots _ _ _ _ _ _ _ _ _ _ _ O)).
  by apply (g_names _ _ (x_grows _ _ _ _ _ _ (p_context _ _ _ _ _ _ _ _ _ _ _ O))).
Qed.

(** The destruction hooks are those of the contributions and of the bindings. *)
Lemma final_hooks d c f : DescriptorTable.coldAt D' d = Some c → preDestroy c = Some f →
  (∃ d0 c0, DescriptorTable.coldAt (descriptors_ (tables_ R)) d0 = Some c0 ∧ preDestroy c0 = Some f) ∨
  (∃ cd, cd ∈ mjoin (pending_ R) ∧ cd_preDestroy cd = Some f) ∨
  ∃ pb, pb ∈ pbs ∧ p_preDestroy pb = Some f.
Proof.
  destruct (p_graph _ _ _ _ _ _ _ _ _ _ _ O) as [L G].
  pose proof (gr_linked _ _ _ _ _ _ _ G) as Hl.
  rewrite final_cold. case_decide as Hm; [by intros [= <-]|]. intros Hc Hf.
  assert (d < DescriptorTable.size (descriptors_ T)) as Hd.
  { apply vat_lt in Hc. by rewrite (DescriptorTable.wf_cold _ (c_table _ (k_core _ _ _ _ _ _ _ Hl))) in Hc. }
  destruct (descriptor_cases _ _ _ _ _ G d Hd) as [Hlt|[(j & cd & -> & Hj & Hs)|(j & pb & -> & Hj & Hs)]].
  - left. exists d, c. split; [|done]. by rewrite <-(proj2 (k_old _ _ _ _ _ _ _ Hl d Hlt)).
  - right; left. destruct Hs as (_ & c' & Hc' & e & k & n & -> & _). rewrite Hc in Hc'. injection Hc' as ->.
    exists cd. split; [|done]. apply (distinct_from [] _ cd), vat_elem. by exists j.
  - right; right. destruct Hs as (_ & ty' & Hc' & _). rewrite Hc in Hc'. injection Hc' as ->.
    exists pb. split; [|done]. apply vat_elem. by exists j.
Qed.

(** ** The index *)

Lemma final_index : typeIndex_ T' = TypeIndex.updateSingleUnnamed ty
  (TypeIndex.insertCandidate ty kUnnamed m (typeIndex_ T)).
Proof.
  unfold T'. rewrite (p_tables _ _ _ _ _ _ _ _ _ _ _ O). simpl.
  rewrite (l_index _ _ (p_slots _ _ _ _ _ _ _ _ _ _ _ O)).
  apply (x_index _ _ _ _ _ _ (p_context _ _ _ _ _ _ _ _ _ _ _ O)).
Qed.

Lemma graph_core L : graph noop (tables_ R) (mjoin (pending_ R)) pbs bound L T → core T.
Proof. intros G. apply (k_core _ _ _ _ _ _ _ (gr_linked _ _ _ _ _ _ _ G)). Qed.

Lemma graph_index : TypeIndex.wf (typeIndex_ T).
Proof.
  destruct (p_graph _ _ _ _ _ _ _ _ _ _ _ O) as [L G].
  rewrite (gr_index _ _ _ _ _ _ _ G). apply TypeIndex.sorted_wf.
Qed.

Lemma final_entry ty' n' : TypeIndex.entryFor (typeIndex_ T') ty' n' =
  if decide ((ty', n') = (ty, kUnnamed))
  then Some (TypeIndex.push_candidates [m]
    (default TypeIndex.empty_entry (TypeIndex.entryFor (typeIndex_ T) ty kUnnamed)))
  else TypeIndex.entryFor (typeIndex_ T) ty' n'.
Proof. rewrite final_index. apply TypeIndex.late_entryFor, graph_index. Qed.

Lemma graph_pair ty' n' d : d ∈ of_pair T ty' n' ↔
  d ∈ default [] (TypeIndex.candidatesFor (typeIndex_ T) ty' n').
Proof.
  destruct (p_graph _ _ _ _ _ _ _ _ _ _ _ O) as [L G].
  pose proof (graph_core L G) as HC. pose proof (gr_index _ _ _ _ _ _ _ G) as Hx.
  unfold TypeIndex.candidatesFor.
  destruct (TypeIndex.entryFor (typeIndex_ T) ty' n') as [e|] eqn:He; simpl.
  - destruct (entry_perm T Hx _ _ _ He) as [Hp _]. by rewrite Hp.
  - destruct (of_pair T ty' n') as [|d0 l] eqn:Ho; [done|].
    destruct (pair_entry T Hx ty' n') as [e He']; [by rewrite Ho|]. congruence.
Qed.

(** The candidates of a pair are exactly the descriptors of that type and name. *)
Lemma final_candidates ty' n' d :
  d ∈ default [] (TypeIndex.candidatesFor (typeIndex_ T') ty' n') ↔
  ∃ c, DescriptorTable.coldAt D' d = Some c ∧ exposedType c = ty' ∧ name c = n'.
Proof.
  setoid_rewrite final_cold. destruct (p_graph _ _ _ _ _ _ _ _ _ _ _ O) as [L G].
  pose proof (graph_pair ty' n' d) as Hg. rewrite elem_of_pair in Hg.
  assert (d = m → ¬ ∃ c, DescriptorTable.coldAt (descriptors_ T) d = Some c) as Hm.
  { intros -> [c Hc%vat_lt]. rewrite (DescriptorTable.wf_cold _ (c_table _ (graph_core L G))) in Hc.
    unfold m, DescriptorTable.size in Hc. lia. }
  unfold TypeIndex.candidatesFor in *. rewrite final_entry. case_decide as Heq.
  - injection Heq as -> ->. simpl. rewrite elem_of_app, list_elem_of_singleton.
    assert (d ∈ TypeIndex.candidates (default TypeIndex.empty_entry
      (TypeIndex.entryFor (typeIndex_ T) ty kUnnamed)) ↔
      d ∈ default [] (TypeIndex.candidates <$> TypeIndex.entryFor (typeIndex_ T) ty kUnnamed)) as ->
      by by destruct (TypeIndex.entryFor (typeIndex_ T) ty kUnnamed).
    rewrite <-Hg. case_decide as Hd; [|naive_solver].
    split; [intros _; by eexists|]. by right.
  - rewrite <-Hg. case_decide as Hd; [|done].
    split; [intros (c & Hc & _); by destruct (Hm Hd); eauto|].
    intros (c & [= <-] & <- & <-). by destruct Heq.
Qed.

(** ** The slots *)

Lemma final_session i x : DescriptorTable.at_ D' i = Some x →
  sessionSlot x = (if decide (lifetime x = Session)
    then sessions_in (take (N.to_nat i) (DescriptorTable.entries_ (descriptors_ T1)))
    else kInvalidSessionSlot) ∧
  ∃ y, DescriptorTable.at_ (descriptors_ T1) i = Some y ∧ lifetime y = lifetime x.
Proof.
  rewrite final_descriptors, (l_at _ _ (p_slots _ _ _ _ _ _ _ _ _ _ _ O)).
  destruct (DescriptorTable.at_ (descriptors_ T1) i) as [y|] eqn:Hy; [|done].
  intros [= <-]. split; [done|]. by exists y.
Qed.

End opened.

(** ** Repeated contributions *)

Lemma mfold_app {S A B} (f : A → B → M S B) l1 l2 b s :
  mfold f (l1 ++ l2) b s = mbind_ (mfold f l1 b) (mfold f l2) s.
Proof.
  revert b s. induction l1 as [|a l1 IH]; intros b s; [done|]. simpl. unfold mbind_ at 1 2 3.
  destruct (f a b s) as [[b'|e| | |] s']; [|done..]. apply IH.
Qed.

(** A check that leaves the state alone can be made twice. *)
Definition readonly {S} (m : M S unit) : Prop := ∀ s, (m s).2 = s.

Lemma readonly_for {S A} (f : A → M S unit) l : (∀ a, readonly (f a)) → readonly (mfor f l).
Proof.
  intros H. induction l as [|a l IH]; intros s; [done|]. simpl. unfold mbind_.
  pose proof (H a s) as Ha. destruct (f a s) as [[u|e| | |] s']; simpl in *; subst; [apply IH|done..].
Qed.

Lemma for_ok {S A} (f : A → M S unit) l s u s' : (∀ a, readonly (f a)) →
  mfor f l s = (Ok u, s') → ∀ a, a ∈ l → f a s = (Ok tt, s).
Proof.
  intros Hr. revert s. induction l as [|a0 l IH]; intros s H a; [by intros ?%not_elem_of_nil|].
  simpl in H. unfold mbind_ in H. pose proof (Hr a0 s) as Ha.
  destruct (f a0 s) as [[[]|e| | |] s1] eqn:E; try done. simpl in Ha. subst s1.
  intros [->|Hin]%elem_of_cons; [done|by apply IH].
Qed.

Lemma for_repeated {S A} (f : A → M S unit) l1 l2 s : (∀ a, readonly (f a)) →
  (∀ a, a ∈ l2 → a ∈ l1) → mfor f (l1 ++ l2) s = mfor f l1 s.
Proof.
  intros Hr Hsub.
  assert (mfor f (l1 ++ l2) s = mbind_ (mfor f l1) (λ _, mfor f l2) s) as ->.
  { clear Hsub. revert s. induction l1 as [|a l1 IH]; intros s; [done|]. simpl. unfold mbind_ at 1 2 3.
    destruct (f a s) as [[u|e| | |] s']; [|done..]. apply IH. }
  unfold mbind_. pose proof (readonly_for f l1 Hr s) as Hs.
  destruct (mfor f l1 s) as [[[]|e| | |] s'] eqn:E; [|done..]. simpl in Hs. subst s'.
  assert (∀ a, a ∈ l2 → f a s = (Ok tt, s)) as Hok.
  { intros a Ha. by eapply for_ok, Hsub. }
  clear E Hsub. induction l2 as [|a l2 IH]; [done|]. simpl. unfold mbind_.
  rewrite Hok by by left. apply IH. intros a' Ha'. apply Hok. by right.
Qed.

Lemma check_param_readonly c p : readonly (check_param c p).
Proof.
  intros T. unfold check_param, mbind_, mget. destruct (injected T p) as [d|]; [|done].
  destruct (DescriptorTable.at_ (descriptors_ T) d); [|done]. cbn [mlift]. unfold mreturn at 1.
  by repeat case_match.
Qed.

Definition with_pending (p : list (list ContributedDescriptor)) (R : t) : t :=
  {| started_ := started_ R; root_ := root_ R; beanContextDescId_ := beanContextDescId_ R;
     sessionSlotCount_ := sessionSlotCount_ R;
     beanContextStartLifecyclePending_ := beanContextStartLifecyclePending_ R;
     tables_ := tables_ R; defaults_ := defaults_ R; singletons_ := singletons_ R;
     pending_ := p; startLifecyclePending_ := startLifecyclePending_ R;
     pendingRuntimeSingletons_ := pendingRuntimeSingletons_ R |}.

(** A step that does not touch the submitted contributions. *)
Definition frames {A} (m : M t A) : Prop :=
  ∀ p R, m (with_pending p R) = let '(o, R') := m R in (o, with_pending p R').

Lemma frames_bind {A B} (m : M t A) (k : A → M t B) :
  frames m → (∀ a, frames (k a)) → frames (mbind_ m k).
Proof.
  intros Hm Hk p R. unfold mbind_. rewrite Hm.
  destruct (m R) as [[a|e| | |] R']; [|done..]. apply Hk.
Qed.

Lemma frames_tables {A} (m : M tables A) : frames (on_tables m).
Proof. intros p R. unfold on_tables. simpl. by destruct (m (tables_ R)). Qed.

Lemma frames_for {A} (f : A → M t unit) l : (∀ a, frames (f a)) → frames (mfor f l).
Proof. intros H. induction l; [done|]. by apply frames_bind. Qed.

Lemma frames_context ctx id : frames (store_context ctx id).
Proof. intros p R. unfold store_context. simpl. by case_match. Qed.

Lemma frames_bound b : frames (store_bound b).
Proof. intros p R. unfold store_bound. simpl. by case_match. Qed.

(** Merging contributions that were merged already changes nothing. *)
Lemma merge_repeated T0 cds dups T L : merged T0 (distinct [] cds) T L →
  (∀ cd, cd ∈ cds → ∃ cd', cd' ∈ distinct [] cds ∧ cd_identity cd' = cd_identity cd ∧
     same_key cd' cd) →
  (∀ cd, cd ∈ dups → cd ∈ cds) →
  mfold merge_one dups L T = (Ok L, T).
Proof.
  intros H Hall. induction dups as [|cd dups IH]; intros Hsub; [done|]. cbn [mfold].
  destruct (Hall cd) as (cd' & [i Hi]%vat_elem & Hk & Hs); [apply Hsub; by left|].
  destruct (check_duplicate_run T0 cd cd' i _ T L H Hi) as (e & _ & Hrun).
  unfold mbind_, merge_one. rewrite (proj2 (m_identity _ _ _ _ H (cd_identity cd) _)) by eauto.
  unfold mbind_. rewrite Hrun, decide_True by done. unfold mreturn. apply IH.
  intros cd0 H0. apply Hsub. by right.
Qed.

Section claims.
Context `{SS : StdSort} (noop : FnPtr) (contextTypeInfo : TypeInfo) (contextAlign : N).

Let start := start noop contextTypeInfo contextAlign.

(** A successful start has the intermediate states of [opened]. *)
Lemma start_opened ctx R R' : unstarted R → enough_room R → ctx ≠ nullptr →
  start ctx R = (Ok tt, R') →
  acceptable (tables_ R) (mjoin (pending_ R)) (pendingRuntimeSingletons_ R) ∧
  ∃ bound T ty T1 T2, opened noop contextTypeInfo contextAlign ctx R R' bound T ty T1 T2 ∧
    ¬ misinjected T (mjoin (pending_ R)).
Proof.
  intros HR Hr Hc H. pose proof (start_spec noop contextTypeInfo contextAlign ctx R HR Hr Hc) as Hs.
  unfold ends in Hs. fold start in Hs. by rewrite H in Hs.
Qed.

(** Session slots are dense: after [start()] the session descriptors have the
    slots 0, 1, ... in descriptor order, every slot below [sessionSlotCount_] and each
    one taken exactly once, far from the invalid slot, which every other descriptor
    holds. *)
Theorem session_slots_dense (ctx : ptr) (R R' : t) :
  unstarted R → enough_room R → ctx ≠ nullptr → start ctx R = (Ok tt, R') →
  let D := descriptors_ (tables_ R') in
  sessionSlotCount_ R' < kInvalidSessionSlot ∧
  (∀ d x, DescriptorTable.at_ D d = Some x →
     if decide (lifetime x = Session) then sessionSlot x < sessionSlotCount_ R'
     else sessionSlot x = kInvalidSessionSlot) ∧
  (∀ d d' x x', DescriptorTable.at_ D d = Some x → DescriptorTable.at_ D d' = Some x' →
     lifetime x = Session → lifetime x' = Session → d < d' → sessionSlot x < sessionSlot x') ∧
  (∀ s, s < sessionSlotCount_ R' →
     ∃ d x, DescriptorTable.at_ D d = Some x ∧ lifetime x = Session ∧ sessionSlot x = s).
Proof.
  intros HR Hr Hc (_ & bound & T & ty & T1 & T2 & O & _)%start_opened; [|done..]. cbv zeta.
  rewrite (p_count _ _ _ _ _ _ _ _ _ _ _ O).
  set (es := DescriptorTable.entries_ (descriptors_ T1)).
  assert (∀ d x, DescriptorTable.at_ (descriptors_ (tables_ R')) d = Some x →
    lifetime x = Session → ∃ y, es !! N.to_nat d = Some y ∧ lifetime y = Session ∧
      sessionSlot x = sessions_in (take (N.to_nat d) es)) as Hsess.
  { intros d x Hx Hl. destruct (final_session _ _ _ _ _ _ _ _ _ _ _ O d x Hx) as (Hs & y & Hy & Hly).
    rewrite decide_True in Hs by done. exists y. unfold DescriptorTable.at_ in Hy.
    rewrite vat_lookup in Hy. split_and!; [done|congruence|done]. }
  split_and!.
  - pose proof (sessions_in_length es). pose proof (final_size _ _ _ _ _ _ _ _ _ _ _ O) as Hs.
    destruct (p_graph _ _ _ _ _ _ _ _ _ _ _ O) as [L G].
    pose proof (gr_room _ _ _ _ _ _ _ G) as (Hroom & _ & _).
    assert (nlen es = DescriptorTable.size (descriptors_ T) + 1) as Hes
      by apply (x_size _ _ _ _ _ _ (p_context _ _ _ _ _ _ _ _ _ _ _ O)).
    unfold kInvalidSessionSlot, kInvalidDescriptorId in *. lia.
  - intros d x Hx. destruct (decide (lifetime x = Session)) as [Hl|Hl].
    + destruct (Hsess d x Hx Hl) as (y & Hy & Hly & ->).
      pose proof (sessions_in_take_lt es _ (length es) y Hy Hly (lookup_lt_Some _ _ _ Hy)) as H.
      by rewrite firstn_all in H.
    + destruct (final_session _ _ _ _ _ _ _ _ _ _ _ O d x Hx) as (Hs & _).
      by rewrite decide_False in Hs.
  - intros d d' x x' Hx Hx' Hl Hl' Hlt.
    destruct (Hsess d x Hx Hl) as (y & Hy & Hly & ->).
    destruct (Hsess d' x' Hx' Hl') as (y' & Hy' & Hly' & ->).
    eapply sessions_in_take_lt; [done..|lia].
  - intros s Hs. destruct (sessions_in_nth es s Hs) as (i & y & Hi & Hl & Ht).
    assert (DescriptorTable.at_ (descriptors_ (tables_ R')) (N.of_nat i) =
      Some (set_sessionSlot (slot_at (descriptors_ T1) (N.of_nat i) y) y)) as Hx.
    { rewrite (final_descriptors _ _ _ _ _ _ _ _ _ _ _ O), (l_at _ _ (p_slots _ _ _ _ _ _ _ _ _ _ _ O)).
      unfold DescriptorTable.at_. rewrite vat_lookup, Nat2N.id. fold es. by rewrite Hi. }
    eexists _, _. split_and!; [exact Hx|done|]. simpl. unfold slot_at.
    by rewrite decide_True, Nat2N.id.
Qed.

(** C16 What [start()] accepts: on a registry with room below the 32-bit sentinels it
    returns exactly when the submitted contributions can be merged (repeated identities
    agree on type, name and lifetime, no binding takes the key of another candidate, every
    factory and primary referred to was submitted, no two products of one factory share type
    and name) and no parameter descriptor of a contribution is misannotated, that is,
    [scoped] although the first candidate of its type and qualifier is not a session bean,
    or not [scoped] in a non-session bean although that candidate is one; otherwise it
    throws a [ConfigurationError] and the registry is not started. The check sees the
    constructor parameters of annotated classes (factories and products have no parameter
    descriptors), in the tables of the contributions and bindings: a parameter whose type or
    qualifier is not known there is accepted, one of type [ctr::BeanContext] among them,
    which is interned after the check. The call always ends, outside undefined behaviour. *)
Theorem start_decides (ctx : ptr) (R : t) :
  unstarted R → enough_room R → ctx ≠ nullptr →
  let cds := mjoin (pending_ R) in
  let ok := acceptable (tables_ R) cds (pendingRuntimeSingletons_ R) in
  match start ctx R with
  | (Ok _, R') => started_ R' = true ∧ ok ∧
      ∃ bound T, graph_of noop R bound T ∧ ¬ misinjected T cds
  | (Throw e, R') => is_config e ∧ started_ R' = false ∧
      (ok → ∃ bound T, graph_of noop R bound T ∧ misinjected T cds)
  | _ => False
  end.
Proof.
  intros HR Hr Hc. pose proof (start_spec noop contextTypeInfo contextAlign ctx R HR Hr Hc) as Hs.
  unfold ends in Hs. fold start in Hs. cbv zeta.
  destruct (start ctx R) as [[a|e| | |] R']; [|exact Hs|exact Hs..].
  destruct Hs as (Hac & bound & T & ty & T1 & T2 & O & Hm).
  split_and!; [by eapply p_started|done|]. exists bound, T. split; [by eapply p_graph|done].
Qed.

(** The descriptor an identity refers to; [dflt] without a reference. *)
Definition points_to (R : t) (ref : option Identity) (dflt id : DescriptorId) : Prop :=
  match ref with
  | None => id = dflt
  | Some k => ∃ j cd, vat (distinct [] (mjoin (pending_ R))) j = Some cd ∧
      cd_identity cd = k ∧ id = DescriptorTable.size (descriptors_ (tables_ R)) + j
  end.

(** Contribution [i] as the started registry [R'] holds it. *)
Definition translated (R R' : t) (i : N) (cd : ContributedDescriptor) : Prop :=
  let T' := tables_ R' in
  let d := DescriptorTable.size (descriptors_ (tables_ R)) + i in
  ∃ slot p f e k n,
    DescriptorTable.at_ (descriptors_ T') d =
      Some (set_sessionSlot slot (set_primaryDescriptor p (hot_of cd))) ∧
    DescriptorTable.coldAt (descriptors_ T') d =
      Some (set_factoryMethodDescriptor f (cold_of cd e k n)) ∧
    TypeInterning.nameOf (typeInterning_ T') e = Some (cd_exposedTypeName cd) ∧
    TypeInterning.nameOf (typeInterning_ T') k = Some (cd_concreteTypeName cd) ∧
    NameInterning.nameOf (nameInterning_ T') n = Some (cd_beanName cd) ∧
    points_to R (alias_ref cd) (if cd_isExposedAlias cd then kInvalidDescriptorId else d) p ∧
    points_to R (factory_ref cd) kInvalidDescriptorId f.

Lemma points_to_link R bound L T i cd :
  graph noop (tables_ R) (mjoin (pending_ R)) (pendingRuntimeSingletons_ R) bound L T →
  acceptable (tables_ R) (mjoin (pending_ R)) (pendingRuntimeSingletons_ R) →
  vat (distinct [] (mjoin (pending_ R))) i = Some cd →
  points_to R (alias_ref cd) (if cd_isExposedAlias cd then kInvalidDescriptorId
    else DescriptorTable.size (descriptors_ (tables_ R)) + i) (prim_of (tables_ R) L i cd) ∧
  points_to R (factory_ref cd) kInvalidDescriptorId (fac_of L i cd).
Proof.
  intros G Hac Hi. assert (cd ∈ distinct [] (mjoin (pending_ R))) as Hin by (apply vat_elem; eauto).
  assert (∀ k, (∃ cd', cd' ∈ distinct [] (mjoin (pending_ R)) ∧ cd_identity cd' = k) →
    ∃ j cd', vat (distinct [] (mjoin (pending_ R))) j = Some cd' ∧ cd_identity cd' = k ∧
      resolve_link L k = DescriptorTable.size (descriptors_ (tables_ R)) + j) as Hk.
  { intros k (cd' & [j Hj]%vat_elem & Hk). exists j, cd'. split_and!; [done..|].
    unfold resolve_link. by rewrite (proj2 (gr_identity _ _ _ _ _ _ _ G k _)) by eauto. }
  unfold points_to, prim_of, fac_of, prim0. split.
  - destruct (alias_ref cd) as [k|] eqn:Hr; [|done].
    by apply Hk, (ac_aliases _ _ _ Hac cd).
  - destruct (factory_ref cd) as [k|] eqn:Hr; [|done].
    by apply Hk, (ac_factories _ _ _ Hac cd).
Qed.

Lemma contribution_translated (ctx : ptr) (R R' : t) i cd :
  unstarted R → enough_room R → ctx ≠ nullptr → start ctx R = (Ok tt, R') →
  vat (distinct [] (mjoin (pending_ R))) i = Some cd → translated R R' i cd.
Proof.
  intros HR Hr Hc (Hac & bound & T & ty & T1 & T2 & O & _)%start_opened Hi; [|done..].
  pose proof (p_graph _ _ _ _ _ _ _ _ _ _ _ O) as [L G].
  pose proof (gr_linked _ _ _ _ _ _ _ G) as Hl. pose proof (k_size _ _ _ _ _ _ _ Hl) as Hsz.
  pose proof (final_at _ _ _ _ _ _ _ _ _ _ _ O) as Hat.
  pose proof (final_cold _ _ _ _ _ _ _ _ _ _ _ O) as Hcold.
  destruct (points_to_link R bound L T i cd G Hac Hi) as [Hp Hf].
  destruct (k_seen _ _ _ _ _ _ _ Hl _ _ Hi) as (Hx & c & Hc0 & e & k & n & -> & He & Hk & Hn).
  pose proof (vat_lt _ _ _ Hi) as Hlt.
  eexists _, (prim_of (tables_ R) L i cd), (fac_of L i cd), e, k, n.
  rewrite Hat, Hcold, !decide_False by (rewrite Hsz; lia). rewrite Hx, Hc0.
  split_and!; [done|done|by eapply final_types..|by eapply final_names|done|done].
Qed.

(** C15 What [start()] builds: one descriptor per distinct identity, in submission order
    after those already there, with the fields, the interned type and bean names, the
    primary and the factory of its contribution; one per earlier binding, whose object
    the singleton store then returns; and the context bean.  The candidates of every
    (type, name) pair are exactly the descriptors of that exposed type and name. *)
Theorem start_translates (ctx : ptr) (R R' : t) :
  unstarted R → enough_room R → ctx ≠ nullptr → start ctx R = (Ok tt, R') →
  let seen := distinct [] (mjoin (pending_ R)) in
  let n := DescriptorTable.size (descriptors_ (tables_ R)) + nlen seen in
  let D' := descriptors_ (tables_ R') in
  DescriptorTable.wf D' ∧
  DescriptorTable.size D' = n + nlen (pendingRuntimeSingletons_ R) + 1 ∧
  (∀ i cd, vat seen i = Some cd → translated R R' i cd) ∧
  (∀ j pb, vat (pendingRuntimeSingletons_ R) j = Some pb →
     SingletonStore.find (singletons_ R') (n + j) = Some (p_instance pb) ∧
     ∃ c, DescriptorTable.coldAt D' (n + j) = Some c ∧ origin c = RuntimeBinding ∧
       TypeInterning.nameOf (typeInterning_ (tables_ R')) (exposedType c) = Some (p_typeName pb) ∧
       name c = p_nameId pb) ∧
  SingletonStore.find (singletons_ R') (beanContextDescId_ R') = Some ctx ∧
  (∀ ty nm d, d ∈ default [] (TypeIndex.candidatesFor (typeIndex_ (tables_ R')) ty nm) ↔
     ∃ c, DescriptorTable.coldAt D' d = Some c ∧ exposedType c = ty ∧ name c = nm).
Proof.
  intros HR Hr Hc Hrun. cbv zeta.
  destruct (start_opened ctx R R' HR Hr Hc Hrun) as (Hac & bound & T & ty & T1 & T2 & O & _).
  pose proof (p_graph _ _ _ _ _ _ _ _ _ _ _ O) as [L G].
  pose proof (gr_linked _ _ _ _ _ _ _ G) as Hl. pose proof (k_size _ _ _ _ _ _ _ Hl) as Hsz.
  pose proof (final_at _ _ _ _ _ _ _ _ _ _ _ O) as Hat.
  pose proof (final_cold _ _ _ _ _ _ _ _ _ _ _ O) as Hcold.
  split_and!.
  - by eapply final_wf.
  - rewrite (final_size _ _ _ _ _ _ _ _ _ _ _ O), Hsz. lia.
  - intros i cd Hi. by eapply contribution_translated.
  - intros j pb Hj. pose proof (vat_lt _ _ _ Hj) as Hlt.
    destruct (proj2 (vat_is_Some bound j)) as [b Hb]; [by rewrite (gr_bound_length _ _ _ _ _ _ _ G)|].
    destruct (gr_bound _ _ _ _ _ _ _ G j b Hb) as (pb' & Hpb' & Hid & Hi).
    rewrite Hj in Hpb'. injection Hpb' as <-. split.
    + rewrite (SingletonStore.find_value _ _ (p_wf _ _ _ _ _ _ _ _ _ _ _ O)), <-Hid, <-Hi.
      f_equal. apply (p_bound _ _ _ _ _ _ _ _ _ _ _ O), vat_elem; eauto.
    + destruct (k_bound _ _ _ _ _ _ _ Hl _ _ Hj) as (_ & ty' & Hc0 & Hn).
      exists (bound_cold noop pb ty'). rewrite Hcold, decide_False by (rewrite Hsz; lia).
      split_and!; [done|done|by eapply final_types|done].
  - rewrite (SingletonStore.find_value _ _ (p_wf _ _ _ _ _ _ _ _ _ _ _ O)).
    by rewrite (p_id _ _ _ _ _ _ _ _ _ _ _ O), (p_ctx _ _ _ _ _ _ _ _ _ _ _ O).
  - intros ty' nm d. by eapply final_candidates.
Qed.

(** The phases after the merge, on the maps [L] it returned. *)
Definition after_merge (cds : list ContributedDescriptor) (pbs : list PendingRuntimeSingleton)
    (L : links) : M t (list StartBound) :=
  let! runtimeBound := on_tables (mfold (bind_one noop) pbs []) in
  do! mupd clear_bound in
  do! on_tables (mfor (link_factory L) (factoryLinks L)) in
  do! on_tables (mfor (link_alias L) (aliasLinks L)) in
  do! on_tables sort_index in
  let! R := mget in
  do! on_tables (mfor check_producers
                   (ids (TypeInterning.size (typeInterning_ (tables_ R))))) in
  do! on_tables (mfor check_injection cds) in
  mreturn runtimeBound.

Lemma frames_after cds pbs L : frames (after_merge cds pbs L).
Proof.
  unfold after_merge.
  do 5 (apply frames_bind; [first [apply frames_tables|done]|intros ?]).
  intros p R. unfold mbind_ at 1, mget. cbn [with_pending tables_].
  assert (frames (do! on_tables (mfor check_producers
    (ids (TypeInterning.size (typeInterning_ (tables_ R))))) in
    do! on_tables (mfor check_injection cds) in mreturn a)) as H.
  { apply frames_bind; [apply frames_tables|intros _].
    by apply frames_bind; [apply frames_tables|]. }
  apply H.
Qed.

Lemma mbind_ext {S A B} (m m' : M S A) (f g : A → M S B) s :
  m s = m' s → (∀ a s', m s = (Ok a, s') → f a s' = g a s') → mbind_ m f s = mbind_ m' g s.
Proof.
  intros Hm Hf. unfold mbind_. rewrite <-Hm. destruct (m s) as [[a|e| | |] s'] eqn:E; [|done..].
  by apply Hf.
Qed.

Lemma after_repeated cds dups pbs L R : (∀ cd, cd ∈ dups → cd ∈ cds) →
  after_merge (cds ++ dups) pbs L R = after_merge cds pbs L R.
Proof.
  intros Hsub. unfold after_merge. do 7 (apply mbind_ext; [done|intros ? ? _]).
  apply mbind_ext; [|done]. unfold on_tables. rewrite for_repeated; [done| |exact Hsub].
  intros cd. apply readonly_for. intros p. apply check_param_readonly.
Qed.

(** Merging [cds] again, in any selection, changes no phase. *)
Lemma merge_phases_repeated R dups : unstarted R → enough_room R →
  (∀ cd, cd ∈ dups → cd ∈ mjoin (pending_ R)) →
  merge_phases noop (mjoin (pending_ R) ++ dups) (pendingRuntimeSingletons_ R) R =
    merge_phases noop (mjoin (pending_ R)) (pendingRuntimeSingletons_ R) R.
Proof.
  intros HR Hroom Hsub. set (cds := mjoin (pending_ R)) in *.
  set (pbs := pendingRuntimeSingletons_ R) in *.
  change (mbind_ (on_tables (mfold merge_one (cds ++ dups) no_links)) (after_merge (cds ++ dups) pbs) R
    = mbind_ (on_tables (mfold merge_one cds no_links)) (after_merge cds pbs) R).
  apply mbind_ext; [|intros L R1 _; by apply after_repeated].
  unfold on_tables. rewrite mfold_app. unfold mbind_.
  pose proof (merge_all_spec (tables_ R) cds [] (tables_ R) no_links (nlen pbs + 1)) as H.
  unfold ends in H. destruct (mfold merge_one cds no_links (tables_ R)) as [[L|e| | |] T]; [|done..].
  destruct H as (Hm & _ & Hall).
  - by apply merged_nil; destruct HR.
  - replace (nlen pbs + 1 + nlen cds) with (nlen cds + nlen pbs + 1) by lia. exact Hroom.
  - by rewrite (merge_repeated _ _ _ _ _ Hm Hall Hsub).
Qed.

Lemma frames_phases cds pbs : frames (merge_phases noop cds pbs).
Proof.
  change (frames (mbind_ (on_tables (mfold merge_one cds no_links)) (after_merge cds pbs))).
  apply frames_bind; [apply frames_tables|apply frames_after].
Qed.

(** The phases that open the registry. *)
Definition opening (ctx : ptr) (bound : list StartBound) : M t unit :=
  let! id := on_tables (register_context noop contextTypeInfo contextAlign) in
  do! store_context ctx id in
  let! n := on_tables assign_slots in
  do! mupd (set_slotCount n) in
  do! mfor store_bound bound in
  mupd publish.

Lemma frames_opening ctx bound : frames (opening ctx bound).
Proof.
  apply frames_bind; [apply frames_tables|intros id].
  apply frames_bind; [apply frames_context|intros _].
  apply frames_bind; [apply frames_tables|intros n].
  apply frames_bind; [done|intros _].
  apply frames_bind; [apply frames_for; intros b; apply frames_bound|done].
Qed.

Lemma start_first ctx R : started_ R = false → beanContextDescId_ R = kInvalidDescriptorId →
  start ctx R = mbind_ (merge_phases noop (mjoin (pending_ R)) (pendingRuntimeSingletons_ R))
    (opening ctx) R.
Proof. intros Hs Hc. unfold start, Startup.start. unfold mbind_ at 1, mget. by rewrite Hs, Hc. Qed.

(** Submitting contributions again is harmless: when [dups] repeats contributions
    already submitted (a header discovered from several translation units), [start()]
    ends the same way, with the same tables, slots and stores; only the submission is
    remembered. *)
Theorem start_dedup (ctx : ptr) (R : t) (dups : list ContributedDescriptor) :
  unstarted R → enough_room R → (∀ cd, cd ∈ dups → cd ∈ mjoin (pending_ R)) →
  (do! submitContribution dups in start ctx) R =
    let '(o, R') := start ctx R in (o, with_pending (pending_ R ++ [dups]) R').
Proof.
  intros HR Hroom Hsub. unfold mbind_ at 1.
  assert (submitContribution dups R = (Ok tt, with_pending (pending_ R ++ [dups]) R)) as ->.
  { unfold submitContribution, with_pending. by rewrite (u_started _ HR). }
  change (start ctx (with_pending (pending_ R ++ [dups]) R) =
    let '(o, R') := start ctx R in (o, with_pending (pending_ R ++ [dups]) R')).
  rewrite !start_first by apply HR. cbn [with_pending pending_ pendingRuntimeSingletons_].
  assert (mjoin (pending_ R ++ [dups]) = mjoin (pending_ R) ++ dups) as ->.
  { rewrite join_app. simpl. by rewrite (right_id_L [] (++)). }
  rewrite (frames_bind _ _ (frames_phases _ _) (frames_opening ctx)).
  rewrite (mbind_ext _ (merge_phases noop (mjoin (pending_ R)) (pendingRuntimeSingletons_ R))
    _ (opening ctx)); [done| |done].
  by apply merge_phases_repeated.
Qed.

End claims.

(** ** Witnesses *)

Lemma launched : SampleStart.launch SampleStart.discovered =
  (Ok tt, (SampleStart.launch SampleStart.discovered).2).
Proof.
  assert ((SampleStart.launch SampleStart.discovered).1 = Ok tt) as H by by vm_compute.
  by rewrite <-H, <-surjective_pairing.
Qed.

(** The consumer annotated as the session bean requires is accepted; without the
    annotation, the start throws. *)
Lemma start_decides_witness :
  let R := SampleStart.registry [SampleStart.unit1; SampleStart.unit2] in
  let Rx := SampleStart.registry [[SampleStart.session_bean; SampleStart.consumer false]] in
  (SampleStart.launch R).1 = Ok tt ∧
  acceptable (tables_ R) (mjoin (pending_ R)) (pendingRuntimeSingletons_ R) ∧
  (SampleStart.launch Rx).1 = Throw (session_error (Some "S"%string)) ∧
  is_config (session_error (Some "S"%string)) ∧ started_ (SampleStart.launch Rx).2 = false.
Proof.
  intros R Rx. assert ((SampleStart.launch R).1 = Ok tt) as H by by vm_compute.
  assert ((SampleStart.launch Rx).1 = Throw (session_error (Some "S"%string))) as Hx by by vm_compute.
  pose proof (start_decides 0 99 8 300 R (SampleStart.registry_unstarted _)
    SampleStart.discovered_room) as Ho.
  pose proof (start_decides 0 99 8 300 Rx (SampleStart.registry_unstarted _)) as Hxo.
  change (start 0 99 8 300 R) with (SampleStart.launch R) in Ho.
  change (start 0 99 8 300 Rx) with (SampleStart.launch Rx) in Hxo.
  destruct (SampleStart.launch R) as [o R1], (SampleStart.launch Rx) as [ox Rx1].
  simpl in H, Hx. subst o ox. destruct Ho as (_ & Hok & _); [done|].
  destruct Hxo as (Hc & Hs & _); [by vm_compute|done|]. done.
Defined.

(** The product points at its factory, though it was discovered before it. *)
Lemma start_translates_witness :
  let R := SampleStart.discovered in
  let R' := (SampleStart.launch R).2 in
  translated R R' 0 SampleStart.made ∧
  SingletonStore.find (singletons_ R') 5 = Some 500 ∧
  SingletonStore.find (singletons_ R') (beanContextDescId_ R') = Some 300.
Proof.
  intros R R'. destruct (start_translates 0 99 8 300 R R' SampleStart.discovered_unstarted
    SampleStart.discovered_room) as (_ & _ & Ht & Hb & Hctx & _); [done|apply launched|].
  split_and!; [by apply Ht| |done].
  destruct (Hb 0 SampleStart.bound) as [Hi _]; [by vm_compute|].
  exact Hi.
Defined.

(** ** A start that failed *)

(** The objects [resolve] can find in the singleton store. *)
Definition objects (R : t) : list ptr :=
  omap (λ d, p ← SingletonStore.find (singletons_ R) d; if p =? nullptr then None else Some p)
    (ids (DescriptorTable.size (descriptors_ (tables_ R)))).

(** The head candidate of a type by name, unnamed, and whether it is ambiguous. *)
Definition selected (R : t) (ty : string) : option (DescriptorId * bool) :=
  id ← TypeInterning.idOf (typeInterning_ (tables_ R)) ty;
  Some (TypeIndex.headFor (typeIndex_ (tables_ R)) id kUnnamed).

(** A failed [start()] is not undone: after a start rejected for a missing factory,
    discovering the factory and starting again succeeds, but the first attempt's
    descriptors were kept and are merged a second time, so the session bean has two
    equal candidates and is ambiguous, and the object bound before the first start has
    been dropped; starting once with the same contributions has neither effect. *)
Theorem failed_start_poisons_retry :
  let attempt := SampleStart.launch (SampleStart.registry [SampleStart.unit1]) in
  let retry := SampleStart.launch (submitContribution SampleStart.unit2 attempt.2).2 in
  let once := SampleStart.launch SampleStart.discovered in
  (attempt.1 = Throw (factory_error "A") ∧ retry.1 = Ok tt ∧ once.1 = Ok tt) ∧
  (selected retry.2 "S" = Some (1, true) ∧ selected once.2 "S" = Some (1, false)) ∧
  (objects retry.2 = [300] ∧ objects once.2 = [500; 300]) ∧
  pendingRuntimeSingletons_ attempt.2 = [].
Proof. by vm_compute. Qed.

End Opened.
