(* ===== verification/Freelist.v ===== *)
(** The lock-free slot freelist.

    [Module Treiber] models [internal/detail/TreiberFreelist.hpp]: the two
    operations run alone, as the functions [popTreiberFreelist] and
    [pushTreiberFreelist], and run by several threads, as the step relation
    [step] whose steps are the atomic accesses of their loops. *)
From stdpp Require Import functions.
From S2P Require Import Prelude.

Local Open Scope N_scope.

Module Treiber.

(** ** Packed heads *)

Definition kSlotMask : N := 4294967295.

Definition low (h : N) : SlotId := N.land h kSlotMask.

Definition pack (generation : N) (slot : SlotId) : N :=
  N.lor (N.shiftl generation 32) slot.

Lemma low_mod h : low h = h mod two32.
Proof. unfold low, kSlotMask. change 4294967295 with (N.ones 32). by rewrite N.land_ones. Qed.

Lemma low_small h : h < two32 → low h = h.
Proof. intros. rewrite low_mod. by apply N.mod_small. Qed.

Lemma low_lt h : low h < two32.
Proof. rewrite low_mod. apply N.mod_lt. done. Qed.

Lemma low_pack g s : s < two32 → low (pack g s) = s.
Proof.
  intros H. unfold low, pack, kSlotMask. change 4294967295 with (N.ones 32).
  rewrite N.land_lor_distr_l, !N.land_ones, N.shiftl_mul_pow2, N.Div0.mod_mul.
  rewrite N.lor_0_l. by apply N.mod_small.
Qed.

Lemma pack_0 s : pack 0 s = s.
Proof. unfold pack. by rewrite N.shiftl_0_l, N.lor_0_l. Qed.

Definition empty_head : N := kInvalidSlotId.

(** ** Shared memory *)

(** The head word and the next-free field of every slot. *)
Record mem : Type := { head : N; nextFree : gmap N N }.

Definition next_of (m : mem) (s : SlotId) : N := default 0 (nextFree m !! s).

Definition set_head (h : N) (m : mem) : mem := {| head := h; nextFree := nextFree m |}.

Definition set_next (s : SlotId) (x : N) (m : mem) : mem :=
  {| head := head m; nextFree := <[s := x]> (nextFree m) |}.

Definition init : mem := {| head := empty_head; nextFree := ∅ |}.

(** ** The operations run alone: the first compare-and-swap succeeds *)

Definition popTreiberFreelist (m : mem) : SlotId * mem :=
  let current := head m in
  if low current =? kInvalidSlotId then (kInvalidSlotId, m)
  else let slot := low current in (slot, set_head (next_of m slot) m).

Definition pushTreiberFreelist (slot : SlotId) (generation : N) (m : mem) : mem :=
  set_head (pack generation slot) (set_next slot (low (head m)) m).

(** The slots from [h] on, along the next-free fields. *)
Fixpoint chain (m : mem) (h : SlotId) (L : list SlotId) : Prop :=
  match L with
  | [] => h = kInvalidSlotId
  | s :: L' => h = s ∧ s < kInvalidSlotId ∧ next_of m s < two32 ∧ chain m (next_of m s) L'
  end.

Definition represents (m : mem) (L : list SlotId) : Prop :=
  chain m (low (head m)) L ∧ NoDup L.

Lemma next_set_eq s x m : next_of (set_next s x m) s = x.
Proof. unfold next_of; simpl. by rewrite lookup_insert_eq. Qed.

Lemma next_set_ne s s' x m : s' ≠ s → next_of (set_next s x m) s' = next_of m s'.
Proof. intros. unfold next_of; simpl. by rewrite lookup_insert_ne by congruence. Qed.

Lemma chain_set_next s x m h L : s ∉ L → chain m h L → chain (set_next s x m) h L.
Proof.
  revert h. induction L as [|s' L IH]; intros h; [done|].
  rewrite not_elem_of_cons. intros [Hne Hs] (-> & ? & ? & ?). cbn [chain].
  rewrite !next_set_ne by congruence. auto.
Qed.

Lemma chain_head h' m h L : chain m h L → chain (set_head h' m) h L.
Proof. revert h. induction L as [|s L IH]; intros h; [done|].
  intros (-> & ? & ? & ?). cbn [chain]. split_and!; auto.
Qed.

Lemma chain_lt m h L s : chain m h L → s ∈ L → s < kInvalidSlotId.
Proof.
  revert h. induction L as [|s' L IH]; intros h; [by intros _ ?%not_elem_of_nil|].
  intros (-> & ? & ? & ?) [->|]%elem_of_cons; eauto.
Qed.

Lemma chain_next m h L s : chain m h L → s ∈ L → next_of m s < two32.
Proof.
  revert h. induction L as [|s' L IH]; intros h; [by intros _ ?%not_elem_of_nil|].
  intros (-> & ? & ? & ?) [->|]%elem_of_cons; eauto.
Qed.

Lemma push_chain g s m h L : s ∉ L → s < kInvalidSlotId → h < two32 →
  chain m h L → chain (set_head (pack g s) (set_next s h m)) (low (pack g s)) (s :: L).
Proof.
  intros Hs Hlt Hh Hc. assert (s < two32) by (unfold kInvalidSlotId, two32 in *; lia).
  rewrite low_pack by done. cbn [chain].
  change (next_of (set_head ?x ?y)) with (next_of y). rewrite next_set_eq.
  split_and!; [done..|]. by apply chain_head, chain_set_next.
Qed.

Lemma represents_pop m L s : represents m (s :: L) →
  ∃ m', popTreiberFreelist m = (s, m') ∧ represents m' L.
Proof.
  intros [(Hl & Hs & Hn & Hc) [_ Hnd]%NoDup_cons].
  unfold popTreiberFreelist. rewrite Hl.
  destruct (N.eqb_spec s kInvalidSlotId); [lia|]. eexists; split; [done|].
  split; [|done]. simpl. rewrite low_small by done. by apply chain_head.
Qed.

Lemma represents_pop_nil m : represents m [] → popTreiberFreelist m = (kInvalidSlotId, m).
Proof. intros [Hc _]. unfold popTreiberFreelist. by rewrite Hc. Qed.

Lemma represents_push m L s g : represents m L → s ∉ L → s < kInvalidSlotId →
  represents (pushTreiberFreelist s g m) (s :: L).
Proof.
  intros [Hc Hnd] Hs Hlt. split; [|by constructor].
  apply push_chain; [done..|apply low_lt|done].
Qed.

(** Sequential refinement of the freelist to a stack: with no concurrent
    access, from memory that represents a list of distinct free slots, a pop of
    the empty list answers the invalid slot and changes nothing, a pop of [s :: L]
    answers [s] and leaves [L], a push of a slot not in the list puts it on top
    whatever its generation, and a pop after the push gives it back. *)
Theorem freelist_refines_stack (m : mem) (L : list SlotId) (s : SlotId) (g : N) :
  represents m L → s ∉ L → s < kInvalidSlotId →
  (match L with
   | [] => popTreiberFreelist m = (kInvalidSlotId, m)
   | s' :: L' => ∃ m', popTreiberFreelist m = (s', m') ∧ represents m' L'
   end) ∧
  represents (pushTreiberFreelist s g m) (s :: L) ∧
  ∃ m', popTreiberFreelist (pushTreiberFreelist s g m) = (s, m') ∧ represents m' L.
Proof.
  intros HL Hs Hlt. pose proof (represents_push m L s g HL Hs Hlt) as Hpush.
  split_and!; [|done|by apply represents_pop].
  destruct L as [|s' L']; [by apply represents_pop_nil|by apply represents_pop].
Qed.

(** ** Concurrent execution *)

(** Where a thread is in one of the two loops; the values are its locals. *)
Inductive pc : Type :=
| Idle
| PopLoop (current : N)
| PopCas (current next : N)
| PushLoop (slot : SlotId) (generation current : N)
| PushCas (slot : SlotId) (generation current : N).

Inductive event : Type :=
| EPop (slot : SlotId)
| EPush (slot : SlotId).

(** Shared memory, the threads, and the slots whose owner has popped them and not
    yet started to push them back. *)
Record state : Type := {
  shared : mem;
  threads : N → pc;
  owned : gset N
}.

Definition goto (t : N) (p : pc) (m : mem) (o : gset N) (S : state) : state :=
  {| shared := m; threads := <[t := p]> (threads S); owned := o |}.

(** A weak compare-and-swap may fail with the head unchanged; on failure it loads
    the head again.  A thread pushes only a slot it owns. *)
Inductive step (S : state) : option event → state → Prop :=
| pop_load t : threads S t = Idle →
    step S None (goto t (PopLoop (head (shared S))) (shared S) (owned S) S)
| pop_empty t cur : threads S t = PopLoop cur → low cur = kInvalidSlotId →
    step S None (goto t Idle (shared S) (owned S) S)
| pop_next t cur : threads S t = PopLoop cur → low cur ≠ kInvalidSlotId →
    step S None (goto t (PopCas cur (next_of (shared S) (low cur))) (shared S) (owned S) S)
| pop_cas t cur nx : threads S t = PopCas cur nx → head (shared S) = cur →
    step S (Some (EPop (low cur)))
      (goto t Idle (set_head nx (shared S)) ({[low cur]} ∪ owned S) S)
| pop_fail t cur nx : threads S t = PopCas cur nx →
    step S None (goto t (PopLoop (head (shared S))) (shared S) (owned S) S)
| push_load t s g : threads S t = Idle → s ∈ owned S → s < kInvalidSlotId →
    step S None (goto t (PushLoop s g (head (shared S))) (shared S) (owned S ∖ {[s]}) S)
| push_link t s g cur : threads S t = PushLoop s g cur →
    step S None (goto t (PushCas s g cur) (set_next s (low cur) (shared S)) (owned S) S)
| push_cas t s g cur : threads S t = PushCas s g cur → head (shared S) = cur →
    step S (Some (EPush s)) (goto t Idle (set_head (pack g s) (shared S)) (owned S) S)
| push_fail t s g cur : threads S t = PushCas s g cur →
    step S None (goto t (PushLoop s g (head (shared S))) (shared S) (owned S) S).

Definition popping (p : pc) : Prop :=
  match p with PopLoop _ | PopCas _ _ => True | _ => False end.

(** No two threads are inside a pop. *)
Definition single_popper (S : state) : Prop :=
  ∀ t t', popping (threads S t) → popping (threads S t') → t = t'.

Inductive exec (R : state → Prop) : state → list event → state → Prop :=
| exec_nil S : exec R S [] S
| exec_snoc S S1 S2 es e : exec R S es S1 → step S1 e S2 → R S2 →
    exec R S (es ++ option_list e) S2.

Definition start (o : gset N) : state :=
  {| shared := init; threads := λ _, Idle; owned := o |}.

(** ** Safety with one popper *)

Definition pushing (p : pc) : option SlotId :=
  match p with PushLoop s _ _ | PushCas s _ _ => Some s | _ => None end.

(** The invariant of the executions with one popper; [L] is the free list. *)
Record inv (S : state) (L : list SlotId) : Prop := {
  inv_chain : chain (shared S) (low (head (shared S))) L;
  inv_nodup : NoDup L;
  inv_owned : ∀ s, s ∈ L → s ∉ owned S;
  inv_push : ∀ t s, pushing (threads S t) = Some s →
    s ∉ L ∧ s ∉ owned S ∧ s < kInvalidSlotId;
  inv_push_ne : ∀ t t' s, pushing (threads S t) = Some s →
    pushing (threads S t') = Some s → t = t';
  inv_loop : ∀ t cur, threads S t = PopLoop cur → low cur ≠ kInvalidSlotId → low cur ∈ L;
  inv_cas : ∀ t cur nx, threads S t = PopCas cur nx →
    low cur ∈ L ∧ nx = next_of (shared S) (low cur);
  inv_link : ∀ t s g cur, threads S t = PushCas s g cur →
    next_of (shared S) s = low cur
}.

Lemma freelist_inv_start o : inv (start o) [].
Proof.
  split; simpl; try done.
  - constructor.
  - intros s ?%not_elem_of_nil; done.
Qed.

Ltac thread_case t t' :=
  destruct (decide (t' = t)) as [->|?];
  [rewrite ?fn_lookup_insert in *|rewrite ?fn_lookup_insert_ne in * by congruence].

(** Steps that change only the program counter of one thread. *)
Lemma inv_goto S L t p : inv S L → threads S t ≠ p →
  pushing p = pushing (threads S t) →
  (∀ cur, p = PopLoop cur → low cur ≠ kInvalidSlotId → low cur ∈ L) →
  (∀ cur nx, p = PopCas cur nx → low cur ∈ L ∧ nx = next_of (shared S) (low cur)) →
  (∀ s g cur, p = PushCas s g cur → next_of (shared S) s = low cur) →
  inv (goto t p (shared S) (owned S) S) L.
Proof.
  intros [H1 H2 H3 H4 H5 H6 H7 H8] _ Hp Hl Hc Hk. split; simpl; try done.
  - intros t' s. thread_case t t'; [rewrite Hp|]; apply H4.
  - intros t' t'' s. thread_case t t'; thread_case t t''; rewrite ?Hp; eauto.
  - intros t' cur. thread_case t t'; eauto.
  - intros t' cur nx. thread_case t t'; eauto.
  - intros t' s g cur. thread_case t t'; eauto.
Qed.

Lemma inv_head S L : inv S L →
  low (head (shared S)) ≠ kInvalidSlotId → low (head (shared S)) ∈ L.
Proof.
  intros H Hne. pose proof (inv_chain _ _ H) as Hc. destruct L as [|s L]; [done|].
  destruct Hc as [-> _]. by left.
Qed.

Lemma inv_pop_cas S L t cur nx : inv S L → single_popper S →
  threads S t = PopCas cur nx → head (shared S) = cur →
  ∃ L', L = low cur :: L' ∧
    inv (goto t Idle (set_head nx (shared S)) ({[low cur]} ∪ owned S) S) L'.
Proof.
  intros [H1 H2 H3 H4 H5 H6 H7 H8] Hone Ht Hh.
  destruct (H7 _ _ _ Ht) as [Hin ->]. rewrite Hh in H1.
  destruct L as [|s L]; [by apply not_elem_of_nil in Hin|].
  destruct H1 as (Hls & Hlt & Hn & Hc). exists L. split; [by rewrite Hls|].
  rewrite Hls in *. apply NoDup_cons in H2 as [Hs H2]. split; simpl.
  - rewrite low_small by done. by apply chain_head.
  - done.
  - intros s' Hs'. rewrite not_elem_of_union, not_elem_of_singleton. split.
    + intros ->. done.
    + apply H3. by right.
  - intros t' s'. thread_case t t'; [done|]. intros Hp.
    destruct (H4 _ _ Hp) as ([Hne Hnl]%not_elem_of_cons & ? & ?).
    split_and!; [done| |done]. by rewrite not_elem_of_union, not_elem_of_singleton.
  - intros t' t'' s'. thread_case t t'; [done|]. thread_case t t''; [done|]. eauto.
  - intros t' cur'. thread_case t t'; [done|]. intros Hp. exfalso.
    assert (t' = t); [|done]. apply Hone; [by rewrite Hp|by rewrite Ht].
  - intros t' cur' nx'. thread_case t t'; [done|]. intros Hp. exfalso.
    assert (t' = t); [|done]. apply Hone; [by rewrite Hp|by rewrite Ht].
  - intros t' s' g cur'. thread_case t t'; [done|]. apply H8.
Qed.

Lemma inv_push_load S L t s g : inv S L → threads S t = Idle → s ∈ owned S →
  s < kInvalidSlotId →
  inv (goto t (PushLoop s g (head (shared S))) (shared S) (owned S ∖ {[s]}) S) L.
Proof.
  intros [H1 H2 H3 H4 H5 H6 H7 H8] Ht Ho Hs. split; simpl; try done.
  - intros s' Hs'. rewrite elem_of_difference. intros [? _]. by apply (H3 s').
  - intros t' s'. thread_case t t'; simpl.
    + intros; simplify_eq. split_and!; [|set_solver|done]. intros Hin. by apply (H3 s').
    + intros Hp. destruct (H4 _ _ Hp) as (? & ? & ?). split_and!; [done|set_solver|done].
  - intros t' t'' s'. thread_case t t'; thread_case t t''; simpl; eauto.
    + intros ? Hp. simplify_eq. by destruct (H4 _ _ Hp) as (_ & ? & _).
    + intros Hp ?. simplify_eq. by destruct (H4 _ _ Hp) as (_ & ? & _).
  - intros t' cur. thread_case t t'; [done|]. apply H6.
  - intros t' cur nx. thread_case t t'; [done|]. apply H7.
  - intros t' s' g' cur. thread_case t t'; [done|]. apply H8.
Qed.

Lemma inv_push_link S L t s g cur : inv S L → threads S t = PushLoop s g cur →
  inv (goto t (PushCas s g cur) (set_next s (low cur) (shared S)) (owned S) S) L.
Proof.
  intros [H1 H2 H3 H4 H5 H6 H7 H8] Ht.
  assert (pushing (threads S t) = Some s) as Hp by by rewrite Ht.
  destruct (H4 _ _ Hp) as (HsL & _ & _). split; simpl; try done.
  - by apply chain_set_next.
  - intros t' s'. thread_case t t'; simpl; [|apply H4].
    intros; simplify_eq. by apply (H4 t).
  - intros t' t'' s'. thread_case t t'; thread_case t t''; simpl; eauto.
    + intros ? Hp'. simplify_eq. by apply (H5 t t'' s').
    + intros Hp' ?. simplify_eq. by apply (H5 t' t s').
  - intros t' cur'. thread_case t t'; [done|]. apply H6.
  - intros t' cur' nx. thread_case t t'; [done|]. intros Hc.
    destruct (H7 _ _ _ Hc) as [Hin ->]. split; [done|].
    rewrite next_set_ne; [done|]. intros E. by rewrite E in Hin.
  - intros t' s' g' cur'. thread_case t t'.
    + intros; simplify_eq. by rewrite next_set_eq.
    + intros Hc. rewrite next_set_ne; [by eapply H8|]. intros ->.
      assert (t' = t); [|done]. apply (H5 t' t s); [by rewrite Hc|done].
Qed.

Lemma inv_push_cas S L t s g cur : inv S L → threads S t = PushCas s g cur →
  head (shared S) = cur →
  inv (goto t Idle (set_head (pack g s) (shared S)) (owned S) S) (s :: L).
Proof.
  intros [H1 H2 H3 H4 H5 H6 H7 H8] Ht Hh.
  assert (pushing (threads S t) = Some s) as Hp by by rewrite Ht.
  destruct (H4 _ _ Hp) as (HsL & Hso & Hlt). pose proof (H8 _ _ _ _ Ht) as Hn.
  rewrite <-Hh in Hn. split; simpl.
  - rewrite low_pack by (unfold kInvalidSlotId, two32 in *; lia).
    change (next_of (set_head ?x ?y)) with (next_of y). rewrite Hn.
    split_and!; [done|done|apply low_lt|]. by apply chain_head.
  - by constructor.
  - intros s' [->|Hs']%elem_of_cons; [done|by apply H3].
  - intros t' s'. thread_case t t'; [done|]. intros Hp'.
    destruct (H4 _ _ Hp') as (? & ? & ?). split_and!; [|done..].
    apply not_elem_of_cons. split; [|done]. intros ->.
    by assert (t' = t) by by apply (H5 t' t s).
  - intros t' t'' s'. thread_case t t'; [done|]. thread_case t t''; [done|]. eauto.
  - intros t' cur'. thread_case t t'; [done|]. intros Hc Hne. right. by eapply H6.
  - intros t' cur' nx. thread_case t t'; [done|]. intros Hc.
    destruct (H7 _ _ _ Hc) as [Hin ->]. split; [by right|done].
  - intros t' s' g' cur'. thread_case t t'; [done|]. apply H8.
Qed.

Lemma freelist_step_inv S e S' L : inv S L → single_popper S → step S e S' →
  ∃ L', inv S' L' ∧
    match e with
    | None => L' = L
    | Some (EPop s) => L = s :: L' ∧ s ∉ owned S
    | Some (EPush s) => L' = s :: L
    end.
Proof.
  intros Hinv Hone Hst. pose proof (inv_head _ _ Hinv) as Hhead.
  destruct Hst as [t Ht|t cur Ht Hl|t cur Ht Hl|t cur nx Ht Hh|t cur nx Ht
    |t s g Ht Ho Hs|t s g cur Ht|t s g cur Ht Hh|t s g cur Ht].
  - exists L. split; [|done]. apply inv_goto; rewrite ?Ht; try done; naive_solver.
  - exists L. split; [|done]. apply inv_goto; rewrite ?Ht; done.
  - exists L. split; [|done]. pose proof (inv_loop _ _ Hinv _ _ Ht Hl).
    apply inv_goto; rewrite ?Ht; try done; naive_solver.
  - destruct (inv_pop_cas S L t cur nx) as (L' & -> & HL'); [done..|].
    exists L'. split; [done|]. split; [done|]. apply (inv_owned _ _ Hinv). by left.
  - exists L. split; [|done]. apply inv_goto; rewrite ?Ht; try done; naive_solver.
  - exists L. split; [|done]. by apply inv_push_load.
  - exists L. split; [|done]. by apply inv_push_link.
  - exists (s :: L). split; [|done]. by eapply inv_push_cas.
  - exists L. split; [|done]. apply inv_goto; rewrite ?Ht; done.
Qed.

(** The free list after a sequence of events. *)
Fixpoint replay (es : list event) (L : list SlotId) : option (list SlotId) :=
  match es with
  | [] => Some L
  | EPush s :: es' => replay es' (s :: L)
  | EPop s :: es' =>
      match L with
      | s' :: L' => if s =? s' then replay es' L' else None
      | [] => None
      end
  end.

Lemma replay_app es1 es2 L : replay (es1 ++ es2) L = (L' ← replay es1 L; replay es2 L').
Proof.
  revert L. induction es1 as [|[s|s] es1 IH]; intros L; simpl; [done| |by rewrite IH].
  destruct L as [|s' L']; [done|]. destruct (s =? s'); [apply IH|done].
Qed.

(** C38 Linearizability of the freelist when pops do not overlap: in every
    interleaving of the atomic steps of any number of pushes and of pops of which
    at most one is in flight, the completed operations in the order of their
    successful compare-and-swaps are a run of a stack, the memory still
    represents that stack, and no slot is both free and owned. *)
Theorem freelist_linearizable (o : gset N) (es : list event) (S : state) :
  exec single_popper (start o) es S →
  ∃ L, replay es [] = Some L ∧ represents (shared S) L ∧
       (∀ s, s ∈ L → s ∉ owned S).
Proof.
  intros Hex.
  assert (∃ L, replay es [] = Some L ∧ inv S L ∧ single_popper S) as (L & HL & Hinv & _).
  { remember (start o) as S0. induction Hex as [S0|S0 S1 S2 es e _ IH Hst HR]; subst.
    - exists []. split_and!; [done|apply freelist_inv_start|]. intros t t' [].
    - destruct (IH eq_refl) as (L & HL & Hinv & Hone).
      destruct (freelist_step_inv _ _ _ _ Hinv Hone Hst) as (L' & HL' & He).
      exists L'. split_and!; [|done|done]. rewrite replay_app, HL.
      destruct e as [[s|s]|]; simpl; [|by subst..].
      destruct He as [-> _]. by rewrite N.eqb_refl. }
  exists L. split_and!; [done|by split; apply Hinv|apply Hinv].
Qed.

(** ** Schedules *)

(** A schedule starts operations and lets threads take their next step (with a
    compare-and-swap that fails only when the head changed). *)
Inductive choice : Type :=
| CPop (t : N)
| CPush (t : N) (slot : SlotId) (generation : N)
| CRun (t : N).

Definition do_step (c : choice) (S : state) : option (option event * state) :=
  match c with
  | CPop t =>
      match threads S t with
      | Idle => Some (None, goto t (PopLoop (head (shared S))) (shared S) (owned S) S)
      | _ => None
      end
  | CPush t s g =>
      match threads S t with
      | Idle =>
          if bool_decide (s ∈ owned S) && (s <? kInvalidSlotId)
          then Some (None, goto t (PushLoop s g (head (shared S))) (shared S)
                             (owned S ∖ {[s]}) S)
          else None
      | _ => None
      end
  | CRun t =>
      match threads S t with
      | Idle => None
      | PopLoop cur =>
          if low cur =? kInvalidSlotId
          then Some (None, goto t Idle (shared S) (owned S) S)
          else Some (None, goto t (PopCas cur (next_of (shared S) (low cur)))
                             (shared S) (owned S) S)
      | PopCas cur nx =>
          if head (shared S) =? cur
          then Some (Some (EPop (low cur)),
                     goto t Idle (set_head nx (shared S)) ({[low cur]} ∪ owned S) S)
          else Some (None, goto t (PopLoop (head (shared S))) (shared S) (owned S) S)
      | PushLoop s g cur =>
          Some (None, goto t (PushCas s g cur) (set_next s (low cur) (shared S)) (owned S) S)
      | PushCas s g cur =>
          if head (shared S) =? cur
          then Some (Some (EPush s),
                     goto t Idle (set_head (pack g s) (shared S)) (owned S) S)
          else Some (None, goto t (PushLoop s g (head (shared S))) (shared S) (owned S) S)
      end
  end.

Fixpoint run_from (cs : list choice) (es : list event) (S : state)
    : option (list event * state) :=
  match cs with
  | [] => Some (es, S)
  | c :: cs' => '(e, S') ← do_step c S; run_from cs' (es ++ option_list e) S'
  end.

Definition run (cs : list choice) (S : state) : option (list event * state) :=
  run_from cs [] S.

Lemma freelist_do_step_sound c S e S' : do_step c S = Some (e, S') → step S e S'.
Proof.
  destruct c as [t|t s g|t]; simpl.
  - destruct (threads S t) eqn:Ht; intros; simplify_eq. by constructor.
  - destruct (threads S t) eqn:Ht; try done. destruct (_ && _) eqn:E; [|done].
    apply andb_true_iff in E as [H1%bool_decide_eq_true H2%N.ltb_lt].
    intros; simplify_eq. by constructor.
  - destruct (threads S t) eqn:Ht; try done.
    + destruct (N.eqb_spec (low current) kInvalidSlotId); intros; simplify_eq.
      * by eapply pop_empty.
      * by apply pop_next.
    + destruct (N.eqb_spec (head (shared S)) current); intros; simplify_eq.
      * by eapply pop_cas.
      * by eapply pop_fail.
    + intros; simplify_eq. by apply push_link.
    + destruct (N.eqb_spec (head (shared S)) current); intros; simplify_eq.
      * by eapply push_cas.
      * by eapply push_fail.
Qed.

(** Schedules whose pops are all started by thread [t] stay within one popper. *)
Definition pops_by (t : N) (c : choice) : bool :=
  match c with CPop t' => t' =? t | _ => true end.

Lemma do_step_single t c S e S' : pops_by t c = true →
  (∀ t', popping (threads S t') → t' = t) → do_step c S = Some (e, S') →
  ∀ t', popping (threads S' t') → t' = t.
Proof.
  intros Hby Hone Hdo. apply freelist_do_step_sound in Hdo as Hst.
  assert (∀ t0 p m o, S' = goto t0 p m o S → (popping p → popping (threads S t0) ∨ t0 = t) →
    ∀ t', popping (threads S' t') → t' = t) as Hgo.
  { intros t0 p m o -> Hp t'. simpl. destruct (decide (t' = t0)) as [->|Hne].
    - rewrite fn_lookup_insert. intros [?|?]%Hp; auto.
    - rewrite fn_lookup_insert_ne by congruence. auto. }
  destruct c as [t1|t1 s g|t1]; simpl in Hdo, Hby.
  - apply N.eqb_eq in Hby as ->. destruct (threads S t) eqn:Ht; simplify_eq.
    eapply Hgo; [done|]. auto.
  - destruct (threads S t1); try done. destruct (_ && _); simplify_eq. by eapply Hgo.
  - destruct (threads S t1) eqn:Ht1; try done.
    all: repeat case_match; simplify_eq; (eapply Hgo; [done|]; rewrite Ht1; simpl; tauto).
Qed.

Lemma freelist_run_exec (R : state → Prop) cs S0 : ∀ es S es' S',
  (∀ c S e S', c ∈ cs → R S → do_step c S = Some (e, S') → R S') → R S →
  exec R S0 es S → run_from cs es S = Some (es', S') → exec R S0 es' S'.
Proof.
  induction cs as [|c cs IH]; intros es S es' S' HR HS Hex; simpl.
  { intros; by simplify_eq. }
  destruct (do_step c S) as [[e S1]|] eqn:E; [|done]; simpl.
  assert (R S1) as HS1 by (eapply HR; [by left|done|done]).
  apply IH; [|done|].
  - intros c' S2 e' S3 Hc. apply HR. by right.
  - eapply exec_snoc; [done|by eapply freelist_do_step_sound|done].
Qed.

Definition single_schedule (t : N) (cs : list choice) : bool := forallb (pops_by t) cs.

Lemma run_single t cs o es S : single_schedule t cs = true →
  run cs (start o) = Some (es, S) → exec single_popper (start o) es S.
Proof.
  intros Hs Hrun.
  assert (exec (λ S, ∀ t', popping (threads S t') → t' = t) (start o) es S) as Hex.
  { eapply freelist_run_exec; [| |constructor|exact Hrun]; [|by intros t' []].
    intros c S1 e S2 Hc. apply do_step_single.
    unfold single_schedule in Hs. rewrite forallb_forall in Hs.
    apply Hs. by apply list_elem_of_In. }
  clear Hrun. induction Hex as [S0|S0 S1 S2 es e _ IH Hst HR]; [constructor|].
  eapply exec_snoc; [exact IH|exact Hst|].
  intros t1 t2 H1 H2. by rewrite (HR t1), (HR t2).
Qed.

(** Two pushers race with one popper: the popper's first compare-and-swap fails. *)
Definition race_schedule : list choice :=
  [CPush 1 4 1; CRun 1; CRun 1; CPop 3; CRun 3; CPush 2 5 1; CRun 2; CRun 2;
   CRun 3; CRun 3; CRun 3].

Definition run_events (cs : list choice) (S : state) : option (list event) :=
  fst <$> run cs S.

Lemma freelist_linearizable_witness :
  run_events race_schedule (start {[4; 5]}) = Some [EPush 4; EPush 5; EPop 5] ∧
  ∀ es S, run race_schedule (start {[4; 5]}) = Some (es, S) →
    ∃ L, replay es [] = Some L ∧ represents (shared S) L ∧
         (∀ s, s ∈ L → s ∉ owned S).
Proof.
  split; [vm_compute; reflexivity|]. intros es S H.
  apply (freelist_linearizable {[4; 5]}).
  by apply (run_single 3 race_schedule).
Defined.

(** ** Overlapping pops *)

(** Every push of a slot carries the next generation of that slot, as
    [reclaimSlot] does. *)
Fixpoint bumped (gens : gmap N N) (cs : list choice) : bool :=
  match cs with
  | [] => true
  | CPush _ s g :: cs' =>
      (g =? default 0 (gens !! s) + 1) && bumped (<[s := g]> gens) cs'
  | _ :: cs' => bumped gens cs'
  end.

(** Thread 9 frees slots 2, 1, 0, 3 and takes 3 back, which leaves the head at
    slot 0 with generation bits 0.  Thread 1 starts a pop and reads 0 -> 1; thread
    2 pops 0 and 1, frees 0 with a new generation, frees and takes 3, which brings
    the head word back to what thread 1 read. *)
Definition aba_schedule : list choice :=
  let push t s g := [CPush t s g; CRun t; CRun t] in
  let pop t := [CPop t; CRun t; CRun t] in
  push 9 2 1 ++ push 9 1 1 ++ push 9 0 1 ++ push 9 3 1 ++ pop 9 ++
  [CPop 1; CRun 1] ++
  pop 2 ++ pop 2 ++ push 2 0 2 ++ push 2 3 2 ++ pop 2 ++
  [CRun 1; CPop 2; CRun 2].

(** After the schedule, the step [c] pops a slot that is still owned. *)
Definition pops_owned (cs : list choice) (c : choice) (S : state) : bool :=
  match run cs S with
  | Some (_, S1) =>
      match do_step c S1 with
      | Some (Some (EPop s), _) => bool_decide (s ∈ owned S1)
      | _ => false
      end
  | None => false
  end.

Lemma pops_owned_sound cs c o : pops_owned cs c (start o) = true →
  ∃ es S1 S2 s, exec (λ _, True) (start o) es S1 ∧
    step S1 (Some (EPop s)) S2 ∧ s ∈ owned S1.
Proof.
  unfold pops_owned. destruct (run cs (start o)) as [[es S1]|] eqn:E; [|done].
  destruct (do_step c S1) as [[[[s|s]|] S2]|] eqn:Hdo; try done.
  intros H%bool_decide_eq_true. exists es, S1, S2, s.
  split_and!; [|by apply freelist_do_step_sound in Hdo|done].
  eapply (freelist_run_exec (λ _, True)); [done|done|constructor|exact E].
Qed.

(** Overlapping pops are not protected: a pop writes the successor as the new
    head without its generation, so although every push bumps the generation of
    its slot there is a schedule of two poppers after which the freelist hands
    out a slot that its previous owner still holds. *)
Theorem freelist_double_allocation :
  bumped ∅ aba_schedule = true ∧
  ∃ es S1 S2 s, exec (λ _, True) (start {[0; 1; 2; 3]}) es S1 ∧
    step S1 (Some (EPop s)) S2 ∧ s ∈ owned S1.
Proof.
  split; [vm_compute; reflexivity|].
  apply (pops_owned_sound aba_schedule (CRun 2)). vm_compute; reflexivity.
Qed.

End Treiber.
