(* ===== verification/Prototypes.v ===== *)
(** The prototype store.

    [Module PrototypeStore] models [internal/detail/PrototypeStore.hpp] and the
    release protocol of [Registry::releasePrototypeLast] and
    [Bean::releaseIfPrototype]: slots in fixed-size chunks, their reference
    counts, the freelist, the teardown sweep and the self-deletion of a store
    that outlives its registry.  Each operation runs alone on the store, over the
    sequential freelist; what pops that overlap can do to it is in [Freelist]. *)
From S2P Require Import Prelude Freelist.

Local Open Scope N_scope.
Local Open Scope ctr_scope.

Module PrototypeStore.
Import Treiber.

(** ** Data *)

Definition kChunkSize : N := 256.
Definition kMaxChunks : N := 256.

(** One slot's share of the arrays of its chunk (the [nextFree] array is in the
    freelist's memory). *)
Record Cell : Type := {
  memory : ptr;
  descId : DescriptorId;
  refcount : N;
  generation : N
}.

(** The value-initialised slot. *)
Definition zero_cell : Cell :=
  {| memory := nullptr; descId := 0; refcount := 0; generation := 0 |}.

Definition set_meta (m : ptr) (d : DescriptorId) (c : Cell) : Cell :=
  {| memory := m; descId := d; refcount := refcount c; generation := generation c |}.

Definition set_memory (m : ptr) (c : Cell) : Cell := set_meta m (descId c) c.

Definition set_refcount (n : N) (c : Cell) : Cell :=
  {| memory := memory c; descId := descId c; refcount := n; generation := generation c |}.

Definition bump_generation (c : Cell) : Cell :=
  {| memory := memory c; descId := descId c; refcount := refcount c;
     generation := u32 (generation c + 1) |}.

Abbreviation Chunk := (list Cell) (only parsing).

Definition new_chunk : Chunk := replicate (N.to_nat kChunkSize) zero_cell.

(** [deleted] counts the executions of [delete this]. *)
Record t : Type := {
  alive : bool;
  liveSlotCount : N;
  chunks_ : list Chunk;
  slotCount_ : N;
  freelist : mem;
  deleteClaimed_ : bool;
  deleted : N
}.

Definition init : t :=
  {| alive := true; liveSlotCount := 0; chunks_ := []; slotCount_ := 0;
     freelist := Treiber.init; deleteClaimed_ := false; deleted := 0 |}.

(** ** Slot access; [None] is the null chunk pointer *)

Definition cellAt (S : t) (id : SlotId) : option Cell :=
  chunk ← vat (chunks_ S) (id / kChunkSize); vat chunk (id mod kChunkSize).

Definition with_chunks (c : list Chunk) (S : t) : t :=
  {| alive := alive S; liveSlotCount := liveSlotCount S; chunks_ := c;
     slotCount_ := slotCount_ S; freelist := freelist S;
     deleteClaimed_ := deleteClaimed_ S; deleted := deleted S |}.

Definition with_freelist (f : mem) (S : t) : t :=
  {| alive := alive S; liveSlotCount := liveSlotCount S; chunks_ := chunks_ S;
     slotCount_ := slotCount_ S; freelist := f;
     deleteClaimed_ := deleteClaimed_ S; deleted := deleted S |}.

Definition with_live (n : N) (S : t) : t :=
  {| alive := alive S; liveSlotCount := n; chunks_ := chunks_ S;
     slotCount_ := slotCount_ S; freelist := freelist S;
     deleteClaimed_ := deleteClaimed_ S; deleted := deleted S |}.

Definition with_slotCount (n : N) (S : t) : t :=
  {| alive := alive S; liveSlotCount := liveSlotCount S; chunks_ := chunks_ S;
     slotCount_ := n; freelist := freelist S;
     deleteClaimed_ := deleteClaimed_ S; deleted := deleted S |}.

Definition setCell (id : SlotId) (c : Cell) (S : t) : t :=
  match vat (chunks_ S) (id / kChunkSize) with
  | Some chunk =>
      with_chunks (vset (id / kChunkSize) (vset (id mod kChunkSize) c chunk) (chunks_ S)) S
  | None => S
  end.

Definition updCell (id : SlotId) (f : Cell → Cell) (S : t) : option t :=
  c ← cellAt S id; Some (setCell id (f c) S).

(** ** Operations; [None] is a failed assertion or a null chunk *)

Definition tryDeleteIfUnused (S : t) : t :=
  if negb (liveSlotCount S =? 0) then S
  else if alive S then S
  else {| alive := alive S; liveSlotCount := liveSlotCount S; chunks_ := chunks_ S;
          slotCount_ := slotCount_ S; freelist := freelist S; deleteClaimed_ := true;
          deleted := if deleteClaimed_ S then deleted S else deleted S + 1 |}.

Definition markRegistryDeadAndReleaseHold (S : t) : t :=
  tryDeleteIfUnused
    {| alive := false; liveSlotCount := liveSlotCount S; chunks_ := chunks_ S;
       slotCount_ := slotCount_ S; freelist := freelist S;
       deleteClaimed_ := deleteClaimed_ S; deleted := deleted S |}.

(** [maxSlots] is [CTORIUM_PROTOTYPE_MAX_SLOTS] when it is defined. *)
Definition allocate (maxSlots : option N) (d : DescriptorId) (m : ptr) : M t SlotId := λ S,
  let '(freeSlot, f) := popTreiberFreelist (freelist S) in
  if negb (freeSlot =? kInvalidSlotId) then
    match updCell freeSlot (set_meta m d) (with_freelist f S) with
    | Some S' => (Ok freeSlot, S')
    | None => (Ub, S)
    end
  else if match maxSlots with Some cap => cap <=? slotCount_ S | None => false end then
    (Throw (ResolutionError "PrototypeStore: CTORIUM_PROTOTYPE_MAX_SLOTS limit reached; cannot allocate a new prototype slot."), S)
  else
    let id := slotCount_ S in
    let S1 := with_slotCount (slotCount_ S + 1) S in
    let chunkIdx := id / kChunkSize in
    if kMaxChunks <=? chunkIdx then (Ub, S1)
    else
      let S2 := match vat (chunks_ S1) chunkIdx with
                | Some _ => S1
                | None => with_chunks (chunks_ S1 ++ [new_chunk]) S1
                end in
      match updCell id (set_meta m d) S2 with
      | Some S' => (Ok (u32 id), S')
      | None => (Ub, S2)
      end.

Definition activate (id : SlotId) (S : t) : option t :=
  S1 ← updCell id (set_refcount 1) S;
  Some (with_live (u32 (liveSlotCount S1 + 1)) S1).

Definition reclaim (id : SlotId) (S : t) : option t :=
  S1 ← updCell id (set_memory nullptr) S;
  c ← cellAt S1 id;
  Some (with_freelist (pushTreiberFreelist id (generation c) (freelist S1)) S1).

Definition retain (id : SlotId) (S : t) : option t :=
  c ← cellAt S id;
  if (id <? slotCount_ S) && negb (memory c =? nullptr)
  then updCell id (set_refcount (u32 (refcount c + 1))) S
  else None.

Definition pointerAt (S : t) (id : SlotId) : option ptr :=
  c ← cellAt S id;
  if (id <? slotCount_ S) && negb (memory c =? nullptr) then Some (memory c) else None.

Definition slotMetaAt (S : t) (id : SlotId) : option (ptr * DescriptorId) :=
  c ← cellAt S id;
  if id <? slotCount_ S then Some (memory c, descId c) else None.

Definition descriptorIdAt (S : t) (id : SlotId) : option DescriptorId :=
  snd <$> slotMetaAt S id.

Definition memoryAt (S : t) (id : SlotId) : ptr :=
  if slotCount_ S <=? id then nullptr
  else match cellAt S id with Some c => memory c | None => nullptr end.

Definition releaseAcquire (id : SlotId) (S : t) : option (bool * t) :=
  c ← cellAt S id;
  if id <? slotCount_ S then
    S' ← updCell id (set_refcount (u32 (refcount c + (two32 - 1)))) S;
    Some (refcount c =? 1, S')
  else None.

Definition releaseLiveSlot (S : t) : option t :=
  let previous := liveSlotCount S in
  if previous =? 0 then None
  else
    let S1 := with_live (u32 (previous + (two32 - 1))) S in
    Some (if previous =? 1 then tryDeleteIfUnused S1 else S1).

Definition reclaimSlot (id : SlotId) (S : t) : option t :=
  S1 ← updCell id (λ c, bump_generation (set_memory nullptr c)) S;
  c ← cellAt S1 id;
  releaseLiveSlot
    (with_freelist (pushTreiberFreelist id (generation c) (freelist S1)) S1).

Definition takeSlotMetaForDestruction (id : SlotId) (S : t) : (ptr * DescriptorId) * t :=
  if slotCount_ S <=? id then ((nullptr, 0), S)
  else match cellAt S id with
       | None => ((nullptr, 0), S)
       | Some c => ((memory c, descId c), setCell id (set_memory nullptr c) S)
       end.

#[local] Arguments setCell : simpl never.
#[local] Arguments cellAt : simpl never.
#[local] Arguments pushTreiberFreelist : simpl never.

(** ** Slot access lemmas *)

Lemma div_mod_eq i j : i / kChunkSize = j / kChunkSize →
  i mod kChunkSize = j mod kChunkSize → i = j.
Proof.
  intros Hd Hm. pose proof (N.div_mod i kChunkSize ltac:(done)) as Hi.
  pose proof (N.div_mod j kChunkSize ltac:(done)) as Hj. rewrite Hd, Hm in Hi. by rewrite Hi.
Qed.

Lemma cellAt_setCell S i c j : is_Some (cellAt S i) →
  cellAt (setCell i c S) j = if decide (j = i) then Some c else cellAt S j.
Proof.
  unfold cellAt, setCell. destruct (vat (chunks_ S) (i / kChunkSize)) as [ch|] eqn:Ech;
    simpl; [|by intros []].
  intros Hi%vat_is_Some. pose proof (vat_lt _ _ _ Ech) as Hlt.
  destruct (decide (j / kChunkSize = i / kChunkSize)) as [Hd|Hd].
  - rewrite Hd, vat_vset_eq, Ech by done; simpl. case_decide as E; [subst; by apply vat_vset_eq|].
    apply vat_vset_ne. intros Hm. apply E. by apply div_mod_eq.
  - rewrite vat_vset_ne by congruence. rewrite decide_False; [done|]. by intros ->.
Qed.

(** The parts of the store a slot update leaves alone. *)
Definition same_but_cells (S S' : t) : Prop :=
  alive S' = alive S ∧ liveSlotCount S' = liveSlotCount S ∧ slotCount_ S' = slotCount_ S ∧
  freelist S' = freelist S ∧ deleteClaimed_ S' = deleteClaimed_ S ∧ deleted S' = deleted S.

Lemma setCell_same i c S : same_but_cells S (setCell i c S).
Proof. unfold setCell. by destruct (vat _ _). Qed.

(** The chunk table: full chunks, just enough of them, fresh past the last slot. *)
Record chunks_wf (S : t) : Prop := {
  cw_len : Forall (λ ch, nlen ch = kChunkSize) (chunks_ S);
  cw_enough : slotCount_ S ≤ kChunkSize * nlen (chunks_ S);
  cw_fresh : ∀ i c, slotCount_ S ≤ i → cellAt S i = Some c → c = zero_cell
}.

Lemma cellAt_exists S i : chunks_wf S → i < slotCount_ S → is_Some (cellAt S i).
Proof.
  intros [Hl He _] Hi. unfold cellAt.
  destruct (proj2 (vat_is_Some (chunks_ S) (i / kChunkSize))) as [ch Hch].
  { apply N.Div0.div_lt_upper_bound. lia. }
  rewrite Hch; simpl. apply vat_is_Some.
  rewrite vat_lookup in Hch. rewrite (Forall_lookup_1 _ _ _ _ Hl Hch).
  by apply N.mod_lt.
Qed.

Lemma setCell_wf i c S : chunks_wf S → i < slotCount_ S → chunks_wf (setCell i c S).
Proof.
  intros Hwf Hi. pose proof (cellAt_exists _ _ Hwf Hi) as Hs.
  destruct (setCell_same i c S) as (_ & _ & Hsc & _). split.
  - unfold setCell. destruct (vat (chunks_ S) (i / kChunkSize)) as [ch|] eqn:E; [|apply Hwf].
    simpl. rewrite vset_insert. apply Forall_insert; [apply Hwf|].
    rewrite nlen_vset. rewrite vat_lookup in E. by apply (Forall_lookup_1 _ _ _ _ (cw_len _ Hwf) E).
  - rewrite Hsc. unfold setCell. destruct (vat _ _); simpl; rewrite ?nlen_vset; apply Hwf.
  - intros j c' Hj. rewrite Hsc in Hj. rewrite cellAt_setCell by done.
    rewrite decide_False by lia. by apply Hwf.
Qed.

(** ** The clients' protocol

    What the registry and the handles do with the store: a materialization
    allocates a slot and activates it or gives it back when the constructor
    throws; a copy of a handle retains; a destroyed handle releases, and the last
    one destroys the object and reclaims the slot, with other operations possible
    in between; [stop()] sweeps the slots; [~Registry] marks the store dead. *)
Record sys : Type := {
  store : t;
  handles : gmap N N;
  pending : gset N;
  dying : gset N;
  created : list (DescriptorId * ptr);
  destroyed : list (DescriptorId * ptr)
}.

Inductive op : Type :=
| OpBegin (d : DescriptorId) (m : ptr)
| OpFinish (s : SlotId)
| OpFail (s : SlotId)
| OpCopy (s : SlotId)
| OpDrop (s : SlotId)
| OpReclaim (s : SlotId)
| OpSweep (s : SlotId)
| OpMarkDead.

(** The object a swept or released slot held, if any: the call of
    [executeDestructionLifecycle]. *)
Definition destroy_log (meta : ptr * DescriptorId) : list (DescriptorId * ptr) :=
  if meta.1 =? nullptr then [] else [(meta.2, meta.1)].

(** [releaseIfPrototype], up to the destruction of the object: [dying] slots
    still have their [reclaimSlot] to come. *)
Definition releaseIfPrototype (s : SlotId) (X : sys) : option sys :=
  '(last, S1) ← releaseAcquire s (store X);
  let n := default 0 (handles X !! s) in
  if negb last then
    Some {| store := S1; handles := <[s := n - 1]> (handles X); pending := pending X;
            dying := dying X; created := created X; destroyed := destroyed X |}
  else if negb (alive S1) then
    S2 ← reclaimSlot s S1;
    Some {| store := S2; handles := delete s (handles X); pending := pending X;
            dying := dying X; created := created X; destroyed := destroyed X |}
  else
    let '(meta, S2) := takeSlotMetaForDestruction s S1 in
    Some {| store := S2; handles := delete s (handles X); pending := pending X;
            dying := {[s]} ∪ dying X; created := created X;
            destroyed := destroyed X ++ destroy_log meta |}.

Definition exec (cap : option N) (o : op) (X : sys) : option sys :=
  match o with
  | OpBegin d m =>
      match allocate cap d m (store X) with
      | (Ok s, S') => Some {| store := S'; handles := handles X;
          pending := {[s]} ∪ pending X; dying := dying X;
          created := created X; destroyed := destroyed X |}
      | _ => None
      end
  | OpFinish s =>
      '(m, d) ← slotMetaAt (store X) s;
      S' ← activate s (store X);
      Some {| store := S'; handles := <[s := 1]> (handles X);
              pending := pending X ∖ {[s]}; dying := dying X;
              created := created X ++ [(d, m)]; destroyed := destroyed X |}
  | OpFail s =>
      S' ← reclaim s (store X);
      Some {| store := S'; handles := handles X; pending := pending X ∖ {[s]};
              dying := dying X; created := created X; destroyed := destroyed X |}
  | OpCopy s =>
      S' ← retain s (store X);
      Some {| store := S'; handles := <[s := default 0 (handles X !! s) + 1]> (handles X);
              pending := pending X; dying := dying X;
              created := created X; destroyed := destroyed X |}
  | OpDrop s => releaseIfPrototype s X
  | OpReclaim s =>
      S' ← reclaimSlot s (store X);
      Some {| store := S'; handles := handles X; pending := pending X;
              dying := dying X ∖ {[s]}; created := created X; destroyed := destroyed X |}
  | OpSweep s =>
      let '(meta, S') := takeSlotMetaForDestruction s (store X) in
      Some {| store := S'; handles := handles X; pending := pending X;
              dying := dying X; created := created X;
              destroyed := destroyed X ++ destroy_log meta |}
  | OpMarkDead =>
      Some {| store := markRegistryDeadAndReleaseHold (store X); handles := handles X;
              pending := pending X; dying := dying X;
              created := created X; destroyed := destroyed X |}
  end.

(** When the clients perform an operation. *)
Definition allowed (cap : option N) (o : op) (X : sys) : Prop :=
  match o with
  | OpBegin d m =>
      alive (store X) = true ∧ m ≠ nullptr ∧
      (low (head (freelist (store X))) ≠ kInvalidSlotId ∨
       slotCount_ (store X) < default (kMaxChunks * kChunkSize) cap ∧
       slotCount_ (store X) < kMaxChunks * kChunkSize)
  | OpFinish s | OpFail s => s ∈ pending X
  | OpCopy s => ∃ n, handles X !! s = Some n ∧ n + 1 < two32 ∧ memoryAt (store X) s ≠ nullptr
  | OpDrop s => is_Some (handles X !! s)
  | OpReclaim s => s ∈ dying X
  | OpSweep s => s ∉ pending X
  | OpMarkDead => alive (store X) = true ∧ pending X = ∅ ∧
      ∀ s, is_Some (handles X !! s) → memoryAt (store X) s = nullptr
  end.

(** The slots that count as live: with handles, or on their way out. *)
Definition busy (X : sys) : gset N := dom (handles X) ∪ dying X.

#[local] Arguments busy : simpl never.

Definition is_live (X : sys) (s : SlotId) (x : DescriptorId * ptr) : Prop :=
  is_Some (handles X !! s) ∧ ∃ c, cellAt (store X) s = Some c ∧
    memory c ≠ nullptr ∧ x = (descId c, memory c).

(** The slots: each one is in exactly one of four places. *)
Record core (X : sys) (L : list SlotId) (live : gmap N (DescriptorId * ptr)) : Prop := {
  i_chunks : chunks_wf (store X);
  i_bound : slotCount_ (store X) ≤ kMaxChunks * kChunkSize;
  i_free : represents (freelist (store X)) L;
  i_part : ∀ s, s < slotCount_ (store X) ↔ s ∈ L ∨ s ∈ pending X ∨ s ∈ busy X;
  i_disj1 : ∀ s, s ∈ L → s ∉ pending X ∧ s ∉ busy X;
  i_disj2 : ∀ s, s ∈ pending X → s ∉ busy X;
  i_disj3 : ∀ s, s ∈ dying X → handles X !! s = None;
  i_ref : ∀ s c, s < slotCount_ (store X) → cellAt (store X) s = Some c →
    refcount c = default 0 (handles X !! s);
  i_pos : ∀ s n, handles X !! s = Some n → 0 < n < two32;
  i_mem_pending : ∀ s c, s ∈ pending X → cellAt (store X) s = Some c → memory c ≠ nullptr;
  i_mem_free : ∀ s c, s ∈ L ∨ s ∈ dying X → cellAt (store X) s = Some c →
    memory c = nullptr;
  i_live : ∀ s x, live !! s = Some x ↔ is_live X s x
}.

(** The accounts: objects, live slots and the deletion of the store. *)
Record inv (X : sys) (L : list SlotId) (live : gmap N (DescriptorId * ptr)) : Prop := {
  i_core : core X L live;
  i_log : created X ≡ₚ destroyed X ++ (map_to_list live).*2;
  i_count : liveSlotCount (store X) = N.of_nat (base.size (busy X));
  i_alive : alive (store X) = true →
    deleteClaimed_ (store X) = false ∧ deleted (store X) = 0;
  i_dead : alive (store X) = false →
    live = ∅ ∧ pending X = ∅ ∧ deleteClaimed_ (store X) = bool_decide (busy X = ∅) ∧
    deleted (store X) = if decide (busy X = ∅) then 1 else 0
}.

Definition start : sys :=
  {| store := init; handles := ∅; pending := ∅; dying := ∅; created := []; destroyed := [] |}.

Lemma elem_busy X s : s ∈ busy X ↔ is_Some (handles X !! s) ∨ s ∈ dying X.
Proof. unfold busy. by rewrite elem_of_union, elem_of_dom. Qed.

Lemma store_inv_start : inv start [] ∅.
Proof.
  assert (∀ s, cellAt init s = None) as Hcell.
  { intros s. unfold cellAt; simpl. by rewrite vat_nil. }
  split; [|done|done|done|done]. split; simpl.
  - split; [constructor|done|]. intros i c _. simpl. by rewrite Hcell.
  - done.
  - split; [done|constructor].
  - intros s. rewrite elem_busy. simpl. rewrite lookup_empty. split; [lia|].
    intros [?%not_elem_of_nil|[?%not_elem_of_empty|[[? ?]|?%not_elem_of_empty]]]; done.
  - by intros s ?%not_elem_of_nil.
  - by intros s ?%not_elem_of_empty.
  - by intros s ?%not_elem_of_empty.
  - intros s c _. by rewrite Hcell.
  - intros s n. by rewrite lookup_empty.
  - intros s c _. by rewrite Hcell.
  - intros s c _. by rewrite Hcell.
  - intros s x. rewrite lookup_empty. split; [done|]. intros [[? H] _].
    simpl in H. by rewrite lookup_empty in H.
Qed.

(** The place of one slot and what it asks of the slot's cell. *)
Inductive status : Type := SFree | SPending | SHeld (n : N) | SDying.

Definition held (st : status) : option N := match st with SHeld n => Some n | _ => None end.

Definition cell_ok (st : status) (c : Cell) : Prop :=
  refcount c = default 0 (held st) ∧
  match st with
  | SFree | SDying => memory c = nullptr
  | SPending => memory c ≠ nullptr
  | SHeld n => 0 < n < two32
  end.

Definition live_of (st : status) (c : Cell) : option (DescriptorId * ptr) :=
  match st with
  | SHeld _ => if memory c =? nullptr then None else Some (descId c, memory c)
  | _ => None
  end.

(** An operation that moves slot [s] to the place [st] with cell [c]. *)
Record moves (s : SlotId) (st : status) (c : Cell) (X X' : sys) (L L' : list SlotId)
    : Prop := {
  mv_cell : cellAt (store X') s = Some c;
  mv_cells : ∀ j, j ≠ s → j < slotCount_ (store X) →
    cellAt (store X') j = cellAt (store X) j;
  mv_chunks : chunks_wf (store X');
  mv_count : ∀ j, j < slotCount_ (store X') ↔ j < slotCount_ (store X) ∨ j = s;
  mv_bound : slotCount_ (store X') ≤ kMaxChunks * kChunkSize;
  mv_rep : represents (freelist (store X')) L';
  mv_free : ∀ j, j ∈ L' ↔ if decide (j = s) then st = SFree else j ∈ L;
  mv_pending : ∀ j, j ∈ pending X' ↔ if decide (j = s) then st = SPending
                                     else j ∈ pending X;
  mv_dying : ∀ j, j ∈ dying X' ↔ if decide (j = s) then st = SDying else j ∈ dying X;
  mv_handles : ∀ j, handles X' !! j = if decide (j = s) then held st
                                      else handles X !! j;
  mv_ok : cell_ok st c
}.

Lemma mv_busy s st c X X' L L' j : moves s st c X X' L L' →
  j ∈ busy X' ↔ if decide (j = s) then is_Some (held st) ∨ st = SDying else j ∈ busy X.
Proof.
  intros H. rewrite !elem_busy, (mv_handles _ _ _ _ _ _ _ H), (mv_dying _ _ _ _ _ _ _ H).
  case_decide; [done|]. by rewrite elem_busy.
Qed.

Lemma core_moves s st c X X' L L' live live' :
  core X L live → moves s st c X X' L L' →
  (∀ j, live' !! j = if decide (j = s) then live_of st c else live !! j) →
  core X' L' live'.
Proof.
  intros Hc Hm Hlv. pose proof (λ j, mv_busy _ _ _ _ _ _ _ j Hm) as Hb.
  destruct Hm as [M0 M1 M2 M3 M4 M5 M6 M7 M8 M9 [M10 M11]].
  pose proof (i_part _ _ _ Hc) as Hin.
  assert (∀ j, j ∈ L ∨ j ∈ pending X ∨ j ∈ busy X → j ≠ s →
    cellAt (store X') j = cellAt (store X) j) as Hold.
  { intros j Hj Hne. apply M1; [done|]. by apply Hin. }
  split; [done|done|done| | | | | | | | |].
  - intros j. rewrite M3, M6, M7, Hb, Hin. case_decide; [|naive_solver].
    split; [intros _|by right]. destruct st; simpl; eauto.
  - intros j. rewrite M6, M7, Hb. case_decide; [|apply (i_disj1 _ _ _ Hc)].
    intros ->; simpl. split; [done|]. intros [[]|]; done.
  - intros j. rewrite M7, Hb. case_decide; [|apply (i_disj2 _ _ _ Hc)].
    intros ->; simpl. intros [[]|]; done.
  - intros j. rewrite M8, M9. case_decide; [|apply (i_disj3 _ _ _ Hc)]. by intros ->.
  - intros j c' Hj. rewrite M9. case_decide as E; [subst; rewrite M0; intros; by simplify_eq|].
    assert (j < slotCount_ (store X)) as Hj' by (apply M3 in Hj; naive_solver).
    rewrite M1 by done. by apply (i_ref _ _ _ Hc).
  - intros j n. rewrite M9. case_decide; [|apply (i_pos _ _ _ Hc)].
    destruct st; simpl; try done. intros; by simplify_eq.
  - intros j c'. rewrite M7. case_decide as E.
    + intros ->. subst. rewrite M0. intros; by simplify_eq.
    + intros Hj. rewrite Hold by auto. by apply (i_mem_pending _ _ _ Hc).
  - intros j c'. rewrite M6, M8. case_decide as E.
    + subst. rewrite M0. intros [-> | ->]; intros; by simplify_eq.
    + intros Hj. rewrite Hold; [by apply (i_mem_free _ _ _ Hc)| |done].
      destruct Hj; [by left|]. right; right. apply elem_busy. by right.
  - intros j x. rewrite Hlv. unfold is_live. rewrite M9.
    case_decide as E.
    + subst. rewrite M0. destruct st as [| |n|]; simpl.
      1,2,4: split; [done|]; intros [[? ?] _]; done.
      destruct (N.eqb_spec (memory c) nullptr) as [E|E].
      * split; [done|]. intros (_ & c' & Hc' & Hne & _). by simplify_eq.
      * split.
        -- intros; simplify_eq. split; [by eexists|]. by exists c.
        -- intros (_ & c' & Hc' & Hne & ->). by simplify_eq.
    + rewrite (i_live _ _ _ Hc). unfold is_live.
      split; intros [Hh Hx]; (split; [done|]).
      * rewrite Hold; [done| |done]. right; right. apply elem_busy. by left.
      * rewrite <-Hold; [done| |done]. right; right. apply elem_busy. by left.
Qed.

(** ** What the store operations do to a slot *)

Lemma updCell_spec S i f : chunks_wf S → i < slotCount_ S →
  ∃ c, cellAt S i = Some c ∧ updCell i f S = Some (setCell i (f c) S) ∧
       chunks_wf (setCell i (f c) S) ∧ same_but_cells S (setCell i (f c) S) ∧
       cellAt (setCell i (f c) S) i = Some (f c) ∧
       ∀ j, j ≠ i → cellAt (setCell i (f c) S) j = cellAt S j.
Proof.
  intros Hwf Hi. destruct (cellAt_exists _ _ Hwf Hi) as [c Hc]. exists c.
  unfold updCell. rewrite Hc. simpl.
  split_and!; [done..|by apply setCell_wf|apply setCell_same| |].
  - rewrite cellAt_setCell by by eexists. by rewrite decide_True.
  - intros j Hj. rewrite cellAt_setCell by by eexists. by rewrite decide_False.
Qed.

Lemma chunks_wf_ext S S' : chunks_ S' = chunks_ S → slotCount_ S' = slotCount_ S →
  chunks_wf S → chunks_wf S'.
Proof.
  intros Hc Hs [H1 H2 H3]. split; rewrite ?Hc, ?Hs; [done..|].
  intros i c. unfold cellAt. rewrite Hc. apply H3.
Qed.

Lemma cellAt_ext S S' j : chunks_ S' = chunks_ S → cellAt S' j = cellAt S j.
Proof. intros Hc. unfold cellAt. by rewrite Hc. Qed.

Lemma lookup_live X L live s c : core X L live → cellAt (store X) s = Some c →
  live !! s = match handles X !! s with Some n => live_of (SHeld n) c | None => None end.
Proof.
  intros Hc Hs. apply option_eq. intros x. rewrite (i_live _ _ _ Hc). unfold is_live.
  rewrite Hs. destruct (handles X !! s) as [n|]; simpl.
  - destruct (N.eqb_spec (memory c) nullptr) as [E|E].
    + split; [|done]. intros (_ & c' & ? & Hne & _). by simplify_eq.
    + split; [intros (_ & c' & ? & _ & ->); by simplify_eq|].
      intros; simplify_eq. split; [by eexists|]. by exists c.
  - split; [|done]. by intros [[? ?] _].
Qed.

Lemma size_bound (B : gset N) (n : N) : (∀ s, s ∈ B → s < n) →
  N.of_nat (base.size B) ≤ n.
Proof.
  intros HB. unfold base.size, set_size.
  assert (elements B ⊆+ (N.of_nat <$> seq 0 (N.to_nat n))) as Hsub.
  { apply NoDup_submseteq; [apply NoDup_elements|]. intros x Hx%elem_of_elements%HB.
    apply list_elem_of_fmap. exists (N.to_nat x). rewrite elem_of_seq. lia. }
  apply submseteq_length in Hsub. rewrite length_fmap, length_seq in Hsub. simpl. lia.
Qed.

Lemma busy_bound X L live : core X L live → N.of_nat (base.size (busy X)) ≤ kMaxChunks * kChunkSize.
Proof.
  intros Hc. etrans; [|apply (i_bound _ _ _ Hc)]. apply size_bound.
  intros s Hs. apply (i_part _ _ _ Hc). auto.
Qed.

(** How the busy set changes. *)
Lemma busy_same s st c X X' L L' : moves s st c X X' L L' →
  (s ∈ busy X ↔ is_Some (held st) ∨ st = SDying) → busy X' = busy X.
Proof.
  intros Hm Hs. apply set_eq. intros j. rewrite (mv_busy _ _ _ _ _ _ _ j Hm).
  case_decide; [|done]. subst. by rewrite Hs.
Qed.

Lemma busy_add s st c X X' L L' : moves s st c X X' L L' →
  s ∉ busy X → is_Some (held st) ∨ st = SDying →
  base.size (busy X') = Datatypes.S (base.size (busy X)).
Proof.
  intros Hm Hs Hst. assert (busy X' = {[s]} ∪ busy X) as ->.
  { apply set_eq. intros j. rewrite (mv_busy _ _ _ _ _ _ _ j Hm).
    rewrite elem_of_union, elem_of_singleton. case_decide; naive_solver. }
  rewrite size_union by set_solver. by rewrite size_singleton.
Qed.

Lemma busy_del s st c X X' L L' : moves s st c X X' L L' →
  s ∈ busy X → ¬ (is_Some (held st) ∨ st = SDying) →
  base.size (busy X) = Datatypes.S (base.size (busy X')).
Proof.
  intros Hm Hs Hst. assert (busy X = {[s]} ∪ busy X') as ->.
  { apply set_eq. intros j. rewrite elem_of_union, elem_of_singleton.
    rewrite (mv_busy _ _ _ _ _ _ _ j Hm). case_decide; naive_solver. }
  rewrite size_union; [by rewrite size_singleton|].
  intros j ->%elem_of_singleton. rewrite (mv_busy _ _ _ _ _ _ _ s Hm).
  by rewrite decide_True.
Qed.

(** ** Every allowed operation succeeds and keeps the invariant *)

Definition progress (X : sys) (o : option sys) : Prop :=
  ∃ X' L' live', o = Some X' ∧ inv X' L' live'.

(** An operation that leaves the accounts of objects and live slots alone. *)
Lemma inv_quiet s st c X X' L L' live :
  inv X L live → moves s st c X X' L L' →
  live !! s = live_of st c → (s ∈ busy X ↔ is_Some (held st) ∨ st = SDying) →
  created X' = created X → destroyed X' = destroyed X →
  alive (store X') = alive (store X) → liveSlotCount (store X') = liveSlotCount (store X) →
  deleteClaimed_ (store X') = deleteClaimed_ (store X) →
  deleted (store X') = deleted (store X) →
  (alive (store X') = false → st ≠ SPending) →
  inv X' L' live.
Proof.
  intros [Hc Hlog Hcnt Hal Hde] Hm Hl Hb E1 E2 E3 E4 E5 E6 Hp.
  pose proof (busy_same _ _ _ _ _ _ _ Hm Hb) as Hbusy. split.
  - eapply core_moves; [done|done|]. intros j.
    by destruct (decide (j = s)) as [->|].
  - by rewrite E1, E2.
  - by rewrite E4, Hbusy.
  - by rewrite E3, E5, E6.
  - rewrite E3 in *. rewrite E5, E6, Hbusy. intros Hd.
    destruct (Hde Hd) as (-> & Hpe & ? & ?). split_and!; [done| |done|done].
    apply set_eq. intros j. rewrite (mv_pending _ _ _ _ _ _ _ Hm).
    destruct (decide (j = s)) as [->|]; [|by rewrite Hpe].
    split; [intros E; by destruct (Hp Hd)|by intros ?%not_elem_of_empty].
Qed.

Lemma free_lt L X live s : core X L live → s ∈ L → s < kInvalidSlotId.
Proof. intros Hc. by apply chain_lt with (m := freelist (store X)) (h := low (head (freelist (store X)))), (i_free _ _ _ Hc). Qed.

Lemma begin_free cap d m s X L live : inv X (s :: L) live →
  alive (store X) = true → m ≠ nullptr → progress X (exec cap (OpBegin d m) X).
Proof.
  intros Hinv Hal Hm. pose proof (i_core _ _ _ Hinv) as Hc.
  destruct (represents_pop _ _ _ (i_free _ _ _ Hc)) as (f & Hpop & Hf).
  pose proof (free_lt _ _ _ s Hc ltac:(by left)) as Hlt.
  assert (s < slotCount_ (store X)) as Hs by (apply (i_part _ _ _ Hc); left; by left).
  assert (chunks_wf (with_freelist f (store X))) as Hwf.
  { by eapply chunks_wf_ext, Hc. }
  destruct (updCell_spec _ s (set_meta m d) Hwf Hs)
    as (c & Hcell & Hupd & Hwf' & (S1 & S2 & S3 & S4 & S5 & S6) & Hs' & Hne).
  destruct (i_disj1 _ _ _ Hc s) as [Hp Hb]; [by left|].
  destruct (i_free _ _ _ Hc) as [_ [HsL Hnd]%NoDup_cons].
  eexists _, L, live. split.
  { cbn [exec]. unfold allocate. rewrite Hpop.
    destruct (N.eqb_spec s kInvalidSlotId); [lia|]. simpl negb. cbv iota.
    by rewrite Hupd. }
  apply (inv_quiet s SPending (set_meta m d c) X _ (s :: L) L live);
    [exact Hinv| | | |done|done|exact S1|exact S2|exact S5|exact S6|simpl];
    [|rewrite (lookup_live _ _ _ _ c Hc Hcell)| |].
  - split; simpl; try done.
    + intros j Hj _. by rewrite Hne.
    + intros j. rewrite S3. simpl. naive_solver.
    + rewrite S3. apply (i_bound _ _ _ Hc).
    + by rewrite S4.
    + intros j. case_decide; [subst; naive_solver|]. rewrite elem_of_cons. naive_solver.
    + intros j. rewrite elem_of_union, elem_of_singleton. case_decide; naive_solver.
    + intros j. case_decide; [subst|done]. split; [|done]. intros Hd.
      exfalso. apply Hb, elem_busy. by right.
    + intros j. case_decide; [subst|done]. apply eq_None_not_Some. intros Hh.
      apply Hb, elem_busy. by left.
    + split; simpl; [|done]. rewrite (i_ref _ _ _ Hc s c Hs Hcell).
      destruct (handles X !! s) eqn:E; [|done]. exfalso. apply Hb, elem_busy. left. by eexists.
  - destruct (handles X !! s) eqn:E; [|done]. exfalso. apply Hb, elem_busy. left. by eexists.
  - split; [done|]. intros [[]|]; done.
  - rewrite S1. simpl. congruence.
Qed.

(** The chunk table after the growth path made room for the next slot. *)
Definition grown (S : t) : t :=
  let S1 := with_slotCount (slotCount_ S + 1) S in
  match vat (chunks_ S1) (slotCount_ S / kChunkSize) with
  | Some _ => S1
  | None => with_chunks (chunks_ S1 ++ [new_chunk]) S1
  end.

Lemma cellAt_snoc S ch i :
  cellAt (with_chunks (chunks_ S ++ [ch]) S) i =
  if decide (i / kChunkSize = nlen (chunks_ S)) then vat ch (i mod kChunkSize)
  else cellAt S i.
Proof.
  unfold cellAt; simpl. case_decide as E; [rewrite E, vat_snoc_eq; done|].
  destruct (decide (i / kChunkSize < nlen (chunks_ S))); [by rewrite vat_app_l|].
  rewrite (proj2 (vat_None (chunks_ S) _)) by lia.
  rewrite (proj2 (vat_None _ _)); [done|]. rewrite nlen_snoc. lia.
Qed.

Lemma new_chunk_cell i : vat new_chunk (i mod kChunkSize) = Some zero_cell.
Proof.
  unfold new_chunk. rewrite vat_replicate, decide_True; [done|].
  rewrite N2Nat.id. by apply N.mod_lt.
Qed.

Lemma grown_spec S : chunks_wf S →
  chunks_wf (grown S) ∧ slotCount_ (grown S) = slotCount_ S + 1 ∧
  cellAt (grown S) (slotCount_ S) = Some zero_cell ∧
  same_but_cells S (with_slotCount (slotCount_ S) (grown S)) ∧
  ∀ j, j < slotCount_ S → cellAt (grown S) j = cellAt S j.
Proof.
  intros [Hl He Hf]. unfold grown. simpl.
  destruct (vat (chunks_ S) (slotCount_ S / kChunkSize)) as [ch|] eqn:E.
  - assert (cellAt S (slotCount_ S) = Some zero_cell) as Hz.
    { assert (is_Some (cellAt S (slotCount_ S))) as [c Hc].
      { unfold cellAt. rewrite E; simpl. apply vat_is_Some.
        rewrite vat_lookup in E. rewrite (Forall_lookup_1 _ _ _ _ Hl E). by apply N.mod_lt. }
      by rewrite Hc, (Hf _ _ (N.le_refl _) Hc). }
    apply vat_lt in E. split_and!; [|done|done|by unfold same_but_cells|done].
    split; simpl; [done| |intros j c Hj; apply Hf; lia].
    assert (slotCount_ S < kChunkSize * nlen (chunks_ S)); [|lia].
    pose proof (N.div_mod (slotCount_ S) kChunkSize ltac:(done)) as Hd.
    pose proof (N.mod_lt (slotCount_ S) kChunkSize ltac:(done)).
    unfold kChunkSize in *. nia.
  - apply vat_None in E.
    assert (slotCount_ S / kChunkSize = nlen (chunks_ S)) as Hn.
    { apply N.le_antisymm; [|done]. apply N.Div0.div_le_upper_bound. done. }
    assert (slotCount_ S = kChunkSize * nlen (chunks_ S)) as Hs.
    { apply N.le_antisymm; [done|]. rewrite <-Hn. by apply N.Div0.mul_div_le. }
    change (with_chunks (chunks_ S ++ [new_chunk]) (with_slotCount (slotCount_ S + 1) S))
      with (with_slotCount (slotCount_ S + 1) (with_chunks (chunks_ S ++ [new_chunk]) S)).
    split_and!; [|done| |by unfold same_but_cells|].
    + split; simpl.
      * apply Forall_app. split; [done|]. repeat constructor.
      * rewrite nlen_snoc. unfold kChunkSize in *. lia.
      * intros j c Hj.
        change (cellAt (with_slotCount ?n ?T) j) with (cellAt T j). rewrite cellAt_snoc.
        case_decide; [rewrite new_chunk_cell; intros; by simplify_eq|]. apply Hf. lia.
    + change (cellAt (with_slotCount ?n ?T) ?j) with (cellAt T j).
      by rewrite cellAt_snoc, decide_True, new_chunk_cell by done.
    + intros j Hj. change (cellAt (with_slotCount ?n ?T) j) with (cellAt T j).
      rewrite cellAt_snoc, decide_False; [done|].
      intros Hd. pose proof (N.Div0.mul_div_le j kChunkSize) as Hle. rewrite Hd in Hle. lia.
Qed.

Lemma begin_fresh cap d m X live : inv X [] live →
  alive (store X) = true → m ≠ nullptr →
  slotCount_ (store X) < default (kMaxChunks * kChunkSize) cap →
  slotCount_ (store X) < kMaxChunks * kChunkSize → progress X (exec cap (OpBegin d m) X).
Proof.
  intros Hinv Hal Hm Hcap Hmax. pose proof (i_core _ _ _ Hinv) as Hc.
  set (s := slotCount_ (store X)) in *.
  destruct (grown_spec _ (i_chunks _ _ _ Hc)) as (Hwf & Hsc & Hz & (S1 & S2 & _ & S4 & S5 & S6) & Hold).
  fold s in Hsc, Hz, Hold.
  destruct (updCell_spec _ s (set_meta m d) Hwf) as (c & Hcell & Hupd & Hwf' &
    (T1 & T2 & T3 & T4 & T5 & T6) & Hs' & Hne); [lia|].
  rewrite Hz in Hcell. injection Hcell as <-.
  assert (¬ (s ∈ pending X ∨ s ∈ busy X)) as Hout.
  { intros H. assert (s < slotCount_ (store X)); [|unfold s in *; lia].
    apply (i_part _ _ _ Hc). by right. }
  assert (handles X !! s = None) as Hh.
  { apply eq_None_not_Some. intros H. apply Hout. right. apply elem_busy. by left. }
  eexists _, [], live. split.
  { cbn [exec]. unfold allocate. rewrite (represents_pop_nil _ (i_free _ _ _ Hc)).
    cbn [negb]. rewrite N.eqb_refl. cbn [negb].
    assert (match cap with Some cap => cap <=? slotCount_ (store X) | None => false end = false)
      as ->. { destruct cap; [|done]. simpl in Hcap. apply N.leb_gt. done. }
    fold s. destruct (N.leb_spec kMaxChunks (s / kChunkSize)) as [Hbad|_].
    { exfalso. assert (s / kChunkSize < kMaxChunks); [|lia].
      apply N.Div0.div_lt_upper_bound. unfold kMaxChunks, kChunkSize in *. lia. }
    change (match vat (chunks_ (with_slotCount (s + 1) (store X))) (s / kChunkSize) with
            | Some _ => _ | None => _ end) with (grown (store X)).
    rewrite Hupd. rewrite u32_small; [done|].
    unfold kMaxChunks, kChunkSize, two32 in *. lia. }
  apply (inv_quiet s SPending (set_meta m d zero_cell) X _ [] [] live);
    [exact Hinv| | | |done|done|simpl; by rewrite T1, <-S1|simpl; by rewrite T2, <-S2
    |simpl; by rewrite T5, <-S5|simpl; by rewrite T6, <-S6|].
  - split; simpl; try done.
    + intros j Hj Hlt. rewrite Hne by done. by apply Hold.
    + intros j. rewrite T3, Hsc. unfold s. lia.
    + rewrite T3, Hsc. lia.
    + rewrite T4. change (represents (freelist (with_slotCount
        (slotCount_ (store X)) (grown (store X)))) []). rewrite S4. apply (i_free _ _ _ Hc).
    + intros j. case_decide; [|done]. split; [by intros ?%not_elem_of_nil|done].
    + intros j. rewrite elem_of_union, elem_of_singleton. case_decide; naive_solver.
    + intros j. case_decide; [subst|done]. split; [|done]. intros Hd.
      exfalso. apply Hout. right. apply elem_busy. by right.
    + intros j. case_decide; [by subst|done].
  - simpl. apply eq_None_not_Some. intros [x [Hx _]%(i_live _ _ _ Hc)].
    rewrite Hh in Hx. by destruct Hx.
  - split; [intros H; exfalso; auto|]. intros [[]|]; done.
  - simpl. rewrite T1. change (alive (with_slotCount (slotCount_ (store X))
      (grown (store X))) = false → SPending ≠ SPending). rewrite S1. congruence.
Qed.

(** An operation that rewrites the cell of a slot in use. *)
Lemma moves_set s st c X X' L L' live :
  core X L live → s < slotCount_ (store X) →
  chunks_ (store X') = chunks_ (setCell s c (store X)) →
  slotCount_ (store X') = slotCount_ (store X) →
  represents (freelist (store X')) L' →
  (∀ j, j ∈ L' ↔ if decide (j = s) then st = SFree else j ∈ L) →
  (∀ j, j ∈ pending X' ↔ if decide (j = s) then st = SPending else j ∈ pending X) →
  (∀ j, j ∈ dying X' ↔ if decide (j = s) then st = SDying else j ∈ dying X) →
  (∀ j, handles X' !! j = if decide (j = s) then held st else handles X !! j) →
  cell_ok st c → moves s st c X X' L L'.
Proof.
  intros Hc Hs Hch Hsc Hr H1 H2 H3 H4 H5.
  pose proof (cellAt_exists _ _ (i_chunks _ _ _ Hc) Hs) as Hex.
  split; [| | | | |done..].
  - rewrite (cellAt_ext _ _ _ Hch), cellAt_setCell by done. by rewrite decide_True.
  - intros j Hj _. rewrite (cellAt_ext _ _ _ Hch), cellAt_setCell by done.
    by rewrite decide_False.
  - eapply chunks_wf_ext; [exact Hch| |by apply setCell_wf, Hs; apply Hc].
    rewrite Hsc. symmetry. apply setCell_same.
  - intros j. rewrite Hsc. naive_solver.
  - rewrite Hsc. apply (i_bound _ _ _ Hc).
Qed.

Lemma held_place X L live s n : core X L live → handles X !! s = Some n →
  s < slotCount_ (store X) ∧ s ∉ L ∧ s ∉ pending X ∧ s ∉ dying X ∧ s ∈ busy X.
Proof.
  intros Hc Hh. assert (s ∈ busy X) as Hb by (apply elem_busy; left; by eexists).
  split_and!; [apply (i_part _ _ _ Hc); auto|intros Hin|intros Hin|intros Hin|done].
  - by apply (i_disj1 _ _ _ Hc) in Hin as [_ ?].
  - by apply (i_disj2 _ _ _ Hc) in Hin.
  - apply (i_disj3 _ _ _ Hc) in Hin. congruence.
Qed.

Lemma pending_place X L live s : core X L live → s ∈ pending X →
  s < slotCount_ (store X) ∧ s ∉ L ∧ s ∉ dying X ∧ handles X !! s = None ∧ s ∉ busy X.
Proof.
  intros Hc Hp. pose proof (i_disj2 _ _ _ Hc _ Hp) as Hb.
  split_and!; [apply (i_part _ _ _ Hc); auto|intros Hin|intros Hin| |done].
  - by apply (i_disj1 _ _ _ Hc) in Hin as [? _].
  - apply Hb, elem_busy. by right.
  - apply eq_None_not_Some. intros Hh. apply Hb, elem_busy. by left.
Qed.

Lemma dying_place X L live s : core X L live → s ∈ dying X →
  s < slotCount_ (store X) ∧ s ∉ L ∧ s ∉ pending X ∧ handles X !! s = None ∧ s ∈ busy X.
Proof.
  intros Hc Hd. assert (s ∈ busy X) as Hb by (apply elem_busy; by right).
  split_and!; [apply (i_part _ _ _ Hc); auto|intros Hin|intros Hin| |done].
  - by apply (i_disj1 _ _ _ Hc) in Hin as [_ ?].
  - by apply (i_disj2 _ _ _ Hc) in Hin.
  - by apply (i_disj3 _ _ _ Hc).
Qed.

Ltac slot_case j s :=
  intros j; rewrite ?elem_of_difference, ?elem_of_union, ?elem_of_cons, ?elem_of_singleton;
  destruct (decide (j = s)) as [->|?];
  rewrite ?lookup_insert_eq, ?lookup_delete_eq, ?lookup_insert_ne, ?lookup_delete_ne
    by congruence; try naive_solver.

Lemma u32_pred n : 0 < n → n < two32 → u32 (n + (two32 - 1)) = n - 1.
Proof.
  intros H1 H2. unfold u32. replace (n + (two32 - 1)) with (n - 1 + 1 * two32) by lia.
  rewrite N.Div0.mod_add. apply N.mod_small. lia.
Qed.

Lemma finish_ok cap s X L live : inv X L live → s ∈ pending X →
  progress X (exec cap (OpFinish s) X).
Proof.
  intros Hinv Hp. pose proof (i_core _ _ _ Hinv) as Hc.
  destruct (pending_place _ _ _ _ Hc Hp) as (Hs & HL & Hd & Hh & Hb).
  destruct (updCell_spec _ s (set_refcount 1) (i_chunks _ _ _ Hc) Hs)
    as (c & Hcell & Hupd & Hwf' & (T1 & T2 & T3 & T4 & T5 & T6) & Hs' & Hne).
  pose proof (i_mem_pending _ _ _ Hc _ _ Hp Hcell) as Hmem.
  pose proof (busy_bound _ _ _ Hc) as Hbound.
  eexists _, L, (<[s := (descId c, memory c)]> live). split.
  { cbn [exec]. unfold slotMetaAt, activate. rewrite Hcell; simpl.
    rewrite (proj2 (N.ltb_lt _ _) Hs), Hupd. done. }
  assert (moves s (SHeld 1) (set_refcount 1 c) X
    {| store := with_live (u32 (liveSlotCount (setCell s (set_refcount 1 c) (store X)) + 1))
                  (setCell s (set_refcount 1 c) (store X));
       handles := <[s := 1]> (handles X); pending := pending X ∖ {[s]}; dying := dying X;
       created := created X ++ [(descId c, memory c)]; destroyed := destroyed X |} L L) as Hm.
  { eapply moves_set; simpl; [exact Hc|done|done|done| |slot_case j s..|].
    - rewrite T4. apply (i_free _ _ _ Hc).
    - split; simpl; [done|]. unfold two32; lia. }
  pose proof (busy_add _ _ _ _ _ _ _ Hm Hb ltac:(left; by eexists)) as Hsz.
  assert (live !! s = None) as Hln by by rewrite (lookup_live _ _ _ _ _ Hc Hcell), Hh.
  split.
  - eapply core_moves; [exact Hc|exact Hm|]. intros j. simpl.
    destruct (decide (j = s)) as [->|]; [|by rewrite lookup_insert_ne by congruence].
    rewrite lookup_insert_eq. destruct (N.eqb_spec (memory c) nullptr); done.
  - simpl. rewrite (i_log _ _ _ Hinv), map_to_list_insert by done. simpl.
    by rewrite <-(assoc_L (++)), <-Permutation_cons_append.
  - rewrite Hsz. simpl. rewrite T2, (i_count _ _ _ Hinv), u32_small; [lia|].
    unfold kMaxChunks, kChunkSize, two32 in *. lia.
  - simpl. rewrite T1, T5, T6. apply (i_alive _ _ _ Hinv).
  - simpl. rewrite T1. intros Hal. destruct (i_dead _ _ _ Hinv Hal) as (_ & Hpe & _).
    rewrite Hpe in Hp. by apply not_elem_of_empty in Hp.
Qed.

Lemma push_free X L live s g : core X L live → s ∉ L → s < slotCount_ (store X) →
  represents (pushTreiberFreelist s g (freelist (store X))) (s :: L).
Proof.
  intros Hc HL Hs. apply represents_push; [apply (i_free _ _ _ Hc)|done|].
  pose proof (i_bound _ _ _ Hc). unfold kMaxChunks, kChunkSize, kInvalidSlotId in *. lia.
Qed.

Lemma fail_ok cap s X L live : inv X L live → s ∈ pending X →
  progress X (exec cap (OpFail s) X).
Proof.
  intros Hinv Hp. pose proof (i_core _ _ _ Hinv) as Hc.
  destruct (pending_place _ _ _ _ Hc Hp) as (Hs & HL & Hd & Hh & Hb).
  destruct (updCell_spec _ s (set_memory nullptr) (i_chunks _ _ _ Hc) Hs)
    as (c & Hcell & Hupd & Hwf' & (T1 & T2 & T3 & T4 & T5 & T6) & Hs' & Hne).
  eexists _, (s :: L), live. split.
  { cbn [exec]. unfold reclaim. rewrite Hupd; simpl. rewrite Hs'; simpl. done. }
  eapply (inv_quiet s SFree); [exact Hinv| | | |done|done|exact T1|exact T2|exact T5|exact T6|done].
  - eapply moves_set; simpl; [exact Hc|done|done|done| |slot_case j s..|].
    + rewrite T4. by eapply push_free.
    + split; simpl; [|done]. by rewrite (i_ref _ _ _ Hc _ _ Hs Hcell), Hh.
  - simpl. by rewrite (lookup_live _ _ _ _ _ Hc Hcell), Hh.
  - split; [done|]. intros [[]|]; done.
Qed.

Lemma store_copy_ok cap s n X L live : inv X L live → handles X !! s = Some n →
  n + 1 < two32 → memoryAt (store X) s ≠ nullptr → progress X (exec cap (OpCopy s) X).
Proof.
  intros Hinv Hh Hn Hmem. pose proof (i_core _ _ _ Hinv) as Hc.
  destruct (held_place _ _ _ _ _ Hc Hh) as (Hs & HL & Hp & Hd & Hb).
  destruct (cellAt_exists _ _ (i_chunks _ _ _ Hc) Hs) as [c0 Hc0].
  pose proof (i_ref _ _ _ Hc _ _ Hs Hc0) as Href. rewrite Hh in Href. simpl in Href.
  destruct (updCell_spec _ s (set_refcount (u32 (refcount c0 + 1))) (i_chunks _ _ _ Hc) Hs)
    as (c & Hcell & Hupd & Hwf' & (T1 & T2 & T3 & T4 & T5 & T6) & Hs' & Hne).
  assert (c0 = c) as -> by congruence. clear Hc0.
  unfold memoryAt in Hmem. rewrite (proj2 (N.leb_gt _ _) Hs), Hcell in Hmem.
  eexists _, L, live. split.
  { cbn [exec]. unfold retain. rewrite Hcell; simpl.
    rewrite (proj2 (N.ltb_lt _ _) Hs), (proj2 (N.eqb_neq _ _) Hmem). simpl.
    rewrite Hupd. done. }
  eapply (inv_quiet s (SHeld (n + 1))); [exact Hinv| | | |done|done|exact T1|exact T2|exact T5|exact T6|done].
  - eapply moves_set; simpl; [exact Hc|done|done|done| |slot_case j s..|].
    + rewrite T4. apply (i_free _ _ _ Hc).
    + by rewrite Hh.
    + rewrite Href, u32_small by done. split; simpl; [done|lia].
  - by rewrite (lookup_live _ _ _ _ _ Hc Hcell), Hh.
  - split; [|done]. intros _. left. by eexists.
Qed.

(** [reclaimSlot] for a slot that holds no object any more. *)
Lemma reclaimSlot_spec s S : chunks_wf S → s < slotCount_ S →
  liveSlotCount S ≠ 0 → liveSlotCount S < two32 →
  ∃ c S', cellAt S s = Some c ∧ reclaimSlot s S = Some S' ∧
    chunks_ S' = chunks_ (setCell s (bump_generation (set_memory nullptr c)) S) ∧
    slotCount_ S' = slotCount_ S ∧
    (∃ g, freelist S' = pushTreiberFreelist s g (freelist S)) ∧
    alive S' = alive S ∧ liveSlotCount S' = liveSlotCount S - 1 ∧
    let final := (liveSlotCount S =? 1) && negb (alive S) in
    deleteClaimed_ S' = (final || deleteClaimed_ S) ∧
    deleted S' = if final && negb (deleteClaimed_ S) then deleted S + 1 else deleted S.
Proof.
  intros Hwf Hs Hl0 Hl.
  destruct (updCell_spec S s (λ c, bump_generation (set_memory nullptr c)) Hwf Hs)
    as (c & Hcell & Hupd & Hwf' & (T1 & T2 & T3 & T4 & T5 & T6) & Hs' & Hne).
  exists c. unfold reclaimSlot. rewrite Hupd; simpl. rewrite Hs'; simpl.
  unfold releaseLiveSlot; simpl. rewrite T2, (proj2 (N.eqb_neq _ _) Hl0).
  rewrite u32_pred by lia. unfold tryDeleteIfUnused; simpl.
  destruct (N.eqb_spec (liveSlotCount S) 1) as [E|E].
  - rewrite E, T1. simpl. destruct (alive S) eqn:Ea; simpl; eexists;
      (split; [done|split; [reflexivity|]]);
      (split_and!; simpl; rewrite ?T1, ?T3, ?T4, ?T5, ?T6; try done; try by eexists).
    by destruct (deleteClaimed_ S).
  - eexists. split; [done|split; [reflexivity|]].
    split_and!; simpl; rewrite ?T1, ?T3, ?T4, ?T5, ?T6; try done; by eexists.
Qed.

(** A slot that leaves the busy ones for the freelist. *)
Lemma inv_release s c S' X X' L live :
  inv X L live → s < slotCount_ (store X) → s ∈ busy X → s ∉ L → s ∉ pending X →
  live !! s = None → cellAt (store X) s = Some c → refcount c = 0 →
  reclaimSlot s (store X) = Some S' →
  store X' = S' → pending X' = pending X →
  (∀ j, j ∈ dying X' ↔ if decide (j = s) then SFree = SDying else j ∈ dying X) →
  (∀ j, handles X' !! j = if decide (j = s) then None else handles X !! j) →
  created X' = created X → destroyed X' = destroyed X →
  inv X' (s :: L) live.
Proof.
  intros Hinv Hs Hb HL Hp Hln Hcell Href Hrec E1 E2 Hdy Hha E3 E4.
  pose proof (i_core _ _ _ Hinv) as Hc. pose proof (busy_bound _ _ _ Hc) as Hbound.
  pose proof (i_count _ _ _ Hinv) as Hcnt.
  assert (base.size (busy X) ≠ 0%nat) as Hne.
  { intros Hz. apply size_empty_inv in Hz. by apply (Hz s), not_elem_of_empty in Hb. }
  destruct (reclaimSlot_spec s (store X) (i_chunks _ _ _ Hc) Hs)
    as (c' & S1 & Hc' & Hr & R1 & R2 & [g R3] & R4 & R5 & R6 & R7);
    [lia|unfold kMaxChunks, kChunkSize, two32 in *; lia|].
  rewrite Hrec in Hr. injection Hr as <-. rewrite Hcell in Hc'. injection Hc' as <-. subst S'.
  assert (moves s SFree (bump_generation (set_memory nullptr c)) X X' L (s :: L)) as Hm.
  { eapply moves_set; [exact Hc|done|done|done| |slot_case j s| |done|done|].
    - rewrite R3. by eapply push_free.
    - intros j. rewrite E2. destruct (decide (j = s)) as [->|]; [naive_solver|done].
    - by split. }
  pose proof (busy_del _ _ _ _ _ _ _ Hm Hb ltac:(intros [[]|]; done)) as Hsz. split.
  - eapply core_moves; [exact Hc|exact Hm|]. intros j.
    by destruct (decide (j = s)) as [->|].
  - rewrite E3, E4. apply (i_log _ _ _ Hinv).
  - rewrite R5, Hcnt. lia.
  - rewrite R4, R6, R7. intros Ha. rewrite Ha, andb_false_r. by apply (i_alive _ _ _ Hinv).
  - rewrite R4. intros Ha. destruct (i_dead _ _ _ Hinv Ha) as (H1 & H2 & H3 & H4).
    assert (busy X ≠ ∅) as Hne' by set_solver.
    rewrite bool_decide_false in H3 by done. rewrite decide_False in H4 by done.
    rewrite R6, R7, Ha, H3, H4, E2, orb_false_r, !andb_true_r. simpl.
    split_and!; [done|done| |].
    + rewrite Hcnt. destruct (N.eqb_spec (N.of_nat (base.size (busy X))) 1) as [E|E].
      * rewrite bool_decide_true; [done|]. apply leibniz_equiv, size_empty_inv. lia.
      * rewrite bool_decide_false; [done|]. intros Hz. rewrite Hz, size_empty in Hsz. lia.
    + rewrite Hcnt. destruct (N.eqb_spec (N.of_nat (base.size (busy X))) 1) as [E|E].
      * rewrite decide_True; [done|]. apply leibniz_equiv, size_empty_inv. lia.
      * rewrite decide_False; [done|]. intros Hz. rewrite Hz, size_empty in Hsz. lia.
Qed.

Lemma reclaim_ok cap s X L live : inv X L live → s ∈ dying X →
  progress X (exec cap (OpReclaim s) X).
Proof.
  intros Hinv Hd. pose proof (i_core _ _ _ Hinv) as Hc.
  destruct (dying_place _ _ _ _ Hc Hd) as (Hs & HL & Hp & Hh & Hb).
  destruct (cellAt_exists _ _ (i_chunks _ _ _ Hc) Hs) as [c Hcell].
  pose proof (busy_bound _ _ _ Hc) as Hbound. pose proof (i_count _ _ _ Hinv) as Hcnt.
  assert (base.size (busy X) ≠ 0%nat) as Hne.
  { intros Hz. apply size_empty_inv in Hz. by apply (Hz s), not_elem_of_empty in Hb. }
  destruct (reclaimSlot_spec s (store X) (i_chunks _ _ _ Hc) Hs) as (_ & S' & _ & Hrec & _);
    [lia|unfold kMaxChunks, kChunkSize, two32 in *; lia|].
  eexists _, (s :: L), live. split; [cbn [exec]; by rewrite Hrec|].
  eapply (inv_release s c S' X); try done; simpl.
  - by rewrite (lookup_live _ _ _ _ _ Hc Hcell), Hh.
  - by rewrite (i_ref _ _ _ Hc _ _ Hs Hcell), Hh.
  - slot_case j s.
  - slot_case j s.
Qed.

Lemma setCell_setCell s c c' S : is_Some (cellAt S s) →
  chunks_ (setCell s c' (setCell s c S)) = chunks_ (setCell s c' S).
Proof.
  unfold cellAt, setCell. destruct (vat (chunks_ S) (s / kChunkSize)) as [ch|] eqn:E;
    simpl; [|by intros []].
  intros _. pose proof (vat_lt _ _ _ E). rewrite vat_vset_eq by done. simpl.
  rewrite !vset_insert. by rewrite !list_insert_insert_eq.
Qed.

Lemma destroy_log_perm (live : gmap N (DescriptorId * ptr)) (s : N) c :
  live !! s = (if memory c =? nullptr then None else Some (descId c, memory c)) →
  (map_to_list live).*2 ≡ₚ
    destroy_log (memory c, descId c) ++ (map_to_list (delete s live)).*2.
Proof.
  intros Hl. unfold destroy_log; simpl. destruct (N.eqb_spec (memory c) nullptr).
  - by rewrite delete_id.
  - rewrite <-(map_to_list_delete live s (descId c, memory c)) by done. done.
Qed.

(** An operation that destroys the object of a slot. *)
Lemma inv_destroy s st c c' X X' L live n :
  inv X L live → moves s st c' X X' L L →
  cellAt (store X) s = Some c → handles X !! s = Some n → live_of st c' = None →
  is_Some (held st) ∨ st = SDying →
  created X' = created X → destroyed X' = destroyed X ++ destroy_log (memory c, descId c) →
  alive (store X') = alive (store X) → liveSlotCount (store X') = liveSlotCount (store X) →
  deleteClaimed_ (store X') = deleteClaimed_ (store X) →
  deleted (store X') = deleted (store X) →
  inv X' L (delete s live).
Proof.
  intros Hinv Hm Hcell Hh Hlo Hst E1 E2 E3 E4 E5 E6.
  pose proof (i_core _ _ _ Hinv) as Hc.
  destruct (held_place _ _ _ _ _ Hc Hh) as (Hs & HL & Hp & Hd & Hb).
  assert (busy X' = busy X) as Hbusy by (eapply busy_same; [exact Hm|done]).
  pose proof (lookup_live _ _ _ _ _ Hc Hcell) as Hl. rewrite Hh in Hl. simpl in Hl. split.
  - eapply core_moves; [exact Hc|exact Hm|]. intros j.
    destruct (decide (j = s)) as [->|]; [by rewrite lookup_delete_eq|].
    by rewrite lookup_delete_ne by congruence.
  - rewrite E1, E2, (i_log _ _ _ Hinv), (destroy_log_perm _ _ _ Hl).
    by rewrite (assoc_L (++)).
  - by rewrite E4, Hbusy, (i_count _ _ _ Hinv).
  - rewrite E3, E5, E6. apply (i_alive _ _ _ Hinv).
  - rewrite E3, E5, E6, Hbusy. intros Ha.
    destruct (i_dead _ _ _ Hinv Ha) as (-> & Hpe & ? & ?).
    split_and!; [by rewrite delete_empty| |done|done].
    apply set_eq. intros j. rewrite (mv_pending _ _ _ _ _ _ _ Hm).
    destruct (decide (j = s)) as [->|]; [|by rewrite Hpe].
    split; [|by intros ?%not_elem_of_empty]. intros ->. by destruct Hst as [[]|].
Qed.

Lemma drop_ok cap s n X L live : inv X L live → handles X !! s = Some n →
  progress X (exec cap (OpDrop s) X).
Proof.
  intros Hinv Hh. pose proof (i_core _ _ _ Hinv) as Hc.
  destruct (held_place _ _ _ _ _ Hc Hh) as (Hs & HL & Hp & Hd & Hb).
  pose proof (i_pos _ _ _ Hc _ _ Hh) as Hn.
  destruct (cellAt_exists _ _ (i_chunks _ _ _ Hc) Hs) as [c0 Hc0].
  pose proof (i_ref _ _ _ Hc _ _ Hs Hc0) as Href. rewrite Hh in Href. simpl in Href.
  destruct (updCell_spec _ s (set_refcount (n - 1)) (i_chunks _ _ _ Hc) Hs)
    as (c & Hcell & Hupd & Hwf' & (T1 & T2 & T3 & T4 & T5 & T6) & Hs' & Hne).
  assert (c0 = c) as -> by congruence. clear Hc0.
  set (S1 := setCell s (set_refcount (n - 1) c) (store X)) in *.
  assert (releaseAcquire s (store X) = Some (n =? 1, S1)) as Hrel.
  { unfold releaseAcquire. rewrite Hcell; simpl. rewrite (proj2 (N.ltb_lt _ _) Hs).
    rewrite Href, u32_pred by lia. by rewrite Hupd. }
  pose proof (lookup_live _ _ _ _ _ Hc Hcell) as Hl. rewrite Hh in Hl. simpl in Hl.
  unfold progress. cbn [exec]. unfold releaseIfPrototype. rewrite Hrel, Hh; simpl.
  destruct (N.eqb_spec n 1) as [->|Hn1]; simpl.
  2:{ eexists _, L, live. split; [reflexivity|].
      eapply (inv_quiet s (SHeld (n - 1)) (set_refcount (n - 1) c));
        [exact Hinv| |by rewrite Hl| |done|done|exact T1|exact T2|exact T5|exact T6|done].
      - eapply moves_set; simpl; [exact Hc|done|done|done| |slot_case j s..|].
        + rewrite T4. apply (i_free _ _ _ Hc).
        + split; simpl; [done|lia].
      - split; [|done]. intros _. left. by eexists. }
  rewrite T1. destruct (alive (store X)) eqn:Ha; simpl.
  - unfold takeSlotMetaForDestruction. rewrite T3, (proj2 (N.leb_gt _ _) Hs), Hs'.
    eexists _, L, _. split; [reflexivity|].
    destruct (setCell_same s (set_memory nullptr (set_refcount (1 - 1) c)) S1)
      as (U1 & U2 & U3 & U4 & U5 & U6).
    eapply (inv_destroy s SDying c (set_memory nullptr (set_refcount 0 c)) X);
      [exact Hinv| |exact Hcell|exact Hh|done|by right|done|done|simpl; congruence
      |simpl; congruence..].
    eapply moves_set; simpl; [exact Hc|done| |congruence| |slot_case j s..|done].
    + unfold S1. rewrite setCell_setCell by by eexists. done.
    + rewrite U4, T4. apply (i_free _ _ _ Hc).
  - destruct (i_dead _ _ _ Hinv Ha) as (-> & Hpe & _).
    rewrite lookup_empty in Hl.
    assert (memory c = nullptr) as Hmem by (destruct (N.eqb_spec (memory c) nullptr); done).
    set (X1 := {| store := S1; handles := delete s (handles X); pending := pending X;
      dying := {[s]} ∪ dying X; created := created X; destroyed := destroyed X |}).
    assert (inv X1 L ∅) as Hinv1.
    { eapply (inv_quiet s SDying (set_refcount 0 c) X);
        [exact Hinv| |by rewrite lookup_empty| |done|done|by etrans; [exact T1|]|exact T2|exact T5
        |exact T6|done].
      - eapply moves_set; simpl; [exact Hc|done|done|done| |slot_case j s..|done].
        rewrite T4. apply (i_free _ _ _ Hc).
      - split; [|done]. intros _. by right. }
    destruct (reclaim_ok cap s X1 L ∅ Hinv1) as (X2 & L2 & live2 & HX2 & Hinv2).
    { simpl. set_solver. }
    cbn [exec] in HX2. simpl in HX2.
    destruct (reclaimSlot s S1) as [S2|] eqn:E; simpl in HX2; [|done]. simplify_eq.
    eexists _, L2, live2. split; [reflexivity|]. simpl in Hinv2.
    replace (({[s]} ∪ dying X) ∖ {[s]}) with (dying X) in Hinv2 by set_solver. done.
Qed.

(** A sweep of a slot without an object changes no account. *)
Lemma sweep_empty cap s st c X L live : inv X L live → s < slotCount_ (store X) →
  cellAt (store X) s = Some c → memory c = nullptr →
  (s ∈ L ↔ st = SFree) → s ∉ pending X → (s ∈ dying X ↔ st = SDying) →
  handles X !! s = held st → st ≠ SPending →
  progress X (exec cap (OpSweep s) X).
Proof.
  intros Hinv Hs Hcell Hm H1 Hp H2 Hh Hst. pose proof (i_core _ _ _ Hinv) as Hc.
  destruct (setCell_same s (set_memory nullptr c) (store X)) as (U1 & U2 & U3 & U4 & U5 & U6).
  unfold progress. cbn [exec]. unfold takeSlotMetaForDestruction.
  rewrite (proj2 (N.leb_gt _ _) Hs), Hcell. unfold destroy_log; simpl. rewrite Hm. simpl.
  eexists _, L, live. split; [reflexivity|].
  assert (s ∈ busy X ↔ is_Some (held st) ∨ st = SDying) as Hb.
  { by rewrite elem_busy, Hh, H2. }
  eapply (inv_quiet s st (set_memory nullptr c) X);
    [exact Hinv| | |exact Hb|done|simpl; by rewrite app_nil_r|exact U1|exact U2|exact U5|exact U6|done].
  - eapply moves_set; simpl; [exact Hc|done|done|done|rewrite U4; apply (i_free _ _ _ Hc)| | | | |].
    1-4: intros j; by destruct (decide (j = s)) as [->|].
    split; simpl.
    + by rewrite (i_ref _ _ _ Hc _ _ Hs Hcell), Hh.
    + destruct st as [| |n|]; try done. by apply (i_pos _ _ _ Hc _ _ Hh).
  - rewrite (lookup_live _ _ _ _ _ Hc Hcell), Hh. destruct st; simpl; try done. by rewrite Hm.
Qed.

Lemma sweep_ok cap s X L live : inv X L live → s ∉ pending X →
  progress X (exec cap (OpSweep s) X).
Proof.
  intros Hinv Hp. pose proof (i_core _ _ _ Hinv) as Hc.
  destruct (N.ltb_spec s (slotCount_ (store X))) as [Hs|Hs].
  2:{ exists X, L, live. split; [|done]. cbn [exec]. unfold takeSlotMetaForDestruction.
      rewrite (proj2 (N.leb_le _ _) Hs). unfold destroy_log; simpl. rewrite app_nil_r.
      by destruct X. }
  destruct (cellAt_exists _ _ (i_chunks _ _ _ Hc) Hs) as [c Hcell].
  destruct (handles X !! s) as [n|] eqn:Hh.
  - destruct (held_place _ _ _ _ _ Hc Hh) as (_ & HL & _ & Hd & Hb).
    destruct (setCell_same s (set_memory nullptr c) (store X)) as (U1 & U2 & U3 & U4 & U5 & U6).
    unfold progress. cbn [exec]. unfold takeSlotMetaForDestruction.
    rewrite (proj2 (N.leb_gt _ _) Hs), Hcell.
    eexists _, L, _. split; [reflexivity|].
    eapply (inv_destroy s (SHeld n) c (set_memory nullptr c) X);
      [exact Hinv| |exact Hcell|exact Hh|done|left; by eexists|done|done|exact U1|exact U2
      |exact U5|exact U6].
    eapply moves_set; simpl; [exact Hc|done|done|done| |slot_case j s..|].
    + rewrite U4. apply (i_free _ _ _ Hc).
    + split; simpl; [by rewrite (i_ref _ _ _ Hc _ _ Hs Hcell), Hh|by apply (i_pos _ _ _ Hc _ _ Hh)].
  - destruct (decide (s ∈ dying X)) as [Hd|Hd].
    + destruct (dying_place _ _ _ _ Hc Hd) as (_ & HL & _).
      apply (sweep_empty cap s SDying c X L live); try done.
      apply (i_mem_free _ _ _ Hc s c); [by right|done].
    + assert (s ∈ L) as HL.
      { destruct (proj1 (i_part _ _ _ Hc s) Hs) as [?|[?|Hb]]; [done..|].
        apply elem_busy in Hb as [[x Hx]|]; [congruence|done]. }
      apply (sweep_empty cap s SFree c X L live); try done.
      apply (i_mem_free _ _ _ Hc s c); [by left|done].
Qed.

Lemma dead_ok cap X L live : inv X L live → alive (store X) = true → pending X = ∅ →
  (∀ s, is_Some (handles X !! s) → memoryAt (store X) s = nullptr) →
  progress X (exec cap OpMarkDead X).
Proof.
  intros Hinv Ha Hp Hmem. pose proof (i_core _ _ _ Hinv) as Hc.
  assert (live = ∅) as ->.
  { apply map_empty. intros s. destruct (live !! s) as [x|] eqn:E; [|done].
    apply (i_live _ _ _ Hc) in E as [Hh (c & Hcell & Hne & _)].
    specialize (Hmem s Hh). destruct Hh as [n Hh].
    destruct (held_place _ _ _ _ _ Hc Hh) as (Hs & _).
    unfold memoryAt in Hmem. rewrite (proj2 (N.leb_gt _ _) Hs), Hcell in Hmem. done. }
  destruct (i_alive _ _ _ Hinv Ha) as [Hcl Hdel]. pose proof (i_count _ _ _ Hinv) as Hcnt.
  eexists _, L, ∅. split; [reflexivity|]. cbn [exec].
  unfold markRegistryDeadAndReleaseHold, tryDeleteIfUnused; simpl.
  rewrite Hcl, Hdel, Hcnt.
  assert (core {| store := {| alive := false; liveSlotCount := liveSlotCount (store X);
      chunks_ := chunks_ (store X); slotCount_ := slotCount_ (store X);
      freelist := freelist (store X); deleteClaimed_ := bool_decide (busy X = ∅);
      deleted := if decide (busy X = ∅) then 1 else 0 |};
    handles := handles X; pending := pending X; dying := dying X;
    created := created X; destroyed := destroyed X |} L ∅) as Hcore.
  { destruct Hc as [Hch]. split; try done. by eapply chunks_wf_ext, Hch. }
  pose proof (i_log _ _ _ Hinv) as Hlog. rewrite Hcnt in Hcore.
  destruct (N.eqb_spec (N.of_nat (base.size (busy X))) 0) as [E|E]; simpl.
  - assert (busy X = ∅) as Hb by (apply leibniz_equiv, size_empty_inv; lia).
    rewrite bool_decide_true, decide_True in Hcore by done.
    split; [exact Hcore|exact Hlog|done|done|]. intros _.
    split_and!; [done|exact Hp| |]; change (busy _) with (busy X).
    + by rewrite bool_decide_true.
    + by rewrite decide_True.
  - assert (busy X ≠ ∅) as Hb by (intros Hz; rewrite Hz, size_empty in E; lia).
    rewrite bool_decide_false, decide_False in Hcore by done.
    split; [exact Hcore|exact Hlog|done|done|]. intros _.
    split_and!; [done|exact Hp| |]; change (busy _) with (busy X).
    + by rewrite bool_decide_false.
    + by rewrite decide_False.
Qed.

Lemma exec_ok cap o X L live : inv X L live → allowed cap o X → progress X (exec cap o X).
Proof.
  intros Hinv. destruct o as [d m|s|s|s|s|s|s|]; cbn [allowed].
  - intros (Ha & Hm & Hroom). pose proof (i_free _ _ _ (i_core _ _ _ Hinv)) as [Hch Hnd].
    destruct L as [|s L]; [|by apply (begin_free cap d m s X L live)].
    destruct Hroom as [Hr|[? ?]]; [done|]. by apply (begin_fresh cap d m X live).
  - by apply (finish_ok cap s X L live).
  - by apply (fail_ok cap s X L live).
  - intros (n & ? & ? & ?). by apply (store_copy_ok cap s n X L live).
  - intros [n Hn]. by apply (drop_ok cap s n X L live).
  - by apply (reclaim_ok cap s X L live).
  - by apply (sweep_ok cap s X L live).
  - intros (? & ? & ?). by apply (dead_ok cap X L live).
Qed.

(** Runs of allowed operations, whole ones in any order. *)
Inductive reach (cap : option N) : sys → Prop :=
| reach_start : reach cap start
| reach_step X o X' : reach cap X → allowed cap o X → exec cap o X = Some X' → reach cap X'.

Lemma reach_inv cap X : reach cap X → ∃ L live, inv X L live.
Proof.
  induction 1 as [|X o X' _ (L & live & Hinv) Hal Hex]; [by eexists _, _; apply store_inv_start|].
  destruct (exec_ok cap o X L live Hinv Hal) as (X1 & L1 & live1 & HX1 & Hinv1).
  rewrite Hex in HX1. simplify_eq. eauto.
Qed.


(** A store that outlives its registry deletes itself exactly once, when the
    last slot is released: it is never deleted while the registry is alive, while a
    handle exists or while a last release is still under way, and as soon as the
    registry is dead and none of these remain it has been deleted once. *)
Theorem prototype_store_deleted_once (cap : option N) (X : sys) :
  reach cap X →
  deleted (store X) =
    if alive (store X) then 0
    else if decide (handles X = ∅ ∧ dying X = ∅) then 1 else 0.
Proof.
  intros (L & live & Hinv)%reach_inv. destruct (alive (store X)) eqn:Ha.
  - by apply (i_alive _ _ _ Hinv).
  - destruct (i_dead _ _ _ Hinv Ha) as (_ & _ & _ & ->).
    assert (busy X = ∅ ↔ handles X = ∅ ∧ dying X = ∅) as Hb.
    { unfold busy. rewrite empty_union_L. by rewrite dom_empty_iff_L. }
    destruct (decide (busy X = ∅)) as [E|E];
      destruct (decide (handles X = ∅ ∧ dying X = ∅)) as [E'|E']; tauto.
Qed.

(** ** Runs on concrete operations *)

Definition allowedb (cap : option N) (o : op) (X : sys) : bool :=
  match o with
  | OpBegin d m =>
      alive (store X) && negb (m =? nullptr) &&
      (negb (low (head (freelist (store X))) =? kInvalidSlotId) ||
       (slotCount_ (store X) <? default (kMaxChunks * kChunkSize) cap) &&
       (slotCount_ (store X) <? kMaxChunks * kChunkSize))
  | OpFinish s | OpFail s => bool_decide (s ∈ pending X)
  | OpCopy s =>
      match handles X !! s with
      | Some n => (n + 1 <? two32) && negb (memoryAt (store X) s =? nullptr)
      | None => false
      end
  | OpDrop s => bool_decide (is_Some (handles X !! s))
  | OpReclaim s => bool_decide (s ∈ dying X)
  | OpSweep s => bool_decide (s ∉ pending X)
  | OpMarkDead => alive (store X) && bool_decide (pending X = ∅) &&
      forallb (λ s, memoryAt (store X) s =? nullptr) (map_to_list (handles X)).*1
  end.

Lemma allowedb_sound cap o X : allowedb cap o X = true → allowed cap o X.
Proof.
  destruct o as [d m|s|s|s|s|s|s|]; simpl; rewrite ?bool_decide_eq_true; try done.
  - rewrite !andb_true_iff, orb_true_iff, andb_true_iff, !negb_true_iff, !N.ltb_lt, !N.eqb_neq.
    naive_solver.
  - destruct (handles X !! s) as [n|]; [|done].
    rewrite andb_true_iff, N.ltb_lt, negb_true_iff, N.eqb_neq. eauto.
  - rewrite !andb_true_iff, bool_decide_eq_true, forallb_forall. intros [[? ?] Hf].
    split_and!; [done..|]. intros s [n Hn]. apply N.eqb_eq, Hf, list_elem_of_In.
    apply list_elem_of_fmap. exists (s, n). split; [done|]. by apply elem_of_map_to_list.
Qed.

Fixpoint run (cap : option N) (ops : list op) (X : sys) : option sys :=
  match ops with
  | [] => Some X
  | o :: ops' => if allowedb cap o X then X' ← exec cap o X; run cap ops' X' else None
  end.

Lemma run_reach cap ops : ∀ X, reach cap X →
  ∀ X', run cap ops X = Some X' → reach cap X'.
Proof.
  induction ops as [|o ops IH]; intros X Hr X'; cbn [run]; [intros; by simplify_eq|].
  destruct (allowedb cap o X) eqn:Ha; [|done]. apply allowedb_sound in Ha.
  destruct (exec cap o X) as [X1|] eqn:E; simpl; [|done].
  apply IH. by eapply reach_step.
Qed.

(** A failed construction whose slot is reused, a copied handle, the teardown
    sweep before the last handles are dropped and the death of the registry. *)
Definition sample_ops : list op :=
  [OpBegin 5 100; OpFail 0; OpBegin 5 101; OpFinish 0; OpCopy 0; OpBegin 6 102; OpFinish 1;
   OpDrop 0; OpDrop 1; OpReclaim 1; OpSweep 1; OpSweep 0; OpMarkDead].

Definition final (ops : list op) : sys := default start (run None ops start).

Lemma final_reach ops : bool_decide (is_Some (run None ops start)) = true →
  reach None (final ops).
Proof.
  intros [X HX]%bool_decide_eq_true. unfold final. rewrite HX. simpl.
  by apply (run_reach None ops start); [constructor|].
Qed.


End PrototypeStore.
