(* ===== verification/Listeners.v ===== *)
(** The lifecycle listeners.

    [Module ListenerStore] models [internal/detail/ListenerStore.hpp] and
    [api/ctr/ListenerHandle.hpp]: the master lists, the published views, the
    two-pointer dispatch and the retirement of views.  [Module Hazard] models the
    race between lock-free dispatchers and the reclamation of retired views. *)
From stdpp Require Import functions.
From S2P Require Import Prelude.

Local Open Scope N_scope.

Module ListenerStore.

(** ** Data *)

(** A callback is an opaque function object; what it does belongs to its
    registrant. *)
Abbreviation Callback := N (only parsing).

Definition kPhaseCount : N := 4.
Definition kAllScopes : NameId := kInvalidNameId - 2.
Definition kNoScope : NameId := kInvalidNameId.

Definition phaseInitialized : N := 0.
Definition phaseCreated : N := 1.
Definition phasePreDestroy : N := 2.
Definition phaseDestroyed : N := 3.

Record Entry : Type := {
  typeId : TypeId;
  listenerScope : NameId;
  callback : Callback;
  priority : Z;
  token : N;
  phaseIndex : N
}.

#[export] Instance Entry_eq_dec : EqDecision Entry.
Proof. solve_decision. Defined.

Record ViewEntry : Type := {
  v_callback : Callback;
  v_listenerScope : NameId;
  v_priority : Z;
  v_token : N
}.

Record PhaseView : Type := {
  global : list ViewEntry;
  typed : gmap TypeId (list ViewEntry)
}.

Abbreviation View := (list PhaseView) (only parsing).

(** Views are allocations named by a number; [views] holds the ones not freed and
    [hazards] what the dispatch slots of other threads publish. *)
Record t : Type := {
  phases_ : list (list Entry);
  phaseSizes_ : list N;
  nextToken_ : N;
  views : gmap N View;
  nextView : N;
  currentView_ : option N;
  allViews_ : list N;
  hazards : gset N
}.

Definition empty : t :=
  {| phases_ := replicate 4 []; phaseSizes_ := replicate 4 0; nextToken_ := 0;
     views := ∅; nextView := 0; currentView_ := None; allViews_ := []; hazards := ∅ |}.

(** ** Building and publishing a view *)

Definition view_entry (e : Entry) : ViewEntry :=
  {| v_callback := callback e; v_listenerScope := listenerScope e;
     v_priority := priority e; v_token := token e |}.

Definition add_to_view (pv : PhaseView) (e : Entry) : PhaseView :=
  if typeId e =? kInvalidTypeId then
    {| global := global pv ++ [view_entry e]; typed := typed pv |}
  else
    {| global := global pv;
       typed := <[typeId e := default [] (typed pv !! typeId e) ++ [view_entry e]]>
                  (typed pv) |}.

Definition phase_view (es : list Entry) : PhaseView :=
  foldl add_to_view {| global := []; typed := ∅ |} es.

Definition build_view (phases : list (list Entry)) : View := phase_view <$> phases.

Definition hazardReferences_ (S : t) (v : N) : bool := bool_decide (v ∈ hazards S).

Definition reclaimRetiredViews_ (S : t) : t :=
  {| phases_ := phases_ S; phaseSizes_ := phaseSizes_ S; nextToken_ := nextToken_ S;
     views := filter (λ kv, ¬ (kv.1 ∈ allViews_ S ∧ hazardReferences_ S kv.1 = false)) (views S);
     nextView := nextView S; currentView_ := currentView_ S;
     allViews_ := filter (λ v, hazardReferences_ S v = true) (allViews_ S);
     hazards := hazards S |}.

Definition rebuildView_ (S : t) : t :=
  reclaimRetiredViews_
    {| phases_ := phases_ S; phaseSizes_ := phaseSizes_ S; nextToken_ := nextToken_ S;
       views := <[nextView S := build_view (phases_ S)]> (views S);
       nextView := nextView S + 1;
       currentView_ := Some (nextView S);
       allViews_ := allViews_ S ++ option_list (currentView_ S);
       hazards := hazards S |}.

(** ** Registration and removal *)

Definition reserveToken (S : t) : N * t :=
  (nextToken_ S,
   {| phases_ := phases_ S; phaseSizes_ := phaseSizes_ S; nextToken_ := nextToken_ S + 1;
      views := views S; nextView := nextView S; currentView_ := currentView_ S;
      allViews_ := allViews_ S; hazards := hazards S |}).

(** [push_back], [upper_bound] on the sorted prefix and [rotate]. *)
Definition insert_entry (e : Entry) (vec : list Entry) : list Entry :=
  let pos := upper_bound_index (λ x, Z.gtb (priority e) (priority x)) vec in
  take pos vec ++ e :: drop pos vec.

(** [None] is the failed assertion on the phase index. *)
Definition insert_in_phase (e : Entry) (S : t) : option t :=
  vec ← vat (phases_ S) (phaseIndex e); n ← vat (phaseSizes_ S) (phaseIndex e);
  Some {| phases_ := vset (phaseIndex e) (insert_entry e vec) (phases_ S);
          phaseSizes_ := vset (phaseIndex e) (n + 1) (phaseSizes_ S);
          nextToken_ := nextToken_ S; views := views S; nextView := nextView S;
          currentView_ := currentView_ S; allViews_ := allViews_ S; hazards := hazards S |}.

(** The result is the handle's token. *)
Definition addListener (phase : N) (ty : TypeId) (scope : NameId) (cb : Callback)
    (prio : Z) (S : t) : option (N * t) :=
  let '(tok, S1) := reserveToken S in
  S2 ← insert_in_phase {| typeId := ty; listenerScope := scope; callback := cb;
                          priority := prio; token := tok; phaseIndex := phase |} S1;
  Some (tok, rebuildView_ S2).

Definition addListenerDeferred (phase : N) (ty : TypeId) (scope : NameId) (cb : Callback)
    (prio : Z) (tok : N) (S : t) : option (N * t) :=
  S1 ← insert_in_phase {| typeId := ty; listenerScope := scope; callback := cb;
                          priority := prio; token := tok; phaseIndex := phase |} S;
  Some (tok, S1).

Definition finalizeListeners (S : t) : t := rebuildView_ S.

(** The first entry with the token, in phase order. *)
Fixpoint remove_token (tok : N) (vec : list Entry) : option (Entry * list Entry) :=
  match vec with
  | [] => None
  | e :: vec' =>
      if token e =? tok then Some (e, vec')
      else match remove_token tok vec' with
           | Some (x, r) => Some (x, e :: r)
           | None => None
           end
  end.

Fixpoint remove_phases (tok : N) (phases : list (list Entry))
    : option (Entry * list (list Entry)) :=
  match phases with
  | [] => None
  | vec :: phases' =>
      match remove_token tok vec with
      | Some (e, vec') => Some (e, vec' :: phases')
      | None =>
          match remove_phases tok phases' with
          | Some (e, r) => Some (e, vec :: r)
          | None => None
          end
      end
  end.

Definition removeByToken (tok : N) (S : t) : t :=
  match remove_phases tok (phases_ S) with
  | None => S
  | Some (e, phases) =>
      rebuildView_
        {| phases_ := phases;
           phaseSizes_ := vset (phaseIndex e)
             (default 0 (vat (phaseSizes_ S) (phaseIndex e)) - 1) (phaseSizes_ S);
           nextToken_ := nextToken_ S; views := views S; nextView := nextView S;
           currentView_ := currentView_ S; allViews_ := allViews_ S; hazards := hazards S |}
  end.

Definition clear (S : t) : t :=
  reclaimRetiredViews_
    {| phases_ := (λ _, []) <$> phases_ S; phaseSizes_ := (λ _, 0) <$> phaseSizes_ S;
       nextToken_ := nextToken_ S; views := views S; nextView := nextView S;
       currentView_ := None; allViews_ := allViews_ S ++ option_list (currentView_ S);
       hazards := hazards S |}.

(** [ListenerHandle]: a store pointer (null after the first [remove]) and a
    token. *)
Record ListenerHandle : Type := { store_ : bool; tokenValue_ : N }.

Definition makeHandle (tok : N) : ListenerHandle := {| store_ := true; tokenValue_ := tok |}.

Definition handle_remove (h : ListenerHandle) (S : t) : ListenerHandle * t :=
  if store_ h then ({| store_ := false; tokenValue_ := tokenValue_ h |},
                    removeByToken (tokenValue_ h) S)
  else (h, S).

(** ** Dispatch *)

Definition scope_ok (emitterScope : NameId) (v : ViewEntry) : bool :=
  (v_listenerScope v =? kAllScopes) || (v_listenerScope v =? emitterScope).

Definition before (g t : ViewEntry) : bool :=
  Z.gtb (v_priority g) (v_priority t) ||
  (Z.eqb (v_priority g) (v_priority t) && (v_token g <? v_token t)).

(** The two-pointer merge with its two tails: the entries in visiting order. *)
Fixpoint visit (globals : list ViewEntry) : list ViewEntry → list ViewEntry :=
  fix visit_typed (typeds : list ViewEntry) : list ViewEntry :=
    match globals, typeds with
    | [], _ => typeds
    | _, [] => globals
    | g :: gs, t :: ts =>
        if before g t then g :: visit gs typeds else t :: visit_typed ts
    end.

(** The callbacks a dispatch invokes, in order. *)
Definition dispatchFromView_ (view : View) (phase : N) (beanTypeId : TypeId)
    (emitterScope : NameId) : option (list Callback) :=
  pv ← vat view phase;
  let typeds := default [] (typed pv !! beanTypeId) in
  Some (v_callback <$> filter (λ v, scope_ok emitterScope v = true)
                         (visit (global pv) typeds)).

Definition hasListeners (S : t) (phase : N) : option bool :=
  n ← vat (phaseSizes_ S) phase; Some (negb (n =? 0)).

(** A dispatch that meets no concurrent mutation; [None] is a failed assertion or
    a read through a freed view. *)
Definition dispatch (S : t) (phase : N) (beanTypeId : TypeId) (emitterScope : NameId)
    : option (list Callback) :=
  n ← vat (phaseSizes_ S) phase;
  if n =? 0 then Some []
  else match currentView_ S with
       | None => Some []
       | Some v => view ← views S !! v; dispatchFromView_ view phase beanTypeId emitterScope
       end.

(** ** What a view holds *)

Definition is_global (e : Entry) : Prop := typeId e = kInvalidTypeId.

Definition is_typed (ty : TypeId) (e : Entry) : Prop :=
  typeId e ≠ kInvalidTypeId ∧ typeId e = ty.

#[export] Instance is_global_dec e : Decision (is_global e).
Proof. unfold is_global; apply _. Defined.

#[export] Instance is_typed_dec ty e : Decision (is_typed ty e).
Proof. unfold is_typed; apply _. Defined.

Lemma phase_view_fold es pv ty :
  global (foldl add_to_view pv es) = global pv ++ (view_entry <$> filter is_global es) ∧
  default [] (typed (foldl add_to_view pv es) !! ty) =
    default [] (typed pv !! ty) ++ (view_entry <$> filter (is_typed ty) es).
Proof.
  revert pv. induction es as [|e es IH]; intros pv; simpl.
  { by rewrite !app_nil_r. }
  destruct (IH (add_to_view pv e)) as [-> ->]. unfold add_to_view.
  destruct (N.eqb_spec (typeId e) kInvalidTypeId) as [E|E].
  - rewrite filter_cons_True by done. rewrite (filter_cons_False (is_typed ty)).
    + simpl. by rewrite <-(assoc_L (++)).
    + by intros [? _].
  - rewrite (filter_cons_False is_global) by done. simpl. split; [done|].
    destruct (decide (typeId e = ty)) as [<-|Hne].
    + rewrite filter_cons_True by done. rewrite lookup_insert_eq. simpl.
      by rewrite <-(assoc_L (++)).
    + rewrite filter_cons_False by (by intros [_ ?]). by rewrite lookup_insert_ne.
Qed.

(** Dispatch order: priority first, then registration. *)
Definition entry_before (a b : Entry) : Prop :=
  (priority b < priority a)%Z ∨ (priority a = priority b ∧ token a < token b).

Lemma before_spec a b : before (view_entry a) (view_entry b) = true ↔ entry_before a b.
Proof.
  unfold before, entry_before; simpl.
  rewrite orb_true_iff, andb_true_iff, Z.gtb_ltb, Z.ltb_lt, Z.eqb_eq, N.ltb_lt. done.
Qed.

Lemma entry_before_asym a b : entry_before a b → ¬ entry_before b a.
Proof. unfold entry_before. lia. Qed.

(** The entries a bean of type [ty] can meet. *)
Definition relevant (ty : TypeId) (e : Entry) : Prop := is_global e ∨ is_typed ty e.

#[export] Instance relevant_dec ty e : Decision (relevant ty e).
Proof. unfold relevant; apply _. Defined.

Lemma visit_cons_l g gs ts : Forall (λ t, before g t = true) ts →
  visit (g :: gs) ts = g :: visit gs ts.
Proof.
  destruct ts as [|t ts]; intros H; [by destruct gs|].
  simpl. by apply Forall_cons in H as [-> _].
Qed.

Lemma visit_cons_r t ts gs : Forall (λ g, before g t = false) gs →
  visit gs (t :: ts) = t :: visit gs ts.
Proof.
  destruct gs as [|g gs]; intros H; [by destruct ts|].
  apply Forall_cons in H as [H _]. simpl. by rewrite H.
Qed.

(** On a list in dispatch order the merge of its two halves is the list. *)
Lemma visit_split ty es : StronglySorted entry_before es →
  visit (view_entry <$> filter is_global es) (view_entry <$> filter (is_typed ty) es) =
  view_entry <$> filter (relevant ty) es.
Proof.
  induction es as [|e es IH]; [done|]. intros [He Hs]%StronglySorted_cons.
  specialize (IH Hs). rewrite Forall_forall in He.
  destruct (decide (is_global e)) as [Hg|Hg].
  - rewrite filter_cons_True by done. rewrite (filter_cons_False (is_typed ty)) by (by intros [? _]).
    rewrite (filter_cons_True (relevant ty)) by by left.
    rewrite !fmap_cons, visit_cons_l; [by rewrite IH|].
    apply Forall_forall. intros v (x & -> & Hx)%list_elem_of_fmap.
    apply list_elem_of_filter in Hx as [_ Hx]. by apply before_spec, He.
  - rewrite (filter_cons_False is_global) by done.
    destruct (decide (is_typed ty e)) as [Ht|Ht].
    + rewrite filter_cons_True by done. rewrite (filter_cons_True (relevant ty)) by by right.
      rewrite !fmap_cons, visit_cons_r; [by rewrite IH|].
      apply Forall_forall. intros v (x & -> & Hx)%list_elem_of_fmap.
      apply list_elem_of_filter in Hx as [_ Hx]. apply not_true_iff_false.
      rewrite before_spec. by apply entry_before_asym, He.
    + rewrite filter_cons_False by done. rewrite (filter_cons_False (relevant ty)); [done|].
      by intros [?|?].
Qed.

(** ** Insertion and removal in a master list *)

Lemma insert_entry_perm e vec : insert_entry e vec ≡ₚ e :: vec.
Proof. unfold insert_entry. rewrite <-Permutation_middle. by rewrite take_drop. Qed.

Definition priority_sorted (es : list Entry) : Prop :=
  StronglySorted (λ a b, (priority b ≤ priority a)%Z) es.

Lemma insert_split e vec : priority_sorted vec →
  let pos := upper_bound_index (λ x, Z.gtb (priority e) (priority x)) vec in
  (∀ x, x ∈ take pos vec → (priority e ≤ priority x)%Z) ∧
  (∀ y, y ∈ drop pos vec → (priority y < priority e)%Z).
Proof.
  intros Hs pos.
  destruct (upper_bound_split (λ x, Z.gtb (priority e) (priority x)) vec) as (Hv & Ht & Hd).
  fold pos in Hv, Ht, Hd. split.
  - intros x Hx. rewrite Forall_forall in Ht. specialize (Ht x Hx). simpl in Ht.
    rewrite Z.gtb_ltb, Z.ltb_ge in Ht. lia.
  - intros y Hy. destruct (drop pos vec) as [|z l] eqn:E; [by apply not_elem_of_nil in Hy|].
    rewrite Z.gtb_ltb, Z.ltb_lt in Hd. apply elem_of_cons in Hy as [->|Hy]; [done|].
    unfold priority_sorted in Hs. rewrite Hv in Hs.
    apply StronglySorted_app_iff in Hs as (_ & Hs & _).
    apply StronglySorted_cons in Hs as [Hz _]. rewrite Forall_forall in Hz.
    specialize (Hz y Hy). simpl in Hz. lia.
Qed.

Lemma ordered_priority es : StronglySorted entry_before es → priority_sorted es.
Proof. apply StronglySorted_weaken. unfold entry_before. lia. Qed.

Lemma insert_sorted (R : Entry → Entry → Prop) e vec : priority_sorted vec →
  StronglySorted R vec →
  (∀ x, x ∈ vec → (priority e ≤ priority x)%Z → R x e) →
  (∀ y, y ∈ vec → (priority y < priority e)%Z → R e y) →
  StronglySorted R (insert_entry e vec).
Proof.
  intros Hp HR Hxe Hey. destruct (insert_split e vec Hp) as [Ht Hd].
  unfold insert_entry. set (pos := upper_bound_index _ vec) in *.
  rewrite <-(take_drop pos vec) in HR. apply StronglySorted_app_iff in HR as (H1 & H2 & H3).
  apply StronglySorted_app_iff. split_and!; [done| |].
  - constructor; [done|]. apply Forall_forall. intros y Hy.
    apply Hey; [|by apply Hd]. rewrite <-(take_drop pos vec). apply elem_of_app. by right.
  - intros x y Hx [->|Hy]%elem_of_cons; [|by apply H3].
    apply Hxe; [|by apply Ht]. rewrite <-(take_drop pos vec). apply elem_of_app. by left.
Qed.

Lemma remove_token_None tok vec : remove_token tok vec = None ↔ tok ∉ token <$> vec.
Proof.
  induction vec as [|e vec IH]; simpl; [split; [by intros _ ?%not_elem_of_nil|done]|].
  rewrite not_elem_of_cons. destruct (N.eqb_spec (token e) tok) as [E|E].
  - split; [done|]. intros [Hn _]. congruence.
  - destruct (remove_token tok vec) as [[x r]|]; rewrite <-IH; split; try done; naive_solver.
Qed.

Lemma remove_token_Some tok vec e r : NoDup (token <$> vec) →
  remove_token tok vec = Some (e, r) →
  token e = tok ∧ e ∈ vec ∧ r = filter (λ x, token x ≠ tok) vec ∧
  nlen vec = nlen r + 1.
Proof.
  revert r. induction vec as [|x vec IH]; intros r; simpl; [done|].
  intros [Hx Hnd]%NoDup_cons. destruct (N.eqb_spec (token x) tok) as [E|E].
  - intros; simplify_eq. rewrite filter_cons_False by naive_solver.
    split_and!; [done|by left| |unfold nlen; simpl; lia].
    symmetry. apply filter_all. intros y Hy Hty. apply Hx. rewrite <-Hty.
    by apply list_elem_of_fmap_2.
  - destruct (remove_token tok vec) as [[y r']|] eqn:Er; [|done]. intros; simplify_eq.
    destruct (IH r' Hnd eq_refl) as (H1 & H2 & -> & H4).
    rewrite filter_cons_True by done.
    split_and!; [done|by right|done|]. unfold nlen in *; simpl. lia.
Qed.

(** ** The store against its specification *)

(** The registered listeners in registration order, and the next token. *)
Record spec : Type := { registered : list Entry; next : N }.

Inductive op : Type :=
| OpAdd (phase : N) (ty : TypeId) (scope : NameId) (cb : Callback) (prio : Z)
| OpRemove (tok : N)
| OpClear.

Definition op_ok (o : op) : Prop :=
  match o with OpAdd phase _ _ _ _ => phase < kPhaseCount | _ => True end.

Definition run_op (o : op) (S : t) : option t :=
  match o with
  | OpAdd phase ty scope cb prio => snd <$> addListener phase ty scope cb prio S
  | OpRemove tok => Some (removeByToken tok S)
  | OpClear => Some (clear S)
  end.

Definition run (ops : list op) (S : t) : option t :=
  foldl (λ acc o, S ← acc; run_op o S) (Some S) ops.

Definition spec_op (A : spec) (o : op) : spec :=
  match o with
  | OpAdd phase ty scope cb prio =>
      {| registered := registered A ++
           [{| typeId := ty; listenerScope := scope; callback := cb; priority := prio;
               token := next A; phaseIndex := phase |}];
         next := next A + 1 |}
  | OpRemove tok => {| registered := filter (λ e, token e ≠ tok) (registered A);
                       next := next A |}
  | OpClear => {| registered := []; next := next A |}
  end.

Definition spec_run (ops : list op) : spec := foldl spec_op {| registered := []; next := 0 |} ops.

Definition phase_entries (p : N) (A : spec) : list Entry :=
  filter (λ e, phaseIndex e = p) (registered A).

Record rel (S : t) (A : spec) : Prop := {
  r_next : nextToken_ S = next A;
  r_tokens : ∀ e, e ∈ registered A → token e < next A ∧ phaseIndex e < kPhaseCount;
  r_nodup : NoDup (token <$> registered A);
  r_phases : nlen (phases_ S) = kPhaseCount;
  r_phase : ∀ p es, vat (phases_ S) p = Some es →
    es ≡ₚ phase_entries p A ∧ StronglySorted entry_before es ∧
    vat (phaseSizes_ S) p = Some (nlen es);
  r_views : ∀ v, is_Some (views S !! v) → v < nextView S;
  r_retired : ∀ v, v ∈ allViews_ S ++ option_list (currentView_ S) → v < nextView S;
  r_current : match currentView_ S with
              | Some v => v ∉ allViews_ S ∧ views S !! v = Some (build_view (phases_ S))
              | None => ∀ p es, vat (phases_ S) p = Some es → es = []
              end
}.

(** Publishing keeps the relation when the master lists satisfy it. *)
Lemma reclaim_current S v x : views S !! v = Some x → v ∉ allViews_ S →
  views (reclaimRetiredViews_ S) !! v = Some x.
Proof.
  intros Hv Hn. simpl. apply map_lookup_filter_Some_2; [done|]. simpl. naive_solver.
Qed.

Lemma rebuild_rel S A : nextToken_ S = next A →
  (∀ e, e ∈ registered A → token e < next A ∧ phaseIndex e < kPhaseCount) →
  NoDup (token <$> registered A) → nlen (phases_ S) = kPhaseCount →
  (∀ p es, vat (phases_ S) p = Some es →
    es ≡ₚ phase_entries p A ∧ StronglySorted entry_before es ∧
    vat (phaseSizes_ S) p = Some (nlen es)) →
  (∀ v, is_Some (views S !! v) → v < nextView S) →
  (∀ v, v ∈ allViews_ S ++ option_list (currentView_ S) → v < nextView S) →
  rel (rebuildView_ S) A.
Proof.
  intros H1 H2 H3 H4 H5 H6 H7. split; try done.
  - intros v. simpl. intros [x [Hx _]%map_lookup_filter_Some].
    destruct (decide (v = nextView S)) as [->|]; [lia|].
    rewrite lookup_insert_ne in Hx by congruence.
    assert (v < nextView S) by (apply H6; by eexists). lia.
  - intros v. simpl. rewrite elem_of_app, list_elem_of_filter.
    intros [[_ Hv]| ->%list_elem_of_singleton]; [|lia].
    assert (v < nextView S) by by apply H7. lia.
  - cbn [currentView_ rebuildView_ reclaimRetiredViews_]. split.
    + simpl. rewrite list_elem_of_filter. intros [_ Hv%H7]. lia.
    + apply reclaim_current; [simpl; by rewrite lookup_insert_eq|].
      simpl. intros Hv%H7. lia.
Qed.

Lemma rel_empty : rel empty {| registered := []; next := 0 |}.
Proof.
  split; cbn [phases_ phaseSizes_ empty currentView_ allViews_ views registered].
  - done.
  - by intros e ?%not_elem_of_nil.
  - constructor.
  - done.
  - intros p es. rewrite vat_replicate. case_decide; [|done]. intros; simplify_eq.
    split_and!; [done|constructor|].
    rewrite vat_replicate. by rewrite decide_True.
  - intros v [x Hx]. by rewrite lookup_empty in Hx.
  - by intros v ?%not_elem_of_nil.
  - intros p es. rewrite vat_replicate. case_decide; [|done]. intros; by simplify_eq.
Qed.

Lemma add_rel S A phase ty scope cb prio : rel S A → phase < kPhaseCount →
  ∃ S', addListener phase ty scope cb prio S = Some (next A, S') ∧
        rel S' (spec_op A (OpAdd phase ty scope cb prio)).
Proof.
  intros HR Hph. pose proof (r_next _ _ HR) as Hnx. unfold addListener. simpl.
  set (e := {| typeId := ty; listenerScope := scope; callback := cb; priority := prio;
               token := nextToken_ S; phaseIndex := phase |}).
  destruct (proj2 (vat_is_Some (phases_ S) phase)) as [es Hes].
  { by rewrite (r_phases _ _ HR). }
  destruct (r_phase _ _ HR _ _ Hes) as (Hp & Hso & Hsz).
  unfold insert_in_phase. simpl. rewrite Hes, Hsz. simpl.
  eexists. rewrite <-Hnx. split; [reflexivity|].
  assert (∀ x, x ∈ es → token x < token e) as Htok.
  { intros x Hx. rewrite Hp in Hx. apply list_elem_of_filter in Hx as [_ Hx].
    simpl. rewrite Hnx. by apply (r_tokens _ _ HR). }
  replace (spec_op A (OpAdd phase ty scope cb prio)) with
    {| registered := registered A ++ [e]; next := next A + 1 |}
    by (unfold e; by rewrite Hnx).
  apply rebuild_rel; simpl.
  - by rewrite Hnx.
  - intros x [Hx| ->%list_elem_of_singleton]%elem_of_app; [|simpl; split; [lia|done]].
    destruct (r_tokens _ _ HR x Hx). split; [lia|done].
  - rewrite fmap_app. apply NoDup_app. split_and!; [apply HR| |apply NoDup_singleton].
    intros k (x & -> & Hx)%list_elem_of_fmap Hk%list_elem_of_singleton.
    apply (r_tokens _ _ HR) in Hx as [Hx _]. simpl in Hk. lia.
  - rewrite nlen_vset. apply (r_phases _ _ HR).
  - intros p es'. unfold phase_entries; simpl. rewrite filter_app.
    destruct (decide (p = phase)) as [->|Hne].
    + rewrite !vat_vset_eq by by eapply vat_lt. intros; simplify_eq. split_and!.
      * rewrite insert_entry_perm, filter_cons_True, filter_nil by done.
        by rewrite Hp, Permutation_cons_append.
      * apply insert_sorted; [by apply ordered_priority|done| |].
        -- intros x Hx Hpr. specialize (Htok x Hx). unfold entry_before. simpl in *. lia.
        -- intros y Hy Hpr. by left.
      * f_equal. unfold nlen. rewrite insert_entry_perm. simpl. lia.
    + rewrite !vat_vset_ne by congruence. intros Hes'.
      rewrite filter_cons_False, filter_nil, app_nil_r by (simpl; congruence).
      by apply (r_phase _ _ HR).
  - apply (r_views _ _ HR).
  - apply (r_retired _ _ HR).
Qed.

Lemma remove_phases_None tok phases :
  remove_phases tok phases = None → ∀ es, es ∈ phases → tok ∉ token <$> es.
Proof.
  induction phases as [|vec phases IH]; simpl; [by intros _ es ?%not_elem_of_nil|].
  destruct (remove_token tok vec) as [[e r]|] eqn:E; [done|].
  destruct (remove_phases tok phases) as [[e r]|]; [done|].
  intros _ es [->|Hes]%elem_of_cons; [by apply remove_token_None|by apply IH].
Qed.

Lemma remove_phases_Some tok phases e phases' :
  remove_phases tok phases = Some (e, phases') →
  ∃ i vec vec', vat phases i = Some vec ∧ remove_token tok vec = Some (e, vec') ∧
                phases' = vset i vec' phases.
Proof.
  revert phases'. induction phases as [|vec phases IH]; simpl; intros phases'; [done|].
  destruct (remove_token tok vec) as [[x r]|] eqn:E.
  - intros; simplify_eq. exists 0, vec, r. by rewrite vset_insert, vat_lookup.
  - destruct (remove_phases tok phases) as [[x r]|] eqn:Er; [|done]. intros; simplify_eq.
    destruct (IH r eq_refl) as (i & v & v' & Hi & Hv & ->).
    exists (i + 1), v, v'. rewrite vset_insert, vat_lookup in *. rewrite vset_insert.
    replace (N.to_nat (i + 1)) with (Datatypes.S (N.to_nat i)) by lia. done.
Qed.

Lemma filter_token_phase tok p A es : es ≡ₚ phase_entries p A →
  filter (λ x, token x ≠ tok) es ≡ₚ
  phase_entries p {| registered := filter (λ x, token x ≠ tok) (registered A); next := next A |}.
Proof.
  intros ->. unfold phase_entries; simpl. rewrite !list_filter_filter.
  by rewrite (list_filter_iff _ (λ x, phaseIndex x = p ∧ token x ≠ tok)) by naive_solver.
Qed.

Lemma phase_nodup S A p es : rel S A → vat (phases_ S) p = Some es → NoDup (token <$> es).
Proof.
  intros HR Hes. destruct (r_phase _ _ HR _ _ Hes) as (Hp & _). rewrite Hp.
  assert (sublist (phase_entries p A) (registered A)) as Hsub by apply sublist_filter.
  eapply sublist_NoDup; [apply (r_nodup _ _ HR)|]. by apply fmap_sublist.
Qed.

Lemma remove_rel S A tok : rel S A → rel (removeByToken tok S) (spec_op A (OpRemove tok)).
Proof.
  intros HR. unfold removeByToken, spec_op.
  assert (∀ e, e ∈ registered A → ∃ es, vat (phases_ S) (phaseIndex e) = Some es ∧ e ∈ es)
    as Hin.
  { intros e He. destruct (proj2 (vat_is_Some (phases_ S) (phaseIndex e))) as [es Hes].
    { rewrite (r_phases _ _ HR). by apply (r_tokens _ _ HR). }
    exists es. split; [done|]. destruct (r_phase _ _ HR _ _ Hes) as (Hp & _). rewrite Hp.
    unfold phase_entries. by apply list_elem_of_filter. }
  destruct (remove_phases tok (phases_ S)) as [[e phases']|] eqn:E.
  - destruct (remove_phases_Some _ _ _ _ E) as (i & vec & vec' & Hi & Hv & ->).
    destruct (remove_token_Some tok vec e vec') as (He & Hev & -> & Hlen);
      [by eapply phase_nodup|done|].
    destruct (r_phase _ _ HR _ _ Hi) as (Hperm & Hso & Hsz).
    assert (phaseIndex e = i ∧ e ∈ registered A) as [<- HeA].
    { rewrite Hperm in Hev. by apply list_elem_of_filter in Hev. }
    apply rebuild_rel; simpl.
    + apply HR.
    + intros x [_ Hx]%list_elem_of_filter. by apply (r_tokens _ _ HR).
    + eapply sublist_NoDup; [apply (r_nodup _ _ HR)|].
      apply fmap_sublist, sublist_filter.
    + rewrite nlen_vset. apply (r_phases _ _ HR).
    + intros p es. destruct (decide (p = phaseIndex e)) as [->|Hne].
      * rewrite !vat_vset_eq by by eapply vat_lt. intros; simplify_eq. split_and!.
        -- by apply filter_token_phase.
        -- by apply StronglySorted_filter.
        -- rewrite Hsz. f_equal. simpl. lia.
      * rewrite !vat_vset_ne by congruence. intros Hes.
        destruct (r_phase _ _ HR _ _ Hes) as (Hp' & ? & ?). split_and!; [|done..].
        rewrite <-filter_token_phase by done. rewrite filter_all; [done|].
        intros x Hx Htx. rewrite Hp' in Hx. apply list_elem_of_filter in Hx as [Hpx Hx].
        assert (x = e) as ->; [|congruence].
        pose proof (r_nodup _ _ HR) as Hnd.
        apply list_elem_of_lookup in Hx as [a Ha]. apply list_elem_of_lookup in HeA as [b Hb].
        assert (a = b); [|congruence].
        eapply NoDup_lookup; [exact Hnd| |]; rewrite list_lookup_fmap; [by rewrite Ha|].
        rewrite Hb. simpl. congruence.
    + apply (r_views _ _ HR).
    + apply (r_retired _ _ HR).
  - rewrite filter_all; [by destruct A|]. intros x Hx Htx.
    destruct (Hin x Hx) as (es & Hes & Hxe). rewrite <-Htx in E.
    eapply remove_phases_None; [exact E| |by apply list_elem_of_fmap_2].
    rewrite vat_lookup in Hes. by eapply list_elem_of_lookup_2.
Qed.

Lemma clear_rel S A : rel S A → rel (clear S) (spec_op A OpClear).
Proof.
  intros HR. split; simpl.
  - apply HR.
  - by intros e ?%not_elem_of_nil.
  - constructor.
  - unfold nlen. rewrite length_fmap. apply (r_phases _ _ HR).
  - intros p es. rewrite !vat_lookup, !list_lookup_fmap.
    destruct (phases_ S !! N.to_nat p) as [vec|] eqn:E; [|done]. intros; simplify_eq/=.
    split_and!; [done|constructor|]. rewrite <-vat_lookup in E.
    destruct (r_phase _ _ HR _ _ E) as (_ & _ & Hsz). rewrite vat_lookup in Hsz. by rewrite Hsz.
  - intros v [x [Hx _]%map_lookup_filter_Some]. apply (r_views _ _ HR). by eexists.
  - intros v. rewrite app_nil_r, list_elem_of_filter. intros [_ Hv]. by apply (r_retired _ _ HR).
  - intros p es. rewrite vat_lookup, list_lookup_fmap.
    destruct (phases_ S !! _); [|done]. intros; by simplify_eq/=.
Qed.

Lemma run_op_rel o S A : op_ok o → rel S A → ∃ S', run_op o S = Some S' ∧ rel S' (spec_op A o).
Proof.
  intros Hok HR. destruct o as [phase ty scope cb prio|tok|]; simpl.
  - destruct (add_rel S A phase ty scope cb prio HR Hok) as (S' & -> & HS'). by exists S'.
  - eexists. split; [done|]. by apply remove_rel.
  - eexists. split; [done|]. by apply clear_rel.
Qed.

Lemma run_rel ops : Forall op_ok ops → ∃ S, run ops empty = Some S ∧ rel S (spec_run ops).
Proof.
  induction ops as [|o ops IH] using rev_ind; intros Hok.
  { exists empty. split; [done|apply rel_empty]. }
  apply Forall_app in Hok as [Hops [Ho _]%Forall_cons].
  destruct (IH Hops) as (S & HS & HR). destruct (run_op_rel o S _ Ho HR) as (S' & HS' & HR').
  exists S'. unfold run, spec_run in *. rewrite !foldl_snoc, HS. done.
Qed.

(** Whether a dispatch for a bean of type [ty] in scope [scope] reaches a listener. *)
Definition matches (ty : TypeId) (scope : NameId) (e : Entry) : Prop :=
  relevant ty e ∧ (listenerScope e = kAllScopes ∨ listenerScope e = scope).

#[export] Instance matches_dec ty scope e : Decision (matches ty scope e).
Proof. unfold matches; apply _. Defined.

Lemma scope_ok_spec scope e :
  scope_ok scope (view_entry e) = true ↔ listenerScope e = kAllScopes ∨ listenerScope e = scope.
Proof. unfold scope_ok; simpl. by rewrite orb_true_iff, !N.eqb_eq. Qed.

Lemma visit_filter ty scope (es : list Entry) :
  v_callback <$> filter (λ v, scope_ok scope v = true) (view_entry <$> filter (relevant ty) es) =
  callback <$> filter (matches ty scope) es.
Proof.
  induction es as [|e es IH]; [done|]. destruct (decide (relevant ty e)) as [Hr|Hr].
  - rewrite (filter_cons_True (relevant ty)) by done. rewrite fmap_cons.
    destruct (decide (scope_ok scope (view_entry e) = true)) as [Hs|Hs].
    + rewrite (filter_cons_True (λ v, scope_ok scope v = true)) by done.
      rewrite (filter_cons_True (matches ty scope)) by (split; [done|by apply scope_ok_spec]).
      rewrite !fmap_cons. by f_equal.
    + rewrite (filter_cons_False (λ v, scope_ok scope v = true)) by done.
      rewrite (filter_cons_False (matches ty scope)); [done|].
      intros [_ ?]. by apply Hs, scope_ok_spec.
  - rewrite (filter_cons_False (relevant ty)) by done.
    rewrite (filter_cons_False (matches ty scope)); [done|]. by intros [? _].
Qed.

Lemma dispatchFromView_ordered phases p es ty scope : vat phases p = Some es →
  StronglySorted entry_before es →
  dispatchFromView_ (build_view phases) p ty scope =
    Some (callback <$> filter (matches ty scope) es).
Proof.
  intros Hes Hso. unfold dispatchFromView_, build_view. rewrite vat_lookup, list_lookup_fmap.
  rewrite vat_lookup in Hes. rewrite Hes. simpl. f_equal. unfold phase_view.
  destruct (phase_view_fold es {| global := []; typed := ∅ |} ty) as [-> ->].
  simpl. rewrite lookup_empty. simpl. by rewrite visit_split, visit_filter.
Qed.

Lemma rel_dispatch S A p es ty scope : rel S A → vat (phases_ S) p = Some es →
  dispatch S p ty scope = Some (callback <$> filter (matches ty scope) es).
Proof.
  intros HR Hes. destruct (r_phase _ _ HR _ _ Hes) as (_ & Hso & Hsz).
  unfold dispatch. rewrite Hsz; simpl. destruct (N.eqb_spec (nlen es) 0) as [E|E].
  { destruct es; [done|unfold nlen in E; simpl in E; lia]. }
  pose proof (r_current _ _ HR) as Hcur. destruct (currentView_ S) as [v|].
  - destruct Hcur as [_ ->]. by apply dispatchFromView_ordered.
  - by rewrite (Hcur p es Hes) in E.
Qed.

(** C34 Dispatch is priority order, then registration order: after any sequence
    of [addListener], [removeByToken] and [clear] calls on valid phases, each phase
    holds exactly the listeners registered and not removed, and a dispatch through
    the published view, for any bean type and emitter scope, calls exactly those
    whose type filter and scope filter match, each once, higher priority first and
    earlier registration first among equals. *)
Theorem dispatch_refines_spec (ops : list op) :
  Forall op_ok ops →
  ∃ S, run ops empty = Some S ∧
    ∀ p, p < kPhaseCount → ∃ es,
      es ≡ₚ phase_entries p (spec_run ops) ∧
      StronglySorted (λ a b, (priority b < priority a)%Z ∨
                             (priority a = priority b ∧ token a < token b)) es ∧
      ∀ ty scope, dispatch S p ty scope = Some (callback <$> filter (matches ty scope) es).
Proof.
  intros Hok. destruct (run_rel ops Hok) as (S & HS & HR). exists S. split; [done|].
  intros p Hp. destruct (proj2 (vat_is_Some (phases_ S) p)) as [es Hes].
  { by rewrite (r_phases _ _ HR). }
  destruct (r_phase _ _ HR _ _ Hes) as (Hperm & Hso & _).
  exists es. split_and!; [done|done|]. intros ty scope. by eapply rel_dispatch.
Qed.

Definition sample_ops : list op :=
  [OpAdd 1 kInvalidTypeId kAllScopes 100 0; OpAdd 1 7 kAllScopes 101 5;
   OpAdd 1 kInvalidTypeId 3 102 5; OpAdd 1 8 kAllScopes 103 9; OpAdd 1 7 kAllScopes 104 0;
   OpRemove 0].

Lemma dispatch_refines_spec_witness :
  (S ← run sample_ops empty; dispatch S 1 7 3) = Some [101; 102; 104] ∧
  ∃ S, run sample_ops empty = Some S ∧
    ∀ p, p < kPhaseCount → ∃ es,
      es ≡ₚ phase_entries p (spec_run sample_ops) ∧
      StronglySorted (λ a b, (priority b < priority a)%Z ∨
                             (priority a = priority b ∧ token a < token b)) es ∧
      ∀ ty scope, dispatch S p ty scope = Some (callback <$> filter (matches ty scope) es).
Proof.
  split; [vm_compute; reflexivity|].
  apply (dispatch_refines_spec sample_ops). repeat constructor.
Defined.

(** The store after operations that all run. *)
Definition final (ops : list op) : t := default empty (run ops empty).

Lemma final_run ops : Forall op_ok ops → run ops empty = Some (final ops).
Proof. intros (S & HS & _)%run_rel. unfold final. by rewrite HS. Qed.

(** ** Handles *)

Lemma removed_absent S A tok : rel S A → tok ∉ token <$> registered A →
  removeByToken tok S = S.
Proof.
  intros HR Hn. unfold removeByToken.
  destruct (remove_phases tok (phases_ S)) as [[e phases']|] eqn:E; [|done]. exfalso.
  destruct (remove_phases_Some _ _ _ _ E) as (i & vec & vec' & Hi & Hv & _).
  destruct (remove_token_Some tok vec e vec') as (He & Hev & _);
    [by eapply phase_nodup|done|].
  destruct (r_phase _ _ HR _ _ Hi) as (Hp & _). rewrite Hp in Hev.
  apply list_elem_of_filter in Hev as [_ Hev]. apply Hn. rewrite <-He.
  by apply list_elem_of_fmap_2.
Qed.

Definition entries (S : t) : list Entry := mjoin (phases_ S).

(** Removal through a handle is idempotent and exact: after any history, the
    first [remove] takes out exactly the listener of the handle's token, a second
    [remove] on the same handle or on any copy of it changes nothing, and no
    later listener can reuse the token. *)
Theorem handle_remove_idempotent (ops : list op) (tok : N) (S : t) :
  Forall op_ok ops → run ops empty = Some S →
  let '(h1, S1) := handle_remove (makeHandle tok) S in
  handle_remove h1 S1 = (h1, S1) ∧
  (handle_remove (makeHandle tok) S1).2 = S1 ∧
  (∀ e, e ∈ entries S1 ↔ e ∈ entries S ∧ token e ≠ tok) ∧
  (∀ e, e ∈ entries S → token e < nextToken_ S1).
Proof.
  intros Hok Hrun. destruct (run_rel ops Hok) as (S' & HS' & HR).
  rewrite Hrun in HS'. simplify_eq. set (A := spec_run ops) in *. simpl.
  pose proof (remove_rel S' A tok HR) as HR1.
  assert (∀ S A, rel S A → ∀ e, e ∈ entries S ↔ e ∈ registered A) as Hall.
  { clear. intros S A HR e. unfold entries. rewrite list_elem_of_join. split.
    - intros (es & Hes & Hin). apply list_elem_of_lookup in Hin as [i Hi].
      rewrite <-(Nat2N.id i), <-vat_lookup in Hi.
      destruct (r_phase _ _ HR _ _ Hi) as (Hp & _). rewrite Hp in Hes.
      by apply list_elem_of_filter in Hes as [_ ?].
    - intros He. destruct (proj2 (vat_is_Some (phases_ S) (phaseIndex e))) as [es Hes].
      { rewrite (r_phases _ _ HR). by apply (r_tokens _ _ HR). }
      exists es. split.
      + destruct (r_phase _ _ HR _ _ Hes) as (Hp & _). rewrite Hp.
        by apply list_elem_of_filter.
      + rewrite vat_lookup in Hes. by eapply list_elem_of_lookup_2. }
  split_and!; [done| | |].
  - apply (removed_absent _ _ _ HR1). simpl.
    intros (e & -> & He)%list_elem_of_fmap. by apply list_elem_of_filter in He as [? _].
  - intros e. rewrite (Hall _ _ HR1), (Hall _ _ HR). simpl.
    rewrite list_elem_of_filter. tauto.
  - intros e. rewrite (Hall _ _ HR). intros He. rewrite (r_next _ _ HR1). simpl.
    by apply (r_tokens _ _ HR).
Qed.

(** ** Listeners registered before [start()]

    A typed listener registered before [start()] only reserves its token; the
    entry is inserted by [flushDeferredListeners_] during [start()]. *)

Lemma reserve_rel S A : rel S A →
  rel (reserveToken S).2 {| registered := registered A; next := next A + 1 |}.
Proof.
  intros HR. split; simpl; try apply HR.
  - by rewrite (r_next _ _ HR).
  - intros e He. destruct (r_tokens _ _ HR e He). split; [lia|done].
Qed.

Lemma deferred_rel S A phase ty scope cb prio : rel S A → phase < kPhaseCount →
  let '(tok, S1) := reserveToken S in
  ∃ S2, addListenerDeferred phase ty scope cb prio tok S1 = Some (tok, S2) ∧
        rel (finalizeListeners S2) (spec_op A (OpAdd phase ty scope cb prio)).
Proof.
  intros HR Hph. destruct (add_rel S A phase ty scope cb prio HR Hph) as (S' & HS' & HR').
  unfold addListener in HS'. simpl in *. unfold addListenerDeferred, finalizeListeners.
  destruct (insert_in_phase _ _) as [S2|]; simpl in *; [|done]. simplify_eq. by exists S2.
Qed.

(** Removing a typed listener before [start()] has no effect: for any history,
    the handle given back before [start()] removes nothing, and the listener that
    [start()] then inserts under the reserved token is called by every matching
    dispatch. *)
Theorem deferred_remove_lost (ops : list op) (S : t) (phase : N) (cb : Callback) (prio : Z)
    (ty : TypeId) (scope : NameId) :
  Forall op_ok ops → run ops empty = Some S → phase < kPhaseCount →
  let '(tok, S1) := reserveToken S in
  (handle_remove (makeHandle tok) S1).2 = S1 ∧
  ∃ S2 calls, addListenerDeferred phase kInvalidTypeId kAllScopes cb prio tok S1 =
                Some (tok, S2) ∧
    dispatch (finalizeListeners S2) phase ty scope = Some calls ∧ cb ∈ calls.
Proof.
  intros Hok Hrun Hph. destruct (run_rel ops Hok) as (S' & HS' & HR).
  rewrite Hrun in HS'. simplify_eq. set (A := spec_run ops) in *.
  pose proof (deferred_rel S' A phase kInvalidTypeId kAllScopes cb prio HR Hph) as Hd.
  pose proof (reserve_rel S' A HR) as HR1.
  destruct (reserveToken S') as [tok S1] eqn:E. split.
  - apply (removed_absent _ _ _ HR1). simpl. intros (e & Hte & He)%list_elem_of_fmap.
    apply (r_tokens _ _ HR) in He as [He _].
    pose proof (r_next _ _ HR). unfold reserveToken in E. injection E as E1 _. lia.
  - destruct Hd as (S2 & HS2 & HR2). set (e := {| typeId := kInvalidTypeId; listenerScope := kAllScopes;
      callback := cb; priority := prio; token := next A; phaseIndex := phase |}).
    destruct (proj2 (vat_is_Some (phases_ (finalizeListeners S2)) phase)) as [es Hes].
    { by rewrite (r_phases _ _ HR2). }
    exists S2, (callback <$> filter (matches ty scope) es).
    split_and!; [done|by eapply rel_dispatch|].
    apply (list_elem_of_fmap_2 callback _ e).
    apply list_elem_of_filter. split; [split; by left|].
    destruct (r_phase _ _ HR2 _ _ Hes) as (Hp & _). rewrite Hp. unfold phase_entries. simpl.
    apply list_elem_of_filter. split; [done|].
    apply elem_of_app. right. by apply list_elem_of_singleton.
Qed.

Lemma finalize_dispatch S phase ty scope n : Forall (λ v, v < nextView S) (allViews_ S) →
  currentView_ S = None ∨ (∃ v, currentView_ S = Some v ∧ v < nextView S) →
  vat (phaseSizes_ S) phase = Some n → n ≠ 0 →
  dispatch (finalizeListeners S) phase ty scope =
  dispatchFromView_ (build_view (phases_ S)) phase ty scope.
Proof.
  intros Hv Hc Hn Hne. unfold dispatch, finalizeListeners. simpl. rewrite Hn. simpl.
  rewrite (proj2 (N.eqb_neq _ _) Hne).
  rewrite (map_lookup_filter_Some_2 _ _ _ (build_view (phases_ S))); [done| |].
  - by rewrite lookup_insert_eq.
  - simpl. intros [Hin _]. apply elem_of_app in Hin as [Hin|Hin].
    + rewrite Forall_forall in Hv. apply Hv in Hin. lia.
    + destruct Hc as [E|(v & E & ?)]; rewrite E in Hin; simpl in Hin.
      * by apply not_elem_of_nil in Hin.
      * apply list_elem_of_singleton in Hin. lia.
Qed.

(** Registration order is not kept across [start()]: a typed listener
    registered before [start()] and an any-type listener of the same priority
    registered after it are dispatched in the opposite order. *)
Theorem deferred_order_inverted (first second : Callback) (prio : Z) (ty : TypeId)
    (scope : NameId) :
  let '(tok, S1) := reserveToken empty in
  ∃ tok' S2 S3, addListener 1 kInvalidTypeId kAllScopes second prio S1 = Some (tok', S2) ∧
    tok < tok' ∧
    addListenerDeferred 1 kInvalidTypeId kAllScopes first prio tok S2 = Some (tok, S3) ∧
    dispatch (finalizeListeners S3) 1 ty scope = Some [second; first].
Proof.
  assert (Z.gtb prio prio = false) as Hp by (rewrite Z.gtb_ltb; apply Z.ltb_irrefl).
  assert (Z.eqb prio prio = true) as He by apply Z.eqb_refl.
  simpl. eexists _, _, _. split; [reflexivity|]. split; [done|].
  unfold addListenerDeferred, insert_in_phase, insert_entry. simpl. rewrite Hp.
  split; [reflexivity|]. rewrite (finalize_dispatch _ _ _ _ 2).
  - unfold dispatchFromView_. simpl. rewrite lookup_empty. done.
  - constructor.
  - right. exists 0. done.
  - done.
  - done.
Qed.

(** ** A store that can dispatch

    What a dispatch needs of the store; unlike [rel] it also holds between the
    [addListenerDeferred] calls of a flush and their [finalizeListeners]. *)

Record usable (S : t) : Prop := {
  us_phases : nlen (phases_ S) = kPhaseCount;
  us_sizes : nlen (phaseSizes_ S) = kPhaseCount;
  us_names v : v ∈ allViews_ S ++ option_list (currentView_ S) → v < nextView S;
  us_retired v : currentView_ S = Some v → v ∉ allViews_ S;
  us_current v : currentView_ S = Some v →
    ∃ view, views S !! v = Some view ∧ nlen view = kPhaseCount
}.

Lemma usable_empty : usable empty.
Proof. split; try done. by intros v ?%not_elem_of_nil. Qed.

Lemma usable_dispatch S p ty sc : usable S → p < kPhaseCount →
  is_Some (dispatch S p ty sc) ∧ is_Some (hasListeners S p).
Proof.
  intros [H1 H2 H3 H4 H5] Hp.
  destruct (proj2 (vat_is_Some (phaseSizes_ S) p)) as [n Hn]; [by rewrite H2|].
  unfold dispatch, hasListeners. rewrite Hn. simpl. split; [|by eexists].
  destruct (n =? 0); [by eexists|]. destruct (currentView_ S) as [v|]; [|by eexists].
  destruct (H5 v eq_refl) as (view & -> & Hl). simpl. unfold dispatchFromView_.
  destruct (proj2 (vat_is_Some view p)) as [pv ->]; [by rewrite Hl|]. by eexists.
Qed.

Lemma usable_insert e S : usable S → phaseIndex e < kPhaseCount →
  ∃ S', insert_in_phase e S = Some S' ∧ usable S'.
Proof.
  intros [H1 H2 H3 H4 H5] Hp. unfold insert_in_phase.
  destruct (proj2 (vat_is_Some (phases_ S) (phaseIndex e))) as [es ->]; [by rewrite H1|].
  destruct (proj2 (vat_is_Some (phaseSizes_ S) (phaseIndex e))) as [n ->]; [by rewrite H2|].
  eexists. split; [done|]. by split; simpl; rewrite ?nlen_vset.
Qed.

(** Every callback the store can call in a phase satisfies [P] of that phase. *)
Record heard (P : N → Callback → Prop) (S : t) : Prop := {
  hd_entries ph es : vat (phases_ S) ph = Some es → Forall (λ e, P ph (callback e)) es;
  hd_view v view ph ty sc cbs : currentView_ S = Some v → views S !! v = Some view →
    dispatchFromView_ view ph ty sc = Some cbs → Forall (P ph) cbs
}.

Lemma heard_empty P : heard P empty.
Proof.
  split; [|done]. intros ph es Hes. rewrite vat_lookup in Hes. apply list_elem_of_lookup_2 in Hes.
  apply elem_of_replicate in Hes as [-> _]. constructor.
Qed.

Lemma heard_dispatch P S ph ty sc cbs : heard P S → dispatch S ph ty sc = Some cbs → Forall (P ph) cbs.
Proof.
  intros HP. unfold dispatch. destruct (vat (phaseSizes_ S) ph) as [n|]; simpl; [|done].
  destruct (n =? 0); [intros [= <-]; constructor|].
  destruct (currentView_ S) as [v|] eqn:Hv; [|intros [= <-]; constructor].
  destruct (views S !! v) as [view|] eqn:Hview; simpl; [|done]. by apply (hd_view _ _ HP v view).
Qed.

Lemma visit_elem x gs : ∀ ts, x ∈ visit gs ts → x ∈ gs ∨ x ∈ ts.
Proof.
  induction gs as [|g gs IH]; [intros []; by right|].
  induction ts as [|t ts IHt]; [by left|]. cbn [visit]. destruct (before g t).
  - intros [->|Hx]%elem_of_cons; [left; by left|]. destruct (IH _ Hx); [left; by right|by right].
  - intros [->|Hx]%elem_of_cons; [right; by left|]. destruct (IHt Hx); [by left|right; by right].
Qed.

Lemma heard_view P phases ph ty sc cbs :
  (∀ es, vat phases ph = Some es → Forall (λ e, P ph (callback e)) es) →
  dispatchFromView_ (build_view phases) ph ty sc = Some cbs → Forall (P ph) cbs.
Proof.
  intros HP. unfold dispatchFromView_, build_view. rewrite vat_lookup, list_lookup_fmap, <-vat_lookup.
  destruct (vat phases ph) as [es|]; simpl; [|done]. specialize (HP es eq_refl). intros [= <-].
  apply Forall_forall. intros cb (v & -> & [_ Hv]%list_elem_of_filter)%list_elem_of_fmap.
  destruct (phase_view_fold es {| global := []; typed := ∅ |} ty) as [Hg Ht].
  assert (∃ e, v = view_entry e ∧ e ∈ es) as (e & -> & He).
  { unfold phase_view in Hv. apply visit_elem in Hv as [Hv|Hv]; [rewrite Hg in Hv|rewrite Ht in Hv];
      rewrite ?lookup_empty in Hv; simpl in Hv; apply list_elem_of_fmap in Hv as (e & -> & He);
      apply list_elem_of_filter in He as [_ He]; by exists e. }
  rewrite Forall_forall in HP. by apply (HP e).
Qed.

Lemma heard_finalize P S : heard P S → heard P (finalizeListeners S).
Proof.
  intros [H1 _]. split; [exact H1|]. simpl. intros v view ph ty sc cbs [= <-] Hv.
  apply map_lookup_filter_Some in Hv as [Hv _]. rewrite lookup_insert_eq in Hv. injection Hv as <-.
  apply heard_view. apply H1.
Qed.

Lemma heard_deferred P phase ty scope cb prio tok S S' : heard P S → P phase cb →
  addListenerDeferred phase ty scope cb prio tok S = Some (tok, S') → heard P S'.
Proof.
  intros [H1 H2] Hcb. unfold addListenerDeferred, insert_in_phase. simpl.
  destruct (vat (phases_ S) phase) as [es|] eqn:Hes; simpl; [|done].
  destruct (vat (phaseSizes_ S) phase) as [n|]; simpl; [|done]. intros [= <-].
  split; [|exact H2]. intros ph es'. simpl. destruct (decide (ph = phase)) as [->|Hne].
  - rewrite vat_vset_eq by by eapply vat_lt. intros [= <-]. apply Forall_forall. intros e He.
    rewrite insert_entry_perm in He. apply elem_of_cons in He as [->|He]; [exact Hcb|].
    pose proof (H1 _ _ Hes) as Hall. rewrite Forall_forall in Hall. by apply Hall.
  - rewrite vat_vset_ne by congruence. apply H1.
Qed.

(** Publishing a new view, whatever the old one was. *)
Lemma usable_rebuild S : nlen (phases_ S) = kPhaseCount → nlen (phaseSizes_ S) = kPhaseCount →
  (∀ v, v ∈ allViews_ S ++ option_list (currentView_ S) → v < nextView S) →
  usable (rebuildView_ S).
Proof.
  intros H1 H2 H3. unfold rebuildView_. split; simpl; [done|done|..].
  - intros v [Hv|Hv]%elem_of_app.
    + apply list_elem_of_filter in Hv as [_ Hv]. specialize (H3 v Hv). lia.
    + simpl in Hv. apply list_elem_of_singleton in Hv as ->. lia.
  - intros v [= <-] Hv. apply list_elem_of_filter in Hv as [_ Hv]. specialize (H3 _ Hv). lia.
  - intros v [= <-]. exists (build_view (phases_ S)). split.
    + apply map_lookup_filter_Some_2; [by rewrite lookup_insert_eq|]. simpl.
      intros [Hv _]. specialize (H3 _ Hv). lia.
    + unfold build_view, nlen in *. by rewrite length_fmap.
Qed.

Lemma usable_finalize S : usable S → usable (finalizeListeners S).
Proof. intros [H1 H2 H3 _ _]. by apply usable_rebuild. Qed.

Lemma usable_reserve S : usable S → usable (reserveToken S).2.
Proof. intros []. by split. Qed.

Lemma usable_add phase ty scope cb prio S : usable S → phase < kPhaseCount →
  ∃ tok S', addListener phase ty scope cb prio S = Some (tok, S') ∧ usable S'.
Proof.
  intros HS Hp. unfold addListener. simpl.
  set (e := {| typeId := ty; listenerScope := scope; callback := cb; priority := prio;
               token := nextToken_ S; phaseIndex := phase |}).
  destruct (usable_insert e _ (usable_reserve S HS) Hp) as (S' & HS' & HU).
  simpl in HS'. rewrite HS'. simpl. eexists _, _. split; [done|]. by apply usable_finalize.
Qed.

Lemma usable_deferred phase ty scope cb prio tok S : usable S → phase < kPhaseCount →
  ∃ S', addListenerDeferred phase ty scope cb prio tok S = Some (tok, S') ∧ usable S'.
Proof.
  intros HS Hp. unfold addListenerDeferred.
  set (e := {| typeId := ty; listenerScope := scope; callback := cb; priority := prio;
               token := tok; phaseIndex := phase |}).
  destruct (usable_insert e S HS Hp) as (S' & -> & HU). by exists S'.
Qed.

Lemma remove_phases_length tok ps e r : remove_phases tok ps = Some (e, r) → nlen r = nlen ps.
Proof.
  unfold nlen. revert r. induction ps as [|vec ps IH]; intros r; [done|]. simpl.
  destruct (remove_token tok vec) as [[x vec']|]; [by intros [= <- <-]|].
  destruct (remove_phases tok ps) as [[x r']|]; [|done]. intros [= <- <-]. simpl.
  specialize (IH r' eq_refl). lia.
Qed.

Lemma usable_remove tok S : usable S → usable (removeByToken tok S).
Proof.
  intros HS. pose proof HS as [H1 H2 H3 _ _]. unfold removeByToken.
  destruct (remove_phases tok (phases_ S)) as [[e ps]|] eqn:E; [|done].
  apply usable_rebuild; simpl; rewrite ?nlen_vset; [|done..].
  by rewrite (remove_phases_length _ _ _ _ E).
Qed.

End ListenerStore.

(** * Dispatch hazards *)

Module Hazard.

(** Where one call of [dispatch] is: the view it loaded, published in the thread's
    slot, or validated and iterates outside any lock. *)
Inductive frame : Type :=
| Loaded (v : N)
| Published (v : N)
| Iterating (v : N).

(** The mutator, under [mutex_]: the retired views it still has to examine, and
    the slots left to compare with the one it examines. *)
Inductive writer_pc : Type :=
| WIdle
| WViews (vs : list N)
| WScan (v : N) (slots : list N) (vs : list N).

(** A thread owns one hazard slot and is named by it; [frames] is the stack of its
    nested dispatches, innermost first. *)
Record state : Type := {
  live : gset N;
  next : N;
  view_ : option N;
  allViews_ : gset N;
  hazardViews_ : N → option N;
  publishedDispatchHazardSlots_ : N;
  frames : N → list frame;
  writer : writer_pc
}.

Definition with_frames (i : N) (fs : list frame) (h : option N) (S : state) : state :=
  {| live := live S; next := next S; view_ := view_ S; allViews_ := allViews_ S;
     hazardViews_ := <[i := h]> (hazardViews_ S);
     publishedDispatchHazardSlots_ := publishedDispatchHazardSlots_ S;
     frames := <[i := fs]> (frames S); writer := writer S |}.

Definition with_writer (w : writer_pc) (l r : gset N) (S : state) : state :=
  {| live := l; next := next S; view_ := view_ S; allViews_ := r;
     hazardViews_ := hazardViews_ S;
     publishedDispatchHazardSlots_ := publishedDispatchHazardSlots_ S;
     frames := frames S; writer := w |}.

(** [view_.store] of [rebuildView_] ([Some] fresh view) or [clear] ([None]); the
    old view is retired. *)
Definition replace_view (fresh : bool) (S : state) : state :=
  let retired := allViews_ S ∪ (match view_ S with Some v => {[v]} | None => ∅ end) in
  {| live := if fresh then {[next S]} ∪ live S else live S;
     next := next S + 1;
     view_ := if fresh then Some (next S) else None;
     allViews_ := retired;
     hazardViews_ := hazardViews_ S;
     publishedDispatchHazardSlots_ := publishedDispatchHazardSlots_ S;
     frames := frames S;
     writer := WViews (elements retired) |}.

Definition slots_below (n : N) : list N := N.of_nat <$> seq 0 (N.to_nat n).

Inductive step (S : state) : state → Prop :=
| d_slot :
    step S {| live := live S; next := next S; view_ := view_ S; allViews_ := allViews_ S;
              hazardViews_ := hazardViews_ S;
              publishedDispatchHazardSlots_ := publishedDispatchHazardSlots_ S + 1;
              frames := frames S; writer := writer S |}
| d_load i v : i < publishedDispatchHazardSlots_ S → view_ S = Some v →
    step S (with_frames i (Loaded v :: frames S i) (hazardViews_ S i) S)
| d_publish i v fs : frames S i = Loaded v :: fs →
    step S (with_frames i (Published v :: fs) (Some v) S)
| d_ok i v fs : frames S i = Published v :: fs → view_ S = Some v →
    step S (with_frames i (Iterating v :: fs) (hazardViews_ S i) S)
| d_retry i v v' fs : frames S i = Published v :: fs → view_ S = Some v' → v' ≠ v →
    step S (with_frames i (Loaded v' :: fs) (hazardViews_ S i) S)
| d_null i v fs : frames S i = Published v :: fs → view_ S = None →
    step S (with_frames i fs None S)
| d_done i v fs : frames S i = Iterating v :: fs → step S (with_frames i fs None S)
| w_replace fresh : writer S = WIdle → step S (replace_view fresh S)
| w_view v vs : writer S = WViews (v :: vs) →
    step S (with_writer (WScan v (slots_below (publishedDispatchHazardSlots_ S)) vs)
              (live S) (allViews_ S) S)
| w_keep v i slots vs : writer S = WScan v (i :: slots) vs → hazardViews_ S i = Some v →
    step S (with_writer (WViews vs) (live S) (allViews_ S) S)
| w_next v i slots vs : writer S = WScan v (i :: slots) vs → hazardViews_ S i ≠ Some v →
    step S (with_writer (WScan v slots vs) (live S) (allViews_ S) S)
| w_free v vs : writer S = WScan v [] vs →
    step S (with_writer (WViews vs) (live S ∖ {[v]}) (allViews_ S ∖ {[v]}) S)
| w_done : writer S = WViews [] → step S (with_writer WIdle (live S) (allViews_ S) S).

Definition start : state :=
  {| live := ∅; next := 0; view_ := None; allViews_ := ∅; hazardViews_ := λ _, None;
     publishedDispatchHazardSlots_ := 0; frames := λ _, []; writer := WIdle |}.

(** No dispatch reads a freed view. *)
Definition safe (S : state) : Prop := ∀ i v, Iterating v ∈ frames S i → v ∈ live S.

(** No thread dispatches from inside a dispatch. *)
Definition not_nested (S : state) : Prop := ∀ i, (length (frames S i) ≤ 1)%nat.

Inductive exec (R : state → Prop) : state → Prop :=
| exec_start : exec R start
| exec_step S S' : exec R S → step S S' → R S' → exec R S'.

Record inv (S : state) : Prop := {
  j_hazard : ∀ i v, frames S i = [Published v] ∨ frames S i = [Iterating v] →
    hazardViews_ S i = Some v;
  j_slot : ∀ i, frames S i ≠ [] → i < publishedDispatchHazardSlots_ S;
  j_live : ∀ i v, frames S i = [Iterating v] → v ∈ live S;
  j_view : ∀ v, view_ S = Some v → v ∈ live S ∧ v ∉ allViews_ S ∧ v < next S;
  j_retired : ∀ v, v ∈ allViews_ S → v < next S;
  j_writer : match writer S with
             | WIdle => True
             | WViews vs => NoDup vs ∧ ∀ v, v ∈ vs → v ∈ allViews_ S
             | WScan v slots vs =>
                 NoDup (v :: vs) ∧ (∀ v', v' ∈ v :: vs → v' ∈ allViews_ S) ∧
                 ∀ i, frames S i = [Iterating v] → i ∈ slots
             end
}.

Lemma hazard_inv_start : inv start.
Proof. split; simpl; try done; try naive_solver. Qed.

Ltac slot_case i j :=
  destruct (decide (j = i)) as [->|?];
  [rewrite ?fn_lookup_insert in *|rewrite ?fn_lookup_insert_ne in * by congruence].

(** A dispatcher's step, when it does not read or free views. *)
Lemma inv_frames S i fs h : inv S → i < publishedDispatchHazardSlots_ S →
  (∀ v, fs = [Published v] ∨ fs = [Iterating v] → h = Some v) →
  (∀ v, fs = [Iterating v] → view_ S = Some v) →
  inv (with_frames i fs h S).
Proof.
  intros [H1 H2 H3 H4 H5 H6] Hi Hh Hv. split; simpl; try done.
  - intros j v. slot_case i j; [apply Hh|apply H1].
  - intros j. slot_case i j; [done|apply H2].
  - intros j v. slot_case i j; [intros Hf; by apply H4, Hv|apply H3].
  - destruct (writer S) as [|vs|v slots vs]; [done|done|].
    destruct H6 as (Hnd & Hin & Hf). split_and!; [done..|]. intros j.
    slot_case i j; [|apply Hf]. intros E. exfalso.
    destruct (H4 v) as (_ & Hn & _); [by apply Hv|]. apply Hn, Hin. by left.
Qed.

Lemma slots_below_spec n i : i ∈ slots_below n ↔ i < n.
Proof.
  unfold slots_below. rewrite list_elem_of_fmap. split.
  - intros (k & -> & Hk%elem_of_seq). lia.
  - intros Hi. exists (N.to_nat i). rewrite elem_of_seq. lia.
Qed.

Lemma hazard_step_inv S S' : inv S → not_nested S' → not_nested S → step S S' → inv S'.
Proof.
  intros Hinv Hone' Hone Hst. pose proof Hinv as [H1 H2 H3 H4 H5 H6].
  assert (∀ i f fs, frames S i = f :: fs → fs = [] ∧ i < publishedDispatchHazardSlots_ S) as Hfs.
  { intros i f fs E. split.
    - specialize (Hone i). rewrite E in Hone. simpl in Hone. by destruct fs; [|simpl in Hone; lia].
    - apply H2. by rewrite E. }
  destruct Hst as [|i v Hi Hv|i v fs Hf|i v fs Hf Hv|i v v' fs Hf Hv Hne|i v fs Hf Hv
    |i v fs Hf|fresh Hw|v vs Hw|v i slots vs Hw Hh|v i slots vs Hw Hh|v vs Hw|Hw].
  - split; simpl; try done. intros i Hi. specialize (H2 i Hi). lia.
  - apply inv_frames; [done|done|..]; intros w; try intros [E|E]; try intros E; naive_solver.
  - destruct (Hfs _ _ _ Hf) as [-> ?]. apply inv_frames; [done|done|..]; naive_solver.
  - destruct (Hfs _ _ _ Hf) as [-> ?]. apply inv_frames; [done|done| |naive_solver].
    intros w [E|E]; simplify_eq. apply H1. by left.
  - destruct (Hfs _ _ _ Hf) as [-> ?]. apply inv_frames; [done|done|..]; naive_solver.
  - destruct (Hfs _ _ _ Hf) as [-> ?]. apply inv_frames; [done|done|..]; naive_solver.
  - destruct (Hfs _ _ _ Hf) as [-> ?]. apply inv_frames; [done|done|..]; naive_solver.
  - assert (∀ v, v ∈ allViews_ S ∪ (match view_ S with Some v => {[v]} | None => ∅ end) →
      v < next S) as Hlt.
    { intros v [Hv|Hv]%elem_of_union; [by apply H5|]. destruct (view_ S) eqn:E.
      - apply elem_of_singleton in Hv as ->. by apply H4.
      - by apply not_elem_of_empty in Hv. }
    split; simpl; try done.
    + intros i v Hf. destruct fresh; [|by eapply H3]. apply elem_of_union. right. by eapply H3.
    + intros v. destruct fresh; [|done]. intros; simplify_eq.
      split_and!; [set_solver|intros Hv%Hlt; lia|lia].
    + intros v Hv%Hlt. lia.
    + split; [apply NoDup_elements|]. intros v. by rewrite elem_of_elements.
  - rewrite Hw in H6. destruct H6 as [Hnd Hin]. split; simpl; try done.
    split_and!; [done..|]. intros i Hf. apply slots_below_spec, H2. by rewrite Hf.
  - rewrite Hw in H6. destruct H6 as ([_ Hnd]%NoDup_cons & Hin & _). split; simpl; try done.
    split; [done|]. intros v' Hv'. apply Hin. by right.
  - rewrite Hw in H6. destruct H6 as (Hnd & Hin & Hf). split; simpl; try done.
    split_and!; [done..|]. intros j Hj. specialize (Hf j Hj).
    apply elem_of_cons in Hf as [->|?]; [|done]. exfalso. apply Hh, H1. by right.
  - rewrite Hw in H6. destruct H6 as ([Hvs Hnd]%NoDup_cons & Hin & Hf).
    assert (v ∈ allViews_ S) as Hva by (apply Hin; by left). split; simpl; try done.
    + intros i w Hi. apply elem_of_difference. split; [by eapply H3|].
      intros ->%elem_of_singleton. by apply Hf, not_elem_of_nil in Hi.
    + intros w Hw'. destruct (H4 w Hw') as (? & ? & ?). set_solver.
    + intros w Hw'. apply H5. set_solver.
    + split; [done|]. intros w Hw'. apply elem_of_difference. split; [apply Hin; by right|].
      intros ->%elem_of_singleton. done.
  - split; simpl; done.
Qed.

(** C40 Lock-free dispatch never iterates a freed view: with any number of
    dispatching threads and a mutator that publishes, retires, scans the hazard
    slots one by one and frees, in any interleaving of their atomic steps, every
    view a validated dispatch iterates is still allocated, as long as no callback
    dispatches again on its own thread. *)
Theorem hazard_safe (S : state) : exec not_nested S → safe S.
Proof.
  intros Hex. assert (inv S ∧ not_nested S) as [Hinv Hone].
  { induction Hex as [|S S' _ [IH1 IH2] Hst HR]; [split; [apply hazard_inv_start|intros i; simpl; lia]|].
    split; [by eapply hazard_step_inv|done]. }
  intros i v Hin. apply (j_live _ Hinv i). specialize (Hone i).
  destruct (frames S i) as [|f [|f' fs]]; [by apply not_elem_of_nil in Hin| |simpl in Hone; lia].
  by apply list_elem_of_singleton in Hin as ->.
Qed.

(** ** Schedules *)

Inductive choice : Type :=
| CSlot
| CDispatch (i : N)
| CRun (i : N)
| CReplace (fresh : bool)
| CWrite.

Definition do_step (c : choice) (S : state) : option state :=
  match c with
  | CSlot =>
      Some {| live := live S; next := next S; view_ := view_ S; allViews_ := allViews_ S;
              hazardViews_ := hazardViews_ S;
              publishedDispatchHazardSlots_ := publishedDispatchHazardSlots_ S + 1;
              frames := frames S; writer := writer S |}
  | CDispatch i =>
      match view_ S with
      | Some v =>
          if i <? publishedDispatchHazardSlots_ S
          then Some (with_frames i (Loaded v :: frames S i) (hazardViews_ S i) S)
          else None
      | None => None
      end
  | CRun i =>
      match frames S i with
      | [] => None
      | Loaded v :: fs => Some (with_frames i (Published v :: fs) (Some v) S)
      | Published v :: fs =>
          match view_ S with
          | None => Some (with_frames i fs None S)
          | Some v' =>
              if v' =? v then Some (with_frames i (Iterating v :: fs) (hazardViews_ S i) S)
              else Some (with_frames i (Loaded v' :: fs) (hazardViews_ S i) S)
          end
      | Iterating v :: fs => Some (with_frames i fs None S)
      end
  | CReplace fresh =>
      match writer S with WIdle => Some (replace_view fresh S) | _ => None end
  | CWrite =>
      match writer S with
      | WIdle => None
      | WViews [] => Some (with_writer WIdle (live S) (allViews_ S) S)
      | WViews (v :: vs) =>
          Some (with_writer (WScan v (slots_below (publishedDispatchHazardSlots_ S)) vs)
                  (live S) (allViews_ S) S)
      | WScan v [] vs =>
          Some (with_writer (WViews vs) (live S ∖ {[v]}) (allViews_ S ∖ {[v]}) S)
      | WScan v (i :: slots) vs =>
          if decide (hazardViews_ S i = Some v)
          then Some (with_writer (WViews vs) (live S) (allViews_ S) S)
          else Some (with_writer (WScan v slots vs) (live S) (allViews_ S) S)
      end
  end.

Lemma hazard_do_step_sound c S S' : do_step c S = Some S' → step S S'.
Proof.
  destruct c as [|i|i|fresh|]; simpl.
  - intros; simplify_eq. constructor.
  - destruct (view_ S) as [v|] eqn:Hv; [|done].
    destruct (N.ltb_spec i (publishedDispatchHazardSlots_ S)); [|done].
    intros; simplify_eq. by apply d_load.
  - destruct (frames S i) as [|[v|v|v] fs] eqn:Hf; [done| | |].
    + intros; simplify_eq. by apply d_publish.
    + destruct (view_ S) as [v'|] eqn:Hv; [|intros; simplify_eq; by eapply d_null].
      destruct (N.eqb_spec v' v) as [->|]; intros; simplify_eq; [by apply d_ok|by eapply d_retry].
    + intros; simplify_eq. by eapply d_done.
  - destruct (writer S) eqn:Hw; [|done..]. intros; simplify_eq. by apply w_replace.
  - destruct (writer S) as [|[|v vs]|v [|i slots] vs] eqn:Hw; [done| | | |].
    + intros; simplify_eq. by apply w_done.
    + intros; simplify_eq. by apply w_view.
    + intros; simplify_eq. by apply w_free.
    + case_decide; intros; simplify_eq; [by eapply w_keep|by eapply w_next].
Qed.

Fixpoint run (cs : list choice) (S : state) : option state :=
  match cs with
  | [] => Some S
  | c :: cs' => S' ← do_step c S; run cs' S'
  end.

(** The thread of a choice has at most one dispatch on its stack afterwards. *)
Definition flat (c : choice) (S : state) : bool :=
  match c with
  | CDispatch i | CRun i => bool_decide (length (frames S i) ≤ 1)%nat
  | _ => true
  end.

Fixpoint all_flat (cs : list choice) (S : state) : bool :=
  match cs with
  | [] => true
  | c :: cs' =>
      match do_step c S with Some S' => flat c S' && all_flat cs' S' | None => false end
  end.

Lemma do_step_frames c S S' j : do_step c S = Some S' →
  match c with CDispatch i | CRun i => j ≠ i | _ => True end → frames S' j = frames S j.
Proof.
  destruct c as [|i|i|fresh|]; simpl; repeat case_match; intros; simplify_eq; simpl;
    rewrite ?fn_lookup_insert_ne by congruence; done.
Qed.

Lemma hazard_run_exec (R : state → Prop) cs : ∀ S S',
  (∀ c S S', c ∈ cs → R S → do_step c S = Some S' → R S') →
  exec R S → R S → run cs S = Some S' → exec R S'.
Proof.
  induction cs as [|c cs IH]; intros S S' HR Hex HS; simpl; [intros; by simplify_eq|].
  destruct (do_step c S) as [S1|] eqn:E; [|done]; simpl.
  assert (R S1) by (eapply HR; [by left|done|done]). apply IH; [|eapply exec_step; [done|by eapply hazard_do_step_sound|done]|done].
  intros c' S2 S3 Hc. apply HR. by right.
Qed.

Lemma run_flat cs : ∀ S S', exec not_nested S → not_nested S → all_flat cs S = true →
  run cs S = Some S' → exec not_nested S'.
Proof.
  induction cs as [|c cs IH]; intros S S' Hex HS; cbn [all_flat run]; [intros; by simplify_eq|].
  destruct (do_step c S) as [S1|] eqn:E; [|done]; simpl.
  intros [Hfl Hall]%andb_true_iff. assert (not_nested S1) as HS1.
  { intros j. pose proof (do_step_frames c S S1 j E) as Hj. unfold flat in Hfl.
    destruct c as [|i|i|fresh|]; try (rewrite Hj by done; apply HS).
    all: destruct (decide (j = i)) as [->|Hne]; [by apply bool_decide_eq_true in Hfl|].
    all: rewrite Hj by done; apply HS. }
  apply IH; [eapply exec_step; [done|by eapply hazard_do_step_sound|done]|done|done].
Qed.

Lemma start_flat : not_nested start.
Proof. intros i; simpl; lia. Qed.

(** A thread validates view 0; a mutator then replaces it, retires it and keeps it
    because of the hazard slot. *)
Definition sample_schedule : list choice :=
  [CReplace true; CWrite; CSlot; CDispatch 0; CRun 0; CRun 0; CReplace true; CWrite; CWrite;
   CWrite].

Definition final (cs : list choice) : state := default start (run cs start).

Lemma final_exec cs : all_flat cs start = true → is_Some (run cs start) →
  exec not_nested (final cs).
Proof.
  intros Hf [S HS]. unfold final. rewrite HS. simpl.
  by eapply run_flat; [apply exec_start|apply start_flat| |].
Qed.

Lemma hazard_safe_witness :
  let S := final sample_schedule in
  (frames S 0, view_ S, elements (allViews_ S)) = ([Iterating 0], Some 1, [0]) ∧ safe S.
Proof.
  split; [vm_compute; reflexivity|].
  apply (hazard_safe (final sample_schedule)), final_exec; [vm_compute; reflexivity|].
  apply (bool_decide_unpack _). vm_compute. exact I.
Defined.

(** A callback of a dispatch on thread 0 dispatches again (which clears the slot)
    and then removes a listener. *)
Definition nested_schedule : list choice :=
  [CReplace true; CWrite; CSlot; CDispatch 0; CRun 0; CRun 0;
   CDispatch 0; CRun 0; CRun 0; CRun 0;
   CReplace true; CWrite; CWrite; CWrite].

Definition iterates_freed (i : N) (S : state) : bool :=
  existsb (λ f, match f with Iterating v => bool_decide (v ∉ live S) | _ => false end)
    (frames S i).

Lemma iterates_freed_unsafe i S : iterates_freed i S = true → ¬ safe S.
Proof.
  unfold iterates_freed. rewrite existsb_exists. intros ([v|v|v] & Hin & Hv) Hs; try done.
  apply bool_decide_eq_true in Hv. apply Hv, (Hs i). by apply list_elem_of_In.
Qed.

(** A nested dispatch loses the protection: each thread has a single hazard
    slot, which the inner dispatch overwrites and clears, so if the callback that
    dispatched then adds or removes a listener, the view its outer dispatch still
    iterates is freed. *)
Theorem nested_dispatch_unsafe : ∃ S, exec (λ _, True) S ∧ ¬ safe S.
Proof.
  assert (is_Some (run nested_schedule start)) as [S HS].
  { apply (bool_decide_unpack _). vm_compute. exact I. }
  exists S. split; [by eapply (hazard_run_exec (λ _, True)); [|apply exec_start| |exact HS]|].
  apply (iterates_freed_unsafe 0).
  assert (∀ S', run nested_schedule start = Some S' →
    from_option (iterates_freed 0) false (run nested_schedule start) = iterates_freed 0 S') as H.
  { intros S' E. by rewrite E. }
  rewrite <-(H S HS). vm_compute. reflexivity.
Qed.

End Hazard.
