(* ===== verification/HazardSlots.v ===== *)
(** Which thread has which hazard slot.

    [Module HazardSlots] models the allotment of dispatch hazard slots
    ([DispatchHazardToken], [acquireDispatchHazardSlot_], [releaseDispatchHazardSlot_] and
    [publishHazardSlotCount_] of [internal/detail/ListenerStore.hpp]): threads take a
    recycled slot or the next fresh one, publish how many there are, and give the slot
    back when they exit.  The pops and pushes of the free list are the loops of
    [Freelist.Treiber], one atomic access per step.  [Listeners.Hazard] starts from what
    [hazard_slots_exclusive] shows: as long as no two pops overlap, a slot in use has one
    thread and is within the range that a reclaiming writer scans. *)
From stdpp Require Import functions.
From S2P Require Import Prelude Freelist.

Local Open Scope N_scope.

Module HazardSlots.

Definition kDispatchHazardSlotCount : N := 4096.

(** Where a thread is: its [thread_local] token, and the locals of [acquire]; in
    [Popping] and [Releasing] the rest is in the free list's own [Treiber.pc]. *)
Inductive pc : Type :=
| NoSlot
| Popping
| NothingRecycled
| Claiming (observed : N)
| Counting (slot : SlotId)
| Publishing (slot : SlotId) (observed : N)
| Holds (slot : SlotId)
| Releasing (slot : SlotId)
| Exited.

(** [Treiber.owned] names the slots that are somebody's. *)
Record t : Type := {
  freelist : Treiber.state;
  dispatchHazardGeneration_ : gmap SlotId N;
  nextDispatchHazardSlot_ : N;
  publishedDispatchHazardSlots_ : N;
  tokens : N → pc
}.

Definition start : t :=
  {| freelist := Treiber.start ∅; dispatchHazardGeneration_ := ∅; nextDispatchHazardSlot_ := 0;
     publishedDispatchHazardSlots_ := 0; tokens := λ _, NoSlot |}.

Definition goto (τ : N) (p : pc) (S : t) : t :=
  {| freelist := freelist S; dispatchHazardGeneration_ := dispatchHazardGeneration_ S;
     nextDispatchHazardSlot_ := nextDispatchHazardSlot_ S;
     publishedDispatchHazardSlots_ := publishedDispatchHazardSlots_ S; tokens := <[τ := p]> (tokens S) |}.

Definition set_freelist (F : Treiber.state) (S : t) : t :=
  {| freelist := F; dispatchHazardGeneration_ := dispatchHazardGeneration_ S;
     nextDispatchHazardSlot_ := nextDispatchHazardSlot_ S;
     publishedDispatchHazardSlots_ := publishedDispatchHazardSlots_ S; tokens := tokens S |}.

Definition set_next (n : N) (S : t) : t :=
  {| freelist := freelist S; dispatchHazardGeneration_ := dispatchHazardGeneration_ S;
     nextDispatchHazardSlot_ := n;
     publishedDispatchHazardSlots_ := publishedDispatchHazardSlots_ S; tokens := tokens S |}.

Definition set_published (n : N) (S : t) : t :=
  {| freelist := freelist S; dispatchHazardGeneration_ := dispatchHazardGeneration_ S;
     nextDispatchHazardSlot_ := nextDispatchHazardSlot_ S;
     publishedDispatchHazardSlots_ := n; tokens := tokens S |}.

Definition set_generation (slot : SlotId) (generation : N) (S : t) : t :=
  {| freelist := freelist S;
     dispatchHazardGeneration_ := <[slot := generation]> (dispatchHazardGeneration_ S);
     nextDispatchHazardSlot_ := nextDispatchHazardSlot_ S;
     publishedDispatchHazardSlots_ := publishedDispatchHazardSlots_ S; tokens := tokens S |}.

(** A fresh slot is the claiming thread's. *)
Definition own (slot : SlotId) (F : Treiber.state) : Treiber.state :=
  {| Treiber.shared := Treiber.shared F; Treiber.threads := Treiber.threads F;
     Treiber.owned := {[slot]} ∪ Treiber.owned F |}.

(** ** Steps *)

(** The next access of a thread inside one of the two loops of the free list; [weak] is a
    spurious failure of its compare-and-swap. *)
Definition turn (τ : N) (weak : bool) (F : Treiber.state) : option (option Treiber.event * Treiber.state) :=
  if weak then
    match Treiber.threads F τ with
    | Treiber.PopCas _ _ =>
        Some (None, Treiber.goto τ (Treiber.PopLoop (Treiber.head (Treiber.shared F)))
                      (Treiber.shared F) (Treiber.owned F) F)
    | Treiber.PushCas s g _ =>
        Some (None, Treiber.goto τ (Treiber.PushLoop s g (Treiber.head (Treiber.shared F)))
                      (Treiber.shared F) (Treiber.owned F) F)
    | _ => None
    end
  else Treiber.do_step (Treiber.CRun τ) F.

(** [popTreiberFreelist] of [acquireDispatchHazardSlot_]: its first load, and a turn of
    its loop. *)
Definition recycle (τ : N) (S : t) : option t :=
  '(_, F) ← Treiber.do_step (Treiber.CPop τ) (freelist S);
  Some (goto τ Popping (set_freelist F S)).

Definition recycling (τ : N) (weak : bool) (S : t) : option t :=
  '(e, F) ← turn τ weak (freelist S);
  Some (goto τ (match e with
                | Some (Treiber.EPop recycled) => Holds recycled
                | _ => match Treiber.threads F τ with Treiber.Idle => NothingRecycled | _ => Popping end
                end) (set_freelist F S)).

(** One turn of the loop that claims the next slot.  A full table gives the invalid slot:
    the dispatch is locked. *)
Definition claim (τ : N) (observed : N) (weak : bool) (S : t) : t :=
  if observed <? kDispatchHazardSlotCount then
    if (nextDispatchHazardSlot_ S =? observed) && negb weak
    then goto τ (Counting observed) (set_next (observed + 1) (set_freelist (own observed (freelist S)) S))
    else goto τ (Claiming (nextDispatchHazardSlot_ S)) S
  else goto τ NoSlot S.

(** One turn of the loop of [publishHazardSlotCount_(slot + 1)]. *)
Definition publish (τ : N) (slot observed : N) (weak : bool) (S : t) : t :=
  if observed <? slot + 1 then
    if (publishedDispatchHazardSlots_ S =? observed) && negb weak
    then goto τ (Holds slot) (set_published (slot + 1) S)
    else goto τ (Publishing slot (publishedDispatchHazardSlots_ S)) S
  else goto τ (Holds slot) S.

(** The generation and the first load of [pushTreiberFreelist], and a turn of its loop. *)
Definition releaseDispatchHazardSlot_ (τ : N) (slot : SlotId) (S : t) : option t :=
  let generation := u32 (default 0 (dispatchHazardGeneration_ S !! slot) + 1) in
  '(_, F) ← Treiber.do_step (Treiber.CPush τ slot generation) (freelist S);
  Some (goto τ (Releasing slot) (set_generation slot generation (set_freelist F S))).

Definition releasing (τ : N) (weak : bool) (slot : SlotId) (S : t) : option t :=
  '(e, F) ← turn τ weak (freelist S);
  Some (goto τ (match e with Some _ => Exited | None => Releasing slot end) (set_freelist F S)).

(** Thread [τ] goes on, with what its next compare-and-swap does, or starts to exit. *)
Inductive event : Type :=
| Run (τ : N) (weak : bool)
| Exit (τ : N).

Definition exec (e : event) (S : t) : option t :=
  match e with
  | Run τ weak =>
      match tokens S τ with
      | NoSlot => recycle τ S
      | Popping => recycling τ weak S
      | NothingRecycled => Some (goto τ (Claiming (nextDispatchHazardSlot_ S)) S)
      | Claiming observed => Some (claim τ observed weak S)
      | Counting slot => Some (goto τ (Publishing slot (publishedDispatchHazardSlots_ S)) S)
      | Publishing slot observed => Some (publish τ slot observed weak S)
      | Releasing slot => releasing τ weak slot S
      | Holds _ | Exited => None
      end
  | Exit τ =>
      match tokens S τ with
      | NoSlot => Some (goto τ Exited S)
      | Holds slot => releaseDispatchHazardSlot_ τ slot S
      | _ => None
      end
  end.

(** The states of the executions in which no two pops overlap. *)
Inductive reach : t → Prop :=
| reach_start : reach start
| reach_step e S S' : reach S → exec e S = Some S' → Treiber.single_popper (freelist S') → reach S'.

(** ** The free list, one access at a time *)

Lemma turn_step τ weak F e F' : turn τ weak F = Some (e, F') → Treiber.step F e F'.
Proof.
  unfold turn. destruct weak; [|apply Treiber.freelist_do_step_sound].
  destruct (Treiber.threads F τ) eqn:Hτ; try done; intros [= <- <-].
  - by eapply Treiber.pop_fail.
  - by eapply Treiber.push_fail.
Qed.

(** What a turn of [τ] changes. *)
Lemma turn_local τ weak F e F' : turn τ weak F = Some (e, F') →
  (∀ τ', τ' ≠ τ → Treiber.threads F' τ' = Treiber.threads F τ') ∧
  match e with
  | Some (Treiber.EPop s) => Treiber.popping (Treiber.threads F τ) ∧
      Treiber.threads F' τ = Treiber.Idle ∧ Treiber.owned F' = {[s]} ∪ Treiber.owned F
  | Some (Treiber.EPush s) => Treiber.pushing (Treiber.threads F τ) = Some s ∧
      Treiber.threads F' τ = Treiber.Idle ∧ Treiber.owned F' = Treiber.owned F
  | None => Treiber.owned F' = Treiber.owned F ∧
      (Treiber.pushing (Treiber.threads F τ) = Treiber.pushing (Treiber.threads F' τ)) ∧
      (Treiber.popping (Treiber.threads F' τ) → Treiber.popping (Treiber.threads F τ))
  end.
Proof.
  intros H. split.
  - intros τ' Hne. revert H. unfold turn, Treiber.do_step.
    destruct weak, (Treiber.threads F τ); try done; try case_match; intros [= <- <-]; simpl;
      by rewrite ?fn_lookup_insert_ne by congruence.
  - revert H. unfold turn, Treiber.do_step.
    destruct weak, (Treiber.threads F τ) eqn:Hτ; try done;
      try destruct (Treiber.low current =? kInvalidSlotId);
      try destruct (Treiber.head (Treiber.shared F) =? current); intros [= <- <-]; simpl;
      rewrite ?fn_lookup_insert; simpl; split_and!; done.
Qed.

(** ** The invariant *)

(** The slot a thread has or is about to have. *)
Definition slot_of (p : pc) : option SlotId :=
  match p with Counting s | Publishing s _ | Holds s => Some s | _ => None end.

(** What a thread does in the free list. *)
Definition in_list (p : pc) (q : Treiber.pc) : Prop :=
  match p with
  | Popping => Treiber.popping q
  | Releasing s => Treiber.pushing q = Some s
  | _ => q = Treiber.Idle
  end.

(** [L] is the free list. *)
Record inv (S : t) (L : list SlotId) : Prop := {
  iv_free : Treiber.inv (freelist S) L;
  iv_single_popper : Treiber.single_popper (freelist S);
  iv_next : nextDispatchHazardSlot_ S ≤ kDispatchHazardSlotCount;
  iv_published : publishedDispatchHazardSlots_ S ≤ nextDispatchHazardSlot_ S;
  iv_recycled s : s ∈ L → s < publishedDispatchHazardSlots_ S;
  iv_threads τ : in_list (tokens S τ) (Treiber.threads (freelist S) τ);
  iv_releasing τ s : tokens S τ = Releasing s → s < publishedDispatchHazardSlots_ S;
  iv_owned s : s ∈ Treiber.owned (freelist S) ↔ ∃ τ, slot_of (tokens S τ) = Some s;
  iv_taken τ s : slot_of (tokens S τ) = Some s → s < nextDispatchHazardSlot_ S;
  iv_single τ τ' s : slot_of (tokens S τ) = Some s → slot_of (tokens S τ') = Some s → τ = τ';
  iv_holds τ s : tokens S τ = Holds s → s < publishedDispatchHazardSlots_ S;
  iv_observed τ s o : tokens S τ = Publishing s o → o ≤ publishedDispatchHazardSlots_ S;
  iv_claiming τ o : tokens S τ = Claiming o → o ≤ nextDispatchHazardSlot_ S;
  iv_all s : s < nextDispatchHazardSlot_ S →
    s ∈ L ∨ (∃ τ, slot_of (tokens S τ) = Some s) ∨ ∃ τ, tokens S τ = Releasing s
}.

Lemma inv_start : inv start [].
Proof.
  split; try done.
  - apply Treiber.freelist_inv_start.
  - intros τ τ' [].
  - by intros s ?%elem_of_nil.
  - intros s. simpl. split; [by intros ?%elem_of_empty|by intros [τ ?]].
  - intros s Hs. by apply N.nlt_0_r in Hs.
Qed.

Ltac token_case τ τ' :=
  destruct (decide (τ' = τ)) as [->|?];
  [rewrite ?fn_lookup_insert in *|rewrite ?fn_lookup_insert_ne in * by congruence].

(** A step that changes only where the thread is, outside the free list, and neither takes
    nor gives a slot. *)
Lemma inv_stays S L τ p : inv S L → slot_of p = slot_of (tokens S τ) →
  Treiber.threads (freelist S) τ = Treiber.Idle → in_list p Treiber.Idle →
  (∀ s, p = Holds s → s < publishedDispatchHazardSlots_ S) →
  (∀ s o, p = Publishing s o → o ≤ publishedDispatchHazardSlots_ S) →
  (∀ o, p = Claiming o → o ≤ nextDispatchHazardSlot_ S) → inv (goto τ p S) L.
Proof.
  intros [I1 I2 I3 I4 I5 I6 I7 I8 I9 I10 I11 I12 I13 I14] Hp Hidle Hin Hh Ho Hc.
  assert (∀ τ', slot_of (<[τ := p]> (tokens S) τ') = slot_of (tokens S τ')) as Hslots.
  { intros τ'. token_case τ τ'; done. }
  assert (∀ s, p ≠ Releasing s) as Hrel by by intros s ->.
  split; simpl; try done.
  - intros τ'. token_case τ τ'; [by rewrite Hidle|apply I6].
  - intros τ' s. token_case τ τ'; [by intros ?%Hrel|apply I7].
  - intros s. rewrite I8. by setoid_rewrite Hslots.
  - intros τ' s. rewrite Hslots. apply I9.
  - intros τ1 τ2 s. rewrite !Hslots. apply I10.
  - intros τ' s. token_case τ τ'; [apply Hh|apply I11].
  - intros τ' s o. token_case τ τ'; [apply Ho|apply I12].
  - intros τ' o. token_case τ τ'; [apply Hc|apply I13].
  - intros s Hs. destruct (I14 s Hs) as [|[[τ' Hτ]|[τ' Hτ]]]; [by left|right; left|right; right].
    + exists τ'. by rewrite Hslots.
    + exists τ'. rewrite fn_lookup_insert_ne; [done|]. intros ->.
      pose proof (I6 τ') as Ht. by rewrite Hτ, Hidle in Ht.
Qed.

Lemma idle_token S L τ : inv S L → (∀ s, tokens S τ ≠ Releasing s) → tokens S τ ≠ Popping →
  Treiber.threads (freelist S) τ = Treiber.Idle.
Proof.
  intros HI Hr Hp. pose proof (iv_threads _ _ HI τ) as Ht.
  destruct (tokens S τ) eqn:Hτ; try done. by destruct (Hr slot).
Qed.

(** A step inside the free list that leaves every slot where it was. *)
Lemma inv_inside S L τ p F : inv S L → Treiber.inv F L → Treiber.single_popper F →
  (∀ τ', τ' ≠ τ → Treiber.threads F τ' = Treiber.threads (freelist S) τ') →
  in_list p (Treiber.threads F τ) → Treiber.owned F = Treiber.owned (freelist S) →
  slot_of p = None → slot_of (tokens S τ) = None → (∀ o, p ≠ Claiming o) →
  (∀ s, p = Releasing s ↔ tokens S τ = Releasing s) → inv (goto τ p (set_freelist F S)) L.
Proof.
  intros [I1 I2 I3 I4 I5 I6 I7 I8 I9 I10 I11 I12 I13 I14] HF H1 Hoth Hin Hown Hp Hs Hc Hrel.
  assert (∀ τ', slot_of (<[τ := p]> (tokens S) τ') = slot_of (tokens S τ')) as Hslots.
  { intros τ'. token_case τ τ'; congruence. }
  split; simpl; try done.
  - intros τ'. token_case τ τ'; [done|]. rewrite Hoth by done. apply I6.
  - intros τ' s. token_case τ τ'; [intros H%Hrel; by apply (I7 τ)|apply I7].
  - intros s. rewrite Hown, I8. by setoid_rewrite Hslots.
  - intros τ' s. rewrite Hslots. apply I9.
  - intros τ1 τ2 s. rewrite !Hslots. apply I10.
  - intros τ' s. token_case τ τ'; [by intros ->|apply I11].
  - intros τ' s o. token_case τ τ'; [by intros ->|apply I12].
  - intros τ' o. token_case τ τ'; [by intros ?%Hc|apply I13].
  - intros s Hlt. destruct (I14 s Hlt) as [|[[τ' Hτ]|[τ' Hτ]]]; [by left|right; left|right; right].
    + exists τ'. by rewrite Hslots.
    + exists τ'. token_case τ τ'; [by apply Hrel|done].
Qed.

Lemma inv_recycle S S' L τ : inv S L → tokens S τ = NoSlot → recycle τ S = Some S' →
  Treiber.single_popper (freelist S') → inv S' L.
Proof.
  intros HI Hτ. unfold recycle. destruct (Treiber.do_step _ _) as [[e F]|] eqn:Hdo; [|done].
  intros [= <-] H1. simpl in H1. apply Treiber.freelist_do_step_sound in Hdo as Hst.
  pose proof (idle_token _ _ τ HI ltac:(by rewrite Hτ) ltac:(by rewrite Hτ)) as Hidle.
  destruct (Treiber.freelist_step_inv _ _ _ _ (iv_free _ _ HI) (iv_single_popper _ _ HI) Hst) as (L' & HL' & He).
  simpl in Hdo. rewrite Hidle in Hdo. injection Hdo as <- <-. subst L'.
  apply inv_inside; simpl; try done; rewrite ?Hτ; try done.
  - intros τ' Hne. by rewrite fn_lookup_insert_ne by congruence.
  - by rewrite fn_lookup_insert.
Qed.

(** The end of a pop. *)
Lemma inv_popped S L τ s F : inv S (s :: L) → tokens S τ = Popping → Treiber.inv F L →
  Treiber.single_popper F → (∀ τ', τ' ≠ τ → Treiber.threads F τ' = Treiber.threads (freelist S) τ') →
  Treiber.threads F τ = Treiber.Idle → Treiber.owned F = {[s]} ∪ Treiber.owned (freelist S) →
  inv (goto τ (Holds s) (set_freelist F S)) L.
Proof.
  intros [I1 I2 I3 I4 I5 I6 I7 I8 I9 I10 I11 I12 I13 I14] Hτ HF H1 Hoth Hidle Hown.
  assert (s < publishedDispatchHazardSlots_ S) as Hs by (apply I5; by left).
  assert (s ∉ Treiber.owned (freelist S)) as Hfree by (apply (Treiber.inv_owned _ _ I1); by left).
  assert (∀ τ', slot_of (tokens S τ') ≠ Some s) as Hnone.
  { intros τ' Hx. apply Hfree, I8. by exists τ'. }
  split; simpl; try done.
  - intros x Hx. apply I5. by right.
  - intros τ'. token_case τ τ'; [done|]. rewrite Hoth by done. apply I6.
  - intros τ' x. token_case τ τ'; [done|apply I7].
  - intros x. rewrite Hown, elem_of_union, elem_of_singleton, I8. split.
    + intros [->|[τ' Hx]]; [exists τ; by rewrite fn_lookup_insert|]. exists τ'.
      token_case τ τ'; [by rewrite Hτ in Hx|done].
    + intros [τ' Hx]. token_case τ τ'; [left; by injection Hx as ->|right; by exists τ'].
  - intros τ' x. token_case τ τ'; [intros [= <-]; lia|apply I9].
  - intros τ1 τ2 x. token_case τ τ1; token_case τ τ2; try done.
    + intros [= <-] Hx. by destruct (Hnone τ2).
    + intros Hx [= <-]. by destruct (Hnone τ1).
    + apply I10.
  - intros τ' x. token_case τ τ'; [by intros [= <-]|apply I11].
  - intros τ' x o. token_case τ τ'; [done|apply I12].
  - intros τ' o. token_case τ τ'; [done|apply I13].
  - intros x Hx. destruct (I14 x Hx) as [[->|Hin]%elem_of_cons|[[τ' Hy]|[τ' Hy]]].
    + right; left. exists τ. by rewrite fn_lookup_insert.
    + by left.
    + right; left. exists τ'. token_case τ τ'; [by rewrite Hτ in Hy|done].
    + right; right. exists τ'. token_case τ τ'; [by rewrite Hτ in Hy|done].
Qed.

Lemma inv_recycling S S' L τ weak : inv S L → tokens S τ = Popping → recycling τ weak S = Some S' →
  Treiber.single_popper (freelist S') → ∃ L', inv S' L'.
Proof.
  intros HI Hτ. unfold recycling. destruct (turn τ weak (freelist S)) as [[e F]|] eqn:Hturn; [|done].
  intros [= <-] H1. simpl in H1. destruct (turn_local _ _ _ _ _ Hturn) as [Hoth Hloc].
  destruct (Treiber.freelist_step_inv _ _ _ _ (iv_free _ _ HI) (iv_single_popper _ _ HI)
    (turn_step _ _ _ _ _ Hturn)) as (L' & HL' & He).
  pose proof (iv_threads _ _ HI τ) as Hpop. rewrite Hτ in Hpop. simpl in Hpop.
  destruct e as [[s|s]|].
  - destruct He as [-> _]. destruct Hloc as (_ & Hidle & Hown). exists L'. by apply inv_popped.
  - destruct Hloc as (Hpush & _). by destruct (Treiber.threads (freelist S) τ).
  - subst L'. destruct Hloc as (Hown & Hpush & _). exists L.
    apply inv_inside; try done; rewrite ?Hτ; try done.
    + destruct (Treiber.threads F τ), (Treiber.threads (freelist S) τ); done.
    + by destruct (Treiber.threads F τ).
    + by destruct (Treiber.threads F τ).
    + intros s. by destruct (Treiber.threads F τ).
Qed.

Lemma inv_own S L s : Treiber.inv (freelist S) L → s ∉ L →
  (∀ τ, Treiber.pushing (Treiber.threads (freelist S) τ) ≠ Some s) → Treiber.inv (own s (freelist S)) L.
Proof.
  intros [H1 H2 H3 H4 H5 H6 H7 H8] Hs Hp. split; simpl; try done.
  - intros x Hx. rewrite not_elem_of_union, not_elem_of_singleton. split; [by intros ->|by apply H3].
  - intros τ x Hx. destruct (H4 _ _ Hx) as (? & ? & ?). split_and!; [done| |done].
    rewrite not_elem_of_union, not_elem_of_singleton. split; [|done]. intros ->. by destruct (Hp τ).
Qed.

Lemma inv_claim S L τ o weak : inv S L → tokens S τ = Claiming o → inv (claim τ o weak S) L.
Proof.
  intros HI Hτ. pose proof HI as [I1 I2 I3 I4 I5 I6 I7 I8 I9 I10 I11 I12 I13 I14]. unfold claim.
  pose proof (idle_token _ _ τ HI ltac:(by rewrite Hτ) ltac:(by rewrite Hτ)) as Hidle.
  destruct (N.ltb_spec o kDispatchHazardSlotCount) as [Ho|Ho].
  2: by apply inv_stays; [done|by rewrite Hτ|..].
  destruct (N.eqb_spec (nextDispatchHazardSlot_ S) o) as [He|He]; [destruct weak|]; cbn [andb negb].
  1,3: apply inv_stays; [done|by rewrite Hτ|done|done|done|done|by intros ? [= <-]].
  assert (∀ τ' s, Treiber.pushing (Treiber.threads (freelist S) τ') = Some s →
    tokens S τ' = Releasing s) as Hpush.
  { intros τ' s Hx. pose proof (I6 τ') as Ht. unfold in_list in Ht.
    destruct (tokens S τ'), (Treiber.threads (freelist S) τ'); try done; congruence. }
  split; simpl; try done.
  - apply inv_own; [done|intros Hin; pose proof (I5 _ Hin); lia|].
    intros τ' Hx%Hpush. pose proof (I7 _ _ Hx). lia.
  - lia.
  - lia.
  - intros τ'. token_case τ τ'; [done|apply I6].
  - intros τ' s. token_case τ τ'; [done|apply I7].
  - intros x. rewrite elem_of_union, elem_of_singleton, I8. split.
    + intros [->|[τ' Hx]]; [exists τ; by rewrite fn_lookup_insert|]. exists τ'.
      token_case τ τ'; [by rewrite Hτ in Hx|done].
    + intros [τ' Hx]. token_case τ τ'; [left; by injection Hx as ->|right; by exists τ'].
  - intros τ' s. token_case τ τ'; [intros [= <-]; lia|]. intros Hx. pose proof (I9 _ _ Hx). lia.
  - intros τ1 τ2 s. token_case τ τ1; token_case τ τ2; try done.
    + intros [= <-] Hx. pose proof (I9 _ _ Hx). lia.
    + intros Hx [= <-]. pose proof (I9 _ _ Hx). lia.
    + apply I10.
  - intros τ' s. token_case τ τ'; [done|apply I11].
  - intros τ' s o'. token_case τ τ'; [done|apply I12].
  - intros τ' o'. token_case τ τ'; [done|]. intros Hx. pose proof (I13 _ _ Hx). lia.
  - intros s Hs. destruct (decide (s = o)) as [->|Hne].
    + right; left. exists τ. by rewrite fn_lookup_insert.
    + destruct (I14 s) as [|[[τ' Hx]|[τ' Hx]]]; [lia|by left|right; left|right; right];
        exists τ'; (token_case τ τ'; [by rewrite Hτ in Hx|done]).
Qed.

Lemma inv_publish S L τ s o weak : inv S L → tokens S τ = Publishing s o → inv (publish τ s o weak S) L.
Proof.
  intros HI Hτ. pose proof HI as [I1 I2 I3 I4 I5 I6 I7 I8 I9 I10 I11 I12 I13 I14].
  pose proof (idle_token _ _ τ HI ltac:(by rewrite Hτ) ltac:(by rewrite Hτ)) as Hidle.
  pose proof (I12 τ s o Hτ) as Hle. pose proof (I9 τ s ltac:(by rewrite Hτ)) as Hs. unfold publish.
  destruct (N.ltb_spec o (s + 1)) as [Ho|Ho].
  2: { apply inv_stays; [done|by rewrite Hτ|done|done|intros ? [= <-]; lia|done..]. }
  destruct (N.eqb_spec (publishedDispatchHazardSlots_ S) o) as [He|He]; [destruct weak|]; cbn [andb negb].
  1,3: apply inv_stays; [done|by rewrite Hτ|done|done|done|by intros ? ? [= <- <-]|done].
  assert (inv (set_published (s + 1) S) L) as HP.
  { split; simpl; try done; [lia|intros x Hx; pose proof (I5 _ Hx); lia
      |intros τ' x Hx; pose proof (I7 _ _ Hx); lia|intros τ' x Hx; pose proof (I11 _ _ Hx); lia
      |intros τ' x o' Hx; pose proof (I12 _ _ _ Hx); lia]. }
  apply inv_stays; [done|simpl; by rewrite Hτ|done|done|intros ? [= <-]; simpl; lia|done..].
Qed.

Lemma inv_exit S S' L τ s : inv S L → tokens S τ = Holds s → releaseDispatchHazardSlot_ τ s S = Some S' →
  Treiber.single_popper (freelist S') → inv S' L.
Proof.
  intros HI Hτ. unfold releaseDispatchHazardSlot_.
  destruct (Treiber.do_step _ _) as [[e F]|] eqn:Hdo; [|done].
  intros [= <-] H1. simpl in H1. apply Treiber.freelist_do_step_sound in Hdo as Hst.
  pose proof (idle_token _ _ τ HI ltac:(by rewrite Hτ) ltac:(by rewrite Hτ)) as Hidle.
  destruct (Treiber.freelist_step_inv _ _ _ _ (iv_free _ _ HI) (iv_single_popper _ _ HI) Hst) as (L' & HL' & He).
  simpl in Hdo. rewrite Hidle in Hdo. destruct (_ && _); [|done]. injection Hdo as <- <-. subst L'.
  destruct HI as [I1 I2 I3 I4 I5 I6 I7 I8 I9 I10 I11 I12 I13 I14].
  split; simpl; try done.
  - intros τ'. token_case τ τ'; [done|apply I6].
  - intros τ' x. token_case τ τ'; [intros [= <-]; by apply (I11 τ)|apply I7].
  - intros x. rewrite elem_of_difference, elem_of_singleton, I8. split.
    + intros [[τ' Hx] Hne]. exists τ'. token_case τ τ'; [rewrite Hτ in Hx; by injection Hx as ->|done].
    + intros [τ' Hx]. token_case τ τ'; [done|]. split; [by exists τ'|]. intros ->.
      assert (τ' = τ); [|done]. apply (I10 τ' τ s); [done|by rewrite Hτ].
  - intros τ' x. token_case τ τ'; [done|apply I9].
  - intros τ1 τ2 x. token_case τ τ1; token_case τ τ2; try done. apply I10.
  - intros τ' x. token_case τ τ'; [done|apply I11].
  - intros τ' x o. token_case τ τ'; [done|apply I12].
  - intros τ' o. token_case τ τ'; [done|apply I13].
  - intros x Hx. destruct (I14 x Hx) as [Hin|[[τ' Hy]|[τ' Hy]]]; [by left|right|right; right].
    + destruct (decide (τ' = τ)) as [->|Hne].
      * right. exists τ. rewrite Hτ in Hy. injection Hy as <-. by rewrite fn_lookup_insert.
      * left. exists τ'. by rewrite fn_lookup_insert_ne.
    + exists τ'. token_case τ τ'; [by rewrite Hτ in Hy|done].
Qed.

(** The end of a push. *)
Lemma inv_pushed S L τ s F : inv S L → tokens S τ = Releasing s → Treiber.inv F (s :: L) →
  Treiber.single_popper F → (∀ τ', τ' ≠ τ → Treiber.threads F τ' = Treiber.threads (freelist S) τ') →
  Treiber.threads F τ = Treiber.Idle → Treiber.owned F = Treiber.owned (freelist S) →
  inv (goto τ Exited (set_freelist F S)) (s :: L).
Proof.
  intros [I1 I2 I3 I4 I5 I6 I7 I8 I9 I10 I11 I12 I13 I14] Hτ HF H1 Hoth Hidle Hown.
  assert (∀ τ', slot_of (<[τ := Exited]> (tokens S) τ') = slot_of (tokens S τ')) as Hslots.
  { intros τ'. token_case τ τ'; [by rewrite Hτ|done]. }
  split; simpl; try done.
  - intros x [->|Hx]%elem_of_cons; [by apply (I7 τ)|by apply I5].
  - intros τ'. token_case τ τ'; [done|]. rewrite Hoth by done. apply I6.
  - intros τ' x. token_case τ τ'; [done|apply I7].
  - intros x. rewrite Hown, I8. by setoid_rewrite Hslots.
  - intros τ' x. rewrite Hslots. apply I9.
  - intros τ1 τ2 x. rewrite !Hslots. apply I10.
  - intros τ' x. token_case τ τ'; [done|apply I11].
  - intros τ' x o. token_case τ τ'; [done|apply I12].
  - intros τ' o. token_case τ τ'; [done|apply I13].
  - intros x Hx. destruct (I14 x Hx) as [Hin|[[τ' Hy]|[τ' Hy]]].
    + left. by right.
    + right; left. exists τ'. by rewrite Hslots.
    + destruct (decide (τ' = τ)) as [->|Hne].
      * left. rewrite Hτ in Hy. injection Hy as <-. by left.
      * right; right. exists τ'. by rewrite fn_lookup_insert_ne.
Qed.

Lemma inv_releasing S S' L τ weak s : inv S L → tokens S τ = Releasing s → releasing τ weak s S = Some S' →
  Treiber.single_popper (freelist S') → ∃ L', inv S' L'.
Proof.
  intros HI Hτ. unfold releasing. destruct (turn τ weak (freelist S)) as [[e F]|] eqn:Hturn; [|done].
  intros [= <-] H1. simpl in H1. destruct (turn_local _ _ _ _ _ Hturn) as [Hoth Hloc].
  destruct (Treiber.freelist_step_inv _ _ _ _ (iv_free _ _ HI) (iv_single_popper _ _ HI)
    (turn_step _ _ _ _ _ Hturn)) as (L' & HL' & He).
  pose proof (iv_threads _ _ HI τ) as Hpush. rewrite Hτ in Hpush. simpl in Hpush.
  destruct e as [[x|x]|].
  - destruct Hloc as (Hpop & _). by destruct (Treiber.threads (freelist S) τ).
  - destruct Hloc as (Hpush' & Hidle & Hown). rewrite Hpush in Hpush'. injection Hpush' as <-. subst L'.
    exists (s :: L). by apply inv_pushed.
  - subst L'. destruct Hloc as (Hown & Hpush' & _). exists L.
    apply inv_inside; try done; rewrite ?Hτ; try done. simpl. by rewrite <-Hpush'.
Qed.

Lemma inv_exec e S S' L : inv S L → exec e S = Some S' → Treiber.single_popper (freelist S') → ∃ L', inv S' L'.
Proof.
  intros HI. destruct e as [τ weak|τ]; simpl; destruct (tokens S τ) as [| | |o|s|s o|s|s|] eqn:Hτ; try done.
  all: try (intros [= <-] _; exists L; apply inv_stays; [done|by rewrite Hτ|
    apply (idle_token _ _ τ HI); by rewrite Hτ|done|done|by intros ? ? [= <- <-]|by intros ? [= <-]]).
  - intros Hx H1. exists L. by apply (inv_recycle S S' L τ).
  - intros Hx H1. by apply (inv_recycling S S' L τ weak).
  - intros [= <-] _. exists L. by apply inv_claim.
  - intros [= <-] _. exists L. by apply inv_publish.
  - intros Hx H1. by apply (inv_releasing S S' L τ weak s).
  - intros Hx H1. exists L. by apply (inv_exit S S' L τ s).
Qed.

Lemma slots_reach_inv S : reach S → ∃ L, inv S L.
Proof.
  induction 1 as [|e S S' _ [L HI] He H1]; [exists []; apply inv_start|]. by apply (inv_exec e S S' L).
Qed.

(** A thread that has no slot yet, is inside [acquire] or gives its slot back can go on,
    and one that has its slot or none can exit. *)
Lemma exec_live S L τ : inv S L →
  (∀ s, tokens S τ ≠ Holds s) → tokens S τ ≠ Exited → is_Some (exec (Run τ false) S).
Proof.
  intros HI Hh Hx. pose proof (iv_threads _ _ HI τ) as Ht. simpl.
  destruct (tokens S τ) as [| | |o|s|s o|s|s|] eqn:Hτ; try (eexists; reflexivity).
  - unfold recycle. simpl in Ht |- *. rewrite Ht. (eexists; reflexivity).
  - unfold recycling, turn. simpl in Ht |- *.
    destruct (Treiber.threads (freelist S) τ); try done; try case_match; (eexists; reflexivity).
  - by destruct (Hh s).
  - unfold releasing, turn. simpl in Ht |- *.
    destruct (Treiber.threads (freelist S) τ); try done; try case_match; (eexists; reflexivity).
  - done.
Qed.

Lemma exit_live S L τ s : inv S L → tokens S τ = Holds s → is_Some (exec (Exit τ) S).
Proof.
  intros HI Hτ. simpl. rewrite Hτ. unfold releaseDispatchHazardSlot_. simpl.
  rewrite (idle_token _ _ τ HI) by by rewrite Hτ.
  rewrite bool_decide_true by (apply (iv_owned _ _ HI); exists τ; by rewrite Hτ).
  rewrite (proj2 (N.ltb_lt _ _)); [by eexists|].
  pose proof (iv_holds _ _ HI τ s Hτ). pose proof (iv_published _ _ HI). pose proof (iv_next _ _ HI).
  unfold kDispatchHazardSlotCount, kInvalidSlotId in *. lia.
Qed.

(** C39 Hazard slots have one owner while pops do not overlap: for any number of threads
    that start, take their slot at their first dispatch and exit, in every interleaving of
    the atomic accesses of the claims, publications, pushes and pops in which at most one
    pop is in flight ([Treiber.freelist_double_allocation] is what two of them can do), and
    with any spurious failures: no two threads have one slot; every slot in use is below the
    published count, which is within the table, so a writer that scans the published slots
    sees it; every slot that was handed out is free, somebody's or on its way back, and a
    free one is nobody's; a thread is sent to the locked dispatch only once the whole table
    was handed out; and a thread that is neither using its slot nor gone can go on, one
    that uses it can exit. *)
Theorem hazard_slots_exclusive (S : t) : reach S →
  (∀ τ τ' s, slot_of (tokens S τ) = Some s → slot_of (tokens S τ') = Some s → τ = τ') ∧
  (∀ τ s, tokens S τ = Holds s → s < publishedDispatchHazardSlots_ S) ∧
  publishedDispatchHazardSlots_ S ≤ nextDispatchHazardSlot_ S ≤ kDispatchHazardSlotCount ∧
  (∃ L, Treiber.represents (Treiber.shared (freelist S)) L ∧ ∀ s,
     (s < nextDispatchHazardSlot_ S ↔
        s ∈ L ∨ (∃ τ, slot_of (tokens S τ) = Some s) ∨ ∃ τ, tokens S τ = Releasing s) ∧
     (s ∈ L → ∀ τ, slot_of (tokens S τ) ≠ Some s ∧ tokens S τ ≠ Releasing s)) ∧
  (∀ τ o weak, tokens S τ = Claiming o → tokens (claim τ o weak S) τ = NoSlot →
     nextDispatchHazardSlot_ S = kDispatchHazardSlotCount) ∧
  (∀ τ, (∀ s, tokens S τ ≠ Holds s) → tokens S τ ≠ Exited → is_Some (exec (Run τ false) S)) ∧
  (∀ τ s, tokens S τ = Holds s → is_Some (exec (Exit τ) S)).
Proof.
  intros [L HI]%slots_reach_inv. pose proof HI as [I1 I2 I3 I4 I5 I6 I7 I8 I9 I10 I11 I12 I13 I14].
  split_and!; [done..| | |by intros τ; apply (exec_live S L)|by intros τ s; apply (exit_live S L)].
  - exists L. split; [by split; apply I1|]. intros s. split; [split; [apply I14|]|].
    + intros [Hs|[[τ Hτ]|[τ Hτ]]]; [pose proof (I5 s Hs); lia|by apply I9 in Hτ|pose proof (I7 _ _ Hτ); lia].
    + intros Hs τ. split; intros Hτ.
      * apply (Treiber.inv_owned _ _ I1 s Hs), I8. by exists τ.
      * pose proof (I6 τ) as Ht. rewrite Hτ in Ht. by destruct (Treiber.inv_push _ _ I1 τ s Ht) as [? _].
  - intros τ o weak Hτ. unfold claim. pose proof (I13 τ o Hτ) as Ho.
    destruct (N.ltb_spec o kDispatchHazardSlotCount) as [Hlt|Hge]; [|intros _; lia].
    destruct (_ && _); simpl; by rewrite fn_lookup_insert.
Qed.

(** ** Witness *)

(** The threads of a schedule, and whether at most one of them is inside a pop. *)
Definition poppingb (q : Treiber.pc) : bool :=
  match q with Treiber.PopLoop _ | Treiber.PopCas _ _ => true | _ => false end.

Definition apart (ts : list N) (S : t) : bool :=
  forallb (λ τ, forallb (λ τ', (τ =? τ') ||
    negb (poppingb (Treiber.threads (freelist S) τ) && poppingb (Treiber.threads (freelist S) τ'))) ts) ts.

Definition thread_of (e : event) : N := match e with Run τ _ | Exit τ => τ end.

Fixpoint run (ts : list N) (es : list event) (S : t) : option t :=
  match es with
  | [] => Some S
  | e :: es' => S' ← exec e S;
      if bool_decide (thread_of e ∈ ts) && apart ts S' then run ts es' S' else None
  end.

Lemma exec_others e S S' τ : exec e S = Some S' → τ ≠ thread_of e →
  Treiber.threads (freelist S') τ = Treiber.threads (freelist S) τ.
Proof.
  intros He Hne. destruct e as [τ' weak|τ']; simpl in He, Hne; destruct (tokens S τ') eqn:Hτ; try done.
  all: try (injection He as <-; try done; unfold claim, publish; by repeat case_match).
  - unfold recycle in He. simpl in He. destruct (Treiber.threads _ τ'); [|done..]. injection He as <-.
    simpl. by rewrite fn_lookup_insert_ne by congruence.
  - unfold recycling in He. destruct (turn τ' weak (freelist S)) as [[x F]|] eqn:Ht; [|done].
    injection He as <-. by apply (turn_local _ _ _ _ _ Ht).
  - unfold releasing in He. destruct (turn τ' weak (freelist S)) as [[x F]|] eqn:Ht; [|done].
    injection He as <-. by apply (turn_local _ _ _ _ _ Ht).
  - unfold releaseDispatchHazardSlot_ in He. simpl in He.
    destruct (Treiber.threads _ τ'); [|done..]. destruct (_ && _); [|done]. injection He as <-.
    simpl. by rewrite fn_lookup_insert_ne by congruence.
Qed.

Lemma slots_run_reach ts es : ∀ S S', reach S →
  (∀ τ, τ ∉ ts → Treiber.threads (freelist S) τ = Treiber.Idle) → run ts es S = Some S' → reach S'.
Proof.
  induction es as [|e es IH]; intros S S' HS Hidle; [by intros [= <-]|]. cbn [run].
  destruct (exec e S) as [S1|] eqn:He; cbn [mbind option_bind]; [|done].
  destruct (bool_decide _ && _) eqn:Hb; [|done]. apply andb_true_iff in Hb as [Hin%bool_decide_eq_true Hap].
  assert (∀ τ, τ ∉ ts → Treiber.threads (freelist S1) τ = Treiber.Idle) as Hidle1.
  { intros τ Hτ. rewrite (exec_others e S S1 τ He); [by apply Hidle|]. by intros ->. }
  apply IH; [|done]. apply (reach_step e S S1 HS He). intros τ τ' Hτ Hτ'.
  assert (∀ x, Treiber.popping (Treiber.threads (freelist S1) x) → x ∈ ts ∧
    poppingb (Treiber.threads (freelist S1) x) = true) as Hpop.
  { intros x Hx. split; [|by destruct (Treiber.threads (freelist S1) x)].
    destruct (decide (x ∈ ts)) as [|Hn]; [done|]. by rewrite (Hidle1 x Hn) in Hx. }
  destruct (Hpop τ Hτ) as [H1 P1], (Hpop τ' Hτ') as [H2 P2].
  unfold apart in Hap. rewrite forallb_forall in Hap. specialize (Hap τ (proj1 (list_elem_of_In _ _) H1)).
  rewrite forallb_forall in Hap. specialize (Hap τ' (proj1 (list_elem_of_In _ _) H2)).
  rewrite P1, P2 in Hap. destruct (N.eqb_spec τ τ'); done.
Qed.

(** Two threads take slots 0 and 1, the second publishes first; the first exits and a
    third thread recycles its slot. *)
Definition schedule : list event :=
  [Run 1 false; Run 1 false; Run 2 false; Run 2 false; Run 1 false; Run 1 true; Run 1 false;
   Run 2 false; Run 2 false; Run 2 false; Run 2 true; Run 2 false; Run 1 false; Run 1 true;
   Exit 1; Run 1 false; Run 1 false; Run 3 false; Run 3 false; Run 3 true; Run 3 false; Run 3 false].

Lemma hazard_slots_exclusive_witness :
  match run [1; 2; 3] schedule start with
  | Some R => tokens R 3 = Holds 0 ∧ tokens R 2 = Holds 1 ∧ publishedDispatchHazardSlots_ R ≤ kDispatchHazardSlotCount ∧
      ∀ τ, slot_of (tokens R τ) = Some 0 → τ = 3
  | None => False
  end.
Proof.
  assert (match run [1; 2; 3] schedule start with
    | Some R => match tokens R 3, tokens R 2 with Holds 0, Holds 1 => true | _, _ => false end
    | None => false end = true) as Hok by (vm_compute; reflexivity).
  destruct (run [1; 2; 3] schedule start) as [R|] eqn:Hrun; [|discriminate Hok].
  assert (reach R) as HR by (apply (slots_run_reach [1; 2; 3] schedule start R reach_start); [reflexivity|exact Hrun]).
  destruct (hazard_slots_exclusive R HR) as (Hone & _ & [Hp Hn] & _).
  destruct (tokens R 3) as [| | | | | |[|?]| |] eqn:H3; try discriminate Hok.
  destruct (tokens R 2) as [| | | | | |[|[| |]]| |] eqn:H2; try discriminate Hok.
  split; [reflexivity|]. split; [reflexivity|]. split; [by etransitivity|].
  intros τ Hτ. apply (Hone τ 3 0 Hτ). rewrite H3. reflexivity.
Defined.
End HazardSlots.
