(* ===== verification/Claims.v ===== *)
(** Claims: how threads agree on who constructs a bean.

    [Module Tokens] models the process-wide thread tokens of
    [RegistryResolutionImpl.hpp] ([materializationThreadToken],
    [recycleMaterializationThreadToken]).  [Module Claims] models the in-flight
    table [materializing_], the wait-edge slots, the wait-graph walk
    [materializationWaitCycleDetected] and [claimMaterializationOrWait] as steps
    of concurrent threads; every step is one critical section of [writeLock_]. *)
From S2P Require Import Prelude.
From stdpp Require Import functions relations.

Local Open Scope N_scope.

(** * Thread tokens *)

Module Tokens.

Definition kNoMaterializationThreadToken : N := 0.

(** The statics of [Registry]: the counter and the freelist, whose last element
    is [back()]. *)
Record pool : Type := {
  nextMaterializationThreadToken_ : N;
  freeMaterializationThreadTokens_ : list N
}.

Definition init : pool :=
  {| nextMaterializationThreadToken_ := 0; freeMaterializationThreadTokens_ := [] |}.

(** [mine] is the calling thread's [TLCleanup::materializationThreadToken]. *)
Definition materializationThreadToken (mine : N) (P : pool) : N * pool :=
  if negb (mine =? kNoMaterializationThreadToken) then (mine, P)
  else
    match last (freeMaterializationThreadTokens_ P) with
    | Some token =>
        (token,
         {| nextMaterializationThreadToken_ := nextMaterializationThreadToken_ P;
            freeMaterializationThreadTokens_ :=
              take (length (freeMaterializationThreadTokens_ P) - 1)
                   (freeMaterializationThreadTokens_ P) |})
    | None =>
        (u32 (nextMaterializationThreadToken_ P + 1),
         {| nextMaterializationThreadToken_ := u32 (nextMaterializationThreadToken_ P + 1);
            freeMaterializationThreadTokens_ := freeMaterializationThreadTokens_ P |})
    end.

Definition recycleMaterializationThreadToken (token : N) (P : pool) : pool :=
  if token =? kNoMaterializationThreadToken then P
  else {| nextMaterializationThreadToken_ := nextMaterializationThreadToken_ P;
          freeMaterializationThreadTokens_ := freeMaterializationThreadTokens_ P ++ [token] |}.

(** The threads of the process: [held] gives the token cached by each. *)
Record sys : Type := { thread_pool : pool; held : gmap nat N }.

Inductive op : Type :=
| Touch (thread : nat)
| Exit (thread : nat).

Definition token_of (S : sys) (thread : nat) : N :=
  default kNoMaterializationThreadToken (held S !! thread).

(** [Touch] is the first claim of a thread, [Exit] its [~TLCleanup]. *)
Definition exec (o : op) (S : sys) : sys :=
  match o with
  | Touch i =>
      let '(token, P) := materializationThreadToken (token_of S i) (thread_pool S) in
      {| thread_pool := P; held := <[i := token]> (held S) |}
  | Exit i =>
      {| thread_pool := recycleMaterializationThreadToken (token_of S i) (thread_pool S);
         held := delete i (held S) |}
  end.

Definition start : sys := {| thread_pool := init; held := ∅ |}.

Definition run (ops : list op) : sys := foldl (λ S o, exec o S) start ops.

(** ** Invariant: the counter's range is split among the threads and the freelist *)

Record ok (S : sys) : Prop := {
  ok_range i token : held S !! i = Some token →
    0 < token ∧ token ≤ nextMaterializationThreadToken_ (thread_pool S);
  ok_free token : token ∈ freeMaterializationThreadTokens_ (thread_pool S) →
    0 < token ∧ token ≤ nextMaterializationThreadToken_ (thread_pool S);
  ok_inj i j token : held S !! i = Some token → held S !! j = Some token → i = j;
  ok_nodup : NoDup (freeMaterializationThreadTokens_ (thread_pool S));
  ok_disjoint i token : held S !! i = Some token →
    token ∉ freeMaterializationThreadTokens_ (thread_pool S)
}.

Lemma ok_start : ok start.
Proof.
  split; simpl; try (intros *; rewrite ?lookup_empty); try done; [set_solver|constructor].
Qed.

Lemma last_split {A} (l : list A) (x : A) :
  last l = Some x → l = take (length l - 1) l ++ [x].
Proof.
  intros H. apply last_Some in H as [l' ->].
  rewrite length_app; simpl. rewrite Nat.add_sub, take_app_length. done.
Qed.

Lemma ok_touch S i :
  ok S → nextMaterializationThreadToken_ (thread_pool S) + 1 < two32 → ok (exec (Touch i) S).
Proof.
  intros H Hb. simpl. unfold materializationThreadToken, token_of.
  destruct (held S !! i) as [token|] eqn:E; simpl.
  - destruct (ok_range _ H _ _ E) as [Hpos _].
    destruct (N.eqb_spec token kNoMaterializationThreadToken) as [->|Hne]; [done|]. simpl.
    rewrite insert_id by done. destruct S; done.
  - destruct (last (freeMaterializationThreadTokens_ (thread_pool S))) as [token|] eqn:El.
    + pose proof (last_split _ _ El) as Hl.
      set (fr := freeMaterializationThreadTokens_ (thread_pool S)) in *.
      set (rest := take (length fr - 1) fr) in *.
      pose proof (ok_nodup _ H) as Hnd. fold fr in Hnd. rewrite Hl in Hnd.
      apply NoDup_app in Hnd as (Hnd1 & Hnd2 & _).
      assert (Hin : ∀ x, x ∈ rest → x ∈ fr) by (rewrite Hl; set_solver).
      assert (Htok : token ∈ fr) by (rewrite Hl; set_solver).
      split; simpl; fold fr; fold rest.
      * intros j tk [[<- <-]|[Hj Htk]]%lookup_insert_Some; [by apply (ok_free _ H)|].
        by apply (ok_range _ H j).
      * intros tk Htk. apply (ok_free _ H). by apply Hin.
      * intros j k tk Hj Hk.
        apply lookup_insert_Some in Hj as [[<- <-]|[Hj Htk]];
          apply lookup_insert_Some in Hk as [[<- Hk']|[Hk Htk']]; simplify_eq; try done.
        -- by destruct (ok_disjoint _ H _ _ Htk').
        -- by destruct (ok_disjoint _ H _ _ Htk).
        -- by eapply (ok_inj _ H).
      * done.
      * intros j tk [[<- <-]|[Hj Htk]]%lookup_insert_Some.
        -- intros Hr. apply (Hnd2 _ Hr). set_solver.
        -- intros Hr%Hin. by apply (ok_disjoint _ H _ _ Htk).
    + rewrite u32_small by done. set (n := nextMaterializationThreadToken_ (thread_pool S)) in *.
      split; simpl; fold n.
      * intros j tk [[<- <-]|[Hj Htk]]%lookup_insert_Some; [lia|].
        apply (ok_range _ H) in Htk. fold n in Htk. lia.
      * intros tk Htk. apply (ok_free _ H) in Htk. fold n in Htk. lia.
      * intros j k tk Hj Hk.
        apply lookup_insert_Some in Hj as [[<- <-]|[Hj Htk]];
          apply lookup_insert_Some in Hk as [[<- Hk']|[Hk Htk']]; simplify_eq; try done.
        -- apply (ok_range _ H) in Htk'. fold n in Htk'. lia.
        -- apply (ok_range _ H) in Htk. fold n in Htk. lia.
        -- by eapply (ok_inj _ H).
      * apply (ok_nodup _ H).
      * intros j tk [[<- <-]|[Hj Htk]]%lookup_insert_Some.
        -- intros Hr. apply (ok_free _ H) in Hr. fold n in Hr. lia.
        -- by apply (ok_disjoint _ H j).
Qed.

Lemma ok_exit S i : ok S → ok (exec (Exit i) S).
Proof.
  intros H. simpl. unfold recycleMaterializationThreadToken, token_of.
  destruct (held S !! i) as [token|] eqn:E; simpl.
  - destruct (ok_range _ H _ _ E) as [Hpos Hle].
    destruct (N.eqb_spec token kNoMaterializationThreadToken) as [->|Hne]; [done|].
    split; simpl.
    + intros j tk [_ Htk]%lookup_delete_Some. by apply (ok_range _ H j).
    + intros tk [Htk| ->%list_elem_of_singleton]%elem_of_app; [by apply (ok_free _ H)|done].
    + intros j k tk [_ Hj]%lookup_delete_Some [_ Hk]%lookup_delete_Some.
      by eapply (ok_inj _ H).
    + apply NoDup_app. split_and!; [apply (ok_nodup _ H)| |by apply NoDup_singleton].
      intros x Hx ->%list_elem_of_singleton. by apply (ok_disjoint _ H _ _ E).
    + intros j tk [Hne' Htk]%lookup_delete_Some [Hf| ->%list_elem_of_singleton]%elem_of_app.
      * by apply (ok_disjoint _ H _ _ Htk).
      * by apply Hne', (ok_inj _ H _ _ _ E Htk).
  - rewrite delete_id by done. destruct S; done.
Qed.

(** A new token is taken from the counter at most once per [Touch]. *)
Lemma next_touch S i :
  nextMaterializationThreadToken_ (thread_pool S) + 1 < two32 →
  nextMaterializationThreadToken_ (thread_pool (exec (Touch i) S)) ≤
  nextMaterializationThreadToken_ (thread_pool S) + 1.
Proof.
  intros H. simpl. unfold materializationThreadToken.
  destruct (negb _); simpl; [lia|]. destruct (last _); simpl; [lia|]. rewrite u32_small by done. lia.
Qed.

Lemma next_exit S i :
  nextMaterializationThreadToken_ (thread_pool (exec (Exit i) S)) =
  nextMaterializationThreadToken_ (thread_pool S).
Proof. simpl. unfold recycleMaterializationThreadToken. by case_match. Qed.

Lemma run_snoc ops o : run (ops ++ [o]) = exec o (run ops).
Proof. unfold run. by rewrite foldl_app. Qed.

Lemma run_ok ops :
  N.of_nat (length ops) < two32 - 1 →
  ok (run ops) ∧
  nextMaterializationThreadToken_ (thread_pool (run ops)) ≤ N.of_nat (length ops).
Proof.
  induction ops as [|o ops IH] using rev_ind; intros Hlen.
  - split; [apply ok_start|done].
  - rewrite length_app in Hlen |- *. simpl in *. destruct IH as [Hok Hn]; [lia|].
    assert (Hb : nextMaterializationThreadToken_ (thread_pool (run ops)) + 1 < two32).
    { unfold two32 in *. lia. }
    rewrite run_snoc. destruct o as [i|i].
    + split; [by apply ok_touch|]. pose proof (next_touch _ i Hb). lia.
    + split; [by apply ok_exit|]. rewrite next_exit. lia.
Qed.

(** Two live threads never hold the same materialization token, no token is
    the reserved 0, and a live thread's token is never at the same time on the
    recycling freelist, over every interleaving of first uses and thread exits
    that does not exhaust the 32-bit counter. *)
Theorem thread_tokens_unique (ops : list op) (i j : nat) (a b : N) :
  N.of_nat (length ops) < two32 - 1 →
  held (run ops) !! i = Some a → held (run ops) !! j = Some b → i ≠ j →
  a ≠ b ∧ a ≠ kNoMaterializationThreadToken ∧
  a ∉ freeMaterializationThreadTokens_ (thread_pool (run ops)).
Proof.
  intros Hlen Hi Hj Hne. destruct (run_ok ops Hlen) as [H _]. split_and!.
  - intros <-. by apply Hne, (ok_inj _ H _ _ a).
  - apply (ok_range _ H) in Hi. unfold kNoMaterializationThreadToken. lia.
  - by apply (ok_disjoint _ H i).
Qed.

End Tokens.

(** * Graphs of waiting threads *)

Section acyclic.
Context {A : Type}.
Implicit Types (R : A → A → Prop) (x y o : A).

Lemma wf_no_cycle R x : Acc (flip R) x → ¬ tc R x x.
Proof.
  induction 1 as [x _ IH]. intros Hc.
  assert (∃ y, R x y ∧ rtc R y x) as (y & Hxy & Hyx).
  { inversion Hc; subst; [by exists x; split|].
    eexists; split; [done|]. by apply tc_rtc. }
  apply (IH y Hxy). eapply tc_rtc_l; [done|]. by apply tc_once.
Qed.

Lemma wf_weaken R R' :
  (∀ x y, R' x y → R x y) → well_founded (flip R) → well_founded (flip R').
Proof.
  intros Hsub Hwf x. induction (Hwf x) as [x _ IH]. constructor. intros y Hy.
  apply IH. by apply Hsub.
Qed.

(** Adding edges into [o] from nodes [o] does not reach keeps a graph acyclic. *)
Lemma wf_add_edges R R' o :
  (∀ x y, R' x y → R x y ∨ (y = o ∧ ¬ rtc R o x)) →
  well_founded (flip R) → well_founded (flip R').
Proof.
  intros Hsub Hwf.
  assert (Hreach : ∀ x, rtc R o x → Acc (flip R') x).
  { intros x. induction (Hwf x) as [x _ IH]; intros Hx. constructor; intros y Hy.
    destruct (Hsub _ _ Hy) as [Hr|[_ []]]; [|done].
    apply IH; [done|]. by eapply rtc_r. }
  intros x. induction (Hwf x) as [x _ IH]. constructor; intros y Hy.
  destruct (Hsub _ _ Hy) as [Hr|[-> _]]; [by apply IH|]. by apply Hreach.
Qed.

(** The nodes of a path in an acyclic graph are distinct. *)
Lemma path_nodes R (P : A → Prop) n x y :
  well_founded (flip R) → (∀ a b, R a b → P b) → P x → nsteps R n x y →
  ∃ l, length l = S n ∧ NoDup l ∧ (∀ z, z ∈ l → P z ∧ rtc R x z).
Proof.
  intros Hwf HP Hx. intros H. induction H as [x|n x z y Hxz Hzy IH].
  - exists [x]. split_and!; [done|by apply NoDup_singleton|].
    intros ? ->%list_elem_of_singleton. by split.
  - destruct IH as (l & Hlen & Hnd & Hl); [by eapply HP|].
    exists (x :: l). split_and!; [simpl; by f_equal| |].
    + constructor; [|done]. intros [_ Hin]%Hl. apply (wf_no_cycle R x (Hwf x)).
      eapply tc_rtc_r; [by apply tc_once|done].
    + intros u [->|Hu]%elem_of_cons; [by split|]. destruct (Hl u Hu) as [? ?].
      split; [done|]. by eapply rtc_l.
Qed.

(** In an acyclic graph with decidable successors every path can be followed to
    a node without a successor. *)
Lemma wf_sink R x :
  well_founded (flip R) → (∀ a, (∃ b, R a b) ∨ (∀ b, ¬ R a b)) →
  ∃ y, rtc R x y ∧ ∀ z, ¬ R y z.
Proof.
  intros Hwf Hdec. induction (Hwf x) as [x _ IH].
  destruct (Hdec x) as [[y Hxy]|Hno]; [|by exists x].
  destruct (IH y Hxy) as (z & Hyz & Hz). exists z. split; [by eapply rtc_l|done].
Qed.
End acyclic.

(** * Claims *)

Module Claims.
Import Tokens.

(** ** Data *)

Definition kMaterializationWaitChunkSize : N := 256.

(** The scope is a pointer: [nullptr] for singletons. *)
Record MaterializationKey : Type := Key {
  key_descId : DescriptorId;
  key_scope : ptr
}.

#[export] Instance key_eq_dec : EqDecision MaterializationKey.
Proof. solve_decision. Defined.

#[export] Instance key_countable : Countable MaterializationKey.
Proof.
  refine (inj_countable' (λ k, (key_descId k, key_scope k)) (λ p, Key p.1 p.2) _).
  by intros [].
Defined.

Record MaterializingEntry : Type := Entry {
  entry_key : MaterializationKey;
  threadToken : N
}.

Record MaterializationWait : Type := Wait_ {
  wait_key : MaterializationKey;
  active : bool
}.

(** [MaterializationWait{}] *)
Definition no_wait : MaterializationWait := Wait_ (Key kInvalidDescriptorId nullptr) false.

Abbreviation MaterializationWaitChunk := (list MaterializationWait) (only parsing).

Definition new_wait_chunk : MaterializationWaitChunk :=
  replicate (N.to_nat kMaterializationWaitChunkSize) no_wait.

(** The fields of [Registry] guarded by [writeLock_] (the owning vector of
    chunks is represented by its size). *)
Record t : Type := {
  materializing_ : list MaterializingEntry;
  waitingByThreadChunks_ : list MaterializationWaitChunk;
  ownedWaitingByThreadChunks_ : N;
  waitingByThreadCapacity_ : N
}.

Definition empty : t :=
  {| materializing_ := []; waitingByThreadChunks_ := [];
     ownedWaitingByThreadChunks_ := 0; waitingByThreadCapacity_ := 0 |}.

Definition with_chunks (c : list MaterializationWaitChunk) (S : t) : t :=
  {| materializing_ := materializing_ S; waitingByThreadChunks_ := c;
     ownedWaitingByThreadChunks_ := ownedWaitingByThreadChunks_ S;
     waitingByThreadCapacity_ := waitingByThreadCapacity_ S |}.

Definition with_materializing (l : list MaterializingEntry) (S : t) : t :=
  {| materializing_ := l; waitingByThreadChunks_ := waitingByThreadChunks_ S;
     ownedWaitingByThreadChunks_ := ownedWaitingByThreadChunks_ S;
     waitingByThreadCapacity_ := waitingByThreadCapacity_ S |}.

(** ** Wait slots; [None] is a failed [assert] *)

Definition hasMaterializationWaitSlot (S : t) (token : N) : bool :=
  token <? waitingByThreadCapacity_ S.

Definition materializationWaitSlot (S : t) (token : N) : option MaterializationWait :=
  chunk ← vat (waitingByThreadChunks_ S) (token / kMaterializationWaitChunkSize);
  vat chunk (token mod kMaterializationWaitChunkSize).

(** An assignment to the reference [materializationWaitSlot] returns. *)
Definition setMaterializationWaitSlot (token : N) (w : MaterializationWait) (S : t) : option t :=
  chunk ← vat (waitingByThreadChunks_ S) (token / kMaterializationWaitChunkSize);
  Some (with_chunks
    (vset (token / kMaterializationWaitChunkSize)
          (vset (token mod kMaterializationWaitChunkSize) w chunk)
          (waitingByThreadChunks_ S)) S).

Definition ensureMaterializationWaitSlot (token : N) (S : t) : t :=
  let requiredSlotCount := token + 1 in
  if requiredSlotCount <=? waitingByThreadCapacity_ S then S
  else
    let requiredChunkCount :=
      (requiredSlotCount + kMaterializationWaitChunkSize - 1) / kMaterializationWaitChunkSize in
    let newChunks :=
      replicate (N.to_nat requiredChunkCount - length (waitingByThreadChunks_ S)) new_wait_chunk in
    let grown := waitingByThreadChunks_ S ++ newChunks in
    {| materializing_ := materializing_ S; waitingByThreadChunks_ := grown;
       ownedWaitingByThreadChunks_ := ownedWaitingByThreadChunks_ S + nlen newChunks;
       waitingByThreadCapacity_ := nlen grown * kMaterializationWaitChunkSize |}.

Definition clearMaterializationWaitSlot (token : N) (S : t) : option t :=
  if token =? kNoMaterializationThreadToken then Some S
  else if hasMaterializationWaitSlot S token then setMaterializationWaitSlot token no_wait S
  else Some S.

(** ** The in-flight table *)

Definition find_entry (key : MaterializationKey) (l : list MaterializingEntry) :
    option (nat * MaterializingEntry) :=
  list_find (λ e, entry_key e = key) l.

(** [*it = materializing_.back(); materializing_.pop_back();] *)
Definition release_entry (key : MaterializationKey) (l : list MaterializingEntry) :
    list MaterializingEntry :=
  match find_entry key l, last l with
  | Some (i, _), Some back => take (length l - 1) (<[i := back]> l)
  | _, _ => l
  end.

(** [vector::pop_back] *)
Definition pop_back {A} (l : list A) : list A := take (length l - 1) l.

(** ** The wait-graph walk *)

Fixpoint wait_walk (steps : nat) (S : t) (currentThreadToken token : N) : option bool :=
  match steps with
  | O => Some false
  | Datatypes.S steps' =>
      if token =? currentThreadToken then Some true
      else if (token =? kNoMaterializationThreadToken)
              || negb (hasMaterializationWaitSlot S token) then Some false
      else
        wait ← materializationWaitSlot S token;
        if negb (active wait) then Some false
        else
          match find_entry (wait_key wait) (materializing_ S) with
          | None => Some false
          | Some (_, owner) => wait_walk steps' S currentThreadToken (threadToken owner)
          end
  end.

Definition materializationWaitCycleDetected (currentThreadToken ownerThreadToken : N)
    (S : t) : option bool :=
  wait_walk (length (materializing_ S)) S currentThreadToken ownerThreadToken.

(** ** [claimMaterializationOrWait] *)

(** How one pass over the loop ends: [return false], [return true], one of the
    two [ResolutionError]s, or [cv_.wait]. *)
Inductive verdict : Type :=
| AlreadyThere
| Claimed
| IntraThreadCycle
| CrossThreadCycle
| MustWait.

#[export] Instance verdict_eq_dec : EqDecision verdict.
Proof. solve_decision. Defined.

(** The body of [while (true)]; [existing] is [findExisting() != nullptr]. *)
Definition claim_iteration (currentThreadToken : N) (stack : list DescriptorId)
    (key : MaterializationKey) (existing : bool) (S : t) :
    option (verdict * list DescriptorId * t) :=
  if existing then Some (AlreadyThere, stack, S)
  else
    match find_entry key (materializing_ S) with
    | None =>
        if decide (key_descId key ∈ stack) then Some (IntraThreadCycle, stack, S)
        else Some (Claimed, stack ++ [key_descId key],
                   with_materializing (materializing_ S ++ [Entry key currentThreadToken]) S)
    | Some (_, owner) =>
        if threadToken owner =? currentThreadToken then Some (IntraThreadCycle, stack, S)
        else
          cycle ← (match stack with
                   | [] => Some false
                   | _ :: _ =>
                       materializationWaitCycleDetected currentThreadToken (threadToken owner) S
                   end);
          if cycle : bool then Some (CrossThreadCycle, stack, S)
          else
            S' ← setMaterializationWaitSlot currentThreadToken (Wait_ key true) S;
            Some (MustWait, stack, S')
    end.

(** From the call to the first [cv_.wait] or the return. *)
Definition claim_enter (currentThreadToken : N) (stack : list DescriptorId)
    (key : MaterializationKey) (existing : bool) (S : t) :
    option (verdict * list DescriptorId * t) :=
  S1 ← setMaterializationWaitSlot currentThreadToken no_wait
         (ensureMaterializationWaitSlot currentThreadToken S);
  if decide (key_descId key ∈ stack) then Some (IntraThreadCycle, stack, S1)
  else claim_iteration currentThreadToken stack key existing S1.

(** From the return of [cv_.wait] to the next one or the return. *)
Definition claim_wake (currentThreadToken : N) (stack : list DescriptorId)
    (key : MaterializationKey) (existing : bool) (S : t) :
    option (verdict * list DescriptorId * t) :=
  w ← materializationWaitSlot S currentThreadToken;
  S1 ← setMaterializationWaitSlot currentThreadToken (Wait_ (wait_key w) false) S;
  claim_iteration currentThreadToken stack key existing S1.

(** Phase 3, and the [catch] block of phase 2: drop the claim. *)
Definition release (key : MaterializationKey) (S : t) : t :=
  with_materializing (release_entry key (materializing_ S)) S.

(** [CycleGuard]'s constructor; [None] is the [ResolutionError]. *)
Definition cycle_guard (id : DescriptorId) (stack : list DescriptorId) :
    option (list DescriptorId) :=
  if decide (id ∈ stack) then None else Some (stack ++ [id]).

(** ** Threads

    A thread inside the container has a call stack of constructions: [Owning k]
    while it runs the constructor of the bean it claimed, [Guarding d] inside a
    prototype's or thread-local bean's [CycleGuard].  [stack] is its
    [materializationStack()]. *)

Inductive frame : Type :=
| Owning (key : MaterializationKey)
| Guarding (id : DescriptorId).

#[export] Instance frame_eq_dec : EqDecision frame.
Proof. solve_decision. Defined.

Definition frame_id (f : frame) : DescriptorId :=
  match f with Owning k => key_descId k | Guarding d => d end.

(** [Waiting k n]: inside [cv_.wait] for [k]; [n] tells whether a notification
    has reached the thread.  [Notifying]: between the release of [writeLock_]
    and [cv_.notify_all()]. *)
Inductive pc : Type :=
| Running
| Waiting (key : MaterializationKey) (notified : bool)
| Notifying.

Record thread : Type := {
  stack : list DescriptorId;
  frames : list frame;
  at_pc : pc
}.

Definition idle : thread := {| stack := []; frames := []; at_pc := Running |}.

(** [stored] are the keys whose [findExisting] finds an instance. *)
Record sys : Type := {
  registry : t;
  stored : gset MaterializationKey;
  threads : N → thread
}.

Definition init : sys := {| registry := empty; stored := ∅; threads := λ _, idle |}.

Definition is_stored (S : sys) (k : MaterializationKey) : bool := bool_decide (k ∈ stored S).

(** The thread after a pass over the loop. *)
Definition after_claim (T : thread) (key : MaterializationKey) (v : verdict)
    (stack' : list DescriptorId) : thread :=
  {| stack := stack';
     frames := match v with Claimed => Owning key :: frames T | _ => frames T end;
     at_pc := match v with MustWait => Waiting key false | _ => Running end |}.

Definition wake_all (T : thread) : thread :=
  match at_pc T with
  | Waiting k _ => {| stack := stack T; frames := frames T; at_pc := Waiting k true |}
  | _ => T
  end.

Inductive event : Type :=
| EClaim (τ : N) (key : MaterializationKey)
| EWake (τ : N)
| EStore (τ : N)
| EFail (τ : N)
| ENotify (τ : N)
| EGuard (τ : N) (id : DescriptorId)
| EUnguard (τ : N)
| EDrop (key : MaterializationKey).

Definition set_thread (τ : N) (T : thread) (S : sys) : sys :=
  {| registry := registry S; stored := stored S; threads := <[τ := T]> (threads S) |}.

(** One step; [None] when the step is not possible in the state (or an
    assertion of the code fails).  [EDrop] is the removal of an instance when a
    scope or the registry stops. *)
Definition exec (e : event) (S : sys) : option sys :=
  match e with
  | EClaim τ key =>
      match at_pc (threads S τ) with
      | Running =>
          if τ =? kNoMaterializationThreadToken then None
          else
            '(v, stack', R) ← claim_enter τ (stack (threads S τ)) key (is_stored S key) (registry S);
            Some {| registry := R; stored := stored S;
                    threads := <[τ := after_claim (threads S τ) key v stack']> (threads S) |}
      | _ => None
      end
  | EWake τ =>
      match at_pc (threads S τ) with
      | Waiting key _ =>
          '(v, stack', R) ← claim_wake τ (stack (threads S τ)) key (is_stored S key) (registry S);
          Some {| registry := R; stored := stored S;
                  threads := <[τ := after_claim (threads S τ) key v stack']> (threads S) |}
      | _ => None
      end
  | EStore τ =>
      match at_pc (threads S τ), frames (threads S τ) with
      | Running, Owning key :: fs =>
          Some {| registry := release key (registry S); stored := {[key]} ∪ stored S;
                  threads := <[τ := {| stack := pop_back (stack (threads S τ)); frames := fs;
                                       at_pc := Notifying |}]> (threads S) |}
      | _, _ => None
      end
  | EFail τ =>
      match at_pc (threads S τ), frames (threads S τ) with
      | Running, Owning key :: fs =>
          Some {| registry := release key (registry S); stored := stored S;
                  threads := <[τ := {| stack := pop_back (stack (threads S τ)); frames := fs;
                                       at_pc := Notifying |}]> (threads S) |}
      | _, _ => None
      end
  | ENotify τ =>
      match at_pc (threads S τ) with
      | Notifying =>
          Some {| registry := registry S; stored := stored S;
                  threads := λ σ, if decide (σ = τ)
                                  then {| stack := stack (threads S τ);
                                          frames := frames (threads S τ); at_pc := Running |}
                                  else wake_all (threads S σ) |}
      | _ => None
      end
  | EGuard τ id =>
      match at_pc (threads S τ) with
      | Running =>
          if τ =? kNoMaterializationThreadToken then None
          else
            stack' ← cycle_guard id (stack (threads S τ));
            Some (set_thread τ {| stack := stack'; frames := Guarding id :: frames (threads S τ);
                                  at_pc := Running |} S)
      | _ => None
      end
  | EUnguard τ =>
      match at_pc (threads S τ), frames (threads S τ) with
      | Running, Guarding _ :: fs =>
          Some (set_thread τ {| stack := pop_back (stack (threads S τ)); frames := fs;
                                at_pc := Running |} S)
      | _, _ => None
      end
  | EDrop key =>
      Some {| registry := registry S; stored := stored S ∖ {[key]}; threads := threads S |}
  end.

Fixpoint run (es : list event) (S : sys) : option sys :=
  match es with
  | [] => Some S
  | e :: es' => S' ← exec e S; run es' S'
  end.

Definition reachable (S : sys) : Prop := ∃ es, run es init = Some S.

(** [a] waits for a bean whose claim [b] holds. *)
Definition waits_for (S : sys) (a b : N) : Prop :=
  ∃ k n, at_pc (threads S a) = Waiting k n ∧ Entry k b ∈ materializing_ (registry S).

(** ** Wait slots *)

Record wf_slots (S : t) : Prop := {
  wf_capacity : waitingByThreadCapacity_ S =
    nlen (waitingByThreadChunks_ S) * kMaterializationWaitChunkSize;
  wf_chunks c : c ∈ waitingByThreadChunks_ S → nlen c = kMaterializationWaitChunkSize
}.

(** The key the slot of a token says the thread waits for. *)
Definition slot_key (S : t) (token : N) : option MaterializationKey :=
  w ← materializationWaitSlot S token; if active w then Some (wait_key w) else None.

Lemma has_slot_is_Some S token :
  wf_slots S →
  hasMaterializationWaitSlot S token = true ↔ is_Some (materializationWaitSlot S token).
Proof.
  intros [Hc Hk]. unfold hasMaterializationWaitSlot, materializationWaitSlot.
  rewrite N.ltb_lt, Hc. unfold kMaterializationWaitChunkSize in *. split.
  - intros H.
    destruct (vat (waitingByThreadChunks_ S) (token / 256)) as [c|] eqn:E; simpl.
    + apply vat_is_Some. rewrite Hk.
      * apply N.mod_lt; lia.
      * rewrite vat_lookup in E. by eapply list_elem_of_lookup_2.
    + apply vat_None in E. exfalso.
      assert (nlen (waitingByThreadChunks_ S) * 256 ≤ token / 256 * 256) by lia.
      pose proof (N.Div0.mul_div_le token 256). lia.
  - intros [w H].
    destruct (vat (waitingByThreadChunks_ S) (token / 256)) as [c|] eqn:E; [|done].
    apply vat_lt in E. pose proof (N.div_mod token 256) as Hd.
    pose proof (N.mod_lt token 256). lia.
Qed.

Lemma set_slot_spec S token w :
  wf_slots S → hasMaterializationWaitSlot S token = true →
  ∃ S', setMaterializationWaitSlot token w S = Some S' ∧ wf_slots S' ∧
    materializing_ S' = materializing_ S ∧
    (∀ σ, hasMaterializationWaitSlot S' σ = hasMaterializationWaitSlot S σ) ∧
    slot_key S' token = (if active w then Some (wait_key w) else None) ∧
    (∀ σ, σ ≠ token → slot_key S' σ = slot_key S σ).
Proof.
  intros Hwf Hhas. pose proof Hhas as [w0 Hw0]%has_slot_is_Some; [|done].
  unfold setMaterializationWaitSlot, slot_key, materializationWaitSlot in *.
  destruct (vat (waitingByThreadChunks_ S) (token / kMaterializationWaitChunkSize))
    as [c|] eqn:E; [|done]. simpl in *.
  pose proof (vat_lt _ _ _ E) as Hlt. pose proof (vat_lt _ _ _ Hw0) as Hlt'.
  eexists; split_and!; [done| |done|done| |].
  - destruct Hwf as [Hc Hk]. split; simpl; [by rewrite nlen_vset|].
    intros c' Hc'. rewrite vset_insert in Hc'.
    apply list_elem_of_lookup in Hc' as [i Hi].
    apply list_lookup_insert_Some in Hi as [(_ & <- & _)|[_ Hi]].
    + rewrite nlen_vset. apply Hk. rewrite vat_lookup in E. by eapply list_elem_of_lookup_2.
    + apply Hk. by eapply list_elem_of_lookup_2.
  - simpl. rewrite vat_vset_eq by done. simpl. by rewrite vat_vset_eq.
  - intros σ Hσ. simpl.
    destruct (decide (σ / kMaterializationWaitChunkSize = token / kMaterializationWaitChunkSize))
      as [Heq|Hne].
    + rewrite Heq, E, vat_vset_eq by done. simpl. rewrite vat_vset_ne; [done|].
      intros Hm. apply Hσ. unfold kMaterializationWaitChunkSize in *.
      rewrite (N.div_mod σ 256), (N.div_mod token 256) by done. congruence.
    + by rewrite vat_vset_ne by congruence.
Qed.

Lemma ensure_spec S token :
  wf_slots S →
  let S' := ensureMaterializationWaitSlot token S in
  wf_slots S' ∧ materializing_ S' = materializing_ S ∧
  hasMaterializationWaitSlot S' token = true ∧ (∀ σ, slot_key S' σ = slot_key S σ).
Proof.
  intros Hwf. unfold ensureMaterializationWaitSlot.
  destruct (N.leb_spec (token + 1) (waitingByThreadCapacity_ S)) as [Hle|Hgt]; simpl.
  { split_and!; [done..| |done]. apply N.ltb_lt. lia. }
  destruct Hwf as [Hc Hk]. unfold kMaterializationWaitChunkSize in *.
  set (req := (token + 1 + 256 - 1) / 256).
  set (new := replicate _ _).
  assert (Hnew : nlen new = req - nlen (waitingByThreadChunks_ S)).
  { unfold new, nlen. rewrite length_replicate. lia. }
  assert (Hreq : token < req * 256).
  { unfold req. pose proof (N.div_mod (token + 1 + 256 - 1) 256).
    pose proof (N.mod_lt (token + 1 + 256 - 1) 256). lia. }
  split_and!; [split; simpl|done| |].
  - done.
  - intros c [Hin|Hin]%elem_of_app; [by apply Hk|].
    apply elem_of_replicate in Hin as [-> _]. done.
  - apply N.ltb_lt; simpl. rewrite nlen_app, Hnew. lia.
  - intros σ. unfold slot_key, materializationWaitSlot; simpl.
    unfold kMaterializationWaitChunkSize.
    destruct (vat (waitingByThreadChunks_ S) (σ / 256)) as [c|] eqn:E.
    + by rewrite (vat_app_Some _ _ _ _ E).
    + simpl. destruct (vat (waitingByThreadChunks_ S ++ new) (σ / 256)) as [c|] eqn:E'; [|done].
      simpl. rewrite vat_lookup in E'. apply lookup_app_Some in E' as [E'|[_ E']].
      { rewrite vat_lookup in E. congruence. }
      apply list_elem_of_lookup_2 in E'. apply elem_of_replicate in E' as [-> _].
      unfold new_wait_chunk. rewrite vat_replicate.
      case_decide; done.
Qed.

(** ** The in-flight table *)

Lemma find_entry_Some k l i e :
  find_entry k l = Some (i, e) → l !! i = Some e ∧ entry_key e = k.
Proof. intros (? & ? & _)%list_find_Some. done. Qed.

Lemma find_entry_None k l e : find_entry k l = None → e ∈ l → entry_key e ≠ k.
Proof. intros H He. apply list_find_None in H. rewrite Forall_forall in H. by apply H. Qed.

Lemma entry_unique l k a b :
  NoDup (entry_key <$> l) → Entry k a ∈ l → Entry k b ∈ l → a = b.
Proof.
  intros Hnd [i Hi]%list_elem_of_lookup [j Hj]%list_elem_of_lookup.
  assert (i = j) as ->; [|by simplify_eq].
  eapply (NoDup_lookup (entry_key <$> l)); [done|by rewrite list_lookup_fmap, Hi|].
  by rewrite list_lookup_fmap, Hj.
Qed.

Lemma find_entry_unique l k a :
  NoDup (entry_key <$> l) → Entry k a ∈ l → ∃ i, find_entry k l = Some (i, Entry k a).
Proof.
  intros Hnd Hin. destruct (find_entry k l) as [[i [k' b]]|] eqn:E.
  - apply find_entry_Some in E as [Hi Hk]. simpl in Hk; subst k'.
    apply list_elem_of_lookup_2 in Hi. exists i. by rewrite (entry_unique l k a b).
  - by destruct (find_entry_None _ _ _ E Hin).
Qed.

Lemma swap_pop_perm {A} (l : list A) i x b :
  l !! i = Some x → last l = Some b → l ≡ₚ x :: take (length l - 1) (<[i := b]> l).
Proof.
  intros Hi Hb. apply last_Some in Hb as [l' ->].
  rewrite length_app; simpl. rewrite Nat.add_sub.
  apply lookup_app_Some in Hi as [Hi|[Hge Hi]].
  - pose proof (lookup_lt_Some _ _ _ Hi).
    rewrite insert_app_l, take_app_length' by (rewrite ?length_insert; lia).
    rewrite insert_take_drop by done.
    rewrite <-(take_drop_middle _ _ _ Hi) at 1. rewrite <-(assoc_L (++)); simpl.
    rewrite (Permutation_app_comm (take i l')), (Permutation_app_comm (take i l')). simpl.
    constructor. rewrite <-Permutation_middle. simpl.
    rewrite <-(assoc_L (++)). rewrite Permutation_app_comm. simpl.
    constructor. by rewrite Permutation_app_comm.
  - apply list_lookup_singleton_Some in Hi as [Hi ->].
    rewrite insert_app_r_alt, take_app_length by lia.
    by rewrite Permutation_app_comm.
Qed.

Lemma release_entry_perm k l i e :
  find_entry k l = Some (i, e) → l ≡ₚ e :: release_entry k l.
Proof.
  intros H. unfold release_entry. rewrite H. apply find_entry_Some in H as [Hi _].
  destruct (last l) as [b|] eqn:Hb; [by apply swap_pop_perm|].
  apply last_None in Hb. by subst l.
Qed.

Lemma release_entry_spec k a l :
  NoDup (entry_key <$> l) → Entry k a ∈ l →
  NoDup (entry_key <$> release_entry k l) ∧
  (∀ k' b, Entry k' b ∈ release_entry k l ↔ Entry k' b ∈ l ∧ k' ≠ k).
Proof.
  intros Hnd Hin. destruct (find_entry_unique _ _ _ Hnd Hin) as [i Hf].
  pose proof (release_entry_perm _ _ _ _ Hf) as Hp.
  assert (Hnd' : NoDup (entry_key <$> Entry k a :: release_entry k l)) by by rewrite <-Hp.
  apply NoDup_cons in Hnd' as [Hk Hnd']. split; [done|]. intros k' b. split.
  - intros H. split; [rewrite Hp; by right|]. intros ->. apply Hk.
    apply list_elem_of_fmap. by exists (Entry k b).
  - intros [H Hne]. rewrite Hp in H. apply elem_of_cons in H as [[=]|H]; [done|done].
Qed.

(** ** Invariant *)

Definition pc_key (p : pc) : option MaterializationKey :=
  match p with Waiting k _ => Some k | _ => None end.

Record inv (S : sys) : Prop := {
  inv_slots : wf_slots (registry S);
  inv_zero : at_pc (threads S kNoMaterializationThreadToken) = Running ∧
             frames (threads S kNoMaterializationThreadToken) = [];
  inv_keys : NoDup (entry_key <$> materializing_ (registry S));
  inv_owner k τ :
    Entry k τ ∈ materializing_ (registry S) ↔ Owning k ∈ frames (threads S τ);
  inv_stack τ : stack (threads S τ) = reverse (frame_id <$> frames (threads S τ));
  inv_nodup τ : NoDup (stack (threads S τ));
  inv_slot τ : slot_key (registry S) τ = pc_key (at_pc (threads S τ));
  inv_fresh k τ : Entry k τ ∈ materializing_ (registry S) → k ∉ stored S;
  inv_acyclic : well_founded (flip (waits_for S));
  inv_notify τ k : at_pc (threads S τ) = Waiting k false →
    (∃ o, Entry k o ∈ materializing_ (registry S)) ∨
    (∃ σ, at_pc (threads S σ) = Notifying)
}.

Lemma inv_init : inv init.
Proof.
  constructor.
  - constructor; [done|]. intros c Hc. by apply elem_of_nil in Hc.
  - by split.
  - constructor.
  - intros k τ. split; intros Hin; by apply elem_of_nil in Hin.
  - intros τ. done.
  - intros τ. constructor.
  - intros τ. unfold slot_key, materializationWaitSlot. simpl. by rewrite vat_nil.
  - intros k τ Hin. by apply elem_of_nil in Hin.
  - intros a. constructor. intros b (k & n & Hk & _). done.
  - intros τ k Hk. done.
Qed.

Lemma inv_ext S S' :
  inv S → registry S' = registry S → stored S' = stored S →
  (∀ τ, threads S' τ = threads S τ) → inv S'.
Proof.
  destruct S as [R st T], S' as [R' st' T']; simpl. intros H -> -> Hext.
  assert (Hw : ∀ a b, waits_for {| registry := R; stored := st; threads := T' |} a b →
    waits_for {| registry := R; stored := st; threads := T |} a b).
  { intros a b (k & n & Ha & Hb). simpl in *. exists k, n. by rewrite <-Hext. }
  destruct H as [Ha Hb Hc Hd He Hf Hg Hh Hi Hj]; simpl in *.
  constructor; simpl.
  - exact Ha.
  - rewrite Hext. exact Hb.
  - exact Hc.
  - intros k τ. rewrite Hext. apply Hd.
  - intros τ. rewrite Hext. apply He.
  - intros τ. rewrite Hext. apply Hf.
  - intros τ. rewrite Hext. apply Hg.
  - exact Hh.
  - by eapply wf_weaken.
  - intros τ k. rewrite Hext. intros [|[σ Hσ]]%Hj; [by left|].
    right. exists σ. by rewrite Hext.
Qed.

(** ** The wait-graph walk decides reachability *)

Lemma waits_for_fun S a b c :
  inv S → waits_for S a b → waits_for S a c → b = c.
Proof.
  intros H (k & n & Hk & Hb) (k' & n' & Hk' & Hc).
  assert (k' = k) as -> by congruence.
  exact (entry_unique _ _ _ _ (inv_keys _ H) Hb Hc).
Qed.

Lemma owner_nonzero S k τ :
  inv S → Entry k τ ∈ materializing_ (registry S) → τ ≠ kNoMaterializationThreadToken.
Proof.
  intros H Hin%(inv_owner _ H) ->. destruct (inv_zero _ H) as [_ Hf].
  rewrite Hf in Hin. by apply elem_of_nil in Hin.
Qed.

Lemma walk_unfold S n cur tok :
  inv S →
  wait_walk (Datatypes.S n) (registry S) cur tok =
    (if decide (tok = cur) then Some true
     else match at_pc (threads S tok) with
          | Waiting k _ =>
              match find_entry k (materializing_ (registry S)) with
              | Some (_, o) => wait_walk n (registry S) cur (threadToken o)
              | None => Some false
              end
          | _ => Some false
          end).
Proof.
  intros H. simpl. destruct (N.eqb_spec tok cur) as [->|Hne].
  { by rewrite decide_True. }
  rewrite decide_False by done. pose proof (inv_slot _ H tok) as Hslot.
  destruct (N.eqb_spec tok kNoMaterializationThreadToken) as [->|Hz]; simpl.
  { by rewrite (proj1 (inv_zero _ H)). }
  unfold slot_key in Hslot.
  destruct (hasMaterializationWaitSlot (registry S) tok) eqn:Hh; simpl.
  - pose proof Hh as [w Hw]%has_slot_is_Some; [|apply (inv_slots _ H)].
    rewrite Hw in Hslot |- *. simpl in *. destruct (active w) eqn:Ea; simpl.
    + destruct (at_pc (threads S tok)); simplify_eq/=. by repeat case_match.
    + by destruct (at_pc (threads S tok)).
  - destruct (materializationWaitSlot (registry S) tok) as [w|] eqn:Hw.
    + assert (hasMaterializationWaitSlot (registry S) tok = true); [|congruence].
      apply has_slot_is_Some; [apply (inv_slots _ H)|done].
    + simpl in Hslot. by destruct (at_pc (threads S tok)).
Qed.

Lemma find_entry_waits S tok k n i o :
  at_pc (threads S tok) = Waiting k n →
  find_entry k (materializing_ (registry S)) = Some (i, o) → waits_for S tok (threadToken o).
Proof.
  intros Hpc Hf. apply find_entry_Some in Hf as [Hi Hk]. exists k, n. split; [done|].
  apply list_elem_of_lookup_2 in Hi. destruct o; simpl in *. by subst.
Qed.

Lemma walk_total S n cur tok : inv S → is_Some (wait_walk n (registry S) cur tok).
Proof.
  intros H. revert tok. induction n as [|n IH]; intros tok; [by eexists|].
  rewrite walk_unfold by done. case_decide; [by eexists|].
  destruct (at_pc (threads S tok)); [by eexists| |by eexists].
  destruct (find_entry _ _) as [[i o]|]; [apply IH|by eexists].
Qed.

Lemma walk_sound S n cur tok :
  inv S → wait_walk n (registry S) cur tok = Some true → rtc (waits_for S) tok cur.
Proof.
  intros H. revert tok. induction n as [|n IH]; intros tok; [done|].
  rewrite walk_unfold by done. case_decide as Heq; [by intros _; subst|].
  destruct (at_pc (threads S tok)) as [|k b|] eqn:Hpc; try done.
  destruct (find_entry k _) as [[i o]|] eqn:Hf; [|done]. intros Hw.
  eapply rtc_l; [by eapply find_entry_waits|]. by apply IH.
Qed.

Lemma walk_complete S n m cur tok :
  inv S → nsteps (waits_for S) m tok cur → (m < n)%nat →
  wait_walk n (registry S) cur tok = Some true.
Proof.
  intros H. revert m tok. induction n as [|n IH]; intros m tok Hs Hlt; [lia|].
  rewrite walk_unfold by done. case_decide as Heq; [done|].
  inversion Hs as [|m' x y z Hxy Hyz]; subst; [done|].
  destruct Hxy as (k & b & Hpc & Hin). rewrite Hpc.
  destruct (find_entry_unique _ _ _ (inv_keys _ H) Hin) as [i ->].
  eapply IH; [done|lia].
Qed.

Lemma waits_for_owner S a b :
  waits_for S a b → b ∈ threadToken <$> materializing_ (registry S).
Proof. intros (k & n & _ & Hin). apply list_elem_of_fmap. by exists (Entry k b). Qed.

(** The walk's bound, the number of in-flight entries, is enough: the tokens on
    a path from an owner are distinct owners. *)
Lemma cycle_detected_spec S cur o :
  inv S → o ∈ threadToken <$> materializing_ (registry S) →
  ∃ b, materializationWaitCycleDetected cur o (registry S) = Some b ∧
       (b = true ↔ rtc (waits_for S) o cur).
Proof.
  intros H Ho. unfold materializationWaitCycleDetected.
  destruct (walk_total S (length (materializing_ (registry S))) cur o H) as [b Hb].
  exists b. split; [done|]. split.
  - intros ->. by eapply walk_sound.
  - intros [m Hm]%rtc_nsteps.
    destruct (path_nodes _ (λ x, x ∈ threadToken <$> materializing_ (registry S)) _ _ _
      (inv_acyclic _ H) (waits_for_owner S) Ho Hm) as (l & Hlen & Hnd & Hl).
    assert (length l ≤ length (threadToken <$> materializing_ (registry S)))%nat as Hle.
    { apply submseteq_length, NoDup_submseteq; [done|]. intros x Hx. by apply Hl. }
    rewrite length_fmap in Hle.
    rewrite (walk_complete _ _ m) in Hb by (done || lia). by simplify_eq.
Qed.

(** ** Preservation *)

Lemma upd_waits S S' τ :
  (∀ σ, σ ≠ τ → at_pc (threads S' σ) = at_pc (threads S σ)) →
  pc_key (at_pc (threads S' τ)) = None →
  (∀ e, e ∈ materializing_ (registry S') → e ∈ materializing_ (registry S)) →
  ∀ a b, waits_for S' a b → waits_for S a b.
Proof.
  intros Hpc Hτ Hin a b (k & n & Hk & Hb).
  destruct (decide (a = τ)) as [->|Hne]; [by rewrite Hk in Hτ|].
  exists k, n. split; [by rewrite <-Hpc|by apply Hin].
Qed.

(** Clearing a thread's wait edge. *)
Lemma settle_inv S R τ :
  inv S → τ ≠ kNoMaterializationThreadToken → at_pc (threads S τ) ≠ Notifying →
  wf_slots R → materializing_ R = materializing_ (registry S) → slot_key R τ = None →
  (∀ σ, σ ≠ τ → slot_key R σ = slot_key (registry S) σ) →
  inv {| registry := R; stored := stored S;
         threads := <[τ := {| stack := stack (threads S τ); frames := frames (threads S τ);
                              at_pc := Running |}]> (threads S) |}.
Proof.
  intros H Hz Hn HR Hm Hτ Hσ.
  assert (Hf : ∀ σ, frames (<[τ := {| stack := stack (threads S τ);
    frames := frames (threads S τ); at_pc := Running |}]> (threads S) σ) = frames (threads S σ)).
  { intros σ. destruct (decide (σ = τ)) as [->|]; [by rewrite fn_lookup_insert|by rewrite fn_lookup_insert_ne]. }
  constructor; simpl; rewrite ?Hm.
  - exact HR.
  - rewrite fn_lookup_insert_ne by done. apply (inv_zero _ H).
  - apply (inv_keys _ H).
  - intros k σ. rewrite Hf. apply (inv_owner _ H).
  - intros σ. destruct (decide (σ = τ)) as [->|Hne].
    + rewrite fn_lookup_insert. apply (inv_stack _ H).
    + rewrite fn_lookup_insert_ne by done. apply (inv_stack _ H).
  - intros σ. destruct (decide (σ = τ)) as [->|Hne].
    + rewrite fn_lookup_insert. apply (inv_nodup _ H).
    + rewrite fn_lookup_insert_ne by done. apply (inv_nodup _ H).
  - intros σ. destruct (decide (σ = τ)) as [->|Hne].
    + by rewrite fn_lookup_insert.
    + rewrite fn_lookup_insert_ne, Hσ by done. apply (inv_slot _ H).
  - apply (inv_fresh _ H).
  - eapply wf_weaken, (inv_acyclic _ H). apply (upd_waits S _ τ); simpl.
    + intros σ Hne. by rewrite fn_lookup_insert_ne.
    + by rewrite fn_lookup_insert.
    + by rewrite Hm.
  - intros σ k. destruct (decide (σ = τ)) as [->|Hne]; [by rewrite fn_lookup_insert|].
    rewrite fn_lookup_insert_ne by done. intros [|[ρ Hρ]]%(inv_notify _ H); [by left|].
    right. exists ρ. rewrite fn_lookup_insert_ne; [done|]. by intros ->.
Qed.

Lemma unchanged_inv S τ key v :
  inv S → at_pc (threads S τ) = Running → v ≠ Claimed → v ≠ MustWait →
  inv {| registry := registry S; stored := stored S;
         threads := <[τ := after_claim (threads S τ) key v (stack (threads S τ))]> (threads S) |}.
Proof.
  intros H Hpc Hc Hw. apply (inv_ext S); [done..|]. intros σ; simpl.
  destruct (decide (σ = τ)) as [->|Hne]; [|by rewrite fn_lookup_insert_ne].
  rewrite fn_lookup_insert. unfold after_claim.
  destruct (threads S τ); simpl in *; subst. by destruct v.
Qed.

Lemma owning_in_stack S τ k :
  inv S → Owning k ∈ frames (threads S τ) → key_descId k ∈ stack (threads S τ).
Proof.
  intros H Hin. rewrite (inv_stack _ H), elem_of_reverse.
  apply list_elem_of_fmap. by exists (Owning k).
Qed.

Lemma claimed_inv S τ key :
  inv S → τ ≠ kNoMaterializationThreadToken → at_pc (threads S τ) = Running →
  key ∉ stored S → (∀ o, Entry key o ∉ materializing_ (registry S)) →
  key_descId key ∉ stack (threads S τ) →
  inv {| registry := with_materializing (materializing_ (registry S) ++ [Entry key τ]) (registry S);
         stored := stored S;
         threads := <[τ := after_claim (threads S τ) key Claimed
                             (stack (threads S τ) ++ [key_descId key])]> (threads S) |}.
Proof.
  intros H Hz Hpc Hst Hno Hnin.
  assert (Hin : ∀ k a, Entry k a ∈ materializing_ (registry S) ++ [Entry key τ] ↔
    Entry k a ∈ materializing_ (registry S) ∨ (k = key ∧ a = τ)).
  { intros k a. rewrite elem_of_app, list_elem_of_singleton. naive_solver. }
  constructor; simpl.
  - destruct (inv_slots _ H); by constructor.
  - rewrite fn_lookup_insert_ne by done. apply (inv_zero _ H).
  - rewrite fmap_app. simpl. apply NoDup_app.
    split_and!; [apply (inv_keys _ H)| |by apply NoDup_singleton].
    intros k Hk Heq%list_elem_of_singleton. rewrite Heq in Hk.
    apply list_elem_of_fmap in Hk as ([k1 o] & Hk1 & Ho). simpl in Hk1; subst k1.
    by destruct (Hno o).
  - intros k σ. rewrite Hin, (inv_owner _ H). destruct (decide (σ = τ)) as [->|Hne].
    + rewrite fn_lookup_insert. unfold after_claim; simpl. rewrite elem_of_cons. naive_solver.
    + rewrite fn_lookup_insert_ne by done. naive_solver.
  - intros σ. destruct (decide (σ = τ)) as [->|Hne].
    + rewrite fn_lookup_insert. unfold after_claim; simpl.
      by rewrite reverse_cons, (inv_stack _ H).
    + rewrite fn_lookup_insert_ne by done. apply (inv_stack _ H).
  - intros σ. destruct (decide (σ = τ)) as [->|Hne].
    + rewrite fn_lookup_insert. unfold after_claim; simpl. apply NoDup_app.
      split_and!; [apply (inv_nodup _ H)| |by apply NoDup_singleton].
      by intros x Hx ->%list_elem_of_singleton.
    + rewrite fn_lookup_insert_ne by done. apply (inv_nodup _ H).
  - intros σ. transitivity (slot_key (registry S) σ); [done|]. rewrite (inv_slot _ H).
    destruct (decide (σ = τ)) as [->|Hne]; [by rewrite fn_lookup_insert, Hpc|].
    by rewrite fn_lookup_insert_ne.
  - intros k a [Hk|[-> ->]]%Hin; [by apply (inv_fresh _ H k a)|done].
  - eapply (wf_add_edges (waits_for S) _ τ); [|apply (inv_acyclic _ H)].
    intros a b (k & n & Hk & Hb). simpl in *.
    destruct (decide (a = τ)) as [->|Hne]; [by rewrite fn_lookup_insert in Hk|].
    rewrite fn_lookup_insert_ne in Hk by done.
    apply Hin in Hb as [Hb|[-> ->]]; [left; by exists k, n|]. right. split; [done|].
    intros Hr. apply rtc_inv in Hr as [->|(c & (k' & n' & Hk' & _) & _)]; [done|congruence].
  - intros σ k. destruct (decide (σ = τ)) as [->|Hne]; [by rewrite fn_lookup_insert|].
    rewrite fn_lookup_insert_ne by done. intros [[o Ho]|[ρ Hρ]]%(inv_notify _ H).
    + left. exists o. apply Hin. by left.
    + right. exists ρ. rewrite fn_lookup_insert_ne; [done|]. intros ->. congruence.
Qed.

Lemma must_wait_inv S τ key o R :
  inv S → τ ≠ kNoMaterializationThreadToken → at_pc (threads S τ) = Running →
  Entry key o ∈ materializing_ (registry S) → ¬ rtc (waits_for S) o τ →
  wf_slots R → materializing_ R = materializing_ (registry S) → slot_key R τ = Some key →
  (∀ σ, σ ≠ τ → slot_key R σ = slot_key (registry S) σ) →
  inv {| registry := R; stored := stored S;
         threads := <[τ := after_claim (threads S τ) key MustWait (stack (threads S τ))]>
                      (threads S) |}.
Proof.
  intros H Hz Hpc Ho Hr HR Hm Hτ Hσ.
  assert (Hf : ∀ σ, frames (<[τ := after_claim (threads S τ) key MustWait
    (stack (threads S τ))]> (threads S) σ) = frames (threads S σ)).
  { intros σ. destruct (decide (σ = τ)) as [->|];
      [by rewrite fn_lookup_insert|by rewrite fn_lookup_insert_ne]. }
  assert (Hs : ∀ σ, stack (<[τ := after_claim (threads S τ) key MustWait
    (stack (threads S τ))]> (threads S) σ) = stack (threads S σ)).
  { intros σ. destruct (decide (σ = τ)) as [->|];
      [by rewrite fn_lookup_insert|by rewrite fn_lookup_insert_ne]. }
  constructor; simpl; rewrite ?Hm.
  - exact HR.
  - rewrite fn_lookup_insert_ne by done. apply (inv_zero _ H).
  - apply (inv_keys _ H).
  - intros k σ. rewrite Hf. apply (inv_owner _ H).
  - intros σ. rewrite Hf, Hs. apply (inv_stack _ H).
  - intros σ. rewrite Hs. apply (inv_nodup _ H).
  - intros σ. destruct (decide (σ = τ)) as [->|Hne].
    + by rewrite fn_lookup_insert.
    + rewrite fn_lookup_insert_ne, Hσ by done. apply (inv_slot _ H).
  - apply (inv_fresh _ H).
  - eapply (wf_add_edges (waits_for S) _ o); [|apply (inv_acyclic _ H)].
    intros a b (k & n & Hk & Hb). simpl in *. rewrite Hm in Hb.
    destruct (decide (a = τ)) as [->|Hne].
    + rewrite fn_lookup_insert in Hk. simpl in Hk. simplify_eq.
      right. split; [|done]. by eapply entry_unique; [apply (inv_keys _ H)|..].
    + rewrite fn_lookup_insert_ne in Hk by done. left. by exists k, n.
  - intros σ k. destruct (decide (σ = τ)) as [->|Hne].
    + rewrite fn_lookup_insert. simpl. intros [= <-]. left. by exists o.
    + rewrite fn_lookup_insert_ne by done. intros [|[ρ Hρ]]%(inv_notify _ H); [by left|].
      right. exists ρ. rewrite fn_lookup_insert_ne; [done|]. intros ->. congruence.
Qed.

(** What a pass over the loop decides, and that it keeps the invariant. *)
Definition verdict_spec (S : sys) (τ : N) (key : MaterializationKey) (v : verdict) : Prop :=
  match v with
  | AlreadyThere => key ∈ stored S
  | Claimed => key ∉ stored S ∧ (∀ o, Entry key o ∉ materializing_ (registry S)) ∧
               key_descId key ∉ stack (threads S τ)
  | IntraThreadCycle => key_descId key ∈ stack (threads S τ)
  | CrossThreadCycle => ∃ o, Entry key o ∈ materializing_ (registry S) ∧ o ≠ τ ∧
                             rtc (waits_for S) o τ
  | MustWait => ∃ o, Entry key o ∈ materializing_ (registry S) ∧ o ≠ τ ∧
                     ¬ rtc (waits_for S) o τ
  end.

Lemma empty_stack_unreachable S τ o :
  inv S → stack (threads S τ) = [] → o ≠ τ → ¬ rtc (waits_for S) o τ.
Proof.
  intros H Hs Hne Hr. apply rtc_inv_r in Hr as [->|(b & _ & (k & n & _ & Hin))]; [done|].
  apply (inv_owner _ H), (owning_in_stack _ _ _ H) in Hin. rewrite Hs in Hin.
  by apply elem_of_nil in Hin.
Qed.

Lemma cycle_test S τ k o :
  inv S → Entry k o ∈ materializing_ (registry S) → o ≠ τ →
  ∃ b, (match stack (threads S τ) with
        | [] => Some false
        | _ :: _ => materializationWaitCycleDetected τ o (registry S)
        end) = Some b ∧ (b = true ↔ rtc (waits_for S) o τ).
Proof.
  intros H Hin Hne. destruct (stack (threads S τ)) eqn:Hs.
  - exists false. split; [done|]. split; [done|]. intros Hr.
    by destruct (empty_stack_unreachable S τ o).
  - apply cycle_detected_spec; [done|]. apply list_elem_of_fmap. by exists (Entry k o).
Qed.

Lemma iteration_ok S τ key :
  inv S → τ ≠ kNoMaterializationThreadToken → at_pc (threads S τ) = Running →
  hasMaterializationWaitSlot (registry S) τ = true →
  ∃ v st R,
    claim_iteration τ (stack (threads S τ)) key (is_stored S key) (registry S)
      = Some (v, st, R) ∧
    inv {| registry := R; stored := stored S;
           threads := <[τ := after_claim (threads S τ) key v st]> (threads S) |} ∧
    verdict_spec S τ key v.
Proof.
  intros H Hz Hpc Hhas. unfold claim_iteration, is_stored.
  destruct (decide (key ∈ stored S)) as [Hst|Hst].
  { rewrite bool_decide_true by done. do 3 eexists. split_and!; [done| |done].
    by apply unchanged_inv. }
  rewrite bool_decide_false by done.
  destruct (find_entry key (materializing_ (registry S))) as [[i [k o]]|] eqn:Hf.
  - apply find_entry_Some in Hf as [Hi Hk]; simpl in Hk; subst k.
    apply list_elem_of_lookup_2 in Hi. simpl.
    destruct (N.eqb_spec o τ) as [->|Hne].
    { do 3 eexists. split_and!; [done|by apply unchanged_inv|].
      apply owning_in_stack; [done|]. by apply (inv_owner _ H). }
    destruct (cycle_test S τ key o H Hi Hne) as ([] & Hb & Hiff); rewrite Hb; simpl.
    { do 3 eexists. split_and!; [done|by apply unchanged_inv|].
      exists o. split_and!; [done..|]. by apply Hiff. }
    destruct (set_slot_spec _ τ (Wait_ key true) (inv_slots _ H) Hhas)
      as (R & -> & HR & Hm & _ & Hτ & Hσ). simpl.
    assert (Hnr : ¬ rtc (waits_for S) o τ) by by intros Hr%Hiff.
    do 3 eexists. split_and!; [done|by eapply must_wait_inv|]. by exists o.
  - assert (Hno : ∀ o, Entry key o ∉ materializing_ (registry S)).
    { intros o Ho. by apply (find_entry_None _ _ _ Hf Ho). }
    case_decide as Hin.
    { do 3 eexists. split_and!; [done|by apply unchanged_inv|done]. }
    do 3 eexists. split_and!; [done|by apply claimed_inv|by split_and!].
Qed.

(** The state in which the thread is out of its [wait] and its slot is clear. *)
Definition settled (S : sys) (R : t) (τ : N) : sys :=
  {| registry := R; stored := stored S;
     threads := <[τ := {| stack := stack (threads S τ); frames := frames (threads S τ);
                          at_pc := Running |}]> (threads S) |}.

Lemma settled_rtc S R τ o :
  materializing_ R = materializing_ (registry S) →
  rtc (waits_for (settled S R τ)) o τ ↔ rtc (waits_for S) o τ.
Proof.
  intros Hm. split; intros Hr.
  - revert o Hr. apply rtc_ind_l; [done|]. intros o x (k & n & Hk & Hin) Hr IH.
    eapply rtc_l; [|exact IH]. simpl in *. rewrite Hm in Hin. exists k, n.
    destruct (decide (o = τ)) as [->|Hne]; [by rewrite fn_lookup_insert in Hk|].
    by rewrite fn_lookup_insert_ne in Hk.
  - revert o Hr. apply rtc_ind_l; [done|]. intros o x (k & n & Hk & Hin) Hr IH.
    destruct (decide (o = τ)) as [->|Hne]; [done|].
    eapply rtc_l; [|exact IH]. exists k, n. simpl. rewrite Hm.
    by rewrite fn_lookup_insert_ne.
Qed.

Lemma settled_verdict S R τ key v :
  materializing_ R = materializing_ (registry S) →
  verdict_spec (settled S R τ) τ key v → verdict_spec S τ key v.
Proof.
  intros Hm. destruct v; simpl; rewrite ?Hm, ?fn_lookup_insert; [done..| |].
  - intros (o & ? & ? & Hr). exists o. by rewrite <-settled_rtc.
  - intros (o & ? & ? & Hr). exists o. by rewrite settled_rtc in Hr.
Qed.

Lemma settled_iteration S R τ key :
  inv (settled S R τ) → τ ≠ kNoMaterializationThreadToken →
  materializing_ R = materializing_ (registry S) →
  hasMaterializationWaitSlot R τ = true →
  ∃ v st R',
    claim_iteration τ (stack (threads S τ)) key (is_stored S key) R = Some (v, st, R') ∧
    inv {| registry := R'; stored := stored S;
           threads := <[τ := after_claim (threads S τ) key v st]> (threads S) |} ∧
    verdict_spec S τ key v.
Proof.
  intros H Hz Hm Hhas.
  destruct (iteration_ok (settled S R τ) τ key H Hz) as (v & st & R' & He & Hi & Hv);
    [by simpl; rewrite fn_lookup_insert|done|].
  simpl in He, Hi. rewrite fn_lookup_insert in He, Hi. simpl in He.
  exists v, st, R'. split_and!; [done| |by eapply settled_verdict].
  eapply inv_ext; [exact Hi|done..|]. intros σ; simpl.
  destruct (decide (σ = τ)) as [->|Hne]; [by rewrite !fn_lookup_insert|].
  by rewrite !fn_lookup_insert_ne.
Qed.

Lemma enter_ok S τ key :
  inv S → τ ≠ kNoMaterializationThreadToken → at_pc (threads S τ) = Running →
  ∃ v st R,
    claim_enter τ (stack (threads S τ)) key (is_stored S key) (registry S) = Some (v, st, R) ∧
    inv {| registry := R; stored := stored S;
           threads := <[τ := after_claim (threads S τ) key v st]> (threads S) |} ∧
    ((v = IntraThreadCycle ∧ key_descId key ∈ stack (threads S τ)) ∨
     (key_descId key ∉ stack (threads S τ) ∧ verdict_spec S τ key v)).
Proof.
  intros H Hz Hpc. unfold claim_enter.
  destruct (ensure_spec (registry S) τ (inv_slots _ H)) as (Hwf & Hm & Hhas & Hk).
  destruct (set_slot_spec _ τ no_wait Hwf Hhas) as (R & -> & HR & Hm' & Hhas' & Hτ & Hσ). simpl.
  assert (Hset : inv (settled S R τ)).
  { apply settle_inv; [done|done|by rewrite Hpc|done|congruence|done|].
    intros σ Hne. by rewrite Hσ, Hk. }
  case_decide as Hin.
  - do 3 eexists. split_and!; [done| |by left].
    eapply inv_ext; [exact Hset|done..|]. intros σ; simpl.
    destruct (decide (σ = τ)) as [->|Hne]; [by rewrite !fn_lookup_insert|].
    by rewrite !fn_lookup_insert_ne.
  - destruct (settled_iteration S R τ key) as (v & st & R' & He & Hi & Hv);
      [done|done|congruence|by rewrite Hhas'|].
    exists v, st, R'. split_and!; [done..|by right].
Qed.

Lemma wake_ok S τ key n :
  inv S → at_pc (threads S τ) = Waiting key n →
  ∃ v st R,
    claim_wake τ (stack (threads S τ)) key (is_stored S key) (registry S) = Some (v, st, R) ∧
    inv {| registry := R; stored := stored S;
           threads := <[τ := after_claim (threads S τ) key v st]> (threads S) |} ∧
    verdict_spec S τ key v.
Proof.
  intros H Hpc. unfold claim_wake.
  assert (Hz : τ ≠ kNoMaterializationThreadToken).
  { intros ->. rewrite (proj1 (inv_zero _ H)) in Hpc. done. }
  pose proof (inv_slot _ H τ) as Hslot. rewrite Hpc in Hslot. simpl in Hslot.
  unfold slot_key in Hslot.
  destruct (materializationWaitSlot (registry S) τ) as [w|] eqn:Hw; [|done]. simpl.
  assert (Hhas : hasMaterializationWaitSlot (registry S) τ = true).
  { apply has_slot_is_Some; [apply (inv_slots _ H)|done]. }
  destruct (set_slot_spec _ τ (Wait_ (wait_key w) false) (inv_slots _ H) Hhas)
    as (R & -> & HR & Hm' & Hhas' & Hτ & Hσ). simpl.
  apply settled_iteration; [|done|done|by rewrite Hhas'].
  apply settle_inv; [done|done|by rewrite Hpc|done..].
Qed.

(** Leaving the innermost construction, with or without storing the bean. *)
Lemma release_inv S τ key fs st :
  inv S → at_pc (threads S τ) = Running → frames (threads S τ) = Owning key :: fs →
  st = stored S ∨ st = {[key]} ∪ stored S →
  inv {| registry := release key (registry S); stored := st;
         threads := <[τ := {| stack := pop_back (stack (threads S τ)); frames := fs;
                              at_pc := Notifying |}]> (threads S) |}.
Proof.
  intros H Hpc Hfs Hst.
  assert (Hown : Entry key τ ∈ materializing_ (registry S)).
  { apply (inv_owner _ H). rewrite Hfs. by left. }
  pose proof (owner_nonzero _ _ _ H Hown) as Hz.
  destruct (release_entry_spec _ _ _ (inv_keys _ H) Hown) as [Hnd Hrel].
  assert (stack (threads S τ) = reverse (frame_id <$> fs) ++ [key_descId key] ∧
    pop_back (stack (threads S τ)) = reverse (frame_id <$> fs)) as [Hs Hpop].
  { assert (Hs : stack (threads S τ) = reverse (frame_id <$> fs) ++ [key_descId key]).
    { rewrite (inv_stack _ H), Hfs. simpl. by rewrite reverse_cons. }
    split; [done|]. unfold pop_back. rewrite Hs, length_app. simpl.
    by rewrite Nat.add_sub, take_app_length. }
  pose proof (inv_nodup _ H τ) as Hndτ. rewrite Hs in Hndτ.
  apply NoDup_app in Hndτ as (Hnd1 & Hnd2 & _).
  constructor; simpl.
  - destruct (inv_slots _ H); by constructor.
  - rewrite fn_lookup_insert_ne by done. apply (inv_zero _ H).
  - done.
  - intros k σ. rewrite Hrel, (inv_owner _ H). destruct (decide (σ = τ)) as [->|Hne].
    + rewrite fn_lookup_insert, Hfs. simpl. rewrite elem_of_cons. split.
      * intros [[[=]|Hin] Hk]; done.
      * intros Hin. split; [by right|]. intros ->. apply (Hnd2 (key_descId key)).
        -- apply elem_of_reverse, list_elem_of_fmap. by exists (Owning key).
        -- by left.
    + rewrite fn_lookup_insert_ne by done. split; [by intros [? _]|]. intros Hin.
      split; [done|]. intros ->. apply Hne.
      apply (inv_owner _ H) in Hin. by eapply entry_unique; [apply (inv_keys _ H)|..].
  - intros σ. destruct (decide (σ = τ)) as [->|Hne].
    + by rewrite fn_lookup_insert.
    + rewrite fn_lookup_insert_ne by done. apply (inv_stack _ H).
  - intros σ. destruct (decide (σ = τ)) as [->|Hne].
    + rewrite fn_lookup_insert. simpl. by rewrite Hpop.
    + rewrite fn_lookup_insert_ne by done. apply (inv_nodup _ H).
  - intros σ. transitivity (slot_key (registry S) σ); [done|]. rewrite (inv_slot _ H).
    destruct (decide (σ = τ)) as [->|Hne]; [by rewrite fn_lookup_insert, Hpc|].
    by rewrite fn_lookup_insert_ne.
  - intros k σ [Hin Hk]%Hrel. pose proof (inv_fresh _ H _ _ Hin). set_solver.
  - eapply wf_weaken, (inv_acyclic _ H). apply (upd_waits S _ τ); simpl.
    + intros σ Hne. by rewrite fn_lookup_insert_ne.
    + by rewrite fn_lookup_insert.
    + intros [k a] Hin%Hrel. by destruct Hin.
  - intros σ k _. right. exists τ. by rewrite fn_lookup_insert.
Qed.

(** A prototype's or thread-local bean's guard only changes the stack. *)
Lemma guard_inv S τ st fs :
  inv S → at_pc (threads S τ) = Running → τ ≠ kNoMaterializationThreadToken →
  (∀ k, Owning k ∈ fs ↔ Owning k ∈ frames (threads S τ)) →
  st = reverse (frame_id <$> fs) → NoDup st →
  inv (set_thread τ {| stack := st; frames := fs; at_pc := Running |} S).
Proof.
  intros H Hpc Hz Hfs Hst Hnd. constructor; simpl.
  - apply (inv_slots _ H).
  - rewrite fn_lookup_insert_ne by done. apply (inv_zero _ H).
  - apply (inv_keys _ H).
  - intros k σ. rewrite (inv_owner _ H). destruct (decide (σ = τ)) as [->|Hne].
    + rewrite fn_lookup_insert. simpl. by rewrite Hfs.
    + by rewrite fn_lookup_insert_ne.
  - intros σ. destruct (decide (σ = τ)) as [->|Hne]; [by rewrite fn_lookup_insert|].
    rewrite fn_lookup_insert_ne by done. apply (inv_stack _ H).
  - intros σ. destruct (decide (σ = τ)) as [->|Hne]; [by rewrite fn_lookup_insert|].
    rewrite fn_lookup_insert_ne by done. apply (inv_nodup _ H).
  - intros σ. rewrite (inv_slot _ H).
    destruct (decide (σ = τ)) as [->|Hne]; [by rewrite fn_lookup_insert, Hpc|].
    by rewrite fn_lookup_insert_ne.
  - apply (inv_fresh _ H).
  - eapply wf_weaken, (inv_acyclic _ H). apply (upd_waits S _ τ); simpl; [|by rewrite fn_lookup_insert|done].
    intros σ Hne. by rewrite fn_lookup_insert_ne.
  - intros σ k. destruct (decide (σ = τ)) as [->|Hne]; [by rewrite fn_lookup_insert|].
    rewrite fn_lookup_insert_ne by done. intros [|[ρ Hρ]]%(inv_notify _ H); [by left|].
    right. exists ρ. rewrite fn_lookup_insert_ne; [done|]. intros ->. congruence.
Qed.

Lemma notify_inv S τ :
  inv S → at_pc (threads S τ) = Notifying →
  inv {| registry := registry S; stored := stored S;
         threads := λ σ, if decide (σ = τ)
                         then {| stack := stack (threads S τ);
                                 frames := frames (threads S τ); at_pc := Running |}
                         else wake_all (threads S σ) |}.
Proof.
  intros H Hpc.
  set (T := λ σ, if decide (σ = τ)
                 then {| stack := stack (threads S τ);
                         frames := frames (threads S τ); at_pc := Running |}
                 else wake_all (threads S σ)).
  assert (HT : ∀ σ, stack (T σ) = stack (threads S σ) ∧ frames (T σ) = frames (threads S σ) ∧
    pc_key (at_pc (T σ)) = pc_key (at_pc (threads S σ)) ∧
    (∀ k n, at_pc (T σ) = Waiting k n → n = true ∧ ∃ n', at_pc (threads S σ) = Waiting k n')).
  { intros σ. unfold T. destruct (decide (σ = τ)) as [->|Hne].
    - simpl. rewrite Hpc. by split_and!.
    - unfold wake_all. destruct (at_pc (threads S σ)) as [|k n|] eqn:E; simpl; rewrite ?E.
      + by split_and!.
      + split_and!; [done..|]. intros k' n' [= -> <-]. split; [done|by eexists].
      + by split_and!. }
  constructor; simpl.
  - apply (inv_slots _ H).
  - destruct (inv_zero _ H) as [Hz1 Hz2].
    destruct (HT kNoMaterializationThreadToken) as (_ & -> & _). split; [|done].
    unfold T. case_decide as E; [done|]. unfold wake_all. by rewrite Hz1.
  - apply (inv_keys _ H).
  - intros k σ. destruct (HT σ) as (_ & -> & _). apply (inv_owner _ H).
  - intros σ. destruct (HT σ) as (-> & -> & _). apply (inv_stack _ H).
  - intros σ. destruct (HT σ) as (-> & _). apply (inv_nodup _ H).
  - intros σ. destruct (HT σ) as (_ & _ & -> & _). apply (inv_slot _ H).
  - apply (inv_fresh _ H).
  - eapply wf_weaken, (inv_acyclic _ H). intros a b (k & n & Hk & Hb).
    apply HT in Hk as [_ [n' Hk]]. by exists k, n'.
  - intros σ k Hk. by apply HT in Hk as [[=] _].
Qed.

Lemma exec_inv e S S' : inv S → exec e S = Some S' → inv S'.
Proof.
  intros H. destruct e as [τ key|τ|τ|τ|τ|τ id|τ|key]; simpl.
  - destruct (at_pc (threads S τ)) eqn:Hpc; try discriminate.
    destruct (N.eqb_spec τ kNoMaterializationThreadToken) as [->|Hz]; [discriminate|].
    destruct (enter_ok S τ key H Hz Hpc) as (v & st & R & -> & Hi & _). intros [= <-]. exact Hi.
  - destruct (at_pc (threads S τ)) as [|key n|] eqn:Hpc; try discriminate.
    destruct (wake_ok S τ key n H Hpc) as (v & st & R & -> & Hi & _). intros [= <-]. exact Hi.
  - destruct (at_pc (threads S τ)) eqn:Hpc; try discriminate.
    destruct (frames (threads S τ)) as [|[k|d] fs] eqn:Hf; try discriminate. intros [= <-].
    apply release_inv; auto.
  - destruct (at_pc (threads S τ)) eqn:Hpc; try discriminate.
    destruct (frames (threads S τ)) as [|[k|d] fs] eqn:Hf; try discriminate. intros [= <-].
    apply release_inv; auto.
  - destruct (at_pc (threads S τ)) eqn:Hpc; try discriminate. intros [= <-]. apply notify_inv; assumption.
  - destruct (at_pc (threads S τ)) eqn:Hpc; try discriminate.
    destruct (N.eqb_spec τ kNoMaterializationThreadToken) as [->|Hz]; [discriminate|].
    unfold cycle_guard. case_decide as Hd; simpl; [discriminate|]. intros [= <-].
    apply guard_inv; [exact H|exact Hpc|exact Hz| | |].
    + intros k. rewrite elem_of_cons. naive_solver.
    + simpl. by rewrite reverse_cons, (inv_stack _ H).
    + apply NoDup_app. split_and!; [apply (inv_nodup _ H)| |by apply NoDup_singleton].
      by intros x Hx ->%list_elem_of_singleton.
  - destruct (at_pc (threads S τ)) eqn:Hpc; try discriminate.
    destruct (frames (threads S τ)) as [|[k|d] fs] eqn:Hf; try discriminate. intros [= <-].
    assert (Hz : τ ≠ kNoMaterializationThreadToken).
    { intros ->. by rewrite (proj2 (inv_zero _ H)) in Hf. }
    pose proof (inv_nodup _ H τ) as Hnd. pose proof (inv_stack _ H τ) as Hs.
    rewrite Hf in Hs. simpl in Hs. rewrite reverse_cons in Hs.
    assert (pop_back (stack (threads S τ)) = reverse (frame_id <$> fs)) as Hpop.
    { unfold pop_back. rewrite Hs, length_app. simpl. by rewrite Nat.add_sub, take_app_length. }
    apply guard_inv; [exact H|exact Hpc|exact Hz| |exact Hpop|].
    + intros k. rewrite Hf, elem_of_cons. naive_solver.
    + rewrite Hpop. rewrite Hs in Hnd. by apply NoDup_app in Hnd as [? _].
  - intros [= <-]. destruct H as [Ha Hb Hc Hd He Hf Hg Hh Hi Hj].
    constructor; simpl; [exact Ha|exact Hb|exact Hc|exact Hd|exact He|exact Hf|exact Hg| |
      |exact Hj].
    + intros k τ Hin%Hh. set_solver.
    + eapply wf_weaken, Hi. done.
Qed.

Lemma run_inv es S S' : inv S → run es S = Some S' → inv S'.
Proof.
  revert S. induction es as [|e es IH]; simpl; intros S H; [intros [= <-]; exact H|].
  destruct (exec e S) as [S1|] eqn:E; [|discriminate]. simpl. apply IH. eapply exec_inv; eassumption.
Qed.

Lemma reachable_inv S : reachable S → inv S.
Proof. intros [es He]. eapply run_inv, He. apply inv_init. Qed.

(** ** Properties *)

(** C1 Mutual exclusion of construction: over every interleaving, a bean (a
    descriptor in one scope, or a singleton) is under construction by at most
    one thread and at most once, and never while its store already holds an
    instance; so no instance is ever constructed twice or overwritten. *)
Theorem construction_exclusive (S : sys) (k : MaterializationKey) (a b : N) :
  reachable S → Owning k ∈ frames (threads S a) →
  k ∉ stored S ∧ NoDup (frames (threads S a)) ∧
  (Owning k ∈ frames (threads S b) → a = b).
Proof.
  intros H%reachable_inv Ha. pose proof Ha as Hin%(inv_owner _ H). split_and!.
  - by eapply inv_fresh.
  - pose proof (inv_nodup _ H a) as Hnd. rewrite (inv_stack _ H) in Hnd.
    rewrite reverse_Permutation in Hnd. by eapply NoDup_fmap_1.
  - intros Hb%(inv_owner _ H). by eapply entry_unique; [apply (inv_keys _ H)|..].
Qed.

Definition two_threads : list event :=
  [EClaim 1 (Key 7 nullptr); EClaim 2 (Key 8 nullptr); EClaim 2 (Key 7 nullptr)].

Lemma construction_exclusive_witness :
  let S := default init (run two_threads init) in
  Owning (Key 7 nullptr) ∈ frames (threads S 1) ∧
  Key 7 nullptr ∉ stored S ∧ NoDup (frames (threads S 1)) ∧
  (Owning (Key 7 nullptr) ∈ frames (threads S 2) → 1 = 2).
Proof.
  assert (Hin : Owning (Key 7 nullptr) ∈ frames (threads (default init (run two_threads init)) 1)).
  { apply (bool_decide_unpack _). by vm_compute. }
  split; [exact Hin|]. apply construction_exclusive; [|exact Hin].
  exists two_threads. by vm_compute.
Defined.

(** A claim decides exactly: for a running thread it reports an intra-thread
    cycle iff the descriptor is already on the thread's own materialization
    stack; otherwise it returns the stored bean iff there is one, claims the
    bean iff nobody constructs it, reports a cross-thread cycle iff the owner
    is (transitively) waiting for the calling thread, and else waits.  The
    bounded walk of the wait graph is thus sound and complete, and no assertion
    on the wait slots can fail. *)
Theorem claim_decides (S : sys) (τ : N) (key : MaterializationKey) :
  reachable S → at_pc (threads S τ) = Running → τ ≠ kNoMaterializationThreadToken →
  let onstack := key_descId key ∈ stack (threads S τ) in
  let owned o := Entry key o ∈ materializing_ (registry S) in
  ∃ v st R,
    claim_enter τ (stack (threads S τ)) key (is_stored S key) (registry S) = Some (v, st, R) ∧
    (v = IntraThreadCycle ↔ onstack) ∧
    (v = AlreadyThere ↔ ¬ onstack ∧ key ∈ stored S) ∧
    (v = Claimed ↔ ¬ onstack ∧ key ∉ stored S ∧ ∀ o, ¬ owned o) ∧
    (v = CrossThreadCycle ↔ ¬ onstack ∧ ∃ o, owned o ∧ rtc (waits_for S) o τ) ∧
    (v = MustWait ↔ ¬ onstack ∧ ∃ o, owned o ∧ ¬ rtc (waits_for S) o τ).
Proof.
  intros H%reachable_inv Hpc Hz onstack owned.
  destruct (enter_ok S τ key H Hz Hpc) as (v & st & R & He & _ & Hv).
  exists v, st, R. split; [done|].
  assert (Huniq : ∀ a b, owned a → owned b → a = b).
  { intros a b Ha Hb. by eapply entry_unique; [apply (inv_keys _ H)|..]. }
  assert (Hfresh : ∀ a, owned a → key ∉ stored S) by (intros a; apply (inv_fresh _ H)).
  destruct Hv as [[-> Hin]|[Hnin Hv]]; [naive_solver|].
  destruct v; simpl in Hv; [naive_solver..| |].
  - destruct Hv as (o & Ho & Hne & Hr). split_and!; [naive_solver..| |].
    + split; [intros _|done]. split; [done|]. by exists o.
    + split; [done|]. intros (_ & o' & Ho' & Hr'). by rewrite (Huniq _ _ Ho Ho') in Hr.
  - destruct Hv as (o & Ho & Hne & Hr). split_and!; [naive_solver..| |].
    + split; [done|]. intros (_ & o' & Ho' & Hr'). by rewrite (Huniq _ _ Ho' Ho) in Hr'.
    + split; [intros _|done]. split; [done|]. by exists o.
Qed.

(** C2 Deadlock freedom: no set of threads ever waits for each other in a
    circle, and no wake-up is lost: following the owners from any waiting
    thread one arrives at a thread that can run, or at one that has been
    notified (and whose next pass over the loop never fails an assertion), or a
    notification is about to be sent. *)
Theorem claims_deadlock_free (S : sys) (a : N) (k : MaterializationKey) (n : bool) :
  reachable S → at_pc (threads S a) = Waiting k n →
  ¬ tc (waits_for S) a a ∧
  ∃ b, rtc (waits_for S) a b ∧ (∀ c, ¬ waits_for S b c) ∧
    match at_pc (threads S b) with
    | Running | Notifying => True
    | Waiting _ true => is_Some (exec (EWake b) S)
    | Waiting _ false => ∃ σ, at_pc (threads S σ) = Notifying
    end.
Proof.
  intros H%reachable_inv Hpc. split; [apply wf_no_cycle, (inv_acyclic _ H)|].
  destruct (wf_sink (waits_for S) a (inv_acyclic _ H)) as (b & Hab & Hb).
  { intros x. destruct (at_pc (threads S x)) as [|k' n'|] eqn:E.
    - right. intros y (k' & n' & Hk & _). congruence.
    - destruct (find_entry k' (materializing_ (registry S))) as [[i o]|] eqn:Hf.
      + left. eexists. by eapply find_entry_waits.
      + right. intros y (k2 & n2 & Hk & Hin).
        assert (k2 = k') as -> by congruence.
        by apply (find_entry_None _ _ _ Hf Hin).
    - right. intros y (k' & n' & Hk & _). congruence. }
  exists b. split_and!; [done..|].
  destruct (at_pc (threads S b)) as [|k' [|]|] eqn:E; [done| | |done].
  - simpl. rewrite E. destruct (wake_ok S b k' true H E) as (v & st & R & -> & _). by eexists.
  - destruct (inv_notify _ H _ _ E) as [[o Ho]|]; [|done].
    destruct (Hb o). by exists k', false.
Qed.

Lemma claims_deadlock_free_witness :
  let S := default init (run two_threads init) in
  at_pc (threads S 2) = Waiting (Key 7 nullptr) false ∧
  ¬ tc (waits_for S) 2 2 ∧
  ∃ b, rtc (waits_for S) 2 b ∧ (∀ c, ¬ waits_for S b c) ∧
    match at_pc (threads S b) with
    | Running | Notifying => True
    | Waiting _ true => is_Some (exec (EWake b) S)
    | Waiting _ false => ∃ σ, at_pc (threads S σ) = Notifying
    end.
Proof.
  assert (Hpc : at_pc (threads (default init (run two_threads init)) 2)
    = Waiting (Key 7 nullptr) false) by by vm_compute.
  split; [exact Hpc|].
  apply (claims_deadlock_free _ 2 (Key 7 nullptr) false); [|exact Hpc].
  exists two_threads. by vm_compute.
Defined.

(** The materialization stack records descriptors without their scope: while
    a thread constructs the session bean of descriptor 7 for one scope, its
    request for the bean of the same descriptor in another scope, which nobody
    constructs and no construction waits for, is refused as a dependency cycle
    although the table of claims treats the two as independent. *)
Theorem cross_scope_false_cycle :
  let S := default init (run [EClaim 1 (Key 7 100)] init) in
  reachable S ∧
  (∀ o, Entry (Key 7 200) o ∉ materializing_ (registry S)) ∧ Key 7 200 ∉ stored S ∧
  ∃ st R, claim_enter 1 (stack (threads S 1)) (Key 7 200) (is_stored S (Key 7 200)) (registry S)
            = Some (IntraThreadCycle, st, R) ∧
          ∃ st' R', claim_enter 2 (stack (threads S 2)) (Key 7 200) (is_stored S (Key 7 200))
                      (registry S) = Some (Claimed, st', R').
Proof.
  intros S. split_and!.
  - exists [EClaim 1 (Key 7 100)]. by vm_compute.
  - intros o Ho. vm_compute in Ho. inversion Ho as [|? ? ? Ho']; subst. inversion Ho'.
  - set_solver.
  - do 2 eexists. split; [by vm_compute|]. do 2 eexists. by vm_compute.
Qed.

End Claims.
