(* ===== verification/Handles.v ===== *)
(** Handles: the values the container hands out.

    [Module Handle] models [api/ctr/Bean.hpp] and [api/ctr/AnyBean.hpp] (one
    layout: an object pointer, a 64-bit union and an anchor), the type-erased
    [MaterializedBeanHandle] of [internal/detail/Registry.hpp], and the special
    member functions, whose reference counting is run against the prototype
    store of [Prototypes]. *)
From S2P Require Import Prelude Freelist Prototypes.

Local Open Scope N_scope.

Module Handle.
Import Treiber.

(** ** Layout *)

(** [void* registry_]: a registry, or the prototype store block of one. *)
Inductive anchor : Type :=
| ANull
| ARegistry (registry : N)
| AStore (registry : N).

#[export] Instance anchor_eq_dec : EqDecision anchor.
Proof. solve_decision. Defined.

(** The union [Bits] is its [u64] member: [f1.slot] and [f2.scopeNameId] are the
    low word, both [descId] the high word. *)
Record Bean : Type := {
  object_ : ptr;
  bits_ : N;
  registry_ : anchor
}.

#[export] Instance Bean_eq_dec : EqDecision Bean.
Proof. solve_decision. Defined.

(** [AnyBean] has the same fields and the same member functions. *)
Definition AnyBean : Type := Bean.

Definition empty : Bean := {| object_ := nullptr; bits_ := 0; registry_ := ANull |}.

Definition high (b : N) : N := N.shiftr b 32.

Definition slot (b : Bean) : SlotId := low (bits_ b).

Definition scopeNameId (b : Bean) : NameId := low (bits_ b).

Definition descId (b : Bean) : DescriptorId := high (bits_ b).

(** Writing [bits_.f1.descId] (or [f2.descId]) alone. *)
Definition set_descId (d : DescriptorId) (bits : N) : N := pack d (low bits).

(** ** Construction *)

Definition makeDirect (instance : ptr) (s : SlotId) (d : DescriptorId) (reg : N) : Bean :=
  {| object_ := instance; bits_ := pack d s;
     registry_ := if negb (s =? kInvalidSlotId) then AStore reg else ARegistry reg |}.

Definition makeProxy (scope : NameId) (d : DescriptorId) (reg : N) : Bean :=
  {| object_ := nullptr; bits_ := pack d scope; registry_ := ARegistry reg |}.

Definition makeDeferred (scope : NameId) (d : DescriptorId) (reg : N) : Bean :=
  makeProxy scope d reg.

Definition makeThreadLocal (d : DescriptorId) (reg : N) : Bean :=
  {| object_ := nullptr; bits_ := pack d kThreadLocalSentinel; registry_ := ARegistry reg |}.

(** The guard every special member function tests before tracking. *)
Definition tracked (b : Bean) : bool :=
  negb (low (bits_ b) =? kInvalidSlotId) && negb (object_ b =? nullptr).

(** [registry()]. *)
Definition registry (b : Bean) : anchor :=
  if tracked b then
    match registry_ b with AStore r => ARegistry r | a => a end
  else registry_ b.

(** [operator->]: what it returns, or the path it takes. *)
Inductive access : Type :=
| Object (p : ptr)
| NullAccess
| ViaThreadLocal (d : DescriptorId)
| ViaProxy (scope : NameId) (d : DescriptorId).

Definition arrow (b : Bean) : access :=
  if negb (object_ b =? nullptr) then Object (object_ b)
  else
    match registry_ b with
    | ANull => NullAccess
    | _ => if scopeNameId b =? kThreadLocalSentinel then ViaThreadLocal (descId b)
           else ViaProxy (scopeNameId b) (descId b)
    end.

(** [operator==]. *)
Definition bean_eqb (a b : Bean) : bool :=
  (object_ a =? object_ b) && (bits_ a =? bits_ b) && bool_decide (registry_ a = registry_ b).

(** ** [MaterializedBeanHandle] *)

Inductive MaterializedHandleForm : Type := Direct | Proxy | ThreadLocal.

Definition kMaterializedProxySlot : SlotId := kInvalidSlotId - 1.
Definition kMaterializedThreadLocalSlot : SlotId := kInvalidSlotId - 2.

Record MaterializedBeanHandle : Type := {
  value : N;
  bits : N
}.

Definition direct (instance : ptr) (s : SlotId) (d : DescriptorId) : MaterializedBeanHandle :=
  {| value := instance; bits := pack d s |}.

Definition proxy (scope : NameId) (d : DescriptorId) : MaterializedBeanHandle :=
  {| value := scope; bits := pack d kMaterializedProxySlot |}.

Definition threadLocal (d : DescriptorId) : MaterializedBeanHandle :=
  {| value := 0; bits := pack d kMaterializedThreadLocalSlot |}.

Definition m_slot (h : MaterializedBeanHandle) : SlotId := low (bits h).

Definition m_descId (h : MaterializedBeanHandle) : DescriptorId := u32 (N.shiftr (bits h) 32).

Definition m_instance (h : MaterializedBeanHandle) : ptr := value h.

Definition m_scopeNameId (h : MaterializedBeanHandle) : NameId := u32 (value h).

Definition form (h : MaterializedBeanHandle) : MaterializedHandleForm :=
  if m_slot h =? kMaterializedProxySlot then Proxy
  else if m_slot h =? kMaterializedThreadLocalSlot then ThreadLocal
  else Direct.

(** [Registry::materializeOne<T>]: the typed handle of a type-erased result. *)
Definition materializeOne (h : MaterializedBeanHandle) (reg : N) : Bean :=
  match form h with
  | Direct => makeDirect (m_instance h) (m_slot h) (m_descId h) reg
  | Proxy => makeProxy (m_scopeNameId h) (m_descId h) reg
  | ThreadLocal => makeThreadLocal (m_descId h) reg
  end.

(** ** Packing *)

Lemma high_pack d s : s < two32 → high (pack d s) = d.
Proof.
  intros H. unfold high, pack. rewrite N.shiftr_lor, N.shiftr_shiftl_l by done.
  rewrite N.sub_diag, N.shiftl_0_r. rewrite (N.shiftr_eq_0 s 32), N.lor_0_r; [done|].
  destruct (decide (s = 0)) as [->|Hne]; [done|]. apply N.log2_lt_pow2; [lia|].
  exact H.
Qed.

Lemma pack_inj d d' s s' :
  s < two32 → s' < two32 → pack d s = pack d' s' → d = d' ∧ s = s'.
Proof.
  intros H H' Heq. split.
  - by rewrite <-(high_pack d s), <-(high_pack d' s'), Heq.
  - by rewrite <-(low_pack d s), <-(low_pack d' s'), Heq.
Qed.

Lemma u32_high d s : d < two32 → s < two32 → u32 (N.shiftr (pack d s) 32) = d.
Proof.
  intros Hd Hs. change (N.shiftr (pack d s) 32) with (high (pack d s)).
  by rewrite high_pack, u32_small.
Qed.

Lemma wrap_direct p s d reg :
  s < kMaterializedThreadLocalSlot ∨ s = kInvalidSlotId → d < two32 →
  materializeOne (direct p s d) reg = makeDirect p s d reg.
Proof.
  intros Hs Hd.
  assert (Hs32 : s < two32).
  { unfold kMaterializedThreadLocalSlot, kInvalidSlotId, two32 in *. lia. }
  unfold materializeOne, form, m_slot, m_descId, direct; simpl.
  rewrite low_pack, u32_high by done.
  destruct (N.eqb_spec s kMaterializedProxySlot) as [->|_]; [by destruct Hs|].
  destruct (N.eqb_spec s kMaterializedThreadLocalSlot) as [->|_]; [by destruct Hs|].
  done.
Qed.

Lemma wrap_proxy n d reg :
  n < two32 → d < two32 → materializeOne (proxy n d) reg = makeProxy n d reg.
Proof.
  intros Hn Hd. unfold materializeOne, form, m_slot, m_descId, m_scopeNameId, proxy; simpl.
  rewrite low_pack, u32_high, u32_small by done. done.
Qed.

Lemma wrap_threadLocal d reg :
  d < two32 → materializeOne (threadLocal d) reg = makeThreadLocal d reg.
Proof.
  intros Hd. unfold materializeOne, form, m_slot, m_descId, threadLocal; simpl.
  rewrite low_pack, u32_high by done. done.
Qed.

(** Type-erased results survive their packing: for every instance, prototype
    slot (or the no-slot sentinel), descriptor and interned scope name,
    [materializeOne] rebuilds from the packed words exactly the handle of the
    form that was packed, and dereferencing that handle takes the path of its
    form with the packed ids: the object itself, the proxy lookup of the scope
    and descriptor, or the thread-local lookup; only a prototype's handle is
    reference-counted. *)
Theorem materialized_handle_roundtrip (p : ptr) (s : SlotId) (d : DescriptorId)
    (n : NameId) (reg : N) :
  s < kMaterializedThreadLocalSlot ∨ s = kInvalidSlotId →
  d < two32 → n < kThreadLocalSentinel → p ≠ nullptr →
  let bd := materializeOne (direct p s d) reg in
  let bp := materializeOne (proxy n d) reg in
  let bt := materializeOne (threadLocal d) reg in
  (bd = makeDirect p s d reg ∧ slot bd = s ∧ descId bd = d ∧ arrow bd = Object p ∧
   tracked bd = negb (s =? kInvalidSlotId) ∧ registry bd = ARegistry reg) ∧
  (bp = makeProxy n d reg ∧ arrow bp = ViaProxy n d ∧ tracked bp = false) ∧
  (bt = makeThreadLocal d reg ∧ arrow bt = ViaThreadLocal d ∧ tracked bt = false).
Proof.
  intros Hs Hd Hn Hp. simpl.
  assert (Hs32 : s < two32).
  { unfold kMaterializedThreadLocalSlot, kInvalidSlotId, two32 in *. lia. }
  assert (Hn32 : n < two32).
  { unfold kThreadLocalSentinel, kInvalidNameId, two32 in *. lia. }
  assert (Ht32 : kThreadLocalSentinel < two32) by done.
  rewrite wrap_direct, wrap_proxy, wrap_threadLocal by done.
  apply N.eqb_neq in Hp. assert (Hn' : n ≠ kThreadLocalSentinel) by lia. apply N.eqb_neq in Hn'.
  unfold slot, descId, arrow, tracked, registry, tracked, scopeNameId, descId,
    makeDirect, makeProxy, makeThreadLocal; simpl.
  rewrite !low_pack, !high_pack by done.
  rewrite Hp, Hn', N.eqb_refl; simpl. rewrite !andb_false_r, andb_true_r.
  split_and!; try done. by destruct (s =? kInvalidSlotId).
Qed.

(** ** Special member functions

    The handles of a program, by variable, and the prototype store they are
    anchored to.  A last release destroys the object and reclaims its slot
    ([Bean::releaseIfPrototype], [Registry::releasePrototypeLast]); the
    interleavings inside it are those of [Prototypes]. *)

Abbreviation var := N (only parsing).

Record program : Type := {
  vars : gmap N Bean;
  protos : PrototypeStore.sys
}.

Definition retainIfPrototype (b : Bean) (X : PrototypeStore.sys) : option PrototypeStore.sys :=
  PrototypeStore.exec None (PrototypeStore.OpCopy (slot b)) X.

Definition releaseIfPrototype (b : Bean) (X : PrototypeStore.sys) : option PrototypeStore.sys :=
  X1 ← PrototypeStore.exec None (PrototypeStore.OpDrop (slot b)) X;
  if decide (slot b ∈ PrototypeStore.dying X1)
  then PrototypeStore.exec None (PrototypeStore.OpReclaim (slot b)) X1
  else Some X1.

Definition retain_guarded (b : Bean) (X : PrototypeStore.sys) : option PrototypeStore.sys :=
  if tracked b then retainIfPrototype b X else Some X.

Definition release_guarded (b : Bean) (X : PrototypeStore.sys) : option PrototypeStore.sys :=
  if tracked b then releaseIfPrototype b X else Some X.

(** [Bean(const Bean&)]: [dst] is the new variable. *)
Definition copy_construct (dst src : var) (P : program) : option program :=
  other ← vars P !! src;
  X ← retain_guarded other (protos P);
  Some {| vars := <[dst := other]> (vars P); protos := X |}.

(** [Bean(Bean&&)] *)
Definition move_construct (dst src : var) (P : program) : option program :=
  other ← vars P !! src;
  Some {| vars := <[dst := other]> (<[src := empty]> (vars P)); protos := protos P |}.

(** [operator=(const Bean&)] *)
Definition copy_assign (dst src : var) (P : program) : option program :=
  if decide (dst = src) then Some P
  else
    this ← vars P !! dst; other ← vars P !! src;
    X1 ← release_guarded this (protos P);
    X2 ← retain_guarded other X1;
    Some {| vars := <[dst := other]> (vars P); protos := X2 |}.

(** [operator=(Bean&&)] *)
Definition move_assign (dst src : var) (P : program) : option program :=
  if decide (dst = src) then Some P
  else
    this ← vars P !! dst; other ← vars P !! src;
    X1 ← release_guarded this (protos P);
    Some {| vars := <[dst := other]> (<[src := empty]> (vars P)); protos := X1 |}.

(** [~Bean()] *)
Definition destruct_ (x : var) (P : program) : option program :=
  b ← vars P !! x;
  X ← release_guarded b (protos P);
  Some {| vars := delete x (vars P); protos := X |}.

(** The prototype case of a resolution, with the handle it returns bound to a
    new variable. *)
Definition materialize (dst : var) (d : DescriptorId) (m : ptr) (P : program) : option program :=
  match PrototypeStore.allocate None d m (PrototypeStore.store (protos P)) with
  | (Ok s, _) =>
      X1 ← PrototypeStore.exec None (PrototypeStore.OpBegin d m) (protos P);
      X2 ← PrototypeStore.exec None (PrototypeStore.OpFinish s) X1;
      Some {| vars := <[dst := makeDirect m s d 1]> (vars P); protos := X2 |}
  | _ => None
  end.

Inductive hop : Type :=
| HMake (dst : var) (d : DescriptorId) (m : ptr)
| HCopy (dst src : var)
| HMove (dst src : var)
| HCopyAssign (dst src : var)
| HMoveAssign (dst src : var)
| HDestroy (x : var)
| HSweep (s : SlotId)
| HRegistryDead.

(** [HSweep] and [HRegistryDead] are the registry's teardown, which handles may
    outlive. *)
Definition hexec (o : hop) (P : program) : option program :=
  match o with
  | HMake dst d m => materialize dst d m P
  | HCopy dst src => copy_construct dst src P
  | HMove dst src => move_construct dst src P
  | HCopyAssign dst src => copy_assign dst src P
  | HMoveAssign dst src => move_assign dst src P
  | HDestroy x => destruct_ x P
  | HSweep s =>
      X ← PrototypeStore.exec None (PrototypeStore.OpSweep s) (protos P);
      Some {| vars := vars P; protos := X |}
  | HRegistryDead =>
      X ← PrototypeStore.exec None PrototypeStore.OpMarkDead (protos P);
      Some {| vars := vars P; protos := X |}
  end.

(** A handle may be copied while its object exists. *)
Definition alive_object (b : Bean) (X : PrototypeStore.sys) : Prop :=
  tracked b = true → PrototypeStore.memoryAt (PrototypeStore.store X) (slot b) ≠ nullptr.

(** When a C++ program performs an operation: new variables are new, operands
    exist, a copied prototype's object has not been torn down. *)
Definition hop_ok (o : hop) (P : program) : Prop :=
  N.of_nat (size (vars P)) + 1 < two32 ∧
  match o with
  | HMake dst d m =>
      vars P !! dst = None ∧ PrototypeStore.allowed None (PrototypeStore.OpBegin d m) (protos P)
  | HCopy dst src =>
      vars P !! dst = None ∧ ∃ b, vars P !! src = Some b ∧ alive_object b (protos P)
  | HMove dst src => vars P !! dst = None ∧ is_Some (vars P !! src)
  | HCopyAssign dst src =>
      is_Some (vars P !! dst) ∧ ∃ b, vars P !! src = Some b ∧ alive_object b (protos P)
  | HMoveAssign dst src => is_Some (vars P !! dst) ∧ is_Some (vars P !! src)
  | HDestroy x => is_Some (vars P !! x)
  | HSweep s => True
  | HRegistryDead => PrototypeStore.allowed None PrototypeStore.OpMarkDead (protos P)
  end.

Definition hstart : program := {| vars := ∅; protos := PrototypeStore.start |}.

Inductive hreach : program → Prop :=
| hreach_start : hreach hstart
| hreach_step P o P' : hreach P → hop_ok o P → hexec o P = Some P' → hreach P'.

(** ** Counting handles *)

Definition tracked_at (s : SlotId) (b : Bean) : bool := tracked b && (slot b =? s).

Definition one (b : bool) : nat := if b then 1 else 0.

Definition count (s : SlotId) (env : gmap N Bean) : nat :=
  size (filter (λ kv, tracked_at s kv.2 = true) env).

Lemma count_new s x b env :
  env !! x = None → count s (<[x := b]> env) = (one (tracked_at s b) + count s env)%nat.
Proof.
  intros H. unfold count. destruct (tracked_at s b) eqn:E; simpl.
  - rewrite map_filter_insert_True by done.
    rewrite map_size_insert_None; [done|]. apply map_lookup_filter_None. by left.
  - rewrite map_filter_insert_False by (simpl; by rewrite E). by rewrite delete_id.
Qed.

Lemma count_delete s x b env :
  env !! x = Some b → count s env = (one (tracked_at s b) + count s (delete x env))%nat.
Proof.
  intros H. rewrite <-(insert_delete_id env x b) at 1 by done.
  apply count_new. apply lookup_delete_eq.
Qed.

Lemma count_replace s x b b' env :
  env !! x = Some b →
  (count s (<[x := b']> env) + one (tracked_at s b) = one (tracked_at s b') + count s env)%nat.
Proof.
  intros H. rewrite (count_delete s x b env H), <-(insert_delete_eq env x b').
  rewrite count_new by apply lookup_delete_eq. lia.
Qed.

Lemma count_le s env : (count s env ≤ size env)%nat.
Proof. apply map_subseteq_size, map_filter_subseteq. Qed.

Lemma count_pos s x b env :
  env !! x = Some b → tracked_at s b = true → (0 < count s env)%nat.
Proof. intros H E. rewrite (count_delete s x b env H), E. simpl. lia. Qed.

Lemma tracked_at_slot b : tracked b = true → tracked_at (slot b) b = true.
Proof. intros H. unfold tracked_at. by rewrite H, N.eqb_refl. Qed.

Lemma tracked_at_other s b : s ≠ slot b → tracked_at s b = false.
Proof. intros H. unfold tracked_at. apply andb_false_intro2, N.eqb_neq. congruence. Qed.

Lemma untracked_at s b : tracked b = false → tracked_at s b = false.
Proof. intros H. unfold tracked_at. by rewrite H. Qed.

(** ** What the store operations do to the reference counts *)

Abbreviation refs X s := (default 0 (PrototypeStore.handles X !! s)) (only parsing).

(** The object of a slot no operation names stays where it is. *)
Definition same_memory (s : SlotId) (S S' : PrototypeStore.t) : Prop :=
  PrototypeStore.slotCount_ S' = PrototypeStore.slotCount_ S ∧
  ∀ t, t ≠ s → PrototypeStore.memoryAt S' t = PrototypeStore.memoryAt S t.

Lemma same_memory_trans s S1 S2 S3 :
  same_memory s S1 S2 → same_memory s S2 S3 → same_memory s S1 S3.
Proof.
  intros [H1 H2] [H3 H4]. split; [congruence|]. intros t Ht. by rewrite H4, H2.
Qed.

Lemma same_memory_chunks s S S' :
  PrototypeStore.slotCount_ S' = PrototypeStore.slotCount_ S →
  PrototypeStore.chunks_ S' = PrototypeStore.chunks_ S → same_memory s S S'.
Proof.
  intros H1 H2. split; [done|]. intros t _.
  unfold PrototypeStore.memoryAt, PrototypeStore.cellAt. by rewrite H1, H2.
Qed.

Lemma setCell_memory s c S :
  is_Some (PrototypeStore.cellAt S s) → same_memory s S (PrototypeStore.setCell s c S).
Proof.
  intros Hs. destruct (PrototypeStore.setCell_same s c S) as (_ & _ & Hn & _).
  split; [done|]. intros t Ht. unfold PrototypeStore.memoryAt.
  by rewrite Hn, PrototypeStore.cellAt_setCell, decide_False.
Qed.

Lemma updCell_memory s f S S' :
  PrototypeStore.updCell s f S = Some S' → same_memory s S S'.
Proof.
  unfold PrototypeStore.updCell. destruct (PrototypeStore.cellAt S s) eqn:E; [|done].
  simpl. intros [= <-]. apply setCell_memory. by eexists.
Qed.

Lemma refcount_memory s n S S' t :
  PrototypeStore.updCell s (PrototypeStore.set_refcount n) S = Some S' →
  PrototypeStore.memoryAt S' t = PrototypeStore.memoryAt S t.
Proof.
  intros H. destruct (decide (t = s)) as [->|Hne]; [|by apply (updCell_memory _ _ _ _ H)].
  unfold PrototypeStore.updCell in H. destruct (PrototypeStore.cellAt S s) as [c|] eqn:E; [|done].
  simpl in H. simplify_eq.
  destruct (PrototypeStore.setCell_same s (PrototypeStore.set_refcount n c) S) as (_ & _ & Hn & _).
  unfold PrototypeStore.memoryAt.
  rewrite Hn, PrototypeStore.cellAt_setCell, decide_True, E by (done || by eexists). done.
Qed.

Lemma reclaimSlot_memory s S S' :
  PrototypeStore.reclaimSlot s S = Some S' → same_memory s S S'.
Proof.
  unfold PrototypeStore.reclaimSlot.
  destruct (PrototypeStore.updCell s _ S) as [S1|] eqn:E; [|done]. simpl.
  destruct (PrototypeStore.cellAt S1 s) as [c|]; [|done]. simpl.
  unfold PrototypeStore.releaseLiveSlot. simpl. case_match; [done|]. intros [= <-].
  eapply same_memory_trans; [by eapply updCell_memory|].
  unfold PrototypeStore.tryDeleteIfUnused. repeat case_match; by apply same_memory_chunks.
Qed.

Lemma take_memory s S :
  same_memory s S (PrototypeStore.takeSlotMetaForDestruction s S).2.
Proof.
  unfold PrototypeStore.takeSlotMetaForDestruction. case_match; [by apply same_memory_chunks|].
  destruct (PrototypeStore.cellAt S s) eqn:E; [|by apply same_memory_chunks].
  apply setCell_memory. by eexists.
Qed.

Lemma exec_reach o X :
  PrototypeStore.reach None X → PrototypeStore.allowed None o X →
  ∃ X', PrototypeStore.exec None o X = Some X' ∧ PrototypeStore.reach None X'.
Proof.
  intros HX Ho. pose proof HX as (L & live & Hinv)%PrototypeStore.reach_inv.
  destruct (PrototypeStore.exec_ok None o X L live Hinv Ho) as (X' & _ & _ & He & _).
  exists X'. split; [done|]. by eapply PrototypeStore.reach_step.
Qed.

Lemma retain_ok X b :
  PrototypeStore.reach None X → is_Some (PrototypeStore.handles X !! slot b) →
  refs X (slot b) + 1 < two32 →
  PrototypeStore.memoryAt (PrototypeStore.store X) (slot b) ≠ nullptr →
  ∃ X', retainIfPrototype b X = Some X' ∧ PrototypeStore.reach None X' ∧
    (∀ s, refs X' s = refs X s + N.b2n (s =? slot b)) ∧
    PrototypeStore.pending X' = PrototypeStore.pending X ∧
    PrototypeStore.dying X' = PrototypeStore.dying X.
Proof.
  intros HX [n Hn] Hlt Hmem. rewrite Hn in Hlt. simpl in Hlt.
  destruct (exec_reach (PrototypeStore.OpCopy (slot b)) X HX) as (X' & He & HX').
  { by exists n. }
  exists X'. split; [exact He|]. split; [done|].
  cbn [PrototypeStore.exec] in He.
  destruct (PrototypeStore.retain (slot b) (PrototypeStore.store X)); simplify_eq/=.
  split_and!; [|done..]. intros s. rewrite Hn. simpl.
  destruct (N.eqb_spec s (slot b)) as [->|Hne].
  - by rewrite lookup_insert_eq, Hn.
  - rewrite lookup_insert_ne by done. simpl. lia.
Qed.

Lemma reclaim_step X s :
  PrototypeStore.reach None X → s ∈ PrototypeStore.dying X →
  ∃ X', PrototypeStore.exec None (PrototypeStore.OpReclaim s) X = Some X' ∧
    PrototypeStore.reach None X' ∧
    PrototypeStore.handles X' = PrototypeStore.handles X ∧
    PrototypeStore.pending X' = PrototypeStore.pending X ∧
    PrototypeStore.dying X' = PrototypeStore.dying X ∖ {[s]} ∧
    same_memory s (PrototypeStore.store X) (PrototypeStore.store X').
Proof.
  intros HX Hs.
  destruct (exec_reach (PrototypeStore.OpReclaim s) X HX Hs) as (X' & He & HX').
  exists X'. split; [done|]. split; [done|]. cbn [PrototypeStore.exec] in He.
  destruct (PrototypeStore.reclaimSlot s (PrototypeStore.store X)) eqn:E; simplify_eq/=.
  split_and!; [done..|]. by apply reclaimSlot_memory.
Qed.

Lemma drop_step X s n :
  PrototypeStore.reach None X → PrototypeStore.handles X !! s = Some n →
  ∃ X', PrototypeStore.exec None (PrototypeStore.OpDrop s) X = Some X' ∧
    PrototypeStore.reach None X' ∧
    (∀ t, refs X' t = refs X t - N.b2n (t =? s)) ∧
    PrototypeStore.pending X' = PrototypeStore.pending X ∧
    (PrototypeStore.dying X' = PrototypeStore.dying X ∨
     PrototypeStore.dying X' = {[s]} ∪ PrototypeStore.dying X) ∧
    same_memory s (PrototypeStore.store X) (PrototypeStore.store X') ∧
    (n ≠ 1 → PrototypeStore.dying X' = PrototypeStore.dying X ∧
       PrototypeStore.memoryAt (PrototypeStore.store X') s =
       PrototypeStore.memoryAt (PrototypeStore.store X) s).
Proof.
  intros HX Hn. pose proof HX as (L & live & Hinv)%PrototypeStore.reach_inv.
  pose proof (PrototypeStore.i_core _ _ _ Hinv) as Hc.
  destruct (PrototypeStore.held_place _ _ _ _ _ Hc Hn) as (Hs & _).
  pose proof (PrototypeStore.i_pos _ _ _ Hc _ _ Hn) as Hpos.
  destruct (exec_reach (PrototypeStore.OpDrop s) X HX) as (X' & He & HX'); [by eexists|].
  exists X'. split; [done|]. split; [done|]. cbn [PrototypeStore.exec] in He.
  unfold PrototypeStore.releaseIfPrototype in He.
  destruct (PrototypeStore.cellAt (PrototypeStore.store X) s) as [c|] eqn:Hcell.
  2:{ destruct (PrototypeStore.cellAt_exists _ _ (PrototypeStore.i_chunks _ _ _ Hc) Hs). congruence. }
  pose proof (PrototypeStore.i_ref _ _ _ Hc _ _ Hs Hcell) as Href. rewrite Hn in Href. simpl in Href.
  unfold PrototypeStore.releaseAcquire in He. rewrite Hcell in He. simpl in He.
  rewrite (proj2 (N.ltb_lt _ _) Hs), Href in He.
  destruct (PrototypeStore.updCell s _ _) as [S1|] eqn:Hupd; [|done]. simpl in He.
  rewrite Hn in He. simpl in He. pose proof (updCell_memory _ _ _ _ Hupd) as Hm1.
  assert (Hrefs : ∀ h : gmap N N, (∀ t, default 0 (h !! t) = refs X t - N.b2n (t =? s)) ↔
    (default 0 (h !! s) = n - 1 ∧ ∀ t, t ≠ s → default 0 (h !! t) = refs X t)).
  { intros h. split.
    - intros Ht. split; [by rewrite Ht, Hn, N.eqb_refl|]. intros t Hne. rewrite Ht.
      apply N.eqb_neq in Hne. rewrite Hne. simpl. lia.
    - intros [H1 H2] t. destruct (N.eqb_spec t s) as [->|Hne]; [by rewrite H1, Hn|].
      rewrite H2 by done. simpl. lia. }
  destruct (N.eqb_spec n 1) as [->|Hn1]; simpl in He.
  - destruct (PrototypeStore.alive S1); simpl in He.
    + pose proof (take_memory s S1) as Hm2.
      destruct (PrototypeStore.takeSlotMetaForDestruction s S1) as [meta S2]. simplify_eq/=.
      split; [apply (proj2 (Hrefs _))|split_and!; [done|by right|by eapply same_memory_trans|done]].
      split; [by rewrite lookup_delete_eq|]. intros t Ht. by rewrite lookup_delete_ne.
    + destruct (PrototypeStore.reclaimSlot s S1) as [S2|] eqn:Hrec; simplify_eq/=.
      pose proof (reclaimSlot_memory _ _ _ Hrec) as Hm2.
      split; [apply (proj2 (Hrefs _))|split_and!; [done|by left|by eapply same_memory_trans|done]].
      split; [by rewrite lookup_delete_eq|]. intros t Ht. by rewrite lookup_delete_ne.
  - simplify_eq/=. split; [|split; [done|split; [by left|split; [exact Hm1|]]]].
    + apply (proj2 (Hrefs _)).
      split; [by rewrite lookup_insert_eq|]. intros t Ht. by rewrite lookup_insert_ne.
    + intros _. split; [done|]. by eapply refcount_memory.
Qed.

(** Between two statements no slot is pending or half released. *)
Record settled (X : PrototypeStore.sys) : Prop := {
  set_reach : PrototypeStore.reach None X;
  set_pending : PrototypeStore.pending X = ∅;
  set_dying : PrototypeStore.dying X = ∅
}.

Lemma refs_Some X s : refs X s ≠ 0 → ∃ n, PrototypeStore.handles X !! s = Some n ∧ refs X s = n.
Proof. destruct (PrototypeStore.handles X !! s) as [n|]; [by exists n|done]. Qed.

Lemma tracked_b2n s b : tracked b = true → N.b2n (tracked_at s b) = N.b2n (s =? slot b).
Proof. intros H. unfold tracked_at. rewrite H. simpl. by rewrite N.eqb_sym. Qed.

Lemma retain_guarded_ok X b :
  settled X →
  (tracked b = true → refs X (slot b) ≠ 0 ∧ refs X (slot b) + 1 < two32 ∧
     PrototypeStore.memoryAt (PrototypeStore.store X) (slot b) ≠ nullptr) →
  ∃ X', retain_guarded b X = Some X' ∧ settled X' ∧
    (∀ s, refs X' s = refs X s + N.b2n (tracked_at s b)).
Proof.
  intros [HX Hp Hd] Hb. unfold retain_guarded. destruct (tracked b) eqn:Ht.
  - destruct (Hb eq_refl) as ((n & Hn & _)%refs_Some & Hlt & Hmem).
    destruct (retain_ok X b HX) as (X' & He & HX' & Hr & Hp' & Hd'); [by eexists|done|done|].
    exists X'. split; [done|]. split; [split; congruence|].
    intros s. by rewrite Hr, tracked_b2n.
  - exists X. split_and!; [done|by split|]. intros s. rewrite untracked_at by done. simpl. lia.
Qed.

Lemma release_guarded_ok X b :
  settled X → (tracked b = true → refs X (slot b) ≠ 0) →
  ∃ X', release_guarded b X = Some X' ∧ settled X' ∧
    (∀ s, refs X' s = refs X s - N.b2n (tracked_at s b)) ∧
    (∀ s, tracked_at s b = false ∨ 1 < refs X s →
       PrototypeStore.memoryAt (PrototypeStore.store X') s =
       PrototypeStore.memoryAt (PrototypeStore.store X) s).
Proof.
  intros [HX Hp Hd] Hb. unfold release_guarded. destruct (tracked b) eqn:Ht.
  2:{ exists X. split_and!; [done|by split| |done]. intros s.
      rewrite untracked_at by done. simpl. lia. }
  destruct (refs_Some _ _ (Hb eq_refl)) as (n & Hn & Hrn).
  destruct (drop_step X (slot b) n HX Hn)
    as (X1 & He & HX1 & Hr & Hp1 & Hd1 & [_ Hm1] & Hkeep).
  unfold releaseIfPrototype. rewrite He. simpl.
  assert (Hne : ∀ s, tracked_at s b = false → s ≠ slot b).
  { intros s Hs ->. by rewrite tracked_at_slot in Hs. }
  case_decide as Hin.
  - assert (n = 1) as ->.
    { destruct (decide (n = 1)); [done|]. destruct Hkeep as [Hk _]; [done|].
      rewrite Hk, Hd in Hin. by apply elem_of_empty in Hin. }
    destruct (reclaim_step X1 (slot b) HX1 Hin) as (X2 & He2 & HX2 & Hh & Hp2 & Hd2 & [_ Hm2]).
    exists X2. split; [done|]. split.
    { split; [done|congruence|]. rewrite Hd2. destruct Hd1 as [->| ->]; set_solver. }
    split.
    + intros s. by rewrite Hh, Hr, tracked_b2n.
    + intros s [Hs|Hs].
      * rewrite Hm2, Hm1 by by apply Hne. done.
      * assert (s ≠ slot b) by (intros ->; lia). by rewrite Hm2, Hm1.
  - exists X1. split; [done|]. split.
    { split; [done|congruence|]. destruct Hd1 as [->|Hd1]; [done|]. rewrite Hd1 in Hin. set_solver. }
    split.
    + intros s. by rewrite Hr, tracked_b2n.
    + intros s [Hs|Hs]; [by apply Hm1, Hne|].
      destruct (decide (s = slot b)) as [->|?]; [|by apply Hm1]. apply Hkeep. lia.
Qed.

(** ** The invariant of a program *)

Record hinv (P : program) : Prop := {
  h_settled : settled (protos P);
  h_count s : refs (protos P) s = N.of_nat (count s (vars P))
}.

Lemma hinv_start : hinv hstart.
Proof.
  split; [split; [constructor|done|done]|]. intros s. simpl. rewrite lookup_empty.
  unfold count. by rewrite map_filter_empty, map_size_empty.
Qed.

Lemma b2n_one b : N.b2n b = N.of_nat (one b).
Proof. by destruct b. Qed.

Lemma held_nonzero P x b :
  hinv P → vars P !! x = Some b → tracked b = true → refs (protos P) (slot b) ≠ 0.
Proof.
  intros H Hx Ht. rewrite (h_count _ H).
  pose proof (count_pos _ _ _ _ Hx (tracked_at_slot b Ht)). lia.
Qed.

Lemma handle_copy_ok P dst src b :
  hinv P → N.of_nat (size (vars P)) + 1 < two32 → vars P !! dst = None →
  vars P !! src = Some b → alive_object b (protos P) →
  ∃ P', copy_construct dst src P = Some P' ∧ hinv P'.
Proof.
  intros H Hsz Hd Hs Ha. unfold copy_construct. rewrite Hs. simpl.
  destruct (retain_guarded_ok (protos P) b (h_settled _ H)) as (X & -> & HX & Hr).
  { intros Ht. split_and!; [by eapply held_nonzero| |by apply Ha].
    rewrite (h_count _ H). pose proof (count_le (slot b) (vars P)). lia. }
  simpl. eexists. split; [done|]. split; simpl; [done|]. intros s.
  rewrite Hr, (h_count _ H), count_new, b2n_one by done. lia.
Qed.

Lemma empty_untracked s : tracked_at s empty = false.
Proof. done. Qed.

Lemma move_ok P dst src :
  hinv P → vars P !! dst = None → is_Some (vars P !! src) →
  ∃ P', move_construct dst src P = Some P' ∧ hinv P'.
Proof.
  intros H Hd [b Hs]. unfold move_construct. rewrite Hs. simpl.
  eexists. split; [done|]. split; simpl; [apply H|]. intros s.
  assert (dst ≠ src) by congruence.
  rewrite (h_count _ H), count_new by by rewrite lookup_insert_ne.
  pose proof (count_replace s src b empty _ Hs) as Hc. rewrite empty_untracked in Hc.
  simpl in Hc. lia.
Qed.

Lemma copy_assign_ok P dst src b :
  hinv P → N.of_nat (size (vars P)) + 1 < two32 → is_Some (vars P !! dst) →
  vars P !! src = Some b → alive_object b (protos P) →
  ∃ P', copy_assign dst src P = Some P' ∧ hinv P'.
Proof.
  intros H Hsz [this Hd] Hs Ha. unfold copy_assign. case_decide as Hne; [by exists P|].
  rewrite Hd, Hs. simpl.
  destruct (release_guarded_ok (protos P) this (h_settled _ H)) as (X1 & -> & HX1 & Hr1 & Hm1).
  { intros Ht. by eapply held_nonzero. }
  simpl.
  assert (Hrest : ∀ s, N.of_nat (count s (delete dst (vars P))) = refs X1 s).
  { intros s. rewrite Hr1, (h_count _ H), (count_delete s dst this (vars P)), b2n_one by done. lia. }
  assert (Hs' : delete dst (vars P) !! src = Some b) by by rewrite lookup_delete_ne.
  destruct (retain_guarded_ok X1 b HX1) as (X2 & -> & HX2 & Hr2).
  { intros Ht. pose proof (count_pos _ _ _ _ Hs' (tracked_at_slot b Ht)).
    pose proof (count_le (slot b) (delete dst (vars P))).
    assert (size (delete dst (vars P)) ≤ size (vars P))%nat.
    { apply map_subseteq_size, delete_subseteq. }
    rewrite <-Hrest. split_and!; [lia|lia|]. rewrite Hm1; [by apply Ha|].
    destruct (tracked_at (slot b) this) eqn:E; [right|by left].
    rewrite (h_count _ H), (count_delete _ dst this (vars P)), E by done. simpl. lia. }
  simpl. eexists. split; [done|]. split; simpl; [done|]. intros s.
  rewrite Hr2, <-Hrest, b2n_one, <-(insert_delete_eq (vars P)).
  rewrite count_new by apply lookup_delete_eq. lia.
Qed.

Lemma move_assign_ok P dst src :
  hinv P → is_Some (vars P !! dst) → is_Some (vars P !! src) →
  ∃ P', move_assign dst src P = Some P' ∧ hinv P'.
Proof.
  intros H [this Hd] [b Hs]. unfold move_assign. case_decide as Hne; [by exists P|].
  rewrite Hd, Hs. simpl.
  destruct (release_guarded_ok (protos P) this (h_settled _ H)) as (X1 & -> & HX1 & Hr1 & _).
  { intros Ht. by eapply held_nonzero. }
  simpl. eexists. split; [done|]. split; simpl; [done|]. intros s.
  rewrite Hr1, (h_count _ H), b2n_one.
  assert (Hd' : <[src := empty]> (vars P) !! dst = Some this) by by rewrite lookup_insert_ne.
  pose proof (count_replace s dst this b _ Hd') as Hc1.
  pose proof (count_replace s src b empty _ Hs) as Hc2. rewrite empty_untracked in Hc2.
  simpl in Hc2. lia.
Qed.

Lemma destruct_ok P x :
  hinv P → is_Some (vars P !! x) → ∃ P', destruct_ x P = Some P' ∧ hinv P'.
Proof.
  intros H [b Hx]. unfold destruct_. rewrite Hx. simpl.
  destruct (release_guarded_ok (protos P) b (h_settled _ H)) as (X1 & -> & HX1 & Hr1 & _).
  { intros Ht. by eapply held_nonzero. }
  simpl. eexists. split; [done|]. split; simpl; [done|]. intros s.
  rewrite Hr1, (h_count _ H), (count_delete s x b (vars P)), b2n_one by done. lia.
Qed.

Lemma make_ok P dst d m :
  hinv P → vars P !! dst = None →
  PrototypeStore.allowed None (PrototypeStore.OpBegin d m) (protos P) →
  ∃ P', materialize dst d m P = Some P' ∧ hinv P'.
Proof.
  intros H Hd Hal. destruct (h_settled _ H) as [HX Hp Hdy].
  destruct (exec_reach _ _ HX Hal) as (X1 & He & HX1). unfold materialize.
  pose proof He as He1. cbn [PrototypeStore.exec] in He1.
  destruct (PrototypeStore.allocate None d m (PrototypeStore.store (protos P)))
    as [[s|e| | |] S1]; try done.
  rewrite He. cbn [mbind option_bind]. injection He1 as HX1eq.
  assert (Hin : s ∈ PrototypeStore.pending X1) by (rewrite <-HX1eq; simpl; set_solver).
  destruct (exec_reach (PrototypeStore.OpFinish s) X1 HX1 Hin) as (X2 & He2 & HX2).
  rewrite He2. cbn [mbind option_bind]. eexists. split; [done|].
  pose proof HX1 as (L & live & Hinv)%PrototypeStore.reach_inv.
  pose proof (PrototypeStore.i_core _ _ _ Hinv) as Hc.
  destruct (PrototypeStore.pending_place _ _ _ _ Hc Hin) as (Hs & _ & _ & Hh & _).
  pose proof (PrototypeStore.i_bound _ _ _ Hc) as Hb.
  unfold PrototypeStore.kMaxChunks, PrototypeStore.kChunkSize in Hb.
  assert (Hs32 : s < two32) by (unfold two32; lia).
  assert (Hsi : (s =? kInvalidSlotId) = false) by (apply N.eqb_neq; unfold kInvalidSlotId; lia).
  destruct Hal as (_ & Hm & _). apply N.eqb_neq in Hm.
  cbn [PrototypeStore.exec] in He2.
  destruct (PrototypeStore.slotMetaAt (PrototypeStore.store X1) s) as [[m' d']|]; [|done].
  simpl in He2. destruct (PrototypeStore.activate s (PrototypeStore.store X1)) as [S2|]; [|done].
  simpl in He2. injection He2 as HX2eq.
  split; simpl.
  - split; [done| |]; rewrite <-HX2eq, <-HX1eq; simpl; [|done]. rewrite Hp. set_solver.
  - intros t. rewrite count_new, <-HX2eq by done. rewrite <-HX1eq in Hh |- *. simpl in Hh |- *.
    unfold tracked_at, tracked, slot, makeDirect; simpl. rewrite low_pack, Hsi, Hm by done. simpl.
    destruct (N.eqb_spec s t) as [->|Hne]; simpl.
    + rewrite lookup_insert_eq. simpl.
      pose proof (h_count _ H t) as Ht. rewrite Hh in Ht. simpl in Ht. lia.
    + rewrite lookup_insert_ne by done. apply (h_count _ H).
Qed.

Lemma store_op_ok P o :
  hinv P → PrototypeStore.allowed None o (protos P) →
  (match o with PrototypeStore.OpSweep _ | PrototypeStore.OpMarkDead => True | _ => False end) →
  ∃ X, PrototypeStore.exec None o (protos P) = Some X ∧ hinv {| vars := vars P; protos := X |}.
Proof.
  intros H Hal Ho. destruct (h_settled _ H) as [HX Hp Hdy].
  destruct (exec_reach _ _ HX Hal) as (X & He & HX'). exists X. split; [done|].
  destruct o as [| | | | | |s|]; try done; cbn [PrototypeStore.exec] in He.
  - destruct (PrototypeStore.takeSlotMetaForDestruction s _) as [meta S']. simplify_eq.
    split; [by split|]. apply (h_count _ H).
  - simplify_eq. split; [by split|]. apply (h_count _ H).
Qed.

Lemma hexec_ok P o : hinv P → hop_ok o P → ∃ P', hexec o P = Some P' ∧ hinv P'.
Proof.
  intros H [Hsz Ho]. destruct o as [dst d m|dst src|dst src|dst src|dst src|x|s|]; cbn [hexec].
  - destruct Ho. by apply make_ok.
  - destruct Ho as (Hd & b & Hs & Ha). by eapply handle_copy_ok.
  - destruct Ho. by apply move_ok.
  - destruct Ho as (Hd & b & Hs & Ha). by eapply copy_assign_ok.
  - destruct Ho. by apply move_assign_ok.
  - by apply destruct_ok.
  - destruct (store_op_ok P (PrototypeStore.OpSweep s) H) as (X & He & HX); [|done|].
    + simpl. rewrite (set_pending _ (h_settled _ H)). set_solver.
    + rewrite He. by eexists.
  - destruct (store_op_ok P PrototypeStore.OpMarkDead H Ho) as (X & He & HX); [done|].
    rewrite He. by eexists.
Qed.

Lemma hreach_inv P : hreach P → hinv P.
Proof.
  induction 1 as [|P o P' _ IH Ho He]; [apply hinv_start|].
  destruct (hexec_ok P o IH Ho) as (P1 & He1 & H1). by simplify_eq.
Qed.

(** The assertion of [retain] fails on a handle whose object has been torn down. *)
Lemma dead_retain b X : ¬ alive_object b X → retain_guarded b X = None.
Proof.
  unfold alive_object, retain_guarded, retainIfPrototype. intros Ha.
  destruct (tracked b) eqn:Ht; [|by destruct Ha].
  cbn [PrototypeStore.exec]. unfold PrototypeStore.memoryAt, PrototypeStore.retain in *.
  destruct (PrototypeStore.cellAt (PrototypeStore.store X) (slot b)) as [c|]; [|done]. cbn [mbind option_bind].
  destruct (N.leb_spec (PrototypeStore.slotCount_ (PrototypeStore.store X)) (slot b)) as [Hle|Hlt].
  - by rewrite (proj2 (N.ltb_ge _ _) Hle).
  - destruct (N.eqb_spec (PrototypeStore.memory c) nullptr) as [|Hm]; [by rewrite andb_false_r|].
    by destruct Ha.
Qed.


(** ** A concrete program *)

Definition alive_objectb (b : Bean) (X : PrototypeStore.sys) : bool :=
  negb (tracked b) ||
  negb (PrototypeStore.memoryAt (PrototypeStore.store X) (slot b) =? nullptr).

Definition hop_okb (o : hop) (P : program) : bool :=
  (N.of_nat (size (vars P)) + 1 <? two32) &&
  match o with
  | HMake dst d m =>
      bool_decide (vars P !! dst = None) &&
      PrototypeStore.allowedb None (PrototypeStore.OpBegin d m) (protos P)
  | HCopy dst src =>
      bool_decide (vars P !! dst = None) &&
      match vars P !! src with Some b => alive_objectb b (protos P) | None => false end
  | HMove dst src => bool_decide (vars P !! dst = None) && bool_decide (is_Some (vars P !! src))
  | HCopyAssign dst src =>
      bool_decide (is_Some (vars P !! dst)) &&
      match vars P !! src with Some b => alive_objectb b (protos P) | None => false end
  | HMoveAssign dst src =>
      bool_decide (is_Some (vars P !! dst)) && bool_decide (is_Some (vars P !! src))
  | HDestroy x => bool_decide (is_Some (vars P !! x))
  | HSweep s => true
  | HRegistryDead => PrototypeStore.allowedb None PrototypeStore.OpMarkDead (protos P)
  end.

Lemma alive_objectb_sound b X : alive_objectb b X = true → alive_object b X.
Proof.
  unfold alive_objectb, alive_object.
  rewrite orb_true_iff, !negb_true_iff, N.eqb_neq. intros [?|?] ?; congruence.
Qed.

Lemma hop_okb_sound o P : hop_okb o P = true → hop_ok o P.
Proof.
  unfold hop_okb, hop_ok. rewrite andb_true_iff, N.ltb_lt. intros [? H]. split; [done|].
  destruct o; try (apply andb_true_iff in H as [H1%bool_decide_eq_true H2]);
    try (by apply bool_decide_eq_true in H); try (by apply bool_decide_eq_true in H2); try done.
  - split; [done|]. by apply PrototypeStore.allowedb_sound.
  - split; [done|]. destruct (vars P !! src); [|done]. eexists; split; [done|].
    by apply alive_objectb_sound.
  - split; [done|]. destruct (vars P !! src); [|done]. eexists; split; [done|].
    by apply alive_objectb_sound.
  - by apply PrototypeStore.allowedb_sound.
Qed.

Fixpoint hrun (os : list hop) (P : program) : option program :=
  match os with
  | [] => Some P
  | o :: os' => if hop_okb o P then P' ← hexec o P; hrun os' P' else None
  end.

Lemma hrun_reach os : ∀ P P', hreach P → hrun os P = Some P' → hreach P'.
Proof.
  induction os as [|o os IH]; intros P P' HP; cbn [hrun]; [intros; by simplify_eq|].
  destruct (hop_okb o P) eqn:Ho; [|done]. destruct (hexec o P) as [P1|] eqn:E; [|done].
  simpl. apply IH. eapply hreach_step; [done|by apply hop_okb_sound|done].
Qed.

Definition sample_program : list hop :=
  [HMake 0 7 4096; HCopy 1 0; HMake 2 7 8192; HCopyAssign 2 1; HMove 3 0; HCopyAssign 1 1;
   HMoveAssign 1 3; HDestroy 0; HDestroy 3].

Definition hfinal (os : list hop) : program := default hstart (hrun os hstart).


End Handle.
