(* ===== verification/Casts.v ===== *)
(** Casting a handle.

    [Module Cast] models the cast half of [internal/detail/HandleInlineImpl.hpp]:
    [exact], [compatible], [cast] and [tryCast] through [findAliasByPrimary] and
    [resolveCastTarget], and the typed view a listener of
    [internal/detail/ContextLifecycleImpl.hpp] receives. *)
From S2P Require Import Prelude Freelist Tables Index Handles.

Local Open Scope N_scope.

Module Cast.
Import Handle.

(** The parts of the registry a cast reads. *)
Record view : Type := {
  descriptors : DescriptorTable.t;
  index : TypeIndex.t
}.

Inductive CastTargetKind : Type :=
| Incompatible
| ProxyTarget
| SameExposed
| Concrete
| ExposedAlias
| DowncastUnavailable.

#[export] Instance CastTargetKind_eq_dec : EqDecision CastTargetKind.
Proof. solve_decision. Defined.

Record CastTarget : Type := {
  kind : CastTargetKind;
  t_descId : DescriptorId;
  t_object : ptr
}.

(** [CastTarget{}] *)
Definition no_target : CastTarget :=
  {| kind := Incompatible; t_descId := kInvalidDescriptorId; t_object := nullptr |}.

Definition target_compatible (t : CastTarget) : bool :=
  negb (bool_decide (kind t = Incompatible)).

Definition castable (t : CastTarget) : bool :=
  target_compatible t && negb (bool_decide (kind t = DowncastUnavailable)).

(** ** Lookup; [None] is the failed assertion of a descriptor access *)

Fixpoint check_candidates (R : view) (primary : DescriptorId) (cands : list DescriptorId)
    : option DescriptorId :=
  match cands with
  | [] => Some kInvalidDescriptorId
  | did :: cands' =>
      d ← DescriptorTable.at_ (descriptors R) did;
      if primaryDescriptor d =? primary then Some did else check_candidates R primary cands'
  end.

Definition check (R : view) (primary : DescriptorId) (cands : option (list DescriptorId))
    : option DescriptorId :=
  match cands with
  | None => Some kInvalidDescriptorId
  | Some l => check_candidates R primary l
  end.

Definition findAliasByPrimary (R : view) (uid : TypeId) (name : NameId)
    (primary : DescriptorId) : option DescriptorId :=
  found ← check R primary (TypeIndex.candidatesFor (index R) uid name);
  if (found =? kInvalidDescriptorId) && negb (name =? kUnnamed)
  then check R primary (TypeIndex.candidatesFor (index R) uid kUnnamed)
  else Some found.

Definition primary_of (d : Descriptor) (id : DescriptorId) : DescriptorId :=
  if negb (primaryDescriptor d =? kInvalidDescriptorId) then primaryDescriptor d else id.

Section thunks.
(** The pointer-adjustment thunks, compiled [static_cast]s of user types. *)
Context (call_adjust : FnPtr → ptr → ptr).

Definition adjust (f : option FnPtr) (p : ptr) : ptr :=
  match f with Some g => call_adjust g p | None => p end.

(** [uid] is [reg->typeIdFor<U>()]; a null registry is [None]. *)
Definition resolveCastTarget (reg : option view) (uid : TypeId) (object : ptr)
    (id : DescriptorId) : option CastTarget :=
  match reg with
  | None => Some no_target
  | Some R =>
      if uid =? kInvalidTypeId then Some no_target
      else
        desc ← DescriptorTable.at_ (descriptors R) id;
        cold ← DescriptorTable.coldAt (descriptors R) id;
        let primary := primary_of desc id in
        if exposedType cold =? uid then
          Some {| kind := if object =? nullptr then ProxyTarget else SameExposed;
                  t_descId := id; t_object := object |}
        else
          let concreteTarget := concreteType cold =? uid in
          aliasTarget ← (if concreteTarget then Some kInvalidDescriptorId
                         else findAliasByPrimary R uid (name cold) primary);
          if negb concreteTarget && (aliasTarget =? kInvalidDescriptorId) then Some no_target
          else
            let target := if concreteTarget then primary else aliasTarget in
            if object =? nullptr then
              Some {| kind := ProxyTarget; t_descId := target; t_object := nullptr |}
            else
              match adjustToConcrete cold, negb (primary =? id) with
              | None, true =>
                  Some {| kind := DowncastUnavailable; t_descId := target; t_object := nullptr |}
              | back, _ =>
                  let concretePtr := adjust back object in
                  if concreteTarget then
                    Some {| kind := Concrete; t_descId := primary; t_object := concretePtr |}
                  else
                    targetDesc ← DescriptorTable.at_ (descriptors R) aliasTarget;
                    Some {| kind := ExposedAlias; t_descId := aliasTarget;
                            t_object := adjust (adjustToExposed targetDesc) concretePtr |}
              end
  end.

Definition exact (reg : option view) (uid : TypeId) (b : Bean) : option bool :=
  match reg with
  | None => Some false
  | Some R =>
      if uid =? kInvalidTypeId then Some false
      else cold ← DescriptorTable.coldAt (descriptors R) (descId b);
           Some (concreteType cold =? uid)
  end.

Definition compatible (reg : option view) (uid : TypeId) (b : Bean) : option bool :=
  target_compatible <$> resolveCastTarget reg uid (object_ b) (descId b).

(** The handle built from a castable target, and whether it was retained. *)
Definition cast_result (b : Bean) (t : CastTarget) : Bean * bool :=
  match kind t with
  | ProxyTarget =>
      ({| object_ := nullptr; bits_ := set_descId (t_descId t) (bits_ b);
          registry_ := registry_ b |}, false)
  | SameExposed =>
      let r := {| object_ := t_object t; bits_ := bits_ b; registry_ := registry_ b |} in
      (r, tracked r)
  | _ =>
      let r := {| object_ := t_object t; bits_ := Treiber.pack (t_descId t) (slot b);
                  registry_ := registry_ b |} in
      (r, tracked r)
  end.

Definition cast (reg : option view) (uid : TypeId) (b : Bean) : outcome (Bean * bool) :=
  match resolveCastTarget reg uid (object_ b) (descId b) with
  | None => Ub
  | Some t =>
      if negb (target_compatible t) then
        Throw (ResolutionError "Bean::cast: the bean is not compatible with the requested type.")
      else if negb (castable t) then
        Throw (ResolutionError "Bean::cast: cannot cast from virtual base — downcast unavailable.")
      else Ok (cast_result b t)
  end.

Definition tryCast (reg : option view) (uid : TypeId) (b : Bean) : option (option (Bean * bool)) :=
  t ← resolveCastTarget reg uid (object_ b) (descId b);
  Some (if negb (castable t) then None else Some (cast_result b t)).

(** The wrapper of [BeanContext::on<T>]: [None] when the bean is filtered out,
    else the view the callback gets. *)
Definition typed_view (reg : option view) (regId : N) (uid : TypeId) (b : AnyBean)
    : option (option Bean) :=
  ok ← compatible reg uid b;
  Some (if negb ok then None
        else Some (if object_ b =? nullptr then makeProxy (scopeNameId b) (descId b) regId
                   else makeDirect (object_ b) kInvalidSlotId (descId b) regId)).

(** ** What a cast means *)

(** Every id in the index is a descriptor's. *)
Definition index_ok (R : view) : Prop :=
  ∀ ty n l d, TypeIndex.candidatesFor (index R) ty n = Some l → d ∈ l →
    is_Some (DescriptorTable.at_ (descriptors R) d) ∧ d ≠ kInvalidDescriptorId.

(** [d] exposes the bean of [primary] as a [uid], under its name or unnamed. *)
Definition exposes (R : view) (uid : TypeId) (n : NameId) (primary d : DescriptorId) : Prop :=
  ∃ n' l desc, (n' = n ∨ n' = kUnnamed) ∧
    TypeIndex.candidatesFor (index R) uid n' = Some l ∧ d ∈ l ∧
    DescriptorTable.at_ (descriptors R) d = Some desc ∧ primaryDescriptor desc = primary.

Lemma check_candidates_spec R primary l :
  (∀ d, d ∈ l → is_Some (DescriptorTable.at_ (descriptors R) d) ∧ d ≠ kInvalidDescriptorId) →
  ∃ f, check_candidates R primary l = Some f ∧
    if decide (f = kInvalidDescriptorId)
    then ∀ d desc, d ∈ l → DescriptorTable.at_ (descriptors R) d = Some desc →
           primaryDescriptor desc ≠ primary
    else f ∈ l ∧ ∃ desc, DescriptorTable.at_ (descriptors R) f = Some desc ∧
           primaryDescriptor desc = primary.
Proof.
  induction l as [|d l IH]; simpl; intros Hl.
  { exists kInvalidDescriptorId. split; [done|]. rewrite decide_True by done.
    intros d desc Hd. by apply elem_of_nil in Hd. }
  destruct (Hl d) as [[desc Hdesc] Hinv]; [by left|]. rewrite Hdesc. simpl.
  destruct (N.eqb_spec (primaryDescriptor desc) primary) as [Hp|Hp].
  { exists d. split; [done|]. rewrite decide_False by done. split; [by left|]. by exists desc. }
  destruct IH as (f & Hf & Hspec); [intros d' Hd'; apply Hl; by right|].
  exists f. split; [done|]. destruct (decide (f = kInvalidDescriptorId)).
  - intros d' desc' [->|Hd']%elem_of_cons Hdesc'; [by simplify_eq|]. by eapply Hspec.
  - destruct Hspec as [Hin Hx]. split; [by right|done].
Qed.

Lemma check_spec R primary ty n :
  index_ok R →
  ∃ f, check R primary (TypeIndex.candidatesFor (index R) ty n) = Some f ∧
    if decide (f = kInvalidDescriptorId)
    then ∀ l d desc, TypeIndex.candidatesFor (index R) ty n = Some l → d ∈ l →
           DescriptorTable.at_ (descriptors R) d = Some desc → primaryDescriptor desc ≠ primary
    else ∃ l desc, TypeIndex.candidatesFor (index R) ty n = Some l ∧ f ∈ l ∧
           DescriptorTable.at_ (descriptors R) f = Some desc ∧ primaryDescriptor desc = primary.
Proof.
  intros HR. destruct (TypeIndex.candidatesFor (index R) ty n) as [l|] eqn:E; simpl.
  - destruct (check_candidates_spec R primary l) as (f & Hf & Hspec).
    { intros d Hd. by eapply HR. }
    exists f. split; [done|]. destruct (decide (f = kInvalidDescriptorId)).
    + intros l' d desc [= <-]. apply Hspec.
    + destruct Hspec as [Hin (desc & H1 & H2)]. by exists l, desc.
  - exists kInvalidDescriptorId. by split.
Qed.

Lemma findAlias_spec R uid n primary :
  index_ok R →
  ∃ f, findAliasByPrimary R uid n primary = Some f ∧
    if decide (f = kInvalidDescriptorId) then ∀ d, ¬ exposes R uid n primary d
    else exposes R uid n primary f.
Proof.
  intros HR. unfold findAliasByPrimary.
  destruct (check_spec R primary uid n HR) as (f & -> & Hf). simpl.
  destruct (decide (f = kInvalidDescriptorId)) as [->|Hne].
  - rewrite N.eqb_refl. simpl. destruct (N.eqb_spec n kUnnamed) as [->|Hn]; simpl.
    + exists kInvalidDescriptorId. split; [done|]. rewrite decide_True by done.
      intros d (n' & l & desc & [-> | ->] & Hl & Hd & Ha & Hp); by eapply Hf.
    + destruct (check_spec R primary uid kUnnamed HR) as (g & Hg & Hspec).
      exists g. split; [done|]. destruct (decide (g = kInvalidDescriptorId)) as [->|Hg'].
      * intros d (n' & l & desc & [-> | ->] & Hl & Hd & Ha & Hp); [by eapply Hf|by eapply Hspec].
      * destruct Hspec as (l & desc & ? & ? & ? & ?). exists kUnnamed, l, desc.
        split_and!; [by right|done..].
  - apply N.eqb_neq in Hne as Hne'. rewrite Hne'. simpl. exists f. split; [done|].
    rewrite decide_False by done. destruct Hf as (l & desc & ? & ? & ? & ?).
    exists n, l, desc. split_and!; [by left|done..].
Qed.

Section spec.
Context (R : view) (uid : TypeId) (object : ptr) (id : DescriptorId).
Context (desc : Descriptor) (cold : DescriptorCold).
Hypothesis HR : index_ok R.
Hypothesis Hdesc : DescriptorTable.at_ (descriptors R) id = Some desc.
Hypothesis Hcold : DescriptorTable.coldAt (descriptors R) id = Some cold.
Hypothesis Huid : uid ≠ kInvalidTypeId.

(** The bean can be seen as a [uid]. *)
Definition convertible : Prop :=
  exposedType cold = uid ∨ concreteType cold = uid ∨
  ∃ d, exposes R uid (name cold) (primary_of desc id) d.

(** The object behind an exposed base cannot be recovered. *)
Definition blocked : Prop :=
  object ≠ nullptr ∧ exposedType cold ≠ uid ∧ adjustToConcrete cold = None ∧
  primary_of desc id ≠ id.

Definition target_spec (t : CastTarget) : Prop :=
  match kind t with
  | Incompatible => ¬ convertible
  | ProxyTarget => convertible ∧ object = nullptr
  | SameExposed =>
      exposedType cold = uid ∧ object ≠ nullptr ∧ t_descId t = id ∧ t_object t = object
  | Concrete =>
      exposedType cold ≠ uid ∧ concreteType cold = uid ∧ object ≠ nullptr ∧ ¬ blocked ∧
      t_descId t = primary_of desc id ∧ t_object t = adjust (adjustToConcrete cold) object
  | ExposedAlias =>
      exposedType cold ≠ uid ∧ object ≠ nullptr ∧ ¬ blocked ∧
      exposes R uid (name cold) (primary_of desc id) (t_descId t) ∧
      ∃ td, DescriptorTable.at_ (descriptors R) (t_descId t) = Some td ∧
        t_object t = adjust (adjustToExposed td) (adjust (adjustToConcrete cold) object)
  | DowncastUnavailable => convertible ∧ blocked
  end.

Lemma resolve_spec :
  ∃ t, resolveCastTarget (Some R) uid object id = Some t ∧ target_spec t.
Proof.
  unfold resolveCastTarget. apply N.eqb_neq in Huid. rewrite Huid, Hdesc, Hcold. simpl.
  unfold target_spec, convertible, blocked.
  destruct (N.eqb_spec (exposedType cold) uid) as [He|He].
  { destruct (N.eqb_spec object nullptr) as [Ho|Ho]; eexists; (split; [done|]); simpl; auto. }
  destruct (N.eqb_spec (concreteType cold) uid) as [Hc|Hc]; simpl.
  - destruct (N.eqb_spec object nullptr) as [Ho|Ho].
    { eexists; split; [done|]. simpl. auto. }
    destruct (adjustToConcrete cold) as [g|] eqn:Eg; simpl.
    + eexists; split; [done|]. simpl. split_and!; auto. by intros (_ & _ & ? & _).
    + destruct (N.eqb_spec (primary_of desc id) id) as [Hp|Hp]; simpl.
      * eexists; split; [done|]. simpl. split_and!; auto. by intros (_ & _ & _ & ?).
      * eexists; split; [done|]. simpl. split_and!; auto.
  - destruct (findAlias_spec R uid (name cold) (primary_of desc id) HR) as (f & -> & Hf).
    simpl. destruct (decide (f = kInvalidDescriptorId)) as [->|Hne].
    { rewrite N.eqb_refl. eexists; split; [done|]. simpl. intros [?|[?|[d Hd]]]; [done..|].
      by apply (Hf d). }
    apply N.eqb_neq in Hne. rewrite Hne.
    assert (Hconv : ∃ d, exposes R uid (name cold) (primary_of desc id) d) by by exists f.
    destruct (N.eqb_spec object nullptr) as [Ho|Ho].
    { eexists; split; [done|]. simpl. auto. }
    pose proof Hf as (n' & l & td & _ & _ & _ & Htd & _).
    destruct (adjustToConcrete cold) as [g|] eqn:Eg; simpl.
    + rewrite Htd. simpl. eexists; split; [done|]. simpl. split_and!; auto; [|by exists td].
      by intros (_ & _ & ? & _).
    + destruct (N.eqb_spec (primary_of desc id) id) as [Hp|Hp]; simpl.
      * rewrite Htd. simpl. eexists; split; [done|]. simpl. split_and!; auto; [|by exists td].
        by intros (_ & _ & _ & ?).
      * eexists; split; [done|]. simpl. split_and!; auto.
Qed.

End spec.

(** C37 [cast], [tryCast] and [compatible] agree with the descriptor graph: a
    handle is compatible with U exactly when U is its exposed type, its concrete
    type or a type under which the same primary is exposed (under the bean's
    name, or unnamed); [tryCast] yields a handle exactly when it is compatible
    and the concrete object can be recovered; [cast] yields the same handle and
    otherwise throws a [ResolutionError]; and the result is retained exactly
    when it is a prototype's handle. *)
Theorem cast_decides (R : view) (uid : TypeId) (b : Bean) (desc : Descriptor)
    (cold : DescriptorCold) :
  index_ok R → DescriptorTable.at_ (descriptors R) (descId b) = Some desc →
  DescriptorTable.coldAt (descriptors R) (descId b) = Some cold → uid ≠ kInvalidTypeId →
  let conv := convertible R uid (descId b) desc cold in
  let stuck := blocked uid (object_ b) (descId b) desc cold in
  ∃ r, tryCast (Some R) uid b = Some r ∧
    (is_Some r ↔ conv ∧ ¬ stuck) ∧
    (∃ c, compatible (Some R) uid b = Some c ∧ (c = true ↔ conv)) ∧
    (match r with
     | Some x => cast (Some R) uid b = Ok x ∧ (object_ b ≠ nullptr → x.2 = tracked x.1)
     | None => ∃ m, cast (Some R) uid b = Throw (ResolutionError m)
     end).
Proof.
  intros HR Hd Hc Hu conv stuck.
  destruct (resolve_spec R uid (object_ b) (descId b) desc cold HR Hd Hc Hu) as (t & Ht & Hs).
  unfold tryCast, compatible, cast. rewrite Ht. simpl.
  unfold target_spec, castable, target_compatible, cast_result in *.
  fold conv in Hs. fold stuck in Hs.
  destruct (kind t) eqn:Ek; simpl; eexists; (split; [reflexivity|]).
  - split; [split; [by intros []|tauto]|]. split; [eexists; split; [done|]; by split|].
    by eexists.
  - destruct Hs as [Hcv Ho]. assert (¬ stuck) by by intros [? _].
    split; [split; [done|by eexists]|]. split; [eexists; split; [done|]; by split|]. by split.
  - destruct Hs as (He & Ho & _ & _). assert (conv) by by left.
    assert (¬ stuck) by by intros (_ & ? & _).
    split; [split; [done|by eexists]|]. split; [eexists; split; [done|]; by split|]. by split.
  - destruct Hs as (_ & He & Ho & Hb & _). assert (conv) by (by right; left).
    split; [split; [done|by eexists]|]. split; [eexists; split; [done|]; by split|]. by split.
  - destruct Hs as (He & Ho & Hb & Hx & _). assert (conv) by (right; right; by eexists).
    split; [split; [done|by eexists]|]. split; [eexists; split; [done|]; by split|]. by split.
  - destruct Hs as [Hcv Hb]. split; [split; [by intros []|by intros [? []]]|].
    split; [eexists; split; [done|]; by split|]. by eexists.
Qed.

(** What the generated thunks promise: the primary's object is the exposed
    object, and a base's downcast undoes its upcast. *)
Record adjust_laws (R : view) : Prop := {
  al_primary d desc cold :
    DescriptorTable.at_ (descriptors R) d = Some desc →
    DescriptorTable.coldAt (descriptors R) d = Some cold →
    primary_of desc d = d → adjustToExposed desc = None ∧ adjustToConcrete cold = None;
  al_inverse d desc cold g p :
    DescriptorTable.at_ (descriptors R) d = Some desc →
    DescriptorTable.coldAt (descriptors R) d = Some cold →
    adjustToConcrete cold = Some g → call_adjust g (adjust (adjustToExposed desc) p) = p;
  al_root d desc :
    DescriptorTable.at_ (descriptors R) d = Some desc →
    ∃ pd, DescriptorTable.at_ (descriptors R) (primary_of desc d) = Some pd ∧
          primary_of pd (primary_of desc d) = primary_of desc d ∧ adjustToExposed pd = None ∧
          primary_of desc d ≠ kInvalidDescriptorId
}.

(** The address under which descriptor [d] exposes the object at [mem]. *)
Definition exposed_at (R : view) (d : DescriptorId) (mem : ptr) : option ptr :=
  desc ← DescriptorTable.at_ (descriptors R) d; Some (adjust (adjustToExposed desc) mem).

(** Casts keep the object and the reference count: from a direct handle that
    points at the exposed view of the object at [mem], every successful [tryCast]
    yields a handle with the same slot and anchor, for the same primary bean,
    that points at the target descriptor's own view of that object, through any
    chain of upcasts, downcasts and cross-casts. *)
Theorem cast_keeps_object (R : view) (uid : TypeId) (b b' : Bean) (desc : Descriptor)
    (cold : DescriptorCold) (mem : ptr) (retained : bool) :
  index_ok R → adjust_laws R →
  DescriptorTable.at_ (descriptors R) (descId b) = Some desc →
  DescriptorTable.coldAt (descriptors R) (descId b) = Some cold → uid ≠ kInvalidTypeId →
  object_ b ≠ nullptr → exposed_at R (descId b) mem = Some (object_ b) →
  tryCast (Some R) uid b = Some (Some (b', retained)) →
  slot b' = slot b ∧ registry_ b' = registry_ b ∧
  exposed_at R (descId b') mem = Some (object_ b') ∧
  ∃ desc', DescriptorTable.at_ (descriptors R) (descId b') = Some desc' ∧
    primary_of desc' (descId b') = primary_of desc (descId b).
Proof.
  intros HR HL Hd Hc Hu Ho Hx. unfold tryCast.
  destruct (resolve_spec R uid (object_ b) (descId b) desc cold HR Hd Hc Hu) as (t & -> & Hs).
  simpl. unfold castable, target_compatible, cast_result, target_spec in *.
  assert (Hobj : adjust (adjustToExposed desc) mem = object_ b).
  { unfold exposed_at in Hx. rewrite Hd in Hx. simpl in Hx. by simplify_eq. }
  assert (Hmem : ¬ blocked uid (object_ b) (descId b) desc cold → exposedType cold ≠ uid →
    adjust (adjustToConcrete cold) (object_ b) = mem).
  { intros Hb He. destruct (adjustToConcrete cold) as [g|] eqn:Eg; simpl.
    - rewrite <-Hobj. by eapply (al_inverse _ HL).
    - destruct (decide (primary_of desc (descId b) = descId b)) as [Hp|Hp].
      + destruct (al_primary _ HL _ _ _ Hd Hc Hp) as [He' _].
        rewrite He' in Hobj. by simpl in Hobj.
      + destruct Hb. by split_and!. }
  assert (Hlow : slot b < two32) by apply Treiber.low_lt.
  destruct (kind t) eqn:Ek; simpl; try done; intros [= <- <-].
  - by destruct Hs as [_ Hs].
  - destruct Hs as (He & _ & Hid & Hob). unfold slot, descId; simpl. rewrite Hob.
    split_and!; [done..|]. by exists desc.
  - destruct Hs as (He & _ & _ & Hb & Hid & Hob).
    unfold slot, descId; simpl. rewrite Treiber.low_pack, high_pack, Hid by done.
    fold (descId b). destruct (al_root _ HL _ _ Hd) as (pd & Hpd & Hroot & Hnone & _).
    split_and!; [done..| |by exists pd].
    unfold exposed_at. rewrite Hpd. simpl. by rewrite Hnone, Hob, Hmem.
  - destruct Hs as (He & _ & Hb & Hexp & td & Htd & Hob).
    unfold slot, descId; simpl. rewrite Treiber.low_pack, high_pack by done.
    split_and!; [done..| |].
    + unfold exposed_at. rewrite Htd. simpl. by rewrite Hob, Hmem.
    + exists td. split; [done|]. destruct Hexp as (n' & l & td' & _ & _ & _ & Htd' & Hp).
      fold (descId b). destruct (al_root _ HL _ _ Hd) as (pd & _ & _ & _ & Hne).
      rewrite Htd in Htd'. simplify_eq. unfold primary_of at 1. apply N.eqb_neq in Hne.
      by rewrite Hp, Hne.
Qed.

End thunks.

(** ** A bean with two bases

    [Derived] (descriptor 0, type 10) derives from [First] at its own address
    (descriptor 1, type 11) and from [Second] at offset 8 (descriptor 2, type
    12); thunk 1 is the upcast to [Second], thunk 2 its downcast. *)

Definition offsets (f : FnPtr) (p : ptr) : ptr :=
  if f =? 1 then p + 8 else if f =? 2 then p - 8 else p.

Definition sample_cold (exposed : TypeId) (back : option FnPtr) : DescriptorCold :=
  {| exposedType := exposed; concreteType := 10; name := kUnnamed; size := 16; align := 8;
     factoryMethodDescriptor := kInvalidDescriptorId; factoryMethodName := None;
     origin := AnnotatedType; lazy := true; construct := 100; destroy := 101;
     postConstruct := None; preDestroy := None; allocAndConstruct := None; dealloc := None;
     observedTypeGetter := None; exactTypeGetter := None; nameStr := ""; reflectiveData := None;
     adjustToConcrete := back |}.

Definition sample_hot (up : option FnPtr) : Descriptor :=
  {| priority := 0; primaryDescriptor := 0; sessionSlot := kInvalidSessionSlot;
     lifetime := Tables.Singleton; adjustToExposed := up |}.

Definition sample_view : view :=
  {| descriptors :=
       {| DescriptorTable.entries_ := [sample_hot None; sample_hot (Some 0); sample_hot (Some 1)];
          DescriptorTable.coldEntries_ :=
            [sample_cold 10 None; sample_cold 11 (Some 0); sample_cold 12 (Some 2)];
          DescriptorTable.lifetimes_ := replicate 3 Tables.Singleton |};
     index :=
       TypeIndex.sortAllCandidates (λ _, 0%Z)
         (TypeIndex.inserts [(10, kUnnamed, 0); (11, kUnnamed, 1); (12, kUnnamed, 2)]
            TypeIndex.empty) |}.

Definition index_okb (R : view) : bool :=
  forallb (λ o, match o with
                | None => true
                | Some m =>
                    forallb (λ kv, forallb (λ d,
                      bool_decide (is_Some (DescriptorTable.at_ (descriptors R) d)) &&
                      negb (d =? kInvalidDescriptorId)) (TypeIndex.candidates kv.2)) m
                end) (TypeIndex.typeIndex_ (index R)).

Lemma find_In m n e : TypeIndex.find m n = Some e → ∃ k, (k, e) ∈ m.
Proof.
  induction m as [|[k e'] m IH]; simpl; [done|]. destruct (n =? k).
  - intros [= <-]. exists k. by left.
  - intros [k' Hk']%IH. exists k'. by right.
Qed.

Lemma index_okb_sound R : index_okb R = true → index_ok R.
Proof.
  unfold index_okb. rewrite forallb_forall. intros H ty n l d Hc Hd.
  unfold TypeIndex.candidatesFor, TypeIndex.entryFor, TypeIndex.tbl_at in Hc.
  destruct (vat (TypeIndex.typeIndex_ (index R)) ty) as [[m|]|] eqn:Em; simpl in Hc; try done.
  destruct (TypeIndex.find m n) as [e|] eqn:Ef; simpl in Hc; [|done]. simplify_eq.
  rewrite vat_lookup in Em. apply list_elem_of_lookup_2, list_elem_of_In in Em.
  specialize (H _ Em). simpl in H. rewrite forallb_forall in H.
  destruct (find_In _ _ _ Ef) as [k Hk]. apply list_elem_of_In in Hk.
  specialize (H _ Hk). simpl in H. rewrite forallb_forall in H. apply list_elem_of_In in Hd.
  specialize (H _ Hd). rewrite andb_true_iff, bool_decide_eq_true, negb_true_iff, N.eqb_neq in H.
  done.
Qed.

Lemma sample_index_ok : index_ok sample_view.
Proof. apply index_okb_sound. by vm_compute. Qed.

Lemma sample_adjust_laws : adjust_laws offsets sample_view.
Proof.
  assert (Hat : ∀ d desc, DescriptorTable.at_ (descriptors sample_view) d = Some desc →
    (d = 0 ∧ desc = sample_hot None) ∨ (d = 1 ∧ desc = sample_hot (Some 0)) ∨
    (d = 2 ∧ desc = sample_hot (Some 1))).
  { intros d desc. unfold DescriptorTable.at_. rewrite vat_lookup. simpl.
    destruct (N.to_nat d) as [|[|[|n]]] eqn:E; simpl; intros; simplify_eq.
    - left. split; [lia|done].
    - right; left. split; [lia|done].
    - right; right. split; [lia|done]. }
  split.
  - intros d desc cold [[-> ->]|[[-> ->]|[-> ->]]]%Hat Hc; try done.
    vm_compute in Hc. by simplify_eq.
  - intros d desc cold g p [[-> ->]|[[-> ->]|[-> ->]]]%Hat Hc Hg; vm_compute in Hc; simplify_eq;
      simpl in Hg; simplify_eq; [done|].
    unfold offsets; simpl. lia.
  - intros d desc Hd%Hat. exists (sample_hot None).
    destruct Hd as [[-> ->]|[[-> ->]|[-> ->]]]; by vm_compute.
Qed.

(** A direct handle on the [Second] base of a [Derived] at 4096. *)
Definition second_handle : Bean := makeDirect 4104 kInvalidSlotId 2 1.

Lemma cast_decides_witness :
  let conv := convertible sample_view 11 2 (sample_hot (Some 1)) (sample_cold 12 (Some 2)) in
  let stuck := blocked 11 4104 2 (sample_hot (Some 1)) (sample_cold 12 (Some 2)) in
  ∃ r, tryCast offsets (Some sample_view) 11 second_handle = Some r ∧
    (is_Some r ↔ conv ∧ ¬ stuck).
Proof.
  destruct (cast_decides offsets sample_view 11 second_handle
    (sample_hot (Some 1)) (sample_cold 12 (Some 2))) as (r & Hr & Hi & _);
    [apply sample_index_ok|by vm_compute|by vm_compute|done|].
  exists r. split; [exact Hr|]. exact Hi.
Defined.

(** The typed view of a listener is not adjusted: for a bean of a type with
    two bases, a listener registered for the second base receives a view whose
    pointer is the address of the whole object, whereas [tryCast] of the same
    handle yields the address of the base inside it. *)
Theorem typed_listener_view_unadjusted :
  let b := makeDirect 4096 kInvalidSlotId 0 1 in
  index_ok sample_view ∧ adjust_laws offsets sample_view ∧
  ∃ v r retained,
    typed_view offsets (Some sample_view) 1 12 b = Some (Some v) ∧
    tryCast offsets (Some sample_view) 12 b = Some (Some (r, retained)) ∧
    arrow v = Object 4096 ∧ arrow r = Object 4104.
Proof.
  intros b. split; [apply sample_index_ok|]. split; [apply sample_adjust_laws|].
  do 3 eexists. split_and!; by vm_compute.
Qed.

End Cast.
