(* ===== verification/Runtime.v ===== *)
(** Resolution and materialization.

    [Module Runtime] models the run-time half of [Registry] on the calling
    thread: [resolve] and [materializeOneImpl] of
    [internal/detail/RegistryResolutionImpl.hpp], the session and thread-local
    paths of [RegistryScopedRuntimeImpl.hpp] and [RegistryThreadLocalImpl.hpp],
    the destruction lifecycle of [RegistryRuntimeCoreImpl.hpp] and the sweeps of
    [stop()] and [stopScope()].  The constructors, hooks and listener callbacks of
    the application are programs that resolve beans and throw. *)
From S2P Require Import Prelude Tables Index Stores Freelist Prototypes Listeners Claims Handles Casts.

Local Open Scope N_scope.

Module Runtime.
Import Claims.
Local Open Scope ctr_scope.

Abbreviation Bean := Handle.Bean (only parsing).

(** ** User code

    A constructor, a hook or a callback: a program that resolves beans from the
    root ([None]) or from a scope, goes on with the handle or the exception it
    got, and returns or throws. *)
Inductive prog : Type :=
| Return
| Raise (n : N)
| Resolve (scope : option ptr) (typeId : TypeId) (nameId : NameId)
    (k : Handle.Bean + exn → prog).

(** ** What resolution reads

    None of it changes while beans are resolved: the tables [start()] built, the
    listeners, the scopes ([ScopedContext] objects, by address) and the code
    behind the function pointers. *)

Inductive ScopeState : Type := Stopped | Running_ | Stopping.

#[export] Instance ScopeState_eq_dec : EqDecision ScopeState.
Proof. solve_decision. Defined.

Record ScopedContext : Type := {
  scopeNameId_ : NameId;
  scopeState_ : ScopeState;
  scopedDefaults_ : DefaultsTable.t;
  hasAnyScopedDefault_ : bool
}.

Record env : Type := {
  started_ : bool;
  descriptors_ : DescriptorTable.t;
  typeIndex_ : TypeIndex.t;
  defaults_ : DefaultsTable.t;
  hasAnyDefault_ : bool;
  listeners_ : ListenerStore.t;
  registryId_ : N;
  threadToken_ : N;
  maxSlots : option N;
  scopes_ : gmap ptr ScopedContext;
  call_construct : FnPtr → option ptr → ptr → prog;
  call_allocAndConstruct : FnPtr → option ptr → prog;
  call_hook : FnPtr → option ptr → ptr → prog;
  call_listener : N → Handle.AnyBean → prog;
  call_adjust : FnPtr → ptr → ptr
}.

(** ** What resolution writes *)

(** The steps of a bean's life.  [Initialized], [Created], [PreDestroy] and
    [DestroyedStep] are the dispatches of the four listener phases. *)
Inductive step_kind : Type :=
| Constructed
| Initialized
| PostConstruct
| Created
| PreDestroy
| PreDestroyHook
| DestroyedStep
| Destructor
| Deallocated.

#[export] Instance step_kind_eq_dec : EqDecision step_kind.
Proof. solve_decision. Defined.

(** [FreeUnconstructed]: the memory of an object whose constructor threw. *)
Inductive event : Type :=
| Life (s : step_kind) (key : MaterializationKey) (object : ptr)
| FreeUnconstructed (object : ptr).

#[export] Instance event_eq_dec : EqDecision event.
Proof. solve_decision. Defined.

(** [stack], [tl] and [registered] belong to the calling thread: its
    [materializationStack()], its [TLData], and whether its
    [TLCleanup::registered] knows the registry; [published] tells whether
    [tlThreadStores_] points to the thread's [TLData].  [operator new] returns
    [nextAddress]. *)
Record t : Type := {
  singletons_ : SingletonStore.t;
  sessions : gmap ptr SessionStore.t;
  prototypes_ : PrototypeStore.sys;
  claims : Claims.t;
  tl : ThreadLocalStore.t;
  registered : bool;
  published : bool;
  stack : list DescriptorId;
  nextAddress : ptr;
  trace : list event
}.

Definition set_singletons (x : SingletonStore.t) (R : t) : t :=
  {| singletons_ := x; sessions := sessions R; prototypes_ := prototypes_ R;
     claims := claims R; tl := tl R; registered := registered R;
     published := published R; stack := stack R; nextAddress := nextAddress R;
     trace := trace R |}.

Definition set_sessions (x : gmap ptr SessionStore.t) (R : t) : t :=
  {| singletons_ := singletons_ R; sessions := x; prototypes_ := prototypes_ R;
     claims := claims R; tl := tl R; registered := registered R;
     published := published R; stack := stack R; nextAddress := nextAddress R;
     trace := trace R |}.

Definition set_prototypes (x : PrototypeStore.sys) (R : t) : t :=
  {| singletons_ := singletons_ R; sessions := sessions R; prototypes_ := x;
     claims := claims R; tl := tl R; registered := registered R;
     published := published R; stack := stack R; nextAddress := nextAddress R;
     trace := trace R |}.

Definition set_claims (x : Claims.t) (R : t) : t :=
  {| singletons_ := singletons_ R; sessions := sessions R; prototypes_ := prototypes_ R;
     claims := x; tl := tl R; registered := registered R;
     published := published R; stack := stack R; nextAddress := nextAddress R;
     trace := trace R |}.

Definition set_tl (x : ThreadLocalStore.t) (R : t) : t :=
  {| singletons_ := singletons_ R; sessions := sessions R; prototypes_ := prototypes_ R;
     claims := claims R; tl := x; registered := registered R;
     published := published R; stack := stack R; nextAddress := nextAddress R;
     trace := trace R |}.

Definition set_registered (r p : bool) (R : t) : t :=
  {| singletons_ := singletons_ R; sessions := sessions R; prototypes_ := prototypes_ R;
     claims := claims R; tl := tl R; registered := r;
     published := p; stack := stack R; nextAddress := nextAddress R;
     trace := trace R |}.

Definition set_stack (x : list DescriptorId) (R : t) : t :=
  {| singletons_ := singletons_ R; sessions := sessions R; prototypes_ := prototypes_ R;
     claims := claims R; tl := tl R; registered := registered R;
     published := published R; stack := x; nextAddress := nextAddress R;
     trace := trace R |}.

Definition set_nextAddress (x : ptr) (R : t) : t :=
  {| singletons_ := singletons_ R; sessions := sessions R; prototypes_ := prototypes_ R;
     claims := claims R; tl := tl R; registered := registered R;
     published := published R; stack := stack R; nextAddress := x;
     trace := trace R |}.

Definition log (e : event) (R : t) : t :=
  {| singletons_ := singletons_ R; sessions := sessions R; prototypes_ := prototypes_ R;
     claims := claims R; tl := tl R; registered := registered R;
     published := published R; stack := stack R; nextAddress := nextAddress R;
     trace := trace R ++ [e] |}.

(** A failed assertion is undefined behaviour. *)
Definition lift {A} (o : option A) : M t A := λ R,
  match o with Some a => (Ok a, R) | None => (Ub, R) end.

(** An update of the state that may fail an assertion. *)
Definition lift_state (f : t → option t) : M t unit := λ R,
  match f R with Some R' => (Ok tt, R') | None => (Ub, R) end.

Definition emit (s : step_kind) (key : MaterializationKey) (object : ptr) : M t unit :=
  mupd (log (Life s key object)).

Definition operator_new : M t ptr := λ R,
  (Ok (nextAddress R), set_nextAddress (nextAddress R + 1) R).

(** A throw out of a [noexcept] function calls [std::terminate]. *)
Definition noexcept {A} (m : M t A) : M t A := λ R,
  match m R with (Throw _, R') => (Ub, R') | r => r end.

Definition is_primary_elsewhere (d : Descriptor) (id : DescriptorId) : bool :=
  negb (primaryDescriptor d =? id) && negb (primaryDescriptor d =? kInvalidDescriptorId).

(** The id an alias is materialized under. *)
Definition materializationDescId (d : Descriptor) (id : DescriptorId) : DescriptorId :=
  if is_primary_elsewhere d id then primaryDescriptor d else id.

(** ** Candidate selection

    Steps 1 to 4 of [resolve]: they read the tables and change nothing.  [Ub] is a
    dangling scope pointer or a failed assertion. *)

Section environment.
Context (E : env).

Definition scope_of (scope : option ptr) : option (option ScopedContext) :=
  match scope with
  | None => Some None
  | Some sc => Some <$> scopes_ E !! sc
  end.

(** The scope's default, then the root's, for an unnamed request. *)
Definition effectiveName (scope : option ScopedContext) (typeId : TypeId) (nameId : NameId)
    : NameId :=
  if nameId =? kUnnamed then
    let fromScope :=
      match scope with
      | Some s => if hasAnyScopedDefault_ s
                  then DefaultsTable.getDefault (scopedDefaults_ s) typeId else nameId
      | None => nameId
      end in
    if (fromScope =? kUnnamed) && hasAnyDefault_ E
    then DefaultsTable.getDefault (defaults_ E) typeId else fromScope
  else nameId.

Definition ambiguous_error : exn :=
  ResolutionError "Registry::resolve: ambiguous resolution — two candidates share the highest priority for the requested type and named key.".

Definition no_bean_error : exn :=
  ResolutionError "Registry::resolve: no bean registered for the requested type and named key.".

(** The lookup through [entryFor]: the precomputed head, or the canonical
    candidates when the pair had none at [start()]. *)
Definition fromEntry (typeId : TypeId) (nameId : NameId) : outcome DescriptorId :=
  let entry := TypeIndex.entryFor (typeIndex_ E) typeId nameId in
  let hd := match entry with Some e => TypeIndex.head e | None => kInvalidDescriptorId end in
  if hd =? kInvalidDescriptorId then
    match entry with
    | None => Throw no_bean_error
    | Some e =>
        match TypeIndex.candidates e with
        | [] => Throw no_bean_error
        | [d] => Ok d
        | d :: d' :: _ =>
            match DescriptorTable.at_ (descriptors_ E) d,
                  DescriptorTable.at_ (descriptors_ E) d' with
            | Some x, Some y =>
                if Z.eqb (priority x) (priority y) then Throw ambiguous_error else Ok d
            | _, _ => Ub
            end
        end
    end
  else match entry with
       | Some e => if TypeIndex.ambiguous e then Throw ambiguous_error else Ok hd
       | None => Ub
       end.

Definition selectCandidate (scope : option ScopedContext) (typeId : TypeId) (nameId : NameId)
    : outcome DescriptorId :=
  let n := effectiveName scope typeId nameId in
  if n =? kUnnamed then
    let d := TypeIndex.singleUnnamedCandidate (typeIndex_ E) typeId in
    if negb (d =? kInvalidDescriptorId) then Ok d else fromEntry typeId n
  else fromEntry typeId n.

Definition lift_outcome {A} (o : outcome A) : M t A := λ R, (o, R).

(** ** Construction *)

Section nested.
(** [resolve], as user code calls it. *)
Context (rec : option ptr → TypeId → NameId → M t Handle.Bean).

Fixpoint run_prog (p : prog) : M t unit := λ R,
  match p with
  | Return => (Ok tt, R)
  | Raise n => (Throw (UserException n), R)
  | Resolve scope ty n k =>
      match rec scope ty n R with
      | (Ok b, R') => run_prog (k (inl b)) R'
      | (Throw e, R') => run_prog (k (inr e)) R'
      | (Ub, R') => (Ub, R')
      | (Blocked, R') => (Blocked, R')
      | (OutOfFuel, R') => (OutOfFuel, R')
      end
  end.

Fixpoint run_callbacks (cbs : list N) (bean : Handle.AnyBean) : M t unit :=
  match cbs with
  | [] => mreturn tt
  | cb :: cbs' => do! run_prog (call_listener E cb bean) in run_callbacks cbs' bean
  end.

Definition dispatch (phase : N) (ty : TypeId) (bean : Handle.AnyBean) (emitter : NameId)
    : M t unit :=
  let! cbs := lift (ListenerStore.dispatch (listeners_ E) phase ty emitter) in
  run_callbacks cbs bean.

(** The emitter scope of a root bean's events. *)
Definition emitter_of (scope : option ptr) : M t NameId :=
  let! s := lift (scope_of scope) in
  mreturn (match s with Some s => scopeNameId_ s | None => ListenerStore.kNoScope end).

(** C++ construction, then [onInitialized], [postConstruct], [onCreated]. *)
Definition lifecycle (key : MaterializationKey) (cold : DescriptorCold) (instance : ptr)
    (bean : Handle.AnyBean) (scope : option ptr) (emitter : NameId) : M t unit :=
  do! emit Initialized key instance in
  do! dispatch ListenerStore.phaseInitialized (exposedType cold) bean emitter in
  do! (match postConstruct cold with
       | Some f =>
           do! emit PostConstruct key instance in
           run_prog (call_hook E f scope instance)
       | None => mreturn tt
       end) in
  do! emit Created key instance in
  dispatch ListenerStore.phaseCreated (exposedType cold) bean emitter.

(** The [try] block of phase 2 with its memory: an [allocAndConstruct] thunk
    allocates, or the engine does; the memory of a constructor that throws is
    freed before the exception goes on. *)
Definition construct_object (cold : DescriptorCold) (scope : option ptr) : M t ptr :=
  match allocAndConstruct cold with
  | Some f => do! run_prog (call_allocAndConstruct E f scope) in operator_new
  | None =>
      let! mem := operator_new in
      mcatch (do! run_prog (call_construct E (construct cold) scope mem) in mreturn mem)
             (λ e, do! mupd (log (FreeUnconstructed mem)) in mthrow_ e)
  end.

(** [claimMaterializationOrWait]: [true] when the calling thread must construct.
    It also enters the registry in [TLCleanup::registered]. *)
Definition claimMaterializationOrWait (key : MaterializationKey)
    (findExisting : t → option ptr) (intraThread crossThread : string) : M t bool := λ R,
  match findExisting R with
  | None => (Ub, R)
  | Some p =>
      match claim_enter (threadToken_ E) (stack R) key (negb (p =? nullptr)) (claims R) with
      | None => (Ub, R)
      | Some (v, stack', C) =>
          let R' := set_stack stack' (set_claims C (set_registered true (published R) R)) in
          match v with
          | AlreadyThere => (Ok false, R')
          | Claimed => (Ok true, R')
          | IntraThreadCycle => (Throw (ResolutionError intraThread), R')
          | CrossThreadCycle => (Throw (ResolutionError crossThread), R')
          | MustWait => (Blocked, R')
          end
      end
  end.

(** The critical section that drops the claim and pops the stack. *)
Definition drop_claim (key : MaterializationKey) : M t unit :=
  mupd (λ R, set_stack (pop_back (stack R)) (set_claims (release key (claims R)) R)).

(** Phases 2 and 3 of a claimed construction; [put] stores the object. *)
Definition construct_claimed (key : MaterializationKey) (cold : DescriptorCold)
    (scope : option ptr) (put : ptr → t → option t) : M t ptr :=
  let! mem := mcatch (construct_object cold scope)
                     (λ e, do! drop_claim key in mthrow_ e) in
  do! lift_state (put mem) in
  do! emit Constructed key mem in
  do! drop_claim key in
  mreturn mem.

(** [CycleGuard]: popped on every way out. *)
Definition with_guard {A} (id : DescriptorId) (m : M t A) : M t A := λ R,
  match cycle_guard id (stack R) with
  | None => (Throw (ResolutionError
      "Registry: dependency cycle detected during bean materialization."), R)
  | Some stack' =>
      let '(o, R') := m (set_stack stack' R) in (o, set_stack (pop_back (stack R')) R')
  end.

(** ** Singletons *)

Definition find_singleton (d : DescriptorId) (R : t) : option ptr :=
  SingletonStore.find (singletons_ R) d.

Definition store_singleton (d : DescriptorId) (mem : ptr) (R : t) : option t :=
  S ← SingletonStore.store d mem (singletons_ R); Some (set_singletons S R).

Definition read_singleton (d : DescriptorId) : M t ptr := λ R, lift (find_singleton d R) R.

Definition materializeSingleton (descId : DescriptorId) (cold : DescriptorCold)
    (scope : option ptr) : M t ptr :=
  let key := Key descId nullptr in
  let! didMaterialize := claimMaterializationOrWait key (find_singleton descId)
    "Registry::resolve: dependency cycle detected during singleton materialization."
    "Registry::resolve: cross-thread dependency cycle detected during singleton materialization." in
  if didMaterialize : bool then
    if decide (origin cold = RuntimeBinding) then mub
    else
      let! instance := construct_claimed key cold scope (store_singleton descId) in
      let! emitter := emitter_of scope in
      do! lifecycle key cold instance
            (Handle.makeDirect instance kInvalidSlotId descId (registryId_ E)) scope emitter in
      mreturn instance
  else read_singleton descId.

(** ** Session beans *)

Definition find_session (sc : ptr) (slot : SessionSlot) (R : t) : option ptr :=
  S ← sessions R !! sc; SessionStore.find S slot.

Definition store_session (sc : ptr) (slot : SessionSlot) (d : DescriptorId) (mem : ptr) (R : t)
    : option t :=
  S ← sessions R !! sc;
  S' ← SessionStore.store slot d mem S;
  Some (set_sessions (<[sc := S']> (sessions R)) R).

Definition materializeSessionInstance (descId : DescriptorId) (sc : ptr) (scope : option ptr)
    : M t ptr :=
  let! requestedDesc := lift (DescriptorTable.at_ (descriptors_ E) descId) in
  let primaryDescId := materializationDescId requestedDesc descId in
  let! desc := lift (DescriptorTable.at_ (descriptors_ E) primaryDescId) in
  let! cold := lift (DescriptorTable.coldAt (descriptors_ E) primaryDescId) in
  let slot := sessionSlot desc in
  let! info := lift (scopes_ E !! sc) in
  let! instance := (λ R, lift (find_session sc slot R) R) in
  if negb (instance =? nullptr) then mreturn instance
  else if decide (scopeState_ info = Stopping) then
    mthrow_ (ContextStateError
      "Registry::materializeSessionInstance: cannot materialize a new session bean during scope teardown.")
  else if decide (origin cold = RuntimeBinding) then
    mthrow_ (ContextStateError
      "Registry::materializeSessionInstance: bound session bean has no instance for this scope cycle; call bindSession<T>() before start().")
  else
    let key := Key primaryDescId sc in
    let! didMaterialize := claimMaterializationOrWait key (find_session sc slot)
      "Registry::resolve: dependency cycle detected during session bean materialization."
      "Registry::resolve: cross-thread dependency cycle detected during session bean materialization." in
    if didMaterialize : bool then
      let! instance := construct_claimed key cold scope (store_session sc slot primaryDescId) in
      do! lifecycle key cold instance
            (Handle.makeProxy (scopeNameId_ info) primaryDescId (registryId_ E)) scope
            (scopeNameId_ info) in
      mreturn instance
    else (λ R, lift (find_session sc slot R) R).

(** ** Thread-local beans *)

Definition find_thread_local (d : DescriptorId) : M t ptr := λ R,
  match ThreadLocalStore.findInstance (registryId_ E) d (tl R) with
  | Some (p, T) => (Ok p, set_tl T R)
  | None => (Ub, R)
  end.

(** The first touch publishes the thread's [TLData], unless the registry is in
    [TLCleanup::registered] already. *)
Definition register_thread (R : t) : t :=
  if registered R then R else set_registered true true R.

Definition store_thread_local (d : DescriptorId) (mem : ptr) (R : t) : t :=
  set_tl (ThreadLocalStore.storeInstance (registryId_ E) d mem (tl R)).2 R.

Definition materializeThreadLocalInstance (descId : DescriptorId) (scope : option ptr)
    : M t ptr :=
  let! requestedDesc := lift (DescriptorTable.at_ (descriptors_ E) descId) in
  let primaryDescId := materializationDescId requestedDesc descId in
  let! cold := lift (DescriptorTable.coldAt (descriptors_ E) primaryDescId) in
  let! instance := find_thread_local primaryDescId in
  if negb (instance =? nullptr) then mreturn instance
  else
    do! mupd register_thread in
    with_guard primaryDescId
      (let! mem := construct_object cold scope in
       do! mupd (store_thread_local primaryDescId mem) in
       let key := Key primaryDescId nullptr in
       do! emit Constructed key mem in
       do! lifecycle key cold mem
             (Handle.makeDirect mem kInvalidSlotId primaryDescId (registryId_ E)) scope
             ListenerStore.kNoScope in
       mreturn mem).

(** ** Prototypes *)

(** An operation of the prototype store's protocol. *)
Definition proto_op (o : PrototypeStore.op) : M t unit :=
  lift_state (λ R, X ← PrototypeStore.exec (maxSlots E) o (prototypes_ R);
                   Some (set_prototypes X R)).

(** [prototypeStore().allocate(descId, mem)] *)
Definition allocate_slot (d : DescriptorId) (mem : ptr) : M t SlotId := λ R,
  match PrototypeStore.allocate (maxSlots E) d mem
          (PrototypeStore.store (prototypes_ R)) with
  | (Ok slot, _) => (do! proto_op (PrototypeStore.OpBegin d mem) in mreturn slot) R
  | (Throw e, _) => (Throw e, R)
  | (Ub, _) => (Ub, R)
  | (Blocked, _) => (Blocked, R)
  | (OutOfFuel, _) => (OutOfFuel, R)
  end.

(** Memory and slot of a new prototype.  Here the engine's own memory is given a
    slot before the constructor runs, and an exception gives both back. *)
Definition construct_prototype (d : DescriptorId) (cold : DescriptorCold) (scope : option ptr)
    : M t (ptr * SlotId) :=
  match allocAndConstruct cold with
  | Some f =>
      do! run_prog (call_allocAndConstruct E f scope) in
      let! mem := operator_new in
      let! slot := allocate_slot d mem in
      mreturn (mem, slot)
  | None =>
      let! mem := operator_new in
      let! slot := allocate_slot d mem in
      do! mcatch (run_prog (call_construct E (construct cold) scope mem))
            (λ e, do! mupd (log (FreeUnconstructed mem)) in
                  do! proto_op (PrototypeStore.OpFail slot) in mthrow_ e) in
      mreturn (mem, slot)
  end.

(** The dispatch handle: retained before the dispatches and released when its
    scope is left, by a return or by an exception. *)
Definition with_dispatch_handle (slot : SlotId) (m : M t unit) : M t unit :=
  do! proto_op (PrototypeStore.OpCopy slot) in
  do! mcatch m (λ e, do! proto_op (PrototypeStore.OpDrop slot) in mthrow_ e) in
  proto_op (PrototypeStore.OpDrop slot).

(** The lifecycle of a prototype: [exposed] is the descriptor the listeners see,
    [owner] the one whose hook runs. *)
Definition prototype_lifecycle (exposedId : DescriptorId) (exposed owner : DescriptorCold)
    (mem exposedPtr : ptr) (slot : SlotId) (scope : option ptr) : M t unit :=
  let key := Key exposedId nullptr in
  let hook :=
    match postConstruct owner with
    | Some f => do! emit PostConstruct key mem in run_prog (call_hook E f scope mem)
    | None => mreturn tt
    end in
  let! dispatchInitialized :=
    lift (ListenerStore.hasListeners (listeners_ E) ListenerStore.phaseInitialized) in
  let! dispatchCreated :=
    lift (ListenerStore.hasListeners (listeners_ E) ListenerStore.phaseCreated) in
  if dispatchInitialized || dispatchCreated then
    let bean := Handle.makeDirect exposedPtr slot exposedId (registryId_ E) in
    let! emitter := emitter_of scope in
    with_dispatch_handle slot
      (do! (if dispatchInitialized : bool
            then do! emit Initialized key mem in
                 dispatch ListenerStore.phaseInitialized (exposedType exposed) bean emitter
            else mreturn tt) in
       do! hook in
       if dispatchCreated : bool
       then do! emit Created key mem in
            dispatch ListenerStore.phaseCreated (exposedType exposed) bean emitter
       else mreturn tt)
  else hook.

(** The prototype cases of [materializeOneImpl]: [descId] is the id asked for,
    [ownerId] its primary. *)
Definition materializePrototype (descId ownerId : DescriptorId) (desc : Descriptor)
    (cold owner : DescriptorCold) (scope : option ptr) : M t Handle.MaterializedBeanHandle :=
  with_guard ownerId
    (let! (mem, slot) := construct_prototype ownerId owner scope in
     do! proto_op (PrototypeStore.OpFinish slot) in
     do! emit Constructed (Key descId nullptr) mem in
     let exposedPtr := if decide (ownerId = descId) then mem
                       else Cast.adjust (call_adjust E) (adjustToExposed desc) mem in
     do! prototype_lifecycle descId cold owner mem exposedPtr slot scope in
     mreturn (Handle.direct exposedPtr slot descId)).

(** ** [materializeOneImpl] *)

(** The session and thread-local cases. *)
Definition scope_checked (scope : option ptr) : M t (ptr * ScopedContext) :=
  match scope with
  | None => mthrow_ (ContextStateError
      "Registry::resolve: session beans can only be resolved from a scoped context, not directly from a root context.")
  | Some sc =>
      let! info := lift (scopes_ E !! sc) in
      if decide (scopeState_ info = Stopped) then
        mthrow_ (ContextStateError
          "Registry::resolve: the scope is stopped; start the scope before resolving.")
      else mreturn (sc, info)
  end.

(** An alias of a singleton calls [materializeOneImpl] for its primary: [depth]
    bounds the length of such a chain. *)
Fixpoint materializeOneImpl (depth : nat) (descId : DescriptorId) (scope : option ptr)
    : M t Handle.MaterializedBeanHandle :=
  match depth with
  | O => λ R, (OutOfFuel, R)
  | S depth' =>
      let! lt := lift (DescriptorTable.lifetimeOf (descriptors_ E) descId) in
      let! singletonInstance :=
        (if decide (lt = Singleton) then read_singleton descId else mreturn nullptr) in
      if negb (singletonInstance =? nullptr)
      then mreturn (Handle.direct singletonInstance kInvalidSlotId descId)
      else
        let! desc := lift (DescriptorTable.at_ (descriptors_ E) descId) in
        let! cold := lift (DescriptorTable.coldAt (descriptors_ E) descId) in
        let alias := is_primary_elsewhere desc descId in
        let primaryId := materializationDescId desc descId in
        match lt with
        | Singleton =>
            if alias then
              let! found := read_singleton primaryId in
              let! concretePtr :=
                (if found =? nullptr
                 then let! h := materializeOneImpl depth' primaryId scope in
                      mreturn (Handle.m_instance h)
                 else mreturn found) in
              mreturn (Handle.direct
                (Cast.adjust (call_adjust E) (adjustToExposed desc) concretePtr)
                kInvalidSlotId descId)
            else
              let! instance := materializeSingleton descId cold scope in
              mreturn (Handle.direct instance kInvalidSlotId descId)
        | Prototype =>
            let! owner := lift (DescriptorTable.coldAt (descriptors_ E) primaryId) in
            materializePrototype descId primaryId desc cold owner scope
        | Session =>
            let! (sc, info) := scope_checked scope in
            do! materializeSessionInstance primaryId sc scope in
            mreturn (Handle.proxy (scopeNameId_ info) descId)
        | ThreadLocal =>
            do! materializeThreadLocalInstance primaryId scope in
            mreturn (Handle.threadLocal descId)
        end
  end.

(** ** [resolve] *)

(** An alias and its primary: two levels. *)
Definition alias_depth : nat := 2.

Definition resolve_body (scope : option ptr) (typeId : TypeId) (nameId : NameId)
    : M t Handle.Bean :=
  if negb (started_ E) then
    mthrow_ (ContextStateError
      "Registry::resolve: context has not been started; call start() before resolving beans.")
  else if typeId =? kInvalidTypeId then
    mthrow_ (ResolutionError
      "Registry::resolve: the requested type was not registered in this context via discover<>() or bindSingleton().")
  else
    let! info := lift (scope_of scope) in
    let! descId := lift_outcome (selectCandidate info typeId nameId) in
    let! lt := lift (DescriptorTable.lifetimeOf (descriptors_ E) descId) in
    let materialize :=
      let! h := materializeOneImpl alias_depth descId scope in
      mreturn (Handle.materializeOne h (registryId_ E)) in
    match lt with
    | Singleton =>
        let! instance := read_singleton descId in
        if negb (instance =? nullptr)
        then mreturn (Handle.makeDirect instance kInvalidSlotId descId (registryId_ E))
        else materialize
    | Session =>
        let! (sc, info) := scope_checked scope in
        let! desc := lift (DescriptorTable.at_ (descriptors_ E) descId) in
        do! materializeSessionInstance (materializationDescId desc descId) sc scope in
        mreturn (Handle.makeProxy (scopeNameId_ info) descId (registryId_ E))
    | ThreadLocal =>
        let! desc := lift (DescriptorTable.at_ (descriptors_ E) descId) in
        do! materializeThreadLocalInstance (materializationDescId desc descId) scope in
        mreturn (Handle.makeThreadLocal descId (registryId_ E))
    | Prototype => materialize
    end.

End nested.

(** User code calls [resolve] again: [fuel] bounds the nesting. *)
Fixpoint resolve (fuel : nat) (scope : option ptr) (typeId : TypeId) (nameId : NameId)
    : M t Handle.Bean :=
  match fuel with
  | O => λ R, (OutOfFuel, R)
  | S fuel' => resolve_body (resolve fuel') scope typeId nameId
  end.

(** ** Destruction *)

Section destruction.
(** The nesting bound of the [resolve] calls the hooks and listeners make. *)
Context (fuel : nat).

Let rec := resolve fuel.

(** [cold.destroy(mem)]: the destructor of the user's class, recorded in the
    trace. *)
Definition call_destroy (key : MaterializationKey) (mem : ptr) : M t unit :=
  emit Destructor key mem.

Definition call_preDestroy (key : MaterializationKey) (cold : DescriptorCold) (mem : ptr)
    : M t unit :=
  match preDestroy cold with
  | Some f => do! emit PreDestroyHook key mem in run_prog rec (call_hook E f None mem)
  | None => mreturn tt
  end.

(** The body that [executeDestructionLifecycle] and [stopScope]'s
    [destroyWithoutDeallocation] share. *)
Definition destroy_object (key : MaterializationKey) (cold : DescriptorCold) (mem : ptr)
    (bean : Handle.AnyBean) (emitterScope : NameId) : M t unit :=
  let! dispatchPreDestroy :=
    lift (ListenerStore.hasListeners (listeners_ E) ListenerStore.phasePreDestroy) in
  let! dispatchDestroyed :=
    lift (ListenerStore.hasListeners (listeners_ E) ListenerStore.phaseDestroyed) in
  if dispatchPreDestroy || dispatchDestroyed then
    do! (if dispatchPreDestroy : bool
         then do! emit PreDestroy key mem in
              dispatch rec ListenerStore.phasePreDestroy (exposedType cold) bean emitterScope
         else mreturn tt) in
    do! call_preDestroy key cold mem in
    do! (if dispatchDestroyed : bool
         then do! emit DestroyedStep key mem in
              dispatch rec ListenerStore.phaseDestroyed (exposedType cold) bean emitterScope
         else mreturn tt) in
    call_destroy key mem
  else
    do! call_preDestroy key cold mem in
    call_destroy key mem.

(** [executeDestructionLifecycle(descId, mem, emitterScope)]; the key names the
    bean in the trace. *)
Definition executeDestructionLifecycle (key : MaterializationKey) (mem : ptr)
    (emitterScope : NameId) : M t unit :=
  noexcept
    (let descId := key_descId key in
     let! cold := lift (DescriptorTable.coldAt (descriptors_ E) descId) in
     let bean := if negb (emitterScope =? ListenerStore.kNoScope)
                 then Handle.makeProxy emitterScope descId (registryId_ E)
                 else Handle.makeDirect mem kInvalidSlotId descId (registryId_ E) in
     do! destroy_object key cold mem bean emitterScope in
     if bool_decide (dealloc cold ≠ None) || negb (Tables.size cold =? 0)
     then emit Deallocated key mem else mreturn tt).

(** [releasePrototypeLast], reached from the last [releaseIfPrototype]. *)
Definition releasePrototypeLast (slot : SlotId) (meta : ptr * DescriptorId) : M t unit :=
  do! (if negb (meta.1 =? nullptr)
       then executeDestructionLifecycle (Key meta.2 nullptr) meta.1 ListenerStore.kNoScope
       else mreturn tt) in
  proto_op (PrototypeStore.OpReclaim slot).

(** Singletons in the given order; the store's vector is read through [find]. *)
Fixpoint destroy_singletons (order : list DescriptorId) : M t unit :=
  match order with
  | [] => mreturn tt
  | d :: order' =>
      let! mem := read_singleton d in
      do! (if negb (mem =? nullptr)
           then executeDestructionLifecycle (Key d nullptr) mem ListenerStore.kNoScope
           else mreturn tt) in
      destroy_singletons order'
  end.

(** The prototype sweep: slots [n-1] down to [0]. *)
Fixpoint sweep_prototypes (n : nat) : M t unit :=
  match n with
  | O => mreturn tt
  | S s =>
      let slot := N.of_nat s in
      let! meta := (λ R, (Ok (PrototypeStore.takeSlotMetaForDestruction slot
                               (PrototypeStore.store (prototypes_ R))).1, R)) in
      do! proto_op (PrototypeStore.OpSweep slot) in
      do! (if negb (meta.1 =? nullptr)
           then executeDestructionLifecycle (Key meta.2 nullptr) meta.1 ListenerStore.kNoScope
           else mreturn tt) in
      sweep_prototypes s
  end.

(** Thread-local instances, in the order given. *)
Fixpoint destroy_all (beans : list (DescriptorId * ptr)) : M t unit :=
  match beans with
  | [] => mreturn tt
  | (d, mem) :: beans' =>
      do! executeDestructionLifecycle (Key d nullptr) mem ListenerStore.kNoScope in
      destroy_all beans'
  end.

(** [collectFor] on the calling thread's [TLData]. *)
Definition collect_thread : M t (list (DescriptorId * ptr)) := λ R,
  let '(out, T) := ThreadLocalStore.collectFor (registryId_ E) [] (tl R) in
  (Ok out, set_tl T R).

(** [cleanupCurrentThread()], at thread exit. *)
Definition cleanupCurrentThread : M t unit :=
  let! out := collect_thread in
  do! mupd (λ R, set_registered (registered R) false R) in
  destroy_all (reverse out).

(** The session sweep of [stopScope], over the reversed copy of the insertion
    order. *)
Fixpoint destroy_sessions (sc : ptr) (name : NameId) (deferDeallocation : bool)
    (order : list DescriptorId) : M t unit :=
  match order with
  | [] => mreturn tt
  | d :: order' =>
      let! desc := lift (DescriptorTable.at_ (descriptors_ E) d) in
      let slot := sessionSlot desc in
      let! mem := (λ R, lift (find_session sc slot R) R) in
      do! (if negb (mem =? nullptr) then
             do! (if deferDeallocation then
                    let! cold := lift (DescriptorTable.coldAt (descriptors_ E) d) in
                    do! noexcept (destroy_object (Key d sc) cold mem
                          (Handle.makeProxy name d (registryId_ E)) name) in
                    mupd (λ R, set_sessions
                      (alter (SessionStore.retireDeallocation
                         {| SessionStore.descId := d; SessionStore.memory := mem;
                            SessionStore.dealloc := dealloc cold;
                            SessionStore.bsize := Tables.size cold;
                            SessionStore.balign := align cold |}) sc (sessions R)) R)
                  else executeDestructionLifecycle (Key d sc) mem name) in
             lift_state (λ R, S ← sessions R !! sc; S' ← SessionStore.nullSlot slot S;
                              Some (set_sessions (<[sc := S']> (sessions R)) R))
           else mreturn tt) in
      destroy_sessions sc name deferDeallocation order'
  end.
End destruction.
End environment.

(** ** Stopping *)

Definition with_started (b : bool) (E : env) : env :=
  {| started_ := b; descriptors_ := descriptors_ E; typeIndex_ := typeIndex_ E;
     defaults_ := defaults_ E; hasAnyDefault_ := hasAnyDefault_ E;
     listeners_ := listeners_ E; registryId_ := registryId_ E;
     threadToken_ := threadToken_ E; maxSlots := maxSlots E; scopes_ := scopes_ E;
     call_construct := call_construct E; call_allocAndConstruct := call_allocAndConstruct E;
     call_hook := call_hook E; call_listener := call_listener E;
     call_adjust := call_adjust E |}.

Definition with_scopeState (sc : ptr) (st : ScopeState) (E : env) : env :=
  {| started_ := started_ E; descriptors_ := descriptors_ E; typeIndex_ := typeIndex_ E;
     defaults_ := defaults_ E; hasAnyDefault_ := hasAnyDefault_ E;
     listeners_ := listeners_ E; registryId_ := registryId_ E;
     threadToken_ := threadToken_ E; maxSlots := maxSlots E;
     scopes_ := alter (λ s, {| scopeNameId_ := scopeNameId_ s; scopeState_ := st;
                               scopedDefaults_ := scopedDefaults_ s;
                               hasAnyScopedDefault_ := hasAnyScopedDefault_ s |})
                      sc (scopes_ E);
     call_construct := call_construct E; call_allocAndConstruct := call_allocAndConstruct E;
     call_hook := call_hook E; call_listener := call_listener E;
     call_adjust := call_adjust E |}.

(** The registry is marked stopped first; [false] when it was not started. *)
Definition stopRegistryOwnedBeans (E : env) (fuel : nat) : M t bool :=
  if negb (started_ E) then mreturn false
  else
    let E' := with_started false E in
    let! order := (λ R, (Ok (SingletonStore.insertionOrder (singletons_ R)), R)) in
    do! destroy_singletons E' fuel (reverse order) in
    do! mupd (λ R, set_singletons (SingletonStore.releaseAll (singletons_ R)) R) in
    let! count := (λ R, (Ok (PrototypeStore.slotCount_
                               (PrototypeStore.store (prototypes_ R))), R)) in
    do! sweep_prototypes E' fuel (N.to_nat count) in
    mreturn true.

(** [Registry::stop()] when the calling thread is the only one alive: the thread's
    store is swept only if the registry points to it. *)
Definition stop (E : env) (fuel : nat) : M t unit :=
  let! owned := stopRegistryOwnedBeans E fuel in
  if owned : bool then
    let E' := with_started false E in
    let! isPublished := (λ R, (Ok (published R), R)) in
    let! tlToDestroy := (if isPublished : bool then collect_thread E' else mreturn []) in
    do! mupd (λ R, set_registered (registered R) false R) in
    destroy_all E' fuel (reverse tlToDestroy)
  else mreturn tt.

(** [stopScope(scope, deferDeallocation)]: during the sweep the scope is
    [Stopping]. *)
Definition stopScope (E : env) (fuel : nat) (sc : ptr) (deferDeallocation : bool)
    : M t unit :=
  let E' := with_scopeState sc Stopping E in
  let! info := lift (scopes_ E' !! sc) in
  let! ss := (λ R, lift (sessions R !! sc) R) in
  do! destroy_sessions E' fuel sc (scopeNameId_ info) deferDeallocation
        (reverse (SessionStore.insertionOrder ss)) in
  mupd (λ R, set_sessions
    (alter (SessionStore.releaseAll (negb deferDeallocation)) sc (sessions R)) R).

End Runtime.
