(* ===== verification/RuntimeFacts.v ===== *)
(** What holds of resolution.

    The invariant of the registry between two steps of a resolution, the frame
    that every nested call keeps, and the theorems: resolution ends, builds each
    bean once in lifecycle order, and leaves no trace of a failed attempt. *)
From S2P Require Import Prelude Tables Index Stores Freelist Prototypes Listeners Claims Handles Casts Runtime.

Local Open Scope N_scope.

Module RuntimeFacts.
Import Claims Runtime.
Local Open Scope ctr_scope.

(** ** Steps of the prototype store *)

Section protos.
Context (cap : option N) (P : DescriptorId → Prop).
Import PrototypeStore.
Implicit Types (X : PrototypeStore.sys) (s : SlotId).

(** The descriptors of the objects made and of the slots being filled. *)
Record labelled X : Prop := {
  lb_created : Forall (λ x, P x.1) (created X);
  lb_pending s c : s ∈ pending X → cellAt (store X) s = Some c → P (descId c)
}.

Record protos_ok X : Prop := {
  po_inv : ∃ L live, PrototypeStore.inv X L live;
  po_alive : alive (store X) = true;
  po_labels : labelled X
}.

(** No slot is left and no limit stops the request before the assertion on the
    number of chunks. *)
Definition slots_full X : Prop :=
  kMaxChunks * kChunkSize ≤ slotCount_ (store X) ∧
  match cap with Some c => slotCount_ (store X) < c | None => True end.

Lemma updCell_alive s f S S' : updCell s f S = Some S' → alive S' = alive S.
Proof.
  unfold updCell. destruct (cellAt S s); simpl; [|done]. intros [= <-].
  by destruct (setCell_same s (f c) S) as (-> & _).
Qed.

Lemma step_ok X o :
  protos_ok X → allowed cap o X →
  (∀ X', PrototypeStore.exec cap o X = Some X' →
     alive (store X') = alive (store X) ∧ labelled X') →
  ∃ X', PrototypeStore.exec cap o X = Some X' ∧ protos_ok X'.
Proof.
  intros [(L & live & Hinv) Ha _] Hal Hkeep.
  destruct (exec_ok cap o X L live Hinv Hal) as (X' & L' & live' & He & Hinv').
  destruct (Hkeep _ He) as [Halive Hlab].
  exists X'. split; [done|]. split; [eauto|by rewrite Halive|done].
Qed.

Lemma updCell_cell s f S S' j c' : updCell s f S = Some S' → cellAt S' j = Some c' →
  if decide (j = s) then ∃ c, cellAt S s = Some c ∧ c' = f c else cellAt S j = Some c'.
Proof.
  unfold updCell. destruct (cellAt S s) as [c|] eqn:Hc; simpl; [|done]. intros [= <-].
  rewrite cellAt_setCell by by eexists. case_decide; [|done]. intros [= <-]. by exists c.
Qed.

(** A step that keeps the labels of the slots still being filled. *)
Lemma labelled_keep X X' :
  labelled X → created X' = created X →
  (∀ j c', j ∈ pending X' → cellAt (store X') j = Some c' →
     j ∈ pending X ∧ ∃ c, cellAt (store X) j = Some c ∧ descId c' = descId c) →
  labelled X'.
Proof.
  intros [H1 H2] Hc Hp. split; [by rewrite Hc|]. intros s c' Hs Hcell.
  destruct (Hp s c' Hs Hcell) as (Hs' & c & Hc' & ->). by eapply H2.
Qed.

(** One slot's counters changed. *)
Lemma labelled_upd X X' s f S :
  labelled X → created X' = created X → pending X' ⊆ pending X →
  updCell s f (store X) = Some S → (∀ c, descId (f c) = descId c) →
  (∀ j, cellAt (store X') j = cellAt S j) → labelled X'.
Proof.
  intros Hl Hc Hp Hu Hf Hcells. apply (labelled_keep X); [done..|].
  intros j c' Hj Hcell. rewrite Hcells in Hcell. split; [by apply Hp|].
  pose proof (updCell_cell _ _ _ _ _ _ Hu Hcell) as H. case_decide.
  - destruct H as (c & Hc' & ->). subst. by exists c.
  - by exists c'.
Qed.

(** A new slot carries its descriptor, and no cell in use moves. *)
Lemma allocate_cells d m S s S' : allocate cap d m S = (Ok s, S') →
  ∀ j c', cellAt S' j = Some c' →
    if decide (j = s) then descId c' = d
    else ∀ c, cellAt S j = Some c → c' = c.
Proof.
  unfold allocate. destruct (Treiber.popTreiberFreelist (freelist S)) as [s0 f]. case_match.
  - destruct (updCell _ _ _) as [S1|] eqn:Hu; [|done]. intros [= <- <-] j c' Hj.
    pose proof (updCell_cell _ _ _ _ _ _ Hu Hj) as H1. case_decide.
    + by destruct H1 as (c & _ & ->).
    + intros c Hc. change (cellAt (with_freelist f S) j) with (cellAt S j) in H1. congruence.
  - destruct (match cap with Some c => c <=? slotCount_ S | None => false end); [done|].
    destruct (N.leb_spec kMaxChunks (slotCount_ S / kChunkSize)) as [|Hch]; [done|].
    assert (slotCount_ S < 65536) as Hlt.
    { unfold kMaxChunks, kChunkSize in *. pose proof (N.div_mod (slotCount_ S) 256 ltac:(done)).
      pose proof (N.mod_lt (slotCount_ S) 256 ltac:(done)). lia. }
    rewrite u32_small by (unfold two32; lia). 
    match goal with |- context [updCell _ _ ?x] => set (S2 := x) end.
    destruct (updCell _ _ S2) as [S3|] eqn:Hu; [|done]. intros [= <- <-] j c' Hj.
    pose proof (updCell_cell _ _ _ _ _ _ Hu Hj) as H1. case_decide.
    + by destruct H1 as (c & _ & ->).
    + intros c Hc. assert (cellAt S2 j = Some c) as H2; [|congruence].
      unfold S2. destruct (vat _ _); [exact Hc|]. unfold cellAt in *. simpl.
      destruct (vat (chunks_ S) (j / kChunkSize)) as [ch|] eqn:Hv; [|done].
      rewrite vat_app_l by (by eapply vat_lt). by rewrite Hv.
Qed.

Lemma begin_labelled d m X s S' :
  protos_ok X → P d → allocate cap d m (store X) = (Ok s, S') →
  labelled {| store := S'; handles := handles X; pending := {[s]} ∪ pending X;
              dying := dying X; created := created X; destroyed := destroyed X |}.
Proof.
  intros [(L & live & Hinv) _ [H1 H2]] Hd Ha. split; [done|]. simpl. intros j c' Hj Hc'.
  pose proof (allocate_cells _ _ _ _ _ Ha j c' Hc') as H. case_decide as Hjs; [by rewrite H|].
  apply elem_of_union in Hj as [Hj|Hj]; [by apply elem_of_singleton in Hj|].
  pose proof (i_core _ _ _ Hinv) as Hc.
  destruct (pending_place _ _ _ _ Hc Hj) as (Hlt & _).
  destruct (cellAt_exists _ _ (i_chunks _ _ _ Hc) Hlt) as [c Hcell].
  rewrite (H c Hcell). by eapply H2.
Qed.

Lemma allocate_alive d m S s S' : allocate cap d m S = (Ok s, S') → alive S' = alive S.
Proof.
  unfold allocate. destruct (Treiber.popTreiberFreelist (freelist S)) as [s0 f]. case_match.
  - destruct (updCell _ _ _) eqn:E; intros; simplify_eq.
    by apply updCell_alive in E.
  - destruct (match cap with Some c => c <=? slotCount_ S | None => false end); [done|].
    destruct (kMaxChunks <=? _); [done|].
    destruct (vat _ _); destruct (updCell _ _ _) eqn:E; intros; simplify_eq;
      by apply updCell_alive in E.
Qed.

(** A request for a slot gets one, or meets the configured limit, or there is no
    chunk left. *)
Lemma allocate_cases d m X :
  protos_ok X → P d → m ≠ nullptr →
  match allocate cap d m (store X) with
  | (Ok s, _) => ∃ X', PrototypeStore.exec cap (OpBegin d m) X = Some X' ∧ protos_ok X' ∧
      s ∉ pending X ∧ pending X' = {[s]} ∪ pending X ∧ handles X' = handles X
  | (Throw _, _) => True
  | (Ub, _) => slots_full X
  | _ => False
  end.
Proof.
  intros Hok Hd Hm. pose proof Hok as [(L & live & Hinv) Ha Hlab].
  pose proof (i_core _ _ _ Hinv) as Hc.
  assert (Hyes : allowed cap (OpBegin d m) X → ∃ s S', allocate cap d m (store X) = (Ok s, S') ∧
    s ∉ pending X).
  { intros Hal. destruct (exec_ok cap _ X L live Hinv Hal) as (X' & L' & live' & He & Hinv').
    cbn [PrototypeStore.exec] in He.
    destruct (allocate cap d m (store X)) as [[s|e| | |] S'] eqn:E; try done.
    exists s, S'. split; [done|]. revert E. unfold allocate.
    destruct L as [|s0 L].
    - rewrite (Treiber.represents_pop_nil _ (i_free _ _ _ Hc)), N.eqb_refl. cbn [negb].
      pose proof (i_bound _ _ _ Hc) as Hb.
      destruct (match cap with Some c => _ | None => false end); [done|].
      destruct (kMaxChunks <=? _); [done|].
      destruct (updCell _ _ _); [|done]. intros [= <- <-] Hp;
        apply (pending_place _ _ _ _ Hc) in Hp as [Hlt _];
        unfold kMaxChunks, kChunkSize in Hb; rewrite u32_small in Hlt
          by (unfold two32; lia); lia.
    - destruct (Treiber.represents_pop _ _ _ (i_free _ _ _ Hc)) as (f & -> & _).
      case_match; [|apply (free_lt _ _ _ s0) in Hc; [|by left];
        destruct (N.eqb_spec s0 kInvalidSlotId); [lia|done]].
      case_match; [|done]. intros [= -> _]. by apply (i_disj1 _ _ _ Hc); left. }
  destruct (decide (allowed cap (OpBegin d m) X)) as [Hal|Hno].
  - destruct (Hyes Hal) as (s & S' & E & Hs).
    destruct (step_ok X _ Hok Hal) as (X' & He & Hok').
    { cbn [PrototypeStore.exec]. rewrite E. intros ? [= <-].
      split; [by apply allocate_alive in E|by eapply begin_labelled]. }
    rewrite E. exists X'. split_and!; [done..| |]; cbn [PrototypeStore.exec] in He;
      rewrite E in He; by simplify_eq.
  - cbn [allowed] in Hno. unfold allocate. destruct L as [|s0 L].
    2:{ exfalso. apply Hno. split_and!; [done..|]. left. pose proof (i_free _ _ _ Hc) as [Hch _].
        destruct (free_lt _ _ _ s0 Hc ltac:(by left)). simpl in Hch. destruct Hch as (-> & ? & _).
        lia. }
    rewrite (Treiber.represents_pop_nil _ (i_free _ _ _ Hc)), N.eqb_refl. cbn [negb].
    assert (default (kMaxChunks * kChunkSize) cap ≤ slotCount_ (store X) ∨
            kMaxChunks * kChunkSize ≤ slotCount_ (store X)) as Hfull.
    { destruct (decide (slotCount_ (store X) < default (kMaxChunks * kChunkSize) cap));
        [|left; lia].
      destruct (decide (slotCount_ (store X) < kMaxChunks * kChunkSize)); [|right; lia].
      destruct Hno. split_and!; [done..|]. by right. }
    destruct (match cap with Some c => _ | None => false end) eqn:Hcap; [done|].
    assert (slots_full X) as Hf.
    { unfold slots_full. destruct cap as [c|]; simpl in *; [apply N.leb_gt in Hcap|]; lia. }
    rewrite (proj2 (N.leb_le kMaxChunks _)); [done|].
    apply N.div_le_lower_bound; [done|]. destruct Hf. lia.
Qed.

Lemma finish_step s X :
  protos_ok X → s ∈ pending X →
  ∃ X', PrototypeStore.exec cap (OpFinish s) X = Some X' ∧ protos_ok X' ∧
    handles X !! s = None ∧ memoryAt (store X') s ≠ nullptr ∧
    pending X' = pending X ∖ {[s]} ∧ handles X' = <[s := 1]> (handles X).
Proof.
  intros Hok Hs. pose proof Hok as [(L & live & Hinv) Ha Hlab].
  pose proof (i_core _ _ _ Hinv) as Hc.
  destruct (pending_place _ _ _ _ Hc Hs) as (Hlt & _ & _ & Hh & _).
  destruct (updCell_spec _ s (set_refcount 1) (i_chunks _ _ _ Hc) Hlt)
    as (c & Hcell & Hupd & _ & (T1 & T2 & T3 & T4 & T5 & T6) & Hs' & _).
  assert (He : PrototypeStore.exec cap (OpFinish s) X = Some
    {| store := with_live (u32 (liveSlotCount (setCell s (set_refcount 1 c) (store X)) + 1))
                  (setCell s (set_refcount 1 c) (store X));
       handles := <[s := 1]> (handles X); pending := pending X ∖ {[s]}; dying := dying X;
       created := created X ++ [(descId c, memory c)]; destroyed := destroyed X |}).
  { cbn [PrototypeStore.exec]. unfold slotMetaAt, activate. rewrite Hcell; simpl.
    rewrite (proj2 (N.ltb_lt _ _) Hlt), Hupd. done. }
  destruct (step_ok X (OpFinish s) Hok Hs) as (X' & He' & Hok').
  { rewrite He. intros ? [= <-]. split; [exact T1|]. destruct Hlab as [Hl1 Hl2]. split; simpl.
    - apply Forall_app. split; [done|]. apply Forall_singleton. by eapply Hl2.
    - intros j c' [Hj Hne]%elem_of_difference Hcj.
      change (cellAt (with_live ?m ?T) j) with (cellAt T j) in Hcj.
      rewrite cellAt_setCell, decide_False in Hcj by (by eexists || set_solver). by eapply Hl2. }
  rewrite He in He'. injection He' as <-. eexists. split; [exact He|].
  split_and!; [done|done| |done|done].
  unfold memoryAt; simpl. rewrite T3, (proj2 (N.leb_gt _ _) Hlt).
  change (cellAt (with_live ?n ?T) s) with (cellAt T s). rewrite Hs'.
  by apply (i_mem_pending _ _ _ Hc _ _ Hs Hcell).
Qed.

Lemma fail_step s X :
  protos_ok X → s ∈ pending X →
  ∃ X', PrototypeStore.exec cap (OpFail s) X = Some X' ∧ protos_ok X' ∧
    pending X' = pending X ∖ {[s]} ∧ handles X' = handles X.
Proof.
  intros Hok Hs. destruct (step_ok X (OpFail s) Hok Hs) as (X' & He & Hok').
  { cbn [PrototypeStore.exec]. unfold reclaim.
    destruct (updCell s _ _) as [S1|] eqn:E; simpl; [|done].
    destruct (cellAt S1 s); simpl; [|done]. intros ? [= <-].
    split; [by apply updCell_alive in E|].
    eapply (labelled_upd X _ s); [apply Hok|done|simpl; set_solver|exact E|done|done]. }
  exists X'. split; [done|]. split; [done|]. cbn [PrototypeStore.exec] in He.
  destruct (reclaim s (store X)); by simplify_eq/=.
Qed.

Lemma copy_step s X :
  protos_ok X → handles X !! s = Some 1 → memoryAt (store X) s ≠ nullptr →
  ∃ X', PrototypeStore.exec cap (OpCopy s) X = Some X' ∧ protos_ok X' ∧
    pending X' = pending X ∧ handles X' = <[s := 2]> (handles X).
Proof.
  intros Hok Hs Hm. destruct (step_ok X (OpCopy s) Hok) as (X' & He & Hok').
  { by exists 1. }
  { cbn [PrototypeStore.exec]. unfold retain. destruct (cellAt _ s); simpl; [|done].
    case_match; [|done]. destruct (updCell s _ _) as [S1|] eqn:E; simpl; [|done].
    intros ? [= <-]. split; [by apply updCell_alive in E|].
    by eapply (labelled_upd X _ s); [apply Hok|done|done|exact E|..]. }
  exists X'. split; [done|]. split; [done|]. cbn [PrototypeStore.exec] in He.
  rewrite Hs in He. destruct (retain s (store X)); by simplify_eq/=.
Qed.

Lemma drop_step2 s X :
  protos_ok X → handles X !! s = Some 2 →
  ∃ X', PrototypeStore.exec cap (OpDrop s) X = Some X' ∧ protos_ok X' ∧
    pending X' = pending X ∧ handles X' = <[s := 1]> (handles X) ∧ dying X' = dying X.
Proof.
  intros Hok Hs. pose proof Hok as [(L & live & Hinv) Ha Hlab].
  pose proof (i_core _ _ _ Hinv) as Hc.
  destruct (held_place _ _ _ _ _ Hc Hs) as (Hlt & _).
  destruct (updCell_spec _ s (set_refcount (u32 (2 + (two32 - 1)))) (i_chunks _ _ _ Hc) Hlt)
    as (c & Hcell & Hupd & _ & (T1 & _) & _).
  pose proof (i_ref _ _ _ Hc _ _ Hlt Hcell) as Href. rewrite Hs in Href. simpl in Href.
  assert (He : ∃ X', PrototypeStore.exec cap (OpDrop s) X = Some X' ∧
    (alive (store X') = alive (store X) ∧ labelled X') ∧
    pending X' = pending X ∧ handles X' = <[s := 1]> (handles X) ∧ dying X' = dying X).
  { cbn [PrototypeStore.exec]. unfold releaseIfPrototype, releaseAcquire.
    rewrite Hcell. cbn [mbind option_bind]. rewrite (proj2 (N.ltb_lt _ _) Hlt), Href, Hupd.
    cbn [mbind option_bind]. rewrite Hs. eexists. split; [done|]. simpl. split_and!; try done.
    by eapply (labelled_upd X _ s); [done|done|done|exact Hupd|..]. }
  destruct He as (X1 & He & Hal & Hp & Hh & Hd).
  destruct (step_ok X (OpDrop s) Hok) as (X' & He' & Hok').
  { cbn [allowed]. by exists 2. }
  { rewrite He. by intros ? [= <-]. }
  rewrite He in He'. injection He' as <-. by exists X1.
Qed.

(** Slots on their way out are touched by the release of a last handle only. *)
Lemma exec_dying X X' o : PrototypeStore.exec cap o X = Some X' →
  match o with OpDrop _ | OpReclaim _ => True | _ => dying X' = dying X end.
Proof.
  destruct o; try done; cbn [PrototypeStore.exec]; intros H.
  - by destruct (allocate _ _ _ _) as [[] ?]; simplify_eq.
  - by destruct (slotMetaAt _ _) as [[]|]; simplify_eq/=; destruct (activate _ _); simplify_eq/=.
  - by destruct (reclaim _ _); simplify_eq/=.
  - by destruct (retain _ _); simplify_eq/=.
  - by destruct (takeSlotMetaForDestruction _ _) as [? ?]; simplify_eq/=.
  - by simplify_eq.
Qed.
End protos.

(** ** The environment resolution relies on *)

(** A scope argument that is null or points to a [ScopedContext]. *)
Definition valid_scope (E : env) (scope : option ptr) : Prop :=
  match scope with None => True | Some sc => is_Some (scopes_ E !! sc) end.

(** User code that passes no dangling scope. *)
Fixpoint prog_ok (E : env) (p : prog) : Prop :=
  match p with
  | Return | Raise _ => True
  | Resolve scope _ _ k => valid_scope E scope ∧ ∀ r, prog_ok E (k r)
  end.

(** What [start()] establishes about the tables, the invariants of the listener
    store, and user code that passes live scopes. *)
Record env_ok (E : env) : Prop := {
  eo_table : DescriptorTable.wf (descriptors_ E);
  eo_size : DescriptorTable.size (descriptors_ E) < two32;
  eo_entries ty n e d :
    TypeIndex.entryFor (typeIndex_ E) ty n = Some e →
    d ∈ TypeIndex.candidates e ∨ d = TypeIndex.head e → d ≠ kInvalidDescriptorId →
    d < DescriptorTable.size (descriptors_ E);
  eo_valid ty n e :
    TypeIndex.entryFor (typeIndex_ E) ty n = Some e →
    kInvalidDescriptorId ∉ TypeIndex.candidates e;
  eo_single ty d :
    TypeIndex.singleUnnamedCandidate (typeIndex_ E) ty = d → d ≠ kInvalidDescriptorId →
    d < DescriptorTable.size (descriptors_ E);
  eo_primary d x :
    DescriptorTable.at_ (descriptors_ E) d = Some x → is_primary_elsewhere x d = true →
    ∃ y, DescriptorTable.at_ (descriptors_ E) (primaryDescriptor x) = Some y ∧
         is_primary_elsewhere y (primaryDescriptor x) = false ∧ lifetime y = lifetime x;
  eo_slots d d' x x' :
    DescriptorTable.at_ (descriptors_ E) d = Some x →
    DescriptorTable.at_ (descriptors_ E) d' = Some x' →
    lifetime x = Session → lifetime x' = Session → sessionSlot x = sessionSlot x' → d = d';
  eo_scopeName sc info : scopes_ E !! sc = Some info → scopeNameId_ info < two32;
  eo_dispatch ph ty sc : ph < ListenerStore.kPhaseCount →
    is_Some (ListenerStore.dispatch (listeners_ E) ph ty sc) ∧
    is_Some (ListenerStore.hasListeners (listeners_ E) ph);
  eo_bound d x c :
    DescriptorTable.at_ (descriptors_ E) d = Some x →
    DescriptorTable.coldAt (descriptors_ E) d = Some c →
    origin c = RuntimeBinding → lifetime x = Singleton ∨ lifetime x = Session;
  eo_token : threadToken_ E ≠ Tokens.kNoMaterializationThreadToken;
  eo_construct f sc p : valid_scope E sc → prog_ok E (call_construct E f sc p);
  eo_allocAndConstruct f sc : valid_scope E sc → prog_ok E (call_allocAndConstruct E f sc);
  eo_hook f sc p : valid_scope E sc → prog_ok E (call_hook E f sc p);
  eo_listener cb bean : prog_ok E (call_listener E cb bean)
}.

(** ** The steps of a destruction *)

Definition dispatched (E : env) (phase : N) : bool :=
  default false (ListenerStore.hasListeners (listeners_ E) phase).

(** The steps up to the destructor: the listener phases run if somebody listens. *)
Definition farewell (E : env) (c : DescriptorCold) : list step_kind :=
  (if dispatched E ListenerStore.phasePreDestroy then [PreDestroy] else []) ++
  (match preDestroy c with Some _ => [PreDestroyHook] | None => [] end) ++
  (if dispatched E ListenerStore.phaseDestroyed then [DestroyedStep] else []) ++
  [Destructor].

(** Memory that is not the container's is not deallocated. *)
Definition death (E : env) (c : DescriptorCold) : list step_kind :=
  farewell E c ++
  (if bool_decide (dealloc c ≠ None) || negb (Tables.size c =? 0) then [Deallocated] else []).

Section facts.
Context (E : env) (EO : env_ok E).

Abbreviation D := (descriptors_ E) (only parsing).
Abbreviation key := MaterializationKey (only parsing).

(** ** The bean of a key, and its life *)

Definition instance_of (R : t) (k : key) : ptr :=
  match DescriptorTable.at_ D (key_descId k) with
  | None => nullptr
  | Some x =>
      match lifetime x with
      | Singleton =>
          if key_scope k =? nullptr
          then SingletonStore.value (singletons_ R) (key_descId k) else nullptr
      | Session =>
          match sessions R !! key_scope k with
          | Some ss => InstanceArray.cur (SessionStore.instances_ ss) (sessionSlot x)
          | None => nullptr
          end
      | ThreadLocal =>
          if key_scope k =? nullptr
          then ThreadLocalStore.value (tl R) (registryId_ E) (key_descId k) else nullptr
      | Prototype => nullptr
      end
  end.

Definition life_of (k : key) (e : event) : option (step_kind * ptr) :=
  match e with
  | Life s k' o => if decide (k' = k) then Some (s, o) else None
  | FreeUnconstructed _ => None
  end.

Definition life (k : key) (l : list event) : list (step_kind * ptr) := omap (life_of k) l.

(** Construction, [onInitialized], [postConstruct], [onCreated]. *)
Definition full_life (cold : DescriptorCold) (p : ptr) : list (step_kind * ptr) :=
  [(Constructed, p); (Initialized, p)] ++
  match postConstruct cold with Some _ => [(PostConstruct, p)] | None => [] end ++
  [(Created, p)].

Lemma life_app k l1 l2 : life k (l1 ++ l2) = life k l1 ++ life k l2.
Proof. apply omap_app. Qed.

(** The steps of a destruction, whoever listened at the time. *)
Definition complete_death (cold : DescriptorCold) (steps : list step_kind) : Prop :=
  ∃ pre destroyed freed : bool, steps =
    (if pre then [PreDestroy] else []) ++
    match preDestroy cold with Some _ => [PreDestroyHook] | None => [] end ++
    (if destroyed then [DestroyedStep] else []) ++ [Destructor] ++
    (if freed then [Deallocated] else []).

Lemma farewell_complete c : complete_death c (farewell E c).
Proof. eexists _, _, false. unfold farewell. by rewrite app_nil_r. Qed.

Lemma death_complete c : complete_death c (death E c).
Proof. eexists _, _, _. unfold death, farewell. by rewrite <-!(assoc_L (++)). Qed.

(** A life that is over: the construction as far as it went, then one destruction. *)
Definition whole (cold : DescriptorCold) (l : list (step_kind * ptr)) : Prop :=
  ∃ p n steps, p ≠ nullptr ∧ n ≠ O ∧ complete_death cold steps ∧
    l = take n (full_life cold p) ++ ((λ s, (s, p)) <$> steps).

(** Lives that are over, one after the other. *)
Inductive lives (cold : DescriptorCold) : list (step_kind * ptr) → Prop :=
| lives_nil : lives cold []
| lives_snoc l l' : lives cold l → whole cold l' → lives cold (l ++ l').

(** A scope in the sweep of [stopScope]. *)
Definition stopping (sc : ptr) : Prop :=
  ∃ info, scopes_ E !! sc = Some info ∧ scopeState_ info = Stopping.

(** Keys the container keeps an instance for and constructs itself. *)
Definition kept (k : key) (c : DescriptorCold) : Prop :=
  ∃ x, DescriptorTable.at_ D (key_descId k) = Some x ∧
       DescriptorTable.coldAt D (key_descId k) = Some c ∧
       lifetime x ≠ Prototype ∧ origin c ≠ RuntimeBinding.

Lemma kept_cold k c c' : kept k c → kept k c' → c = c'.
Proof. intros (? & _ & E1 & _) (? & _ & E2 & _). congruence. Qed.

(** ** The invariant *)

(** A descriptor of the table, of the given lifetime. *)
Definition of_lifetime (l : Lifetime) (d : DescriptorId) : Prop :=
  ∃ x, DescriptorTable.at_ D d = Some x ∧ lifetime x = l.

Record session_ok (S : SessionStore.t) : Prop := {
  so_wf : SessionStore.wf S;
  so_size d x c :
    DescriptorTable.at_ D d = Some x → DescriptorTable.coldAt D d = Some c →
    lifetime x = Session → origin c ≠ RuntimeBinding →
    sessionSlot x < InstanceArray.size (SessionStore.instances_ S);
  so_order d x c :
    DescriptorTable.at_ D d = Some x → DescriptorTable.coldAt D d = Some c →
    lifetime x = Session → origin c ≠ RuntimeBinding →
    InstanceArray.cur (SessionStore.instances_ S) (sessionSlot x) ≠ nullptr →
    d ∈ SessionStore.insertionOrder S;
  so_known d : d ∈ SessionStore.insertionOrder S → of_lifetime Session d
}.

(** A bean that exists is in the construction of its current life; in a scope that is
    being stopped it may be in its destruction. *)
Definition present (k : key) (c : DescriptorCold) (R : t) : Prop :=
  ∃ past n, lives c past ∧ n ≠ O ∧
    life k (trace R) = past ++ take n (full_life c (instance_of R k)).

Definition trace_ok (R : t) : Prop := ∀ k c, kept k c →
  if decide (instance_of R k = nullptr) then lives c (life k (trace R))
  else stopping (key_scope k) ∨ present k c R.

Record inv (R : t) : Prop := {
  i_singletons : SingletonStore.wf (singletons_ R);
  i_capacity d x : DescriptorTable.at_ D d = Some x → lifetime x = Singleton →
    d < InstanceArray.size (SingletonStore.instances_ (singletons_ R));
  i_bound d x c :
    DescriptorTable.at_ D d = Some x → DescriptorTable.coldAt D d = Some c →
    lifetime x = Singleton → origin c = RuntimeBinding →
    is_primary_elsewhere x d = false → SingletonStore.value (singletons_ R) d ≠ nullptr;
  i_sessions sc info :
    scopes_ E !! sc = Some info → scopeState_ info ≠ Stopped →
    ∃ S, sessions R !! sc = Some S ∧ session_ok S;
  i_owner k x :
    instance_of R k ≠ nullptr → DescriptorTable.at_ D (key_descId k) = Some x →
    is_primary_elsewhere x (key_descId k) = false;
  i_protos : protos_ok (of_lifetime Prototype) (prototypes_ R);
  i_slots : wf_slots (claims R);
  i_claims e : e ∈ materializing_ (claims R) → key_descId (entry_key e) ∈ stack R;
  i_tl : ThreadLocalStore.wf (tl R);
  i_address : nextAddress R ≠ nullptr;
  i_trace : trace_ok R;
  i_stored d : SingletonStore.value (singletons_ R) d ≠ nullptr → of_lifetime Singleton d;
  i_local d : ThreadLocalStore.value (tl R) (registryId_ E) d ≠ nullptr →
    of_lifetime ThreadLocal d
}.

(** ** What a nested call keeps *)

Definition busy (R : t) (k : key) : Prop :=
  instance_of R k ≠ nullptr ∨ key_descId k ∈ stack R.

(** [k]'s bean did not exist: it was not constructed, or constructed once, and its life
    is as far as the construction got. *)
Definition grown (k : key) (c : DescriptorCold) (R R' : t) : Prop :=
  ∃ n, life k (trace R') = life k (trace R) ++ take n (full_life c (instance_of R' k)) ∧
    (n = O ↔ instance_of R' k = nullptr).

(** [own] is the bean whose lifecycle is running, if any. *)
Record ext (own : option key) (R R' : t) : Prop := {
  x_stack : stack R' = stack R;
  x_claims : materializing_ (claims R') = materializing_ (claims R);
  x_instance k : busy R k → instance_of R' k = instance_of R k;
  x_pending : PrototypeStore.pending (prototypes_ R') = PrototypeStore.pending (prototypes_ R);
  x_handles s n : PrototypeStore.handles (prototypes_ R) !! s = Some n →
    PrototypeStore.handles (prototypes_ R') !! s = Some n;
  x_order : ∃ ds, SingletonStore.insertionOrder (singletons_ R') =
    SingletonStore.insertionOrder (singletons_ R) ++ ds;
  x_trace : ∃ es, trace R' = trace R ++ es ∧
    ∀ k c, kept k c → busy R k → own ≠ Some k → life k es = [];
  x_stopped sc : (∀ info, scopes_ E !! sc = Some info → scopeState_ info ≠ Running_) →
    sessions R' !! sc = sessions R !! sc;
  x_grown k c : kept k c → own ≠ Some k → instance_of R k = nullptr → grown k c R R';
  x_dying : PrototypeStore.dying (prototypes_ R') = PrototypeStore.dying (prototypes_ R)
}.

(** Nothing happened to [k]. *)
Lemma grown_same k c R R' : instance_of R k = nullptr → instance_of R' k = instance_of R k →
  life k (trace R') = life k (trace R) → grown k c R R'.
Proof. intros Hi He Hl. exists O. rewrite Hl, He, Hi, app_nil_r. done. Qed.

Lemma ext_refl own R : ext own R R.
Proof.
  split; try done; [exists []; by rewrite app_nil_r..|]. intros. by apply grown_same.
Qed.

Lemma ext_trans own R1 R2 R3 : ext own R1 R2 → ext own R2 R3 → ext own R1 R3.
Proof.
  intros [A1 A2 A3 A4 A5 [o1 A6] [e1 [A7 A8]] A9 A10 A11]
    [B1 B2 B3 B4 B5 [o2 B6] [e2 [B7 B8]] B9 B10 B11].
  split.
  - congruence.
  - congruence.
  - intros k Hk. rewrite B3; [by apply A3|]. destruct Hk as [Hk|Hk].
    + left. rewrite A3; [done|by left].
    + right. by rewrite A1.
  - congruence.
  - intros s n H. by apply B5, A5.
  - exists (o1 ++ o2). by rewrite B6, A6, (assoc_L (++)).
  - exists (e1 ++ e2). rewrite B7, A7, (assoc_L (++)). split; [done|]. intros k c Hk Hb Ho.
    rewrite life_app, (A8 k c), (B8 k c); [done|done| |done|done..].
    destruct Hb as [Hb|Hb]; [left; rewrite A3; [done|by left]|right; by rewrite A1].
  - intros sc Hsc. rewrite B9 by done. by apply A9.
  - intros k c Hk Ho Hi. destruct (A10 k c Hk Ho Hi) as (n & Hn & Hz).
    destruct (decide (instance_of R2 k = nullptr)) as [Hi2|Hi2].
    + destruct (B10 k c Hk Ho Hi2) as (m & Hm & Hz'). exists m. split; [|done].
      rewrite Hm, Hn, (proj2 Hz) by done. by rewrite app_nil_r.
    + exists n. rewrite B3 by (by left). split; [|done].
      rewrite B7, life_app, (B8 k c), app_nil_r; [done|done|by left|done].
  - congruence.
Qed.

#[local] Instance ext_preorder own : PreOrder (ext own).
Proof. split; [exact (ext_refl own)|exact (ext_trans own)]. Qed.

Lemma ext_weaken own R R' : ext None R R' → ext own R R'.
Proof.
  intros [A1 A2 A3 A4 A5 A6 [e [A7 A8]] A9 A10 A11]. split; try done.
  - exists e. split; [done|]. intros k c Hk Hb _. by apply (A8 k c).
  - intros k c Hk _. by apply A10.
Qed.

Definition good (R R' : t) : Prop := inv R' ∧ ext None R R'.

Lemma good_trans R1 R2 R3 : good R1 R2 → good R2 R3 → good R1 R3.
Proof. intros [_ H1] [H2 H3]. split; [done|]. by etrans. Qed.

(** ** The measure: keys that could still start a construction *)

Definition universe : list key :=
  d ← N.of_nat <$> seq 0 (N.to_nat (DescriptorTable.size D));
  sc ← nullptr :: (map_to_list (scopes_ E)).*1;
  [Key d sc].

Definition open_key (R : t) (k : key) : Prop :=
  key_descId k ∉ stack R ∧ instance_of R k = nullptr.

#[local] Instance open_key_dec R k : Decision (open_key R k).
Proof. unfold open_key; apply _. Defined.

Definition measure (R : t) : nat := length (filter (open_key R) universe).

Lemma elem_universe d sc : d < DescriptorTable.size D →
  sc = nullptr ∨ is_Some (scopes_ E !! sc) → Key d sc ∈ universe.
Proof.
  intros Hd Hsc. unfold universe. apply list_elem_of_bind. exists d. split.
  - apply list_elem_of_bind. exists sc. split; [by left|]. apply elem_of_cons.
    destruct Hsc as [->|[info Hi]]; [by left|right]. apply list_elem_of_fmap.
    exists (sc, info). split; [done|]. by apply elem_of_map_to_list.
  - apply list_elem_of_fmap. exists (N.to_nat d). split; [lia|]. apply elem_of_seq. lia.
Qed.

Lemma filter_le (P Q : key → Prop) `{∀ k, Decision (P k), ∀ k, Decision (Q k)} l :
  (∀ k, Q k → P k) → (length (filter Q l) ≤ length (filter P l))%nat.
Proof.
  intros HQ. induction l as [|k l IH]; [done|]. rewrite !filter_cons.
  case_decide; case_decide; simpl; try lia. exfalso. eauto.
Qed.

Lemma filter_lt (P Q : key → Prop) `{∀ k, Decision (P k), ∀ k, Decision (Q k)} l k :
  (∀ k, Q k → P k) → k ∈ l → P k → ¬ Q k →
  (length (filter Q l) < length (filter P l))%nat.
Proof.
  intros HQ Hk HP HnQ. induction Hk as [k l|k k' l _ IH]; rewrite !filter_cons.
  - rewrite decide_False, decide_True by done. simpl. pose proof (filter_le P Q l HQ). lia.
  - specialize (IH HP HnQ). case_decide; case_decide; simpl; try lia. exfalso. eauto.
Qed.

Lemma measure_mono own R R' : ext own R R' → (measure R' ≤ measure R)%nat.
Proof.
  intros H. apply filter_le. intros k [H1 H2]. rewrite (x_stack _ _ _ H) in H1.
  split; [done|]. destruct (decide (instance_of R k = nullptr)) as [|Hne]; [done|].
  by rewrite (x_instance _ _ _ H k ltac:(by left)) in H2.
Qed.

(** ** Updates of one part of the state *)

Lemma inv_registered r p R : inv R → inv (set_registered r p R).
Proof. intros [H1 H2 H3 H4 H5 H6 H7 H8 H9 H10 H11 H12 H13]; split; assumption. Qed.

Lemma inv_nextAddress a R : inv R → a ≠ nullptr → inv (set_nextAddress a R).
Proof. intros [H1 H2 H3 H4 H5 H6 H7 H8 H9 H10 H11 H12 H13] Ha; split; assumption. Qed.

Lemma inv_log e R : inv R → trace_ok (log e R) → inv (log e R).
Proof. intros [H1 H2 H3 H4 H5 H6 H7 H8 H9 H10 H11 H12 H13] Ht; split; assumption. Qed.

Lemma inv_prototypes X R : inv R → protos_ok (of_lifetime Prototype) X → inv (set_prototypes X R).
Proof. intros [H1 H2 H3 H4 H5 H6 H7 H8 H9 H10 H11 H12 H13] Ht; split; assumption. Qed.

(** A part of the state the frame does not mention. *)
Lemma ext_same own R R' :
  stack R' = stack R → claims R' = claims R → singletons_ R' = singletons_ R →
  sessions R' = sessions R → tl R' = tl R → prototypes_ R' = prototypes_ R →
  trace R' = trace R → ext own R R'.
Proof.
  intros E1 E2 E3 E4 E5 E6 E7.
  assert (∀ k, instance_of R' k = instance_of R k) as Hi.
  { intros k. unfold instance_of. by rewrite E3, E4, E5. }
  split; [congruence|congruence| |congruence| | | |by intros sc _; rewrite E4| |congruence].
  - intros k _. apply Hi.
  - intros s n. by rewrite E6.
  - exists []. by rewrite E3, app_nil_r.
  - exists []. by rewrite E7, app_nil_r.
  - intros k c _ _ Hn. apply grown_same; [done|apply Hi|by rewrite E7].
Qed.

Lemma life_log k e R : life k (trace (log e R)) = life k (trace R) ++ life k [e].
Proof. apply life_app. Qed.

Lemma ext_log own e R :
  (∀ k c, kept k c → own ≠ Some k → life k [e] = []) → ext own R (log e R).
Proof.
  intros H. split; try done; [exists []; by rewrite app_nil_r| |].
  - exists [e]. split; [done|]. intros k c Hk _. by apply (H k c).
  - intros k c Hk Ho Hi. apply grown_same; [done..|]. by rewrite life_log, (H k c), app_nil_r.
Qed.

Lemma life_other k k' s p : k' ≠ k → life k [Life s k' p] = [].
Proof. intros H. unfold life; simpl. by rewrite decide_False. Qed.

Lemma life_same k s p : life k [Life s k p] = [(s, p)].
Proof. unfold life; simpl. by rewrite decide_True. Qed.

Lemma trace_ok_same R R' : trace R' = trace R →
  (∀ k, instance_of R' k = instance_of R k) → trace_ok R → trace_ok R'.
Proof.
  intros Ht Hi H k c Hk. specialize (H k c Hk). unfold present in *. by rewrite Ht, Hi.
Qed.

Lemma trace_ok_other e R :
  (∀ k c, kept k c → life k [e] = []) → trace_ok R → trace_ok (log e R).
Proof.
  intros He Ht k c Hk. specialize (Ht k c Hk). unfold present.
  rewrite life_log, (He k c Hk), app_nil_r. exact Ht.
Qed.

(** An event that concerns no kept bean. *)
Lemma good_log e R : inv R → (∀ k c, kept k c → life k [e] = []) → good R (log e R).
Proof.
  intros HR He. split; [apply inv_log; [done|]|].
  - apply trace_ok_other; [done|]. apply (i_trace _ HR).
  - apply ext_log. intros k c Hk _. by apply (He k c).
Qed.

Lemma good_free p R : inv R → good R (log (FreeUnconstructed p) R).
Proof. intros HR. by apply good_log. Qed.

(** The next event of a bean's own life. *)
Lemma own_event k c s R past n :
  inv R → kept k c → instance_of R k ≠ nullptr → lives c past → n ≠ O →
  life k (trace R) = past ++ take n (full_life c (instance_of R k)) →
  full_life c (instance_of R k) !! n = Some (s, instance_of R k) →
  let R' := log (Life s k (instance_of R k)) R in
  inv R' ∧ ext (Some k) R R' ∧
  life k (trace R') = past ++ take (S n) (full_life c (instance_of R k)).
Proof.
  intros HR Hk Hi Hpast Hn Hl Hs R'.
  assert (Hl' : life k (trace R') = past ++ take (S n) (full_life c (instance_of R k))).
  { unfold R'. by rewrite life_log, Hl, life_same, (take_S_r _ _ _ Hs), (assoc_L (++)). }
  split_and!; [apply inv_log; [done|]| |done].
  - intros k' c' Hk'. destruct (decide (k' = k)) as [->|Hne].
    + assert (c' = c) as ->.
      { destruct Hk as (? & _ & E1 & _), Hk' as (? & _ & E2 & _). congruence. }
      change (instance_of (log _ R) k) with (instance_of R k).
      rewrite decide_False by done. right. by exists past, (S n).
    + unfold present. rewrite life_log, life_other, app_nil_r by congruence. by apply (i_trace _ HR).
  - apply ext_log. intros k' c' _ Ho. apply life_other. congruence.
Qed.

Lemma ext_busy own R R' k : ext own R R' → instance_of R k ≠ nullptr → instance_of R' k ≠ nullptr.
Proof. intros H Hi. rewrite (x_instance _ _ _ H k); [done|by left]. Qed.

(** Other calls add nothing to the life of a bean that exists. *)
Lemma ext_life R R' k c :
  ext None R R' → kept k c → busy R k → life k (trace R') = life k (trace R).
Proof.
  intros H Hk Hb. destruct (x_trace _ _ _ H) as (es & -> & Hes).
  by rewrite life_app, (Hes k c), app_nil_r.
Qed.

(** What a call does to a bean: nothing if it exists, at most one construction if not. *)
Definition once (k : key) (c : DescriptorCold) (R R' : t) : Prop :=
  if decide (instance_of R k = nullptr) then grown k c R R'
  else instance_of R' k = instance_of R k ∧ life k (trace R') = life k (trace R).

Lemma good_once k c R R' : good R R' → kept k c → once k c R R'.
Proof.
  intros [_ Hx] Hk. unfold once. case_decide as Hi; [by apply (x_grown _ _ _ Hx)|].
  split; [apply (x_instance _ _ _ Hx); by left|]. by apply (ext_life R R' k c Hx Hk); left.
Qed.

(** ** User code and dispatch *)

Definition full (R : t) : Prop := slots_full (maxSlots E) (prototypes_ R).

Abbreviation keeps m R := (ends full m R (λ _ R', good R R') (λ _ R', good R R')) (only parsing).

Section nested.
Context (rec : option ptr → TypeId → NameId → M t Handle.Bean) (n : nat).
Hypothesis rec_keeps : ∀ sc ty nm R, valid_scope E sc → inv R → (measure R < n)%nat → keeps (rec sc ty nm) R.

Lemma good_measure R R' : good R R' → (measure R < n)%nat → (measure R' < n)%nat.
Proof. intros [_ H%measure_mono] ?. lia. Qed.

Lemma run_prog_keeps p : prog_ok E p →
  ∀ R, inv R → (measure R < n)%nat → keeps (run_prog rec p) R.
Proof.
  induction p as [|m|sc ty nm k IH]; intros Hp R HR Hm.
  - split; [done|reflexivity].
  - split; [done|reflexivity].
  - destruct Hp as [Hsc Hk].
    pose proof (rec_keeps sc ty nm R Hsc HR Hm) as Hrec. unfold ends in *. simpl.
    destruct (rec sc ty nm R) as [[b|e| | |] R1]; try done.
    + pose proof (IH (inl b) (Hk _) R1 (proj1 Hrec) (good_measure _ _ Hrec Hm)) as H.
      eapply ends_mono; [exact H|..]; intros ?? H'; by eapply good_trans.
    + pose proof (IH (inr e) (Hk _) R1 (proj1 Hrec) (good_measure _ _ Hrec Hm)) as H.
      eapply ends_mono; [exact H|..]; intros ?? H'; by eapply good_trans.
Qed.

(** Sequencing calls that keep the frame. *)
Lemma keeps_bind {A B} (m : M t A) (k : A → M t B) R Q X :
  keeps m R → (measure R < n)%nat →
  (∀ a R', good R R' → (measure R' < n)%nat → ends full (k a) R' Q X) →
  (∀ e R', good R R' → X e R') → ends full (mbind_ m k) R Q X.
Proof.
  intros Hm Hlt Hk HX. unfold mbind_, ends in *.
  destruct (m R) as [[a|e| | |] R1]; try done; [|by apply HX].
  apply Hk; [done|]. by eapply good_measure.
Qed.

Lemma run_callbacks_keeps cbs bean : ∀ R, inv R → (measure R < n)%nat →
  keeps (run_callbacks E rec cbs bean) R.
Proof.
  induction cbs as [|cb cbs IH]; intros R HR Hm.
  - split; [done|reflexivity].
  - simpl. apply keeps_bind; [apply run_prog_keeps; [apply EO|done..]|done| |done].
    intros _ R1 H1 Hm1. eapply ends_mono; [apply IH; [apply H1|done]|..];
      intros ?? H'; by eapply good_trans.
Qed.

Lemma dispatch_keeps ph ty bean em R : ph < ListenerStore.kPhaseCount →
  inv R → (measure R < n)%nat → keeps (dispatch E rec ph ty bean em) R.
Proof.
  intros Hph HR Hm. unfold dispatch.
  destruct (eo_dispatch _ EO ph ty em Hph) as [[cbs ->] _]. simpl.
  by apply run_callbacks_keeps.
Qed.

(** ** The lifecycle of a stored bean *)

Definition alive_with (k : key) (c : DescriptorCold) (p : ptr) (l : list (step_kind * ptr))
    (R R' : t) : Prop :=
  inv R' ∧ ext (Some k) R R' ∧ instance_of R' k = p ∧ life k (trace R') = l.

Lemma alive_emit k c p s past m R0 R :
  kept k c → p ≠ nullptr → lives c past → m ≠ O → full_life c p !! m = Some (s, p) →
  alive_with k c p (past ++ take m (full_life c p)) R0 R →
  alive_with k c p (past ++ take (S m) (full_life c p)) R0 (log (Life s k p) R).
Proof.
  intros Hk Hp Hpast Hm Hs (HR & Hx & Hi & Hl). rewrite <-Hi in Hp, Hs, Hl |- *.
  destruct (own_event k c s R past m HR Hk Hp Hpast Hm Hl Hs) as (H1 & H2 & H3).
  split_and!; [done|by etrans|done|done].
Qed.

Lemma alive_call {A} k c p l (m : M t A) R0 R :
  kept k c → p ≠ nullptr → alive_with k c p l R0 R → keeps m R →
  ends full m R (λ _ R', alive_with k c p l R0 R') (λ _ R', alive_with k c p l R0 R').
Proof.
  intros Hk Hp (HR & Hx & Hi & Hl) Hm.
  assert (∀ R', good R R' → alive_with k c p l R0 R') as Hall.
  { intros R' [HR' Hx']. split_and!; [done| | |].
    - etrans; [exact Hx|]. by apply ext_weaken.
    - rewrite (x_instance _ _ _ Hx'); [done|]. left. by rewrite Hi.
    - rewrite (ext_life _ _ k c Hx' Hk); [done|]. left. by rewrite Hi. }
  eapply ends_mono; [exact Hm|..]; intros; by apply Hall.
Qed.

Lemma alive_measure k c p l R0 R :
  alive_with k c p l R0 R → (measure R0 < n)%nat → (measure R < n)%nat.
Proof. intros (_ & H%measure_mono & _) ?. lia. Qed.

Lemma ends_emit s k p R (Q : unit → t → Prop) X :
  Q tt (log (Life s k p) R) → ends full (emit s k p) R Q X.
Proof. done. Qed.

(** From the store of the object to the end of its lifecycle; an exception on the
    way leaves the bean stored with the steps it made. *)
Lemma lifecycle_spec k c p bean scope em past R :
  valid_scope E scope → inv R → kept k c → instance_of R k = p → p ≠ nullptr →
  lives c past → life k (trace R) = past ++ [(Constructed, p)] → (measure R < n)%nat →
  ends full (lifecycle E rec k c p bean scope em) R
    (λ _ R', inv R' ∧ ext (Some k) R R' ∧ life k (trace R') = past ++ full_life c p)
    (λ _ R', inv R' ∧ ext (Some k) R R' ∧
       ∃ m, m ≠ O ∧ life k (trace R') = past ++ take m (full_life c p)).
Proof.
  intros Hsc HR Hk Hi Hp Hpast Hl Hm.
  assert (Ha : alive_with k c p (past ++ take 1 (full_life c p)) R R).
  { split_and!; [done|reflexivity|done|done]. }
  assert (Hcall : ∀ {A} (m : M t A) j R', j ≠ O →
    alive_with k c p (past ++ take j (full_life c p)) R R' → keeps m R' →
    ends full m R' (λ _ R2, alive_with k c p (past ++ take j (full_life c p)) R R2)
      (λ _ R2, inv R2 ∧ ext (Some k) R R2 ∧
         ∃ m, m ≠ O ∧ life k (trace R2) = past ++ take m (full_life c p))).
  { intros A m j R' Hj H1 H2. eapply ends_mono; [by eapply alive_call|by intros ?? H; exact H|].
    intros ?? (? & ? & _ & ?). split_and!; [done..|]. by exists j. }
  assert (Hms : ∀ l R', alive_with k c p l R R' → (measure R' < n)%nat).
  { intros l R' H. by eapply alive_measure. }
  unfold lifecycle.
  eapply ends_bind with (P := λ _ R', alive_with k c p (past ++ take 2 (full_life c p)) R R').
  { apply ends_emit. exact (alive_emit k c p Initialized past 1 _ _ Hk Hp Hpast ltac:(done) eq_refl Ha). }
  cbv beta. intros _ R1 H1. ends_step.
  { eapply (Hcall _ _ 2%nat); [done|exact H1|]. apply dispatch_keeps; [done|apply H1|by eapply Hms]. }
  cbv beta. intros _ R2 H2.
  set (j := (length (full_life c p) - 1)%nat).
  assert (Hj : j ≠ O ∧ full_life c p !! j = Some (Created, p) ∧
    take (S j) (full_life c p) = full_life c p).
  { unfold j, full_life. by destruct (postConstruct c). }
  destruct Hj as (Hj0 & Hj1 & Hj2).
  eapply ends_bind with (P := λ _ R', alive_with k c p (past ++ take j (full_life c p)) R R').
  { unfold j, full_life in *. destruct (postConstruct c) as [f|] eqn:Hpc; simpl in *;
      [|by ends_step].
    eapply ends_bind with (P := λ _ R', alive_with k c p
      (past ++ [(Constructed, p); (Initialized, p); (PostConstruct, p)]) R R').
    { apply ends_emit. pose proof (alive_emit k c p PostConstruct past 2 R R2) as Hem.
      unfold full_life in Hem. rewrite Hpc in Hem. by apply Hem. }
    cbv beta. intros _ R3 H3. eapply (Hcall _ _ 3%nat); [done|exact H3|].
    apply run_prog_keeps; [by apply EO|apply H3|by eapply Hms]. }
  cbv beta. intros _ R3 H3.
  eapply ends_bind with (P := λ _ R', alive_with k c p (past ++ full_life c p) R R').
  { apply ends_emit. rewrite <-Hj2. exact (alive_emit k c p Created past j _ _ Hk Hp Hpast Hj0 Hj1 H3). }
  cbv beta. intros _ R4 H4.
  eapply ends_mono; [eapply (Hcall _ _ (S j)); [done|rewrite Hj2; exact H4|]| |].
  - apply dispatch_keeps; [done|apply H4|by eapply Hms].
  - rewrite Hj2. intros ?? (? & ? & _ & ?). done.
  - done.
Qed.

(** ** Construction *)

Lemma good_refl R : inv R → good R R.
Proof. intros H. split; [done|reflexivity]. Qed.

(** Rebasing a frame on an earlier state. *)
Lemma keeps_from {A} R0 R (m : M t A) (Q : A → t → Prop) :
  good R0 R → ends full m R (λ a R', good R R' ∧ Q a R') (λ _ R', good R R') →
  ends full m R (λ a R', good R0 R' ∧ Q a R') (λ _ R', good R0 R').
Proof.
  intros H0 Hm. eapply ends_mono; [exact Hm|..].
  - intros a R' [H HQ]. split; [by eapply good_trans|done].
  - intros e R' H. by eapply good_trans.
Qed.

Lemma operator_new_keeps R : inv R →
  ends full operator_new R (λ p R', good R R' ∧ p ≠ nullptr) (λ _ R', good R R').
Proof.
  intros HR. split; [split|apply (i_address _ HR)].
  - apply inv_nextAddress; [done|]. unfold nullptr. lia.
  - by apply ext_same.
Qed.

Lemma construct_object_keeps c scope R : valid_scope E scope → inv R → (measure R < n)%nat →
  ends full (construct_object E rec c scope) R
    (λ p R', good R R' ∧ p ≠ nullptr) (λ _ R', good R R').
Proof.
  intros Hsc HR Hm. unfold construct_object. destruct (allocAndConstruct c) as [f|].
  - apply keeps_bind; [apply run_prog_keeps; [by apply EO|done..]|done| |done].
    intros _ R1 H1 _. apply keeps_from; [done|]. apply operator_new_keeps, H1.
  - eapply ends_bind; [by apply operator_new_keeps|]. intros p R1 [H1 Hp].
    eapply ends_catch with (Y := λ _ R', good R R').
    + apply keeps_bind.
      * apply run_prog_keeps; [by apply EO|apply H1|by eapply good_measure].
      * by eapply good_measure.
      * intros _ R2 H2 _. apply ends_return. split; [by eapply good_trans|done].
      * intros e R2 H2. by eapply good_trans.
    + intros e R2 H2. eapply ends_bind with (P := λ _ R', good R R').
      * apply ends_upd. eapply good_trans; [exact H2|]. apply good_free, H2.
      * intros _ R3 H3. by apply ends_throw.
Qed.

(** ** Claims *)

(** The state after a successful claim. *)
Definition claimed (k : key) (R R1 : t) : Prop :=
  instance_of R k = nullptr ∧ key_descId k ∉ stack R ∧
  ∃ C, wf_slots C ∧
    materializing_ C = materializing_ (claims R) ++ [Entry k (threadToken_ E)] ∧
    R1 = set_stack (stack R ++ [key_descId k])
           (set_claims C (set_registered true (published R) R)).

(** [k] was open and its descriptor is on the stack now. *)
Definition pushed (k : key) (R R1 : t) : Prop :=
  instance_of R k = nullptr ∧ key_descId k ∉ stack R ∧
  stack R1 = stack R ++ [key_descId k] ∧
  (∀ k', instance_of R1 k' = instance_of R k') ∧ prototypes_ R1 = prototypes_ R ∧
  singletons_ R1 = singletons_ R ∧ trace R1 = trace R ∧ sessions R1 = sessions R.

Lemma claimed_pushed k R R1 : claimed k R R1 → pushed k R R1.
Proof. intros (Hi & Hs & C & _ & _ & ->). by split_and!. Qed.

Lemma pushed_not_busy k R R1 : pushed k R R1 → ¬ busy R k.
Proof. intros (Hi & Hs & _) [H|H]; done. Qed.

Lemma claim_keeps_inv k R R1 : inv R → claimed k R R1 → inv R1.
Proof.
  intros HR (_ & _ & C & HC & Hm & ->).
  destruct HR as [H1 H2 H3 H4 H5 H6 H7 H8 H9 H10 H11 H12 H13]; split; try assumption; simpl.
  intros e. rewrite Hm, elem_of_app, list_elem_of_singleton, elem_of_app, list_elem_of_singleton.
  intros [He| ->]; [left; by apply H8|by right].
Qed.

Lemma pushed_measure k R R1 :
  k ∈ universe → pushed k R R1 → (measure R1 < measure R)%nat.
Proof.
  intros Hk (Hi & Hs & Hst & Hin & _). apply (filter_lt _ _ _ k); [|done|by split|].
  - intros k' [H1 H2]. rewrite Hst in H1. rewrite Hin in H2. split; [|done].
    intros H. apply H1, elem_of_app. by left.
  - intros [H1 _]. apply H1. rewrite Hst. apply elem_of_app. right. by left.
Qed.

(** The wait slot of the thread after it entered the claim loop. *)
Lemma claim_enter_spec k (existing : bool) (R : t) :
  wf_slots (claims R) →
  (∀ e, e ∈ materializing_ (claims R) → key_descId (entry_key e) ∈ stack R) →
  ∃ v C, wf_slots C ∧
    claim_enter (threadToken_ E) (stack R) k existing (claims R) =
      Some (v, match v with Claimed => stack R ++ [key_descId k] | _ => stack R end, C) ∧
    match v with
    | Claimed => existing = false ∧ key_descId k ∉ stack R ∧
        materializing_ C = materializing_ (claims R) ++ [Entry k (threadToken_ E)]
    | AlreadyThere => existing = true ∧ materializing_ C = materializing_ (claims R)
    | IntraThreadCycle => materializing_ C = materializing_ (claims R)
    | _ => False
    end.
Proof.
  intros Hwf Hown. unfold claim_enter.
  destruct (ensure_spec (claims R) (threadToken_ E) Hwf) as (H1 & H2 & H3 & _).
  destruct (set_slot_spec _ _ no_wait H1 H3) as (C & -> & HC & Hm & _).
  rewrite H2 in Hm. cbn [mbind option_bind].
  case_decide as Hin; [by exists IntraThreadCycle, C|]. unfold claim_iteration.
  destruct existing; [by exists AlreadyThere, C|].
  destruct (find_entry k (materializing_ C)) as [[i e]|] eqn:Hf.
  { apply find_entry_Some in Hf as [Hi He]. rewrite Hm in Hi.
    apply list_elem_of_lookup_2, Hown in Hi. by rewrite He in Hi. }
  rewrite decide_False by done.
  exists Claimed, (with_materializing (materializing_ C ++ [Entry k (threadToken_ E)]) C).
  split_and!; [|done..|simpl; by rewrite Hm]. by destruct HC.
Qed.

Lemma claim_spec k findExisting intra cross R :
  inv R → findExisting R = Some (instance_of R k) →
  ends full (claimMaterializationOrWait E k findExisting intra cross) R
    (λ b R1, if b : bool then claimed k R R1 else good R R1 ∧ instance_of R k ≠ nullptr)
    (λ _ R1, good R R1).
Proof.
  intros HR Hf. unfold ends, claimMaterializationOrWait. rewrite Hf.
  destruct (claim_enter_spec k (negb (instance_of R k =? nullptr)) R (i_slots _ HR)
    (i_claims _ HR)) as (v & C & HC & -> & Hv).
  assert (Hgood : materializing_ C = materializing_ (claims R) →
    good R (set_stack (stack R) (set_claims C (set_registered true (published R) R)))).
  { intros Hm. split.
    - destruct HR as [H1 H2 H3 H4 H5 H6 H7 H8 H9 H10 H11 H12 H13]; split; try assumption; simpl.
      by rewrite Hm.
    - split; try done; [exists []; by rewrite app_nil_r..|]. intros. by apply grown_same. }
  destruct v; try done; simpl in *.
  - destruct Hv as [He Hm]. split; [by apply Hgood|]. intros H. by rewrite H in He.
  - destruct Hv as (He & Hs & Hm). split_and!; [|done|by exists C].
    apply negb_false_iff, N.eqb_eq in He. done.
  - by apply Hgood.
Qed.

(** ** Storing an object *)

(** [k] got the object [p]; no other bean changed. *)
Record placed (k : key) (p : ptr) (R R' : t) : Prop := {
  pl_stack : stack R' = stack R;
  pl_claims : claims R' = claims R;
  pl_prototypes : prototypes_ R' = prototypes_ R;
  pl_address : nextAddress R' = nextAddress R;
  pl_trace : trace R' = trace R;
  pl_instance k' : instance_of R' k' = if decide (k' = k) then p else instance_of R k';
  pl_order : ∃ ds, SingletonStore.insertionOrder (singletons_ R') =
    SingletonStore.insertionOrder (singletons_ R) ++ ds;
  pl_singletons : SingletonStore.wf (singletons_ R');
  pl_capacity : InstanceArray.size (SingletonStore.instances_ (singletons_ R')) =
    InstanceArray.size (SingletonStore.instances_ (singletons_ R));
  pl_values d : SingletonStore.value (singletons_ R) d ≠ nullptr →
    SingletonStore.value (singletons_ R') d ≠ nullptr;
  pl_sessions sc S : sessions R !! sc = Some S → session_ok S →
    ∃ S', sessions R' !! sc = Some S' ∧ session_ok S';
  pl_tl : ThreadLocalStore.wf (tl R');
  pl_stored d : SingletonStore.value (singletons_ R') d ≠ nullptr →
    SingletonStore.value (singletons_ R) d ≠ nullptr ∨ of_lifetime Singleton d;
  pl_local d : ThreadLocalStore.value (tl R') (registryId_ E) d ≠ nullptr →
    ThreadLocalStore.value (tl R) (registryId_ E) d ≠ nullptr ∨ of_lifetime ThreadLocal d;
  pl_stopped sc : (∀ info, scopes_ E !! sc = Some info → scopeState_ info ≠ Running_) →
    sessions R' !! sc = sessions R !! sc
}.

Definition primary (k : key) : Prop := ∀ x,
  DescriptorTable.at_ D (key_descId k) = Some x → is_primary_elsewhere x (key_descId k) = false.

(** The object is stored and its construction recorded. *)
Lemma placed_inv k p R R' :
  inv R → placed k p R R' → p ≠ nullptr → instance_of R k = nullptr → primary k →
  inv (log (Life Constructed k p) R').
Proof.
  intros HR HP Hp Hk Hprim.
  assert (Ht : trace_ok (log (Life Constructed k p) R')).
  { intros k' c Hk'. change (instance_of (log _ R') k') with (instance_of R' k').
    rewrite life_log, (pl_trace _ _ _ _ HP), (pl_instance _ _ _ _ HP).
    pose proof (i_trace _ HR k' c Hk') as Hold. destruct (decide (k' = k)) as [->|Hne].
    - rewrite decide_True in Hold by done. rewrite decide_False by done. right.
      exists (life k (trace R)), 1%nat. rewrite life_log, life_same, (pl_trace _ _ _ _ HP).
      change (instance_of (log _ R') k) with (instance_of R' k).
      rewrite (pl_instance _ _ _ _ HP). by rewrite decide_True.
    - rewrite life_other, app_nil_r by congruence. unfold present.
      rewrite life_log, (pl_trace _ _ _ _ HP), life_other, app_nil_r by congruence.
      change (instance_of (log _ R') k') with (instance_of R' k').
      rewrite (pl_instance _ _ _ _ HP), (decide_False (P := k' = k)) by done. exact Hold. }
  destruct HR as [H1 H2 H3 H4 H5 H6 H7 H8 H9 H10 H11 H12 H13], HP.
  split; [exact pl_singletons0| | | | |cbn..|exact Ht| |]; cbn.
  - intros d x Hx Hl. rewrite pl_capacity0. by eapply H2.
  - intros d x c ? ? ? ? ?. by eapply pl_values0, H3.
  - intros sc info ? ?. destruct (H4 sc info) as (S & ? & ?); [done..|].
    by eapply pl_sessions0.
  - intros k' x. change (instance_of (log _ R') k') with (instance_of R' k').
    rewrite pl_instance0. case_decide as Hd; [intros _; subst k'; apply Hprim|apply H5].
  - by rewrite pl_prototypes0.
  - by rewrite pl_claims0.
  - by rewrite pl_claims0, pl_stack0.
  - done.
  - by rewrite pl_address0.
  - intros d Hd. by destruct (pl_stored0 d Hd) as [H|H]; [apply H12|].
  - intros d Hd. by destruct (pl_local0 d Hd) as [H|H]; [apply H13|].
Qed.

Lemma key_eq k d sc : key_descId k = d → key_scope k = sc → k = Key d sc.
Proof. by destruct k; simpl; intros -> ->. Qed.

(** A key of another descriptor, lifetime or scope. *)
Local Ltac other_key :=
  rewrite decide_False; [done|]; let H := fresh in intros H; subst; simpl in *; congruence.

Lemma store_singleton_placed d x p R :
  inv R → DescriptorTable.at_ D d = Some x → lifetime x = Singleton →
  instance_of R (Key d nullptr) = nullptr → p ≠ nullptr →
  ∃ R', store_singleton d p R = Some R' ∧ placed (Key d nullptr) p R R'.
Proof.
  intros HR Hx Hlt Hi Hp. unfold instance_of in Hi; simpl in Hi. rewrite Hx, Hlt in Hi.
  destruct (SingletonStore.store_spec d p _ (i_singletons _ HR)) as (S & HS & Hwf & Ho & _ & Hsz & Hv);
    [by eapply i_capacity|done|done|].
  exists (set_singletons S R). unfold store_singleton. rewrite HS. split; [done|].
  split; try done; cbn.
  - intros k'. unfold instance_of. cbn.
    destruct (DescriptorTable.at_ D (key_descId k')) as [x'|] eqn:Hx'.
    + destruct (lifetime x') eqn:Hlt'; [other_key| |other_key..].
      destruct (N.eqb_spec (key_scope k') nullptr) as [Hsc|Hsc]; [|other_key].
      rewrite Hv. case_decide as E1; case_decide as E2; try done.
      * destruct E2. simplify_eq. by apply key_eq.
      * by subst k'.
    + other_key.
  - by exists [d].
  - intros d' Hd'. rewrite Hv. by case_decide.
  - intros sc S' ? ?. by exists S'.
  - apply (i_tl _ HR).
  - intros d'. rewrite Hv. case_decide; [intros _; right; subst; by exists x|by left].
  - intros d'. by left.
Qed.

Lemma store_session_placed d x c sc info p R :
  inv R → DescriptorTable.at_ D d = Some x → DescriptorTable.coldAt D d = Some c →
  lifetime x = Session → origin c ≠ RuntimeBinding →
  scopes_ E !! sc = Some info → scopeState_ info = Running_ → p ≠ nullptr →
  ∃ R', store_session sc (sessionSlot x) d p R = Some R' ∧ placed (Key d sc) p R R'.
Proof.
  intros HR Hx Hc Hlt Ho Hsc Hst Hp.
  destruct (i_sessions _ HR _ _ Hsc ltac:(by rewrite Hst)) as (S & HS & HSok).
  pose proof (so_size _ HSok _ _ _ Hx Hc Hlt Ho) as Hsz.
  destruct (SessionStore.write_cur (SessionStore.push_order d S) (sessionSlot x) p)
    as (A & HA & HwfA & HsA & HcA); [by destruct (so_wf _ HSok)|done|].
  set (S' := SessionStore.releaseRetired d
               (SessionStore.set_instances A (SessionStore.push_order d S))).
  destruct (SessionStore.releaseRetired_spec d
    (SessionStore.set_instances A (SessionStore.push_order d S))) as (Hin & Hor & _).
  fold S' in Hin, Hor.
  assert (session_ok S') as HS'.
  { split; [split; rewrite Hin; apply HwfA|..]; rewrite ?Hin; cbn.
    - rewrite HsA. intros ? ? ? ? ? ? ?. by eapply (so_size _ HSok).
    - intros d' x' c' Hx' Hc' Hl' Ho'. rewrite HcA. unfold SessionStore.insertionOrder. rewrite Hor.
      intros Hcur. apply elem_of_app. case_decide as Hs.
      + right. rewrite (eo_slots _ EO d' d x' x) by done. by left.
      + left. by apply (so_order _ HSok d' x' c').
    - intros d'. unfold SessionStore.insertionOrder. rewrite Hor.
      intros [Hd|Hd]%elem_of_app; [by apply (so_known _ HSok)|].
      apply list_elem_of_singleton in Hd as ->. by exists x. }
  exists (set_sessions (<[sc := S']> (sessions R)) R). split.
  { unfold store_session. rewrite HS. cbn [mbind option_bind].
    unfold SessionStore.store. by rewrite HA. }
  split; try done; cbn.
  - intros [d' sc']. unfold instance_of. cbn.
    destruct (DescriptorTable.at_ D d') as [x'|] eqn:Hx'; [|other_key].
    destruct (lifetime x') eqn:Hlt'; [other_key..| |other_key].
    destruct (decide (sc' = sc)) as [->|Hne].
    + rewrite lookup_insert_eq, HS, Hin. cbn. rewrite HcA.
      destruct (decide (d' = d)) as [->|Hd].
      * by rewrite !decide_True by congruence.
      * rewrite !decide_False; [done|congruence|]. intros Hs. apply Hd.
        by apply (eo_slots _ EO d' d x' x).
    + rewrite lookup_insert_ne by done. by rewrite decide_False by congruence.
  - exists []. by rewrite app_nil_r.
  - apply (i_singletons _ HR).
  - intros sc' S1 HS1 Hok. destruct (decide (sc' = sc)) as [->|Hne].
    + exists S'. by rewrite lookup_insert_eq.
    + exists S1. by rewrite lookup_insert_ne.
  - apply (i_tl _ HR).
  - intros d'. by left.
  - intros d'. by left.
  - intros sc' Hsc'. rewrite lookup_insert_ne; [done|]. intros ->. by apply (Hsc' info).
Qed.

Lemma store_thread_local_placed d x p R :
  inv R → DescriptorTable.at_ D d = Some x → lifetime x = ThreadLocal → p ≠ nullptr →
  placed (Key d nullptr) p R (store_thread_local E d p R).
Proof.
  intros HR Hx Hlt Hp.
  pose proof (ThreadLocalStore.storeInstance_spec (registryId_ E) d p (tl R) (i_tl _ HR) Hp) as Hs.
  unfold store_thread_local.
  destruct (ThreadLocalStore.storeInstance _ _ _ _) as [first T]. destruct Hs as (HT & _ & Hv & _).
  split; try done; cbn.
  - intros k'. unfold instance_of. cbn.
    destruct (DescriptorTable.at_ D (key_descId k')) as [x'|] eqn:Hx'.
    + destruct (lifetime x') eqn:Hlt'; [other_key..|].
      destruct (N.eqb_spec (key_scope k') nullptr) as [Hsc|Hsc]; [|other_key].
      rewrite Hv. case_decide as E1; case_decide as E2; try done.
      * destruct E2. simplify_eq. by apply key_eq.
      * by subst k'.
    + other_key.
  - exists []. by rewrite app_nil_r.
  - apply (i_singletons _ HR).
  - intros sc' S1 HS1 Hok. by exists S1.
  - intros d'. by left.
  - intros d'. rewrite Hv. case_decide; [intros _; right; simplify_eq; by exists x|by left].
Qed.

(** ** The critical sections of a claimed construction *)

Lemma pop_back_snoc {A} (l : list A) a : pop_back (l ++ [a]) = l.
Proof. unfold pop_back. rewrite length_app; simpl. by rewrite Nat.add_sub, take_app_length. Qed.

Lemma release_entry_last k τ l :
  (∀ e, e ∈ l → entry_key e ≠ k) → release_entry k (l ++ [Entry k τ]) = l.
Proof.
  intros Hl. unfold release_entry, find_entry.
  assert (list_find (λ e, entry_key e = k) (l ++ [Entry k τ]) = Some (length l, Entry k τ)) as ->.
  { apply list_find_Some. split_and!; [by rewrite lookup_app_r, Nat.sub_diag|done|].
    intros j y Hj Hlt. rewrite lookup_app_l in Hj by done. by eapply Hl, list_elem_of_lookup_2. }
  rewrite last_snoc, length_app; simpl. rewrite Nat.add_sub.
  rewrite insert_app_r_alt, Nat.sub_diag by done. by rewrite take_app_length.
Qed.

(** Dropping the claim gives back the stack and the claims of the caller. *)
Lemma drop_claim_inv k R R1 R4 :
  inv R → claimed k R R1 → inv R4 → stack R4 = stack R1 →
  materializing_ (claims R4) = materializing_ (claims R1) →
  let R5 := set_stack (pop_back (stack R4)) (set_claims (release k (claims R4)) R4) in
  inv R5 ∧ stack R5 = stack R ∧ materializing_ (claims R5) = materializing_ (claims R).
Proof.
  intros HR (_ & Hs & C & _ & Hm & ->) H4 Hst Hcl R5. cbn in Hst, Hcl.
  assert (stack R5 = stack R) as Es by (unfold R5; cbn; by rewrite Hst, pop_back_snoc).
  assert (materializing_ (claims R5) = materializing_ (claims R)) as Em.
  { unfold R5; cbn. rewrite Hcl, Hm. apply release_entry_last.
    intros e He Hk. apply Hs. rewrite <-Hk. by apply (i_claims _ HR). }
  split_and!; [|done..].
  destruct H4 as [H1 H2 H3 H4 H5 H6 H7 H8 H9 H10 H11 H12 H13]; split; try assumption.
  - destruct H7 as [Ha Hb]. by split.
  - intros e. rewrite Em, Es. apply (i_claims _ HR).
Qed.

(** What a call keeps while [k] is on the stack, seen from before the push. *)
Lemma pushed_frame k R R1 R2 own R3 :
  pushed k R R1 → ext None R1 R2 →
  stack R3 = stack R → materializing_ (claims R3) = materializing_ (claims R) →
  (∀ k', k' ≠ k → instance_of R3 k' = instance_of R2 k') →
  prototypes_ R3 = prototypes_ R2 →
  (∃ ds, SingletonStore.insertionOrder (singletons_ R3) =
    SingletonStore.insertionOrder (singletons_ R2) ++ ds) →
  (∃ es, trace R3 = trace R2 ++ es ∧ ∀ k', k' ≠ k → life k' es = []) →
  (∀ sc, (∀ info, scopes_ E !! sc = Some info → scopeState_ info ≠ Running_) →
     sessions R3 !! sc = sessions R2 !! sc) →
  (∀ c, kept k c → own ≠ Some k → grown k c R R3) →
  ext own R R3.
Proof.
  intros Hpu Hx E1 E2 E3 E4 [ds E5] [es [E6 E7]] E8 E9.
  pose proof (pushed_not_busy _ _ _ Hpu) as Hnb.
  destruct Hpu as (Hi & Hs & Hst & Hin & Hpr & Hsi & Htr & Hse).
  assert (Hne : ∀ k', busy R k' → k' ≠ k) by by intros k' H ->.
  assert (Hb : ∀ k', busy R k' → busy R1 k').
  { intros k' [H|H]; [left; by rewrite Hin|right]. rewrite Hst. apply elem_of_app. by left. }
  split; try done.
  - intros k' Hk'. rewrite E3 by by apply Hne. rewrite (x_instance _ _ _ Hx); [|by apply Hb].
    apply Hin.
  - rewrite E4, <-Hpr. apply (x_pending _ _ _ Hx).
  - intros s m. rewrite E4, <-Hpr. apply (x_handles _ _ _ Hx).
  - destruct (x_order _ _ _ Hx) as [ds' Eo]. exists (ds' ++ ds).
    by rewrite E5, Eo, Hsi, (assoc_L (++)).
  - destruct (x_trace _ _ _ Hx) as (es' & Et & Hes). exists (es' ++ es).
    rewrite E6, Et, Htr, (assoc_L (++)). split; [done|]. intros k' c Hk Hbk _.
    rewrite life_app, (Hes k' c) by (done || by apply Hb). by apply E7, Hne.
  - intros sc Hsc. rewrite E8 by done. rewrite (x_stopped _ _ _ Hx) by done. by rewrite Hse.
  - intros k' c Hk Ho Hi'. destruct (decide (k' = k)) as [->|Hk']; [by apply E9|].
    destruct (x_grown _ _ _ Hx k' c Hk) as (m & Hm & Hz); [done|by rewrite Hin|].
    exists m. rewrite E3 by done. split; [|done]. rewrite E6, life_app, (E7 k' Hk'), app_nil_r, Hm.
    by rewrite Htr.
  - rewrite E4, <-Hpr. apply (x_dying _ _ _ Hx).
Qed.

Lemma pushed_fresh k R R1 R2 : pushed k R R1 → ext None R1 R2 → instance_of R2 k = nullptr.
Proof.
  intros (Hi & Hs & Hst & Hin & _) Hx. rewrite (x_instance _ _ _ Hx), Hin; [done|].
  right. rewrite Hst. apply elem_of_app. right. by left.
Qed.

(** While [k] is on the stack nothing happens to it. *)
Lemma pushed_life k c R R1 R2 : pushed k R R1 → ext None R1 R2 → kept k c →
  life k (trace R2) = life k (trace R).
Proof.
  intros (_ & _ & Hst & _ & _ & _ & Htr & _) Hx Hk. rewrite (ext_life R1 R2 k c Hx Hk); [by rewrite Htr|].
  right. rewrite Hst. apply elem_of_app. right. by left.
Qed.

Lemma pushed_grown k c R R1 R2 R3 : pushed k R R1 → ext None R1 R2 → kept k c →
  instance_of R3 k = instance_of R2 k → life k (trace R3) = life k (trace R2) → grown k c R R3.
Proof.
  intros Hpu Hx Hk Hi Hl. pose proof (pushed_fresh _ _ _ _ Hpu Hx) as Hn.
  apply grown_same; [apply Hpu| |by rewrite Hl, (pushed_life k c R R1 R2)].
  destruct Hpu as [H _]. by rewrite Hi, Hn, H.
Qed.

Lemma grown_stored k c p R R' : instance_of R' k = p → p ≠ nullptr →
  life k (trace R') = life k (trace R) ++ [(Constructed, p)] → grown k c R R'.
Proof. intros <- Hp Hl. by exists 1%nat. Qed.

Lemma grown_full k c p R R' : instance_of R' k = p → p ≠ nullptr →
  life k (trace R') = life k (trace R) ++ full_life c p → grown k c R R'.
Proof.
  intros <- Hp Hl. exists (length (full_life c (instance_of R' k))). by rewrite firstn_all.
Qed.

Lemma construct_claimed_spec k c scope put R R1 :
  valid_scope E scope → inv R → claimed k R R1 → (measure R1 < n)%nat → primary k →
  (∀ p R2, inv R2 → good R1 R2 → instance_of R2 k = nullptr → p ≠ nullptr →
    ∃ R3, put p R2 = Some R3 ∧ placed k p R2 R3) →
  ends full (construct_claimed E rec k c scope put) R1
    (λ p R5, good R R5 ∧ instance_of R5 k = p ∧ p ≠ nullptr ∧
       ∀ c', kept k c' → lives c' (life k (trace R)) ∧
         life k (trace R5) = life k (trace R) ++ [(Constructed, p)])
    (λ _ R5, good R R5).
Proof.
  intros Hsc HR Hcl Hm Hprim Hput. pose proof (claim_keeps_inv _ _ _ HR Hcl) as HR1.
  pose proof (claimed_pushed _ _ _ Hcl) as Hpu.
  unfold construct_claimed.
  eapply ends_bind with (P := λ p R2, good R1 R2 ∧ p ≠ nullptr).
  { eapply ends_catch with (Y := λ _ R2, good R1 R2); [by apply construct_object_keeps|].
    intros e R2 [H2 Hx]. eapply ends_bind with (P := λ _ R3, good R R3).
    2:{ intros _ R3 H3. by apply ends_throw. }
    apply ends_upd.
    destruct (drop_claim_inv k R R1 R2 HR Hcl H2 (x_stack _ _ _ Hx) (x_claims _ _ _ Hx))
      as (H5 & E1 & E2).
    split; [done|]. eapply (pushed_frame k R R1 R2); try done; [exists []; by rewrite app_nil_r..|].
    intros c' Hk _. by eapply (pushed_grown k c' R R1 R2). }
  intros p R2 [[H2 Hx] Hp]. pose proof (pushed_fresh _ _ _ _ Hpu Hx) as Hnew.
  destruct (Hput p R2 H2 (conj H2 Hx) Hnew Hp) as (R3 & E3 & Hpl).
  eapply ends_bind with (P := λ _ R', R' = R3).
  { unfold ends, lift_state. by rewrite E3. }
  intros _ ? ->. eapply ends_bind with (P := λ _ R', R' = log (Life Constructed k p) R3); [done|].
  intros _ ? ->. set (R4 := log _ _).
  assert (inv R4) as H4 by by eapply placed_inv.
  assert (instance_of R4 k = p) as Hip.
  { change (instance_of R3 k = p). rewrite (pl_instance _ _ _ _ Hpl). by rewrite decide_True. }
  assert (∀ c', kept k c' → life k (trace R4) = life k (trace R) ++ [(Constructed, p)]) as Hlp.
  { intros c' Hk. unfold R4.
    by rewrite life_log, (pl_trace _ _ _ _ Hpl), life_same, (pushed_life k c' R R1 R2). }
  destruct (drop_claim_inv k R R1 R4 HR Hcl H4) as (H5 & E1 & E2).
  { cbn. rewrite (pl_stack _ _ _ _ Hpl). apply (x_stack _ _ _ Hx). }
  { cbn. rewrite (pl_claims _ _ _ _ Hpl). apply (x_claims _ _ _ Hx). }
  eapply ends_bind with (P := λ _ R', R' =
    set_stack (pop_back (stack R4)) (set_claims (release k (claims R4)) R4)); [done|].
  intros _ ? ->. apply ends_return.
  split_and!; [split; [done|]| |done|].
  - eapply (pushed_frame k R R1 R2); try done; cbn.
    + intros k' Hk'. change (instance_of _ k') with (instance_of R3 k') at 1.
      rewrite (pl_instance _ _ _ _ Hpl). by rewrite decide_False.
    + apply (pl_prototypes _ _ _ _ Hpl).
    + apply (pl_order _ _ _ _ Hpl).
    + exists [Life Constructed k p]. rewrite (pl_trace _ _ _ _ Hpl). split; [done|].
      intros k' Hk'. by apply life_other.
    + apply (pl_stopped _ _ _ _ Hpl).
    + intros c' Hk _. apply (grown_stored k c' p); [exact Hip|done|by apply (Hlp c')].
  - exact Hip.
  - intros c' Hk. split; [|by apply (Hlp c')]. pose proof (i_trace _ HR k c' Hk) as Hold. destruct Hpu as [Hi _].
    by rewrite decide_True in Hold.
Qed.

(** ** Beans the container keeps *)

Lemma ext_disown k R R' : ¬ busy R k → ext (Some k) R R' →
  (∀ c, kept k c → grown k c R R') → ext None R R'.
Proof.
  intros Hb [A1 A2 A3 A4 A5 A6 [es [A7 A8]] A9 A10] Hg. split; try done.
  - exists es. split; [done|]. intros k' c Hk Hbk _. apply (A8 k' c Hk Hbk). congruence.
  - intros k' c Hk _ Hi. destruct (decide (k' = k)) as [->|Hne]; [by apply Hg|].
    apply A10; [done|congruence|done].
Qed.

(** A bean that has its object [p]; [built] when this call made it. *)
Definition has (k : key) (p : ptr) (R R' : t) : Prop :=
  good R R' ∧ instance_of R' k = p ∧ p ≠ nullptr ∧
  (instance_of R k = nullptr → ∀ c, kept k c →
     life k (trace R') = life k (trace R) ++ full_life c p).

Lemma lifecycle_has k c p bean scope em R R5 :
  valid_scope E scope → kept k c → (measure R5 < n)%nat → ¬ busy R k → good R R5 →
  instance_of R5 k = p → p ≠ nullptr →
  (∀ c', kept k c' → lives c' (life k (trace R)) ∧
     life k (trace R5) = life k (trace R) ++ [(Constructed, p)]) →
  ends full (do! lifecycle E rec k c p bean scope em in mreturn p) R5
    (λ p R', has k p R R') (λ _ R', good R R').
Proof.
  intros Hsc Hk Hm Hb [H5 Hx] Hi Hp Hl.
  assert (∀ R', ext (Some k) R5 R' → instance_of R' k = p) as Hip.
  { intros R' Hx'. rewrite (x_instance _ _ _ Hx'); [done|]. left. by rewrite Hi. }
  assert (∀ R', ext (Some k) R5 R' → grown k c R R' → ext None R R') as Hext.
  { intros R' Hx' Hg. apply (ext_disown k); [done|etrans; [by apply ext_weaken|done]|].
    intros c' Hk'. by rewrite (kept_cold k c' c). }
  eapply ends_bind; [eapply ends_mono|].
  - destruct (Hl c Hk) as [Hl1 Hl2].
    apply (lifecycle_spec k c p bean scope em (life k (trace R)) R5); done.
  - intros u R6 H6. exact H6.
  - intros e R6 (H6 & Hx6 & m & Hm' & Hl6). split; [done|]. apply (Hext _ Hx6).
    exists m. by rewrite Hip.
  - intros _ R6 (H6 & Hx6 & Hl6). apply ends_return. pose proof (Hip _ Hx6) as Hip6.
    split_and!; [split; [done|]|done|done|].
    + apply (Hext _ Hx6). by apply (grown_full k c p).
    + intros _ c' Hk'. by rewrite (kept_cold k c' c).
Qed.

Lemma has_found k R R' : good R R' → instance_of R k ≠ nullptr → has k (instance_of R k) R R'.
Proof.
  intros [H Hx] Hi. split_and!; [done| |done|done].
  rewrite (x_instance _ _ _ Hx); [done|by left].
Qed.

Lemma pushed_good_measure k R R1 R5 : k ∈ universe → pushed k R R1 → good R R5 →
  instance_of R5 k ≠ nullptr → (measure R5 < measure R)%nat.
Proof.
  intros Hk (Hi & Hs & _) [H5 Hx] H. apply (filter_lt _ _ _ k); [|done|by split|by intros [_ ?]].
  intros k' [H1 H2]. rewrite (x_stack _ _ _ Hx) in H1. split; [done|].
  destruct (decide (instance_of R k' = nullptr)) as [|Hne]; [done|].
  by rewrite (x_instance _ _ _ Hx k' ltac:(by left)) in H2.
Qed.

Lemma find_singleton_spec d x R : inv R → DescriptorTable.at_ D d = Some x →
  lifetime x = Singleton → find_singleton d R = Some (instance_of R (Key d nullptr)).
Proof.
  intros HR Hx Hlt. unfold find_singleton, instance_of; simpl. rewrite Hx, Hlt.
  apply SingletonStore.find_value, HR.
Qed.

Lemma read_singleton_spec d x R (Q : ptr → t → Prop) X :
  inv R → DescriptorTable.at_ D d = Some x → lifetime x = Singleton →
  Q (instance_of R (Key d nullptr)) R → ends full (read_singleton d) R Q X.
Proof.
  intros HR Hx Hlt HQ. unfold ends, read_singleton, lift.
  by rewrite (find_singleton_spec d x R HR Hx Hlt).
Qed.

Lemma emitter_of_spec scope R (Q : NameId → t → Prop) X :
  valid_scope E scope → (∀ e, Q e R) → ends full (emitter_of E scope) R Q X.
Proof.
  intros Hsc HQ. unfold emitter_of, scope_of. destruct scope as [sc|]; [|apply HQ].
  destruct Hsc as [info Hi]. unfold ends, mbind_, lift. rewrite Hi. apply HQ.
Qed.

Lemma materializeSingleton_spec d x c scope R :
  valid_scope E scope → inv R → DescriptorTable.at_ D d = Some x →
  DescriptorTable.coldAt D d = Some c → lifetime x = Singleton →
  is_primary_elsewhere x d = false → (measure R ≤ n)%nat →
  ends full (materializeSingleton E rec d c scope) R
    (λ p R', has (Key d nullptr) p R R') (λ _ R', good R R').
Proof.
  intros Hsc HR Hx Hc Hlt Hpr Hm. set (k := Key d nullptr). unfold materializeSingleton.
  eapply ends_bind.
  { apply (claim_spec k); [done|by eapply find_singleton_spec]. }
  intros [|] R1 H1; cbv beta iota.
  2:{ destruct H1 as [H1 Hi]. apply (read_singleton_spec d x); [apply H1|done..|]. fold k.
      pose proof (has_found k R R1 H1 Hi) as Hh. pose proof Hh as (_ & -> & _). exact Hh. }
  destruct (decide (origin c = RuntimeBinding)) as [Ho|Ho].
  { destruct (i_bound _ HR d x c Hx Hc Hlt Ho Hpr). destruct H1 as [Hi _].
    unfold instance_of in Hi; simpl in Hi. by rewrite Hx, Hlt in Hi. }
  assert (kept k c) as Hk. { exists x. rewrite Hlt. done. }
  assert (k ∈ universe) as Hu.
  { apply elem_universe; [exact (vat_lt _ _ _ Hx)|by left]. }
  pose proof (pushed_measure _ _ _ Hu (claimed_pushed _ _ _ H1)) as Hm1.
  eapply ends_bind.
  { apply (construct_claimed_spec k c scope _ R R1); try done; [lia| |].
    - intros x' Hx'. simpl in *. by simplify_eq.
    - intros p R2 H2 _ Hi Hp. by eapply store_singleton_placed. }
  intros p R5 (H5 & Hi5 & Hp & Hl5). cbv beta.
  eapply ends_bind with (P := λ _ R', R' = R5); [by apply emitter_of_spec|].
  intros em ? ->. eapply (lifecycle_has k c); try done.
  - assert (measure R5 < measure R)%nat; [|lia].
    apply (pushed_good_measure k R R1); [done|by apply claimed_pushed|done|by rewrite Hi5].
  - by eapply pushed_not_busy, claimed_pushed.
Qed.

(** *** Session beans *)

Lemma find_session_spec d x sc info R : inv R → DescriptorTable.at_ D d = Some x →
  lifetime x = Session → scopes_ E !! sc = Some info → scopeState_ info ≠ Stopped →
  find_session sc (sessionSlot x) R = Some (instance_of R (Key d sc)).
Proof.
  intros HR Hx Hlt Hsc Hst. destruct (i_sessions _ HR _ _ Hsc Hst) as (S & HS & HSok).
  unfold find_session, instance_of; simpl. rewrite Hx, Hlt, HS. cbn [mbind option_bind].
  apply SessionStore.find_spec, HSok.
Qed.

Lemma ends_bind_lift {A B} (o : option A) a (m : A → M t B) R (Q : B → t → Prop) X :
  o = Some a → ends full (m a) R Q X → ends full (mbind_ (lift o) m) R Q X.
Proof. by intros ->. Qed.

Lemma materializeSessionInstance_spec d x c sc info R :
  inv R → DescriptorTable.at_ D d = Some x →
  DescriptorTable.coldAt D d = Some c → lifetime x = Session →
  is_primary_elsewhere x d = false → scopes_ E !! sc = Some info →
  scopeState_ info ≠ Stopped → (measure R ≤ n)%nat →
  ends full (materializeSessionInstance E rec d sc (Some sc)) R
    (λ p R', has (Key d sc) p R R') (λ _ R', good R R').
Proof.
  intros HR Hx Hc Hlt Hpr Hsc Hst Hm. set (k := Key d sc).
  assert (Hfind : ∀ R', inv R' → find_session sc (sessionSlot x) R' = Some (instance_of R' k)).
  { intros R' HR'. by eapply find_session_spec. }
  unfold materializeSessionInstance.
  apply (ends_bind_lift _ x); [done|].
  assert (materializationDescId x d = d) as ->. { unfold materializationDescId. by rewrite Hpr. }
  apply (ends_bind_lift _ x); [done|].
  apply (ends_bind_lift _ c); [done|].
  apply (ends_bind_lift _ info); [done|].
  eapply ends_bind with (P := λ a R', a = instance_of R k ∧ R' = R).
  { unfold ends, lift. by rewrite Hfind. }
  intros ?? [-> ->]. destruct (N.eqb_spec (instance_of R k) nullptr) as [Hi|Hi]; simpl.
  2:{ apply ends_return. by apply has_found; [apply good_refl|]. }
  case_decide as Hstop; [by apply ends_throw, good_refl|].
  assert (scopeState_ info = Running_) as Hrun by by destruct (scopeState_ info).
  case_decide as Ho; [by apply ends_throw, good_refl|].
  assert (kept k c) as Hk. { exists x. rewrite Hlt. done. }
  assert (k ∈ universe) as Hu.
  { apply elem_universe; [exact (vat_lt _ _ _ Hx)|right; by eexists]. }
  eapply ends_bind; [apply (claim_spec k); [done|by apply Hfind]|].
  intros [|] R1 H1; cbv beta iota.
  2:{ destruct H1 as [H1 Hi']. unfold ends, lift. rewrite Hfind by apply H1. done. }
  pose proof (pushed_measure _ _ _ Hu (claimed_pushed _ _ _ H1)) as Hm1.
  assert (valid_scope E (Some sc)) as Hv by by eexists.
  eapply ends_bind.
  { apply (construct_claimed_spec k c _ _ R R1); try done; [lia| |].
    - intros x' Hx'. simpl in *. by simplify_eq.
    - intros p R2 H2 _ _ Hp. by eapply store_session_placed. }
  intros p R5 (H5 & Hi5 & Hp & Hl5). cbv beta. eapply (lifecycle_has k c); try done.
  - assert (measure R5 < measure R)%nat; [|lia].
    apply (pushed_good_measure k R R1); [done|by apply claimed_pushed|done|by rewrite Hi5].
  - by eapply pushed_not_busy, claimed_pushed.
Qed.

(** *** Cycle guards *)

Lemma with_guard_spec {A} d (m : M t A) R (Q : A → t → Prop) X :
  (d ∈ stack R → ∀ e, X e R) →
  (d ∉ stack R → ends full m (set_stack (stack R ++ [d]) R)
     (λ a R', Q a (set_stack (pop_back (stack R')) R'))
     (λ e R', X e (set_stack (pop_back (stack R')) R'))) →
  ends full (with_guard d m) R Q X.
Proof.
  intros Hin Hm. unfold ends, with_guard, cycle_guard in *.
  case_decide as Hd; [by apply Hin|]. specialize (Hm Hd).
  by destruct (m _) as [[a|e| | |] R'].
Qed.

Lemma guard_keeps_inv d R : inv R → inv (set_stack (stack R ++ [d]) R).
Proof.
  intros [H1 H2 H3 H4 H5 H6 H7 H8 H9 H10 H11 H12 H13]; split; try assumption.
  intros e He. apply elem_of_app. left. by apply H8.
Qed.

Lemma unguard_inv R R' : inv R → inv R' →
  materializing_ (claims R') = materializing_ (claims R) → inv (set_stack (stack R) R').
Proof.
  intros HR [H1 H2 H3 H4 H5 H6 H7 H8 H9 H10 H11 H12 H13] Hc; split; try assumption.
  intros e. cbn. rewrite Hc. apply (i_claims _ HR).
Qed.

(** The frame of a call, with a smaller stack on both sides. *)
Lemma ext_pop own st R R' :
  (∀ d, d ∈ st → d ∈ stack R) → ext own R R' → ext own (set_stack st R) (set_stack st R').
Proof.
  intros Hst [A1 A2 A3 A4 A5 A6 [es [A7 A8]] A9 A10].
  assert (∀ k, busy (set_stack st R) k → busy R k) as Hb.
  { intros k [H|H]; [by left|right]. by apply Hst. }
  split; try done.
  - intros k Hk. by apply A3, Hb.
  - exists es. split; [done|]. intros k c Hk Hbk. by apply (A8 k c Hk), Hb.
Qed.

Lemma guard_pop own d R R' : ext own (set_stack (stack R ++ [d]) R) R' →
  set_stack (pop_back (stack R')) R' = set_stack (stack R) R'.
Proof. intros H. rewrite (x_stack _ _ _ H). f_equal. apply pop_back_snoc. Qed.

(** A guarded call keeps the frame of the call. *)
Lemma guard_keeps {A} d (m : M t A) R (Q : A → t → Prop) :
  inv R →
  (d ∉ stack R → ends full m (set_stack (stack R ++ [d]) R)
     (λ a R', good (set_stack (stack R ++ [d]) R) R' ∧ Q a (set_stack (stack R) R'))
     (λ _ R', good (set_stack (stack R ++ [d]) R) R')) →
  ends full (with_guard d m) R (λ a R', good R R' ∧ Q a R') (λ _ R', good R R').
Proof.
  intros HR Hm.
  assert (Hpop : ∀ R', good (set_stack (stack R ++ [d]) R) R' →
    set_stack (pop_back (stack R')) R' = set_stack (stack R) R' ∧
    good R (set_stack (stack R) R')).
  { intros R' [H' Hx]. split; [by eapply guard_pop|].
    split; [apply unguard_inv; [done..|by rewrite (x_claims _ _ _ Hx)]|].
    assert (∀ e, e ∈ stack R → e ∈ stack R ++ [d]) as Hst by (intros; apply elem_of_app; by left).
    pose proof (ext_pop None (stack R) (set_stack (stack R ++ [d]) R) R' Hst Hx) as Hp.
    by destruct R. }
  apply with_guard_spec; [by intros; apply good_refl|]. intros Hd.
  eapply ends_mono; [by apply Hm|..].
  - intros a R' [H1 HQ]. destruct (Hpop R' H1) as [-> Hg]. done.
  - intros e R' H1. by destruct (Hpop R' H1) as [-> Hg].
Qed.

(** *** Thread-local beans *)

Lemma instance_of_tl T R k : ThreadLocalStore.registries T = ThreadLocalStore.registries (tl R) →
  instance_of (set_tl T R) k = instance_of R k.
Proof.
  intros H. unfold instance_of, ThreadLocalStore.value. cbn. by rewrite H.
Qed.

Lemma good_tl T R : inv R → ThreadLocalStore.wf T →
  ThreadLocalStore.registries T = ThreadLocalStore.registries (tl R) → good R (set_tl T R).
Proof.
  intros HR HT Hr. pose proof (λ k, instance_of_tl T R k Hr) as Hi.
  assert (trace_ok (set_tl T R)) as Ht.
  { by apply (trace_ok_same R); [| |apply (i_trace _ HR)]. }
  split.
  - destruct HR as [H1 H2 H3 H4 H5 H6 H7 H8 H9 H10 H11 H12 H13]; split; try assumption.
    + intros k x. rewrite Hi. apply H5.
    + intros d. unfold ThreadLocalStore.value. cbn. rewrite Hr. apply H13.
  - split; try done; [exists []; by rewrite app_nil_r..|]. intros. by apply grown_same.
Qed.

Lemma find_thread_local_spec d x R : inv R → DescriptorTable.at_ D d = Some x →
  lifetime x = ThreadLocal →
  ends full (find_thread_local E d) R
    (λ p R', p = instance_of R (Key d nullptr) ∧ good R R' ∧
       (∀ k, instance_of R' k = instance_of R k) ∧ trace R' = trace R) (λ _ _, False).
Proof.
  intros HR Hx Hlt. unfold ends, find_thread_local.
  destruct (ThreadLocalStore.findInstance_spec (registryId_ E) d (tl R) (i_tl _ HR))
    as (T & -> & HT & Hr).
  split_and!; [|by apply good_tl|intros; by apply instance_of_tl|done].
  unfold instance_of; simpl. by rewrite Hx, Hlt.
Qed.

Lemma good_register R : inv R →
  good R (register_thread R) ∧ (∀ k, instance_of (register_thread R) k = instance_of R k) ∧
  trace (register_thread R) = trace R.
Proof.
  intros HR. unfold register_thread. destruct (registered R); [by split; [apply good_refl|]|].
  split; [|by split]. split; [by apply inv_registered|by apply ext_same].
Qed.

Lemma has_from k p R R2 R' : good R R2 → instance_of R2 k = instance_of R k →
  trace R2 = trace R → has k p R2 R' → has k p R R'.
Proof.
  intros H1 Hi Ht (H2 & Hp & Hne & Hl). split_and!; [by eapply good_trans|done..|].
  rewrite <-Hi, <-Ht. exact Hl.
Qed.

Lemma guard_pushed k R : instance_of R k = nullptr → key_descId k ∉ stack R →
  pushed k R (set_stack (stack R ++ [key_descId k]) R).
Proof. intros Hi Hs. by split_and!. Qed.

(** The lifecycle under the guard, from the store of the object. *)
Lemma thread_local_lifecycle d c p scope bean em R R2 R3 :
  let k := Key d nullptr in
  let R1 := set_stack (stack R ++ [d]) R in
  valid_scope E scope → inv R → pushed k R R1 → k ∈ universe → kept k c → primary k →
  (measure R ≤ n)%nat → good R1 R2 → p ≠ nullptr → placed k p R2 R3 →
  ends full (do! lifecycle E rec k c p bean scope em in mreturn p)
    (log (Life Constructed k p) R3)
    (λ p' R', has k p' R (set_stack (pop_back (stack R')) R'))
    (λ _ R', good R (set_stack (pop_back (stack R')) R')).
Proof.
  intros k R1 Hsc HR Hpu Hu Hk Hprim Hm [H2 Hx2] Hp Hpl. set (R4 := log _ R3).
  pose proof (pushed_fresh _ _ _ _ Hpu Hx2) as Hi2.
  assert (inv R4) as H4 by by eapply placed_inv.
  assert (stack R4 = stack R ++ [d]) as Est.
  { cbn. rewrite (pl_stack _ _ _ _ Hpl). apply (x_stack _ _ _ Hx2). }
  assert (materializing_ (claims R4) = materializing_ (claims R)) as Ecl.
  { cbn. rewrite (pl_claims _ _ _ _ Hpl). apply (x_claims _ _ _ Hx2). }
  assert (∀ k', instance_of R4 k' = if decide (k' = k) then p else instance_of R2 k') as Ei
    by exact (pl_instance _ _ _ _ Hpl).
  assert (lives c (life k (trace R)) ∧ life k (trace R4) = life k (trace R) ++ [(Constructed, p)])
    as [Hpast El].
  { unfold R4. rewrite life_log, (pl_trace _ _ _ _ Hpl), life_same, (pushed_life k c R R1 R2) by done.
    split; [|done]. pose proof (i_trace _ HR k c Hk) as Hold. destruct Hpu as [Hi _].
    by rewrite decide_True in Hold. }
  assert (instance_of R4 k = p) as Eip by by rewrite Ei, decide_True.
  assert (ext None R (set_stack (stack R) R4)) as H5.
  { eapply (pushed_frame k R R1 R2); try done.
    - intros k' Hk'. change (instance_of R4 k' = instance_of R2 k'). by rewrite Ei, decide_False.
    - apply (pl_prototypes _ _ _ _ Hpl).
    - apply (pl_order _ _ _ _ Hpl).
    - exists [Life Constructed k p]. cbn. rewrite (pl_trace _ _ _ _ Hpl). split; [done|].
      intros k' Hk'. by apply life_other.
    - apply (pl_stopped _ _ _ _ Hpl).
    - intros c' Hk' _. by apply (grown_stored k c' p). }
  assert (∀ R6, ext (Some k) R4 R6 → instance_of R6 k = p) as Hip.
  { intros R6 Hx6. rewrite (x_instance _ _ _ Hx6); [done|]. left. by rewrite Eip. }
  assert (∀ R6, inv R6 → ext (Some k) R4 R6 → grown k c R R6 →
    set_stack (pop_back (stack R6)) R6 = set_stack (stack R) R6 ∧
    good R (set_stack (stack R) R6)) as Hend.
  { intros R6 H6 Hx6 Hg. rewrite (x_stack _ _ _ Hx6), Est, pop_back_snoc. split; [done|]. split.
    - apply unguard_inv; [done..|]. by rewrite (x_claims _ _ _ Hx6).
    - apply (ext_disown k); [by eapply pushed_not_busy| |by intros c' Hk'; rewrite (kept_cold k c' c)].
      etrans; [by apply ext_weaken|]. apply ext_pop; [|done].
      intros e He. rewrite Est. apply elem_of_app. by left. }
  assert (measure R4 < measure R)%nat as Hm4.
  { destruct Hpu as (Hi & Hs & _). apply (filter_lt _ _ _ k); [|done|by split|].
    - intros k' [Ha Hb]. rewrite Est in Ha. rewrite Ei in Hb. case_decide as Hd; [done|].
      assert (key_descId k' ∉ stack R) as Ha' by (intros ?; apply Ha, elem_of_app; by left).
      split; [done|]. destruct (decide (instance_of R k' = nullptr)) as [|Hne]; [done|].
      by rewrite (x_instance _ _ _ Hx2 k' ltac:(by left)) in Hb.
    - intros [Ha _]. apply Ha. rewrite Est. apply elem_of_app. right. by left. }
  eapply ends_bind; [eapply ends_mono|].
  - apply (lifecycle_spec k c p bean scope em (life k (trace R)) R4); try done. lia.
  - intros u R6 H6. exact H6.
  - intros e R6 (H6 & Hx6 & m & Hm' & Hl6). destruct (Hend R6 H6 Hx6) as [-> ?]; [|done].
    exists m. by rewrite Hip.
  - intros _ R6 (H6 & Hx6 & Hl6). apply ends_return. pose proof (Hip _ Hx6) as Hip6.
    destruct (Hend R6 H6 Hx6) as [-> Hg]; [by apply (grown_full k c p)|].
    split_and!; [done|exact Hip6|done|]. intros _ c' Hk'. by rewrite (kept_cold k c' c).
Qed.

Lemma materializeThreadLocalInstance_spec d x c scope R :
  valid_scope E scope → inv R → DescriptorTable.at_ D d = Some x →
  DescriptorTable.coldAt D d = Some c → lifetime x = ThreadLocal →
  is_primary_elsewhere x d = false → (measure R ≤ n)%nat →
  ends full (materializeThreadLocalInstance E rec d scope) R
    (λ p R', has (Key d nullptr) p R R') (λ _ R', good R R').
Proof.
  intros Hsc HR0 Hx Hc Hlt Hpr Hm0. set (k := Key d nullptr).
  unfold materializeThreadLocalInstance. apply (ends_bind_lift _ x); [done|].
  assert (materializationDescId x d = d) as ->. { unfold materializationDescId. by rewrite Hpr. }
  apply (ends_bind_lift _ c); [done|].
  eapply ends_bind with (P := λ p R', p = instance_of R k ∧ good R R' ∧
    (∀ k', instance_of R' k' = instance_of R k') ∧ trace R' = trace R).
  { eapply ends_mono; [by eapply find_thread_local_spec|done|by intros ??[]]. }
  intros ? R1 (-> & H1 & E1 & T1). destruct (N.eqb_spec (instance_of R k) nullptr) as [Hi|Hi]; simpl.
  2:{ apply ends_return. exact (has_found k R R1 H1 Hi). }
  eapply ends_bind with (P := λ _ R2, R2 = register_thread R1); [done|]. intros _ ? ->.
  destruct (good_register R1 (proj1 H1)) as (H2 & E2 & T2). set (R2 := register_thread R1) in *.
  pose proof (good_trans _ _ _ H1 H2) as H12. pose proof (proj1 H2) as HR2.
  assert (instance_of R2 k = instance_of R k) as E12 by by rewrite E2, E1.
  assert (measure R2 ≤ n)%nat as Hm by (pose proof (measure_mono _ _ _ (proj2 H12)); lia).
  eapply ends_mono with (Q := λ p R', has k p R2 R') (X := λ _ R', good R2 R').
  2:{ intros p R' H'. eapply has_from; [exact H12|done|by rewrite T2, T1|done]. }
  2:{ intros e R' H'. by eapply good_trans. }
  apply with_guard_spec; [by intros; apply good_refl|]. intros Hd.
  assert (pushed k R2 (set_stack (stack R2 ++ [d]) R2)) as Hpu.
  { split_and!; [by rewrite E12|done..]. }
  assert (kept k c) as Hk.
  { exists x. rewrite Hlt. split_and!; try done. intros Ho.
    by destruct (eo_bound _ EO d x c Hx Hc Ho) as [?|?]; rewrite Hlt in *. }
  assert (k ∈ universe) as Hu.
  { apply elem_universe; [exact (vat_lt _ _ _ Hx)|by left]. }
  pose proof (pushed_measure _ _ _ Hu Hpu) as Hm1.
  eapply ends_bind; [eapply ends_mono|].
  { apply (construct_object_keeps c scope _ Hsc); [by apply guard_keeps_inv|lia]. }
  { intros p R3 H3. exact H3. }
  { intros e R3 [H3 Hx3]. rewrite (guard_pop None d R2 R3 Hx3).
    split; [by apply unguard_inv; [..|rewrite (x_claims _ _ _ Hx3)]|].
    eapply (pushed_frame k R2 _ R3); try done;
      [apply (x_claims _ _ _ Hx3)|exists []; by rewrite app_nil_r..|].
    intros c' Hk' _. by eapply (pushed_grown k c' R2 _ R3). }
  intros p R3 [H3 Hp].
  eapply ends_bind with (P := λ _ R', R' = store_thread_local E d p R3); [done|]. intros _ ? ->.
  cbv zeta. eapply ends_bind with (P := λ _ R', R' = log (Life Constructed k p) _); [done|].
  intros _ ? ->. eapply (thread_local_lifecycle d c p scope _ _ R2 R3); try done.
  - intros x' Hx'. simpl in *. by simplify_eq.
  - by eapply store_thread_local_placed; [apply H3|..].
Qed.

(** *** Prototypes *)

(** The frame of the state around the prototype store. *)
Definition aside (R R' : t) : Prop := ext None R (set_prototypes (prototypes_ R) R').

Lemma ext_aside R R' : ext None R R' → aside R R'.
Proof. intros [A1 A2 A3 A4 A5 A6 A7 A8 A9 A10]. by split. Qed.

Lemma aside_trans R1 R2 R3 : aside R1 R2 → aside R2 R3 → aside R1 R3.
Proof.
  intros H1 H2. assert (ext None (set_prototypes (prototypes_ R1) R2)
    (set_prototypes (prototypes_ R1) R3)) as H2'.
  { destruct H2 as [A1 A2 A3 A4 A5 A6 A7 A8 A9 A10]. by split. }
  unfold aside. by etrans.
Qed.

Lemma aside_ext R R' :
  aside R R' → PrototypeStore.pending (prototypes_ R') = PrototypeStore.pending (prototypes_ R) →
  (∀ s m, PrototypeStore.handles (prototypes_ R) !! s = Some m →
     PrototypeStore.handles (prototypes_ R') !! s = Some m) →
  PrototypeStore.dying (prototypes_ R') = PrototypeStore.dying (prototypes_ R) → ext None R R'.
Proof. intros [A1 A2 A3 A4 A5 A6 A7 A8 A9 A10] ? ? ?. by split. Qed.

Lemma proto_op_spec o R X (Q : unit → t → Prop) Y :
  PrototypeStore.exec (maxSlots E) o (prototypes_ R) = Some X →
  Q tt (set_prototypes X R) → ends full (proto_op E o) R Q Y.
Proof. intros HX HQ. unfold ends, proto_op, lift_state. by rewrite HX. Qed.

(** A slot was taken and is not counted yet. *)
Record begun (s : SlotId) (R R' : t) : Prop := {
  bg_inv : inv R';
  bg_fresh : s ∉ PrototypeStore.pending (prototypes_ R);
  bg_pending : PrototypeStore.pending (prototypes_ R') =
    {[s]} ∪ PrototypeStore.pending (prototypes_ R);
  bg_handles s' m : PrototypeStore.handles (prototypes_ R) !! s' = Some m →
    PrototypeStore.handles (prototypes_ R') !! s' = Some m;
  bg_aside : aside R R';
  bg_dying : PrototypeStore.dying (prototypes_ R') = PrototypeStore.dying (prototypes_ R)
}.

Lemma begun_good s R R' R'' : begun s R R' → good R' R'' → begun s R R''.
Proof.
  intros [H1 H2 H3 H4 H5 H6] [H7 Hx]. split; [done|done| | | |].
  - by rewrite (x_pending _ _ _ Hx).
  - intros s' m H. by apply (x_handles _ _ _ Hx), H4.
  - eapply aside_trans; [done|by apply ext_aside].
  - by rewrite (x_dying _ _ _ Hx).
Qed.

Lemma allocate_slot_spec d mem R : inv R → of_lifetime Prototype d → mem ≠ nullptr →
  ends full (allocate_slot E d mem) R (λ s R', begun s R R') (λ _ R', R' = R).
Proof.
  intros HR Hd Hm. unfold ends, allocate_slot.
  pose proof (allocate_cases (maxSlots E) _ d mem (prototypes_ R) (i_protos _ HR) Hd Hm) as Hc.
  destruct (PrototypeStore.allocate _ _ _ _) as [[s|e| | |] S'] eqn:Ha; try done.
  destruct Hc as (X & HX & HXok & Hs & Hp & Hh). unfold mbind_, proto_op, lift_state.
  rewrite HX. cbn. split; [by apply inv_prototypes|done|done| | |].
  - intros s' m. cbn. by rewrite Hh.
  - unfold aside. by destruct R.
  - exact (exec_dying _ _ _ _ HX).
Qed.

Lemma begun_finish s R R' : begun s R R' →
  ∃ X, PrototypeStore.exec (maxSlots E) (PrototypeStore.OpFinish s) (prototypes_ R') = Some X ∧
    good R (set_prototypes X R') ∧ PrototypeStore.handles X !! s = Some 1 ∧
    PrototypeStore.handles (prototypes_ R) !! s = None ∧
    PrototypeStore.memoryAt (PrototypeStore.store X) s ≠ nullptr.
Proof.
  intros [H1 H2 H3 H4 H5 H6].
  destruct (finish_step (maxSlots E) _ s (prototypes_ R') (i_protos _ H1))
    as (X & HX & HXok & Hnone & Hmem & Hp & Hh); [rewrite H3; set_solver|].
  exists X. split_and!; [done| |by rewrite Hh, lookup_insert_eq| |done].
  2: { destruct (PrototypeStore.handles (prototypes_ R) !! s) as [m|] eqn:Hm; [|done].
       by rewrite (H4 _ _ Hm) in Hnone. }
  split; [by apply inv_prototypes|]. apply aside_ext; [exact H5| | |].
  - cbn. rewrite Hp, H3. apply leibniz_equiv. set_solver.
  - intros s' m Hs'. cbn. rewrite Hh. pose proof (H4 _ _ Hs') as Hm.
    by rewrite lookup_insert_ne by congruence.
  - rewrite <-H6. exact (exec_dying _ _ _ _ HX).
Qed.

Lemma begun_fail s R R' : begun s R R' →
  ∃ X, PrototypeStore.exec (maxSlots E) (PrototypeStore.OpFail s) (prototypes_ R') = Some X ∧
    good R (set_prototypes X R').
Proof.
  intros [H1 H2 H3 H4 H5 H6].
  destruct (fail_step (maxSlots E) _ s (prototypes_ R') (i_protos _ H1))
    as (X & HX & HXok & Hp & Hh); [rewrite H3; set_solver|].
  exists X. split; [done|]. split; [by apply inv_prototypes|]. apply aside_ext; [exact H5| | |].
  - cbn. rewrite Hp, H3. apply leibniz_equiv. set_solver.
  - intros s' m Hs'. cbn. rewrite Hh. by apply H4.
  - rewrite <-H6. exact (exec_dying _ _ _ _ HX).
Qed.

Lemma good_begun s R R2 R3 : good R R2 → begun s R2 R3 → begun s R R3.
Proof.
  intros [H2 Hx2] [H31 H32 H33 H34 H35 H36]. rewrite (x_pending _ _ _ Hx2) in H32, H33.
  split; [done|done|done| | |].
  - intros s' m H. by apply H34, (x_handles _ _ _ Hx2).
  - eapply aside_trans; [by apply ext_aside|done].
  - by rewrite H36, (x_dying _ _ _ Hx2).
Qed.

(** Memory and slot, from a state the frame reaches. *)
Lemma take_slot_spec {B} d R R1 (m : ptr → SlotId → M t B) Q :
  of_lifetime Prototype d → good R R1 →
  (∀ mem slot R2, begun slot R R2 → ends full (m mem slot) R2 Q (λ _ R', good R R')) →
  ends full (let! mem := operator_new in let! slot := allocate_slot E d mem in m mem slot) R1
    Q (λ _ R', good R R').
Proof.
  intros Hd H1 Hm. eapply ends_bind with (P := λ p R2, good R R2 ∧ p ≠ nullptr).
  { apply keeps_from; [done|]. by apply operator_new_keeps, H1. }
  intros mem R2 [H2 Hp]. eapply ends_bind with (P := λ s R3, begun s R R3).
  { eapply ends_mono; [apply allocate_slot_spec; [apply H2|done|done]|..].
    - intros s R3 H3. by eapply good_begun.
    - by intros ?? ->. }
  intros s R3 H3. by apply Hm.
Qed.

Lemma construct_prototype_spec d c scope R :
  valid_scope E scope → of_lifetime Prototype d → inv R → (measure R < n)%nat →
  ends full (construct_prototype E rec d c scope) R
    (λ r R', begun r.2 R R') (λ _ R', good R R').
Proof.
  intros Hsc Hd HR Hm. unfold construct_prototype. destruct (allocAndConstruct c) as [f|].
  - apply keeps_bind; [apply run_prog_keeps; [by apply EO|done..]|done| |done].
    intros _ R1 H1 Hm1. apply take_slot_spec; [done|done|]. intros mem s R2 H2. by apply ends_return.
  - apply take_slot_spec; [done|by apply good_refl|]. intros mem s R2 H2.
    assert (measure R2 < n)%nat as Hm2.
    { pose proof (measure_mono _ _ _ (bg_aside _ _ _ H2)) as Hle.
      change (measure (set_prototypes _ R2)) with (measure R2) in Hle. lia. }
    eapply ends_bind with (P := λ _ R', begun s R R').
    2:{ intros _ R3 H3. by apply ends_return. }
    eapply ends_catch with (Y := λ _ R', begun s R R').
    + eapply ends_mono; [apply run_prog_keeps; [by apply EO|apply H2|done]|..];
        intros ? R3 H3; by eapply begun_good.
    + intros e R3 H3. eapply ends_bind with (P := λ _ R', begun s R R').
      { apply ends_upd. eapply begun_good; [done|]. apply good_free, H3. }
      intros _ R4 H4. destruct (begun_fail _ _ _ H4) as (X & HX & Hg).
      eapply ends_bind with (P := λ _ R', good R R'); [by eapply proto_op_spec|].
      intros _ R5 H5. by apply ends_throw.
Qed.

(** A counted slot that is still the caller's. *)
Definition held (s : SlotId) (R : t) : Prop :=
  PrototypeStore.handles (prototypes_ R) !! s = Some 1.

(** A slot that was taken since [R]. *)
Definition taken (s : SlotId) (R R' : t) : Prop :=
  held s R' ∧ PrototypeStore.handles (prototypes_ R) !! s = None.

Lemma held_good s R R' : good R R' → held s R → held s R'.
Proof. intros [_ Hx]. apply (x_handles _ _ _ Hx). Qed.

Lemma good_copy s R X : inv R → held s R → protos_ok (of_lifetime Prototype) X →
  PrototypeStore.pending X = PrototypeStore.pending (prototypes_ R) →
  PrototypeStore.handles X = <[s := 2]> (PrototypeStore.handles (prototypes_ R)) →
  PrototypeStore.dying X = PrototypeStore.dying (prototypes_ R) →
  inv (set_prototypes X R) ∧
  ∀ R2, good (set_prototypes X R) R2 →
    ∃ X', PrototypeStore.exec (maxSlots E) (PrototypeStore.OpDrop s) (prototypes_ R2) = Some X' ∧
      good R (set_prototypes X' R2).
Proof.
  intros HR Hs HX Hp Hh Hd. split; [by apply inv_prototypes|]. intros R2 [H2 Hx2].
  destruct (drop_step2 (maxSlots E) _ s (prototypes_ R2) (i_protos _ H2))
    as (X' & HX' & Hok' & Hp' & Hh' & Hd').
  { apply (x_handles _ _ _ Hx2). cbn. by rewrite Hh, lookup_insert_eq. }
  exists X'. split; [done|]. split; [by apply inv_prototypes|]. apply aside_ext.
  - apply (aside_trans R (set_prototypes X R) R2); [|by apply ext_aside].
    unfold aside. by destruct R.
  - cbn. rewrite Hp', (x_pending _ _ _ Hx2). exact Hp.
  - intros s' m Hm. cbn. rewrite Hh'. destruct (decide (s' = s)) as [->|Hne].
    + unfold held in Hs. rewrite lookup_insert_eq. congruence.
    + rewrite lookup_insert_ne by done. apply (x_handles _ _ _ Hx2). cbn.
      by rewrite Hh, lookup_insert_ne.
  - cbn. by rewrite Hd', (x_dying _ _ _ Hx2).
Qed.

Lemma with_dispatch_handle_spec s m R : inv R → held s R →
  PrototypeStore.memoryAt (PrototypeStore.store (prototypes_ R)) s ≠ nullptr →
  (∀ X, inv (set_prototypes X R) → keeps m (set_prototypes X R)) →
  keeps (with_dispatch_handle E s m) R.
Proof.
  intros HR Hs Hmem Hm. unfold with_dispatch_handle.
  destruct (copy_step (maxSlots E) _ s (prototypes_ R) (i_protos _ HR) Hs Hmem)
    as (X & HX & Hok & Hp & Hh).
  destruct (good_copy s R X HR Hs Hok Hp Hh (exec_dying _ _ _ _ HX)) as [HR1 Hdrop].
  eapply ends_bind with (P := λ _ R', R' = set_prototypes X R); [by eapply proto_op_spec|].
  intros _ ? ->. eapply ends_bind with (P := λ _ R', good (set_prototypes X R) R').
  2:{ intros _ R2 H2. destruct (Hdrop R2 H2) as (X' & HX' & Hg). by eapply proto_op_spec. }
  eapply ends_catch; [by apply Hm|]. intros e R2 H2.
  destruct (Hdrop R2 H2) as (X' & HX' & Hg).
  eapply ends_bind with (P := λ _ R', good R R'); [by eapply proto_op_spec|].
  intros _ R3 H3. by apply ends_throw.
Qed.

Lemma keeps_seq {A B} (m : M t A) (m' : M t B) R :
  keeps m R → (measure R < n)%nat →
  (∀ R', inv R' → (measure R' < n)%nat → keeps m' R') → keeps (do! m in m') R.
Proof.
  intros Hm Hlt Hm'. apply keeps_bind; [done|done| |done]. intros _ R1 H1 Hm1.
  eapply ends_mono; [apply Hm'; [apply H1|done]|..]; intros ?? H; by eapply good_trans.
Qed.

Lemma keeps_return R : inv R → keeps (mreturn tt) R.
Proof. intros HR. split; [done|reflexivity]. Qed.

(** The events of a prototype are nobody's life. *)
Lemma emit_prototype_keeps d x step p R : DescriptorTable.at_ D d = Some x →
  lifetime x = Prototype → inv R → keeps (emit step (Key d nullptr) p) R.
Proof.
  intros Hx Hlt HR. apply good_log; [done|]. intros k c (x' & Hx' & _ & Hp & _).
  apply life_other. intros <-. simpl in *. congruence.
Qed.

Lemma prototype_lifecycle_keeps d x exposed owner mem q s scope R :
  valid_scope E scope → DescriptorTable.at_ D d = Some x → lifetime x = Prototype →
  inv R → held s R →
  PrototypeStore.memoryAt (PrototypeStore.store (prototypes_ R)) s ≠ nullptr →
  (measure R < n)%nat →
  keeps (prototype_lifecycle E rec d exposed owner mem q s scope) R.
Proof.
  intros Hsc Hx Hlt HR Hs Hmem Hm. unfold prototype_lifecycle.
  set (hook := match postConstruct owner with Some f => _ | None => _ end).
  assert (Hhook : ∀ R', inv R' → (measure R' < n)%nat → keeps hook R').
  { intros R' HR' Hm'. unfold hook. destruct (postConstruct owner) as [f|]; [|by apply keeps_return].
    apply keeps_seq; [by eapply emit_prototype_keeps|done|]. intros; apply run_prog_keeps; [|done..].
    by apply EO. }
  assert (Hphase : ∀ (b : bool) step ph ty bean em R', ph < ListenerStore.kPhaseCount →
    inv R' → (measure R' < n)%nat →
    keeps (if b then do! emit step (Key d nullptr) mem in dispatch E rec ph ty bean em
           else mreturn tt) R').
  { intros b step ph ty bean em R' Hph HR' Hm'. destruct b; [|by apply keeps_return].
    apply keeps_seq; [by eapply emit_prototype_keeps|done|]. intros; by apply dispatch_keeps. }
  destruct (eo_dispatch _ EO ListenerStore.phaseInitialized 0 0) as [_ [b1 Hb1]]; [done|].
  destruct (eo_dispatch _ EO ListenerStore.phaseCreated 0 0) as [_ [b2 Hb2]]; [done|].
  apply (ends_bind_lift _ b1); [done|]. apply (ends_bind_lift _ b2); [done|].
  destruct (b1 || b2); [|by apply Hhook]. cbv zeta.
  eapply ends_bind with (P := λ _ R', R' = R); [by apply emitter_of_spec|]. intros em ? ->.
  apply with_dispatch_handle_spec; [done..|]. intros X HX.
  apply keeps_seq; [by apply Hphase|done|]. intros R1 HR1 Hm1.
  apply keeps_seq; [by apply Hhook|done|]. intros R2 HR2 Hm2. by apply Hphase.
Qed.

Lemma materializePrototype_spec d d0 x desc cold owner scope R :
  valid_scope E scope → DescriptorTable.at_ D d = Some desc → lifetime desc = Prototype →
  DescriptorTable.at_ D d0 = Some x → lifetime x = Prototype → inv R → (measure R ≤ n)%nat →
  ends full (materializePrototype E rec d d0 desc cold owner scope) R
    (λ h R', good R R' ∧ ∃ q s, h = Handle.direct q s d ∧ taken s R R')
    (λ _ R', good R R').
Proof.
  intros Hsc Hd Hlt Hd0 Hlt0 HR Hm. unfold materializePrototype. apply guard_keeps; [done|].
  intros Hin. set (R1 := set_stack (stack R ++ [d0]) R).
  assert (inv R1) as HR1 by by apply guard_keeps_inv.
  assert (measure R1 < n)%nat as Hm1.
  { assert (instance_of R (Key d0 nullptr) = nullptr) as Hi.
    { unfold instance_of; simpl. by rewrite Hd0, Hlt0. }
    assert (Key d0 nullptr ∈ universe) as Hu.
    { apply elem_universe; [exact (vat_lt _ _ _ Hd0)|by left]. }
    pose proof (pushed_measure _ _ _ Hu (guard_pushed (Key d0 nullptr) R Hi Hin)) as H.
    change (measure _) with (measure R1) in H at 1. lia. }
  eapply ends_bind; [by apply construct_prototype_spec; try done; exists x|]. intros [mem s] R2 H2. cbn [snd] in H2.
  destruct (begun_finish _ _ _ H2) as (X & HX & Hg & Hs & Hfree & Hmem).
  set (R3 := set_prototypes X R2) in *.
  eapply ends_bind with (P := λ _ R', R' = R3); [by eapply proto_op_spec|]. intros _ ? ->.
  set (R4 := log (Life Constructed (Key d nullptr) mem) R3).
  assert (good R1 R4) as H4.
  { eapply good_trans; [done|]. eapply (emit_prototype_keeps d desc Constructed mem R3); [done..|].
    apply Hg. }
  eapply ends_bind with (P := λ _ R', R' = R4); [done|]. intros _ ? ->. cbv zeta.
  eapply ends_bind with (P := λ _ R5, good R4 R5).
  - eapply ends_mono; [apply (prototype_lifecycle_keeps d desc _ _ _ _ s scope R4)|..]; try done.
    + apply H4.
    + by eapply good_measure.
    + intros ?? H. by eapply good_trans.
  - intros _ R5 H5. apply ends_return. split; [by eapply good_trans|].
    eexists _, s. split; [done|]. split; [exact (held_good s R4 R5 H5 Hs)|exact Hfree].
Qed.

(** ** [materializeOneImpl] *)

(** The bean of [k] exists; if it did not before, it has had one complete construction since. *)
Definition built (k : key) (R R' : t) : Prop :=
  instance_of R' k ≠ nullptr ∧
  (instance_of R k = nullptr →
   ∀ c, kept k c → life k (trace R') = life k (trace R) ++ full_life c (instance_of R' k)).

Lemma has_built k p R R' : has k p R R' → good R R' ∧ instance_of R' k = p ∧ built k R R'.
Proof. intros (H1 & <- & H3 & H4). by split_and!. Qed.

(** The pointer a request for [d] sees: its primary's object, adjusted. *)
Definition exposed (x : Descriptor) (d : DescriptorId) (p : ptr) : ptr :=
  if is_primary_elsewhere x d then Cast.adjust (call_adjust E) (adjustToExposed x) p else p.

(** What a materialized handle for descriptor [d] stands for. *)
Definition designates (d : DescriptorId) (x : Descriptor) (scope : option ptr) (R R' : t)
    (h : Handle.MaterializedBeanHandle) : Prop :=
  let prim := materializationDescId x d in
  match lifetime x with
  | Singleton =>
      built (Key prim nullptr) R R' ∧
      h = Handle.direct (exposed x d (instance_of R' (Key prim nullptr))) kInvalidSlotId d
  | Prototype => ∃ q s, h = Handle.direct q s d ∧ taken s R R'
  | Session => ∃ sc info, scope = Some sc ∧ scopes_ E !! sc = Some info ∧
      scopeState_ info ≠ Stopped ∧ built (Key prim sc) R R' ∧ h = Handle.proxy (scopeNameId_ info) d
  | ThreadLocal => built (Key prim nullptr) R R' ∧ h = Handle.threadLocal d
  end.

Lemma primary_of d x : DescriptorTable.at_ D d = Some x →
  ∃ y c, DescriptorTable.at_ D (materializationDescId x d) = Some y ∧
    DescriptorTable.coldAt D (materializationDescId x d) = Some c ∧
    is_primary_elsewhere y (materializationDescId x d) = false ∧ lifetime y = lifetime x.
Proof.
  intros Hx. unfold materializationDescId.
  assert (∃ p y, p = (if is_primary_elsewhere x d then primaryDescriptor x else d) ∧
    DescriptorTable.at_ D p = Some y ∧ is_primary_elsewhere y p = false ∧
    lifetime y = lifetime x) as (p & y & <- & Hy & Hp & Hl).
  { destruct (is_primary_elsewhere x d) eqn:Ha; [|by exists d, x].
    destruct (eo_primary _ EO d x Hx Ha) as (y & ? & ? & ?). by exists (primaryDescriptor x), y. }
  destruct (DescriptorTable.at_is_Some _ p (eo_table _ EO)) as (y' & c & E1 & E2 & _).
  { exact (vat_lt _ _ _ Hy). }
  by exists y, c.
Qed.

Lemma scope_checked_spec {A} scope (m : ptr * ScopedContext → M t A) R (Q : A → t → Prop) :
  valid_scope E scope → inv R →
  (∀ sc info, scope = Some sc → scopes_ E !! sc = Some info → scopeState_ info ≠ Stopped →
     ends full (m (sc, info)) R Q (λ _ R', good R R')) →
  ends full (mbind_ (scope_checked E scope) m) R Q (λ _ R', good R R').
Proof.
  intros Hv HR Hm. destruct scope as [sc|]; [|by apply good_refl].
  destruct Hv as [info Hi]. unfold scope_checked.
  eapply ends_bind with (P := λ a R', a = (sc, info) ∧ R' = R ∧ scopeState_ info ≠ Stopped).
  - apply (ends_bind_lift _ info); [done|].
    case_decide as Hs; [by apply ends_throw, good_refl|]. by apply ends_return.
  - intros ?? (-> & -> & Hs). by apply Hm.
Qed.

Lemma lookups d x : DescriptorTable.at_ D d = Some x →
  DescriptorTable.lifetimeOf D d = Some (lifetime x) ∧
  ∃ c, DescriptorTable.coldAt D d = Some c.
Proof.
  intros Hx. destruct (DescriptorTable.at_is_Some _ d (eo_table _ EO)) as (y & c & E1 & E2 & E3).
  { exact (vat_lt _ _ _ Hx). }
  split; [congruence|by exists c].
Qed.

Lemma built_found k R R' : good R R' → instance_of R k ≠ nullptr →
  built k R R' ∧ instance_of R' k = instance_of R k.
Proof.
  intros [H Hx] Hi. pose proof (x_instance _ _ _ Hx k ltac:(by left)) as E1.
  split; [|done]. split; [by rewrite E1|done].
Qed.

Lemma materialize_primary_singleton depth d x scope R :
  valid_scope E scope → inv R → DescriptorTable.at_ D d = Some x → lifetime x = Singleton →
  is_primary_elsewhere x d = false → (measure R ≤ n)%nat →
  ends full (materializeOneImpl E rec (S depth) d scope) R
    (λ h R', good R R' ∧ built (Key d nullptr) R R' ∧
       h = Handle.direct (instance_of R' (Key d nullptr)) kInvalidSlotId d)
    (λ _ R', good R R').
Proof.
  intros Hsc HR Hx Hlt Hpr Hm. set (k := Key d nullptr).
  destruct (lookups d x Hx) as (Elt & c & Hc). rewrite Hlt in Elt. cbn [materializeOneImpl].
  apply (ends_bind_lift _ Singleton); [done|]. rewrite decide_True by done.
  eapply ends_bind with (P := λ p R', p = instance_of R k ∧ R' = R).
  { by apply (read_singleton_spec d x). }
  intros ?? [-> ->]. destruct (N.eqb_spec (instance_of R k) nullptr) as [Hi|Hi]; cbn [negb].
  2:{ apply ends_return. split_and!; [by apply good_refl|by destruct (built_found k R R
        (good_refl R HR) Hi)|done]. }
  apply (ends_bind_lift _ x); [done|]. apply (ends_bind_lift _ c); [done|].
  cbv zeta. rewrite Hpr. eapply ends_bind; [by eapply materializeSingleton_spec|].
  intros p R1 H1. apply ends_return. fold k in H1. apply has_built in H1 as (H1 & <- & Hb). done.
Qed.

(** An alias has no object of its own. *)
Lemma alias_empty d x R : inv R → DescriptorTable.at_ D d = Some x →
  is_primary_elsewhere x d = true → instance_of R (Key d nullptr) = nullptr.
Proof.
  intros HR Hx Ha. destruct (decide (instance_of R (Key d nullptr) = nullptr)) as [|H]; [done|].
  pose proof (i_owner _ HR _ x H Hx) as Hf. simpl in Hf. congruence.
Qed.

Lemma materialize_alias_singleton d x scope R :
  valid_scope E scope → inv R → DescriptorTable.at_ D d = Some x → lifetime x = Singleton →
  is_primary_elsewhere x d = true → (measure R ≤ n)%nat →
  ends full (materializeOneImpl E rec alias_depth d scope) R
    (λ h R', good R R' ∧ designates d x scope R R' h) (λ _ R', good R R').
Proof.
  intros Hsc HR Hx Hlt Hal Hm. destruct (lookups d x Hx) as (Elt & c & Hc).
  destruct (primary_of d x Hx) as (y & cp & Hy & Hcp & Hpr & Hly).
  unfold designates, exposed. rewrite Hlt, Hal. rewrite Hlt in Elt, Hly.
  unfold alias_depth. cbn [materializeOneImpl].
  apply (ends_bind_lift _ Singleton); [done|]. rewrite decide_True by done.
  eapply ends_bind with (P := λ p R', p = nullptr ∧ R' = R).
  { apply (read_singleton_spec d x); [done..|]. split; [by eapply alias_empty|done]. }
  intros ?? [-> ->]. cbn [negb N.eqb nullptr].
  apply (ends_bind_lift _ x); [done|]. apply (ends_bind_lift _ c); [done|].
  cbv zeta. rewrite Hal. set (k := Key (materializationDescId x d) nullptr).
  eapply ends_bind with (P := λ p R', p = instance_of R k ∧ R' = R).
  { by apply (read_singleton_spec _ y). }
  intros ?? [-> ->].
  eapply ends_bind with (P := λ p R', good R R' ∧ built k R R' ∧ p = instance_of R' k).
  { destruct (N.eqb_spec (instance_of R k) nullptr) as [Hi|Hi].
    - eapply ends_bind; [by apply (materialize_primary_singleton 0 _ y)|].
      intros h R' (H1 & Hb & ->). by apply ends_return.
    - apply ends_return. split_and!; [by apply good_refl| |done].
      by destruct (built_found k R R (good_refl R HR) Hi). }
  intros p R' (H1 & Hb & ->). by apply ends_return.
Qed.

Lemma materializeOneImpl_spec d x scope R :
  valid_scope E scope → inv R → DescriptorTable.at_ D d = Some x → (measure R ≤ n)%nat →
  ends full (materializeOneImpl E rec alias_depth d scope) R
    (λ h R', good R R' ∧ designates d x scope R R' h) (λ _ R', good R R').
Proof.
  intros Hsc HR Hx Hm. destruct (lookups d x Hx) as (Elt & c & Hc).
  destruct (primary_of d x Hx) as (y & cp & Hy & Hcp & Hpr & Hly).
  destruct (decide (lifetime x = Singleton)) as [Hlt|Hlt].
  { destruct (is_primary_elsewhere x d) eqn:Hal; [by apply materialize_alias_singleton|].
    eapply ends_mono; [by apply (materialize_primary_singleton _ d x)| |done].
    intros h R' (H1 & Hb & ->). split; [done|]. unfold designates, exposed, materializationDescId.
    by rewrite Hlt, Hal. }
  unfold alias_depth. cbn [materializeOneImpl]. apply (ends_bind_lift _ (lifetime x)); [done|].
  rewrite decide_False by done. eapply ends_bind with (P := λ p R', p = nullptr ∧ R' = R); [done|].
  intros ?? [-> ->]. cbn [negb N.eqb nullptr].
  apply (ends_bind_lift _ x); [done|]. apply (ends_bind_lift _ c); [done|].
  cbv zeta. unfold designates. destruct (lifetime x) eqn:Elx; [|done|..].
  - apply (ends_bind_lift _ cp); [done|]. by apply (materializePrototype_spec d _ y).
  - apply scope_checked_spec; [done..|]. intros sc info -> Hi Hst.
    eapply ends_bind; [by eapply (materializeSessionInstance_spec _ y)|].
    intros p R1 H1. apply ends_return. apply has_built in H1 as (H1 & _ & Hb).
    split; [done|]. by exists sc, info.
  - eapply ends_bind; [by eapply (materializeThreadLocalInstance_spec _ y)|].
    intros p R1 H1. apply ends_return. by apply has_built in H1 as (H1 & _ & Hb).
Qed.

(** ** [resolve] *)

Lemma fromEntry_spec ty nm :
  match fromEntry E ty nm with
  | Ok d => d < DescriptorTable.size D
  | Throw e => e = no_bean_error ∨ e = ambiguous_error
  | _ => False
  end.
Proof.
  unfold fromEntry. destruct (TypeIndex.entryFor (typeIndex_ E) ty nm) as [e|] eqn:He; cbn.
  2:{ by left. }
  destruct (N.eqb_spec (TypeIndex.head e) kInvalidDescriptorId) as [Hh|Hh].
  - pose proof (eo_valid _ EO _ _ _ He) as Hv.
    assert (Hin : ∀ d, d ∈ TypeIndex.candidates e → d < DescriptorTable.size D).
    { intros d Hd. eapply (eo_entries _ EO); [done|by left|]. by intros ->. }
    destruct (TypeIndex.candidates e) as [|d [|d' l]]; [by left|apply Hin; by left|].
    destruct (DescriptorTable.at_is_Some _ d (eo_table _ EO)) as (x & ? & -> & _).
    { apply Hin. by left. }
    destruct (DescriptorTable.at_is_Some _ d' (eo_table _ EO)) as (x' & ? & -> & _).
    { apply Hin. right. by left. }
    destruct (Z.eqb _ _); [by right|]. apply Hin. by left.
  - destruct (TypeIndex.ambiguous e); [by right|].
    eapply (eo_entries _ EO); [done|by right|done].
Qed.

Lemma selectCandidate_valid info ty nm :
  match selectCandidate E info ty nm with
  | Ok d => d < DescriptorTable.size D
  | Throw e => e = no_bean_error ∨ e = ambiguous_error
  | _ => False
  end.
Proof.
  unfold selectCandidate. destruct (_ =? kUnnamed); [|apply fromEntry_spec].
  destruct (N.eqb_spec (TypeIndex.singleUnnamedCandidate (typeIndex_ E) ty) kInvalidDescriptorId)
    as [H|H]; simpl; [apply fromEntry_spec|]. by apply (eo_single _ EO ty).
Qed.

(** What the handle returned for descriptor [d] stands for. *)
Definition served (d : DescriptorId) (x : Descriptor) (scope : option ptr) (R R' : t)
    (b : Handle.Bean) : Prop :=
  let prim := materializationDescId x d in
  match lifetime x with
  | Singleton =>
      built (Key prim nullptr) R R' ∧
      b = Handle.makeDirect (exposed x d (instance_of R' (Key prim nullptr))) kInvalidSlotId d
            (registryId_ E)
  | Prototype => ∃ q s, b = Handle.makeDirect q s d (registryId_ E) ∧ taken s R R'
  | Session => ∃ sc info, scope = Some sc ∧ scopes_ E !! sc = Some info ∧
      scopeState_ info ≠ Stopped ∧ built (Key prim sc) R R' ∧ b = Handle.makeProxy (scopeNameId_ info) d (registryId_ E)
  | ThreadLocal =>
      built (Key prim nullptr) R R' ∧ b = Handle.makeThreadLocal d (registryId_ E)
  end.

Lemma held_small s R : inv R → held s R → s < Handle.kMaterializedThreadLocalSlot.
Proof.
  intros HR Hs. destruct (i_protos _ HR) as [(L & live & Hinv) _ _].
  pose proof (PrototypeStore.i_core _ _ _ Hinv) as Hc.
  destruct (PrototypeStore.held_place _ _ _ _ _ Hc Hs) as (Hlt & _).
  pose proof (PrototypeStore.i_bound _ _ _ Hc).
  unfold PrototypeStore.kMaxChunks, PrototypeStore.kChunkSize in *.
  unfold Handle.kMaterializedThreadLocalSlot, kInvalidSlotId. unfold two32. lia.
Qed.

Lemma designates_served d x scope R R' h :
  inv R' → DescriptorTable.at_ D d = Some x → designates d x scope R R' h →
  served d x scope R R' (Handle.materializeOne h (registryId_ E)).
Proof.
  intros HR' Hx. pose proof (vat_lt _ _ _ Hx) as Hlt. pose proof (eo_size _ EO).
  unfold DescriptorTable.size in *. unfold designates, served. destruct (lifetime x).
  - intros (q & s & -> & Hs). exists q, s. split; [|done].
    apply Handle.wrap_direct; [left; by eapply held_small, Hs|lia].
  - intros [Hb ->]. split; [done|]. apply Handle.wrap_direct; [by right|lia].
  - intros (sc & info & -> & Hi & Hst & Hb & ->). exists sc, info. split_and!; [done..|].
    apply Handle.wrap_proxy; [by eapply (eo_scopeName _ EO)|lia].
  - intros [Hb ->]. split; [done|]. apply Handle.wrap_threadLocal. lia.
Qed.

Lemma materialize_served d x scope R :
  valid_scope E scope → inv R → DescriptorTable.at_ D d = Some x → (measure R ≤ n)%nat →
  ends full (let! h := materializeOneImpl E rec alias_depth d scope in
             mreturn (Handle.materializeOne h (registryId_ E))) R
    (λ b R', good R R' ∧ served d x scope R R' b) (λ _ R', good R R').
Proof.
  intros Hsc HR Hx Hm. eapply ends_bind; [by apply (materializeOneImpl_spec d x)|].
  intros h R1 [H1 Hd]. apply ends_return. split; [done|]. apply designates_served; [apply H1|done..].
Qed.

(** What a call to [resolve] returns. *)
Definition resolved (scope : option ptr) (ty : TypeId) (nm : NameId) (R R' : t)
    (b : Handle.Bean) : Prop :=
  ∃ info d x, scope_of E scope = Some info ∧ selectCandidate E info ty nm = Ok d ∧
    DescriptorTable.at_ D d = Some x ∧ served d x scope R R' b.

Lemma resolve_body_spec scope ty nm R :
  valid_scope E scope → inv R → (measure R ≤ n)%nat →
  ends full (resolve_body E rec scope ty nm) R
    (λ b R', good R R' ∧ resolved scope ty nm R R' b) (λ _ R', good R R').
Proof.
  intros Hsc HR Hm. unfold resolve_body.
  destruct (started_ E); cbn [negb]; [|by apply ends_throw, good_refl].
  destruct (ty =? kInvalidTypeId); [by apply ends_throw, good_refl|].
  assert (∃ info, scope_of E scope = Some info) as [info Hinfo].
  { unfold scope_of. destruct scope as [sc|]; [|by eexists].
    destruct Hsc as [i Hi]. rewrite Hi. by eexists. }
  apply (ends_bind_lift _ info); [done|].
  pose proof (selectCandidate_valid info ty nm) as Hv.
  destruct (selectCandidate E info ty nm) as [d|e| | |] eqn:Hsel; [|by apply good_refl|done..].
  eapply ends_bind with (P := λ a R', a = d ∧ R' = R); [done|]. intros ?? [-> ->].
  destruct (DescriptorTable.at_is_Some _ d (eo_table _ EO) Hv) as (x & c & Hx & Hc & Hlt).
  destruct (primary_of d x Hx) as (y & cp & Hy & Hcp & Hpr & Hly).
  apply (ends_bind_lift _ (lifetime x)); [done|]. cbv zeta.
  eapply ends_mono with (Q := λ b R', good R R' ∧ served d x scope R R' b);
    [|intros b R' [H1 H2]; split; [done|by exists info, d, x]|intros e R' H; exact H].
  destruct (lifetime x) eqn:Elx; [by apply materialize_served|..].
  - eapply ends_bind with (P := λ p R', p = instance_of R (Key d nullptr) ∧ R' = R).
    { by apply (read_singleton_spec d x). }
    intros ?? [-> ->].
    destruct (N.eqb_spec (instance_of R (Key d nullptr)) nullptr) as [Hi|Hi]; cbn [negb];
      [by apply materialize_served|].
    apply ends_return. split; [by apply good_refl|].
    pose proof (i_owner _ HR _ x Hi Hx) as Hp. simpl in Hp.
    unfold served, exposed, materializationDescId. rewrite Elx, Hp. split; [|done].
    by destruct (built_found _ R R (good_refl R HR) Hi).
  - apply scope_checked_spec; [done..|]. intros sc si -> Hi Hst.
    apply (ends_bind_lift _ x); [done|].
    eapply ends_bind; [by eapply (materializeSessionInstance_spec _ y)|].
    intros p R1 H1. apply ends_return. apply has_built in H1 as (H1 & _ & Hb).
    split; [done|]. unfold served. rewrite Elx. by exists sc, si.
  - apply (ends_bind_lift _ x); [done|].
    eapply ends_bind; [by eapply (materializeThreadLocalInstance_spec _ y)|].
    intros p R1 H1. apply ends_return. apply has_built in H1 as (H1 & _ & Hb).
    split; [done|]. unfold served. by rewrite Elx.
Qed.

End nested.

(** Enough fuel for the beans that could still be built. *)
Lemma resolve_fuel_spec fuel : ∀ scope ty nm R,
  valid_scope E scope → inv R → (measure R < fuel)%nat →
  ends full (resolve E fuel scope ty nm) R
    (λ b R', good R R' ∧ resolved scope ty nm R R' b) (λ _ R', good R R').
Proof.
  induction fuel as [|fuel IH]; intros scope ty nm R Hsc HR Hm; [lia|].
  cbn [resolve]. apply (resolve_body_spec (resolve E fuel) fuel); [|done..|lia].
  intros sc ty' nm' R' ? ? ?. eapply ends_mono; [by apply IH|by intros ?? []|done].
Qed.

End facts.
End RuntimeFacts.
