(* ===== verification/Sample.v ===== *)
(** A small application the witnesses of the run-time theorems evaluate.

    Seven descriptors: singleton 0, whose constructor resolves singleton 1 and a
    prototype 2; singleton 3, whose constructor resolves itself; 4, an alias of 0
    exposed at an offset of 16; session bean 5 and thread-local bean 6.  One scope,
    at address 9, is running. *)
From S2P Require Import Prelude Tables Index Stores Freelist Prototypes Listeners Claims Handles Casts Runtime RuntimeFacts.

Local Open Scope N_scope.

Module Sample.
Import Claims Runtime RuntimeFacts.

Definition hot (l : Lifetime) (primary : DescriptorId) (adjust : option FnPtr) : Descriptor :=
  {| priority := 0; primaryDescriptor := primary; sessionSlot := 0;
     lifetime := l; adjustToExposed := adjust |}.

Definition cold (ty : TypeId) (ctor : FnPtr) : DescriptorCold :=
  {| exposedType := ty; concreteType := ty; name := kUnnamed; Tables.size := 8; align := 8;
     factoryMethodDescriptor := kInvalidDescriptorId; factoryMethodName := None;
     origin := AnnotatedType; lazy := true; construct := ctor; destroy := 0;
     postConstruct := Some 50; preDestroy := Some 51; allocAndConstruct := None;
     dealloc := None; observedTypeGetter := None; exactTypeGetter := None; nameStr := "";
     reflectiveData := None; adjustToConcrete := None |}.

Definition table : DescriptorTable.t :=
  foldl (λ T '(h, c), (DescriptorTable.append h c T).2) DescriptorTable.empty
    [(hot Singleton 0 None, cold 0 10); (hot Singleton 1 None, cold 1 11);
     (hot Prototype 2 None, cold 2 12); (hot Singleton 3 None, cold 3 13);
     (hot Singleton 0 (Some 60), cold 4 10); (hot Session 5 None, cold 5 15);
     (hot ThreadLocal 6 None, cold 6 16)].

Definition contributions : list (TypeId * NameId * DescriptorId) :=
  [(0, 0, 0); (1, 0, 1); (2, 0, 2); (3, 0, 3); (4, 0, 4); (5, 0, 5); (6, 0, 6)].

Definition index : TypeIndex.t :=
  TypeIndex.sortAllCandidates (λ _, 0%Z) (TypeIndex.inserts contributions TypeIndex.empty).

Definition listener_ops : list ListenerStore.op :=
  [ListenerStore.OpAdd ListenerStore.phaseCreated kInvalidTypeId ListenerStore.kAllScopes 70 0;
   ListenerStore.OpAdd ListenerStore.phaseDestroyed 1 ListenerStore.kNoScope 71 0].

Definition scope : ptr := 9.

Definition running_scope : ScopedContext :=
  {| scopeNameId_ := 1; scopeState_ := Running_; scopedDefaults_ := DefaultsTable.empty;
     hasAnyScopedDefault_ := false |}.

(** Give up with an exception when a dependency is missing. *)
Definition need (r : Handle.Bean + exn) (p : prog) : prog :=
  match r with inl _ => p | inr _ => Raise 7 end.

Definition constructor (f : FnPtr) : prog :=
  if f =? 10 then
    Resolve None 1 kUnnamed (λ r, need r (Resolve None 2 kUnnamed (λ r, need r Return)))
  else if f =? 13 then Resolve None 3 kUnnamed (λ r, need r Return)
  else Return.

Definition app : env :=
  {| started_ := true; descriptors_ := table; typeIndex_ := index;
     defaults_ := DefaultsTable.empty; hasAnyDefault_ := false;
     listeners_ := ListenerStore.final listener_ops; registryId_ := 1; threadToken_ := 1;
     maxSlots := Some 1000; scopes_ := {[ scope := running_scope ]};
     call_construct := λ f _ _, constructor f; call_allocAndConstruct := λ _ _, Return;
     call_hook := λ _ _ _, Return; call_listener := λ _ _, Return;
     call_adjust := λ _ p, p + 16 |}.

(** The registry after [start()]: nothing is built. *)
Definition idle : t :=
  {| singletons_ := SingletonStore.resize 7 SingletonStore.empty;
     sessions := {[ scope := SessionStore.resize 1 SessionStore.empty ]};
     prototypes_ := PrototypeStore.start; claims := Claims.empty;
     tl := ThreadLocalStore.empty; registered := false; published := false; stack := [];
     nextAddress := 4096; trace := [] |}.

(** ** The environment hypotheses *)

(** A vector property, element by element. *)
Lemma vat_all {A} (P : N → A → Prop) l :
  Forall (λ ix, P (N.of_nat ix.1) ix.2) (imap pair l) → ∀ i x, vat l i = Some x → P i x.
Proof.
  intros H i x Hx. rewrite vat_lookup in Hx.
  assert (imap pair l !! N.to_nat i = Some (N.to_nat i, x)) as Hi
    by by rewrite list_lookup_imap, Hx.
  rewrite Forall_lookup in H. specialize (H _ _ Hi). simpl in H. by rewrite N2Nat.id in H.
Qed.

(** What an index built by contributions of a table offers. *)
Lemma index_entries ops prio size ty n e d :
  Forall (λ op, op.2 < size) ops →
  TypeIndex.entryFor (TypeIndex.sortAllCandidates prio
    (TypeIndex.inserts ops TypeIndex.empty)) ty n = Some e →
  d ∈ TypeIndex.candidates e ∨ d = TypeIndex.head e → d < size.
Proof.
  intros Hops He Hd. pose proof (TypeIndex.entryFor_registered prio ops ty n) as H.
  assert (Hall : ∀ d, d ∈ TypeIndex.registered ops ty n → d < size).
  { intros d' (op & -> & [_ Hop]%list_elem_of_filter)%list_elem_of_fmap.
    rewrite Forall_forall in Hops. by apply Hops. }
  destruct (TypeIndex.registered ops ty n) as [|d0 l0]; [congruence|].
  destruct H as (v & Hp & _ & H). rewrite H in He. injection He as <-. simpl in Hd.
  apply Hall. rewrite <-Hp. destruct Hd as [Hd| ->]; [done|].
  destruct v; [by apply Permutation_nil_l in Hp|by left].
Qed.

Lemma index_single ops prio size ty d :
  Forall (λ op, op.2 < size) ops →
  TypeIndex.singleUnnamedCandidate (TypeIndex.sortAllCandidates prio
    (TypeIndex.inserts ops TypeIndex.empty)) ty = d → d ≠ kInvalidDescriptorId → d < size.
Proof.
  intros Hops <-. rewrite TypeIndex.singleUnnamed_sorted.
  destruct (TypeIndex.registered ops ty kUnnamed) as [|d [|]] eqn:Er; [done| |done]. intros _.
  assert (d ∈ TypeIndex.registered ops ty kUnnamed) as Hd by (rewrite Er; by left).
  apply list_elem_of_fmap in Hd as (op & -> & [_ Hop]%list_elem_of_filter).
  rewrite Forall_forall in Hops. by apply Hops.
Qed.

Lemma hasListeners_rel S A p : ListenerStore.rel S A → p < ListenerStore.kPhaseCount →
  is_Some (ListenerStore.hasListeners S p) ∧
  ∀ ty sc, is_Some (ListenerStore.dispatch S p ty sc).
Proof.
  intros HR Hp. destruct (proj2 (vat_is_Some (ListenerStore.phases_ S) p)) as [es Hes].
  { by rewrite (ListenerStore.r_phases _ _ HR). }
  split; [|intros; rewrite (ListenerStore.rel_dispatch S A p es) by done; by eexists].
  destruct (ListenerStore.r_phase _ _ HR _ _ Hes) as (_ & _ & Hsz).
  unfold ListenerStore.hasListeners. rewrite Hsz. by eexists.
Qed.

Lemma need_ok r p : prog_ok app p → prog_ok app (need r p).
Proof. by destruct r. Qed.

Lemma contributions_small : Forall (λ op, op.2 < DescriptorTable.size table) contributions.
Proof. repeat constructor. Qed.

Lemma table_all (P : N → Descriptor → Prop) :
  Forall (λ ix, P (N.of_nat ix.1) ix.2) (imap pair (DescriptorTable.entries_ table)) →
  ∀ d x, DescriptorTable.at_ table d = Some x → P d x.
Proof. apply vat_all. Qed.

Lemma table_origin d c : DescriptorTable.coldAt table d = Some c → origin c = AnnotatedType.
Proof. apply (vat_all (λ _ c, origin c = AnnotatedType)). repeat constructor. Qed.

Lemma session_id d x : DescriptorTable.at_ table d = Some x → lifetime x = Session → d = 5.
Proof. apply (table_all (λ d x, lifetime x = Session → d = 5)). by repeat constructor. Qed.

Lemma alias_primary d x : DescriptorTable.at_ table d = Some x →
  is_primary_elsewhere x d = true →
  ∃ y, DescriptorTable.at_ table (primaryDescriptor x) = Some y ∧
       is_primary_elsewhere y (primaryDescriptor x) = false ∧ lifetime y = lifetime x.
Proof.
  apply (table_all (λ d x, is_primary_elsewhere x d = true →
    ∃ y, DescriptorTable.at_ table (primaryDescriptor x) = Some y ∧
       is_primary_elsewhere y (primaryDescriptor x) = false ∧ lifetime y = lifetime x)).
  repeat (apply Forall_cons; split); try done. intros _. by exists (hot Singleton 0 None).
Qed.

Lemma app_scope sc info : scopes_ app !! sc = Some info → sc = scope ∧ info = running_scope.
Proof. simpl. by intros [<- <-]%lookup_singleton_Some. Qed.

Lemma app_ok : env_ok app.
Proof.
  assert (Hrel : ListenerStore.rel (listeners_ app) (ListenerStore.spec_run listener_ops)).
  { destruct (ListenerStore.run_rel listener_ops) as (S & HS & HR).
    { by apply Forall_cons; split; [|apply Forall_cons]. }
    change (listeners_ app) with (ListenerStore.final listener_ops).
    unfold ListenerStore.final. by rewrite HS. }
  split.
  - done.
  - done.
  - intros ty n e d He Hd _. exact (index_entries contributions _ _ ty n e d contributions_small He Hd).
  - intros ty n e He Hin.
    by pose proof (index_entries contributions _ _ ty n e _ contributions_small He (or_introl Hin)).
  - intros ty d. apply index_single, contributions_small.
  - apply alias_primary.
  - intros d d' x x' Hx Hx' Hl Hl' _. by rewrite (session_id d x), (session_id d' x').
  - by intros sc info [-> ->]%app_scope.
  - intros ph ty sc Hp. by destruct (hasListeners_rel _ _ ph Hrel Hp).
  - intros d x c _ Hc Ho. by rewrite (table_origin d c Hc) in Ho.
  - done.
  - intros f sc p _. simpl. unfold constructor.
    destruct (f =? 10); [split; [done|intros r; apply need_ok; split; [done|
      intros r'; by apply need_ok]]|].
    destruct (f =? 13); [split; [done|intros r; by apply need_ok]|done].
  - done.
  - done.
  - done.
Qed.

(** ** The start state *)

Lemma idle_session sc ss : sessions idle !! sc = Some ss →
  ss = SessionStore.resize 1 SessionStore.empty.
Proof. simpl. by intros [_ <-]%lookup_singleton_Some. Qed.

Lemma idle_empty k : instance_of app idle k = nullptr.
Proof.
  unfold instance_of. destruct (DescriptorTable.at_ _ _) as [x|]; [|done].
  destruct (lifetime x); [done|..].
  - destruct (_ =? _); [|done]. apply SingletonStore.resize_value.
  - destruct (sessions idle !! key_scope k) as [ss|] eqn:Hs; [|done].
    apply idle_session in Hs as ->.
    apply (InstanceArray.resize_spec 1 InstanceArray.empty).
  - by destruct (_ =? _).
Qed.

Lemma idle_ok : inv app idle.
Proof.
  split.
  - by apply SingletonStore.singleton_resize_wf.
  - intros d x Hx _. exact (vat_lt _ _ _ Hx).
  - intros d x c _ Hc _ Ho. by rewrite (table_origin d c Hc) in Ho.
  - intros sc info [-> ->]%app_scope _.
    exists (SessionStore.resize 1 SessionStore.empty). split; [done|].
    split; [apply SessionStore.session_resize_wf|intros d x c Hx _ Hl _..|by intros d ?%not_elem_of_nil].
    + rewrite (session_id d x Hx Hl) in Hx. vm_compute in Hx. by simplify_eq.
    + intros []. apply (InstanceArray.resize_spec 1 InstanceArray.empty).
  - intros k x H. by rewrite idle_empty in H.
  - split; [|done|split; [constructor|by intros s c ?%not_elem_of_empty]].
    exists [], ∅. apply PrototypeStore.store_inv_start.
  - split; [done|]. by intros c ?%not_elem_of_nil.
  - by intros e ?%not_elem_of_nil.
  - apply ThreadLocalStore.tl_wf_empty.
  - done.
  - intros k c _. rewrite idle_empty. constructor.
  - intros d []. apply SingletonStore.resize_value.
  - by intros d [].
Qed.

End Sample.
