(* ===== verification/Resolution.v ===== *)
(** The theorems about resolution.

    Selection against a reference definition, termination and exception safety of
    [resolve], what its handle stands for, and the lives of the beans a sequence of
    requests builds. *)
From S2P Require Import Prelude Tables Index Stores Freelist Prototypes Listeners Claims Handles Casts Runtime RuntimeFacts Sample.

Local Open Scope N_scope.

Module Resolution.
Import Claims Runtime RuntimeFacts.
Local Open Scope ctr_scope.

(** ** Selection against its reference *)

Section selection.
Context `{SS : StdSort} (prio : DescriptorId → Z).

(** The candidates nobody beats. *)
Definition top_of (reg : list DescriptorId) : list DescriptorId :=
  filter (λ d, Forall (λ x, prio x ≤ prio d)%Z reg) reg.

Lemma top_of_perm reg reg' : reg ≡ₚ reg' → top_of reg ≡ₚ top_of reg'.
Proof.
  intros Hp. unfold top_of.
  rewrite (list_filter_iff _ (λ d, Forall (λ x, prio x ≤ prio d)%Z reg') reg)
    by (intros d; by rewrite Hp).
  by rewrite Hp.
Qed.

Lemma top_of_unique reg d : TypeIndex.unique_top prio reg d → top_of reg = [d].
Proof.
  intros (l & Hp & Hl). apply Permutation_singleton_r. rewrite (top_of_perm _ _ Hp).
  unfold top_of. rewrite filter_cons_True.
  - f_equiv. apply reflexive_eq. destruct (filter _ l) as [|x l'] eqn:Hf; [done|].
    assert (x ∈ x :: l') as Hx by by left. rewrite <-Hf in Hx.
    apply list_elem_of_filter in Hx as [Hx Hin]. apply Forall_cons in Hx as [Hd _].
    specialize (Hl x Hin). lia.
  - apply Forall_cons. split; [done|]. apply Forall_forall. intros x Hx.
    specialize (Hl x Hx). lia.
Qed.

Lemma top_of_tied reg d : TypeIndex.tied_top prio reg d →
  ∃ a b l, top_of reg = a :: b :: l.
Proof.
  intros (d' & l & Hp & He & Hl). pose proof (top_of_perm _ _ Hp) as Ht.
  assert (Forall (λ x, prio x ≤ prio d)%Z (d :: d' :: l)) as Hall.
  { rewrite !Forall_cons, Forall_forall. split_and!; [done|lia|done]. }
  unfold top_of in Ht at 2. rewrite filter_cons_True, filter_cons_True in Ht;
    [|by rewrite He|done].
  apply Permutation_length in Ht. destruct (top_of reg) as [|a [|b l']]; [done..|by eexists _, _, _].
Qed.

(** The name an unnamed request is completed with: the first that is set. *)
Definition reference_name (E : env) (scope : option ScopedContext) (ty : TypeId) (n : NameId)
    : NameId :=
  let inner := match scope with
               | Some s => DefaultsTable.getDefault (scopedDefaults_ s) ty
               | None => kUnnamed
               end in
  if decide (n ≠ kUnnamed) then n
  else if decide (inner ≠ kUnnamed) then inner
  else DefaultsTable.getDefault (defaults_ E) ty.

(** The only candidate of highest priority, if there is one. *)
Definition reference_select (ops : list (TypeId * NameId * DescriptorId)) (ty : TypeId)
    (n : NameId) : outcome DescriptorId :=
  match top_of (TypeIndex.registered ops ty n) with
  | [] => Throw no_bean_error
  | [d] => Ok d
  | _ => Throw ambiguous_error
  end.

(** A context whose flag says that no default was set has none. *)
Definition flags_ok (E : env) (scope : option ScopedContext) : Prop :=
  (hasAnyDefault_ E = false → ∀ ty, DefaultsTable.getDefault (defaults_ E) ty = kUnnamed) ∧
  match scope with
  | Some s => hasAnyScopedDefault_ s = false →
      ∀ ty, DefaultsTable.getDefault (scopedDefaults_ s) ty = kUnnamed
  | None => True
  end.

Lemma effectiveName_reference E scope ty n :
  flags_ok E scope → effectiveName E scope ty n = reference_name E scope ty n.
Proof.
  intros [Hr Hs]. unfold effectiveName, reference_name.
  destruct (N.eqb_spec n kUnnamed) as [->|Hn]; [|by rewrite decide_True].
  rewrite decide_False by (intros H; by apply H).
  assert (match scope with
    | Some s => if hasAnyScopedDefault_ s
                then DefaultsTable.getDefault (scopedDefaults_ s) ty else kUnnamed
    | None => kUnnamed end = match scope with
    | Some s => DefaultsTable.getDefault (scopedDefaults_ s) ty | None => kUnnamed end) as ->.
  { destruct scope as [s|]; [|done]. destruct (hasAnyScopedDefault_ s); [done|]. by rewrite Hs. }
  set (inner := match scope with Some s => _ | None => _ end).
  destruct (N.eqb_spec inner kUnnamed) as [Hi|Hi]; cbn [andb]; [|by rewrite decide_True].
  rewrite decide_False by (intros H; by apply H).
  destruct (hasAnyDefault_ E); [done|]. by rewrite Hi, Hr.
Qed.

(** Lookup through the entry a settled index has for the pair. *)
Lemma fromEntry_settled E ops ty n :
  match TypeIndex.registered ops ty n with
  | [] => TypeIndex.entryFor (typeIndex_ E) ty n = None
  | _ :: _ => ∃ v, v ≡ₚ TypeIndex.registered ops ty n ∧ TypeIndex.desc_sorted prio v ∧
       TypeIndex.entryFor (typeIndex_ E) ty n =
         Some {| TypeIndex.candidates := v; TypeIndex.head := TypeIndex.vec_head v;
                 TypeIndex.ambiguous := TypeIndex.top_tie prio v |}
  end →
  Forall (λ op, op.2 ≠ kInvalidDescriptorId) ops →
  fromEntry E ty n = reference_select ops ty n.
Proof.
  intros He Hv. unfold fromEntry, reference_select.
  destruct (TypeIndex.registered ops ty n) as [|d0 l0] eqn:Er; [by rewrite He|].
  destruct He as (v & Hp & Hs & ->). cbn [TypeIndex.head TypeIndex.candidates TypeIndex.ambiguous].
  destruct v as [|d v]; [by apply Permutation_nil_l in Hp|].
  assert (d ≠ kInvalidDescriptorId) as Hd.
  { assert (d ∈ TypeIndex.registered ops ty n) as Hin by (rewrite Er, <-Hp; by left).
    apply list_elem_of_fmap in Hin as (op & -> & [_ Hop]%list_elem_of_filter).
    rewrite Forall_forall in Hv. by apply Hv. }
  cbv zeta. change (TypeIndex.vec_head (d :: v)) with d. rewrite (proj2 (N.eqb_neq _ _) Hd).
  pose proof (TypeIndex.top_tie_spec prio d v Hs) as Ht.
  destruct (TypeIndex.top_tie prio (d :: v)).
  - destruct Ht as (d' & l & Hq & Ht1 & Ht2).
    destruct (top_of_tied (d0 :: l0) d) as (a & b & l' & ->); [|done].
    exists d', l. by rewrite <-Hp.
  - destruct Ht as (l & Hq & Ht). rewrite (top_of_unique (d0 :: l0) d); [done|].
    exists l. by rewrite <-Hp.
Qed.

(** The fast path, then the entry. *)
Definition select_name (E : env) (ty : TypeId) (n : NameId) : outcome DescriptorId :=
  if n =? kUnnamed then
    let d := TypeIndex.singleUnnamedCandidate (typeIndex_ E) ty in
    if negb (d =? kInvalidDescriptorId) then Ok d else fromEntry E ty n
  else fromEntry E ty n.

Lemma select_name_settled E ops ty n :
  fromEntry E ty n = reference_select ops ty n →
  (n = kUnnamed → TypeIndex.singleUnnamedCandidate (typeIndex_ E) ty =
    match TypeIndex.registered ops ty kUnnamed with [d] => d | _ => kInvalidDescriptorId end) →
  select_name E ty n = reference_select ops ty n.
Proof.
  intros Hf Hs. unfold select_name.
  destruct (N.eqb_spec n kUnnamed) as [Hm|Hm]; [|done]. rewrite (Hs Hm).
  destruct (TypeIndex.registered ops ty kUnnamed) as [|d [|d' l]] eqn:Er; [done| |done].
  destruct (N.eqb_spec d kInvalidDescriptorId) as [Hd|Hd]; [done|].
  unfold reference_select. rewrite Hm, Er, (top_of_unique [d] d); [done|].
  exists []. split; [done|]. by intros x ?%not_elem_of_nil.
Qed.

(** Selection with a settled index. *)
Lemma select_settled E ops ty n : TypeIndex.settled prio ops (typeIndex_ E) →
  Forall (λ op, op.2 ≠ kInvalidDescriptorId) ops →
  select_name E ty n = reference_select ops ty n.
Proof.
  intros [He Hs] Hv. apply select_name_settled; [apply fromEntry_settled; [apply He|done]|]. intros _. apply Hs.
Qed.

(** Selection reads the index at one pair. *)
Lemma select_at E ops scope ty n :
  let T := TypeIndex.sortAllCandidates prio (TypeIndex.inserts ops TypeIndex.empty) in
  let m := reference_name E scope ty n in
  TypeIndex.entryFor (typeIndex_ E) ty m = TypeIndex.entryFor T ty m →
  (m = kUnnamed → TypeIndex.singleUnnamedCandidate (typeIndex_ E) ty =
    TypeIndex.singleUnnamedCandidate T ty) →
  Forall (λ op, op.2 ≠ kInvalidDescriptorId) ops → flags_ok E scope →
  selectCandidate E scope ty n = reference_select ops ty m.
Proof.
  intros T m HT Hs Hv Hf. unfold selectCandidate. rewrite effectiveName_reference by done.
  fold m. apply select_name_settled.
  - apply fromEntry_settled; [|done]. rewrite HT. apply TypeIndex.entryFor_registered.
  - intros Hm. rewrite (Hs Hm). exact (TypeIndex.singleUnnamed_sorted prio ops ty).
Qed.

(** C24 Selection is equivalent to its reference: for every context whose index was
    built by any contributions and one sort, the effective name is the requested
    name, else the scope's default, else the root's, and the answer of the optimised
    lookup (fast path for a single unnamed candidate, precomputed head and tie bit,
    sorted tables) is the candidate registered for that pair whose priority no other
    reaches; with none it is the missing-bean error and with a tie at the top the
    ambiguity error. *)
Theorem select_equivalent (E : env) (ops : list (TypeId * NameId * DescriptorId))
    (scope : option ScopedContext) (ty : TypeId) (n : NameId) :
  typeIndex_ E = TypeIndex.sortAllCandidates prio (TypeIndex.inserts ops TypeIndex.empty) →
  Forall (λ op, op.2 ≠ kInvalidDescriptorId) ops →
  flags_ok E scope →
  selectCandidate E scope ty n = reference_select ops ty (reference_name E scope ty n).
Proof.
  intros HT Hv Hf. by apply select_at; rewrite ?HT.
Qed.
End selection.

(** Only the priorities of the candidates matter. *)
Lemma top_of_ext p p' reg : (∀ d, d ∈ reg → p d = p' d) → top_of p reg = top_of p' reg.
Proof.
  intros Hp. unfold top_of.
  assert (∀ k : list DescriptorId, (∀ d, d ∈ k → d ∈ reg) →
    filter (λ d, Forall (λ x, p x ≤ p d)%Z reg) k =
    filter (λ d, Forall (λ x, p' x ≤ p' d)%Z reg) k) as Hk; [|by apply Hk].
  induction k as [|d k IH]; intros Hk; [done|].
  rewrite !filter_cons, IH by (intros d' Hd'; apply Hk; by right).
  assert (Forall (λ x, p x ≤ p d)%Z reg ↔ Forall (λ x, p' x ≤ p' d)%Z reg) as Hiff.
  { rewrite !Forall_forall, (Hp d) by (apply Hk; by left).
    split; intros H x Hx; specialize (H x Hx); rewrite ?(Hp x) in * by done; done. }
  repeat case_decide; by tauto.
Qed.

Lemma select_equivalent_witness :
  selectCandidate Sample.app (Some Sample.running_scope) 4 kUnnamed =
    reference_select (λ _, 0%Z) Sample.contributions 4
      (reference_name Sample.app (Some Sample.running_scope) 4 kUnnamed) ∧
  selectCandidate Sample.app (Some Sample.running_scope) 4 kUnnamed = Ok 4.
Proof.
  split; [|by vm_compute].
  apply select_equivalent; [reflexivity|by repeat (apply Forall_cons; split; [discriminate|])|].
  split; intros _ t'; apply DefaultsTable.getDefault_out, N.le_0_l.
Defined.

(** ** [resolve] is total and safe *)

(** Descriptors times contexts: a bound on the nesting of constructions. *)
Definition nesting_bound (E : env) : nat :=
  N.to_nat (DescriptorTable.size (descriptors_ E)) * S (base.size (scopes_ E)).

Lemma length_universe E : length (universe E) = nesting_bound E.
Proof.
  unfold universe, nesting_bound.
  assert (∀ (l : list DescriptorId) (m : list ptr),
    length (d ← l; sc ← m; [Key d sc]) = length l * length m)%nat as Hlen.
  { intros l m. induction l as [|d l IH]; [done|].
    rewrite bind_cons, length_app, IH. simpl. f_equal.
    clear. induction m as [|sc m IH]; [done|]. rewrite bind_cons, length_app, IH. done. }
  rewrite Hlen, !length_fmap, length_seq. simpl. by rewrite length_fmap, length_map_to_list.
Qed.

Lemma measure_bound E R : (measure E R ≤ nesting_bound E)%nat.
Proof. rewrite <-length_universe. apply length_filter. Qed.

(** What a call leaves as it found it. *)
Record restored (E : env) (R R' : t) : Prop := {
  re_inv : inv E R';
  re_stack : stack R' = stack R;
  re_claims : materializing_ (claims R') = materializing_ (claims R);
  re_pending : PrototypeStore.pending (prototypes_ R') = PrototypeStore.pending (prototypes_ R);
  re_handles s n : PrototypeStore.handles (prototypes_ R) !! s = Some n →
    PrototypeStore.handles (prototypes_ R') !! s = Some n;
  re_instances k : instance_of E R k ≠ nullptr → instance_of E R' k = instance_of E R k
}.

Lemma good_restored E R R' : good E R R' → restored E R R'.
Proof.
  intros [H [A1 A2 A3 A4 A5 A6 A7]]. split; [done..|]. intros k Hk. apply A3. by left.
Qed.

(** C3 Resolution terminates and is exception safe: with a nesting bound above
    (descriptors times contexts), for any user code that passes live scopes, any
    request answers a handle or throws, without blocking, and whichever it does the
    thread's materialization stack, the claims, the slots under construction, the
    references others hold on prototypes and every bean that existed are as before
    the call; an assertion can fail only when all prototype slots are taken and no
    limit was configured below their number. *)
Theorem resolve_total (E : env) (fuel : nat) (scope : option ptr) (ty : TypeId) (nm : NameId)
    (R : t) :
  env_ok E → inv E R → valid_scope E scope → (nesting_bound E < fuel)%nat →
  match resolve E fuel scope ty nm R with
  | (Ok _, R') | (Throw _, R') => restored E R R'
  | (Ub, R') =>
      PrototypeStore.kMaxChunks * PrototypeStore.kChunkSize ≤
        PrototypeStore.slotCount_ (PrototypeStore.store (prototypes_ R')) ∧
      ∀ c, maxSlots E = Some c →
        PrototypeStore.slotCount_ (PrototypeStore.store (prototypes_ R')) < c
  | _ => False
  end.
Proof.
  intros EO HR Hsc Hf. pose proof (measure_bound E R) as Hm.
  pose proof (resolve_fuel_spec E EO fuel scope ty nm R Hsc HR ltac:(lia)) as H. unfold ends in H.
  destruct (resolve E fuel scope ty nm R) as [[b|e| | |] R']; try done.
  - apply good_restored, H.
  - by apply good_restored.
  - destruct H as [H1 H2]. split; [done|]. intros c Hc. by rewrite Hc in H2.
Qed.

Lemma resolve_total_witness :
  let '(o, R') := resolve Sample.app 15 None 0 kUnnamed Sample.idle in
  o = Ok (Handle.makeDirect 4096 kInvalidSlotId 0 1) ∧ restored Sample.app Sample.idle R'.
Proof.
  pose proof (resolve_total Sample.app 15 None 0 kUnnamed Sample.idle Sample.app_ok
    Sample.idle_ok I ltac:(vm_compute; lia)) as H.
  assert ((resolve Sample.app 15 None 0 kUnnamed Sample.idle).1 =
    Ok (Handle.makeDirect 4096 kInvalidSlotId 0 1)) as Ho by by vm_compute.
  destruct (resolve Sample.app 15 None 0 kUnnamed Sample.idle) as [o R'] in *. simpl in Ho.
  by subst o.
Defined.

(** A handle means what was asked: when [resolve] returns, the descriptor is the
    one selection chooses for the requested type and name; a singleton, session or
    thread-local request leaves its bean (the primary's, for an alias) stored, and
    if this call built it, it made exactly the steps construction, initialized
    dispatch, post-construct hook, created dispatch, in that order; the handle is
    the direct handle of the (adjusted) object, the proxy of the scope, the
    thread-local handle, or a direct handle that owns one reference of a fresh
    prototype slot. *)
Theorem resolve_serves (E : env) (fuel : nat) (scope : option ptr) (ty : TypeId) (nm : NameId)
    (R R' : t) (b : Handle.Bean) :
  env_ok E → inv E R → valid_scope E scope → (nesting_bound E < fuel)%nat →
  resolve E fuel scope ty nm R = (Ok b, R') → resolved E scope ty nm R R' b.
Proof.
  intros EO HR Hsc Hf He. pose proof (measure_bound E R) as Hm.
  pose proof (resolve_fuel_spec E EO fuel scope ty nm R Hsc HR ltac:(lia)) as H. unfold ends in H.
  rewrite He in H. apply H.
Qed.

(** ** Requests for a bean that exists *)

Section found.
Context (E : env) (EO : env_ok E) (rec : option ptr → TypeId → NameId → M t Handle.Bean).

Lemma run_lift {A B} (o : option A) a (m : A → M t B) R :
  o = Some a → mbind_ (lift o) m R = m a R.
Proof. by intros ->. Qed.

Lemma run_outcome {A B} (a : A) (m : A → M t B) R : mbind_ (lift_outcome (Ok a)) m R = m a R.
Proof. done. Qed.

Lemma run_scope {B} sc info (m : ptr * ScopedContext → M t B) R :
  scopes_ E !! sc = Some info → scopeState_ info ≠ Stopped →
  mbind_ (scope_checked E (Some sc)) m R = m (sc, info) R.
Proof.
  intros Hsc Hst. unfold scope_checked, mbind_, lift. rewrite Hsc. by rewrite decide_False.
Qed.

Lemma run_read {B} d x (m : ptr → M t B) R :
  inv E R → DescriptorTable.at_ (descriptors_ E) d = Some x → lifetime x = Singleton →
  mbind_ (read_singleton d) m R = m (instance_of E R (Key d nullptr)) R.
Proof.
  intros HR Hx Hl. unfold mbind_, read_singleton, lift.
  by rewrite (find_singleton_spec E d x R HR Hx Hl).
Qed.

Lemma alias_found d x scope R :
  inv E R → DescriptorTable.at_ (descriptors_ E) d = Some x → lifetime x = Singleton →
  is_primary_elsewhere x d = true →
  instance_of E R (Key (materializationDescId x d) nullptr) ≠ nullptr →
  materializeOneImpl E rec alias_depth d scope R =
    (Ok (Handle.direct (exposed E x d (instance_of E R (Key (materializationDescId x d) nullptr)))
           kInvalidSlotId d), R).
Proof.
  intros HR Hx Hl Ha Hi. destruct (lookups E EO d x Hx) as (Hlt & c & Hc).
  destruct (primary_of E EO d x Hx) as (y & cy & Hy & _ & _ & Hly). rewrite Hl in Hlt, Hly.
  unfold alias_depth. cbn [materializeOneImpl]. rewrite (run_lift _ _ _ _ Hlt).
  rewrite decide_True by done. rewrite (run_read d x) by done.
  rewrite (alias_empty E d x R HR Hx Ha). cbn [negb N.eqb nullptr].
  rewrite (run_lift _ _ _ _ Hx), (run_lift _ _ _ _ Hc), Ha, (run_read _ y) by done.
  rewrite (proj2 (N.eqb_neq _ _) Hi). unfold exposed. by rewrite Ha.
Qed.

Lemma session_found d x sc info R :
  inv E R → DescriptorTable.at_ (descriptors_ E) d = Some x → lifetime x = Session →
  is_primary_elsewhere x d = false → scopes_ E !! sc = Some info →
  scopeState_ info ≠ Stopped → instance_of E R (Key d sc) ≠ nullptr →
  materializeSessionInstance E rec d sc (Some sc) R = (Ok (instance_of E R (Key d sc)), R).
Proof.
  intros HR Hx Hl Ha Hsc Hst Hi. destruct (lookups E EO d x Hx) as (_ & c & Hc).
  unfold materializeSessionInstance. rewrite (run_lift _ _ _ _ Hx).
  assert (materializationDescId x d = d) as ->. { unfold materializationDescId. by rewrite Ha. }
  rewrite (run_lift _ _ _ _ Hx), (run_lift _ _ _ _ Hc), (run_lift _ _ _ _ Hsc).
  unfold mbind_, lift. rewrite (find_session_spec E d x sc info R HR Hx Hl Hsc Hst).
  by rewrite (proj2 (N.eqb_neq _ _) Hi).
Qed.

Lemma thread_local_found d x scope R :
  inv E R → DescriptorTable.at_ (descriptors_ E) d = Some x → lifetime x = ThreadLocal →
  is_primary_elsewhere x d = false → instance_of E R (Key d nullptr) ≠ nullptr →
  ∃ T, materializeThreadLocalInstance E rec d scope R =
    (Ok (instance_of E R (Key d nullptr)), set_tl T R).
Proof.
  intros HR Hx Hl Ha Hi. destruct (lookups E EO d x Hx) as (_ & c & Hc).
  unfold materializeThreadLocalInstance. rewrite (run_lift _ _ _ _ Hx).
  assert (materializationDescId x d = d) as ->. { unfold materializationDescId. by rewrite Ha. }
  rewrite (run_lift _ _ _ _ Hc). unfold mbind_, find_thread_local.
  destruct (ThreadLocalStore.findInstance_spec (registryId_ E) d (tl R) (i_tl _ _ HR))
    as (T & -> & _). exists T.
  assert (ThreadLocalStore.value (tl R) (registryId_ E) d = instance_of E R (Key d nullptr)) as ->.
  { unfold instance_of; simpl. by rewrite Hx, Hl. }
  by rewrite (proj2 (N.eqb_neq _ _) Hi).
Qed.

(** A request whose bean exists: the same handle, and only the thread-local lookup
    cache may move. *)
Lemma resolve_body_found scope ty nm info d x R b R0 :
  started_ E = true → ty ≠ kInvalidTypeId → inv E R →
  scope_of E scope = Some info → selectCandidate E info ty nm = Ok d →
  DescriptorTable.at_ (descriptors_ E) d = Some x → lifetime x ≠ Prototype →
  served E d x scope R0 R b →
  ∃ T, resolve_body E rec scope ty nm R = (Ok b, set_tl T R).
Proof.
  intros Hst Hty HR Hinfo Hsel Hx Hp Hs. destruct (lookups E EO d x Hx) as (Hlt & c & Hc).
  destruct (primary_of E EO d x Hx) as (y & cy & Hy & _ & Hpr & Hly).
  assert (∀ {A} (o : outcome A), (o, R) = (o, set_tl (tl R) R)) as Heta by by destruct R.
  unfold resolve_body. rewrite Hst, (proj2 (N.eqb_neq _ _) Hty). cbn [negb].
  rewrite (run_lift _ _ _ _ Hinfo), Hsel, run_outcome, (run_lift _ _ _ _ Hlt). cbv zeta.
  unfold served in Hs. destruct (lifetime x) eqn:Hl; [done|..].
  - destruct Hs as [[Hi _] ->]. exists (tl R). rewrite <-Heta, (run_read d x) by done.
    unfold exposed. destruct (is_primary_elsewhere x d) eqn:Ha.
    + rewrite (alias_empty E d x R HR Hx Ha). cbn [negb N.eqb nullptr].
      unfold mbind_. rewrite (alias_found d x scope R) by done.
      unfold exposed, mreturn. rewrite Ha, Handle.wrap_direct; [done|by right|].
      pose proof (vat_lt _ _ _ Hx). pose proof (eo_size _ EO). unfold DescriptorTable.size in *. lia.
    + unfold materializationDescId in *. rewrite Ha in *. by rewrite (proj2 (N.eqb_neq _ _) Hi).
  - destruct Hs as (sc & si & -> & Hsc & Hsst & [Hi _] & ->). exists (tl R). rewrite <-Heta.
    rewrite (run_scope _ si) by done. rewrite (run_lift _ _ _ _ Hx).
    unfold mbind_. by rewrite (session_found _ y sc si R HR Hy) by done.
  - destruct Hs as [[Hi _] ->]. rewrite (run_lift _ _ _ _ Hx).
    destruct (thread_local_found _ y scope R HR Hy) as [T HT]; [done..|].
    exists T. unfold mbind_. by rewrite HT.
Qed.

End found.

(** Resolving again is free: after a request for a singleton, session or
    thread-local bean was answered, the same request gives the same handle at once,
    and constructs, dispatches and stores nothing; at most the thread-local lookup
    cache moves. *)
Theorem resolve_idempotent (E : env) (fuel fuel' : nat) (scope : option ptr) (ty : TypeId)
    (nm : NameId) (R R1 : t) (b : Handle.Bean) (info : option ScopedContext)
    (d : DescriptorId) (x : Descriptor) :
  env_ok E → inv E R → valid_scope E scope → (nesting_bound E < fuel)%nat →
  resolve E fuel scope ty nm R = (Ok b, R1) →
  scope_of E scope = Some info → selectCandidate E info ty nm = Ok d →
  DescriptorTable.at_ (descriptors_ E) d = Some x → lifetime x ≠ Prototype →
  ∃ T, resolve E (S fuel') scope ty nm R1 = (Ok b, set_tl T R1).
Proof.
  intros EO HR Hsc Hf He Hinfo Hsel Hx Hp. pose proof (measure_bound E R) as Hm.
  pose proof (resolve_fuel_spec E EO fuel scope ty nm R Hsc HR ltac:(lia)) as H. unfold ends in H.
  rewrite He in H. destruct H as [[H1 _] (info' & d' & x' & Hi & Hs & Hx' & Hserved)].
  assert (info' = info ∧ d' = d) as [-> ->] by (split; congruence).
  assert (x' = x) as -> by congruence.
  destruct fuel as [|fuel]; [lia|]. cbn [resolve] in He |- *. revert He.
  destruct (started_ E) eqn:Hst; [|unfold resolve_body; by rewrite Hst].
  destruct (decide (ty = kInvalidTypeId)) as [->|Hty];
    [unfold resolve_body; by rewrite Hst, N.eqb_refl|].
  intros _. by apply (resolve_body_found E EO _ scope ty nm info d x R1 b R).
Qed.

(** ** Sequences of requests *)

Definition request : Type := option ptr * TypeId * NameId.

(** The caller catches what a request throws; [None] is undefined behaviour. *)
Fixpoint serve (E : env) (fuel : nat) (reqs : list request) (R : t)
    : option (list (Handle.Bean + exn) * t) :=
  match reqs with
  | [] => Some ([], R)
  | (scope, ty, nm) :: reqs' =>
      match resolve E fuel scope ty nm R with
      | (Ok b, R') => '(rs, R'') ← serve E fuel reqs' R'; Some (inl b :: rs, R'')
      | (Throw e, R') => '(rs, R'') ← serve E fuel reqs' R'; Some (inr e :: rs, R'')
      | _ => None
      end
  end.

Lemma resolve_limited E fuel scope ty nm R cap : env_ok E → inv E R → valid_scope E scope →
  (nesting_bound E < fuel)%nat → maxSlots E = Some cap →
  cap ≤ PrototypeStore.kMaxChunks * PrototypeStore.kChunkSize →
  match resolve E fuel scope ty nm R with
  | (Ok _, R') | (Throw _, R') => good E R R'
  | _ => False
  end.
Proof.
  intros EO HR Hsc Hf Hcap Hle. pose proof (measure_bound E R) as Hm.
  pose proof (resolve_fuel_spec E EO fuel scope ty nm R Hsc HR ltac:(lia)) as H. unfold ends in H.
  destruct (resolve E fuel scope ty nm R) as [[b|e| | |] R']; try done.
  - apply H.
  - destruct H as [H1 H2]. rewrite Hcap in H2. lia.
Qed.

Lemma serve_run E fuel reqs R cap :
  env_ok E → inv E R → Forall (λ q : request, valid_scope E q.1.1) reqs →
  (nesting_bound E < fuel)%nat →
  maxSlots E = Some cap → cap ≤ PrototypeStore.kMaxChunks * PrototypeStore.kChunkSize →
  ∃ rs R', serve E fuel reqs R = Some (rs, R') ∧ length rs = length reqs ∧ good E R R'.
Proof.
  intros EO HR Hsc Hf Hcap Hle.
  revert R HR. induction Hsc as [|[[scope ty] nm] reqs Hq _ IH]; intros R HR; simpl.
  { exists [], R. split_and!; [done..|]. by apply good_refl. }
  pose proof (resolve_limited E fuel scope ty nm R cap EO HR Hq Hf Hcap Hle) as H.
  destruct (resolve E fuel scope ty nm R) as [[b|e| | |] R1]; try done;
    destruct (IH R1 (proj1 H)) as (rs & R' & -> & Hl & Hr);
    eexists _, R'; (split_and!; [done|simpl; by f_equal|by eapply good_trans]).
Qed.

(** C4 One life per bean: with a slot limit the chunks can hold, any sequence of
    requests is answered, each by a handle or an exception; no sequence disturbs a
    bean, a claim or a prototype reference that existed before it; a singleton, session
    or thread-local bean that existed is the same object and nothing more happened to
    it, and one that did not has either not been constructed or was constructed exactly
    once, and what it lived through since is a prefix of construction, initialized
    dispatch, post-construct hook and created dispatch on that one object, exceptions of
    constructors and hooks included. *)
Theorem requests_orderly (E : env) (fuel : nat) (reqs : list request) (R : t) (cap : N) :
  env_ok E → inv E R → Forall (λ q, valid_scope E q.1.1) reqs →
  (nesting_bound E < fuel)%nat →
  maxSlots E = Some cap → cap ≤ PrototypeStore.kMaxChunks * PrototypeStore.kChunkSize →
  ∃ rs R', serve E fuel reqs R = Some (rs, R') ∧ length rs = length reqs ∧
    restored E R R' ∧ ∀ k c, kept E k c → once E k c R R'.
Proof.
  intros EO HR Hsc Hf Hcap Hle.
  destruct (serve_run E fuel reqs R cap) as (rs & R' & H1 & H2 & H3); [done..|].
  exists rs, R'. split_and!; [done..|by apply good_restored|]. intros k c. by apply good_once.
Qed.

Lemma requests_orderly_witness :
  let reqs := [(None, 0, 0); (None, 3, 0); (Some Sample.scope, 5, 0); (None, 6, 0);
               (None, 2, 0); (None, 9, 0)] in
  ∃ rs R', serve Sample.app 15 reqs Sample.idle = Some (rs, R') ∧
    length rs = length reqs ∧ restored Sample.app Sample.idle R' ∧
    ∀ k c, kept Sample.app k c → once Sample.app k c Sample.idle R'.
Proof.
  apply (requests_orderly Sample.app 15 _ Sample.idle 1000); [apply Sample.app_ok
    |apply Sample.idle_ok| |by vm_compute; lia|done|done].
  repeat (apply Forall_cons; split; [first [exact I|by eexists]|]). done.
Defined.

End Resolution.
