(* ===== verification/Shutdown.v ===== *)
(** What [stop()] does to the beans.

    While the registry stops, every resolution throws, so hooks and listeners of
    well-behaved user code change nothing and the sweep is a fixed sequence of
    destruction steps: singletons in reverse construction order, prototypes, and the
    thread's beans if the registry knows the thread. *)
From S2P Require Import Prelude Tables Index Stores Freelist Prototypes Listeners Claims Handles Casts Runtime RuntimeFacts Sample Resolution.

Local Open Scope N_scope.

Module Shutdown.
Import Claims Runtime RuntimeFacts.
Local Open Scope ctr_scope.

(** ** User code during the sweep *)

Definition stopped_error : exn := ContextStateError
  "Registry::resolve: context has not been started; call start() before resolving beans.".

(** A program that returns when every resolution throws [stopped_error]. *)
Fixpoint quiet (p : prog) : Prop :=
  match p with
  | Return => True
  | Raise _ => False
  | Resolve _ _ _ k => quiet (k (inr stopped_error))
  end.

(** The destruction hooks and the listeners that hear of destructions. *)
Record quiet_env (E : env) : Prop := {
  qe_hook d c f p : DescriptorTable.coldAt (descriptors_ E) d = Some c → preDestroy c = Some f →
    quiet (call_hook E f None p);
  qe_listener ph ty em cbs bean :
    ph = ListenerStore.phasePreDestroy ∨ ph = ListenerStore.phaseDestroyed →
    ListenerStore.dispatch (listeners_ E) ph ty em = Some cbs →
    Forall (λ cb, quiet (call_listener E cb bean)) cbs
}.

(** ** The destruction steps of one bean *)

Definition death_of (E : env) (x : DescriptorId * ptr) : list event :=
  match DescriptorTable.coldAt (descriptors_ E) x.1 with
  | Some c => (λ s, Life s (Key x.1 nullptr) x.2) <$> death E c
  | None => []
  end.

(** The state with more events. *)
Definition logged (es : list event) (R : t) : t :=
  {| singletons_ := singletons_ R; sessions := sessions R; prototypes_ := prototypes_ R;
     claims := claims R; tl := tl R; registered := registered R;
     published := published R; stack := stack R; nextAddress := nextAddress R;
     trace := trace R ++ es |}.

Lemma logged_nil R : logged [] R = R.
Proof. unfold logged. rewrite app_nil_r. by destruct R. Qed.

Lemma logged_logged es es' R : logged es' (logged es R) = logged (es ++ es') R.
Proof. unfold logged; simpl. by rewrite (assoc_L (++)). Qed.

Section sweep.
Context (E : env) (EO : env_ok E) (QE : quiet_env E) (Hstopped : started_ E = false) (fuel : nat).

Let rec := resolve E (S fuel).

Lemma stopped_resolve scope ty n R : rec scope ty n R = (Throw stopped_error, R).
Proof. unfold rec. cbn [resolve]. unfold resolve_body. by rewrite Hstopped. Qed.

Lemma quiet_prog p R : quiet p → run_prog rec p R = (Ok tt, R).
Proof.
  revert R. induction p as [|m|sc ty nm k IH]; intros R Hp; [done..|]. cbn [run_prog].
  rewrite stopped_resolve. by apply IH.
Qed.

Lemma quiet_callbacks cbs bean R : Forall (λ cb, quiet (call_listener E cb bean)) cbs →
  run_callbacks E rec cbs bean R = (Ok tt, R).
Proof.
  induction 1 as [|cb cbs Hcb _ IH]; [done|]. cbn [run_callbacks]. unfold mbind_.
  by rewrite quiet_prog.
Qed.

Lemma quiet_dispatch ph ty bean em R :
  ph = ListenerStore.phasePreDestroy ∨ ph = ListenerStore.phaseDestroyed →
  dispatch E rec ph ty bean em R = (Ok tt, R).
Proof.
  intros Hp. unfold dispatch.
  destruct (eo_dispatch _ EO ph ty em) as [[cbs Hc] _]; [by destruct Hp as [->| ->]|].
  rewrite (Resolution.run_lift _ _ _ _ Hc). apply quiet_callbacks. by apply (qe_listener _ QE ph ty em).
Qed.

Lemma quiet_hook k c mem R : DescriptorTable.coldAt (descriptors_ E) (key_descId k) = Some c →
  call_preDestroy E (S fuel) k c mem R =
    (Ok tt, logged (match preDestroy c with Some _ => [Life PreDestroyHook k mem] | None => [] end) R).
Proof.
  intros Hc. unfold call_preDestroy. destruct (preDestroy c) as [f|] eqn:Hf; [|by rewrite logged_nil].
  unfold mbind_, emit, mupd. apply quiet_prog. by apply (qe_hook _ QE (key_descId k) c).
Qed.

Lemma has_dispatched ph : ph < ListenerStore.kPhaseCount →
  ListenerStore.hasListeners (listeners_ E) ph = Some (dispatched E ph).
Proof.
  intros Hp. unfold dispatched. by destruct (eo_dispatch _ EO ph 0 0 Hp) as [_ [b ->]].
Qed.

(** One listener phase of the sweep. *)
Lemma quiet_phase (b : bool) s k mem ph ty bean em R :
  ph = ListenerStore.phasePreDestroy ∨ ph = ListenerStore.phaseDestroyed →
  (if b then do! emit s k mem in dispatch E rec ph ty bean em else mreturn tt) R =
    (Ok tt, logged (if b then [Life s k mem] else []) R).
Proof.
  intros Hp. destruct b; [|by rewrite logged_nil].
  unfold mbind_, emit, mupd. by apply quiet_dispatch.
Qed.

Lemma run_bind {A B} (m : M t A) (k : A → M t B) R a R' :
  m R = (Ok a, R') → mbind_ m k R = k a R'.
Proof. unfold mbind_. by intros ->. Qed.

Lemma executeDestructionLifecycle_run d mem em R :
  d < DescriptorTable.size (descriptors_ E) →
  executeDestructionLifecycle E (S fuel) (Key d nullptr) mem em R =
    (Ok tt, logged (death_of E (d, mem)) R).
Proof.
  intros Hd. set (k := Key d nullptr).
  destruct (DescriptorTable.at_is_Some _ d (eo_table _ EO) Hd) as (_ & c & _ & Hc & _).
  unfold executeDestructionLifecycle, noexcept, death_of. cbn [fst snd]. rewrite Hc.
  cbn [key_descId k]. rewrite (Resolution.run_lift _ _ _ _ Hc). cbv zeta.
  set (bean := if negb (em =? _) then _ else _).
  set (pre := dispatched E ListenerStore.phasePreDestroy).
  set (des := dispatched E ListenerStore.phaseDestroyed).
  assert (destroy_object E (S fuel) k c mem bean em R =
    (Ok tt, logged ((if pre then [Life PreDestroy k mem] else []) ++
      (match preDestroy c with Some _ => [Life PreDestroyHook k mem] | None => [] end) ++
      (if des then [Life DestroyedStep k mem] else []) ++ [Life Destructor k mem]) R)) as Ho.
  { unfold destroy_object.
    rewrite (Resolution.run_lift _ _ _ _ (has_dispatched ListenerStore.phasePreDestroy eq_refl)).
    rewrite (Resolution.run_lift _ _ _ _ (has_dispatched ListenerStore.phaseDestroyed eq_refl)).
    fold pre des. destruct (pre || des) eqn:Hpd.
    - rewrite (run_bind _ _ _ _ _ (quiet_phase pre PreDestroy k mem
        ListenerStore.phasePreDestroy _ _ _ _ (or_introl eq_refl))).
      rewrite (run_bind _ _ _ _ _ (quiet_hook k c _ _ Hc)).
      rewrite (run_bind _ _ _ _ _ (quiet_phase des DestroyedStep k mem
        ListenerStore.phaseDestroyed _ _ _ _ (or_intror eq_refl))).
      unfold call_destroy, emit, mupd. change (log ?e ?S) with (logged [e] S).
      by rewrite !logged_logged, <-?(assoc_L (++)).
    - apply orb_false_iff in Hpd as [-> ->].
      rewrite (run_bind _ _ _ _ _ (quiet_hook k c _ _ Hc)).
      unfold call_destroy, emit, mupd. change (log ?e ?S) with (logged [e] S).
      by rewrite logged_logged. }
  rewrite (run_bind _ _ _ _ _ Ho). unfold death, farewell. fold pre des.
  rewrite !fmap_app. destruct (bool_decide _ || _).
  - unfold emit, mupd. change (log ?e ?S) with (logged [e] S). rewrite logged_logged.
    rewrite <-?(assoc_L (++)). by destruct pre, des, (preDestroy c).
  - unfold mreturn. rewrite app_nil_r. by destruct pre, des, (preDestroy c).
Qed.

(** ** The three sweeps *)

Lemma destroy_all_run beans R :
  Forall (λ x, x.1 < DescriptorTable.size (descriptors_ E)) beans →
  destroy_all E (S fuel) beans R = (Ok tt, logged (beans ≫= death_of E) R).
Proof.
  intros Hb. revert R. induction Hb as [|[d p] beans Hd _ IH]; intros R; cbn [destroy_all].
  { by rewrite logged_nil. }
  rewrite (run_bind _ _ _ _ _ (executeDestructionLifecycle_run d p _ R Hd)).
  by rewrite IH, logged_logged.
Qed.

(** The stored singletons, in the given order. *)
Definition stored_beans (order : list DescriptorId) (R : t) : list (DescriptorId * ptr) :=
  (λ d, (d, SingletonStore.value (singletons_ R) d)) <$> order.

Lemma destroy_singletons_run order R :
  SingletonStore.wf (singletons_ R) →
  Forall (λ d, d < DescriptorTable.size (descriptors_ E) ∧
               SingletonStore.value (singletons_ R) d ≠ nullptr) order →
  destroy_singletons E (S fuel) order R =
    (Ok tt, logged (stored_beans order R ≫= death_of E) R).
Proof.
  intros Hwf Ho. assert (∀ es, destroy_singletons E (S fuel) order (logged es R) =
    (Ok tt, logged (es ++ (stored_beans order R ≫= death_of E)) R)) as H.
  2:{ specialize (H []). by rewrite logged_nil in H. }
  induction Ho as [|d order [Hd Hv] _ IH]; intros es; cbn [destroy_singletons].
  { by rewrite app_nil_r. }
  assert (read_singleton d (logged es R) =
    (Ok (SingletonStore.value (singletons_ R) d), logged es R)) as Hr.
  { unfold read_singleton, find_singleton, lift. cbn [logged singletons_].
    by rewrite (SingletonStore.find_value _ d Hwf). }
  rewrite (run_bind _ _ _ _ _ Hr), (proj2 (N.eqb_neq _ _) Hv). cbn [negb].
  rewrite (run_bind _ _ _ _ _ (executeDestructionLifecycle_run d _ _ _ Hd)).
  rewrite logged_logged, IH. by rewrite <-(assoc_L (++)).
Qed.

(** No slot from [n] on holds an object. *)
Definition cleared (n : N) (X : PrototypeStore.sys) : Prop :=
  ∀ j c, n ≤ j → PrototypeStore.cellAt (PrototypeStore.store X) j = Some c →
    PrototypeStore.memory c = nullptr.

Lemma sweep_step s X L live :
  PrototypeStore.inv X L live → PrototypeStore.pending X = ∅ → cleared (s + 1) X →
  ∃ X', PrototypeStore.exec (maxSlots E) (PrototypeStore.OpSweep s) X = Some X' ∧
    (∃ L' live', PrototypeStore.inv X' L' live') ∧ PrototypeStore.pending X' = ∅ ∧
    PrototypeStore.created X' = PrototypeStore.created X ∧
    PrototypeStore.destroyed X' = PrototypeStore.destroyed X ++ PrototypeStore.destroy_log
      (PrototypeStore.takeSlotMetaForDestruction s (PrototypeStore.store X)).1 ∧
    cleared s X'.
Proof.
  intros Hinv Hp Hc.
  destruct (PrototypeStore.sweep_ok (maxSlots E) s X L live Hinv) as (X' & L' & live' & He & Hinv').
  { rewrite Hp. apply not_elem_of_empty. }
  exists X'. split; [done|]. split; [by exists L', live'|].
  pose proof (PrototypeStore.i_chunks _ _ _ (PrototypeStore.i_core _ _ _ Hinv)) as Hcw.
  cbn [PrototypeStore.exec] in He. revert He. unfold PrototypeStore.takeSlotMetaForDestruction.
  destruct (N.leb_spec (PrototypeStore.slotCount_ (PrototypeStore.store X)) s) as [Hs|Hs].
  { intros [= <-]. split_and!; [done..|]. intros j c Hj Hcell. simpl in Hcell.
    by rewrite (PrototypeStore.cw_fresh _ Hcw j c) by (done || lia). }
  destruct (PrototypeStore.cellAt_exists _ _ Hcw Hs) as [c0 Hc0]. rewrite Hc0.
  intros [= <-]. split_and!; [done..|]. intros j c Hj. simpl.
  rewrite PrototypeStore.cellAt_setCell by by eexists.
  case_decide as Hd; [by intros [= <-]|]. intros Hcell. eapply Hc; [|done]. lia.
Qed.

Lemma created_all X L live : PrototypeStore.inv X L live → cleared 0 X →
  PrototypeStore.created X ≡ₚ PrototypeStore.destroyed X.
Proof.
  intros Hinv Hc. rewrite (PrototypeStore.i_log _ _ _ Hinv).
  assert (live = ∅) as ->.
  { apply map_empty. intros s. destruct (live !! s) as [x|] eqn:Hx; [|done].
    apply (PrototypeStore.i_live _ _ _ (PrototypeStore.i_core _ _ _ Hinv)) in Hx
      as (_ & c & Hcell & Hm & _). destruct Hm. eapply Hc; [|done]. lia. }
  by rewrite map_to_list_empty, app_nil_r.
Qed.

Lemma sweep_prototypes_run n : ∀ R,
  (∃ L live, PrototypeStore.inv (prototypes_ R) L live) →
  PrototypeStore.pending (prototypes_ R) = ∅ →
  Forall (λ x, x.1 < DescriptorTable.size (descriptors_ E))
    (PrototypeStore.created (prototypes_ R)) →
  cleared (N.of_nat n) (prototypes_ R) →
  ∃ X' swept, sweep_prototypes E (S fuel) n R =
      (Ok tt, logged (swept ≫= death_of E) (set_prototypes X' R)) ∧
    PrototypeStore.destroyed X' = PrototypeStore.destroyed (prototypes_ R) ++ swept ∧
    PrototypeStore.created X' ≡ₚ PrototypeStore.destroyed X' ∧
    PrototypeStore.created X' = PrototypeStore.created (prototypes_ R).
Proof.
  induction n as [|n IH]; intros R (L & live & Hinv) Hp Hrange Hc.
  { exists (prototypes_ R), []. split_and!; [|by rewrite app_nil_r|by eapply created_all|done].
    cbn [sweep_prototypes]. rewrite logged_nil. by destruct R. }
  cbn [sweep_prototypes]. cbv zeta.
  destruct (sweep_step (N.of_nat n) (prototypes_ R) L live Hinv Hp) as
    (X1 & He & Hinv1 & Hp1 & Hcr & Hde & Hc1).
  { intros j c Hj. apply Hc. lia. }
  set (meta := (PrototypeStore.takeSlotMetaForDestruction _ _).1) in *.
  unfold mbind_ at 1. unfold mbind_ at 1. unfold proto_op at 1, lift_state at 1. rewrite He.
  cbn [mbind option_bind]. set (R1 := set_prototypes X1 R).
  assert ((if negb (meta.1 =? nullptr)
    then executeDestructionLifecycle E (S fuel) (Key meta.2 nullptr) meta.1 ListenerStore.kNoScope
    else mreturn tt) R1 =
    (Ok tt, logged (PrototypeStore.destroy_log meta ≫= death_of E) R1)) as Hd.
  { unfold PrototypeStore.destroy_log in *. destruct (meta.1 =? nullptr) eqn:Hm; cbn [negb].
    { by rewrite logged_nil. }
    rewrite executeDestructionLifecycle_run; [by rewrite bind_cons, app_nil_r|].
    destruct Hinv1 as (L1 & live1 & Hinv1). pose proof (PrototypeStore.i_log _ _ _ Hinv1) as Hlog.
    rewrite Hcr, Hde, <-(assoc_L (++)) in Hlog. rewrite Forall_forall in Hrange.
    apply (Hrange (meta.2, meta.1)). rewrite Hlog. apply elem_of_app. right. by left. }
  rewrite (run_bind _ _ _ _ _ Hd).
  destruct (IH (logged (PrototypeStore.destroy_log meta ≫= death_of E) R1)) as
    (X' & swept & Hrun & HX1 & HX2 & HX3); [done|done|simpl; by rewrite Hcr|done|].
  exists X', (PrototypeStore.destroy_log meta ++ swept). split_and!; [|simpl in HX1..|done|].
  - rewrite Hrun, bind_app.
    change (set_prototypes X' (logged ?es R1)) with (logged es (set_prototypes X' R)).
    by rewrite logged_logged.
  - by rewrite HX1, Hde, <-(assoc_L (++)).
  - rewrite HX3. exact Hcr.
Qed.

End sweep.
(** ** [stop()] *)

Lemma env_ok_stopped b E : env_ok E → env_ok (with_started b E).
Proof.
  intros H. assert (∀ p, prog_ok E p → prog_ok (with_started b E) p) as Hp.
  { induction p as [| |sc ty n k IH]; [done|done|]. intros [Hs Hk]. split; [exact Hs|]. eauto. }
  destruct H as [H1 H2 H3 H4 H5 H6 H7 H8 H9 H10 H11 H12 H13 H14 H15].
  split; try assumption; intros *; try intros Hv; apply Hp; eauto.
Qed.

(** The thread's beans of this registry, in construction order. *)
Definition thread_beans (E : env) (R : t) : list (DescriptorId * ptr) :=
  (λ d, (d, ThreadLocalStore.value (tl R) (registryId_ E) d)) <$>
    ThreadLocalStore.order_of (tl R) (registryId_ E).

Lemma collect_thread_run E R : ThreadLocalStore.wf (tl R) →
  ∃ T, collect_thread E R = (Ok (thread_beans E R), set_tl T R) ∧
    ∀ d, ThreadLocalStore.value T (registryId_ E) d = nullptr.
Proof.
  intros Hwf. unfold collect_thread, thread_beans, ThreadLocalStore.collectFor.
  pose proof (ThreadLocalStore.eraseRegistry_spec (registryId_ E) (tl R) Hwf) as (_ & Hv & _).
  unfold ThreadLocalStore.order_of. pose proof (ThreadLocalStore.wf_order _ Hwf (registryId_ E)) as Ho.
  unfold ThreadLocalStore.value, ThreadLocalStore.order_of in *.
  destruct (ThreadLocalStore.registries (tl R) !! registryId_ E) as [e|] eqn:He.
  - exists (ThreadLocalStore.eraseRegistry (registryId_ E) (tl R)). split.
    + simpl. by rewrite ThreadLocalStore.collect_entry_live by
        (apply Forall_forall; intros d Hd; by apply Ho).
    + intros d. specialize (Hv (registryId_ E) d). by rewrite decide_True in Hv.
  - exists (tl R). split; [done|]. intros d. by rewrite He.
Qed.

(** The objects [stop()] destroys, in its order; [swept] are the prototypes. *)
Definition sweep_order (E : env) (swept : list (DescriptorId * ptr)) (R : t)
    : list (DescriptorId * ptr) :=
  stored_beans (reverse (SingletonStore.insertionOrder (singletons_ R))) R ++ swept ++
  (if published R then reverse (thread_beans E R) else []).

Lemma in_table E l d : of_lifetime E l d → d < DescriptorTable.size (descriptors_ E).
Proof. intros (x & Hx & _). exact (vat_lt _ _ _ Hx). Qed.

Lemma stored_in_table E R : inv E R →
  Forall (λ d, d < DescriptorTable.size (descriptors_ E) ∧
               SingletonStore.value (singletons_ R) d ≠ nullptr)
    (reverse (SingletonStore.insertionOrder (singletons_ R))).
Proof.
  intros HR. apply Forall_forall. intros d Hd. rewrite elem_of_reverse in Hd.
  apply (SingletonStore.wf_order _ (i_singletons _ _ HR)) in Hd. split; [|done].
  eapply in_table, (i_stored _ _ HR), Hd.
Qed.

Lemma thread_in_table E R : inv E R →
  Forall (λ x, x.1 < DescriptorTable.size (descriptors_ E)) (reverse (thread_beans E R)).
Proof.
  intros HR. apply Forall_forall. intros [d p] Hd. rewrite elem_of_reverse in Hd.
  unfold thread_beans in Hd. apply list_elem_of_fmap in Hd as (d' & [= -> ->] & Hd). simpl.
  apply (ThreadLocalStore.wf_order _ (i_tl _ _ HR)) in Hd.
  eapply in_table, (i_local _ _ HR), Hd.
Qed.

(** The first part: singletons, then prototypes. *)
Lemma stopRegistryOwnedBeans_run E fuel R :
  env_ok E → quiet_env E → started_ E = true → inv E R →
  PrototypeStore.pending (prototypes_ R) = ∅ →
  ∃ X swept,
    stopRegistryOwnedBeans E (S fuel) R =
      (Ok true, logged ((stored_beans (reverse (SingletonStore.insertionOrder (singletons_ R))) R
                         ++ swept) ≫= death_of E)
                  (set_prototypes X (set_singletons SingletonStore.empty R))) ∧
    PrototypeStore.created X = PrototypeStore.created (prototypes_ R) ∧
    PrototypeStore.created (prototypes_ R) ≡ₚ PrototypeStore.destroyed (prototypes_ R) ++ swept.
Proof.
  intros EO QE Hst HR Hp. set (E' := with_started false E).
  assert (env_ok E') as EO' by by apply env_ok_stopped.
  assert (quiet_env E') as QE' by (destruct QE; by split).
  set (order := reverse (SingletonStore.insertionOrder (singletons_ R))).
  set (R1 := logged (stored_beans order R ≫= death_of E') R).
  set (R2 := set_singletons SingletonStore.empty R1).
  pose proof (i_protos _ _ HR) as [(L & live & Hinv) _ [Hlb _]].
  pose proof (PrototypeStore.i_chunks _ _ _ (PrototypeStore.i_core _ _ _ Hinv)) as Hcw.
  destruct (sweep_prototypes_run E' EO' QE' eq_refl fuel
    (N.to_nat (PrototypeStore.slotCount_ (PrototypeStore.store (prototypes_ R)))) R2)
    as (X & swept & Hrun & HX1 & HX2 & HX3).
  { by exists L, live. }
  { done. }
  { eapply Forall_impl; [exact Hlb|]. intros x. apply (in_table E). }
  { intros j c Hj Hc. rewrite N2Nat.id in Hj.
    by rewrite (PrototypeStore.cw_fresh _ Hcw j c Hj Hc). }
  change (prototypes_ R2) with (prototypes_ R) in HX1, HX3.
  exists X, swept. split_and!; [|done|by rewrite <-HX3, HX2, HX1].
  unfold stopRegistryOwnedBeans. rewrite Hst. cbn [negb]. fold E'.
  erewrite run_bind by reflexivity. fold order.
  erewrite run_bind by (apply (destroy_singletons_run E' EO' QE' eq_refl fuel order);
    [apply HR|by apply (stored_in_table E)]).
  erewrite run_bind by reflexivity. erewrite run_bind by reflexivity.
  erewrite run_bind by exact Hrun. unfold mreturn. f_equal.
  rewrite bind_app. unfold R2, R1.
  change (set_prototypes X (set_singletons ?S0 (logged ?es R)))
    with (logged es (set_prototypes X (set_singletons S0 R))).
  by rewrite logged_logged.
Qed.

Lemma stop_run (E : env) (fuel : nat) (R : t) :
  env_ok E → quiet_env E → started_ E = true → inv E R →
  PrototypeStore.pending (prototypes_ R) = ∅ →
  ∃ R' swept,
    stop E (S fuel) R = (Ok tt, R') ∧
    trace R' = trace R ++ (sweep_order E swept R ≫= death_of E) ∧
    PrototypeStore.created (prototypes_ R') = PrototypeStore.created (prototypes_ R) ∧
    PrototypeStore.created (prototypes_ R) ≡ₚ PrototypeStore.destroyed (prototypes_ R) ++ swept ∧
    singletons_ R' = SingletonStore.empty ∧
    (published R = true → ∀ d, ThreadLocalStore.value (tl R') (registryId_ E) d = nullptr).
Proof.
  intros EO QE Hst HR Hp.
  destruct (stopRegistryOwnedBeans_run E fuel R EO QE Hst HR Hp) as (X & swept & Hrun & Hc & Hperm).
  set (R1 := logged _ _) in Hrun.
  assert (env_ok (with_started false E)) as EO' by by apply env_ok_stopped.
  assert (quiet_env (with_started false E)) as QE' by (destruct QE; by split).
  destruct (collect_thread_run E R1 (i_tl _ _ HR)) as (T & HT & Hnone).
  assert (thread_beans E R1 = thread_beans E R) as Htb by done.
  assert (∃ R2, (let! tlToDestroy := (if published R then collect_thread E else mreturn []) in
      do! mupd (λ R, set_registered (registered R) false R) in
      destroy_all (with_started false E) (S fuel) (reverse tlToDestroy)) R1 = (Ok tt, R2) ∧
    trace R2 = trace R1 ++ ((if published R then reverse (thread_beans E R) else []) ≫= death_of E) ∧
    prototypes_ R2 = X ∧ singletons_ R2 = SingletonStore.empty ∧
    (published R = true → ∀ d, ThreadLocalStore.value (tl R2) (registryId_ E) d = nullptr))
    as (R2 & Hrun2 & Ht & HX & Hs & Hn).
  { destruct (published R).
    - erewrite run_bind by exact HT. erewrite run_bind by reflexivity. rewrite Htb.
      eexists. split; [apply (destroy_all_run _ EO' QE' eq_refl fuel);
        by apply (thread_in_table E)|]. done.
    - erewrite run_bind by reflexivity. erewrite run_bind by reflexivity.
      eexists. split; [done|]. split_and!; [|done..]. cbn. by rewrite app_nil_r. }
  exists R2, swept. split_and!; [|rewrite Ht|by rewrite HX|done..].
  - unfold stop. erewrite run_bind by exact Hrun. cbv iota zeta.
    erewrite run_bind by reflexivity. exact Hrun2.
  - unfold R1, sweep_order. cbn. rewrite !bind_app, <-!(assoc_L (++)). done.
Qed.

(** [stop()] destroys everything it owns, once and in order: from any state
    between requests, with user code that does not let exceptions escape from the
    destruction callbacks, [stop()] returns; it runs, for each stored singleton in
    reverse construction order, then for each live prototype, then for each bean of
    the thread if the registry knows the thread, exactly the steps pre-destroy
    dispatch, pre-destroy hook, destroyed dispatch, destructor and deallocation that
    apply to the bean; the prototypes destroyed are those created and not destroyed
    before, the singleton store is empty afterwards and the thread's beans of this
    registry are gone. *)
Theorem stop_destroys (E : env) (fuel : nat) (R : t) :
  env_ok E → quiet_env E → started_ E = true → inv E R →
  PrototypeStore.pending (prototypes_ R) = ∅ →
  ∃ R' swept,
    stop E (S fuel) R = (Ok tt, R') ∧
    trace R' = trace R ++ (sweep_order E swept R ≫= death_of E) ∧
    PrototypeStore.created (prototypes_ R') = PrototypeStore.created (prototypes_ R) ∧
    PrototypeStore.created (prototypes_ R) ≡ₚ PrototypeStore.destroyed (prototypes_ R) ++ swept ∧
    singletons_ R' = SingletonStore.empty ∧
    (published R = true → ∀ d, ThreadLocalStore.value (tl R') (registryId_ E) d = nullptr).
Proof. intros EO QE Hst HR Hp. by apply stop_run. Qed.

Lemma sample_quiet : quiet_env Sample.app.
Proof. split; [done|]. intros ph ty em cbs bean _ _. by apply Forall_true. Qed.

(** ** Whole lives *)

Lemma life_bind k (xs : list (DescriptorId * ptr)) (f : DescriptorId * ptr → list event) :
  life k (xs ≫= f) = xs ≫= (λ x, life k (f x)).
Proof.
  induction xs as [|x xs IH]; [done|]. by rewrite !bind_cons, life_app, IH.
Qed.

Lemma life_death_same E d p c : DescriptorTable.coldAt (descriptors_ E) d = Some c →
  life (Key d nullptr) (death_of E (d, p)) = (λ s, (s, p)) <$> death E c.
Proof.
  intros Hc. unfold death_of. simpl. rewrite Hc. induction (death E c) as [|s l IH]; [done|].
  rewrite !fmap_cons, <-IH. unfold life. simpl. by rewrite decide_True.
Qed.

Lemma life_death_other E d p k : d ≠ key_descId k → life k (death_of E (d, p)) = [].
Proof.
  intros Hd. unfold death_of. simpl. destruct (DescriptorTable.coldAt _ d) as [c|]; [|done].
  induction (death E c) as [|s l IH]; [done|]. rewrite fmap_cons. unfold life in *. simpl.
  rewrite decide_False; [done|]. by intros <-.
Qed.

Lemma life_deaths_none E k beans : Forall (λ x, x.1 ≠ key_descId k) beans →
  life k (beans ≫= death_of E) = [].
Proof.
  induction 1 as [|[d p] beans Hd _ IH]; [done|].
  rewrite bind_cons, life_app, IH, app_nil_r. by apply life_death_other.
Qed.

Lemma life_deaths_one E d p c beans : DescriptorTable.coldAt (descriptors_ E) d = Some c →
  NoDup beans.*1 → (d, p) ∈ beans →
  life (Key d nullptr) (beans ≫= death_of E) = (λ s, (s, p)) <$> death E c.
Proof.
  intros Hc Hnd Hin. apply list_elem_of_split in Hin as (l1 & l2 & ->).
  rewrite fmap_app, fmap_cons in Hnd. apply NoDup_app in Hnd as (_ & H1 & H2).
  apply NoDup_cons in H2 as [H2 _]. simpl in *.
  rewrite bind_app, bind_cons, !life_app, (life_death_same _ _ _ _ Hc).
  rewrite !life_deaths_none, app_nil_r; [done|..]; apply Forall_forall; intros x Hx Heq; simpl in Heq.
  - apply H2. rewrite <-Heq. by apply list_elem_of_fmap_2.
  - apply (H1 x.1); [by apply list_elem_of_fmap_2|]. rewrite Heq. by left.
Qed.

Lemma other_lifetime E l l' beans k :
  Forall (λ x : DescriptorId * ptr, of_lifetime E l x.1) beans → of_lifetime E l' (key_descId k) → l ≠ l' →
  Forall (λ x : DescriptorId * ptr, x.1 ≠ key_descId k) beans.
Proof.
  intros Hb (x & Hx & Hl) Hne. eapply Forall_impl; [exact Hb|].
  intros [d p] (x' & Hx' & Hl') Heq. simpl in *. subst. congruence.
Qed.

Section lives.
Context (E : env) (R : t) (swept : list (DescriptorId * ptr)) (HR : inv E R).
Hypothesis Hswept :
  PrototypeStore.created (prototypes_ R) ≡ₚ PrototypeStore.destroyed (prototypes_ R) ++ swept.

Let singles := stored_beans (reverse (SingletonStore.insertionOrder (singletons_ R))) R.

Lemma singles_lifetime : Forall (λ x : DescriptorId * ptr, of_lifetime E Singleton x.1) singles.
Proof.
  apply Forall_forall. intros x (d & -> & Hd)%list_elem_of_fmap. simpl.
  rewrite elem_of_reverse in Hd.
  by apply (i_stored _ _ HR), (SingletonStore.wf_order _ (i_singletons _ _ HR)).
Qed.

Lemma swept_lifetime : Forall (λ x : DescriptorId * ptr, of_lifetime E Prototype x.1) swept.
Proof.
  pose proof (lb_created _ _ (po_labels _ _ (i_protos _ _ HR))) as H.
  rewrite Hswept in H. by apply Forall_app in H as [_ H].
Qed.

Lemma thread_lifetime :
  Forall (λ x : DescriptorId * ptr, of_lifetime E ThreadLocal x.1) (reverse (thread_beans E R)).
Proof.
  apply Forall_forall. intros x Hx. rewrite elem_of_reverse in Hx.
  apply list_elem_of_fmap in Hx as (d & -> & Hd). simpl.
  by apply (i_local _ _ HR), (ThreadLocalStore.wf_order _ (i_tl _ _ HR)).
Qed.

Lemma singles_nodup : NoDup singles.*1.
Proof.
  unfold singles, stored_beans. rewrite <-list_fmap_compose.
  rewrite (list_fmap_ext _ id) by done. rewrite list_fmap_id, reverse_Permutation.
  apply (SingletonStore.wf_nodup _ (i_singletons _ _ HR)).
Qed.

Lemma thread_nodup : NoDup (reverse (thread_beans E R)).*1.
Proof.
  rewrite fmap_reverse, reverse_Permutation. unfold thread_beans. rewrite <-list_fmap_compose.
  rewrite (list_fmap_ext _ id) by done. rewrite list_fmap_id.
  apply (ThreadLocalStore.wf_nodup _ (i_tl _ _ HR)).
Qed.

(** What the sweep adds to the life of a bean without a scope. *)
Definition death_life (d : DescriptorId) (c : DescriptorCold) : list (step_kind * ptr) :=
  let p := instance_of E R (Key d nullptr) in
  if decide (p = nullptr) then [] else (λ s, (s, p)) <$> death E c.

Lemma deaths_of_lifetime l beans d c :
  Forall (λ x : DescriptorId * ptr, of_lifetime E l x.1) beans → NoDup beans.*1 →
  DescriptorTable.coldAt (descriptors_ E) d = Some c →
  (∀ p, (d, p) ∈ beans ↔ p = instance_of E R (Key d nullptr) ∧ p ≠ nullptr) →
  life (Key d nullptr) (beans ≫= death_of E) = death_life d c.
Proof.
  intros Hl Hnd Hc Hin. unfold death_life. case_decide as Hp.
  - apply life_deaths_none, Forall_forall. intros [d' p] Hx Heq. simpl in Heq. subst d'.
    apply Hin in Hx as [-> ?]. done.
  - apply (life_deaths_one E d); [done|done|]. by apply Hin.
Qed.

Lemma sweep_life_singleton d c :
  of_lifetime E Singleton d → DescriptorTable.coldAt (descriptors_ E) d = Some c →
  life (Key d nullptr) (sweep_order E swept R ≫= death_of E) = death_life d c.
Proof.
  intros Hd Hc. unfold sweep_order. rewrite !bind_app, !life_app.
  rewrite (life_deaths_none E _ swept) by
    (eapply (other_lifetime E Prototype Singleton); [apply swept_lifetime|done|done]).
  rewrite (life_deaths_none E _ (if published R then _ else [])), !app_nil_r.
  2:{ destruct (published R); [|done].
      eapply (other_lifetime E ThreadLocal Singleton); [apply thread_lifetime|done|done]. }
  apply (deaths_of_lifetime Singleton); [apply singles_lifetime|apply singles_nodup|done|].
  intros p. destruct Hd as (x & Hx & Hl). unfold instance_of. simpl. rewrite Hx, Hl.
  unfold stored_beans. rewrite list_elem_of_fmap. split.
  - intros (d' & [= <- ->] & Hd). rewrite elem_of_reverse in Hd. split; [done|].
    by apply (SingletonStore.wf_order _ (i_singletons _ _ HR)).
  - intros [-> Hp]. exists d. split; [done|]. rewrite elem_of_reverse.
    by apply (SingletonStore.wf_order _ (i_singletons _ _ HR)).
Qed.

Lemma sweep_life_thread_local d c :
  of_lifetime E ThreadLocal d → DescriptorTable.coldAt (descriptors_ E) d = Some c →
  life (Key d nullptr) (sweep_order E swept R ≫= death_of E) =
    if published R then death_life d c else [].
Proof.
  intros Hd Hc. unfold sweep_order. rewrite !bind_app, !life_app.
  rewrite (life_deaths_none E _ swept) by
    (eapply (other_lifetime E Prototype ThreadLocal); [apply swept_lifetime|done|done]).
  rewrite life_deaths_none by
    (eapply (other_lifetime E Singleton ThreadLocal); [apply singles_lifetime|done|done]).
  destruct (published R); [|done]. cbn [app].
  apply (deaths_of_lifetime ThreadLocal); [apply thread_lifetime|apply thread_nodup|done|].
  intros p. destruct Hd as (x & Hx & Hl). unfold instance_of. simpl. rewrite Hx, Hl.
  rewrite elem_of_reverse. unfold thread_beans. rewrite list_elem_of_fmap. split.
  - intros (d' & [= <- ->] & Hd). split; [done|].
    by apply (ThreadLocalStore.wf_order _ (i_tl _ _ HR)).
  - intros [-> Hp]. exists d. split; [done|].
    by apply (ThreadLocalStore.wf_order _ (i_tl _ _ HR)).
Qed.

End lives.



(** The sample application serves [reqs] and stops: whether the thread's store was
    published, and the life of the thread-local bean. *)
Definition served_and_stopped (reqs : list (option ptr * TypeId * NameId))
    : option (bool * list (step_kind * ptr)) :=
  match Resolution.serve Sample.app 15 reqs Sample.idle with
  | Some (_, R1) => Some (published R1, life (Key 6 nullptr) (trace (stop Sample.app 15 R1).2))
  | None => None
  end.

(** A thread's beans can be missed: when the first thing a thread does with the
    registry is to claim a singleton, it counts as registered without its store being
    published; a thread-local bean it makes afterwards is fully constructed, and
    [stop()] returns without destroying it, although the same requests in the other
    order destroy it. *)
Theorem thread_local_missed :
  let built := [(Constructed, 4096); (Initialized, 4096); (PostConstruct, 4096); (Created, 4096)] in
  ∃ p built' died,
    served_and_stopped [(None, 1, 0); (None, 6, 0)] = Some (false, built') ∧
    built' = (λ x, (x.1, p)) <$> built ∧
    served_and_stopped [(None, 6, 0); (None, 1, 0)] = Some (true, built ++ died) ∧
    died = [(PreDestroyHook, 4096); (DestroyedStep, 4096); (Destructor, 4096); (Deallocated, 4096)].
Proof. exists 4097. eexists _, _. by vm_compute. Qed.

End Shutdown.
