(* ===== verification/Ready.v ===== *)
(** From [start()] to the run-time half: the registry a start leaves satisfies what
    [Runtime] relies on. *)
From S2P Require Import Prelude Tables Interning Index Stores Startup StartupFacts StartupChecks Started SampleStart Opened Freelist Prototypes Listeners Claims Handles Casts Runtime RuntimeFacts Sample Resolution.

Local Open Scope N_scope.

Module Ready.
Import Startup StartupFacts StartupChecks Started Opened Claims Runtime RuntimeFacts Resolution.

(** ** The started application *)

(** The registry part of an environment, taken from the started registry. *)
Definition env_of (R : Startup.t) (E : env) : env :=
  {| started_ := Startup.started_ R; descriptors_ := Startup.descriptors_ (tables_ R);
     typeIndex_ := Startup.typeIndex_ (tables_ R); defaults_ := Startup.defaults_ R;
     hasAnyDefault_ := hasAnyDefault_ E; listeners_ := listeners_ E;
     registryId_ := registryId_ E; threadToken_ := threadToken_ E; maxSlots := maxSlots E;
     scopes_ := scopes_ E; call_construct := call_construct E;
     call_allocAndConstruct := call_allocAndConstruct E; call_hook := call_hook E;
     call_listener := call_listener E; call_adjust := call_adjust E |}.

(** What a thread finds after [start()]: scopes are started with a store of
    [sessionSlotCount_] empty slots ([ScopedContext::start]); nothing else is built. *)
Definition state_of (R : Startup.t) (scopes : gmap ptr ScopedContext) (address : ptr)
    : Runtime.t :=
  {| singletons_ := Startup.singletons_ R;
     sessions := (λ _, SessionStore.resize (sessionSlotCount_ R) SessionStore.empty) <$> scopes;
     prototypes_ := PrototypeStore.start; claims := Claims.empty;
     tl := ThreadLocalStore.empty; registered := false; published := false; stack := [];
     nextAddress := address; trace := [] |}.

(** What the descriptor generator guarantees: no contribution claims to be a runtime
    binding, and an exposed alias refers to a bean of its own lifetime that is not an
    alias. *)
Record generated (cds : list ContributedDescriptor) : Prop := {
  gn_origin cd : cd ∈ cds → cd_origin cd ≠ RuntimeBinding;
  gn_alias cd cd' : cd ∈ cds → cd' ∈ cds → alias_ref cd = Some (cd_identity cd') →
    cd_isExposedAlias cd' = false ∧ cd_lifetime cd' = cd_lifetime cd
}.

(** Before the start only [bindSession] has made descriptors. *)
Definition only_sessions (R : Startup.t) : Prop := ∀ i x,
  DescriptorTable.at_ (Startup.descriptors_ (tables_ R)) i = Some x →
  lifetime x = Session ∧ primaryDescriptor x = i.

(** The rest of the environment: listeners, scopes and user code. *)
Record host_ok (E : env) : Prop := {
  ho_scopeName sc info : scopes_ E !! sc = Some info → scopeNameId_ info < two32;
  ho_dispatch ph ty sc : ph < ListenerStore.kPhaseCount →
    is_Some (ListenerStore.dispatch (listeners_ E) ph ty sc) ∧
    is_Some (ListenerStore.hasListeners (listeners_ E) ph);
  ho_token : threadToken_ E ≠ Tokens.kNoMaterializationThreadToken;
  ho_construct f sc p : valid_scope E sc → prog_ok E (call_construct E f sc p);
  ho_allocAndConstruct f sc : valid_scope E sc → prog_ok E (call_allocAndConstruct E f sc);
  ho_hook f sc p : valid_scope E sc → prog_ok E (call_hook E f sc p);
  ho_listener cb bean : prog_ok E (call_listener E cb bean)
}.

(** A thread that has built nothing: running scopes have stores of [slots] empty slots,
    the other scopes' stores hold nothing. *)
Record idle (E : env) (slots : N) (S : Runtime.t) : Prop := {
  id_sessions sc ss i : sessions S !! sc = Some ss →
    InstanceArray.cur (SessionStore.instances_ ss) i = nullptr;
  id_running sc info : scopes_ E !! sc = Some info → scopeState_ info ≠ Stopped →
    ∃ ss, sessions S !! sc = Some ss ∧ SessionStore.wf ss ∧
      InstanceArray.size (SessionStore.instances_ ss) = slots ∧ SessionStore.insertionOrder ss = [];
  id_protos : prototypes_ S = PrototypeStore.start;
  id_claims : claims S = Claims.empty;
  id_tl : tl S = ThreadLocalStore.empty;
  id_address : nextAddress S ≠ nullptr;
  id_trace : trace S = []
}.

Lemma prog_ok_env E E' p : scopes_ E' = scopes_ E → prog_ok E p → prog_ok E' p.
Proof.
  intros He. induction p as [|c|sc ty n k IH]; [done|done|]. intros [Hs Hk]. split.
  - revert Hs. unfold valid_scope. by rewrite He.
  - intros r. apply IH, Hk.
Qed.

Section ready.
Context `{SS : StdSort} (noop : FnPtr) (contextTypeInfo : TypeInfo) (contextAlign : N).
Context (ctx : ptr) (R R' : Startup.t) (bound : list StartBound) (T : tables) (ty : TypeId)
  (T1 T2 : tables).
Hypothesis HR : unstarted R.
Hypothesis O : opened noop contextTypeInfo contextAlign ctx R R' bound T ty T1 T2.
Hypothesis Hroom : enough_room R.
Hypothesis Hctx : ctx ≠ nullptr.
Hypothesis Hac : acceptable (tables_ R) (mjoin (pending_ R)) (pendingRuntimeSingletons_ R).
Hypothesis Hgen : generated (mjoin (pending_ R)).
Hypothesis Hold : only_sessions R.

Let D' := Startup.descriptors_ (tables_ R').
Let seen := distinct [] (mjoin (pending_ R)).
Let base := DescriptorTable.size (Startup.descriptors_ (tables_ R)).
Let m := DescriptorTable.size (Startup.descriptors_ T).

(** ** The descriptors, by where they come from *)

Inductive source (i : DescriptorId) (x : Descriptor) (c : DescriptorCold) : Prop :=
| from_session : i < base → lifetime x = Session → primaryDescriptor x = i →
    origin c = RuntimeBinding → source i x c
| from_contribution (L : links) (j : N) (cd : ContributedDescriptor) :
    graph noop (tables_ R) (mjoin (pending_ R)) (pendingRuntimeSingletons_ R) bound L T →
    i = base + j → vat seen j = Some cd → lifetime x = cd_lifetime cd →
    primaryDescriptor x = prim_of (tables_ R) L j cd → origin c = cd_origin cd → source i x c
| from_binding (b : StartBound) : b ∈ bound → sb_descId b = i → lifetime x = Singleton →
    primaryDescriptor x = i → origin c = RuntimeBinding → source i x c
| from_context : i = m → lifetime x = Singleton → primaryDescriptor x = kInvalidDescriptorId →
    origin c = RuntimeBinding → source i x c.

Lemma final_source i x c : DescriptorTable.at_ D' i = Some x →
  DescriptorTable.coldAt D' i = Some c → source i x c.
Proof.
  unfold D'. rewrite (final_at _ _ _ _ _ _ _ _ _ _ _ O), (final_cold _ _ _ _ _ _ _ _ _ _ _ O).
  fold m. case_decide as Hm.
  { intros [= <-] [= <-]. by apply from_context. }
  destruct (DescriptorTable.at_ (Startup.descriptors_ T) i) as [y|] eqn:Hy; [|done].
  intros [= <-] Hc. destruct (p_graph _ _ _ _ _ _ _ _ _ _ _ O) as [L G].
  pose proof (gr_linked _ _ _ _ _ _ _ G) as Hl.
  destruct (descriptor_cases noop R bound L T G i) as [Hlt|[(j & cd & -> & Hj & Hs)|(j & pb & -> & Hj & Hs)]].
  { apply vat_lt in Hy. exact Hy. }
  - destruct (k_old _ _ _ _ _ _ _ Hl i Hlt) as [E1 E2]. rewrite Hy in E1. rewrite Hc in E2.
    destruct (Hold i y) as [Hly Hpy]; [done|].
    apply from_session; [done..|]. by eapply (u_runtime _ HR).
  - destruct Hs as (Hx & c' & Hc' & e & k & n & -> & _). rewrite Hy in Hx. injection Hx as ->.
    rewrite Hc in Hc'. injection Hc' as ->. by eapply from_contribution.
  - destruct Hs as (Hx & ty' & Hc' & _). rewrite Hy in Hx. injection Hx as ->.
    rewrite Hc in Hc'. injection Hc' as ->.
    destruct (proj2 (vat_is_Some bound j)) as [b Hb].
    { rewrite (gr_bound_length _ _ _ _ _ _ _ G). by eapply vat_lt. }
    destruct (gr_bound _ _ _ _ _ _ _ G j b Hb) as (_ & _ & Hid & _).
    apply (from_binding _ _ _ b); try done. apply vat_elem. by exists j.
Qed.

Lemma final_both i x : DescriptorTable.at_ D' i = Some x →
  ∃ c, DescriptorTable.coldAt D' i = Some c ∧ source i x c.
Proof.
  intros Hx. destruct (proj2 (vat_is_Some (DescriptorTable.coldEntries_ D') i)) as [c Hc].
  - unfold D' in *. rewrite (DescriptorTable.wf_cold _ (final_wf _ _ _ _ _ _ _ _ _ _ _ O)).
    exact (vat_lt _ _ _ Hx).
  - exists c. split; [done|]. by apply final_source.
Qed.

Lemma contribution_at L j cd :
  graph noop (tables_ R) (mjoin (pending_ R)) (pendingRuntimeSingletons_ R) bound L T →
  vat seen j = Some cd →
  ∃ y, DescriptorTable.at_ D' (base + j) = Some y ∧ lifetime y = cd_lifetime cd ∧
    primaryDescriptor y = prim_of (tables_ R) L j cd.
Proof.
  intros G Hj. pose proof (gr_linked _ _ _ _ _ _ _ G) as Hl.
  destruct (k_seen _ _ _ _ _ _ _ Hl _ _ Hj) as (Hx & _). pose proof (vat_lt _ _ _ Hj) as Hlt.
  eexists. split; [|split].
  - unfold D'. rewrite (final_at _ _ _ _ _ _ _ _ _ _ _ O), decide_False.
    + unfold base. by rewrite Hx.
    + rewrite (k_size _ _ _ _ _ _ _ Hl). unfold base, seen in *. lia.
  - done.
  - done.
Qed.

Lemma binding_at b : b ∈ bound →
  ∃ y, DescriptorTable.at_ D' (sb_descId b) = Some y ∧ lifetime y = Singleton.
Proof.
  intros [j Hj]%vat_elem. destruct (p_graph _ _ _ _ _ _ _ _ _ _ _ O) as [L G].
  pose proof (gr_linked _ _ _ _ _ _ _ G) as Hl.
  destruct (gr_bound _ _ _ _ _ _ _ G j b Hj) as (pb & Hpb & -> & _).
  destruct (k_bound _ _ _ _ _ _ _ Hl _ _ Hpb) as (Hx & _). pose proof (vat_lt _ _ _ Hpb) as Hlt.
  eexists. split.
  - unfold D'. rewrite (final_at _ _ _ _ _ _ _ _ _ _ _ O), decide_False; [by rewrite Hx|].
    rewrite (k_size _ _ _ _ _ _ _ Hl). lia.
  - done.
Qed.

Lemma context_at : ∃ y, DescriptorTable.at_ D' m = Some y ∧ lifetime y = Singleton.
Proof.
  eexists. unfold D'. by rewrite (final_at _ _ _ _ _ _ _ _ _ _ _ O), decide_True.
Qed.

Lemma alias_target i x : DescriptorTable.at_ D' i = Some x → is_primary_elsewhere x i = true →
  ∃ y, DescriptorTable.at_ D' (primaryDescriptor x) = Some y ∧
    is_primary_elsewhere y (primaryDescriptor x) = false ∧ lifetime y = lifetime x.
Proof.
  intros Hx. destruct (final_both i x Hx) as (c & Hc & Hs). unfold is_primary_elsewhere at 1.
  destruct Hs as [_ _ -> _|L j cd G -> Hj Hlx Hp _|b _ <- _ -> _ | _ _ -> _].
  1, 3: by rewrite N.eqb_refl. 2: rewrite N.eqb_refl; by case (_ =? i).
  assert (cd ∈ seen) as Hin by (apply vat_elem; eauto).
  rewrite Hp. unfold prim_of. destruct (alias_ref cd) as [k|] eqn:Hk; [intros _|].
  - destruct (ac_aliases _ _ _ Hac cd k Hin Hk) as (cd' & [j' Hj']%vat_elem & <-).
    assert (resolve_link L (cd_identity cd') = base + j') as ->.
    { unfold resolve_link. by rewrite (proj2 (gr_identity _ _ _ _ _ _ _ G _ (base + j'))) by eauto. }
    destruct (contribution_at L j' cd' G Hj') as (y & Hy & Hly & Hpy).
    destruct (gn_alias _ Hgen cd cd') as [Ha Hl'].
    { by apply (distinct_from []). }
    { apply (distinct_from []), vat_elem. eauto. }
    { done. }
    exists y. split_and!; [done| |congruence].
    assert (alias_ref cd' = None) as Hn by by unfold alias_ref; rewrite Ha.
    unfold is_primary_elsewhere. rewrite Hpy. unfold prim_of, prim0. rewrite Hn, Ha. fold base.
    by rewrite N.eqb_refl.
  - unfold prim0. fold base. destruct (cd_isExposedAlias cd); rewrite N.eqb_refl; [by case (_ =? _)|done].
Qed.

Lemma slots_differ d d' x x' : DescriptorTable.at_ D' d = Some x →
  DescriptorTable.at_ D' d' = Some x' → lifetime x = Session → lifetime x' = Session →
  d < d' → sessionSlot x < sessionSlot x'.
Proof.
  intros Hx Hx' Hl Hl' Hlt. unfold D' in *.
  destruct (final_session _ _ _ _ _ _ _ _ _ _ _ O d x Hx) as (Hs & y & Hy & Hly).
  destruct (final_session _ _ _ _ _ _ _ _ _ _ _ O d' x' Hx') as (Hs' & _).
  rewrite decide_True in Hs by done. rewrite decide_True in Hs' by done. rewrite Hs, Hs'.
  unfold DescriptorTable.at_ in Hy. rewrite vat_lookup in Hy.
  eapply sessions_in_take_lt; [exact Hy|congruence|lia].
Qed.

Lemma slot_small d x : DescriptorTable.at_ D' d = Some x → lifetime x = Session →
  sessionSlot x < sessionSlotCount_ R'.
Proof.
  intros Hx Hl. unfold D' in *.
  destruct (final_session _ _ _ _ _ _ _ _ _ _ _ O d x Hx) as (Hs & y & Hy & Hly).
  rewrite decide_True in Hs by done. rewrite Hs, (p_count _ _ _ _ _ _ _ _ _ _ _ O).
  unfold DescriptorTable.at_ in Hy. rewrite vat_lookup in Hy.
  rewrite <-(firstn_all (DescriptorTable.entries_ (Startup.descriptors_ T1))) at 2.
  eapply sessions_in_take_lt; [exact Hy|congruence|]. by eapply lookup_lt_Some.
Qed.

(** ** The index *)

Lemma candidate_small ty' n e d :
  TypeIndex.entryFor (Startup.typeIndex_ (tables_ R')) ty' n = Some e →
  d ∈ TypeIndex.candidates e → d < DescriptorTable.size D'.
Proof.
  intros He Hd. pose proof (final_candidates _ _ _ _ _ _ _ _ _ _ _ O ty' n d) as H.
  unfold TypeIndex.candidatesFor in H. rewrite He in H.
  destruct (proj1 H Hd) as (c & Hc & _). apply vat_lt in Hc.
  by rewrite (DescriptorTable.wf_cold _ (final_wf _ _ _ _ _ _ _ _ _ _ _ O)) in Hc.
Qed.

(** The head is a candidate, or none was chosen yet. *)
Lemma head_candidate ty' n e :
  TypeIndex.entryFor (Startup.typeIndex_ (tables_ R')) ty' n = Some e →
  TypeIndex.head e ∈ TypeIndex.candidates e ∨ TypeIndex.head e = kInvalidDescriptorId.
Proof.
  destruct (p_graph _ _ _ _ _ _ _ _ _ _ _ O) as [L G].
  pose proof (gr_index _ _ _ _ _ _ _ G) as Hx.
  assert (∀ ty' n e, TypeIndex.entryFor (Startup.typeIndex_ T) ty' n = Some e →
    TypeIndex.head e ∈ TypeIndex.candidates e) as Hg.
  { intros ty0 n0 e0. rewrite Hx. intros He0.
    pose proof (TypeIndex.entryFor_registered (priority_at (Startup.descriptors_ T))
      (keys (Startup.descriptors_ T)) ty0 n0) as Hr. cbv zeta in Hr.
    destruct (TypeIndex.registered _ ty0 n0) eqn:E; [congruence|].
    destruct Hr as (v & Hp & _ & Hv). rewrite He0 in Hv. injection Hv as ->. simpl.
    destruct v; [by apply Permutation_nil_l in Hp|by left]. }
  rewrite (final_entry _ _ _ _ _ _ _ _ _ _ _ O). case_decide; [|intros; by left; eapply Hg].
  intros [= <-]. simpl.
  destruct (TypeIndex.entryFor (Startup.typeIndex_ T) ty kUnnamed) as [e0|] eqn:He0; [|by right].
  left. apply elem_of_app. left. by apply (Hg _ _ _ He0).
Qed.

Lemma single_candidate ty' d :
  TypeIndex.singleUnnamedCandidate (Startup.typeIndex_ (tables_ R')) ty' = d → d ≠ kInvalidDescriptorId →
  d ∈ default [] (TypeIndex.candidatesFor (Startup.typeIndex_ (tables_ R')) ty' kUnnamed).
Proof.
  destruct (p_graph _ _ _ _ _ _ _ _ _ _ _ O) as [L G].
  pose proof (gr_index _ _ _ _ _ _ _ G) as Hx.
  pose proof (final_index _ _ _ _ _ _ _ _ _ _ _ O) as HI. rewrite HI.
  rewrite TypeIndex.late_single. case_decide as Hty.
  - subst ty'. change (TypeIndex.candidatesFor (TypeIndex.updateSingleUnnamed ty ?X) ty kUnnamed)
      with (TypeIndex.candidatesFor X ty kUnnamed).
    destruct (TypeIndex.candidatesFor _ ty kUnnamed) as [[|d' [|]]|]; try by intros <-.
    intros -> _. by left.
  - rewrite Hx, TypeIndex.singleUnnamed_sorted.
    destruct (TypeIndex.registered _ ty' kUnnamed) as [|d' [|]] eqn:Er; [by intros <-| |by intros <-].
    intros -> _.
    assert (d ∈ of_pair T ty' kUnnamed) as Hd by (unfold of_pair; rewrite Er; by left).
    apply (graph_pair _ _ _ _ _ _ _ _ _ _ _ O) in Hd.
    rewrite <-Hx, <-HI. unfold TypeIndex.candidatesFor in *.
    rewrite (final_entry _ _ _ _ _ _ _ _ _ _ _ O), decide_False by congruence. exact Hd.
Qed.

Lemma single_small ty' :
  TypeIndex.singleUnnamedCandidate (Startup.typeIndex_ (tables_ R')) ty' ≠ kInvalidDescriptorId →
  TypeIndex.singleUnnamedCandidate (Startup.typeIndex_ (tables_ R')) ty' < DescriptorTable.size D'.
Proof.
  intros Hne. pose proof (single_candidate ty' _ eq_refl Hne) as Hd.
  unfold TypeIndex.candidatesFor in Hd.
  destruct (TypeIndex.entryFor _ ty' kUnnamed) as [e|] eqn:He; [|by apply not_elem_of_nil in Hd].
  by eapply candidate_small.
Qed.

(** ** The stores *)

Lemma stored_where d : SingletonStore.value (Startup.singletons_ R') d ≠ nullptr →
  d = m ∨ ∃ b, b ∈ bound ∧ sb_descId b = d.
Proof.
  intros Hv. destruct (decide (d = m)) as [->|Hm]; [by left|right].
  destruct (decide (d ∈ sb_descId <$> bound)) as [(b & -> & Hb)%list_elem_of_fmap|Hb]; [by exists b|].
  destruct Hv. by apply (p_none _ _ _ _ _ _ _ _ _ _ _ O).
Qed.

Lemma stored_singleton d : SingletonStore.value (Startup.singletons_ R') d ≠ nullptr →
  ∃ x, DescriptorTable.at_ D' d = Some x ∧ lifetime x = Singleton ∧
    is_primary_elsewhere x d = false.
Proof.
  intros Hv. assert (∃ x, DescriptorTable.at_ D' d = Some x ∧ lifetime x = Singleton) as (x & Hx & Hl).
  { destruct (stored_where d Hv) as [->|(b & Hb & <-)]; [by apply context_at|by apply binding_at]. }
  exists x. split_and!; [done..|]. destruct (is_primary_elsewhere x d) eqn:He; [|done].
  destruct (final_both d x Hx) as (c & _ & Hs). destruct Hs as [Hlt Hs _ _|L j cd G -> Hj _ _ _|b _ _ _ Hp _ | _ _ Hp _].
  - by rewrite Hl in Hs.
  - exfalso. pose proof (gr_linked _ _ _ _ _ _ _ G) as HL. pose proof (vat_lt _ _ _ Hj) as Hlt.
    destruct (stored_where _ Hv) as [Hm|(b & [i Hi]%vat_elem & Hid)].
    + unfold m in Hm. rewrite (k_size _ _ _ _ _ _ _ HL) in Hm. unfold base, seen in *. lia.
    + destruct (gr_bound _ _ _ _ _ _ _ G i b Hi) as (_ & _ & Hid' & _).
      unfold base, seen in *. lia.
  - revert He. unfold is_primary_elsewhere. by rewrite Hp, N.eqb_refl.
  - revert He. unfold is_primary_elsewhere. rewrite Hp, N.eqb_refl. by case (_ =? d).
Qed.

Lemma bound_stored d x c : DescriptorTable.at_ D' d = Some x →
  DescriptorTable.coldAt D' d = Some c → lifetime x = Singleton → origin c = RuntimeBinding →
  SingletonStore.value (Startup.singletons_ R') d ≠ nullptr.
Proof.
  intros Hx Hc Hl Ho. destruct (final_source d x c Hx Hc)
    as [_ Hs _ _|L j cd G _ Hj _ _ Hor|b Hb <- _ _ _ | -> _ _ _].
  - by rewrite Hl in Hs.
  - destruct (gn_origin _ Hgen cd); [|congruence]. apply (distinct_from []), vat_elem. eauto.
  - rewrite (p_bound _ _ _ _ _ _ _ _ _ _ _ O b Hb).
    destruct (p_graph _ _ _ _ _ _ _ _ _ _ _ O) as [L G].
    destruct (bound_ids noop R bound T L G) as [_ Hi]. destruct (Hi b Hb) as (_ & pb & Hpb & ->).
    pose proof (u_instances _ HR) as Hp. rewrite Forall_forall in Hp. by apply Hp.
  - unfold m. by rewrite (p_ctx _ _ _ _ _ _ _ _ _ _ _ O).
Qed.

Lemma final_small : DescriptorTable.size D' < kInvalidDescriptorId.
Proof.
  unfold D'. rewrite (final_size _ _ _ _ _ _ _ _ _ _ _ O).
  destruct (p_graph _ _ _ _ _ _ _ _ _ _ _ O) as [L G].
  pose proof (gr_room _ _ _ _ _ _ _ G) as (H & _ & _). exact H.
Qed.

(** ** The environment *)

Lemma opened_env E : host_ok E → env_ok (env_of R' E).
Proof.
  intros [H1 H2 H3 H4 H5 H6 H7].
  assert (∀ p, prog_ok E p → prog_ok (env_of R' E) p) as Hp by (intros p; by apply prog_ok_env).
  pose proof final_small as Hsz. split; try by auto.
  - by apply (final_wf _ _ _ _ _ _ _ _ _ _ _ O).
  - change (DescriptorTable.size D' < two32). unfold kInvalidDescriptorId, two32 in *. lia.
  - intros ty' n e d He [Hd| ->] Hne; [by eapply candidate_small|].
    destruct (head_candidate ty' n e He) as [Hd|Hd]; [by eapply candidate_small|done].
  - intros ty' n e He Hin. pose proof (candidate_small ty' n e _ He Hin). lia.
  - intros ty' d <-. apply single_small.
  - exact alias_target.
  - intros d d' x x' Hx Hx' Hl Hl' Heq. destruct (N.lt_trichotomy d d') as [Hlt|[->|Hlt]]; [|done|].
    + pose proof (slots_differ d d' x x' Hx Hx' Hl Hl' Hlt). lia.
    + pose proof (slots_differ d' d x' x Hx' Hx Hl' Hl Hlt). lia.
  - intros d x c Hx Hc Ho. destruct (final_source d x c Hx Hc)
      as [_ Hs _ _|L j cd G _ Hj _ _ Hor|b _ _ Hs _ _ | _ Hs _ _]; [by right| |by left..].
    destruct (gn_origin _ Hgen cd); [|congruence]. apply (distinct_from []), vat_elem. eauto.
  - intros f sc p Hsc. by apply Hp, H4.
  - intros f sc Hsc. by apply Hp, H5.
  - intros f sc p Hsc. by apply Hp, H6.
  - intros cb bean. by apply Hp, H7.
Qed.

(** ** The state *)

Lemma idle_instance E S k : idle E (sessionSlotCount_ R') S →
  singletons_ S = Startup.singletons_ R' →
  instance_of (env_of R' E) S k ≠ nullptr →
  key_scope k = nullptr ∧ SingletonStore.value (Startup.singletons_ R') (key_descId k) ≠ nullptr.
Proof.
  intros HI Hst. unfold instance_of. rewrite Hst, (id_tl _ _ _ HI).
  destruct (DescriptorTable.at_ _ _) as [x|]; [|done].
  destruct (lifetime x) eqn:Hl; try done.
  - destruct (N.eqb_spec (key_scope k) nullptr); [intros Hv; by split|done].
  - destruct (sessions S !! key_scope k) as [ss|] eqn:Hss; [|done]. intros [].
    by apply (id_sessions _ _ _ HI (key_scope k)).
  - by case (_ =? _).
Qed.

Lemma opened_idle E S : idle E (sessionSlotCount_ R') S →
  singletons_ S = Startup.singletons_ R' → inv (env_of R' E) S.
Proof.
  intros HI Hst. split.
  - rewrite Hst. by apply (p_wf _ _ _ _ _ _ _ _ _ _ _ O).
  - intros d x Hx _. simpl in Hx. apply vat_lt in Hx.
    rewrite Hst, (p_capacity _ _ _ _ _ _ _ _ _ _ _ O), <-(final_size _ _ _ _ _ _ _ _ _ _ _ O). exact Hx.
  - intros d x c Hx Hc Hl Ho _. rewrite Hst. by eapply bound_stored.
  - intros sc info Hsc Hrun. simpl in Hsc.
    destruct (id_running _ _ _ HI sc info Hsc Hrun) as (ss & Hss & Hwf & Hsz & Hord).
    exists ss. split; [done|]. split; [done|..|rewrite Hord; by intros d ?%not_elem_of_nil].
    + intros d x c Hx _ Hl _. rewrite Hsz. by eapply slot_small.
    + intros d x c _ _ _ _ []. by apply (id_sessions _ _ _ HI sc).
  - intros k x [_ Hk]%(idle_instance E S k HI Hst) Hx. destruct (stored_singleton _ Hk) as (y & Hy & _ & He).
    simpl in Hx. unfold D' in Hy. congruence.
  - rewrite (id_protos _ _ _ HI).
    split; [|done|split; [constructor|by intros s c ?%not_elem_of_empty]].
    exists [], ∅. apply PrototypeStore.store_inv_start.
  - rewrite (id_claims _ _ _ HI). split; [done|]. by intros c ?%not_elem_of_nil.
  - rewrite (id_claims _ _ _ HI). by intros e ?%not_elem_of_nil.
  - rewrite (id_tl _ _ _ HI). apply ThreadLocalStore.tl_wf_empty.
  - apply HI.
  - intros k c (x & Hx & Hc & Hl & Ho). rewrite (id_trace _ _ _ HI).
    case_decide as Hi; [constructor|]. exfalso.
    apply (idle_instance E S k HI Hst) in Hi as [_ Hv].
    destruct (stored_singleton _ Hv) as (y & Hy & Hly & He).
    destruct Ho. simpl in Hx, Hc. destruct (final_source _ x c Hx Hc)
      as [_ _ _ Ho|L j cd G Hid Hj _ _ Hor|b _ _ _ _ Ho|_ _ _ Ho]; try done.
    pose proof (gr_linked _ _ _ _ _ _ _ G) as HL. pose proof (vat_lt _ _ _ Hj) as Hlt.
    destruct (stored_where _ Hv) as [Hm|(b & [i Hb]%vat_elem & Hid')].
    + unfold m in Hm. rewrite (k_size _ _ _ _ _ _ _ HL) in Hm. unfold base, seen in *. lia.
    + destruct (gr_bound _ _ _ _ _ _ _ G i b Hb) as (_ & _ & Hid'' & _).
      unfold base, seen in *. lia.
  - rewrite Hst. intros d (x & Hx & Hl & _)%stored_singleton. by exists x.
  - rewrite (id_tl _ _ _ HI). intros d []. done.
Qed.

Lemma state_idle E a : a ≠ nullptr →
  idle E (sessionSlotCount_ R') (state_of R' (scopes_ E) a).
Proof.
  intros Ha. split; try done.
  - intros sc ss i. simpl. rewrite lookup_fmap. destruct (scopes_ E !! sc); [|done].
    intros [= <-]. apply (InstanceArray.resize_spec (sessionSlotCount_ R') InstanceArray.empty).
  - intros sc info Hsc _. eexists. simpl. rewrite lookup_fmap, Hsc. split; [done|].
    split; [apply SessionStore.session_resize_wf|split; [|done]].
    apply (InstanceArray.resize_spec (sessionSlotCount_ R') InstanceArray.empty).
Qed.

Lemma opened_state E a : a ≠ nullptr → inv (env_of R' E) (state_of R' (scopes_ E) a).
Proof. intros Ha. apply opened_idle; [by apply state_idle|done]. Qed.

(** ** Selection *)

Lemma final_keys : keys D' = keys (Startup.descriptors_ T) ++ [(ty, kUnnamed, m)].
Proof.
  destruct (p_graph _ _ _ _ _ _ _ _ _ _ _ O) as [L G].
  pose proof (DescriptorTable.wf_cold _ (c_table _ (graph_core _ _ _ _ L G))) as Hn.
  assert (DescriptorTable.coldEntries_ D' = DescriptorTable.coldEntries_ (Startup.descriptors_ T) ++
    [context_cold noop contextTypeInfo contextAlign ty]) as Hc.
  { apply list_eq. intros i.
    pose proof (final_cold _ _ _ _ _ _ _ _ _ _ _ O (N.of_nat i)) as Hi.
    unfold DescriptorTable.coldAt in Hi. rewrite !vat_lookup, Nat2N.id in Hi. unfold D'. rewrite Hi.
    case_decide as Heq; unfold DescriptorTable.size, nlen in *.
    - rewrite lookup_app_r by lia. by replace (i - _)%nat with 0%nat by lia.
    - destruct (DescriptorTable.coldEntries_ (Startup.descriptors_ T) !! i) eqn:E; symmetry.
      + by apply lookup_app_l_Some.
      + apply lookup_ge_None in E. rewrite lookup_app_r by done.
        apply lookup_ge_None. simpl. lia. }
  unfold keys. rewrite Hc, imap_app. f_equal. simpl. do 2 f_equal.
  unfold m, DescriptorTable.size, nlen in *. lia.
Qed.

(** The index lists the descriptors of the table. *)
Lemma final_lists : TypeIndex.lists (keys D') (Startup.typeIndex_ (tables_ R')).
Proof.
  destruct (p_graph _ _ _ _ _ _ _ _ _ _ _ O) as [L G].
  rewrite (final_index _ _ _ _ _ _ _ _ _ _ _ O), final_keys.
  apply TypeIndex.lists_single, TypeIndex.lists_insert.
  rewrite (gr_index _ _ _ _ _ _ _ G). apply TypeIndex.built_lists.
Qed.

(** A pair the context bean is not registered under. *)
Lemma final_registered ty' n : (ty', n) ≠ (ty, kUnnamed) →
  TypeIndex.registered (keys D') ty' n = TypeIndex.registered (keys (Startup.descriptors_ T)) ty' n.
Proof.
  intros Hne. rewrite final_keys. unfold TypeIndex.registered.
  rewrite filter_app, filter_cons_False by (simpl; congruence). by rewrite filter_nil, app_nil_r.
Qed.

Lemma final_priority d : d < m →
  priority_at D' d = priority_at (Startup.descriptors_ T) d.
Proof.
  intros Hd. unfold priority_at, D'. rewrite (final_at _ _ _ _ _ _ _ _ _ _ _ O), decide_False by lia.
  by destruct (DescriptorTable.at_ (Startup.descriptors_ T) d).
Qed.

Lemma registered_small ty' n d :
  d ∈ TypeIndex.registered (keys (Startup.descriptors_ T)) ty' n → d < m.
Proof.
  intros Hd. change (d ∈ of_pair T ty' n) in Hd. apply elem_of_pair in Hd as (c & Hc & _).
  apply vat_lt in Hc. destruct (p_graph _ _ _ _ _ _ _ _ _ _ _ O) as [L G].
  by rewrite (DescriptorTable.wf_cold _ (c_table _ (graph_core _ _ _ _ L G))) in Hc.
Qed.

Lemma reference_select_final ty' n : (ty', n) ≠ (ty, kUnnamed) →
  reference_select (priority_at (Startup.descriptors_ T)) (keys (Startup.descriptors_ T)) ty' n =
  reference_select (priority_at D') (keys D') ty' n.
Proof.
  intros Hne. unfold reference_select. rewrite final_registered by done.
  replace (top_of (priority_at D') _) with
    (top_of (priority_at (Startup.descriptors_ T))
       (TypeIndex.registered (keys (Startup.descriptors_ T)) ty' n)); [done|].
  apply top_of_ext. intros d Hd. symmetry. by eapply final_priority, registered_small.
Qed.

Lemma final_select E scope ty' n : flags_ok (env_of R' E) scope →
  (ty', reference_name (env_of R' E) scope ty' n) ≠ (ty, kUnnamed) →
  selectCandidate (env_of R' E) scope ty' n =
    reference_select (priority_at D') (keys D') ty' (reference_name (env_of R' E) scope ty' n).
Proof.
  intros Hf Hne. rewrite <-reference_select_final by done.
  destruct (p_graph _ _ _ _ _ _ _ _ _ _ _ O) as [L G].
  pose proof (gr_index _ _ _ _ _ _ _ G) as Hx. rewrite <-(select_at _ (env_of R' E)); try done.
  - simpl. rewrite (final_entry _ _ _ _ _ _ _ _ _ _ _ O), decide_False by done. by rewrite Hx.
  - intros Hm. simpl. rewrite (final_index _ _ _ _ _ _ _ _ _ _ _ O), TypeIndex.late_single.
    rewrite decide_False by congruence. by rewrite Hx.
  - apply Forall_forall. intros op [i (c & -> & Hc)]%elem_of_lookup_imap. simpl.
    apply lookup_lt_Some in Hc.
    pose proof (DescriptorTable.wf_cold _ (c_table _ (graph_core _ _ _ _ L G))) as Hn.
    pose proof (gr_room _ _ _ _ _ _ _ G) as (Hr & _ & _). unfold DescriptorTable.size, nlen in *. lia.
Qed.

(** The context bean, when no contribution is exposed under its type. *)
Lemma context_select E scope n : flags_ok (env_of R' E) scope →
  reference_name (env_of R' E) scope ty n = kUnnamed →
  TypeIndex.registered (keys D') ty kUnnamed = [m] →
  selectCandidate (env_of R' E) scope ty n = Ok m.
Proof.
  intros Hf Hn Hr. unfold selectCandidate. rewrite effectiveName_reference, Hn by done.
  rewrite N.eqb_refl. simpl. rewrite (final_index _ _ _ _ _ _ _ _ _ _ _ O), TypeIndex.late_single.
  rewrite decide_True by done.
  assert (TypeIndex.candidatesFor (TypeIndex.updateSingleUnnamed ty
    (TypeIndex.insertCandidate ty kUnnamed m (Startup.typeIndex_ T))) ty kUnnamed = Some [m]) as Hm.
  { unfold TypeIndex.candidatesFor, m.
    rewrite <-(final_index _ _ _ _ _ _ _ _ _ _ _ O), (final_entry _ _ _ _ _ _ _ _ _ _ _ O).
    rewrite decide_True by done. simpl.
    destruct (TypeIndex.entryFor (Startup.typeIndex_ T) ty kUnnamed) as [e|] eqn:He; [|done].
    exfalso. destruct (p_graph _ _ _ _ _ _ _ _ _ _ _ O) as [L G].
    destruct (entry_perm T (gr_index _ _ _ _ _ _ _ G) _ _ _ He) as [_ Hne]. apply Hne.
    unfold of_pair. revert Hr. rewrite final_keys. unfold TypeIndex.registered.
    rewrite filter_app, fmap_app, filter_cons_True by done. rewrite filter_nil. simpl.
    intros Hr. by apply (app_inj_2 _ [] [m] [m]) in Hr as [Hr _]. }
  unfold m in Hm. rewrite Hm.
  pose proof final_small as Hsz. unfold D' in Hsz. rewrite (final_size _ _ _ _ _ _ _ _ _ _ _ O) in Hsz.
  rewrite (proj2 (N.eqb_neq _ _)); [done|]. unfold m. lia.
Qed.

End ready.

Section claims.
Context `{SS : StdSort} (noop : FnPtr) (contextTypeInfo : TypeInfo) (contextAlign : N).

(** No default is set after [start()]. *)
Lemma started_flags (ctx : ptr) (R R' : Startup.t) (E : env) :
  unstarted R → enough_room R → ctx ≠ nullptr →
  start noop contextTypeInfo contextAlign ctx R = (Ok tt, R') → flags_ok (env_of R' E) None.
Proof.
  intros HR Hr Hc Hs.
  destruct (start_opened noop contextTypeInfo contextAlign ctx R R' HR Hr Hc Hs)
    as (_ & bound & T & ty & T1 & T2 & O & _).
  split; [|done]. intros _ ty'. simpl. rewrite (p_defaults _ _ _ _ _ _ _ _ _ _ _ O).
  apply DefaultsTable.getDefault_resize.
Qed.

(** C17 A started registry is a world [resolve] can rely on: whatever was discovered and
    bound, with user code that passes live scopes, the tables [start()] leaves satisfy
    every assumption of the run-time half (dense session slots, aliases that reach a
    bean of their lifetime in one step, an index without dangling ids) and the stores
    satisfy its invariant (the bound objects and the context are there, nothing else is
    built), so all the theorems about [resolve] and [stop()] apply. *)
Theorem started_ready (ctx : ptr) (R R' : Startup.t) (E : env) (address : ptr) :
  unstarted R → enough_room R → ctx ≠ nullptr →
  start noop contextTypeInfo contextAlign ctx R = (Ok tt, R') →
  generated (mjoin (pending_ R)) → only_sessions R → host_ok E → address ≠ nullptr →
  env_ok (env_of R' E) ∧ inv (env_of R' E) (state_of R' (scopes_ E) address).
Proof.
  intros HR Hr Hc Hs Hgen Hold HE Ha.
  destruct (start_opened noop contextTypeInfo contextAlign ctx R R' HR Hr Hc Hs)
    as (Hac & bound & T & ty & T1 & T2 & O & _).
  split; [by eapply opened_env|by eapply opened_state].
Qed.

(** C18 Selection after [start()]: a (type, name) pair selects the only descriptor of
    highest priority among those of that exposed type and name, the bound ones included,
    whatever the order of discovery; ties are ambiguity errors and absence a missing
    bean; and the context bean is selected for its own type. *)
Theorem started_selects (ctx : ptr) (R R' : Startup.t) (E : env)
    (scope : option ScopedContext) (ty : TypeId) (n : NameId) :
  unstarted R → enough_room R → ctx ≠ nullptr →
  start noop contextTypeInfo contextAlign ctx R = (Ok tt, R') →
  flags_ok (env_of R' E) scope →
  let D' := Startup.descriptors_ (tables_ R') in
  let m := reference_name (env_of R' E) scope ty n in
  ((∀ c, DescriptorTable.coldAt D' (beanContextDescId_ R') = Some c →
      (ty, m) ≠ (exposedType c, name c)) ∨
   TypeIndex.registered (keys D') ty m = [beanContextDescId_ R']) →
  selectCandidate (env_of R' E) scope ty n =
    reference_select (priority_at D') (keys D') ty m.
Proof.
  intros HR Hr Hc Hs Hf D' m Hm.
  destruct (start_opened noop contextTypeInfo contextAlign ctx R R' HR Hr Hc Hs)
    as (_ & bound & T & cty & T1 & T2 & O & _).
  pose proof (final_cold _ _ _ _ _ _ _ _ _ _ _ O (beanContextDescId_ R')) as Hcold.
  rewrite (p_id _ _ _ _ _ _ _ _ _ _ _ O), decide_True in Hcold by done.
  rewrite (p_id _ _ _ _ _ _ _ _ _ _ _ O) in Hm.
  destruct (decide ((ty, m) = (cty, kUnnamed))) as [Heq|Hne]; [|by eapply final_select].
  injection Heq as -> Heq. destruct Hm as [Hm|Hm]; [by destruct (Hm _ Hcold); rewrite Heq|].
  rewrite Heq in Hm. unfold reference_select. rewrite Heq, Hm.
  rewrite (context_select _ _ _ _ _ _ _ _ _ _ _ O); try done.
  unfold top_of. rewrite filter_cons_True; [by rewrite filter_nil|].
  by apply Forall_singleton.
Qed.

End claims.

(** ** Witnesses *)

Lemma env_host E : env_ok E → host_ok E.
Proof. intros []. by split. Qed.

Lemma discovered_generated : generated (mjoin (pending_ SampleStart.discovered)).
Proof.
  assert (Forall (λ cd, cd_origin cd ≠ RuntimeBinding ∧
    Forall (λ cd', alias_ref cd = Some (cd_identity cd') →
      cd_isExposedAlias cd' = false ∧ cd_lifetime cd' = cd_lifetime cd)
      (mjoin (pending_ SampleStart.discovered))) (mjoin (pending_ SampleStart.discovered))) as H.
  { repeat (apply Forall_cons; split; [split; [done|]; repeat (apply Forall_cons; split; [done|]);
      by apply Forall_nil|]). by apply Forall_nil. }
  rewrite Forall_forall in H. split.
  - intros cd Hcd. by apply (H cd Hcd).
  - intros cd cd' Hcd Hcd'. destruct (H cd Hcd) as [_ Ha]. rewrite Forall_forall in Ha.
    by apply Ha.
Qed.

Lemma discovered_sessions : only_sessions SampleStart.discovered.
Proof. intros i x Hx. apply vat_lt in Hx. by apply N.nlt_0_r in Hx. Qed.

(** The interface "I" (type 4) reaches the factory at its offset, and the bound object
    of type 5 is served. *)
Lemma started_ready_witness :
  let R' := (SampleStart.launch SampleStart.discovered).2 in
  let E := env_of R' Sample.app in
  let S := state_of R' (scopes_ Sample.app) 4096 in
  env_ok E ∧ inv E S ∧
  (resolve E 15 None 4 kUnnamed S).1 = Ok (Handle.makeDirect 4112 kInvalidSlotId 4 1) ∧
  (resolve E 15 None 5 kUnnamed S).1 = Ok (Handle.makeDirect 500 kInvalidSlotId 5 1).
Proof.
  intros R' E S.
  assert ((resolve E 15 None 4 kUnnamed S).1 = Ok (Handle.makeDirect 4112 kInvalidSlotId 4 1) ∧
    (resolve E 15 None 5 kUnnamed S).1 = Ok (Handle.makeDirect 500 kInvalidSlotId 5 1))
    as [H4 H5] by by vm_compute.
  destruct (started_ready 0 99 8 300 SampleStart.discovered R' Sample.app 4096
    SampleStart.discovered_unstarted SampleStart.discovered_room) as [HE HS];
    [done|apply launched|apply discovered_generated|apply discovered_sessions|
     apply env_host, Sample.app_ok|done|].
  split; [exact HE|]. split; [exact HS|]. by split.
Defined.

Lemma started_selects_witness :
  let R' := (SampleStart.launch SampleStart.discovered).2 in
  let E := env_of R' Sample.app in
  selectCandidate E None 6 kUnnamed = Ok (beanContextDescId_ R') ∧
  selectCandidate E None 0 kUnnamed = Ok 0.
Proof.
  intros R' E.
  assert (flags_ok E None) as Hf.
  { apply (started_flags 0 99 8 300 SampleStart.discovered R' Sample.app
      SampleStart.discovered_unstarted SampleStart.discovered_room); [done|apply launched]. }
  assert (300 ≠ nullptr) as Hc by done.
  assert (start 0 99 8 300 SampleStart.discovered = (Ok tt, R')) as Hs by exact launched.
  pose proof (started_selects 0 99 8 300 SampleStart.discovered R' Sample.app None 6 kUnnamed
    SampleStart.discovered_unstarted SampleStart.discovered_room Hc Hs Hf) as H6.
  pose proof (started_selects 0 99 8 300 SampleStart.discovered R' Sample.app None 0 kUnnamed
    SampleStart.discovered_unstarted SampleStart.discovered_room Hc Hs Hf) as H0.
  cbv zeta in H6, H0. fold E in H6, H0. split.
  - rewrite H6; [vm_compute; reflexivity|]. right. vm_compute. reflexivity.
  - rewrite H0; [vm_compute; reflexivity|]. left. intros c Hc'.
    assert (DescriptorTable.coldAt (Startup.descriptors_ (tables_ R')) (beanContextDescId_ R') =
      Some (context_cold 0 99 8 6)) as Hcold by (vm_compute; reflexivity).
    rewrite Hcold in Hc'. injection Hc' as <-. vm_compute. discriminate.
Defined.

End Ready.
