(* ===== verification/World.v ===== *)
(** The public operations of a context.

    [Module World] composes the registry ([Startup]), the run-time half ([Runtime]), the
    listeners, the scopes and the scope table into the state of one [BeanContext], and
    models the operations of [api/ctr/BeanContext.hpp] and [ScopedContext.hpp]
    ([ContextLifecycleImpl.hpp], [BindReflectiveImpl.hpp], [RegistryStartupImpl.hpp]) on
    the calling thread. *)
From S2P Require Import Prelude Tables Interning Index Stores Startup Freelist Prototypes Listeners Claims Handles Caches Runtime.

Local Open Scope N_scope.

Module World.
Local Open Scope ctr_scope.
#[local] Existing Instance Runtime.ScopeState_eq_dec.

(** ** State *)

(** [DeferredListener]: a listener registered before [start()]. *)
Record Deferred : Type := {
  df_typeIndex : TypeInfo;
  df_phaseIndex : N;
  df_listenerScope : NameId;
  df_callback : N;
  df_priority : Z;
  df_token : N
}.

(** A [ScopedContext]; its session store is in [Runtime.sessions], at its address. *)
Record ScopeObject : Type := {
  info : Runtime.ScopedContext;
  pendingRuntimeSessions_ : list (DescriptorId * ptr);
  scopeDeferred_ : list Deferred
}.

(** [reg] is the registry without its singleton store, which is [Runtime.singletons_]. *)
Record t : Type := {
  reg : Startup.t;
  rt : Runtime.t;
  hasAnyDefault_ : bool;
  listeners_ : ListenerStore.t;
  deferredListeners_ : list Deferred;
  scopes_ : gmap string ptr;
  scopeChunks_ : ScopeTable.t;
  objects_ : gmap ptr ScopeObject
}.

Definition set_reg (R : Startup.t) (W : t) : t :=
  {| reg := R; rt := rt W; hasAnyDefault_ := hasAnyDefault_ W; listeners_ := listeners_ W;
     deferredListeners_ := deferredListeners_ W; scopes_ := scopes_ W;
     scopeChunks_ := scopeChunks_ W; objects_ := objects_ W |}.

Definition set_rt (R : Runtime.t) (W : t) : t :=
  {| reg := reg W; rt := R; hasAnyDefault_ := hasAnyDefault_ W; listeners_ := listeners_ W;
     deferredListeners_ := deferredListeners_ W; scopes_ := scopes_ W;
     scopeChunks_ := scopeChunks_ W; objects_ := objects_ W |}.

Definition set_defaulted (b : bool) (W : t) : t :=
  {| reg := reg W; rt := rt W; hasAnyDefault_ := b; listeners_ := listeners_ W;
     deferredListeners_ := deferredListeners_ W; scopes_ := scopes_ W;
     scopeChunks_ := scopeChunks_ W; objects_ := objects_ W |}.

Definition set_listeners (L : ListenerStore.t) (W : t) : t :=
  {| reg := reg W; rt := rt W; hasAnyDefault_ := hasAnyDefault_ W; listeners_ := L;
     deferredListeners_ := deferredListeners_ W; scopes_ := scopes_ W;
     scopeChunks_ := scopeChunks_ W; objects_ := objects_ W |}.

Definition set_deferred (l : list Deferred) (W : t) : t :=
  {| reg := reg W; rt := rt W; hasAnyDefault_ := hasAnyDefault_ W; listeners_ := listeners_ W;
     deferredListeners_ := l; scopes_ := scopes_ W;
     scopeChunks_ := scopeChunks_ W; objects_ := objects_ W |}.

Definition set_scopes (m : gmap string ptr) (W : t) : t :=
  {| reg := reg W; rt := rt W; hasAnyDefault_ := hasAnyDefault_ W; listeners_ := listeners_ W;
     deferredListeners_ := deferredListeners_ W; scopes_ := m;
     scopeChunks_ := scopeChunks_ W; objects_ := objects_ W |}.

Definition set_chunks (c : ScopeTable.t) (W : t) : t :=
  {| reg := reg W; rt := rt W; hasAnyDefault_ := hasAnyDefault_ W; listeners_ := listeners_ W;
     deferredListeners_ := deferredListeners_ W; scopes_ := scopes_ W;
     scopeChunks_ := c; objects_ := objects_ W |}.

Definition set_objects (m : gmap ptr ScopeObject) (W : t) : t :=
  {| reg := reg W; rt := rt W; hasAnyDefault_ := hasAnyDefault_ W; listeners_ := listeners_ W;
     deferredListeners_ := deferredListeners_ W; scopes_ := scopes_ W;
     scopeChunks_ := scopeChunks_ W; objects_ := m |}.

Definition with_singletons (st : SingletonStore.t) (R : Startup.t) : Startup.t :=
  {| Startup.started_ := Startup.started_ R; Startup.root_ := Startup.root_ R;
     Startup.beanContextDescId_ := Startup.beanContextDescId_ R;
     Startup.sessionSlotCount_ := Startup.sessionSlotCount_ R;
     Startup.beanContextStartLifecyclePending_ := Startup.beanContextStartLifecyclePending_ R;
     Startup.tables_ := Startup.tables_ R; Startup.defaults_ := Startup.defaults_ R;
     Startup.singletons_ := st; Startup.pending_ := Startup.pending_ R;
     Startup.startLifecyclePending_ := Startup.startLifecyclePending_ R;
     Startup.pendingRuntimeSingletons_ := Startup.pendingRuntimeSingletons_ R |}.

(** The registry with its singleton store. *)
Definition registry (W : t) : Startup.t := with_singletons (Runtime.singletons_ (rt W)) (reg W).

(** Registry code. *)
Definition on_reg {A} (m : M Startup.t A) : M t A := λ W,
  let '(o, R) := m (registry W) in
  (o, set_rt (Runtime.set_singletons (Startup.singletons_ R) (rt W)) (set_reg R W)).

(** The other fields of [Startup.t] that the operations write. *)
Definition set_started (b : bool) (R : Startup.t) : Startup.t :=
  {| Startup.started_ := b; Startup.root_ := Startup.root_ R;
     Startup.beanContextDescId_ := Startup.beanContextDescId_ R;
     Startup.sessionSlotCount_ := Startup.sessionSlotCount_ R;
     Startup.beanContextStartLifecyclePending_ := Startup.beanContextStartLifecyclePending_ R;
     Startup.tables_ := Startup.tables_ R; Startup.defaults_ := Startup.defaults_ R;
     Startup.singletons_ := Startup.singletons_ R; Startup.pending_ := Startup.pending_ R;
     Startup.startLifecyclePending_ := Startup.startLifecyclePending_ R;
     Startup.pendingRuntimeSingletons_ := Startup.pendingRuntimeSingletons_ R |}.

Definition set_contextPending (b : bool) (R : Startup.t) : Startup.t :=
  {| Startup.started_ := Startup.started_ R; Startup.root_ := Startup.root_ R;
     Startup.beanContextDescId_ := Startup.beanContextDescId_ R;
     Startup.sessionSlotCount_ := Startup.sessionSlotCount_ R;
     Startup.beanContextStartLifecyclePending_ := b;
     Startup.tables_ := Startup.tables_ R; Startup.defaults_ := Startup.defaults_ R;
     Startup.singletons_ := Startup.singletons_ R; Startup.pending_ := Startup.pending_ R;
     Startup.startLifecyclePending_ := Startup.startLifecyclePending_ R;
     Startup.pendingRuntimeSingletons_ := Startup.pendingRuntimeSingletons_ R |}.

Definition set_startLifecycle (l : list Startup.StartBound) (R : Startup.t) : Startup.t :=
  {| Startup.started_ := Startup.started_ R; Startup.root_ := Startup.root_ R;
     Startup.beanContextDescId_ := Startup.beanContextDescId_ R;
     Startup.sessionSlotCount_ := Startup.sessionSlotCount_ R;
     Startup.beanContextStartLifecyclePending_ := Startup.beanContextStartLifecyclePending_ R;
     Startup.tables_ := Startup.tables_ R; Startup.defaults_ := Startup.defaults_ R;
     Startup.singletons_ := Startup.singletons_ R; Startup.pending_ := Startup.pending_ R;
     Startup.startLifecyclePending_ := l;
     Startup.pendingRuntimeSingletons_ := Startup.pendingRuntimeSingletons_ R |}.

Definition set_pending (l : list (list ContributedDescriptor)) (R : Startup.t) : Startup.t :=
  {| Startup.started_ := Startup.started_ R; Startup.root_ := Startup.root_ R;
     Startup.beanContextDescId_ := Startup.beanContextDescId_ R;
     Startup.sessionSlotCount_ := Startup.sessionSlotCount_ R;
     Startup.beanContextStartLifecyclePending_ := Startup.beanContextStartLifecyclePending_ R;
     Startup.tables_ := Startup.tables_ R; Startup.defaults_ := Startup.defaults_ R;
     Startup.singletons_ := Startup.singletons_ R; Startup.pending_ := l;
     Startup.startLifecyclePending_ := Startup.startLifecyclePending_ R;
     Startup.pendingRuntimeSingletons_ := Startup.pendingRuntimeSingletons_ R |}.

Definition set_defaults (d : DefaultsTable.t) (R : Startup.t) : Startup.t :=
  {| Startup.started_ := Startup.started_ R; Startup.root_ := Startup.root_ R;
     Startup.beanContextDescId_ := Startup.beanContextDescId_ R;
     Startup.sessionSlotCount_ := Startup.sessionSlotCount_ R;
     Startup.beanContextStartLifecyclePending_ := Startup.beanContextStartLifecyclePending_ R;
     Startup.tables_ := Startup.tables_ R; Startup.defaults_ := d;
     Startup.singletons_ := Startup.singletons_ R; Startup.pending_ := Startup.pending_ R;
     Startup.startLifecyclePending_ := Startup.startLifecyclePending_ R;
     Startup.pendingRuntimeSingletons_ := Startup.pendingRuntimeSingletons_ R |}.

(** What a template instantiation [bindSingleton<T>] or [bindSession<T>] knows of [T];
    [bt_isContext]: [T] is [ctr::BeanContext]. *)
Record BoundType : Type := {
  bt_name : string;
  bt_typeInfo : TypeInfo;
  bt_isContext : bool;
  bt_destroy : FnPtr;
  bt_preDestroy : option FnPtr;
  bt_dealloc : FnPtr;
  bt_size : N;
  bt_align : N
}.

(** The process around the context: ids, [typeid] and [alignof] of [ctr::BeanContext],
    the empty thunk, the iteration order of [scopes_] and the code behind the function
    pointers. *)
Record host : Type := {
  registryId : N;
  threadToken : N;
  maxSlots : option N;
  noop : FnPtr;
  contextTypeInfo : TypeInfo;
  contextAlign : N;
  scope_order : gmap string ptr → list ptr;
  call_construct : FnPtr → option ptr → ptr → Runtime.prog;
  call_allocAndConstruct : FnPtr → option ptr → Runtime.prog;
  call_hook : FnPtr → option ptr → ptr → Runtime.prog;
  call_listener : N → Handle.AnyBean → Runtime.prog;
  call_adjust : FnPtr → ptr → ptr
}.

Section engine.
Context `{SS : StdSort} (H : host) (fuel : nat).

(** ** The registry and the run-time half, from the context's operations *)

(** What [resolve] reads, at this moment. *)
Definition env_of (W : t) : Runtime.env :=
  {| Runtime.started_ := Startup.started_ (reg W);
     Runtime.descriptors_ := Startup.descriptors_ (Startup.tables_ (reg W));
     Runtime.typeIndex_ := Startup.typeIndex_ (Startup.tables_ (reg W));
     Runtime.defaults_ := Startup.defaults_ (reg W); Runtime.hasAnyDefault_ := hasAnyDefault_ W;
     Runtime.listeners_ := listeners_ W; Runtime.registryId_ := registryId H;
     Runtime.threadToken_ := threadToken H; Runtime.maxSlots := maxSlots H;
     Runtime.scopes_ := info <$> objects_ W; Runtime.call_construct := call_construct H;
     Runtime.call_allocAndConstruct := call_allocAndConstruct H;
     Runtime.call_hook := call_hook H; Runtime.call_listener := call_listener H;
     Runtime.call_adjust := call_adjust H |}.

(** Run-time code: it changes [rt] only. *)
Definition on_rt {A} (m : Runtime.env → M Runtime.t A) : M t A := λ W,
  let '(o, R) := m (env_of W) (rt W) in (o, set_rt R W).

(** The dispatches a bound object gets: [phaseInitialized], then [phaseCreated]. *)
Definition announce (key : Claims.MaterializationKey) (typeId : TypeId) (object : ptr)
    (emitter : NameId) : M t unit :=
  let bean := Handle.makeDirect object kInvalidSlotId (Claims.key_descId key) (registryId H) in
  on_rt (λ E,
    do! Runtime.emit Runtime.Initialized key object in
    do! Runtime.dispatch E (Runtime.resolve E fuel) ListenerStore.phaseInitialized typeId bean
          emitter in
    do! Runtime.emit Runtime.Created key object in
    Runtime.dispatch E (Runtime.resolve E fuel) ListenerStore.phaseCreated typeId bean emitter).

(** [internNameSafe] *)
Definition internNameSafe (name : string) : M t NameId :=
  if decide (name = ""%string) then mreturn kUnnamed
  else on_reg (Startup.on_tables (Startup.intern name)).

(** [typeIdFor<T>()]: the caches of [Caches] answer what this lookup answers. *)
Definition typeIdFor (g : TypeInfo) (W : t) : TypeId :=
  TypeInterning.lookupByTypeIndex (Startup.typeInterning_ (Startup.tables_ (reg W))) g.

(** ** Bindings *)

(** The object of a [bindSingleton] as the entry of [pendingRuntimeSingletons_]. *)
Definition binding_of (T : BoundType) (object : ptr) (nameId : NameId) (prio : Z)
    : Startup.PendingRuntimeSingleton :=
  {| Startup.p_instance := object; Startup.p_typeName := bt_name T;
     Startup.p_typeInfoGetter := bt_typeInfo T; Startup.p_nameId := nameId;
     Startup.p_priority := prio; Startup.p_destroy := bt_destroy T;
     Startup.p_preDestroy := bt_preDestroy T; Startup.p_dealloc := Some (bt_dealloc T);
     Startup.p_size := bt_size T; Startup.p_align := bt_align T |}.

(** [lookupTypeId], then [internByName] for a type the registry does not know. *)
Definition adopt_type (T : BoundType) : M Startup.tables TypeId := λ tb,
  let ty := TypeInterning.lookupByTypeIndex (Startup.typeInterning_ tb) (bt_typeInfo T) in
  if ty =? kInvalidTypeId then Startup.internByName (bt_name T) (bt_typeInfo T) tb
  else (Ok ty, tb).

(** [descriptors_.append(...)] and [atMutable(descId).primaryDescriptor = descId] *)
Definition append_primary (d : Descriptor) (cold : DescriptorCold)
    : M Startup.tables DescriptorId := λ tb,
  let '(id, D) := DescriptorTable.append d cold (Startup.descriptors_ tb) in
  match DescriptorTable.atMutable id (set_primaryDescriptor id) D with
  | None => (Ub, tb)
  | Some D' => (Ok id, Startup.set_descriptors D' tb)
  end.

(** The candidate enters the index. *)
Definition insert_candidate (ty : TypeId) (n : NameId) (id : DescriptorId)
    : M Startup.tables unit := λ tb,
  (Ok tt, Startup.set_typeIndex
            (TypeIndex.insertCandidate ty n id (Startup.typeIndex_ tb)) tb).

(** [sortAllCandidates], then [updateSingleUnnamed]. *)
Definition resort (ty : TypeId) : M Startup.tables unit := λ tb,
  (Ok tt, Startup.set_typeIndex
            (TypeIndex.updateSingleUnnamed ty
               (TypeIndex.sortAllCandidates (Startup.priority_at (Startup.descriptors_ tb))
                  (Startup.typeIndex_ tb))) tb).

Definition exists_error (typeName boundName : string) : exn :=
  ConfigurationError ("Registry::bindSingleton: type '" +:+ typeName +:+
    if decide (boundName = ""%string)
    then "' unnamed binding already exists for the same priority."
    else "' named binding '" +:+ boundName +:+ "' already exists for the same priority.").

Definition materializing_error (typeName : string) : exn :=
  ConfigurationError ("Registry::bindSingleton: type '" +:+ typeName +:+
    "' is currently being materialized; binding conflicts with concurrent materialization of the same name and priority.").

(** A construction in progress of the same type, name and priority; [None] is a failed
    assertion. *)
Fixpoint conflicting (D : DescriptorTable.t) (ty : TypeId) (n : NameId) (prio : Z)
    (es : list Claims.MaterializingEntry) : option bool :=
  match es with
  | [] => Some false
  | e :: es' =>
      let k := Claims.entry_key e in
      if negb (Claims.key_scope k =? nullptr) then conflicting D ty n prio es'
      else
        d ← DescriptorTable.at_ D (Claims.key_descId k);
        c ← DescriptorTable.coldAt D (Claims.key_descId k);
        if (exposedType c =? ty) && (name c =? n) && Z.eqb (priority d) prio
        then Some true else conflicting D ty n prio es'
  end.

Definition context_bind_error : exn :=
  ConfigurationError "Registry::bindSingleton: ctr::BeanContext is registered implicitly at start(); explicit bindSingleton<ctr::BeanContext>() is forbidden.".

(** [singletons_.growAndStore(...)] *)
Definition grow_and_store (id : DescriptorId) (object : ptr) : M t unit := λ W,
  match SingletonStore.growAndStore id object (Runtime.singletons_ (rt W)) with
  | None => (Ub, W)
  | Some st => (Ok tt, set_rt (Runtime.set_singletons st (rt W)) W)
  end.

(** [Registry::bindSingleton<T>] *)
Definition registry_bindSingleton (T : BoundType) (object : ptr) (nameId : NameId) (prio : Z)
    : M t Handle.Bean :=
  if bt_isContext T then mthrow_ context_bind_error
  else
    let! W := mget in
    if Startup.started_ (reg W) then
      let! ty := on_reg (Startup.on_tables (adopt_type T)) in
      let! W := mget in
      let D := Startup.descriptors_ (Startup.tables_ (reg W)) in
      if Startup.candidateKeyExists D ty nameId prio then
        let! boundName := mlift (NameInterning.nameOf
          (Startup.nameInterning_ (Startup.tables_ (reg W))) nameId) in
        mthrow_ (exists_error (bt_name T) boundName)
      else
        let! conflict := mlift (conflicting D ty nameId prio
          (Claims.materializing_ (Runtime.claims (rt W)))) in
        if conflict : bool then mthrow_ (materializing_error (bt_name T))
        else
          let! id := on_reg (Startup.on_tables (append_primary (Startup.runtime_hot prio)
            (Startup.bound_cold (noop H) (binding_of T object nameId prio) ty))) in
          do! grow_and_store id object in
          do! on_reg (Startup.on_tables (insert_candidate ty nameId id)) in
          do! on_reg (Startup.on_tables (resort ty)) in
          do! announce (Claims.Key id nullptr) ty object ListenerStore.kNoScope in
          mreturn (Handle.makeDirect object kInvalidSlotId id (registryId H))
    else
      do! on_reg (Startup.enqueue_binding (binding_of T object nameId prio)) in
      mreturn Handle.empty.

(** [BeanContext::bindSingleton<T>]: a scope binds on its root. *)
Definition bindSingleton (T : BoundType) (object : ptr) (bindName : string) (prio : Z)
    : M t unit :=
  let! nameId := internNameSafe bindName in
  do! registry_bindSingleton T object nameId prio in
  mreturn tt.

(** ** Scopes *)

Definition set_object (sc : ptr) (o : ScopeObject) (W : t) : t :=
  set_objects (<[sc := o]> (objects_ W)) W.

Definition object (sc : ptr) : M t ScopeObject := λ W,
  match objects_ W !! sc with Some o => (Ok o, W) | None => (Ub, W) end.

(** An update of the fields of the [ScopedContext] at [sc]. *)
Definition upd_object (sc : ptr) (f : ScopeObject → ScopeObject) : M t unit :=
  mupd (λ W, set_objects (alter f sc (objects_ W)) W).

Definition with_info (i : Runtime.ScopedContext) (o : ScopeObject) : ScopeObject :=
  {| info := i; pendingRuntimeSessions_ := pendingRuntimeSessions_ o;
     scopeDeferred_ := scopeDeferred_ o |}.

Definition with_pending (l : list (DescriptorId * ptr)) (o : ScopeObject) : ScopeObject :=
  {| info := info o; pendingRuntimeSessions_ := l; scopeDeferred_ := scopeDeferred_ o |}.

Definition with_deferred (l : list Deferred) (o : ScopeObject) : ScopeObject :=
  {| info := info o; pendingRuntimeSessions_ := pendingRuntimeSessions_ o;
     scopeDeferred_ := l |}.

Definition with_name (n : NameId) (i : Runtime.ScopedContext) : Runtime.ScopedContext :=
  {| Runtime.scopeNameId_ := n; Runtime.scopeState_ := Runtime.scopeState_ i;
     Runtime.scopedDefaults_ := Runtime.scopedDefaults_ i;
     Runtime.hasAnyScopedDefault_ := Runtime.hasAnyScopedDefault_ i |}.

Definition with_state (st : Runtime.ScopeState) (i : Runtime.ScopedContext)
    : Runtime.ScopedContext :=
  {| Runtime.scopeNameId_ := Runtime.scopeNameId_ i; Runtime.scopeState_ := st;
     Runtime.scopedDefaults_ := Runtime.scopedDefaults_ i;
     Runtime.hasAnyScopedDefault_ := Runtime.hasAnyScopedDefault_ i |}.

Definition with_scopedDefaults (d : DefaultsTable.t) (b : bool) (i : Runtime.ScopedContext)
    : Runtime.ScopedContext :=
  {| Runtime.scopeNameId_ := Runtime.scopeNameId_ i; Runtime.scopeState_ := Runtime.scopeState_ i;
     Runtime.scopedDefaults_ := d; Runtime.hasAnyScopedDefault_ := b |}.

(** A constructed [ScopedContext]. *)
Definition new_scope : ScopeObject :=
  {| info := {| Runtime.scopeNameId_ := kInvalidNameId; Runtime.scopeState_ := Runtime.Stopped;
                Runtime.scopedDefaults_ := DefaultsTable.empty;
                Runtime.hasAnyScopedDefault_ := false |};
     pendingRuntimeSessions_ := []; scopeDeferred_ := [] |}.

Definition upd_info (sc : ptr) (f : Runtime.ScopedContext → Runtime.ScopedContext) : M t unit :=
  upd_object sc (λ o, with_info (f (info o)) o).

Definition upd_session (sc : ptr) (f : SessionStore.t → option SessionStore.t) : M t unit :=
  λ W,
  match Runtime.sessions (rt W) !! sc with
  | None => (Ub, W)
  | Some st =>
      match f st with
      | None => (Ub, W)
      | Some st' =>
          (Ok tt, set_rt (Runtime.set_sessions (<[sc := st']> (Runtime.sessions (rt W))) (rt W)) W)
      end
  end.

(** [BeanContext::resolveScope]; [candidate] is the address of the object that the slow
    path constructs. *)
Definition resolveScope (key : string) (candidate : ptr) : M t ptr :=
  let! W := mget in
  match scopes_ W !! key with
  | Some sc => mreturn sc
  | None =>
      do! mupd (λ W, set_scopes (<[key := candidate]> (scopes_ W))
                       (set_object candidate new_scope W)) in
      do! mupd (λ W, set_rt (Runtime.set_sessions
                       (<[candidate := SessionStore.empty]> (Runtime.sessions (rt W))) (rt W)) W) in
      let! n := internNameSafe key in
      do! upd_info candidate (with_name n) in
      do! (λ W, let '(o, T) := ScopeTable.registerScope n candidate (scopeChunks_ W) in
                (o, set_chunks T W)) in
      mreturn candidate
  end.

Definition not_started_error : exn :=
  ContextStateError "ScopedContext::start: the root registry must be started before a scope can start.".

Definition stopping_error : exn :=
  ContextStateError "ScopedContext::start: cannot start a scope that is being stopped.".

(** One pending session binding of [ScopedContext::start]. *)
Definition start_pending (sc : ptr) (p : DescriptorId * ptr) : M t unit :=
  let! W := mget in
  let D := Startup.descriptors_ (Startup.tables_ (reg W)) in
  let! d := mlift (DescriptorTable.at_ D p.1) in
  let! cold := mlift (DescriptorTable.coldAt D p.1) in
  do! upd_session sc (SessionStore.store (sessionSlot d) p.1 p.2) in
  let! o := object sc in
  announce (Claims.Key p.1 sc) (exposedType cold) p.2 (Runtime.scopeNameId_ (info o)).

(** [ScopedContext::start] *)
Definition scope_start (sc : ptr) : M t unit :=
  let! W := mget in
  if negb (Startup.started_ (reg W)) then mthrow_ not_started_error
  else
    let! o := object sc in
    match Runtime.scopeState_ (info o) with
    | Runtime.Running_ => mreturn tt
    | Runtime.Stopping => mthrow_ stopping_error
    | Runtime.Stopped =>
        do! upd_session sc (λ st, Some (SessionStore.resize
              (Startup.sessionSlotCount_ (reg W)) st)) in
        do! mfor (start_pending sc) (pendingRuntimeSessions_ o) in
        do! upd_object sc (with_pending []) in
        upd_info sc (with_state Runtime.Running_)
    end.

(** [Registry::stopScope], which leaves the scope stopped. *)
Definition stopScope (sc : ptr) (deferDeallocation : bool) : M t unit :=
  do! on_rt (λ E, Runtime.stopScope E fuel sc deferDeallocation) in
  upd_info sc (with_state Runtime.Stopped).

(** [ScopedContext::stop] *)
Definition scope_stop (sc : ptr) : M t unit :=
  let! o := object sc in
  if decide (Runtime.scopeState_ (info o) ≠ Runtime.Running_) then mreturn tt
  else stopScope sc false.

(** [ScopedContext::restart] *)
Definition scope_restart (sc : ptr) : M t unit :=
  let! o := object sc in
  do! (if decide (Runtime.scopeState_ (info o) = Runtime.Running_)
       then stopScope sc true else scope_stop sc) in
  scope_start sc.

(** ** [ScopedContext::bindSession<T>] *)

Definition session_context_error : exn :=
  ConfigurationError "ScopedContext::bindSession: ctr::BeanContext cannot be bound as a session bean.".

Definition session_bound_error : exn :=
  ConfigurationError "ScopedContext::bindSession: binding already exists for this session key in the current scope cycle.".

(** A pending binding of the scope with the same type, name and priority. *)
Fixpoint pending_key (D : DescriptorTable.t) (ty : TypeId) (n : NameId) (prio : Z)
    (ps : list (DescriptorId * ptr)) : option bool :=
  match ps with
  | [] => Some false
  | p :: ps' =>
      d ← DescriptorTable.at_ D p.1;
      c ← DescriptorTable.coldAt D p.1;
      if (exposedType c =? ty) && (name c =? n) && Z.eqb (priority d) prio
      then Some true else pending_key D ty n prio ps'
  end.

(** The session descriptor an earlier [bindSession] made for the key. *)
Fixpoint reusable (D : DescriptorTable.t) (prio : Z) (ids : list DescriptorId)
    : option DescriptorId :=
  match ids with
  | [] => Some kInvalidDescriptorId
  | id :: ids' =>
      d ← DescriptorTable.at_ D id;
      c ← DescriptorTable.coldAt D id;
      if bool_decide (origin c = RuntimeBinding) && bool_decide (lifetime d = Session)
         && Z.eqb (priority d) prio
      then Some id else reusable D prio ids'
  end.

Definition session_hot (prio : Z) (slot : SessionSlot) : Descriptor :=
  {| priority := prio; primaryDescriptor := kInvalidDescriptorId; sessionSlot := slot;
     lifetime := Session; adjustToExposed := None |}.

(** [static_cast<SessionSlot>(sessionSlotCount_++)] *)
Definition next_slot : M Startup.t SessionSlot := λ R,
  (Ok (u32 (Startup.sessionSlotCount_ R)),
   Startup.set_slotCount (Startup.sessionSlotCount_ R + 1) R).

(** The descriptor of a session key that has none yet. *)
Definition new_session_descriptor (T : BoundType) (ty : TypeId) (n : NameId) (prio : Z)
    : M Startup.t DescriptorId :=
  let! R := mget in
  let! slot := (if Startup.started_ R then next_slot else mreturn kInvalidSessionSlot) in
  let! id := Startup.on_tables (append_primary (session_hot prio slot)
    (Startup.bound_cold (noop H) (binding_of T nullptr n prio) ty)) in
  do! Startup.on_tables (insert_candidate ty n id) in
  do! (if Startup.started_ R then Startup.on_tables (resort ty) else mreturn tt) in
  mreturn id.

Definition session_type (T : BoundType) : M Startup.t TypeId :=
  let! R := mget in
  Startup.on_tables (if Startup.started_ R then adopt_type T
                     else Startup.internByName (bt_name T) (bt_typeInfo T)).

(** The descriptor to use: an old one of a started registry, or a new one. *)
Definition session_descriptor (T : BoundType) (ty : TypeId) (n : NameId) (prio : Z)
    : M Startup.t DescriptorId :=
  let! R := mget in
  let tb := Startup.tables_ R in
  let! old :=
    (if Startup.started_ R then
       match TypeIndex.candidatesFor (Startup.typeIndex_ tb) ty n with
       | Some ids => mlift (reusable (Startup.descriptors_ tb) prio ids)
       | None => mreturn kInvalidDescriptorId
       end
     else mreturn kInvalidDescriptorId) in
  if old =? kInvalidDescriptorId then new_session_descriptor T ty n prio else mreturn old.

Definition find_instance (sc : ptr) (slot : SessionSlot) : M t ptr := λ W,
  match Runtime.find_session sc slot (rt W) with Some p => (Ok p, W) | None => (Ub, W) end.

Definition bindSession (sc : ptr) (T : BoundType) (bound : ptr) (bindName : string) (prio : Z)
    : M t unit :=
  if bt_isContext T then mthrow_ session_context_error
  else
    let! n := internNameSafe bindName in
    let! ty := on_reg (session_type T) in
    let! o := object sc in
    let! W := mget in
    let! again := mlift (pending_key (Startup.descriptors_ (Startup.tables_ (reg W))) ty n prio
                           (pendingRuntimeSessions_ o)) in
    if again : bool then mthrow_ session_bound_error
    else
      let! id := on_reg (session_descriptor T ty n prio) in
      if decide (id ∈ (pendingRuntimeSessions_ o).*1) then mthrow_ session_bound_error
      else if decide (Runtime.scopeState_ (info o) ≠ Runtime.Running_) then
        upd_object sc (with_pending (pendingRuntimeSessions_ o ++ [(id, bound)]))
      else
        let! W := mget in
        let! d := mlift (DescriptorTable.at_
                           (Startup.descriptors_ (Startup.tables_ (reg W))) id) in
        let! present := find_instance sc (sessionSlot d) in
        if negb (present =? nullptr) then mthrow_ session_bound_error
        else
          do! upd_session sc (SessionStore.growAndStore (sessionSlot d) id bound) in
          announce (Claims.Key id sc) ty bound (Runtime.scopeNameId_ (info o)).

(** ** Resolution *)

(** [resolve<T>()] on the root ([None]) or on a scope. *)
Definition resolve (ctx : option ptr) (g : TypeInfo) : M t Handle.Bean :=
  let! W := mget in
  on_rt (λ E, Runtime.resolve E fuel ctx (typeIdFor g W) kUnnamed).

Definition unknown_name_error (key : string) : exn :=
  ResolutionError ("BeanContext::resolve: unknown named qualifier '" +:+ key +:+ "'.").

(** [resolve<T>(named)] *)
Definition resolve_named (ctx : option ptr) (g : TypeInfo) (key : string) : M t Handle.Bean :=
  let! W := mget in
  let n := NameInterning.lookup (Startup.nameInterning_ (Startup.tables_ (reg W))) key in
  if n =? kInvalidNameId then mthrow_ (unknown_name_error key)
  else on_rt (λ E, Runtime.resolve E fuel ctx (typeIdFor g W) n).

(** ** Named defaults *)

Definition default_state_error : exn :=
  ContextStateError "BeanContext::defaultNamed: context must be started; TypeId is not assigned before start().".

Definition empty_default_error : exn :=
  ConfigurationError "BeanContext::defaultNamed: empty string is not a valid named qualifier; use defaultNamed(nullptr) to clear the default.".

Definition no_slot_error : exn :=
  ConfigurationError "BeanContext::defaultNamed: type T has no defaults slot in this context; defaults can only be set for types registered before start().".

(** [Registry::setDefault]; [None] of the table is its failed assertion. *)
Definition setDefault (ty : TypeId) (n : NameId) : M t unit := λ W,
  match DefaultsTable.setDefault ty n (Startup.defaults_ (reg W)) with
  | None => (Ub, W)
  | Some D => (Ok tt, set_defaulted (hasAnyDefault_ W || negb (n =? kUnnamed))
                        (set_reg (set_defaults D (reg W)) W))
  end.

(** The scope's own table, sized like the root's on its first use. *)
Definition scope_setDefault (sc : ptr) (ty : TypeId) (n : NameId) : M t unit :=
  let! W := mget in
  let! o := object sc in
  let own := Runtime.scopedDefaults_ (info o) in
  let sized := if DefaultsTable.size_ own =? 0
               then DefaultsTable.resize (DefaultsTable.size_ (Startup.defaults_ (reg W))) own
               else own in
  let! D := mlift (DefaultsTable.setDefault ty n sized) in
  upd_info sc (with_scopedDefaults D true).

(** [defaultNamed<T>(name)] *)
Definition defaultNamed (ctx : option ptr) (g : TypeInfo) (defaultName : string) : M t unit :=
  let! W := mget in
  if negb (Startup.started_ (reg W)) then mthrow_ default_state_error
  else if decide (defaultName = ""%string) then mthrow_ empty_default_error
  else
    let ty := typeIdFor g W in
    if DefaultsTable.size_ (Startup.defaults_ (reg W)) <=? ty then mthrow_ no_slot_error
    else
      let! n := internNameSafe defaultName in
      match ctx with
      | Some sc => scope_setDefault sc ty n
      | None => setDefault ty n
      end.

(** [defaultNamed<T>(nullptr)] *)
Definition defaultNamed_clear (ctx : option ptr) (g : TypeInfo) : M t unit :=
  let! W := mget in
  if negb (Startup.started_ (reg W)) then mthrow_ default_state_error
  else
    let ty := typeIdFor g W in
    if DefaultsTable.size_ (Startup.defaults_ (reg W)) <=? ty then mreturn tt
    else match ctx with
         | Some sc =>
             let! o := object sc in
             let own := Runtime.scopedDefaults_ (info o) in
             if DefaultsTable.size_ own =? 0 then mreturn tt
             else
               let! D := mlift (DefaultsTable.setDefault ty kUnnamed own) in
               upd_info sc (with_scopedDefaults D (Runtime.hasAnyScopedDefault_ (info o)))
         | None => setDefault ty kUnnamed
         end.

(** ** Listeners *)

Definition listenerScope_of (ctx : option ptr) : M t NameId :=
  match ctx with
  | None => mreturn ListenerStore.kAllScopes
  | Some sc => let! o := object sc in mreturn (Runtime.scopeNameId_ (info o))
  end.

Definition add_listener (phase : N) (scope : NameId) (cb : N) (prio : Z)
    : M t ListenerStore.ListenerHandle := λ W,
  match ListenerStore.addListener phase kInvalidTypeId scope cb prio (listeners_ W) with
  | None => (Ub, W)
  | Some (tok, L) => (Ok (ListenerStore.makeHandle tok), set_listeners L W)
  end.

(** Append to the context's own [deferredListeners_]. *)
Definition defer_listener (ctx : option ptr) (d : Deferred) : M t unit :=
  match ctx with
  | None => mupd (λ W, set_deferred (deferredListeners_ W ++ [d]) W)
  | Some sc => upd_object sc (λ o, with_deferred (scopeDeferred_ o ++ [d]) o)
  end.

(** [on<T>(phase, callback, options)]; [cb] is the wrapper that filters by type. *)
Definition on_typed (ctx : option ptr) (g : TypeInfo) (phase : N) (cb : N) (prio : Z)
    : M t ListenerStore.ListenerHandle :=
  let! scope := listenerScope_of ctx in
  let! W := mget in
  if negb (Startup.started_ (reg W)) then
    let '(tok, L) := ListenerStore.reserveToken (listeners_ W) in
    do! mupd (set_listeners L) in
    do! defer_listener ctx {| df_typeIndex := g; df_phaseIndex := phase;
                              df_listenerScope := scope; df_callback := cb;
                              df_priority := prio; df_token := tok |} in
    mreturn (ListenerStore.makeHandle tok)
  else add_listener phase scope cb prio.

(** [on(phase, callback, options)], the listener of all types. *)
Definition on_any (ctx : option ptr) (phase : N) (cb : N) (prio : Z)
    : M t ListenerStore.ListenerHandle :=
  let! scope := listenerScope_of ctx in
  add_listener phase scope cb prio.

(** [BeanContext::remove(handle)] *)
Definition remove (h : ListenerStore.ListenerHandle) : M t ListenerStore.ListenerHandle := λ W,
  let '(h', L) := ListenerStore.handle_remove h (listeners_ W) in (Ok h', set_listeners L W).

Definition flush_one (d : Deferred) : M t unit := λ W,
  match ListenerStore.addListenerDeferred (df_phaseIndex d) kInvalidTypeId (df_listenerScope d)
          (df_callback d) (df_priority d) (df_token d) (listeners_ W) with
  | None => (Ub, W)
  | Some (_, L) => (Ok tt, set_listeners L W)
  end.

(** [flushDeferredListeners_] of the root or of a scope. *)
Definition flushDeferredListeners_ (ctx : option ptr) : M t unit :=
  let! l := (match ctx with
             | None => let! W := mget in mreturn (deferredListeners_ W)
             | Some sc => let! o := object sc in mreturn (scopeDeferred_ o)
             end) in
  if decide (l = []) then mreturn tt
  else
    do! mfor flush_one l in
    do! mupd (λ W, set_listeners (ListenerStore.finalizeListeners (listeners_ W)) W) in
    match ctx with
    | None => mupd (set_deferred [])
    | Some sc => upd_object sc (with_deferred [])
    end.

(** ** Starting and stopping *)

Definition upd_reg (f : Startup.t → Startup.t) : M t unit :=
  mupd (λ W, set_reg (f (reg W)) W).

(** [dispatchBeanContextStartLifecycle] *)
Definition dispatchBeanContextStartLifecycle : M t unit :=
  let! W := mget in
  if negb (Startup.beanContextStartLifecyclePending_ (reg W)) then mreturn tt
  else
    do! upd_reg (set_contextPending false) in
    let id := Startup.beanContextDescId_ (reg W) in
    let! cold := mlift (DescriptorTable.coldAt
                          (Startup.descriptors_ (Startup.tables_ (reg W))) id) in
    announce (Claims.Key id nullptr) (exposedType cold) (Startup.root_ (reg W))
      ListenerStore.kNoScope.

(** [dispatchBoundSingletonLifecycle] *)
Definition dispatchBoundSingletonLifecycle : M t unit :=
  let! W := mget in
  do! mfor (λ b, announce (Claims.Key (Startup.sb_descId b) nullptr)
                   (Startup.sb_exposedTypeId b) (Startup.sb_instance b) ListenerStore.kNoScope)
        (Startup.startLifecyclePending_ (reg W)) in
  upd_reg (set_startLifecycle []).

(** The eager singletons among the descriptors from [id] on, with their priorities. *)
Fixpoint eager_from (id : DescriptorId) (xs : list (Descriptor * DescriptorCold))
    : list (Z * DescriptorId) :=
  match xs with
  | [] => []
  | (d, cold) :: xs' =>
      (if bool_decide (lifetime d = Singleton) && bool_decide (origin cold ≠ RuntimeBinding)
          && negb (lazy cold) && (primaryDescriptor d =? id)
       then [(priority d, id)] else []) ++ eager_from (id + 1) xs'
  end.

Definition eager (D : DescriptorTable.t) : list (Z * DescriptorId) :=
  std_sort (λ a b, Z.gtb a.1 b.1)
    (eager_from 0 (zip (DescriptorTable.entries_ D) (DescriptorTable.coldEntries_ D))).

(** [materializeEagerSingletons] *)
Definition materializeEagerSingletons : M t unit :=
  let! W := mget in
  mfor (λ x : Z * DescriptorId,
          do! on_rt (λ E, Runtime.materializeOneImpl E (Runtime.resolve E fuel)
                            Runtime.alias_depth x.2 None) in
          mreturn tt)
    (eager (Startup.descriptors_ (Startup.tables_ (reg W)))).

(** [completeStart] *)
Definition completeStart : M t unit := upd_reg (set_pending []).

(** [stopRegistryOwnedBeans], which leaves [started_] false. *)
Definition stopRegistryOwnedBeans : M t bool :=
  let! owned := on_rt (λ E, Runtime.stopRegistryOwnedBeans E fuel) in
  do! upd_reg (set_started false) in
  mreturn owned.

(** [rollbackFailedStart] *)
Definition rollbackFailedStart : M t unit :=
  do! upd_reg (set_startLifecycle []) in
  do! mupd (λ W, set_rt (Runtime.set_claims
              (Claims.with_materializing [] (Runtime.claims (rt W))) (rt W)) W) in
  do! stopRegistryOwnedBeans in
  mreturn tt.

(** The [try] block of [BeanContext::start]. *)
Definition start_body (root : ptr) : M t unit :=
  do! on_reg (Startup.start (noop H) (contextTypeInfo H) (contextAlign H) root) in
  do! flushDeferredListeners_ None in
  let! W := mget in
  do! mfor (λ sc, flushDeferredListeners_ (Some sc)) (scope_order H (scopes_ W)) in
  do! dispatchBeanContextStartLifecycle in
  do! dispatchBoundSingletonLifecycle in
  do! materializeEagerSingletons in
  completeStart.

(** [BeanContext::start] *)
Definition start (root : ptr) : M t unit :=
  mcatch (start_body root) (λ e, do! rollbackFailedStart in mthrow_ e).

(** [Registry::stop], which also clears the listeners when it owned the beans. *)
Definition registry_stop : M t unit :=
  let! W := mget in
  do! on_rt (λ E, Runtime.stop E fuel) in
  if Startup.started_ (reg W) then
    do! upd_reg (set_started false) in
    mupd (λ W, set_listeners (ListenerStore.clear (listeners_ W)) W)
  else mreturn tt.

(** [BeanContext::stop], up to the erasure of the context itself. *)
Definition stop : M t unit :=
  let! W := mget in
  do! mfor scope_stop (scope_order H (scopes_ W)) in
  registry_stop.

(** ** Destructors *)

(** [destroy], then [dealloc] or the sized [operator delete]. *)
Definition destroy_unstarted (key : Claims.MaterializationKey) (object : ptr)
    (deallocFn : option FnPtr) (bytes : N) : M t unit :=
  on_rt (λ _,
    do! Runtime.emit Runtime.Destructor key object in
    if bool_decide (deallocFn ≠ None) || negb (bytes =? 0)
    then Runtime.emit Runtime.Deallocated key object else mreturn tt).

(** [~ScopedContext]: the session objects that no start of the scope took. *)
Definition destroy_scope (sc : ptr) : M t unit :=
  let! o := object sc in
  mfor (λ p : DescriptorId * ptr,
          let! W := mget in
          let! cold := mlift (DescriptorTable.coldAt
                                (Startup.descriptors_ (Startup.tables_ (reg W))) p.1) in
          destroy_unstarted (Claims.Key p.1 sc) p.2 (dealloc cold) (Tables.size cold))
    (pendingRuntimeSessions_ o).

(** [~Registry]: a registry that still runs is stopped, and the objects of bindings no
    start took are destroyed; they have no descriptor. *)
Definition destroy_registry : M t unit :=
  do! stopRegistryOwnedBeans in
  let! W := mget in
  do! mfor (λ pb,
              if negb (Startup.p_instance pb =? nullptr)
              then destroy_unstarted (Claims.Key kInvalidDescriptorId nullptr)
                     (Startup.p_instance pb) (Startup.p_dealloc pb) (Startup.p_size pb)
              else mreturn tt)
        (Startup.pendingRuntimeSingletons_ (reg W)) in
  on_rt (λ E, Runtime.proto_op E PrototypeStore.OpMarkDead).

End engine.

(** ** The contexts of the process *)

(** [kCtoriumBeanContextRoot], and [resolveContext(key)] with the address of the context
    it makes for a new key. *)
Definition Contexts : Type := gmap string ptr.

Definition resolveContext (key : string) (candidate : ptr) (roots : Contexts)
    : ptr * Contexts :=
  match roots !! key with
  | Some c => (c, roots)
  | None => (candidate, <[key := candidate]> roots)
  end.

(** The last statement of [BeanContext::stop]. *)
Definition eraseContext (key : string) (roots : Contexts) : Contexts := delete key roots.

(** ** [ScopedContext::userData] *)

(** [userData_] with [userDataType_]. *)
Record UserData : Type := { userData_ : ptr; userDataType_ : TypeInfo }.

Definition set_userData (value : ptr) (g : TypeInfo) : UserData :=
  {| userData_ := value; userDataType_ := g |}.

Definition get_userData (g : TypeInfo) (u : UserData) : option ptr :=
  if userData_ u =? nullptr then None
  else if decide (g ≠ userDataType_ u) then None else Some (userData_ u).

End World.
