(* ===== verification/SampleWorld.v ===== *)
(** A context with its host, for the witnesses: the registry of [SampleStart], or one with
    eager singletons, started at address 300. *)
From S2P Require Import Prelude Tables Interning Index Stores Startup Started SampleStart Opened Freelist Prototypes Listeners Claims Handles Casts Caches Runtime RuntimeFacts Sample Resolution Ready World.

Local Open Scope N_scope.

Module SampleWorld.
Import World.
Local Open Scope ctr_scope.

(** Function 17 throws. *)
Definition constructor (f : FnPtr) : Runtime.prog :=
  if f =? 17 then Runtime.Raise 7 else Runtime.Return.

Definition host : World.host :=
  {| registryId := 1; threadToken := 1; maxSlots := Some 1000; noop := 0;
     contextTypeInfo := 99; contextAlign := 8; scope_order := λ m, (map_to_list m).*2;
     call_construct := λ f _ _, constructor f;
     call_allocAndConstruct := λ _ _, Runtime.Return; call_hook := λ _ _ _, Runtime.Return;
     call_listener := λ _ _, Runtime.Return; call_adjust := λ _ p, p + 16 |}.

(** A context that was not started. *)
Definition fresh (R : Startup.t) : t :=
  {| reg := R; rt := Ready.state_of R ∅ 4096; hasAnyDefault_ := false;
     listeners_ := ListenerStore.empty; deferredListeners_ := []; scopes_ := ∅;
     scopeChunks_ := ScopeTable.empty; objects_ := ∅ |}.

Definition launch (W : t) : t := (start host 15 300 W).2.

(** [SampleStart.discovered], started. *)
Definition app : t := launch (fresh SampleStart.discovered).

(** An eager singleton. *)
Definition eager_bean (id : Identity) (ty : string) (g : TypeInfo) (prio : Z)
    : ContributedDescriptor :=
  {| cd_identity := id; cd_exposedTypeName := ty; cd_concreteTypeName := ty;
     cd_exposedTypeInfo := g; cd_concreteTypeInfo := g; cd_beanName := ""; cd_priority := prio;
     cd_lazy := false; cd_lifetime := Singleton; cd_origin := AnnotatedType;
     cd_construct := 10 + id; cd_destroy := 0; cd_postConstruct := Some 50;
     cd_preDestroy := Some 51; cd_size := 8; cd_align := 8;
     cd_factoryMethodIdentity := kNoFactoryMethod; cd_factoryMethodName := None;
     cd_allocAndConstruct := None; cd_dealloc := None; cd_params := [];
     cd_reflectiveData := None; cd_isExposedAlias := false;
     cd_aliasOfPrimaryIdentity := kNoFactoryMethod; cd_adjustToExposed := None;
     cd_adjustToConcrete := None |}.

(** Two eager singletons; the constructor of the optional third, of lowest priority,
    throws. *)
Definition eager_units (failing : bool) : list (list ContributedDescriptor) :=
  [[eager_bean 1 "E1" 61 1; eager_bean 2 "E2" 62 5] ++
   (if failing then [eager_bean 7 "E7" 67 (-1)] else [])].

End SampleWorld.
