(* ===== verification/Contexts.v ===== *)
(** Theorems about the operations of a context: names and defaults, the start with its
    eager singletons and its rollback. *)
From S2P Require Import Prelude Tables Interning Index Stores Startup StartupFacts Started SampleStart Opened Freelist Prototypes Listeners Claims Handles Casts Caches Runtime RuntimeFacts Sample Resolution Shutdown Ready World SampleWorld.

Local Open Scope N_scope.

Module Contexts.
Import World.
Local Open Scope ctr_scope.

Abbreviation names W := (Startup.nameInterning_ (Startup.tables_ (reg W))) (only parsing).

(** ** Names *)

(** The context after an interning: the name table changes, and [on_reg] copies the
    singleton store into the registry. *)
Definition with_names (T : NameInterning.t) (W : t) : t :=
  set_reg (Startup.set_tables (Startup.set_nameInterning T (Startup.tables_ (reg W)))
             (registry W)) W.

Lemma internNameSafe_run name W : name ≠ ""%string →
  internNameSafe name W =
    (Ok (NameInterning.intern name (names W)).1,
     with_names (NameInterning.intern name (names W)).2 W).
Proof.
  intros Hne. unfold internNameSafe. rewrite decide_False by done.
  unfold on_reg, Startup.on_tables, Startup.intern, with_names, registry.
  destruct W as [R [] b L ds sc ch ob]; simpl.
  by destruct (NameInterning.intern name _).
Qed.

Lemma intern_named name T : NameInterning.wf T → NameInterning.size T < kThreadLocalSentinel - 1 →
  name ≠ ""%string →
  (NameInterning.intern name T).1 ≠ kUnnamed ∧ (NameInterning.intern name T).1 ≠ kInvalidNameId ∧
  NameInterning.lookup (NameInterning.intern name T).2 name = (NameInterning.intern name T).1.
Proof.
  intros Hwf Hsz Hne. pose proof (NameInterning.name_intern_wf name T Hwf Hsz) as Hwf'.
  destruct (NameInterning.intern_reads name T Hwf Hsz) as [Hr _].
  pose proof (vat_lt _ _ _ Hr) as Hlt. pose proof (NameInterning.intern_size name T) as Hs.
  unfold NameInterning.size, kThreadLocalSentinel, kInvalidNameId in *.
  split_and!; [|lia|by apply NameInterning.intern_lookup].
  intros Hz. rewrite Hz in Hr. pose proof (NameInterning.wf_unnamed _ Hwf') as H0.
  change kUnnamed with 0 in Hr. rewrite H0 in Hr. by injection Hr.
Qed.

(** ** Named defaults *)

(** The default a context holds itself. *)
Definition default_of (ctx : option ptr) (ty : TypeId) (W : t) : NameId :=
  match ctx with
  | None => DefaultsTable.getDefault (Startup.defaults_ (reg W)) ty
  | Some sc =>
      match objects_ W !! sc with
      | Some o => DefaultsTable.getDefault (Runtime.scopedDefaults_ (info o)) ty
      | None => kUnnamed
      end
  end.

(** What [resolve] selects in a context; [None] when the scope does not exist. *)
Definition selects (H : host) (ctx : option ptr) (W : t) (ty : TypeId) (n : NameId)
    : option (outcome DescriptorId) :=
  i ← Runtime.scope_of (env_of H W) ctx;
  Some (Runtime.selectCandidate (env_of H W) i ty n).

(** The tables of defaults: the root's, and a scope's own, empty or of the same size; a
    flag that is not set means that the table has no default. *)
Record defaults_ok (W : t) : Prop := {
  do_root : DefaultsTable.wf (Startup.defaults_ (reg W));
  do_flag ty : hasAnyDefault_ W = false → default_of None ty W = kUnnamed;
  do_scope sc o : objects_ W !! sc = Some o →
    DefaultsTable.wf (Runtime.scopedDefaults_ (info o)) ∧
    (DefaultsTable.size_ (Runtime.scopedDefaults_ (info o)) = 0 ∨
     DefaultsTable.size_ (Runtime.scopedDefaults_ (info o)) =
       DefaultsTable.size_ (Startup.defaults_ (reg W)));
  do_scope_flag sc o ty : objects_ W !! sc = Some o →
    Runtime.hasAnyScopedDefault_ (info o) = false →
    DefaultsTable.getDefault (Runtime.scopedDefaults_ (info o)) ty = kUnnamed
}.

Definition live (ctx : option ptr) (W : t) : Prop :=
  match ctx with None => True | Some sc => is_Some (objects_ W !! sc) end.

Section defaults.
Context `{SS : StdSort} (H : host) (fuel : nat).

(** The name a request is completed with: its own, the context's default, the root's. *)
Definition wanted (ctx : option ptr) (W : t) (ty : TypeId) (n : NameId) : NameId :=
  if decide (n ≠ kUnnamed) then n
  else if decide (default_of ctx ty W ≠ kUnnamed) then default_of ctx ty W
  else default_of None ty W.

Abbreviation pick := Resolution.select_name (only parsing).

Lemma scope_info ctx W i : Runtime.scope_of (env_of H W) ctx = Some i →
  live ctx W ∧
  i = match ctx with Some sc => info <$> objects_ W !! sc | None => None end.
Proof.
  destruct ctx as [sc|]; simpl; [|by intros [= <-]]. rewrite lookup_fmap.
  destruct (objects_ W !! sc); simpl; [|done]. intros [= <-]. split; [by eexists|done].
Qed.

Lemma live_scope ctx W : live ctx W →
  Runtime.scope_of (env_of H W) ctx =
    Some (match ctx with Some sc => info <$> objects_ W !! sc | None => None end).
Proof.
  destruct ctx as [sc|]; [|done]. intros [o Ho]. simpl. by rewrite lookup_fmap, Ho.
Qed.

Lemma defaults_flags ctx W : defaults_ok W → live ctx W →
  Resolution.flags_ok (env_of H W)
    (match ctx with Some sc => info <$> objects_ W !! sc | None => None end).
Proof.
  intros [_ Hf _ Hs] Hl. split; [intros Hb ty; by apply Hf|].
  destruct ctx as [sc|]; [|done]. destruct Hl as [o Ho]. rewrite Ho. simpl.
  intros Hb ty. by apply (Hs sc).
Qed.

Lemma effective_wanted ctx W ty n : defaults_ok W → live ctx W →
  Runtime.effectiveName (env_of H W)
    (match ctx with Some sc => info <$> objects_ W !! sc | None => None end) ty n = wanted ctx W ty n.
Proof.
  intros HD Hl. rewrite Resolution.effectiveName_reference by by apply defaults_flags.
  unfold Resolution.reference_name, wanted, default_of. case_decide; [done|].
  destruct ctx as [sc|]; [|simpl; by repeat case_decide].
  destruct Hl as [o Ho]. by rewrite Ho.
Qed.

Lemma selects_wanted ctx W ty n : defaults_ok W → live ctx W →
  selects H ctx W ty n = Some (pick (env_of H W) ty (wanted ctx W ty n)).
Proof.
  intros HD Hl. unfold selects. rewrite live_scope by done. simpl. f_equal.
  unfold Runtime.selectCandidate. by rewrite effective_wanted.
Qed.

Lemma bind_lift {A B} (a : A) (k : A → M Runtime.t B) :
  mbind_ (Runtime.lift (Some a)) k = k a.
Proof. done. Qed.

(** Two requests that are completed with the same name are the same request. *)
Lemma resolve_wanted ctx W g ty n n' : defaults_ok W → live ctx W →
  wanted ctx W ty n = wanted ctx W ty n' →
  Runtime.resolve (env_of H W) g ctx ty n = Runtime.resolve (env_of H W) g ctx ty n'.
Proof.
  intros HD Hl Hw. destruct g as [|g]; [done|]. cbn [Runtime.resolve].
  unfold Runtime.resolve_body.
  pose proof (selects_wanted ctx W ty n HD Hl) as H1.
  pose proof (selects_wanted ctx W ty n' HD Hl) as H2. rewrite Hw, <-H2 in H1.
  unfold selects in H1. rewrite live_scope in H1 by done.
  rewrite live_scope by done. simpl in H1. injection H1 as H1. by rewrite !bind_lift, H1.
Qed.

(** A change of the names and the defaults only. *)
Record framed (W W' : t) : Prop := {
  fr_rt : rt W' = rt W;
  fr_listeners : listeners_ W' = listeners_ W;
  fr_chunks : scopeChunks_ W' = scopeChunks_ W;
  fr_slots : Startup.sessionSlotCount_ (reg W') = Startup.sessionSlotCount_ (reg W);
  fr_scope sc o' : objects_ W' !! sc = Some o' → ∃ o, objects_ W !! sc = Some o ∧
    pendingRuntimeSessions_ o' = pendingRuntimeSessions_ o ∧
    Runtime.scopeState_ (info o') = Runtime.scopeState_ (info o) ∧
    Runtime.scopeNameId_ (info o') = Runtime.scopeNameId_ (info o)
}.

(** The context after a default is written. *)
Definition default_written (ctx : option ptr) (ty : TypeId) (n : NameId) (W W' : t) : Prop :=
  defaults_ok W' ∧ (∀ c, live c W → live c W') ∧
  default_of ctx ty W' = n ∧
  (∀ c ty', (c, ty') ≠ (ctx, ty) → default_of c ty' W' = default_of c ty' W) ∧
  Startup.started_ (reg W') = Startup.started_ (reg W) ∧
  Startup.tables_ (reg W') = Startup.tables_ (reg W) ∧
  DefaultsTable.size_ (Startup.defaults_ (reg W')) = DefaultsTable.size_ (Startup.defaults_ (reg W)) ∧
  framed W W'.

Lemma setDefault_written ty n W : defaults_ok W →
  ty < DefaultsTable.size_ (Startup.defaults_ (reg W)) →
  ∃ W', setDefault ty n W = (Ok tt, W') ∧ default_written None ty n W W'.
Proof.
  intros [Hr Hf Hs Hsf] Hty. unfold setDefault.
  destruct (DefaultsTable.setDefault_in_range _ ty n Hty) as [D HD]. rewrite HD.
  destruct (DefaultsTable.setDefault_spec _ _ _ _ Hr HD) as (Hw & Hsz & _ & Hg).
  eexists. split; [done|]. split_and!; try done.
  - split; simpl; [done| |by rewrite Hsz|done].
    intros ty' [Hb Hn]%orb_false_iff. rewrite negb_false_iff, N.eqb_eq in Hn.
    rewrite Hg. case_decide; [done|]. by apply Hf.
  - simpl. by rewrite Hg, decide_True.
  - intros [c|] ty' Hne; simpl; [done|]. rewrite Hg, decide_False; [done|congruence].
  - split; try done. intros sc o Ho. by exists o.
Qed.

Lemma getDefault_empty T ty : DefaultsTable.size_ T = 0 → DefaultsTable.getDefault T ty = kUnnamed.
Proof. intros Hs. apply DefaultsTable.getDefault_out. lia. Qed.

Lemma scope_written sc o D (b : bool) ty n W : defaults_ok W → objects_ W !! sc = Some o →
  DefaultsTable.wf D →
  (DefaultsTable.size_ D = 0 ∨
   DefaultsTable.size_ D = DefaultsTable.size_ (Startup.defaults_ (reg W))) →
  (b = false → ∀ ty', DefaultsTable.getDefault D ty' = kUnnamed) →
  DefaultsTable.getDefault D ty = n →
  (∀ ty', ty' ≠ ty → DefaultsTable.getDefault D ty' =
     DefaultsTable.getDefault (Runtime.scopedDefaults_ (info o)) ty') →
  ∃ W', upd_info sc (with_scopedDefaults D b) W = (Ok tt, W') ∧
    default_written (Some sc) ty n W W'.
Proof.
  intros [Hr Hf Hs Hsf] Ho HD Hsz Hb Hn Hother. eexists. split; [done|]. unfold upd_info, upd_object.
  split_and!; try done.
  - split; simpl; [done|done| |].
    + intros sc' o'. rewrite lookup_alter. case_decide; [subst sc'|apply Hs].
      rewrite Ho. by intros [= <-].
    + intros sc' o' ty'. rewrite lookup_alter. case_decide; [subst sc'|apply Hsf].
      rewrite Ho. intros [= <-] Hfl. by apply Hb.
  - intros [c|]; simpl; [|done]. rewrite lookup_alter. case_decide; [|done]. subst.
    intros _. rewrite Ho. by eexists.
  - simpl. by rewrite lookup_alter, decide_True, Ho.
  - intros [c|] ty' Hne; simpl; [|done]. rewrite lookup_alter. case_decide; [subst c|done].
    rewrite Ho. simpl. apply Hother. congruence.
  - split; try done. intros sc' o'. simpl. rewrite lookup_alter. case_decide; [subst sc'|by exists o'].
    rewrite Ho. intros [= <-]. by exists o.
Qed.

(** [pick] reads the descriptors and the index. *)
Lemma pick_ext W W' ty n :
  Startup.descriptors_ (Startup.tables_ (reg W')) = Startup.descriptors_ (Startup.tables_ (reg W)) →
  Startup.typeIndex_ (Startup.tables_ (reg W')) = Startup.typeIndex_ (Startup.tables_ (reg W)) →
  pick (env_of H W') ty n = pick (env_of H W) ty n.
Proof. intros HD HI. unfold Resolution.select_name, Runtime.fromEntry. simpl. by rewrite HD, HI. Qed.

Lemma named_ok T W : defaults_ok W → defaults_ok (with_names T W).
Proof. intros []. by split. Qed.

(** [defaultNamed] with a type that has a slot. *)
Lemma defaultNamed_run ctx g nm W : Startup.started_ (reg W) = true → nm ≠ ""%string →
  typeIdFor g W < DefaultsTable.size_ (Startup.defaults_ (reg W)) →
  defaults_ok W → live ctx W →
  let i := NameInterning.intern nm (names W) in
  ∃ W1, defaultNamed ctx g nm W = (Ok tt, W1) ∧
    default_written ctx (typeIdFor g W) i.1 (with_names i.2 W) W1.
Proof.
  intros Hst Hne Hty HD Hl i. set (V := with_names i.2 W).
  assert (defaults_ok V) as HV by by apply named_ok.
  assert (∀ c k, (mbind_ (internNameSafe nm) k) W = k i.1 V :> outcome c * t) as Hrun.
  { intros c k. unfold mbind_. by rewrite internNameSafe_run. }
  assert (typeIdFor g W < DefaultsTable.size_ (Startup.defaults_ (reg V))) as HtyV by done.
  unfold defaultNamed, mbind_ at 1, mget. rewrite Hst. cbn [negb].
  rewrite decide_False by done. cbv zeta. rewrite (proj2 (N.leb_gt _ _) Hty).
  rewrite Hrun. destruct ctx as [sc|]; [|by apply setDefault_written].
  destruct Hl as [o Ho]. unfold scope_setDefault.
  assert (objects_ V !! sc = Some o) as HoV by done.
  unfold mbind_ at 1, mget, mbind_ at 1, object. rewrite HoV.
  destruct (do_scope _ HV sc o HoV) as [Hw Hsz].
  set (own := Runtime.scopedDefaults_ (info o)) in *.
  set (sized := if DefaultsTable.size_ own =? 0 then _ else own).
  assert (DefaultsTable.wf sized ∧
    DefaultsTable.size_ sized = DefaultsTable.size_ (Startup.defaults_ (reg V)) ∧
    ∀ ty', DefaultsTable.getDefault sized ty' = DefaultsTable.getDefault own ty') as (Hw' & Hsz' & Hg).
  { unfold sized. destruct (N.eqb_spec (DefaultsTable.size_ own) 0) as [Hz|Hz].
    - split_and!; [apply DefaultsTable.wf_resize|done|]. intros ty'.
      by rewrite DefaultsTable.getDefault_resize, getDefault_empty.
    - destruct Hsz; done. }
  destruct (DefaultsTable.setDefault_in_range sized (typeIdFor g W) i.1) as [D HDf]; [by rewrite Hsz'|].
  rewrite HDf. cbn [mlift mreturn mbind_].
  destruct (DefaultsTable.setDefault_spec _ _ _ _ Hw' HDf) as (HwD & HszD & _ & HgD).
  destruct (scope_written sc o D true (typeIdFor g W) i.1 V HV HoV HwD) as (W1 & Hrun1 & HW1).
  - right. congruence.
  - done.
  - by rewrite HgD, decide_True.
  - intros ty' Hne'. by rewrite HgD, decide_False, Hg.
  - by exists W1.
Qed.

(** [defaultNamed(nullptr)] with a type that has a slot. *)
Lemma defaultNamed_clear_run ctx g W : Startup.started_ (reg W) = true →
  typeIdFor g W < DefaultsTable.size_ (Startup.defaults_ (reg W)) →
  defaults_ok W → live ctx W →
  ∃ W1, defaultNamed_clear ctx g W = (Ok tt, W1) ∧
    default_written ctx (typeIdFor g W) kUnnamed W W1.
Proof.
  intros Hst Hty HD Hl. unfold defaultNamed_clear, mbind_ at 1, mget. rewrite Hst. cbn [negb].
  cbv iota zeta. rewrite (proj2 (N.leb_gt _ _) Hty). destruct ctx as [sc|]; [|by apply setDefault_written].
  destruct Hl as [o Ho]. unfold mbind_ at 1, object. rewrite Ho.
  destruct (do_scope _ HD sc o Ho) as [Hw Hsz].
  set (own := Runtime.scopedDefaults_ (info o)) in *.
  destruct (N.eqb_spec (DefaultsTable.size_ own) 0) as [Hz|Hz].
  - exists W. split; [done|]. split_and!; try done; [|by split; try done; intros sc' o' Ho'; exists o'].
    simpl. rewrite Ho. by apply getDefault_empty.
  - destruct Hsz as [?|Hsz]; [done|].
    destruct (DefaultsTable.setDefault_in_range own (typeIdFor g W) kUnnamed) as [D HDf]; [by rewrite Hsz|].
    rewrite HDf. cbn [mlift mreturn mbind_].
    destruct (DefaultsTable.setDefault_spec _ _ _ _ Hw HDf) as (HwD & HszD & _ & HgD).
    apply (scope_written sc o); try done.
    + right. congruence.
    + intros Hfl ty'. rewrite HgD. case_decide; [done|]. by apply (do_scope_flag _ HD sc).
    + by rewrite HgD, decide_True.
    + intros ty' Hne'. by rewrite HgD, decide_False.
Qed.

(** Named defaults: [defaultNamed<T>(name)] on a started root or scope makes
    [resolve<T>()] there the same request as [resolve<T>(name)]; requests that give a
    name, ask for another type, or come from a context with a default of its own (or,
    for a scope's default, from any other context) select what they selected before;
    and when the context had no default for [T], [defaultNamed<T>(nullptr)] brings every
    selection of every context back. *)
Theorem default_named_roundtrip (ctx : option ptr) (g : TypeInfo) (nm : string) (W : t) :
  Startup.started_ (reg W) = true → nm ≠ ""%string →
  NameInterning.wf (names W) → NameInterning.size (names W) < kThreadLocalSentinel - 1 →
  defaults_ok W → live ctx W →
  typeIdFor g W < DefaultsTable.size_ (Startup.defaults_ (reg W)) →
  ∃ W1 W2, defaultNamed ctx g nm W = (Ok tt, W1) ∧ defaultNamed_clear ctx g W1 = (Ok tt, W2) ∧
    resolve H fuel ctx g W1 = resolve_named H fuel ctx g nm W1 ∧
    (∀ c ty n, live c W →
       n ≠ kUnnamed ∨ ty ≠ typeIdFor g W ∨
         (c ≠ ctx ∧ (ctx ≠ None ∨ default_of c ty W ≠ kUnnamed)) →
       selects H c W1 ty n = selects H c W ty n) ∧
    (default_of ctx (typeIdFor g W) W = kUnnamed →
       ∀ c ty n, live c W → selects H c W2 ty n = selects H c W ty n).
Proof.
  intros Hst Hne Hwf Hsz HD Hl Hty.
  destruct (defaultNamed_run ctx g nm W Hst Hne Hty HD Hl) as (W1 & Hrun1 & HW1).
  destruct (intern_named nm (names W) Hwf Hsz Hne) as (Hn0 & Hn1 & Hlook).
  set (i := NameInterning.intern nm (names W)) in *. clearbody i.
  destruct HW1 as (HD1 & Hl1 & Hset & Hkeep & Hst1 & Htb1 & Hsz1 & _).
  assert (∀ g', typeIdFor g' W1 = typeIdFor g' W) as Hid by (intros; unfold typeIdFor; by rewrite Htb1).
  destruct (defaultNamed_clear_run ctx g W1) as (W2 & Hrun2 & HW2).
  { by rewrite Hst1. } { rewrite Hid, Hsz1. exact Hty. } { done. } { by apply Hl1. }
  rewrite Hid in HW2. destruct HW2 as (HD2 & Hl2 & Hset2 & Hkeep2 & _ & Htb2 & _).
  assert (∀ c ty, default_of c ty (with_names i.2 W) = default_of c ty W) as Hnm by done.
  exists W1, W2. split_and!; [done|done| | |].
  - unfold resolve, resolve_named, mbind_, mget. rewrite Hid, Htb1. simpl. rewrite Hlook.
    rewrite (proj2 (N.eqb_neq _ _)) by done. unfold on_rt.
    rewrite (resolve_wanted ctx W1 fuel _ kUnnamed i.1); [done|done|by apply Hl1|].
    unfold wanted. rewrite decide_False by (intros []; done).
    rewrite Hset, decide_True by done. by rewrite decide_True.
  - intros c ty n Hc Hor. rewrite !selects_wanted by (try done; by apply Hl1). f_equal.
    rewrite (pick_ext W W1) by by rewrite Htb1. f_equal. unfold wanted.
    case_decide as Hn; [done|]. destruct Hor as [?|Hor]; [done|].
    assert ((c, ty) ≠ (ctx, typeIdFor g W)) as Hne' by (destruct Hor as [?|[? _]]; congruence).
    rewrite (Hkeep c ty Hne'), Hnm. case_decide; [done|].
    destruct (decide ((None, ty) = (ctx, typeIdFor g W))) as [E|E]; [|by rewrite (Hkeep None ty E)].
    injection E as <- ->. destruct Hor as [?|[_ [?|?]]]; done.
  - intros Hno c ty n Hc. rewrite !selects_wanted by (try done; by apply Hl2, Hl1). f_equal.
    rewrite (pick_ext W1 W2), (pick_ext W W1) by (by rewrite ?Htb2, ?Htb1). f_equal.
    assert (∀ c ty, default_of c ty W2 = default_of c ty W) as Hall.
    { intros c' ty'. destruct (decide ((c', ty') = (ctx, typeIdFor g W))) as [E|E].
      - injection E as -> ->. by rewrite Hset2, Hno.
      - by rewrite (Hkeep2 c' ty' E), (Hkeep c' ty' E), Hnm. }
    unfold wanted. by rewrite !Hall.
Qed.

End defaults.

(** ** Witnesses *)

Lemma app_defaults : defaults_ok SampleWorld.app.
Proof.
  split.
  - vm_compute. reflexivity.
  - intros ty _. unfold default_of. replace (Startup.defaults_ _) with
      (DefaultsTable.resize 7 DefaultsTable.empty) by (vm_compute; reflexivity).
    apply DefaultsTable.getDefault_resize.
  - intros sc o Ho. replace (objects_ SampleWorld.app) with (∅ : gmap ptr ScopeObject) in Ho
      by (vm_compute; reflexivity). by rewrite lookup_empty in Ho.
  - intros sc o ty Ho. replace (objects_ SampleWorld.app) with (∅ : gmap ptr ScopeObject) in Ho
      by (vm_compute; reflexivity). by rewrite lookup_empty in Ho.
Qed.

End Contexts.
