(* ===== verification/Living.v ===== *)
(** The invariant of a context that serves requests, binds beans and opens scopes.

    [RuntimeFacts.inv] is about one environment; the operations of [World] change the
    environment between two requests.  Here: what such a change needs for the invariant
    to go on holding, and the invariant of the whole context. *)
From S2P Require Import Prelude Tables Interning Index Stores Startup StartupFacts Started SampleStart Opened Freelist Prototypes Listeners Claims Handles Casts Caches Runtime RuntimeFacts Sample Resolution Shutdown Ready World SampleWorld.

Local Open Scope N_scope.

Module Living.
Import Claims Runtime RuntimeFacts.
Abbreviation keys := StartupFacts.keys (only parsing).
Local Open Scope ctr_scope.

(** ** From one environment to the next *)

(** The descriptors of [E'] are those of [E] and new runtime bindings. *)
Record grows (E E' : env) : Prop := {
  gw_at d x : DescriptorTable.at_ (descriptors_ E) d = Some x →
    DescriptorTable.at_ (descriptors_ E') d = Some x;
  gw_cold d c : DescriptorTable.coldAt (descriptors_ E) d = Some c →
    DescriptorTable.coldAt (descriptors_ E') d = Some c;
  gw_new d x c : DescriptorTable.at_ (descriptors_ E) d = None →
    DescriptorTable.at_ (descriptors_ E') d = Some x →
    DescriptorTable.coldAt (descriptors_ E') d = Some c →
    origin c = RuntimeBinding ∧ is_primary_elsewhere x d = false;
  gw_registry : registryId_ E' = registryId_ E
}.

Lemma grows_same E E' : descriptors_ E' = descriptors_ E → registryId_ E' = registryId_ E →
  grows E E'.
Proof. intros H1 H2. split; rewrite ?H1; congruence. Qed.

Lemma labelled_mono (P Q : DescriptorId → Prop) X :
  (∀ d, P d → Q d) → protos_ok P X → protos_ok Q X.
Proof.
  intros HPQ [H1 H2 [H3 H4]]. split; [done|done|]. split.
  - eapply Forall_impl; [exact H3|]. intros x. apply HPQ.
  - intros s c Hs Hc. by eapply HPQ, H4.
Qed.

Section transfer.
Context (E E' : env) (R R' : t).
Hypothesis EO : env_ok E.
Hypothesis EO' : env_ok E'.
Hypothesis HG : grows E E'.
Hypothesis HR : inv E R.

(** The parts of the state that the change leaves alone. *)
Hypothesis Hprotos : prototypes_ R' = prototypes_ R.
Hypothesis Hclaims : claims R' = claims R.
Hypothesis Htl : tl R' = tl R.
Hypothesis Hstack : stack R' = stack R.
Hypothesis Haddress : nextAddress R' = nextAddress R.
Hypothesis Htrace : trace R' = trace R.

(** The singleton store has room for every descriptor, keeps what it had and holds an
    object for every new singleton. *)
Hypothesis Hswf : SingletonStore.wf (singletons_ R').
Hypothesis Hcap : ∀ d x, DescriptorTable.at_ (descriptors_ E') d = Some x →
  lifetime x = Singleton → d < InstanceArray.size (SingletonStore.instances_ (singletons_ R')).
Hypothesis Hvalue : ∀ d, is_Some (DescriptorTable.at_ (descriptors_ E) d) →
  SingletonStore.value (singletons_ R') d = SingletonStore.value (singletons_ R) d.
Hypothesis Hfresh : ∀ d, DescriptorTable.at_ (descriptors_ E) d = None →
  SingletonStore.value (singletons_ R') d ≠ nullptr ↔ of_lifetime E' Singleton d.

(** A scope in its sweep stays in it, or has no bean left. *)
Hypothesis Hsweep : ∀ k c, kept E k c → stopping E (key_scope k) →
  stopping E' (key_scope k) ∨ instance_of E R k = nullptr.

(** The session stores: usable where a scope runs, and changed only at bound sessions. *)
Hypothesis Hrun : ∀ sc info, scopes_ E' !! sc = Some info → scopeState_ info ≠ Stopped →
  ∃ st, sessions R' !! sc = Some st ∧ session_ok E' st.
Hypothesis Hsession : ∀ k x c, DescriptorTable.at_ (descriptors_ E) (key_descId k) = Some x →
  DescriptorTable.coldAt (descriptors_ E) (key_descId k) = Some c → lifetime x = Session →
  origin c ≠ RuntimeBinding ∨ is_primary_elsewhere x (key_descId k) = true →
  instance_of E' R' k = instance_of E R k.

Lemma both d x : DescriptorTable.at_ (descriptors_ E) d = Some x →
  ∃ c, DescriptorTable.coldAt (descriptors_ E) d = Some c ∧
    DescriptorTable.at_ (descriptors_ E') d = Some x ∧
    DescriptorTable.coldAt (descriptors_ E') d = Some c.
Proof.
  intros Hx. destruct (DescriptorTable.at_is_Some _ d (eo_table _ EO)) as (y & c & _ & Hc & _).
  { exact (vat_lt _ _ _ Hx). }
  exists c. split; [done|]. split; [by apply HG|by apply HG].
Qed.

(** What was there is still there, bound sessions aside. *)
Lemma instance_kept k x c : DescriptorTable.at_ (descriptors_ E) (key_descId k) = Some x →
  DescriptorTable.coldAt (descriptors_ E) (key_descId k) = Some c →
  lifetime x ≠ Session ∨ origin c ≠ RuntimeBinding ∨
    is_primary_elsewhere x (key_descId k) = true →
  instance_of E' R' k = instance_of E R k.
Proof.
  intros Hx Hc Hor. destruct (decide (lifetime x = Session)) as [Hl|Hl].
  { apply (Hsession k x c); [done..|]. by destruct Hor. }
  unfold instance_of. rewrite Hx, (gw_at _ _ HG _ _ Hx).
  destruct (lifetime x); try done.
  - by rewrite Hvalue by by eexists.
  - by rewrite Htl, (gw_registry _ _ HG).
Qed.

Lemma new_descriptor d x : DescriptorTable.at_ (descriptors_ E) d = None →
  DescriptorTable.at_ (descriptors_ E') d = Some x →
  ∃ c, DescriptorTable.coldAt (descriptors_ E') d = Some c ∧ origin c = RuntimeBinding ∧
    is_primary_elsewhere x d = false.
Proof.
  intros Hn Hx. destruct (DescriptorTable.at_is_Some _ d (eo_table _ EO')) as (y & c & _ & Hc & _).
  { exact (vat_lt _ _ _ Hx). }
  exists c. split; [done|]. by apply (gw_new _ _ HG).
Qed.

Lemma lifetime_grows l d : of_lifetime E l d → of_lifetime E' l d.
Proof. intros (x & Hx & Hl). exists x. split; [by apply HG|done]. Qed.

Lemma inv_transfer : inv E' R'.
Proof.
  split.
  - done.
  - exact Hcap.
  - intros d x c Hx Hc Hl Ho He. destruct (DescriptorTable.at_ (descriptors_ E) d) as [y|] eqn:Hy.
    + destruct (both d y Hy) as (c' & Hc' & Hx' & Hc''). simplify_eq.
      rewrite Hvalue by by eexists. by eapply (i_bound _ _ HR).
    + apply Hfresh; [done|]. by exists x.
  - exact Hrun.
  - intros k x Hi Hx. destruct (DescriptorTable.at_ (descriptors_ E) (key_descId k)) as [y|] eqn:Hy.
    + destruct (both _ y Hy) as (c & Hc & Hx' & Hc'). simplify_eq.
      destruct (is_primary_elsewhere x (key_descId k)) eqn:He; [|done].
      rewrite (instance_kept k x c) in Hi by auto. pose proof (i_owner _ _ HR k x Hi Hy). congruence.
    + by destruct (new_descriptor _ x Hy Hx) as (c & _ & _ & ?).
  - rewrite Hprotos. eapply labelled_mono; [|apply (i_protos _ _ HR)]. apply lifetime_grows.
  - rewrite Hclaims. apply HR.
  - rewrite Hclaims, Hstack. apply HR.
  - rewrite Htl. apply HR.
  - rewrite Haddress. apply HR.
  - intros k c (x & Hx & Hc & Hl & Ho).
    destruct (DescriptorTable.at_ (descriptors_ E) (key_descId k)) as [y|] eqn:Hy.
    + destruct (both _ y Hy) as (c' & Hc' & Hx' & Hc''). simplify_eq.
      assert (kept E k c) as Hk by (by exists x). pose proof (i_trace _ _ HR k c Hk) as Ht.
      unfold present in *. rewrite (instance_kept k x c), Htrace by auto.
      case_decide as Hi; [done|]. destruct Ht as [Hs|Ht]; [|by right].
      destruct (Hsweep k c Hk Hs); [by left|done].
    + destruct (new_descriptor _ x Hy Hx) as (c' & Hc' & ? & _). congruence.
  - intros d Hd. destruct (DescriptorTable.at_ (descriptors_ E) d) as [y|] eqn:Hy.
    + apply lifetime_grows, (i_stored _ _ HR). rewrite <-Hvalue; [done|]. by eexists.
    + by apply Hfresh.
  - intros d. rewrite Htl, (gw_registry _ _ HG). intros Hd. by apply lifetime_grows, (i_local _ _ HR).
Qed.

End transfer.

(** ** The tables *)

(** The part of [env_ok] about the descriptors and the index. *)
Record tables_ok (D : DescriptorTable.t) (I : TypeIndex.t) : Prop := {
  tk_table : DescriptorTable.wf D;
  tk_size : DescriptorTable.size D < kInvalidDescriptorId;
  tk_entries ty n e d : TypeIndex.entryFor I ty n = Some e →
    d ∈ TypeIndex.candidates e ∨ d = TypeIndex.head e → d ≠ kInvalidDescriptorId →
    d < DescriptorTable.size D;
  tk_valid ty n e : TypeIndex.entryFor I ty n = Some e →
    kInvalidDescriptorId ∉ TypeIndex.candidates e;
  tk_single ty d : TypeIndex.singleUnnamedCandidate I ty = d → d ≠ kInvalidDescriptorId →
    d < DescriptorTable.size D;
  tk_primary d x : DescriptorTable.at_ D d = Some x → is_primary_elsewhere x d = true →
    ∃ y, DescriptorTable.at_ D (primaryDescriptor x) = Some y ∧
         is_primary_elsewhere y (primaryDescriptor x) = false ∧ lifetime y = lifetime x;
  tk_slots d d' x x' : DescriptorTable.at_ D d = Some x → DescriptorTable.at_ D d' = Some x' →
    lifetime x = Session → lifetime x' = Session → sessionSlot x = sessionSlot x' → d = d';
  tk_bound d x c : DescriptorTable.at_ D d = Some x → DescriptorTable.coldAt D d = Some c →
    origin c = RuntimeBinding → lifetime x = Singleton ∨ lifetime x = Session;
  tk_heads ty n e : TypeIndex.entryFor I ty n = Some e →
    TypeIndex.head e ∈ TypeIndex.candidates e ∨ TypeIndex.head e = kInvalidDescriptorId;
  tk_singles ty d : TypeIndex.singleUnnamedCandidate I ty = d → d ≠ kInvalidDescriptorId →
    d ∈ TypeIndex.registered (keys D) ty kUnnamed;
  tk_lists : TypeIndex.lists (keys D) I
}.

(** [D'] is [D] with one more descriptor. *)
Record extended (D D' : DescriptorTable.t) (x : Descriptor) (c : DescriptorCold) : Prop := {
  xt_wf : DescriptorTable.wf D';
  xt_size : DescriptorTable.size D' = DescriptorTable.size D + 1;
  xt_at i : DescriptorTable.at_ D' i =
    if decide (i = DescriptorTable.size D) then Some x else DescriptorTable.at_ D i;
  xt_cold i : DescriptorTable.coldAt D' i =
    if decide (i = DescriptorTable.size D) then Some c else DescriptorTable.coldAt D i;
  xt_keys : keys D' = keys D ++ [(exposedType c, name c, DescriptorTable.size D)]
}.

Lemma append_extended d c D : DescriptorTable.wf D → DescriptorTable.size D < two32 →
  let id := DescriptorTable.size D in
  ∃ D', DescriptorTable.append d c D = (id, D') ∧
    ∃ D'', DescriptorTable.atMutable id (set_primaryDescriptor id) D' = Some D'' ∧
      extended D D'' (set_primaryDescriptor id d) c.
Proof.
  intros [Hc Hl] Hsz id. unfold DescriptorTable.append, DescriptorTable.size in *.
  rewrite u32_small by done. eexists. split; [done|]. unfold DescriptorTable.atMutable. simpl.
  assert (vat (DescriptorTable.entries_ D ++ [d]) id = Some d) as -> by apply vat_snoc_eq.
  eexists. split; [done|].
  assert (nlen (DescriptorTable.entries_ D ++ [d]) = id + 1) as Hn by apply nlen_snoc.
  subst id. split; unfold DescriptorTable.size, DescriptorTable.at_, DescriptorTable.coldAt, StartupFacts.keys; simpl.
  - split; simpl.
    + by rewrite nlen_vset, !nlen_snoc, Hc.
    + rewrite vset_insert, list_fmap_insert, fmap_app, Hl. simpl. symmetry.
      apply list_insert_id. rewrite lookup_app_r by (rewrite length_fmap; unfold nlen; lia).
      rewrite length_fmap. unfold nlen. by rewrite Nat2N.id, Nat.sub_diag.
  - by rewrite nlen_vset, nlen_snoc.
  - intros i. rewrite vat_vset by (rewrite Hn; lia). case_decide; [done|].
    by rewrite vat_snoc, decide_False.
  - intros i. rewrite vat_snoc. by rewrite <-Hc.
  - rewrite imap_app. f_equal. simpl. do 2 f_equal. unfold nlen in *. lia.
Qed.

Lemma keys_elem D ty n d : DescriptorTable.wf D →
  d ∈ TypeIndex.registered (keys D) ty n → d < DescriptorTable.size D.
Proof.
  intros [Hc _] Hd. unfold TypeIndex.registered in Hd.
  apply list_elem_of_fmap in Hd as (op & -> & [_ Hop]%list_elem_of_filter).
  unfold StartupFacts.keys in Hop. apply elem_of_lookup_imap in Hop as (i & c & -> & Hi). simpl.
  apply lookup_lt_Some in Hi. unfold DescriptorTable.size, nlen in *. lia.
Qed.

(** A new runtime binding, and an index that is settled for it. *)
Lemma tables_extended D D' I I' x c prio : tables_ok D I → extended D D' x c →
  TypeIndex.lists (keys D') I' → TypeIndex.settled prio (keys D') I' →
  DescriptorTable.size D' < kInvalidDescriptorId →
  is_primary_elsewhere x (DescriptorTable.size D) = false →
  lifetime x = Singleton ∨ lifetime x = Session →
  (lifetime x = Session → ∀ d y, DescriptorTable.at_ D d = Some y → lifetime y = Session →
     sessionSlot y ≠ sessionSlot x) →
  tables_ok D' I'.
Proof.
  intros [H1 H2 H3 H4 H5 H6 H7 H8 _ _ H9] HX HL [He Hs] Hsz Hp Hlt Hslot.
  pose proof (xt_wf _ _ _ _ HX) as Hwf.
  assert (∀ ty n d, d ∈ TypeIndex.registered (keys D') ty n → d < DescriptorTable.size D') as Hsmall.
  { intros ty n d. by apply keys_elem. }
  assert (∀ ty n e, TypeIndex.entryFor I' ty n = Some e →
    ∃ v, v ≡ₚ TypeIndex.registered (keys D') ty n ∧ v ≠ [] ∧ TypeIndex.candidates e = v ∧
      TypeIndex.head e = TypeIndex.vec_head v) as Hentry.
  { intros ty n e Hn. specialize (He ty n).
    destruct (TypeIndex.registered (keys D') ty n) as [|d l] eqn:Er; [congruence|].
    destruct He as (v & Hv & _ & Hv'). rewrite Hn in Hv'. injection Hv' as ->.
    exists v. split_and!; [done| |done..]. intros ->. by apply Permutation_nil_l in Hv. }
  assert (∀ i y, DescriptorTable.at_ D' i = Some y →
    (i = DescriptorTable.size D ∧ y = x) ∨
    (i ≠ DescriptorTable.size D ∧ DescriptorTable.at_ D i = Some y)) as Hat.
  { intros i y. rewrite (xt_at _ _ _ _ HX). case_decide; [intros [= <-]; by left|by right]. }
  split; try done.
  - intros ty n e d Hn Hor Hne. destruct (Hentry ty n e Hn) as (v & Hv & Hv0 & Hc & Hh).
    apply (Hsmall ty n). rewrite <-Hv. rewrite Hc, Hh in Hor. destruct Hor as [?| ->]; [done|].
    destruct v as [|a v]; [done|by left].
  - intros ty n e Hn Hin. destruct (Hentry ty n e Hn) as (v & Hv & Hv0 & Hc & Hh).
    rewrite Hc, Hv in Hin. apply Hsmall in Hin. lia.
  - intros ty d Hd Hne. rewrite Hs in Hd. apply (Hsmall ty kUnnamed).
    destruct (TypeIndex.registered (keys D') ty kUnnamed) as [|a [|b l]]; [done| |done].
    subst. by left.
  - intros d y [[-> ->]|[Hd Hy]]%Hat Hal; [congruence|].
    destruct (H6 d y Hy Hal) as (z & Hz & Hz1 & Hz2). exists z. split; [|done].
    rewrite (xt_at _ _ _ _ HX). rewrite decide_False; [done|].
    apply vat_lt in Hz. unfold DescriptorTable.size. lia.
  - intros d d' y y' [[-> ->]|[Hd Hy]]%Hat [[-> ->]|[Hd' Hy']]%Hat Hl Hl' Heq.
    + done.
    + by destruct (Hslot Hl d' y' Hy' Hl').
    + by destruct (Hslot Hl' d y Hy Hl).
    + by apply (H7 d d' y y').
  - intros d y c' [[-> ->]|[Hd Hy]]%Hat Hc Ho; [done|].
    rewrite (xt_cold _ _ _ _ HX), decide_False in Hc by done. by apply (H8 d y c').
  - intros ty n e Hn. destruct (Hentry ty n e Hn) as (v & _ & Hv0 & Hc & Hh). left.
    rewrite Hc, Hh. destruct v; [done|by left].
  - intros ty d Hd Hne. rewrite Hs in Hd.
    destruct (TypeIndex.registered (keys D') ty kUnnamed) as [|a [|b l]]; [done| |done].
    subst. by left.
Qed.

(** What the index lists under a pair. *)
Lemma keys_typed D ty n d : d ∈ TypeIndex.registered (keys D) ty n →
  ∃ c, DescriptorTable.coldAt D d = Some c ∧ exposedType c = ty ∧ name c = n.
Proof.
  intros Hd. unfold TypeIndex.registered in Hd.
  apply list_elem_of_fmap in Hd as (op & -> & [Ho Hop]%list_elem_of_filter).
  unfold StartupFacts.keys in Hop. apply elem_of_lookup_imap in Hop as (i & c & -> & Hi). simpl in *.
  exists c. unfold DescriptorTable.coldAt. rewrite vat_lookup, Nat2N.id. by injection Ho as <- <-.
Qed.

Lemma candidate_typed D I ty n e d : tables_ok D I → TypeIndex.entryFor I ty n = Some e →
  d ∈ TypeIndex.candidates e →
  ∃ c, DescriptorTable.coldAt D d = Some c ∧ exposedType c = ty ∧ name c = n.
Proof.
  intros HT He Hd. pose proof (TypeIndex.lists_entry _ _ ty n (tk_lists _ _ HT)) as Hl.
  rewrite He in Hl. destruct Hl as [Hl _]. apply keys_typed. by rewrite <-Hl.
Qed.

(** A request selects a descriptor of the type it asks for, under the name it is completed
    with. *)
Lemma selected_typed E i ty n d : tables_ok (descriptors_ E) (typeIndex_ E) →
  selectCandidate E i ty n = Ok d →
  ∃ c, DescriptorTable.coldAt (descriptors_ E) d = Some c ∧ exposedType c = ty ∧
    name c = effectiveName E i ty n.
Proof.
  intros HT. unfold selectCandidate. generalize (effectiveName E i ty n). intros m.
  assert (fromEntry E ty m = Ok d →
    ∃ c, DescriptorTable.coldAt (descriptors_ E) d = Some c ∧ exposedType c = ty ∧ name c = m) as Hfrom.
  { unfold fromEntry. destruct (TypeIndex.entryFor (typeIndex_ E) ty m) as [e|] eqn:He.
    2: { by rewrite N.eqb_refl. }
    destruct (N.eqb_spec (TypeIndex.head e) kInvalidDescriptorId) as [Hh|Hh].
    - destruct (TypeIndex.candidates e) as [|a [|b l]] eqn:Hc; [done| |].
      + intros [= ->]. apply (candidate_typed _ _ ty m e d HT He). rewrite Hc. by left.
      + destruct (DescriptorTable.at_ _ a); [|done]. destruct (DescriptorTable.at_ _ b); [|done].
        destruct (Z.eqb _ _); [done|]. intros [= ->].
        apply (candidate_typed _ _ ty m e d HT He). rewrite Hc. by left.
    - destruct (TypeIndex.ambiguous e); [done|]. intros [= <-].
      destruct (tk_heads _ _ HT ty m e He) as [Hin|]; [|done].
      by apply (candidate_typed _ _ ty m e _ HT He). }
  destruct (N.eqb_spec m kUnnamed) as [->|_]; [|exact Hfrom]. cbv zeta.
  destruct (N.eqb_spec (TypeIndex.singleUnnamedCandidate (typeIndex_ E) ty) kInvalidDescriptorId)
    as [_|Hs]; [exact Hfrom|]. intros [= Hd]. rewrite Hd in Hs.
  by apply keys_typed, (tk_singles _ _ HT ty d).
Qed.

Lemma extended_grows E E' x c : extended (descriptors_ E) (descriptors_ E') x c →
  DescriptorTable.wf (descriptors_ E) → registryId_ E' = registryId_ E →
  origin c = RuntimeBinding →
  is_primary_elsewhere x (DescriptorTable.size (descriptors_ E)) = false → grows E E'.
Proof.
  intros HX [Hc _] Hr Ho He. split; [..|done].
  - intros d y Hy. rewrite (xt_at _ _ _ _ HX), decide_False; [done|].
    apply vat_lt in Hy. unfold DescriptorTable.size. lia.
  - intros d y Hy. rewrite (xt_cold _ _ _ _ HX), decide_False; [done|].
    apply vat_lt in Hy. rewrite Hc in Hy. unfold DescriptorTable.size. lia.
  - intros d y c' Hn. rewrite (xt_at _ _ _ _ HX), (xt_cold _ _ _ _ HX).
    case_decide as Hd; [|congruence]. intros [= <-] [= <-]. by subst.
Qed.

End Living.
