(* ===== verification/Service.v ===== *)
(** A started context in service: requests, bindings, scopes, defaults and listeners, in
    any order, keep the invariant that resolution relies on. *)
From S2P Require Import Prelude Tables Interning Index Stores Startup StartupFacts Started SampleStart Opened Freelist Prototypes Listeners Claims Handles Casts Caches Runtime RuntimeFacts Sample Resolution Shutdown Ready World SampleWorld Contexts Living.

Local Open Scope N_scope.

Module Service.
Import World RuntimeFacts Living.
Local Open Scope ctr_scope.
#[local] Existing Instance Runtime.ScopeState_eq_dec.

Abbreviation descs W := (Startup.descriptors_ (Startup.tables_ (reg W))) (only parsing).
Abbreviation index W := (Startup.typeIndex_ (Startup.tables_ (reg W))) (only parsing).
Abbreviation names W := (Startup.nameInterning_ (Startup.tables_ (reg W))) (only parsing).
Abbreviation slots W := (Startup.sessionSlotCount_ (reg W)) (only parsing).

(** ** The host *)

Section service.
Context `{SS : StdSort} (H : host) (fuel : nat) (known : gset ptr).

(** User code resolves from the root, from the scope it was called for, or from scopes
    it has a reference to. *)
Fixpoint confined (sc : option ptr) (p : Runtime.prog) : Prop :=
  match p with
  | Runtime.Return | Runtime.Raise _ => True
  | Runtime.Resolve s _ _ k =>
      (s = None ∨ s = sc ∨ ∃ c, s = Some c ∧ c ∈ known) ∧ ∀ r, confined sc (k r)
  end.

Record host_good : Prop := {
  hg_token : threadToken H ≠ Tokens.kNoMaterializationThreadToken;
  hg_cap : ∃ cap, maxSlots H = Some cap ∧
    cap ≤ PrototypeStore.kMaxChunks * PrototypeStore.kChunkSize;
  hg_construct f sc p : confined sc (call_construct H f sc p);
  hg_allocAndConstruct f sc : confined sc (call_allocAndConstruct H f sc);
  hg_hook f sc p : confined sc (call_hook H f sc p);
  hg_listener cb bean : confined None (call_listener H cb bean)
}.

(** ** The invariant *)

(** A session descriptor [bindSession] made. *)
Definition bound_session (D : DescriptorTable.t) (d : DescriptorId) : Prop :=
  ∃ x c, DescriptorTable.at_ D d = Some x ∧ DescriptorTable.coldAt D d = Some c ∧
    lifetime x = Session ∧ origin c = RuntimeBinding ∧ Runtime.is_primary_elsewhere x d = false.

Definition session_known (D : DescriptorTable.t) (d : DescriptorId) : Prop :=
  ∃ x, DescriptorTable.at_ D d = Some x ∧ lifetime x = Session.

(** Nothing is built in a store, bound objects aside. *)
Definition only_bound (D : DescriptorTable.t) (st : SessionStore.t) : Prop := ∀ d x c,
  DescriptorTable.at_ D d = Some x → DescriptorTable.coldAt D d = Some c →
  lifetime x = Session → origin c ≠ RuntimeBinding ∨ Runtime.is_primary_elsewhere x d = true →
  InstanceArray.cur (SessionStore.instances_ st) (sessionSlot x) = nullptr.

Record scope_ok (W : t) (sc : ptr) (o : ScopeObject) : Prop := {
  sk_store : ∃ st, Runtime.sessions (rt W) !! sc = Some st ∧ SessionStore.wf st ∧
    (∀ d, d ∈ SessionStore.insertionOrder st → session_known (descs W) d) ∧
    (Runtime.scopeState_ (info o) = Runtime.Stopped → only_bound (descs W) st);
  sk_state : Runtime.scopeState_ (info o) ≠ Runtime.Stopping;
  sk_name : Runtime.scopeNameId_ (info o) < two32;
  sk_pending p : p ∈ pendingRuntimeSessions_ o → p.2 ≠ nullptr ∧ bound_session (descs W) p.1
}.

(** The scope table leads to live scopes, each under its own name. *)
Definition listed (T : ScopeTable.t) (objs : gmap ptr ScopeObject) : Prop :=
  (∃ m, ScopeTable.holds T m) ∧ ∀ n, ScopeTable.findScope T n ≠ nullptr →
    ∃ o, objs !! ScopeTable.findScope T n = Some o ∧ Runtime.scopeNameId_ (info o) = n.

Record running (W : t) : Prop := {
  rn_started : Startup.started_ (reg W) = true;
  rn_tables : tables_ok (descs W) (index W);
  rn_inv : inv (env_of H W) (rt W);
  rn_listeners : ListenerStore.usable (listeners_ W);
  rn_names : NameInterning.wf (names W);
  rn_known sc : sc ∈ known → is_Some (objects_ W !! sc);
  rn_null : objects_ W !! nullptr = None;
  rn_scopes sc o : objects_ W !! sc = Some o → scope_ok W sc o;
  rn_slots d x : DescriptorTable.at_ (descs W) d = Some x → lifetime x = Session →
    sessionSlot x < slots W;
  rn_count : slots W ≤ DescriptorTable.size (descs W);
  rn_bound d x c : DescriptorTable.at_ (descs W) d = Some x →
    DescriptorTable.coldAt (descs W) d = Some c → origin c = RuntimeBinding →
    Runtime.is_primary_elsewhere x d = false;
  rn_chunks : listed (scopeChunks_ W) (objects_ W);
  rn_defaults : Contexts.defaults_ok W;
  rn_claims : Claims.materializing_ (Runtime.claims (rt W)) = [];
  rn_stack : Runtime.stack (rt W) = []
}.

(** Fuel for the beans there could be, when there were [n] more descriptors. *)
Definition fuelled (n : N) (W : t) : Prop :=
  (N.to_nat (DescriptorTable.size (descs W) + n) * S (base.size (objects_ W)) < fuel)%nat.

(** Room for one more descriptor and one more name. *)
Record room (W : t) : Prop := {
  rm_size : DescriptorTable.size (descs W) + 1 < kInvalidDescriptorId;
  rm_names : NameInterning.size (names W) < kThreadLocalSentinel - 1;
  rm_fuel : fuelled 1 W
}.

Context (HG : host_good).

Lemma confined_ok (E : Runtime.env) sc p : valid_scope E sc →
  (∀ c, c ∈ known → is_Some (Runtime.scopes_ E !! c)) → confined sc p → prog_ok E p.
Proof.
  intros Hv Hk. induction p as [|n|s ty n k IH]; [done|done|]. intros [Hs Hc]. split.
  - destruct Hs as [->|[->|(c & -> & Hc')]]; [done|done|]. by apply Hk.
  - intros r. by apply IH.
Qed.

(** The defaults are those of another context, or a new scope has none. *)
Lemma defaults_frame W W' : Contexts.defaults_ok W →
  Startup.defaults_ (reg W') = Startup.defaults_ (reg W) → hasAnyDefault_ W' = hasAnyDefault_ W →
  (∀ sc o', objects_ W' !! sc = Some o' →
     (∃ o, objects_ W !! sc = Some o ∧
        Runtime.scopedDefaults_ (info o') = Runtime.scopedDefaults_ (info o) ∧
        Runtime.hasAnyScopedDefault_ (info o') = Runtime.hasAnyScopedDefault_ (info o)) ∨
     Runtime.scopedDefaults_ (info o') = DefaultsTable.empty) →
  Contexts.defaults_ok W'.
Proof.
  intros [H1 H2 H3 H4] HD HA Ho. split; rewrite ?HD, ?HA; [done| | |].
  - intros ty. unfold Contexts.default_of. rewrite HD. apply H2.
  - intros sc o' Ho'. destruct (Ho sc o' Ho') as [(o & Hoo & -> & _)| ->]; [by apply (H3 sc)|].
    split; [done|by left].
  - intros sc o' ty Ho'. destruct (Ho sc o' Ho') as [(o & Hoo & -> & ->)| ->]; [by apply (H4 sc)|].
    intros _. apply DefaultsTable.getDefault_out, N.le_0_l.
Qed.

(** The host's part of an environment. *)
Lemma host_env W : ListenerStore.usable (listeners_ W) →
  (∀ sc, sc ∈ known → is_Some (objects_ W !! sc)) →
  (∀ sc o, objects_ W !! sc = Some o → Runtime.scopeNameId_ (info o) < two32) →
  Ready.host_ok (env_of H W).
Proof.
  intros HL Hk Hn.
  assert (∀ c, c ∈ known → is_Some (Runtime.scopes_ (env_of H W) !! c)) as Hk'.
  { intros c Hc. simpl. rewrite lookup_fmap. destruct (Hk c Hc) as [o ->]. by eexists. }
  destruct HG as [G1 _ G3 G4 G5 G6]. split; try done.
  - intros sc i. simpl. rewrite lookup_fmap. destruct (objects_ W !! sc) as [o|] eqn:Ho; [|done].
    intros [= <-]. by apply (Hn sc).
  - intros ph ty sc Hp. by apply ListenerStore.usable_dispatch.
  - intros f sc p Hv. apply (confined_ok _ sc); [done|done|apply G3].
  - intros f sc Hv. apply (confined_ok _ sc); [done|done|apply G4].
  - intros f sc p Hv. apply (confined_ok _ sc); [done|done|apply G5].
  - intros cb bean. apply (confined_ok _ None); [done|done|apply G6].
Qed.

(** The environment of a context with good tables. *)
Lemma env_good W : tables_ok (descs W) (index W) → ListenerStore.usable (listeners_ W) →
  (∀ sc, sc ∈ known → is_Some (objects_ W !! sc)) →
  (∀ sc o, objects_ W !! sc = Some o → Runtime.scopeNameId_ (info o) < two32) →
  env_ok (env_of H W).
Proof.
  intros [H1 H2 H3 H4 H5 H6 H7 H8 _ _ H9] HL Hk Hn. destruct (host_env W HL Hk Hn).
  split; try done. simpl. unfold kInvalidDescriptorId, two32 in *. lia.
Qed.

Lemma running_env W : running W → env_ok (env_of H W).
Proof.
  intros HW. apply env_good; [by apply HW..|]. intros sc o Ho. by apply (rn_scopes _ HW sc).
Qed.

(** The prototype store cannot meet its assertion: the limit is below it. *)
Lemma ends_never {A} W (m : M Runtime.t A) R Q X :
  ends (full (env_of H W)) m R Q X → ends never m R Q X.
Proof.
  unfold ends. destruct (m R) as [[a|e| | |] R']; try done. intros [H1 H2]. simpl in H2.
  destruct (hg_cap HG) as (cap & Hc & Hle). rewrite Hc in H2. lia.
Qed.

Lemma on_rt_ends {A} (m : Runtime.env → M Runtime.t A) W (Q : A → t → Prop) X :
  ends (full (env_of H W)) (m (env_of H W)) (rt W) (λ a R, Q a (set_rt R W)) (λ e R, X e (set_rt R W)) →
  ends never (on_rt H m) W Q X.
Proof.
  intros Hm%ends_never. unfold ends, on_rt in *. by destruct (m (env_of H W) (rt W)) as [[a|e| | |] R'].
Qed.

(** What run-time code leaves. *)
Lemma running_good W R : running W → good (env_of H W) (rt W) R → running (set_rt R W).
Proof.
  intros HW [HR HX]. split; try apply HW.
  - exact HR.
  - intros sc o Ho. change (objects_ W !! sc = Some o) in Ho. pose proof (rn_scopes _ HW sc o Ho) as [Hst H2 H3 H4]. split; try done.
    destruct (decide (Runtime.scopeState_ (info o) = Runtime.Stopped)) as [Hs|Hs].
    + simpl. rewrite (x_stopped _ _ _ _ HX); [done|]. simpl. intros i.
      rewrite lookup_fmap, Ho. intros [= <-]. by rewrite Hs.
    + destruct (i_sessions _ _ HR sc (info o)) as (st & Hst' & Hok); [|done|].
      { simpl. by rewrite lookup_fmap, Ho. }
      exists st. split_and!; [done|by apply Hok|apply (so_known _ _ Hok)|done].
  - apply (defaults_frame W); [apply HW|done|done|]. intros sc o Ho. left. by exists o.
  - simpl. rewrite (x_claims _ _ _ _ HX). apply HW.
  - simpl. rewrite (x_stack _ _ _ _ HX). apply HW.
Qed.

(** No scope is in its sweep between two operations. *)
Lemma running_settled W sc : running W → ¬ stopping (env_of H W) sc.
Proof.
  intros HW (i & Hi & Hs). simpl in Hi. rewrite lookup_fmap in Hi.
  destruct (objects_ W !! sc) as [o|] eqn:Ho; [|done]. injection Hi as <-.
  by apply (sk_state _ _ _ (rn_scopes _ HW sc o Ho)).
Qed.

Lemma fuel_enough W R : fuelled 0 W → (measure (env_of H W) R < fuel)%nat.
Proof.
  intros HR. pose proof (Resolution.measure_bound (env_of H W) R) as Hm.
  unfold fuelled in HR. unfold Resolution.nesting_bound in Hm. simpl in Hm.
  rewrite map_size_fmap in Hm. rewrite N.add_0_r in HR. lia.
Qed.

Lemma room_fuelled W : room W → fuelled 0 W.
Proof. intros [_ _ HF]. unfold fuelled in *. nia. Qed.

Lemma live_valid ctx W : Contexts.live ctx W → valid_scope (env_of H W) ctx.
Proof.
  destruct ctx as [sc|]; [|done]. intros [o Ho]. simpl. rewrite lookup_fmap, Ho. by eexists.
Qed.

Lemma rec_keeps W : running W → ∀ sc ty nm R, valid_scope (env_of H W) sc → inv (env_of H W) R →
  (measure (env_of H W) R < fuel)%nat →
  ends (full (env_of H W)) (Runtime.resolve (env_of H W) fuel sc ty nm) R
    (λ _ R', good (env_of H W) R R') (λ _ R', good (env_of H W) R R').
Proof.
  intros HW sc ty nm R Hv HR Hm.
  eapply ends_mono; [by apply resolve_fuel_spec; [apply running_env|..]|by intros ?? []|done].
Qed.

(** Requests. *)
Lemma request_runs W ctx ty n : running W → fuelled 0 W → Contexts.live ctx W →
  ends never (on_rt H (λ E, Runtime.resolve E fuel ctx ty n)) W
    (λ _ W', running W') (λ _ W', running W').
Proof.
  intros HW HR Hl. apply on_rt_ends.
  eapply ends_mono; [apply (rec_keeps W HW ctx ty n (rt W))|..].
  - by apply live_valid.
  - apply HW.
  - by apply fuel_enough.
  - intros b R HR'. by apply running_good.
  - intros e R HR'. by apply running_good.
Qed.

(** The two dispatches for an object the container did not build. *)
Lemma announce_runs W key ty object emitter : running W → fuelled 0 W →
  (∀ c, ¬ kept (env_of H W) key c) →
  let after W' := running W' ∧ ∃ R, good (env_of H W) (rt W) R ∧ W' = set_rt R W in
  ends never (announce H fuel key ty object emitter) W (λ _ W', after W') (λ _ W', after W').
Proof.
  intros HW HR Hk after. unfold announce. apply on_rt_ends. set (E := env_of H W).
  eapply ends_mono with (Q := λ _ R', good E (rt W) R') (X := λ _ R', good E (rt W) R').
  2, 3: intros ? R HR'; split; [by apply running_good|by exists R].
  pose proof (running_env _ HW) as EO.
  assert (∀ s R, good E (rt W) R → good E (rt W) (Runtime.log (Runtime.Life s key object) R)) as Hlog.
  { intros s R H1. eapply good_trans; [done|]. apply good_log; [apply H1|].
    intros k c Hk'. apply life_other. intros ->. by apply (Hk c). }
  assert (∀ ph R bean, ph < ListenerStore.kPhaseCount → good E (rt W) R →
    ends (full E) (Runtime.dispatch E (Runtime.resolve E fuel) ph ty bean emitter) R
      (λ _ R', good E (rt W) R') (λ _ R', good E (rt W) R')) as Hd.
  { intros ph R bean Hp H1. eapply ends_mono;
      [eapply (dispatch_keeps E EO (Runtime.resolve E fuel) fuel (rec_keeps W HW)); [done|apply H1|]|..].
    - by apply fuel_enough.
    - intros ?? H2. by eapply good_trans.
    - intros ?? H2. by eapply good_trans. }
  eapply ends_bind with (P := λ _ R', good E (rt W) R').
  { apply ends_upd, Hlog. apply good_refl, HW. }
  intros _ R1 H1. eapply ends_bind; [by apply Hd|]. cbv beta. intros _ R2 H2.
  eapply ends_bind with (P := λ _ R', good E (rt W) R').
  { by apply ends_upd, Hlog. }
  intros _ R3 H3. by apply Hd.
Qed.

(** ** Operations that leave the descriptors alone *)

Lemma listed_frame T objs objs' : listed T objs →
  (∀ sc o, objs !! sc = Some o → ∃ o', objs' !! sc = Some o' ∧
     Runtime.scopeNameId_ (info o') = Runtime.scopeNameId_ (info o)) →
  listed T objs'.
Proof.
  intros [Hm Hl] Hf. split; [done|]. intros n Hn. destruct (Hl n Hn) as (o & Ho & <-).
  by apply Hf.
Qed.

Lemma listed_alter T objs sc f : listed T objs →
  (∀ o, objs !! sc = Some o →
     Runtime.scopeNameId_ (info (f o)) = Runtime.scopeNameId_ (info o)) →
  listed T (alter f sc objs).
Proof.
  intros Hl Hf. apply (listed_frame T objs); [done|]. intros sc' o Ho. rewrite lookup_alter.
  case_decide; [subst sc'; rewrite Ho; eexists; split; [done|by apply Hf]|by exists o].
Qed.

(** Such an operation may change names, defaults, listeners and scopes. *)
Lemma running_objects W W' : running W →
  Startup.started_ (reg W') = Startup.started_ (reg W) → descs W' = descs W →
  index W' = index W → slots W' = slots W → rt W' = rt W →
  NameInterning.wf (names W') → ListenerStore.usable (listeners_ W') →
  listed (scopeChunks_ W') (objects_ W') →
  (∀ sc, is_Some (objects_ W !! sc) → is_Some (objects_ W' !! sc)) →
  objects_ W' !! nullptr = None →
  (∀ sc o, objects_ W' !! sc = Some o → scope_ok W' sc o) →
  (∀ sc o, objects_ W' !! sc = Some o → Runtime.scopeState_ (info o) ≠ Runtime.Stopped →
     ∃ st, Runtime.sessions (rt W) !! sc = Some st ∧ session_ok (env_of H W) st) →
  Contexts.defaults_ok W' →
  running W'.
Proof.
  intros HW Est ED EI Esl Ert Hnm Hus Hch Hlive Hnull Hsc Hrun Hdef.
  assert (env_ok (env_of H W')) as EO'.
  { apply env_good; rewrite ?ED, ?EI; [apply HW|done| |].
    - intros sc Hk. by apply Hlive, (rn_known _ HW).
    - intros sc o Ho. by apply (Hsc sc). }
  split; rewrite ?Est, ?ED, ?EI, ?Esl, ?Ert; try done; try apply HW.
  - apply (inv_transfer (env_of H W) (env_of H W') (rt W)); try done.
    + by apply running_env.
    + by apply grows_same.
    + apply HW.
    + apply (i_singletons _ _ (rn_inv _ HW)).
    + simpl. rewrite ED. apply (i_capacity _ _ (rn_inv _ HW)).
    + intros d Hn. simpl in *. split; [intros Hv; exfalso|].
      * destruct (i_stored _ _ (rn_inv _ HW) d Hv) as (x & Hx & _). simpl in Hx. congruence.
      * intros (x & Hx & _). simpl in Hx. rewrite ED in Hx. congruence.
    + intros k c' _ Hk. by destruct (running_settled W _ HW Hk).
    + intros sc i. simpl. rewrite lookup_fmap. destruct (objects_ W' !! sc) as [o|] eqn:Ho; [|done].
      intros [= <-] Hs. destruct (Hrun sc o Ho Hs) as (st & Hst & [H1 H2 H3 H4]). exists st.
      split; [done|]. split; unfold of_lifetime in *; simpl in *; by rewrite ?ED.
    + intros k x c Hx Hc _ _. unfold instance_of. simpl. by rewrite ED.
  - intros sc Hk. by apply Hlive, (rn_known _ HW).
Qed.

(** The part of a scope that other changes do not touch. *)
Lemma scope_kept W W' sc o : scope_ok W sc o → descs W' = descs W →
  Runtime.sessions (rt W') !! sc = Runtime.sessions (rt W) !! sc → scope_ok W' sc o.
Proof. intros [H1 H2 H3 H4] HD Hs. split; rewrite ?HD, ?Hs; done. Qed.

Lemma scope_running W sc o : running W → objects_ W !! sc = Some o →
  Runtime.scopeState_ (info o) ≠ Runtime.Stopped →
  ∃ st, Runtime.sessions (rt W) !! sc = Some st ∧ session_ok (env_of H W) st.
Proof.
  intros HW Ho Hs. apply (i_sessions _ _ (rn_inv _ HW) sc (info o)); [|done].
  simpl. by rewrite lookup_fmap, Ho.
Qed.

(** Names, types, defaults of the root, listeners: the scopes are the same. *)
Lemma running_registry W W' : running W →
  Startup.started_ (reg W') = Startup.started_ (reg W) → descs W' = descs W →
  index W' = index W → slots W' = slots W → rt W' = rt W → objects_ W' = objects_ W →
  NameInterning.wf (names W') → ListenerStore.usable (listeners_ W') →
  scopeChunks_ W' = scopeChunks_ W → Startup.defaults_ (reg W') = Startup.defaults_ (reg W) →
  hasAnyDefault_ W' = hasAnyDefault_ W → running W'.
Proof.
  intros HW Est ED EI Esl Ert Eob Hnm Hus Ech Ede Eha.
  apply (running_objects W); rewrite ?Eob, ?Ech; try done.
  - apply HW.
  - apply HW.
  - intros sc o Ho. apply (scope_kept W); [|done|by rewrite Ert]. by apply HW.
  - intros sc o Ho. by apply scope_running.
  - apply (defaults_frame W); [apply HW|done|done|]. rewrite Eob. intros sc o Ho. left. by exists o.
Qed.

(** One scope changes. *)
Lemma running_scope W sc o f : running W → objects_ W !! sc = Some o →
  scope_ok W sc (f o) →
  (Runtime.scopeState_ (info (f o)) ≠ Runtime.Stopped →
     ∃ st, Runtime.sessions (rt W) !! sc = Some st ∧ session_ok (env_of H W) st) →
  Runtime.scopedDefaults_ (info (f o)) = Runtime.scopedDefaults_ (info o) ∧
  Runtime.hasAnyScopedDefault_ (info (f o)) = Runtime.hasAnyScopedDefault_ (info o) →
  listed (scopeChunks_ W) (alter f sc (objects_ W)) →
  running (set_objects (alter f sc (objects_ W)) W).
Proof.
  intros HW Ho Hok Hst Hdef Hli. apply (running_objects W); try done; try apply HW; simpl.
  - intros sc' [o' Ho']. rewrite lookup_alter. case_decide; [subst; rewrite Ho|]; by eexists.
  - rewrite lookup_alter. case_decide; [|apply HW]. subst. pose proof (rn_null _ HW). congruence.
  - intros sc' o'. rewrite lookup_alter. case_decide; [subst sc'; rewrite Ho; intros [= <-]|].
    + by apply (scope_kept W).
    + intros Ho'. apply (scope_kept W); [|done..]. by apply HW.
  - intros sc' o'. rewrite lookup_alter. case_decide; [subst sc'; rewrite Ho; intros [= <-]; done|].
    intros Ho'. by apply scope_running.
  - apply (defaults_frame W); [apply HW|done|done|]. intros sc' o'. simpl. rewrite lookup_alter.
    case_decide; [subst sc'; rewrite Ho; intros [= <-]|]; left; eauto.
Qed.

(** [internNameSafe] *)
Lemma intern_runs W nm : running W → NameInterning.size (names W) < kThreadLocalSentinel - 1 →
  ∃ n W', internNameSafe nm W = (Ok n, W') ∧ running W' ∧
    NameInterning.nameOf (names W') n = Some nm ∧ n < two32 ∧
    (∃ T, W' = Contexts.with_names T W ∨ W' = W).
Proof.
  intros HW Hr. destruct (decide (nm = ""%string)) as [->|Hne].
  { exists kUnnamed, W. split_and!; [done|done| |done|by exists NameInterning.empty; right].
    exact (NameInterning.wf_unnamed _ (rn_names _ HW)). }
  rewrite Contexts.internNameSafe_run by done.
  pose proof (NameInterning.name_intern_wf nm _ (rn_names _ HW) Hr) as Hwf.
  destruct (NameInterning.intern_reads nm _ (rn_names _ HW) Hr) as [Hn _].
  eexists _, _. split; [done|]. split_and!.
  - by apply (running_registry W); try done; try apply HW.
  - exact Hn.
  - pose proof (vat_lt _ _ _ Hn) as Hlt. pose proof (NameInterning.intern_size nm (names W)) as Hs.
    unfold NameInterning.size, kThreadLocalSentinel, kInvalidNameId, two32 in *. lia.
  - eexists. by left.
Qed.

(** A change of the tables only. *)
Definition with_tables (T : Startup.tables) (W : t) : t :=
  set_reg (Startup.set_tables T (registry W)) W.

Lemma on_tables_run {A} (m : M Startup.tables A) W :
  on_reg (Startup.on_tables m) W =
    ((m (Startup.tables_ (reg W))).1, with_tables (m (Startup.tables_ (reg W))).2 W).
Proof.
  unfold on_reg, Startup.on_tables, with_tables, registry. destruct W as [R [] b L ds sc ch ob]. simpl.
  by destruct (m (Startup.tables_ R)).
Qed.

Lemma adopt_runs T W : running W → ∃ ty ti,
  adopt_type T (Startup.tables_ (reg W)) =
    (Ok ty, Startup.set_typeInterning ti (Startup.tables_ (reg W))) ∧
  running (with_tables (Startup.set_typeInterning ti (Startup.tables_ (reg W))) W).
Proof.
  intros HW.
  assert (∀ ti, running (with_tables (Startup.set_typeInterning ti (Startup.tables_ (reg W))) W)) as Hrun.
  { intros ti. by apply (running_registry W); try done; try apply HW. }
  unfold adopt_type. destruct (_ =? kInvalidTypeId).
  - unfold Startup.internByName. destruct (TypeInterning.internByName _ _ _) as [ty ti]. by exists ty, ti.
  - eexists _, (Startup.typeInterning_ (Startup.tables_ (reg W))). split; [|apply Hrun].
    replace (Startup.set_typeInterning _ _) with (Startup.tables_ (reg W)); [done|].
    by destruct (Startup.tables_ (reg W)).
Qed.

(** The type id a binding of [T] gets. *)
Definition adopted (T : BoundType) (W : t) : TypeId :=
  match (adopt_type T (Startup.tables_ (reg W))).1 with Ok ty => ty | _ => kInvalidTypeId end.

(** ** A new descriptor *)

Lemma extended_bound W W' x c d : tables_ok (descs W) (index W) →
  extended (descs W) (descs W') x c → bound_session (descs W) d → bound_session (descs W') d.
Proof.
  intros HT HX (y & c' & Hy & Hc & Hrest). exists y, c'.
  pose proof (vat_lt _ _ _ Hy) as Hlt.
  rewrite (xt_at _ _ _ _ HX), (xt_cold _ _ _ _ HX), !decide_False; [done|..];
    unfold DescriptorTable.size; lia.
Qed.

(** Every binding appends a descriptor that is its own primary: a stored singleton, or a
    session descriptor with the next slot. *)
Lemma running_extended W W' x c st prio :
  running W → extended (descs W) (descs W') x c →
  TypeIndex.lists (StartupFacts.keys (descs W')) (index W') →
  TypeIndex.settled prio (StartupFacts.keys (descs W')) (index W') →
  DescriptorTable.size (descs W) + 1 < kInvalidDescriptorId → origin c = RuntimeBinding →
  Runtime.is_primary_elsewhere x (DescriptorTable.size (descs W)) = false →
  Startup.started_ (reg W') = Startup.started_ (reg W) → names W' = names W →
  objects_ W' = objects_ W → listeners_ W' = listeners_ W → scopeChunks_ W' = scopeChunks_ W →
  Startup.defaults_ (reg W') = Startup.defaults_ (reg W) → hasAnyDefault_ W' = hasAnyDefault_ W →
  rt W' = Runtime.set_singletons st (rt W) →
  (lifetime x = Singleton ∧ slots W' = slots W ∧ SingletonStore.wf st ∧
     ∃ p, p ≠ nullptr ∧ ∀ i, SingletonStore.value st i =
       if decide (i = DescriptorTable.size (descs W)) then p
       else SingletonStore.value (Runtime.singletons_ (rt W)) i) ∨
  (lifetime x = Session ∧ slots W' = slots W + 1 ∧ sessionSlot x = slots W ∧
     st = Runtime.singletons_ (rt W)) →
  running W'.
Proof.
  intros HW HX HL HS Hsz Ho Hp Est Enm Eob Eli Ech Ede Eha Ert Hor.
  pose proof (rn_tables _ HW) as HT. pose proof (xt_size _ _ _ _ HX) as Hn.
  set (n := DescriptorTable.size (descs W)) in *.
  assert (∀ i y, DescriptorTable.at_ (descs W') i = Some y →
    (i = n ∧ y = x) ∨ (i ≠ n ∧ DescriptorTable.at_ (descs W) i = Some y)) as Hat.
  { intros i y. rewrite (xt_at _ _ _ _ HX). fold n. case_decide; [intros [= <-]; by left|by right]. }
  assert (∀ i y, i ≠ n → DescriptorTable.coldAt (descs W') i = Some y →
    DescriptorTable.coldAt (descs W) i = Some y) as Hcold.
  { intros i y Hi. rewrite (xt_cold _ _ _ _ HX). fold n. by rewrite decide_False. }
  assert (tables_ok (descs W') (index W')) as HT'.
  { eapply (tables_extended (descs W)); try done; [by rewrite Hn|by destruct Hor as [[]|[]]; auto|].
    intros Hl d y Hy Hly. destruct Hor as [[Hl' _]|(_ & _ & -> & _)]; [congruence|].
    pose proof (rn_slots _ HW d y Hy Hly). lia. }
  assert (env_ok (env_of H W')) as EO'.
  { apply env_good; rewrite ?Eob, ?Eli; [done|by apply HW..|]. intros sc o Hsc. by apply (rn_scopes _ HW sc). }
  assert (grows (env_of H W) (env_of H W')) as HGr.
  { eapply extended_grows; [exact HX|apply HT|done|done|done]. }
  assert (∀ d, DescriptorTable.at_ (descs W) d = None → d ≠ n →
    SingletonStore.value (Runtime.singletons_ (rt W)) d = nullptr) as Hnone.
  { intros d Hd _. destruct (decide (SingletonStore.value (Runtime.singletons_ (rt W)) d = nullptr)) as [|Hv]; [done|].
    destruct (i_stored _ _ (rn_inv _ HW) d Hv) as (y & Hy & _). simpl in Hy. congruence. }
  assert (DescriptorTable.at_ (descs W) n = None) as HnN.
  { apply vat_None. unfold n, DescriptorTable.size. lia. }
  assert (∀ i, i ≠ n → SingletonStore.value st i = SingletonStore.value (Runtime.singletons_ (rt W)) i) as Hval.
  { intros i Hi. destruct Hor as [(_ & _ & _ & p & _ & Hv)|(_ & _ & _ & ->)]; [|done].
    by rewrite Hv, decide_False. }
  split; rewrite ?Est, ?Enm, ?Eob, ?Eli, ?Ech; try done; try apply HW.
  - apply (inv_transfer (env_of H W) (env_of H W') (rt W)); rewrite ?Ert; try done.
    + by apply running_env.
    + apply HW.
    + destruct Hor as [(_ & _ & Hwf & _)|(_ & _ & _ & ->)]; [done|apply (i_singletons _ _ (rn_inv _ HW))].
    + intros d y Hd Hl. simpl in *. destruct (Hat d y Hd) as [[-> ->]|[Hne Hy]].
      * destruct Hor as [(_ & _ & Hwf & p & Hp0 & Hv)|(? & _)]; [|congruence].
        destruct (N.lt_ge_cases n (InstanceArray.size (SingletonStore.instances_ st))) as [|Hge]; [done|].
        pose proof (SingletonStore.wf_pad _ Hwf n Hge) as Hz. by rewrite Hv, decide_True in Hz.
      * pose proof (i_capacity _ _ (rn_inv _ HW) d y Hy Hl) as Hc.
        destruct Hor as [(_ & _ & Hwf & p & Hp0 & Hv)|(_ & _ & _ & ->)]; [|done].
        destruct (N.lt_ge_cases d (InstanceArray.size (SingletonStore.instances_ st))) as [|Hge]; [done|].
        assert (d < n) as Hdn by exact (vat_lt _ _ _ Hy).
        pose proof (SingletonStore.wf_pad _ Hwf n ltac:(lia)) as Hz. by rewrite Hv, decide_True in Hz.
    + intros d [y Hy]. simpl in *. apply Hval. intros ->. congruence.
    + intros d Hd. simpl in *. destruct (decide (d = n)) as [->|Hne].
      * destruct Hor as [(Hl & _ & _ & p & Hp0 & Hv)|(Hl & _ & _ & ->)].
        -- rewrite Hv, decide_True by done. split; [|done]. intros _. exists x. simpl.
           by rewrite (xt_at _ _ _ _ HX), decide_True.
        -- split; [intros Hv|intros (y & Hy & Hly)].
           ++ destruct (i_stored _ _ (rn_inv _ HW) n Hv) as (y & Hy & _). simpl in Hy. congruence.
           ++ simpl in Hy. rewrite (xt_at _ _ _ _ HX), decide_True in Hy by done. congruence.
      * rewrite Hval by done. split; [by rewrite Hnone|]. intros (y & Hy & _). simpl in Hy.
        apply Hat in Hy as [[? _]|[_ Hy]]; congruence.
    + intros k c' _ Hk. by destruct (running_settled W _ HW Hk).
    + intros sc i. simpl. rewrite Eob. intros Hsc Hs.
      destruct (i_sessions _ _ (rn_inv _ HW) sc i Hsc Hs) as (ss & Hss & [H1 H2 H3 H4]).
      exists ss. split; [done|].
      split; [done|intros d y c' Hy Hc Hl Hor'; simpl in *; destruct (Hat d y Hy) as [[-> ->]|[Hne Hy']]..
        |intros d Hd; by apply (lifetime_grows _ _ HGr), H4].
      * rewrite (xt_cold _ _ _ _ HX), decide_True in Hc by done. congruence.
      * by apply (H2 d y c'); [|apply Hcold|..].
      * rewrite (xt_cold _ _ _ _ HX), decide_True in Hc by done. congruence.
      * by apply (H3 d y c'); [|apply Hcold|..].
    + intros k y c' Hy Hc Hl _. unfold instance_of. simpl in *. rewrite Hy, Hl.
      rewrite (xt_at _ _ _ _ HX), decide_False; [by rewrite Hy, Hl|].
      intros Hk. fold n in Hk. congruence.
  - intros sc o Hsc. destruct (rn_scopes _ HW sc o Hsc) as [(ss & Hss & Hwf & Hk & Hb) H2 H3 H4].
    split; [|done..|].
    + rewrite Ert. exists ss. split_and!; [done..| |].
      { intros d Hd. apply (lifetime_grows _ _ HGr). by apply Hk. }
      intros Hs d y c' Hy Hc Hl Hor'.
      destruct (Hat d y Hy) as [[-> ->]|[Hne Hy']].
      * rewrite (xt_cold _ _ _ _ HX), decide_True in Hc by done. injection Hc as <-.
        destruct Hor'; [done|]. fold n in Hp. congruence.
      * by apply (Hb Hs d y c'); [|apply Hcold|..].
    + intros p Hpp. destruct (H4 p Hpp) as [Hp0 Hbs]. split; [done|]. exact (extended_bound W W' x c p.1 HT HX Hbs).
  - intros d y Hy Hl. destruct (Hat d y Hy) as [[-> ->]|[Hne Hy']].
    + destruct Hor as [[Hl' _]|(_ & -> & -> & _)]; [congruence|lia].
    + pose proof (rn_slots _ HW d y Hy' Hl). destruct Hor as [(_ & -> & _)|(_ & -> & _)]; lia.
  - rewrite Hn. pose proof (rn_count _ HW) as Hc. fold n in Hc.
    destruct Hor as [(_ & -> & _)|(_ & -> & _)]; lia.
  - intros d y c' Hy Hc Ho'. destruct (Hat d y Hy) as [[-> ->]|[Hne Hy']]; [done|].
    by apply (rn_bound _ HW d y c'); [|apply Hcold|].
  - apply (defaults_frame W); [apply HW|done|done|]. rewrite Eob. intros sc o Hsc. left. by exists o.
  - rewrite Ert. apply HW.
  - rewrite Ert. apply HW.
Qed.

End service.

(** The invariant's fields and the lemmas, for another section over the same host. *)
#[global] Arguments host_env {H known} HG W.
#[global] Arguments rn_started {H known} W _.
#[global] Arguments rn_tables {H known} W _.
#[global] Arguments rn_inv {H known} W _.
#[global] Arguments rn_defaults {H known} W _.
#[global] Arguments rn_listeners {H known} W _.
#[global] Arguments rn_names {H known} W _.
#[global] Arguments rn_known {H known} W _ _.
#[global] Arguments rn_null {H known} W _.
#[global] Arguments rn_scopes {H known} W _ _ _.
#[global] Arguments rn_slots {H known} W _ _ _.
#[global] Arguments rn_count {H known} W _.
#[global] Arguments rn_bound {H known} W _ _ _ _.
#[global] Arguments rn_chunks {H known} W _.
#[global] Arguments rn_claims {H known} W _.
#[global] Arguments rn_stack {H known} W _.
#[global] Arguments announce_runs {H fuel known} HG W.
#[global] Arguments request_runs {H fuel known} HG W.
#[global] Arguments running_extended {H known} HG W.
#[global] Arguments adopt_runs {H known} HG T W.
#[global] Arguments intern_runs {H known} HG W.
#[global] Arguments running_scope {H known} HG W.
#[global] Arguments running_registry {H known} HG W.
#[global] Arguments scope_running {H known} W.
#[global] Arguments running_env {H known} HG W.
#[global] Arguments running_settled {H known} W sc.
#[global] Arguments running_good {H known} W.
#[global] Arguments running_objects {H known} HG W.
End Service.
