(* ===== verification/Access.v ===== *)
(** Dereferencing a handle: what [operator->] does with the three forms of [Bean<T>].

    [Module Access] models [Bean<T>::proxyResolve_], [threadLocalResolve_] and [context()]
    of [internal/detail/HandleInlineImpl.hpp] and [operator->] of [api/ctr/Bean.hpp], on a
    context ([World]), over the paths [Handle.arrow] distinguishes. *)
From S2P Require Import Prelude Tables Interning Index Stores Startup Freelist Prototypes Listeners Claims Handles Casts Caches Runtime RuntimeFacts Resolution Ready World SampleWorld Contexts Living Service.

Local Open Scope N_scope.

Module Access.
Import World RuntimeFacts Living Service.
Local Open Scope ctr_scope.
#[local] Existing Instance Runtime.ScopeState_eq_dec.

Section access.
Context (H : host) (fuel : nat).

(** [desc.adjustToExposed(instance)], when there is one. *)
Definition adjusted (desc : Descriptor) (instance : ptr) : ptr :=
  Cast.adjust (call_adjust H) (adjustToExposed desc) instance.

Definition primaryId (desc : Descriptor) (descId : DescriptorId) : DescriptorId :=
  if negb (primaryDescriptor desc =? kInvalidDescriptorId) then primaryDescriptor desc else descId.

Definition proxyResolve_ (scopeNameId : NameId) (descId : DescriptorId) : M t ptr :=
  let! W := mget in
  let scope := ScopeTable.findScope (scopeChunks_ W) scopeNameId in
  if scope =? nullptr then mreturn nullptr
  else
    let! o := object scope in
    if decide (Runtime.scopeState_ (info o) = Runtime.Stopped) then mreturn nullptr
    else
      let D := Startup.descriptors_ (Startup.tables_ (reg W)) in
      let! desc := mlift (DescriptorTable.at_ D descId) in
      let! primaryDesc := mlift (DescriptorTable.at_ D (primaryId desc descId)) in
      let! instance := mlift (Runtime.find_session scope (sessionSlot primaryDesc) (rt W)) in
      if negb (instance =? nullptr) then mreturn (adjusted desc instance)
      else if decide (Runtime.scopeState_ (info o) = Runtime.Stopping) then mreturn nullptr
      else
        let! instance := on_rt H (λ E,
          Runtime.materializeSessionInstance E (Runtime.resolve E fuel) descId scope (Some scope)) in
        mreturn (adjusted desc instance).

Definition threadLocalResolve_ (descId : DescriptorId) : M t ptr :=
  let! W := mget in
  let D := Startup.descriptors_ (Startup.tables_ (reg W)) in
  let! desc := mlift (DescriptorTable.at_ D descId) in
  let! instance := on_rt H (λ E, Runtime.find_thread_local E (primaryId desc descId)) in
  if negb (instance =? nullptr) then mreturn (adjusted desc instance)
  else
    let! instance := on_rt H (λ E,
      Runtime.materializeThreadLocalInstance E (Runtime.resolve E fuel) descId None) in
    mreturn (adjusted desc instance).

(** [operator->] *)
Definition arrow (b : Handle.Bean) : M t ptr :=
  match Handle.arrow b with
  | Handle.Object p => mreturn p
  | Handle.NullAccess => mreturn nullptr
  | Handle.ViaThreadLocal d => threadLocalResolve_ d
  | Handle.ViaProxy n d => proxyResolve_ n d
  end.

(** [context()]: the root ([None]) or the scope; an empty handle has no registry to ask. *)
Definition context (b : Handle.Bean) (W : t) : option (option ptr) :=
  match Handle.registry b with
  | Handle.ANull => None
  | _ =>
      if negb (Handle.object_ b =? nullptr) then Some None
      else
        let scope := ScopeTable.findScope (scopeChunks_ W) (Handle.scopeNameId b) in
        if scope =? nullptr then Some None else Some (Some scope)
  end.

(** ** Both paths in a running context *)

Context (known : gset ptr) (HG : host_good H known).

Abbreviation running := (running H known).
Abbreviation fuelled := (fuelled fuel).
Abbreviation instance W := (instance_of (env_of H W) (rt W)).

Lemma primaryId_eq x d : primaryId x d = Runtime.materializationDescId x d.
Proof.
  unfold primaryId, Runtime.materializationDescId, Runtime.is_primary_elsewhere.
  destruct (N.eqb_spec (primaryDescriptor x) kInvalidDescriptorId); cbn [negb].
  - by rewrite andb_false_r.
  - destruct (N.eqb_spec (primaryDescriptor x) d) as [->|]; [done|]. by rewrite andb_true_r.
Qed.

(** An alias and its primary are materialized alike. *)
Lemma materialize_alias_session E rec d sc scope R x y :
  DescriptorTable.at_ (Runtime.descriptors_ E) d = Some x →
  let prim := Runtime.materializationDescId x d in
  DescriptorTable.at_ (Runtime.descriptors_ E) prim = Some y →
  Runtime.is_primary_elsewhere y prim = false →
  Runtime.materializeSessionInstance E rec d sc scope R =
  Runtime.materializeSessionInstance E rec prim sc scope R.
Proof.
  intros Hx prim Hy Hp.
  assert (Runtime.materializationDescId y prim = prim) as Hpp.
  { unfold Runtime.materializationDescId. by rewrite Hp. }
  unfold Runtime.materializeSessionInstance, Runtime.lift, mbind_.
  rewrite Hx, Hy. cbv beta iota zeta. fold prim. by rewrite Hpp, Hy.
Qed.

Lemma materialize_alias_local E rec d scope R x y :
  DescriptorTable.at_ (Runtime.descriptors_ E) d = Some x →
  let prim := Runtime.materializationDescId x d in
  DescriptorTable.at_ (Runtime.descriptors_ E) prim = Some y →
  Runtime.is_primary_elsewhere y prim = false →
  Runtime.materializeThreadLocalInstance E rec d scope R =
  Runtime.materializeThreadLocalInstance E rec prim scope R.
Proof.
  intros Hx prim Hy Hp.
  assert (Runtime.materializationDescId y prim = prim) as Hpp.
  { unfold Runtime.materializationDescId. by rewrite Hp. }
  unfold Runtime.materializeThreadLocalInstance, Runtime.lift, mbind_.
  rewrite Hx, Hy. cbv beta iota zeta. fold prim. by rewrite Hpp.
Qed.

(** The scope a proxy leads to. *)
Abbreviation target W n := (ScopeTable.findScope (scopeChunks_ W) n).

Lemma target_scope W n : running W → target W n ≠ nullptr →
  ∃ o, objects_ W !! target W n = Some o ∧ Runtime.scopeNameId_ (info o) = n.
Proof. intros HW. apply (rn_chunks _ HW). Qed.

Lemma scopes_of W sc o : objects_ W !! sc = Some o → Runtime.scopes_ (env_of H W) !! sc = Some (info o).
Proof. intros Ho. simpl. by rewrite lookup_fmap, Ho. Qed.

(** [p] is the exposed object of [k]'s bean, built on the way if there was none; only the
    run-time state changed. *)
Definition reached (k : Claims.MaterializationKey) (x : Descriptor) (p : ptr) (W W' : t) : Prop :=
  ∃ R, W' = set_rt R W ∧ good (env_of H W) (rt W) R ∧ built (env_of H W) k (rt W) R ∧
    p = adjusted x (instance_of (env_of H W) R k).

Definition advanced (W W' : t) : Prop := ∃ R, W' = set_rt R W ∧ good (env_of H W) (rt W) R.

Lemma reached_running k x p W W' : running W → reached k x p W W' → running W' ∧
  instance W' k ≠ nullptr ∧ p = adjusted x (instance W' k).
Proof.
  intros HW (R & -> & HR & [Hb _] & ->). split_and!; [by apply running_good|exact Hb|done].
Qed.

Lemma advanced_running W W' : running W → advanced W W' → running W'.
Proof. intros HW (R & -> & HR). by apply running_good. Qed.

(** A materialization whose specification is [has]. *)
Lemma reach {A} (m : Runtime.env → M Runtime.t ptr) k x (f : ptr → A) W
    (Q : A → t → Prop) X :
  ends (full (env_of H W)) (m (env_of H W)) (rt W)
    (λ p R, has (env_of H W) k p (rt W) R) (λ _ R, good (env_of H W) (rt W) R) →
  (∀ p W', reached k x (adjusted x p) W W' → Q (f p) W') → (∀ e W', advanced W W' → X e W') →
  ends never (let! p := on_rt H m in mreturn (f p)) W Q X.
Proof.
  intros Hm HQ HX. eapply ends_bind with (P := λ p W', reached k x (adjusted x p) W W').
  - apply (on_rt_ends H known HG).
    eapply ends_mono; [exact Hm|intros p R HR|intros e R HR; apply HX; by exists R].
    destruct (has_built _ _ _ _ _ HR) as (H1 & <- & H3). by exists R.
  - intros p W' Hr. apply ends_return. by apply HQ.
Qed.

Section proxy.
Context (W : t) (n : NameId) (d : DescriptorId) (x : Descriptor) (o : ScopeObject).
Hypothesis HW : running W.
Hypothesis Hx : DescriptorTable.at_ (descs W) d = Some x.
Hypothesis Hl : lifetime x = Session.
Hypothesis Hn : target W n ≠ nullptr.
Hypothesis Ho : objects_ W !! target W n = Some o.
Hypothesis Hs : Runtime.scopeState_ (info o) ≠ Runtime.Stopped.

Let prim := Runtime.materializationDescId x d.
Let k := Claims.Key prim (target W n).

Lemma proxy_steps : ∃ y c, DescriptorTable.at_ (descs W) prim = Some y ∧
  DescriptorTable.coldAt (descs W) prim = Some c ∧ lifetime y = Session ∧
  Runtime.is_primary_elsewhere y prim = false ∧
  proxyResolve_ n d W =
    (if negb (instance W k =? nullptr) then mreturn (adjusted x (instance W k))
     else
       let! p := on_rt H (λ E,
         Runtime.materializeSessionInstance E (Runtime.resolve E fuel) d (target W n)
           (Some (target W n))) in
       mreturn (adjusted x p)) W.
Proof.
  destruct (primary_of (env_of H W) (running_env HG _ HW) d x Hx) as (y & c & Hy & Hc & Hp & Hly).
  exists y, c. rewrite Hl in Hly. split_and!; try done.
  unfold proxyResolve_. unfold mbind_ at 1, mget. rewrite (proj2 (N.eqb_neq _ _) Hn).
  unfold mbind_ at 1, object. rewrite Ho, decide_False by done.
  unfold mbind_ at 1, mlift. rewrite Hx. unfold mreturn at 1. cbv beta iota zeta.
  rewrite primaryId_eq. unfold mbind_ at 1, mlift.
  change (DescriptorTable.at_ (descs W) (Runtime.materializationDescId x d) = Some y) in Hy.
  rewrite Hy. unfold mreturn at 1. cbv beta iota.
  unfold mbind_ at 1, mlift.
  rewrite (find_session_spec (env_of H W) prim y (target W n) (info o)); [|apply HW|done..|by apply scopes_of|done].
  unfold mreturn at 1. cbv beta iota. fold k.
  destruct (negb _); [done|]. rewrite decide_False; [done|]. apply (rn_scopes _ HW _ _ Ho).
Qed.

Lemma proxy_found : instance W k ≠ nullptr →
  proxyResolve_ n d W = (Ok (adjusted x (instance W k)), W).
Proof.
  intros Hi. destruct proxy_steps as (y & c & _ & _ & _ & _ & ->).
  by rewrite (proj2 (N.eqb_neq _ _) Hi).
Qed.

Lemma proxy_built : fuelled 0 W → instance W k = nullptr →
  ends never (proxyResolve_ n d) W (λ p W', reached k x p W W') (λ _ W', advanced W W').
Proof.
  intros Hf Hi. destruct proxy_steps as (y & c & Hy & Hc & Hly & Hp & Heq).
  unfold ends. rewrite Heq, Hi. change (negb (nullptr =? nullptr)) with false. cbv iota.
  eapply (reach _ k x _ W (λ p W', reached k x p W W') (λ _ W', advanced W W')); [|done..].
  unfold ends. rewrite (materialize_alias_session (env_of H W) _ d _ _ _ x y Hx Hy Hp). fold prim.
  apply (materializeSessionInstance_spec (env_of H W) (running_env HG _ HW) _ fuel
    (rec_keeps H fuel known HG W HW) prim y c _ (info o)); try done.
  - apply HW.
  - by apply scopes_of.
  - apply Nat.lt_le_incl. by apply fuel_enough.
Qed.
End proxy.

(** A thread-local instance is found; the store's last-hit cache may change. *)
Lemma local_found W d x : running W →
  DescriptorTable.at_ (descs W) d = Some x → lifetime x = ThreadLocal →
  let k := Claims.Key (Runtime.materializationDescId x d) nullptr in
  instance W k ≠ nullptr →
  ∃ T, threadLocalResolve_ d W = (Ok (adjusted x (instance W k)), set_rt (Runtime.set_tl T (rt W)) W) ∧
    running (set_rt (Runtime.set_tl T (rt W)) W).
Proof.
  intros HW Hx Hl k Hi.
  destruct (primary_of (env_of H W) (running_env HG _ HW) d x Hx) as (y & c & Hy & Hc & Hp & Hly).
  rewrite Hl in Hly.
  pose proof (find_thread_local_spec (env_of H W) _ y (rt W) (rn_inv _ HW) Hy Hly) as Hs. fold k in Hs.
  unfold threadLocalResolve_. unfold mbind_ at 1, mget. unfold mbind_ at 1, mlift. rewrite Hx.
  unfold mreturn at 1. cbv beta iota zeta. rewrite primaryId_eq. unfold mbind_ at 1, on_rt.
  unfold ends, Runtime.find_thread_local in *.
  destruct (ThreadLocalStore.findInstance_spec (registryId H) (Runtime.materializationDescId x d)
    (Runtime.tl (rt W)) (i_tl _ _ (rn_inv _ HW))) as (T & HT & _).
  change (Runtime.registryId_ (env_of H W)) with (registryId H) in *. rewrite HT in *.
  destruct Hs as (-> & HR & _). exists T.
  rewrite (proj2 (N.eqb_neq _ _) Hi). split; [done|]. by apply running_good.
Qed.

Lemma local_reached W d x : running W → fuelled 0 W →
  DescriptorTable.at_ (descs W) d = Some x → lifetime x = ThreadLocal →
  ends never (threadLocalResolve_ d) W
    (λ p W', reached (Claims.Key (Runtime.materializationDescId x d) nullptr) x p W W')
    (λ _ W', advanced W W').
Proof.
  intros HW Hf Hx Hl. set (prim := Runtime.materializationDescId x d). set (k := Claims.Key prim nullptr).
  destruct (primary_of (env_of H W) (running_env HG _ HW) d x Hx) as (y & c & Hy & Hc & Hp & Hly).
  fold prim in Hy, Hc, Hp. rewrite Hl in Hly.
  unfold threadLocalResolve_. eapply ends_run; [done|]. cbv beta zeta.
  eapply ends_run; [by unfold mlift; rewrite Hx|]. cbv beta. rewrite primaryId_eq. fold prim.
  eapply ends_bind with (P := λ p W', ∃ R, W' = set_rt R W ∧ p = instance W k ∧
    good (env_of H W) (rt W) R ∧
    (∀ k', instance_of (env_of H W) R k' = instance_of (env_of H W) (rt W) k') ∧
    Runtime.trace R = Runtime.trace (rt W)).
  { apply (on_rt_ends H known HG). eapply ends_mono;
      [apply (find_thread_local_spec (env_of H W) prim y (rt W)); [apply HW|done..]| |by intros ?? []].
    intros p R (-> & H1 & H2 & H3). by exists R. }
  intros p W1 (R1 & -> & -> & H1 & E1 & T1).
  destruct (N.eqb_spec (instance W k) nullptr) as [Hi|Hi]; cbn [negb].
  2: { apply ends_return. exists R1. destruct (built_found _ k _ _ H1 Hi) as [Hb He].
    split_and!; [done|done|done|by rewrite He]. }
  pose proof (running_good _ _ HW H1) as HW1.
  eapply (reach _ k x _ (set_rt R1 W)).
  - unfold ends. rewrite (materialize_alias_local (env_of H W) _ d _ _ x y Hx Hy Hp). fold prim.
    apply (materializeThreadLocalInstance_spec (env_of H W) (running_env HG _ HW) _ fuel
      (rec_keeps H fuel known HG W HW) prim y c None R1); try done.
    + apply H1.
    + apply Nat.lt_le_incl. by apply fuel_enough.
  - intros p W' (R & -> & H2 & [Hb1 Hb2] & Hpp). exists R. split_and!; [done| |split; [done|]|done].
    + eapply good_trans; [exact H1|exact H2].
    + intros Hz. simpl in Hb2. rewrite T1 in Hb2. apply Hb2.
      change (instance_of (env_of H W) R1 k = nullptr). by rewrite E1.
  - intros e W' (R & -> & H2). exists R. split; [done|]. eapply good_trans; [exact H1|exact H2].
Qed.

(** What [arrow] says of a handle. *)
Lemma proxy_context b n d : Handle.arrow b = Handle.ViaProxy n d →
  (∀ W, context b W = Some (if target W n =? nullptr then None else Some (target W n))) ∧
  Handle.object_ b = nullptr.
Proof.
  unfold Handle.arrow, context, Handle.registry, Handle.tracked.
  destruct (N.eqb_spec (Handle.object_ b) nullptr) as [Hz|Hz]; cbn [negb]; [|done].
  destruct (Handle.registry_ b) eqn:Hr; [done|..];
    (destruct (_ =? kThreadLocalSentinel); [done|]); intros [= <- <-]; rewrite andb_false_r;
    (split; [intros W; by destruct (target W _ =? nullptr)|done]).
Qed.

(** *** Dereferencing as an operation *)

(** The ids of a handle name a descriptor of the form's lifetime. *)
Definition derefable (b : Handle.Bean) (W : t) : Prop :=
  match Handle.arrow b with
  | Handle.Object _ | Handle.NullAccess => True
  | Handle.ViaThreadLocal d =>
      ∃ x, DescriptorTable.at_ (descs W) d = Some x ∧ lifetime x = ThreadLocal
  | Handle.ViaProxy _ d => ∃ x, DescriptorTable.at_ (descs W) d = Some x ∧ lifetime x = Session
  end.

Lemma proxy_runs W n d x : running W → fuelled 0 W →
  DescriptorTable.at_ (descs W) d = Some x → lifetime x = Session →
  ends never (proxyResolve_ n d) W (λ _ W', advanced W W') (λ _ W', advanced W W').
Proof.
  intros HW Hf Hx Hl. assert (advanced W W) as Hself.
  { exists (rt W). split; [by destruct W|]. apply good_refl, HW. }
  destruct (decide (target W n = nullptr)) as [Hz|Hz].
  { unfold proxyResolve_. eapply ends_run; [done|]. cbv zeta. rewrite Hz. by apply ends_return. }
  destruct (target_scope W n HW Hz) as (s & Hs & _).
  destruct (decide (Runtime.scopeState_ (info s) = Runtime.Stopped)) as [Hst|Hst].
  { unfold proxyResolve_. eapply ends_run; [done|]. cbv zeta. rewrite (proj2 (N.eqb_neq _ _) Hz).
    eapply ends_run; [by unfold object; rewrite Hs|]. rewrite decide_True by done. by apply ends_return. }
  set (k := Claims.Key (Runtime.materializationDescId x d) (target W n)).
  destruct (decide (instance W k = nullptr)) as [Hi|Hi].
  - eapply ends_mono; [by apply (proxy_built W n d x s)| |done].
    intros p W' (R & -> & HR & _). by exists R.
  - unfold ends. by rewrite (proxy_found W n d x s).
Qed.

Lemma arrow_runs b W : running W → fuelled 0 W → derefable b W →
  ends never (arrow b) W (λ _ W', advanced W W') (λ _ W', advanced W W').
Proof.
  intros HW Hf Hd. unfold arrow, derefable in *.
  assert (advanced W W) as Hself.
  { exists (rt W). split; [by destruct W|]. apply good_refl, HW. }
  destruct (Handle.arrow b) as [p| |d|n d]; [by apply ends_return..| |].
  - destruct Hd as (x & Hx & Hl). eapply ends_mono; [by apply (local_reached W d x)| |done].
    intros p W' (R & -> & HR & _). by exists R.
  - destruct Hd as (x & Hx & Hl). by apply (proxy_runs W n d x).
Qed.

End access.
#[global] Arguments target_scope {H known} W n.
#[global] Arguments reached_running {H known} k x p W W'.
#[global] Arguments advanced_running {H known} W W'.
#[global] Arguments proxy_built {H fuel known} HG W.
#[global] Arguments proxy_found {H} fuel {known} HG W.
#[global] Arguments local_found {H} fuel {known} HG W.
#[global] Arguments local_reached {H fuel known} HG W.
#[global] Arguments arrow_runs {H fuel known} HG b W.
End Access.
