(* ===== verification/Sweep.v ===== *)
(** The sweep of a scope: [Registry::stopScope] from the point of view of the beans.

    [Module Sweep]: with user code that resolves what it wants while its beans are being
    destroyed, but lets no exception escape, the sweep ends the life of each bean of the
    scope, in reverse construction order, and leaves the rest of the container ready. *)
From S2P Require Import Prelude Tables Interning Index Stores Startup Freelist Prototypes Listeners Claims Handles Casts Caches Runtime RuntimeFacts Resolution Ready World Contexts Living Service.

Local Open Scope N_scope.

Module Sweep.
Import Claims Runtime RuntimeFacts.
Local Open Scope ctr_scope.

(** ** User code in a destruction *)

(** A program that returns, whatever its requests answer. *)
Fixpoint calm (p : prog) : Prop :=
  match p with
  | Return => True
  | Raise _ => False
  | Resolve _ _ _ k => ∀ r, calm (k r)
  end.

(** The destruction hooks and the listeners that hear of destructions. *)
Record calm_env (E : env) : Prop := {
  ca_hook d c f p : DescriptorTable.coldAt (descriptors_ E) d = Some c → preDestroy c = Some f →
    calm (call_hook E f None p);
  ca_listener ph ty em cbs bean :
    ph = ListenerStore.phasePreDestroy ∨ ph = ListenerStore.phaseDestroyed →
    ListenerStore.dispatch (listeners_ E) ph ty em = Some cbs →
    Forall (λ cb, calm (call_listener E cb bean)) cbs
}.

Section sweep.
Context (E : env) (EO : env_ok E) (fuel : nat) (Hfuel : (Resolution.nesting_bound E < fuel)%nat).
Context (HC : calm_env E).

Abbreviation D := (descriptors_ E) (only parsing).
Abbreviation key := MaterializationKey (only parsing).
Abbreviation inv := (inv E).
Abbreviation ext := (ext E).
Abbreviation good := (good E).
Abbreviation kept := (kept E).
Abbreviation instance_of := (instance_of E).
Abbreviation once := (once E).
Abbreviation full := (full E).
Abbreviation quietly m R := (ends full m R (λ _ R', good R R') (λ _ _, False)) (only parsing).

Lemma calm_prog p : prog_ok E p → calm p → ∀ R, inv R →
  quietly (run_prog (resolve E fuel) p) R.
Proof.
  induction p as [|m|sc ty nm k IH]; intros Hp Hc R HR; [by apply good_refl|done|].
  destruct Hp as [Hsc Hk]. pose proof (Resolution.measure_bound E R) as Hm.
  pose proof (resolve_fuel_spec E EO fuel sc ty nm R Hsc HR ltac:(lia)) as Hrec.
  unfold ends in *. cbn [run_prog].
  destruct (resolve E fuel sc ty nm R) as [[b|e| | |] R1]; try done.
  - destruct Hrec as [H1 _]. eapply ends_mono; [exact (IH (inl b) (Hk _) (Hc _) R1 (proj1 H1))| |done].
    intros u R2 H2. eapply good_trans; [|exact H2]. done.
  - eapply ends_mono; [exact (IH (inr e) (Hk _) (Hc _) R1 (proj1 Hrec))| |done].
    intros u R2 H2. eapply good_trans; [|exact H2]. done.
Qed.

Lemma calm_callbacks cbs bean : Forall (λ cb, calm (call_listener E cb bean)) cbs →
  ∀ R, inv R → quietly (run_callbacks E (resolve E fuel) cbs bean) R.
Proof.
  induction 1 as [|cb cbs Hcb _ IH]; intros R HR; [by apply ends_return, good_refl|].
  cbn [run_callbacks]. eapply ends_bind; [apply calm_prog; [apply EO|done..]|].
  intros ? R1 H1. eapply ends_mono; [apply IH, H1| |done]. intros ? R2 H2. eapply good_trans; [exact H1|exact H2].
Qed.

Lemma calm_dispatch ph ty bean em R :
  ph = ListenerStore.phasePreDestroy ∨ ph = ListenerStore.phaseDestroyed → inv R →
  quietly (dispatch E (resolve E fuel) ph ty bean em) R.
Proof.
  intros Hph HR. assert (ph < ListenerStore.kPhaseCount) as Hlt by (destruct Hph as [->| ->]; done).
  destruct (eo_dispatch _ EO ph ty em Hlt) as [[cbs Hd] _]. unfold dispatch.
  eapply ends_bind_lift; [exact Hd|]. apply calm_callbacks; [|done]. by eapply (ca_listener _ HC).
Qed.

(** ** One destruction *)

Lemma ends_noexcept {A} (m : M t A) R Q :
  ends full m R Q (λ _ _, False) → ends full (noexcept m) R Q (λ _ _, False).
Proof. unfold ends, noexcept. by destruct (m R) as [[a|e| | |] R']. Qed.

(** The destruction of the object [mem], from a predicate that follows the steps it makes
    and survives what calm code does in between. *)
Section steps.
Context (k : key) (c : DescriptorCold) (mem : ptr) (P : list step_kind → t → Prop).
Hypothesis Hc : DescriptorTable.coldAt D (key_descId k) = Some c.
Hypothesis P_inv : ∀ steps R, P steps R → inv R.
Hypothesis P_emit : ∀ s steps R, P steps R → P (steps ++ [s]) (log (Life s k mem) R).
Hypothesis P_good : ∀ steps R R', P steps R → good R R' → P steps R'.

Lemma steps_call {A} (m : M t A) steps R : P steps R → quietly m R →
  ends full m R (λ _ R', P steps R') (λ _ _, False).
Proof. intros HR Hm. eapply ends_mono; [exact Hm| |done]. intros a R' HR'. by eapply P_good. Qed.

Lemma steps_phase (b : bool) s ph bean em steps R :
  ph = ListenerStore.phasePreDestroy ∨ ph = ListenerStore.phaseDestroyed → P steps R →
  ends full (if b then do! emit s k mem in dispatch E (resolve E fuel) ph (exposedType c) bean em
             else mreturn tt) R
    (λ _ R', P (steps ++ if b then [s] else []) R') (λ _ _, False).
Proof.
  intros Hph HR. destruct b; [|rewrite app_nil_r; by apply ends_return].
  eapply ends_bind with (P := λ _ R', R' = log (Life s k mem) R); [done|]. intros ? ? ->.
  pose proof (P_emit s steps R HR) as H1.
  apply steps_call; [exact H1|]. apply calm_dispatch; [done|by eapply P_inv].
Qed.

Lemma steps_hook steps R : P steps R →
  ends full (call_preDestroy E fuel k c mem) R
    (λ _ R', P (steps ++ match preDestroy c with Some _ => [PreDestroyHook] | None => [] end) R')
    (λ _ _, False).
Proof.
  intros HR. unfold call_preDestroy.
  destruct (preDestroy c) as [f|] eqn:Hf; [|rewrite app_nil_r; by apply ends_return].
  eapply ends_bind with (P := λ _ R', R' = log (Life PreDestroyHook k mem) R); [done|]. intros ? ? ->.
  pose proof (P_emit PreDestroyHook steps R HR) as H1.
  apply steps_call; [exact H1|].
  apply calm_prog; [by apply EO|by eapply (ca_hook _ HC)|by eapply P_inv].
Qed.

Lemma destroy_object_steps bean em R : P [] R →
  ends full (destroy_object E fuel k c mem bean em) R
    (λ _ R', P (farewell E c) R') (λ _ _, False).
Proof.
  intros HR. unfold destroy_object.
  destruct (eo_dispatch _ EO ListenerStore.phasePreDestroy 0 0 eq_refl) as [_ [pre Hpre]].
  destruct (eo_dispatch _ EO ListenerStore.phaseDestroyed 0 0 eq_refl) as [_ [des Hdes]].
  assert (farewell E c = (if pre then [PreDestroy] else []) ++
    match preDestroy c with Some _ => [PreDestroyHook] | None => [] end ++
    (if des then [DestroyedStep] else []) ++ [Destructor]) as ->.
  { unfold farewell, dispatched. by rewrite Hpre, Hdes. }
  eapply ends_bind_lift; [exact Hpre|]. eapply ends_bind_lift; [exact Hdes|].
  assert (∀ steps R, P steps R → ends full (call_destroy k mem) R
    (λ _ R', P (steps ++ [Destructor]) R') (λ _ _, False)) as Hdtor.
  { intros steps R1 H1. apply ends_emit. by apply P_emit. }
  destruct (pre || des) eqn:Hany.
  - eapply ends_bind; [apply (steps_phase pre PreDestroy); [by left|exact HR]|]. intros ? R1 H1.
    eapply ends_bind; [apply steps_hook; exact H1|]. intros ? R2 H2.
    eapply ends_bind; [apply (steps_phase des DestroyedStep); [by right|exact H2]|]. intros ? R3 H3.
    eapply ends_mono; [apply Hdtor; exact H3| |done]. intros ? R4 H4.
    by rewrite !(assoc_L (++)).
  - apply orb_false_iff in Hany as [-> ->].
    eapply ends_bind; [apply steps_hook; exact HR|]. intros ? R2 H2.
    by apply Hdtor.
Qed.

(** A destruction with its deallocation. *)
Lemma executeDestruction_steps em R : P [] R →
  ends full (executeDestructionLifecycle E fuel k mem em) R
    (λ _ R', P (death E c) R') (λ _ _, False).
Proof.
  intros HR. unfold executeDestructionLifecycle, death. apply ends_noexcept. cbv zeta.
  eapply ends_bind_lift; [exact Hc|].
  eapply ends_bind; [by apply destroy_object_steps|]. intros ? R1 H1.
  destruct (bool_decide _ || _).
  - apply ends_emit. by apply P_emit.
  - apply ends_return. by rewrite app_nil_r.
Qed.
End steps.

(** The bean of [k], in a scope that is being stopped, is in its destruction; [steps] is
    what it lived through since [R0]. *)
Definition dying (k : key) (mem : ptr) (R0 : t) (steps : list step_kind) (R : t) : Prop :=
  inv R ∧ ext (Some k) R0 R ∧ instance_of R k = mem ∧
  ∀ c, kept k c → life k (trace R) = life k (trace R0) ++ ((λ s, (s, mem)) <$> steps).

Section dying.
Context (k : key) (mem : ptr) (R0 : t).
Hypothesis Hstop : stopping E (key_scope k).
Hypothesis Hmem : mem ≠ nullptr.

Lemma dying_start : inv R0 → instance_of R0 k = mem → dying k mem R0 [] R0.
Proof. intros HR Hi. split_and!; [done|apply ext_refl|done|]. intros c' _. by rewrite app_nil_r. Qed.

Lemma dying_emit s steps R : dying k mem R0 steps R →
  dying k mem R0 (steps ++ [s]) (log (Life s k mem) R).
Proof.
  intros (HR & Hx & Hi & Hl). assert (ext (Some k) R (log (Life s k mem) R)) as Hlog.
  { apply ext_log. intros k' c' _ Ho. apply life_other. congruence. }
  split_and!; [|by eapply ext_trans|exact Hi|].
  - apply inv_log; [done|]. intros k' c' Hk'.
    change (instance_of (log (Life s k mem) R) k') with (instance_of R k').
    destruct (decide (k' = k)) as [->|Hne].
    + rewrite decide_False by congruence. by left.
    + unfold present. change (instance_of (log (Life s k mem) R) k') with (instance_of R k').
      rewrite life_log, life_other, app_nil_r by congruence. by apply (i_trace _ _ HR).
  - intros c' Hk. rewrite life_log, life_same, (Hl c' Hk), fmap_app. by rewrite (assoc_L (++)).
Qed.

Lemma dying_good steps R R' : dying k mem R0 steps R → good R R' → dying k mem R0 steps R'.
Proof.
  intros (HR & Hx & Hi & Hl) [HR' Hx'].
  assert (busy E R k) as Hb by (left; congruence).
  split_and!; [done|eapply ext_trans; [exact Hx|by apply ext_weaken]| |].
  - by rewrite (x_instance _ _ _ _ Hx' k Hb).
  - intros c' Hk. by rewrite (ext_life E R R' k c' Hx' Hk Hb), (Hl c' Hk).
Qed.
End dying.

(** ** The scope *)

Section scope.
Context (sc : ptr) (info : ScopedContext) (defer : bool).
Hypothesis Hsc : scopes_ E !! sc = Some info.
Hypothesis Hstate : scopeState_ info = Stopping.
Hypothesis Hnull : sc ≠ nullptr.

Lemma scope_stopping : stopping E sc.
Proof. by exists info. Qed.

(** What the sweep does outside the scope: it is as if requests had been made. *)
Record beyond (R R' : t) : Prop := {
  b_stack : stack R' = stack R;
  b_claims : materializing_ (claims R') = materializing_ (claims R);
  b_instance k : key_scope k ≠ sc → instance_of R k ≠ nullptr → instance_of R' k = instance_of R k;
  b_once k c : kept k c → key_scope k ≠ sc → once k c R R';
  b_sessions sc' : sc' ≠ sc →
    (∀ i, scopes_ E !! sc' = Some i → scopeState_ i ≠ Running_) → sessions R' !! sc' = sessions R !! sc';
  b_order st : sessions R !! sc = Some st → ∃ st', sessions R' !! sc = Some st' ∧
    SessionStore.insertionOrder st' = SessionStore.insertionOrder st
}.

Lemma once_same k c R : once k c R R.
Proof. unfold RuntimeFacts.once. case_decide; [by apply grown_same|done]. Qed.

Lemma beyond_refl R : beyond R R.
Proof. split; try done; [intros; by apply once_same|by eauto]. Qed.

Lemma once_trans k c R1 R2 R3 : once k c R1 R2 → once k c R2 R3 → once k c R1 R3.
Proof.
  unfold RuntimeFacts.once. destruct (decide (instance_of R1 k = nullptr)) as [H1|H1].
  - intros (n & Hn & Hz). case_decide as H2.
    + intros (m & Hm & Hz'). exists m. split; [|done].
      rewrite Hm, Hn, (proj2 Hz) by done. by rewrite app_nil_r.
    + intros [Hi Hl]. exists n. rewrite Hi, Hl. done.
  - intros [Hi Hl]. rewrite decide_False by congruence. intros [Hi' Hl']. split; congruence.
Qed.

Lemma beyond_trans R1 R2 R3 : beyond R1 R2 → beyond R2 R3 → beyond R1 R3.
Proof.
  intros [A1 A2 A3 A4 A5 A6] [B1 B2 B3 B4 B5 B6]. split; [congruence..| | | |].
  - intros k Hk Hi. rewrite B3; [by apply A3|done|]. by rewrite A3.
  - intros k c Hk Hs. eapply once_trans; [by apply A4|by apply B4].
  - intros sc' Hs Hr. rewrite B5 by done. by apply A5.
  - intros st Hst. destruct (A6 st Hst) as (st1 & H1 & <-). by apply B6.
Qed.

(** The scope's beans that have not been reached yet. *)
Definition intact (R : t) : Prop := ∀ k c, kept k c → key_scope k = sc →
  instance_of R k ≠ nullptr → present E k c R.

(** What a bean of the scope goes through, and what becomes of its memory: a restart leaves
    it to the store. *)
Definition rites (c : DescriptorCold) : list step_kind := if defer then farewell E c else death E c.

Definition block_of (d : DescriptorId) (c : DescriptorCold) (mem : ptr) : SessionStore.RetiredSessionBlock :=
  {| SessionStore.descId := d; SessionStore.memory := mem; SessionStore.dealloc := dealloc c;
     SessionStore.bsize := Tables.size c; SessionStore.balign := align c |}.

Definition put_away (d : DescriptorId) (mem : ptr) (st st' : SessionStore.t) : Prop :=
  SessionStore.freed st' = SessionStore.freed st ∧
  SessionStore.retiredBlocks_ st ⊆ SessionStore.retiredBlocks_ st' ∧
  (defer = true → mem ≠ nullptr → ∀ c, DescriptorTable.coldAt D d = Some c →
     block_of d c mem ∈ SessionStore.retiredBlocks_ st').

Lemma rites_complete c : complete_death c (rites c).
Proof. unfold rites. destruct defer; [apply farewell_complete|apply death_complete]. Qed.

(** [es] has the destruction of [k]'s bean and nothing else of it. *)
Definition obituary (k : key) (c : DescriptorCold) (R : t) (es : list event) : Prop :=
  if decide (instance_of R k = nullptr) then life k es = []
  else life k es = (λ s, (s, instance_of R k)) <$> rites c.

(** One turn of the sweep, for the bean of [d]. *)
Record turn (d : DescriptorId) (R R' : t) : Prop := {
  tu_inv : inv R';
  tu_beyond : beyond R R';
  tu_instance d' : instance_of R' (Key d' sc) =
    if decide (d' = d) then nullptr else instance_of R (Key d' sc);
  tu_trace : ∃ es, trace R' = trace R ++ es ∧
    ∀ k c, kept k c → key_scope k = sc →
      if decide (key_descId k = d) then obituary k c R es else life k es = [];
  tu_store st : sessions R !! sc = Some st →
    ∃ st', sessions R' !! sc = Some st' ∧ put_away d (instance_of R (Key d sc)) st st'
}.

Lemma session_at R st d x : sessions R !! sc = Some st → DescriptorTable.at_ D d = Some x →
  lifetime x = Session →
  instance_of R (Key d sc) = InstanceArray.cur (SessionStore.instances_ st) (sessionSlot x).
Proof. intros Hst Hx Hl. unfold RuntimeFacts.instance_of. simpl. by rewrite Hx, Hl, Hst. Qed.

(** The slot of a destroyed bean is cleared. *)
Lemma cleared_inv d x R st st' m :
  inv R → DescriptorTable.at_ D d = Some x → lifetime x = Session →
  (∀ c, kept (Key d sc) c → lives c (life (Key d sc) (trace R))) →
  sessions R !! sc = Some st → m !! sc = Some st' → (∀ sc', sc' ≠ sc → m !! sc' = sessions R !! sc') →
  SessionStore.wf st' →
  InstanceArray.size (SessionStore.instances_ st') = InstanceArray.size (SessionStore.instances_ st) →
  SessionStore.insertionOrder st' = SessionStore.insertionOrder st →
  (∀ j, InstanceArray.cur (SessionStore.instances_ st') j =
     if decide (j = sessionSlot x) then nullptr else InstanceArray.cur (SessionStore.instances_ st) j) →
  let R' := set_sessions m R in
  inv R' ∧ (∀ k, instance_of R' k = if decide (k = Key d sc) then nullptr else instance_of R k).
Proof.
  intros HR Hx Hl Hlives Hst Hst' Hm Hwf Hsz Hord Hcur R'.
  assert (∀ k, instance_of R' k = if decide (k = Key d sc) then nullptr else instance_of R k) as Hi.
  { intros [d' sc']. destruct (decide (sc' = sc)) as [->|Hne].
    2: { rewrite decide_False by congruence. unfold RuntimeFacts.instance_of. simpl. by rewrite Hm. }
    unfold RuntimeFacts.instance_of. simpl. destruct (DescriptorTable.at_ D d') as [y|] eqn:Hy.
    2: { by case_decide. }
    destruct (lifetime y) eqn:Hly; [case_decide; [congruence|done]..| |case_decide; [congruence|done]].
    rewrite Hst', Hst, Hcur. destruct (decide (d' = d)) as [->|Hd].
    - by rewrite !decide_True by congruence.
    - rewrite !decide_False; [done|congruence|]. intros Hs. apply Hd. by apply (eo_slots _ EO d' d y x). }
  split; [|done]. pose proof HR as HR0.
  destruct HR as [H1 H2 H3 H4 H5 H6 H7 H8 H9 H10 H11 H12 H13]. split; try assumption.
  - intros sc' i Hi' Hs. destruct (decide (sc' = sc)) as [->|Hne].
    + exists st'. split; [exact Hst'|]. destruct (H4 sc i Hi' Hs) as (s0 & Hs0 & Hok).
      rewrite Hst in Hs0. injection Hs0 as <-. destruct Hok as [K1 K2 K3 K4]. split; [done|..].
      * intros d' y c Hy Hc Hly Ho. rewrite Hsz. by apply (K2 d' y c).
      * intros d' y c Hy Hc Hly Ho. rewrite Hcur, Hord. case_decide; [done|]. by apply (K3 d' y c).
      * by rewrite Hord.
    + destruct (H4 sc' i Hi' Hs) as (s0 & Hs0 & Hok). exists s0. split; [|done].
      change (m !! sc' = Some s0). by rewrite Hm.
  - intros k y. rewrite Hi. case_decide; [done|]. apply H5.
  - intros k c Hk. rewrite Hi. change (trace R') with (trace R). destruct (decide (k = Key d sc)) as [->|Hne].
    + rewrite decide_True by done. by apply Hlives.
    + unfold present. rewrite Hi, (decide_False (P := k = Key d sc)) by done. by apply H11.
Qed.

(** The bean has been destroyed and its slot cleared. *)
Lemma turn_done d x c R R1 st st' m :
  inv R → intact R → DescriptorTable.at_ D d = Some x → DescriptorTable.coldAt D d = Some c →
  lifetime x = Session → instance_of R (Key d sc) ≠ nullptr →
  dying (Key d sc) (instance_of R (Key d sc)) R (rites c) R1 →
  put_away d (instance_of R (Key d sc)) st st' → sessions R1 !! sc = Some st → m !! sc = Some st' → (∀ sc', sc' ≠ sc → m !! sc' = sessions R1 !! sc') →
  SessionStore.wf st' →
  InstanceArray.size (SessionStore.instances_ st') = InstanceArray.size (SessionStore.instances_ st) →
  SessionStore.insertionOrder st' = SessionStore.insertionOrder st →
  (∀ j, InstanceArray.cur (SessionStore.instances_ st') j =
     if decide (j = sessionSlot x) then nullptr else InstanceArray.cur (SessionStore.instances_ st) j) →
  turn d R (set_sessions m R1).
Proof.
  intros HR Hint Hx Hc Hl Hi (HR1 & HX & Hi1 & Hlife) Hput Hst Hst' Hm Hwf Hsz Hord Hcur.
  set (k := Key d sc) in *.
  assert (∀ c', kept k c' → c' = c) as Hcold by (intros c' (_ & _ & Hc' & _); simpl in *; congruence).
  destruct (cleared_inv d x R1 st st' m HR1 Hx Hl) as [Hinv Hinst]; try done.
  { fold k. intros c' Hk. rewrite (Hlife c' Hk), (Hcold c' Hk). rewrite (Hcold c' Hk) in Hk.
    destruct (Hint k c Hk eq_refl Hi) as (past & n & Hp & Hn & ->). rewrite <-(assoc_L (++)).
    apply lives_snoc; [done|]. exists (instance_of R k), n, (rites c). by split_and!; [..|apply rites_complete|]. }
  assert (sessions R1 !! sc = sessions R !! sc) as Hsame.
  { apply (x_stopped _ _ _ _ HX). intros i Hi'. rewrite Hsc in Hi'. injection Hi' as <-. by rewrite Hstate. }
  assert (∀ d', instance_of R1 (Key d' sc) = instance_of R (Key d' sc)) as Hsc1.
  { intros d'. destruct (decide (instance_of R (Key d' sc) = nullptr)) as [Hz|Hz].
    2: { apply (x_instance _ _ _ _ HX). by left. }
    unfold RuntimeFacts.instance_of in *. simpl in *. destruct (DescriptorTable.at_ D d') as [y|]; [|done].
    rewrite (proj2 (N.eqb_neq _ _) Hnull). by rewrite Hsame. }
  destruct (x_trace _ _ _ _ HX) as (es & Het & Hes).
  split; [exact Hinv| | | |].
  4: { intros st0. rewrite <-Hsame, Hst. intros [= <-]. by exists st'. }
  - split; [apply HX|apply HX| | | |].
    + intros k' Hk' Hi'. rewrite Hinst, decide_False by (intros ->; done).
      apply (x_instance _ _ _ _ HX). by left.
    + intros k' c' Hk' Hs. assert (Some k ≠ Some k') as Hne by (intros [= <-]; done).
      unfold RuntimeFacts.once, grown. rewrite Hinst, (decide_False (P := k' = Key d sc)) by (intros ->; done).
      change (trace (set_sessions m R1)) with (trace R1).
      destruct (decide (instance_of R k' = nullptr)) as [Hz|Hz].
      * by apply (x_grown _ _ _ _ HX).
      * split; [apply (x_instance _ _ _ _ HX); by left|].
        rewrite Het, life_app, (Hes k' c'), app_nil_r; [done|done|by left|done].
    + intros sc' Hne Hr. change (m !! sc' = sessions R !! sc'). rewrite Hm by done.
      by apply (x_stopped _ _ _ _ HX).
    + intros st0. rewrite <-Hsame, Hst. intros [= <-]. by exists st'.
  - intros d'. rewrite Hinst, Hsc1. destruct (decide (d' = d)) as [->|Hne]; [by rewrite decide_True|].
    rewrite decide_False; [done|]. intros [= ->]. done.
  - exists es. split; [exact Het|]. intros k' c' Hk' Hs. destruct (decide (key_descId k' = d)) as [Hd|Hd].
    + assert (k' = k) as -> by (destruct k'; simpl in *; by subst).
      unfold obituary. rewrite decide_False by done. rewrite (Hcold c' Hk'). pose proof (Hlife c' Hk') as Hlf. rewrite Het, life_app in Hlf.
      by apply app_inv_head in Hlf.
    + assert (Some k ≠ Some k') as Hne by (intros [= <-]; done).
      destruct (decide (instance_of R k' = nullptr)) as [Hz|Hz]; [|by apply (Hes k' c'); [|left|]].
      destruct (x_grown _ _ _ _ HX k' c' Hk' Hne Hz) as (n & Hn & Hnz).
      assert (instance_of R1 k' = nullptr) as Hz1.
      { destruct k' as [d' sc']. simpl in Hs. subst sc'. by rewrite Hsc1. }
      rewrite (proj2 Hnz Hz1), app_nil_r, Het, life_app in Hn. apply (app_inv_head (life k' (trace R))).
      by rewrite Hn, app_nil_r.
Qed.

(** [nullSlot] of a slot that holds an object. *)
Lemma null_slot st slot : SessionStore.wf st →
  InstanceArray.cur (SessionStore.instances_ st) slot ≠ nullptr →
  ∃ st', SessionStore.nullSlot slot st = Some st' ∧ SessionStore.wf st' ∧
    InstanceArray.size (SessionStore.instances_ st') = InstanceArray.size (SessionStore.instances_ st) ∧
    SessionStore.insertionOrder st' = SessionStore.insertionOrder st ∧
    SessionStore.retiredBlocks_ st' = SessionStore.retiredBlocks_ st ∧
    SessionStore.freed st' = SessionStore.freed st ∧
    ∀ j, InstanceArray.cur (SessionStore.instances_ st') j =
      if decide (j = slot) then nullptr else InstanceArray.cur (SessionStore.instances_ st) j.
Proof.
  intros Hwf Hi. assert (slot < InstanceArray.size (SessionStore.instances_ st)) as Hlt.
  { destruct (N.lt_ge_cases slot (InstanceArray.size (SessionStore.instances_ st))) as [|Hge]; [done|].
    by rewrite (SessionStore.wf_pad _ Hwf _ Hge) in Hi. }
  destruct (SessionStore.write_cur st slot nullptr Hwf Hlt) as (A & HA & HwfA & HsA & HcA).
  exists (SessionStore.set_instances A st). unfold SessionStore.nullSlot. by rewrite HA.
Qed.

(** The destruction of one bean, with or without its deallocation, and its slot. *)
Definition end_bean (d : DescriptorId) (slot : N) (mem : ptr) : M t unit :=
  do! (if defer then
         let! cold := lift (DescriptorTable.coldAt D d) in
         do! noexcept (destroy_object E fuel (Key d sc) cold mem
               (Handle.makeProxy (scopeNameId_ info) d (registryId_ E)) (scopeNameId_ info)) in
         mupd (λ R, set_sessions
           (alter (SessionStore.retireDeallocation (block_of d cold mem)) sc (sessions R)) R)
       else executeDestructionLifecycle E fuel (Key d sc) mem (scopeNameId_ info)) in
  lift_state (λ R, S ← sessions R !! sc; S' ← SessionStore.nullSlot slot S;
                   Some (set_sessions (<[sc := S']> (sessions R)) R)).

(** What is left of a turn once the bean is destroyed: [f] retires its memory. *)
Lemma turn_null d x c R R1 f :
  inv R → intact R → DescriptorTable.at_ D d = Some x → DescriptorTable.coldAt D d = Some c →
  lifetime x = Session → instance_of R (Key d sc) ≠ nullptr →
  dying (Key d sc) (instance_of R (Key d sc)) R (rites c) R1 →
  (∀ st, SessionStore.instances_ (f st) = SessionStore.instances_ st ∧
         SessionStore.insertionOrder (f st) = SessionStore.insertionOrder st ∧
         put_away d (instance_of R (Key d sc)) st (f st)) →
  ends full (lift_state (λ R, S ← sessions R !! sc; S' ← SessionStore.nullSlot (sessionSlot x) S;
                   Some (set_sessions (<[sc := S']> (sessions R)) R)))
    (set_sessions (alter f sc (sessions R1)) R1) (λ _ R', turn d R R') (λ _ _, False).
Proof.
  intros HR Hint Hx Hc Hl Hi HD Hf. pose proof HD as (HR1 & HX & Hi1 & _).
  destruct (i_sessions _ _ HR1 sc info Hsc) as (st & Hst & Hok); [by rewrite Hstate|].
  destruct (Hf st) as (Hfi & Hfo & Hput).
  assert (SessionStore.wf (f st)) as Hwf by (destruct (so_wf _ _ Hok); split; by rewrite Hfi).
  destruct (null_slot (f st) (sessionSlot x) Hwf) as (st' & Hst' & Hwf' & Hsz & Hord & Hret & Hfr & Hcur).
  { rewrite Hfi, <-(session_at R1 st d x) by done. by rewrite Hi1. }
  unfold ends, lift_state. cbn [sessions set_sessions].
  rewrite lookup_alter, decide_True, Hst by done. cbn [fmap option_fmap option_map mbind option_bind].
  rewrite Hst'. cbn [mbind option_bind].
  apply (turn_done d x c R R1 st st'); try done.
  - unfold put_away. rewrite Hret, Hfr. exact Hput.
  - apply lookup_insert_eq.
  - intros sc' Hne. rewrite lookup_insert_ne by done. by rewrite lookup_alter, decide_False.
  - by rewrite Hsz, Hfi.
  - by rewrite Hord, Hfo.
  - intros j. by rewrite Hcur, Hfi.
Qed.

Lemma end_bean_turn d x R :
  inv R → intact R → DescriptorTable.at_ D d = Some x → lifetime x = Session →
  instance_of R (Key d sc) ≠ nullptr →
  ends full (end_bean d (sessionSlot x) (instance_of R (Key d sc))) R
    (λ _ R', turn d R R') (λ _ _, False).
Proof.
  intros HR Hint Hx Hl Hi. destruct (lookups E EO d x Hx) as (_ & c & Hc).
  pose proof (dying_start (Key d sc) (instance_of R (Key d sc)) R HR eq_refl) as H0.
  set (P := dying (Key d sc) (instance_of R (Key d sc)) R).
  assert (∀ steps R', P steps R' → inv R') as P1 by by intros steps R' [].
  assert (∀ s steps R', P steps R' → P (steps ++ [s]) (log (Life s (Key d sc) (instance_of R (Key d sc))) R'))
    as P2 by (intros s steps R'; apply dying_emit; [apply scope_stopping|exact Hi]).
  assert (∀ steps R1 R2, P steps R1 → good R1 R2 → P steps R2) as P3
    by (intros steps R1 R2; by apply dying_good).
  unfold end_bean. destruct defer eqn:Hdef.
  - eapply ends_bind with (P := λ _ R', ∃ R1,
      dying (Key d sc) (instance_of R (Key d sc)) R (farewell E c) R1 ∧
      R' = set_sessions (alter (SessionStore.retireDeallocation
             (block_of d c (instance_of R (Key d sc)))) sc (sessions R1)) R1).
    + eapply ends_bind_lift; [exact Hc|]. eapply ends_bind.
      { apply ends_noexcept. apply (destroy_object_steps (Key d sc) c _ P); [done..|exact H0]. }
      intros ? R1 H1. apply ends_upd. exists R1. by split.
    + intros ? ? (R1 & H1 & ->). apply (turn_null d x c R R1 _); try done; [unfold rites; by rewrite Hdef|].
      intros st. split; [done|]. split; [done|]. split; [done|]. simpl. split.
      * intros b Hb. apply elem_of_app. by left.
      * intros _ _ c' Hc'. replace c' with c by congruence. apply elem_of_app. right. by left.
  - eapply ends_bind.
    { apply (executeDestruction_steps (Key d sc) c _ P); [done..|exact H0]. }
    intros ? R1 H1. replace R1 with (set_sessions (alter id sc (sessions R1)) R1).
    + apply (turn_null d x c R R1 id); try done; [unfold rites; by rewrite Hdef|].
      intros st. split; [done|]. split; [done|]. split; [done|]. split; [done|]. by rewrite Hdef.
    + rewrite alter_id by done. by destruct R1.
Qed.

Lemma turn_none d R : inv R → instance_of R (Key d sc) = nullptr → turn d R R.
Proof.
  intros HR Hi. split; [done|apply beyond_refl|intros d'; case_decide; [by subst|done]| |].
  2: { intros st Hst. exists st. split; [done|]. by rewrite Hi. }
  exists []. split; [by rewrite app_nil_r|]. intros k c Hk Hs. case_decide as Hd; [|done].
  unfold obituary. rewrite decide_True; [done|]. destruct k. simpl in *. by subst.
Qed.

Lemma turn_intact d R R' : turn d R R' → intact R → intact R'.
Proof.
  intros [H1 H2 H3 (es & Het & Hes) _] Hint [d' sc'] c Hk Hs Hi. simpl in Hs. subst sc'.
  pose proof (Hes _ c Hk eq_refl) as Hl. rewrite H3 in Hi. simpl in Hl.
  destruct (decide (d' = d)) as [|Hne]; [done|].
  destruct (Hint _ c Hk eq_refl Hi) as (past & n & Hp & Hn & Hlife).
  exists past, n. split_and!; [done..|]. rewrite H3, decide_False by done.
  by rewrite Het, life_app, Hl, app_nil_r.
Qed.

(** ** The sweep *)

(** What the trace tells of the sweep: a part for each descriptor of [order], which has
    events of no other bean of the scope, and in all of them one destruction of each bean. *)
Definition told (order : list DescriptorId) (R R' : t) : Prop := ∃ parts,
  trace R' = trace R ++ concat parts ∧
  Forall2 (λ d part, ∀ k c, kept k c → key_scope k = sc → key_descId k ≠ d → life k part = [])
    order parts ∧
  ∀ k c, kept k c → key_scope k = sc →
    if decide (key_descId k ∈ order) then obituary k c R (concat parts)
    else life k (concat parts) = [].

Record swept (order : list DescriptorId) (R R' : t) : Prop := {
  sw_inv : inv R';
  sw_beyond : beyond R R';
  sw_gone d : d ∈ order → instance_of R' (Key d sc) = nullptr;
  sw_null d : instance_of R (Key d sc) = nullptr → instance_of R' (Key d sc) = nullptr;
  sw_told : told order R R';
  sw_store st : sessions R !! sc = Some st → ∃ st', sessions R' !! sc = Some st' ∧
    SessionStore.freed st' = SessionStore.freed st ∧
    SessionStore.retiredBlocks_ st ⊆ SessionStore.retiredBlocks_ st' ∧
    (∀ d, defer = true → d ∈ order → instance_of R (Key d sc) ≠ nullptr →
     ∀ c, DescriptorTable.coldAt D d = Some c →
       block_of d c (instance_of R (Key d sc)) ∈ SessionStore.retiredBlocks_ st')
}.

Lemma swept_cons d order R R1 R' : turn d R R1 → swept order R1 R' → swept (d :: order) R R'.
Proof.
  intros [T1 T2 T3 (es & Tt & Te) T5] [S1 S2 S3 S4 (parts & St & Sp & Se) S6].
  split; [done|by eapply beyond_trans|..].
  - intros d' [->|Hd]%elem_of_cons; [|by apply S3]. apply S4. by rewrite T3, decide_True.
  - intros d' Hd'. apply S4. rewrite T3. by case_decide.
  - exists (es :: parts). split; [by rewrite St, Tt, <-(assoc_L (++))|]. split.
    + constructor; [|done]. intros k c Hk Hs Hd. specialize (Te k c Hk Hs). by rewrite decide_False in Te.
    + intros [d' sc'] c Hk Hs. simpl in Hs. subst sc'. cbn [concat].
      specialize (Te _ c Hk eq_refl). specialize (Se _ c Hk eq_refl). unfold obituary in *.
      simpl in *. rewrite T3 in Se.
      destruct (decide (d' = d)) as [->|Hne].
      * rewrite (decide_True (P := d ∈ d :: order)) by (by left).
        assert (life (Key d sc) (concat parts) = []) as Hnone.
        { rewrite (decide_True (P := nullptr = nullptr)) in Se by done. by case_decide. }
        rewrite life_app, Hnone, app_nil_r. exact Te.
      * rewrite life_app, Te. cbn [app].
        destruct (decide (d' ∈ order)) as [Hin|Hin].
        -- rewrite decide_True by by right. exact Se.
        -- rewrite decide_False; [exact Se|]. by intros [|]%elem_of_cons.
  - intros st Hst. destruct (T5 st Hst) as (st1 & Hst1 & Hf1 & Hr1 & Hb1).
    destruct (S6 st1 Hst1) as (st2 & Hst2 & Hf2 & Hr2 & Hb2). exists st2.
    split; [done|]. split; [congruence|]. split; [by etransitivity|].
    intros d' Hdef Hd' Hi c Hc. destruct (decide (d' = d)) as [->|Hne].
    + apply Hr2. by apply Hb1.
    + apply elem_of_cons in Hd' as [|Hd']; [done|].
      specialize (Hb2 d' Hdef Hd'). rewrite T3, decide_False in Hb2 by done. by apply Hb2.
Qed.

Lemma destroy_sessions_swept order : ∀ R, inv R → intact R →
  Forall (of_lifetime E Session) order →
  ends full (destroy_sessions E fuel sc (scopeNameId_ info) defer order) R
    (λ _ R', swept order R R') (λ _ _, False).
Proof.
  induction order as [|d order IH]; intros R HR Hint Ho.
  { apply ends_return. split; [done|apply beyond_refl|by intros d ?%not_elem_of_nil|done| |].
    2: { intros st Hst. exists st. split_and!; [done..|]. by intros d _ ?%not_elem_of_nil. }
    exists []. split; [by rewrite app_nil_r|]. split; [constructor|]. intros k c Hk Hs.
    rewrite decide_False; [done|]. by apply not_elem_of_nil. }
  apply Forall_cons in Ho as [(x & Hx & Hl) Ho]. cbn [destroy_sessions].
  eapply ends_bind_lift; [exact Hx|]. cbv zeta.
  eapply ends_bind with (P := λ p R', p = instance_of R (Key d sc) ∧ R' = R).
  { unfold ends, lift. rewrite (find_session_spec E d x sc info R HR Hx Hl Hsc) by by rewrite Hstate. done. }
  intros ? ? [-> ->].
  eapply ends_bind with (P := λ _ R', turn d R R').
  { destruct (N.eqb_spec (instance_of R (Key d sc)) nullptr) as [Hi|Hi]; cbn [negb].
    - apply ends_return. by apply turn_none.
    - by apply (end_bean_turn d x R). }
  intros ? R1 H1. eapply ends_mono; [apply IH; [apply H1|by eapply turn_intact|done]| |done].
  intros ? R' H2. by eapply swept_cons.
Qed.

End scope.

End sweep.
End Sweep.

(** ** In a started context *)

Module ScopeStop.
Import World RuntimeFacts Living Service Sweep.
Local Open Scope ctr_scope.
#[local] Existing Instance Runtime.ScopeState_eq_dec.

(** The environment of the sweep. *)
Abbreviation sweeping sc E := (Runtime.with_scopeState sc Runtime.Stopping E) (only parsing).

Lemma sweeping_scope sc E sc' : Runtime.scopes_ (sweeping sc E) !! sc' =
  if decide (sc' = sc) then
    (λ s, {| Runtime.scopeNameId_ := Runtime.scopeNameId_ s; Runtime.scopeState_ := Runtime.Stopping;
             Runtime.scopedDefaults_ := Runtime.scopedDefaults_ s;
             Runtime.hasAnyScopedDefault_ := Runtime.hasAnyScopedDefault_ s |}) <$> Runtime.scopes_ E !! sc
  else Runtime.scopes_ E !! sc'.
Proof.
  simpl. rewrite lookup_alter. destruct (decide (sc = sc')) as [->|Hne].
  - by rewrite decide_True.
  - by rewrite decide_False.
Qed.

Lemma sweeping_live sc E sc' : is_Some (Runtime.scopes_ (sweeping sc E) !! sc') ↔ is_Some (Runtime.scopes_ E !! sc').
Proof. rewrite sweeping_scope. case_decide; [subst; by rewrite fmap_is_Some|done]. Qed.

Lemma sweeping_env_ok sc E : env_ok E → env_ok (sweeping sc E).
Proof.
  intros H.
  assert (∀ p, prog_ok E p → prog_ok (sweeping sc E) p) as Hp.
  { induction p as [| |s ty n k IH]; [done|done|]. intros [Hs Hk]. split; [|by eauto].
    destruct s as [s|]; [|done]. by apply sweeping_live. }
  assert (∀ s, valid_scope (sweeping sc E) s → valid_scope E s) as Hv.
  { intros [s|]; [|done]. by apply sweeping_live. }
  destruct H as [H1 H2 H3 H4 H5 H6 H7 H8 H9 H10 H11 H12 H13 H14 H15].
  split; try assumption.
  - intros sc' i. rewrite sweeping_scope. case_decide; [|by apply H8].
    destruct (Runtime.scopes_ E !! sc) as [i0|] eqn:Hi; [|done]. intros [= <-]. by apply (H8 sc i0).
  - intros f s p Hs. by apply Hp, H12, Hv.
  - intros f s Hs. by apply Hp, H13, Hv.
  - intros f s p Hs. by apply Hp, H14, Hv.
  - intros cb bean. apply Hp, H15.
Qed.

Lemma sweeping_bound sc E : Resolution.nesting_bound (sweeping sc E) = Resolution.nesting_bound E.
Proof.
  unfold Resolution.nesting_bound. simpl. do 2 f_equal.
  rewrite <-!size_dom. f_equal. apply dom_alter_L.
Qed.

Lemma sweeping_inv sc i E R : env_ok E → inv E R → Runtime.scopes_ E !! sc = Some i →
  Runtime.scopeState_ i = Runtime.Running_ → inv (sweeping sc E) R.
Proof.
  intros EO HR Hi Hs. apply (inv_transfer E (sweeping sc E) R R); try done.
  - by apply sweeping_env_ok.
  - by apply grows_same.
  - apply HR.
  - apply (i_capacity _ _ HR).
  - intros d Hd. split; [intros Hv|intros (x & Hx & _); simpl in *; congruence].
    destruct (i_stored _ _ HR d Hv) as (x & Hx & _). congruence.
  - intros k c _ (j & Hj & Hst). left. destruct (decide (Claims.key_scope k = sc)) as [->|Hne].
    + eexists. rewrite sweeping_scope, decide_True, Hi by done. split; [done|done].
    + exists j. by rewrite sweeping_scope, decide_False.
  - intros sc' j. rewrite sweeping_scope. case_decide as Hd; [subst sc'|].
    + rewrite Hi. intros _ _. destruct (i_sessions _ _ HR sc i Hi) as (st & Hst & Hok); [by rewrite Hs|].
      exists st. split; [done|]. by destruct Hok.
    + intros Hj Hn. destruct (i_sessions _ _ HR sc' j Hj Hn) as (st & Hst & Hok).
      exists st. split; [done|]. by destruct Hok.
Qed.

Section stop.
Context `{SS : StdSort} (H : host) (fuel : nat) (known : gset ptr).
Hypothesis HG : host_good H known.
Abbreviation running := (running H known).
Abbreviation fuelled := (fuelled fuel).
Abbreviation released defer sc R := (Runtime.set_sessions
  (alter (SessionStore.releaseAll (negb defer)) sc (Runtime.sessions R)) R) (only parsing).
Abbreviation stopped sc := (λ o, with_info (with_state Runtime.Stopped (info o)) o) (only parsing).

Section released.
Context (W : t) (sc : ptr) (o : ScopeObject) (defer : bool) (st : SessionStore.t) (R1 : Runtime.t).
Hypothesis HW : running W.
Hypothesis Ho : objects_ W !! sc = Some o.
Hypothesis Hst : Runtime.sessions (rt W) !! sc = Some st.
Hypothesis Hok : session_ok (env_of H W) st.
Hypothesis HS : swept (sweeping sc (env_of H W)) sc defer (reverse (SessionStore.insertionOrder st)) (rt W) R1.

Let W' := set_objects (alter (stopped sc) sc (objects_ W)) (set_rt (released defer sc R1) W).
Let E1 := sweeping sc (env_of H W).

Lemma released_object sc' o' : objects_ W' !! sc' = Some o' →
  (sc' = sc ∧ o' = stopped sc o) ∨ (sc' ≠ sc ∧ objects_ W !! sc' = Some o').
Proof.
  simpl. rewrite lookup_alter. destruct (decide (sc = sc')) as [<-|Hne].
  - rewrite Ho. intros [= <-]. by left.
  - intros Ho'. right. done.
Qed.

(** No bean of the scope is left, bound objects aside. *)
Lemma released_gone d x c : DescriptorTable.at_ (descs W) d = Some x →
  DescriptorTable.coldAt (descs W) d = Some c → lifetime x = Session →
  origin c ≠ RuntimeBinding ∨ Runtime.is_primary_elsewhere x d = true →
  instance_of E1 R1 (Claims.Key d sc) = nullptr.
Proof.
  intros Hx Hc Hl Hor. destruct (decide (instance_of E1 R1 (Claims.Key d sc) = nullptr)) as [|Hi]; [done|].
  destruct Hor as [Hor|Hel].
  2: { pose proof (i_owner _ _ (sw_inv _ _ _ _ _ _ HS) _ x Hi Hx). simpl in *. congruence. }
  destruct (decide (instance_of E1 (rt W) (Claims.Key d sc) = nullptr)) as [Hz|Hz].
  { by apply (sw_null _ _ _ _ _ _ HS). }
  apply (sw_gone _ _ _ _ _ _ HS). apply elem_of_reverse. apply (so_order _ _ Hok d x c); [done..|].
  rewrite <-(session_at E1 sc (rt W) st d x); done.
Qed.

Lemma released_store : ∃ st1, Runtime.sessions (rt W') !! sc = Some (SessionStore.releaseAll (negb defer) st1).
Proof.
  destruct (b_order _ _ _ _ (sw_beyond _ _ _ _ _ _ HS) st Hst) as (st1 & Hst1 & _). exists st1.
  simpl. by rewrite lookup_alter, decide_True, Hst1.
Qed.

Lemma released_other sc' : sc' ≠ sc →
  Runtime.sessions (rt W') !! sc' = Runtime.sessions R1 !! sc'.
Proof. intros Hne. simpl. by rewrite lookup_alter, decide_False. Qed.

Lemma released_env_ok : env_ok (env_of H W').
Proof.
  apply (env_good H known HG); [apply HW|apply HW| |].
  - intros sc' Hk. destruct (rn_known _ HW sc' Hk) as [o' Ho']. simpl. rewrite lookup_alter.
    case_decide; [subst; rewrite Ho|]; by eexists.
  - intros sc' o' [[-> ->]|[_ Ho']]%released_object.
    + by apply (rn_scopes _ HW sc o).
    + by apply (rn_scopes _ HW sc' o').
Qed.

Lemma released_inv : inv (env_of H W') (rt W').
Proof.
  pose proof (sw_inv _ _ _ _ _ _ HS) as HI.
  apply (inv_transfer E1 (env_of H W') R1 (rt W')); try done.
  - by apply sweeping_env_ok, (running_env HG).
  - by apply released_env_ok.
  - by apply grows_same.
  - apply HI.
  - apply (i_capacity _ _ HI).
  - intros d Hd. split; [intros Hv|intros (x & Hx & _); simpl in *; congruence].
    destruct (i_stored _ _ HI d Hv) as (x & Hx & _). simpl in *. congruence.
  - intros [d sc'] c (x & Hx & Hc & Hl & Hor) (i & Hi & Hs). right. simpl in Hi, Hx, Hc.
    fold (Runtime.scopes_ E1) in Hi. change (Runtime.scopes_ E1 !! sc' = Some i) in Hi.
    unfold E1 in Hi. rewrite sweeping_scope in Hi. case_decide as Hd.
    + subst sc'. destruct (decide (lifetime x = Session)) as [Hse|Hse].
      { apply (released_gone d x c); [done..|by left]. }
      unfold instance_of. simpl. rewrite Hx. pose proof (rn_null _ HW) as Hn.
      destruct (N.eqb_spec sc nullptr) as [->|]; [congruence|]. by destruct (lifetime x).
    + destruct (running_settled W sc' HW). by exists i.
  - intros sc' i. simpl. rewrite lookup_fmap.
    destruct (objects_ W' !! sc') as [o'|] eqn:Ho'; unfold W' in Ho'; simpl in Ho'; rewrite Ho'; [|done].
    intros [= <-] Hs. destruct (released_object sc' o' Ho') as [[-> ->]|[Hne Ho2]]; [done|].
    change (∃ s, Runtime.sessions (rt W') !! sc' = Some s ∧ session_ok (env_of H W') s).
    rewrite released_other by done.
    destruct (i_sessions _ _ HI sc' (info o')) as (s & Hs' & Hok'); [|done|].
    { unfold E1. rewrite sweeping_scope, decide_False by done. simpl. by rewrite lookup_fmap, Ho2. }
    exists s. split; [done|]. by destruct Hok'.
  - intros [d sc'] x c Hx Hc Hl Hor. destruct (decide (sc' = sc)) as [->|Hne].
    + rewrite (released_gone d x c) by done. destruct released_store as (st1 & Hst1).
      rewrite (session_at (env_of H W') sc (rt W') _ d x Hst1 Hx Hl). done.
    + unfold instance_of. simpl in Hx |- *. rewrite Hx, Hl. by rewrite lookup_alter, decide_False.
Qed.

Lemma released_running : running W'.
Proof.
  pose proof (sw_beyond _ _ _ _ _ _ HS) as HB. split; try apply HW.
  - exact released_inv.
  - intros sc' Hk. destruct (rn_known _ HW sc' Hk) as [o' Ho']. simpl. rewrite lookup_alter.
    case_decide; [subst; rewrite Ho|]; by eexists.
  - simpl. rewrite lookup_alter. case_decide; [|apply HW]. subst. pose proof (rn_null _ HW). congruence.
  - intros sc' o' Ho'. destruct (released_object sc' o' Ho') as [[-> ->]|[Hne Ho2]].
    + destruct released_store as (st1 & Hst1). destruct (rn_scopes _ HW sc o Ho) as [_ _ K3 K4].
      split; [|done..]. eexists. split; [exact Hst1|]. split_and!.
      * split; [apply InstanceArray.array_wf_empty|done].
      * by intros d ?%not_elem_of_nil.
      * by intros _ d x c.
    + destruct (rn_scopes _ HW sc' o' Ho2) as [(s & Hs & Hwf & Hkn & Hb) K2 K3 K4]. split; [|done..].
      rewrite released_other by done.
      destruct (decide (Runtime.scopeState_ (info o') = Runtime.Stopped)) as [Hstate|Hstate].
      * rewrite (b_sessions _ _ _ _ HB); [by exists s|done|]. intros i.
        rewrite sweeping_scope, decide_False by done. simpl. rewrite lookup_fmap, Ho2.
        intros [= <-]. by rewrite Hstate.
      * destruct (i_sessions _ _ (sw_inv _ _ _ _ _ _ HS) sc' (info o')) as (s1 & Hs1 & Hok1); [|done|].
        { rewrite sweeping_scope, decide_False by done. simpl. by rewrite lookup_fmap, Ho2. }
        exists s1. split_and!; [done|apply Hok1|exact (so_known _ _ Hok1)|done].
  - apply listed_alter; [apply HW|]. done.
  - apply (defaults_frame W); [apply HW|done|done|].
    intros sc' o' [[-> ->]|[_ Ho2]]%released_object; left; [by exists o|by exists o'].
  - simpl. rewrite (b_claims _ _ _ _ HB). apply HW.
  - simpl. rewrite (b_stack _ _ _ _ HB). apply HW.
Qed.
End released.

Lemma fuelled_bound W : fuelled 0 W → (Resolution.nesting_bound (env_of H W) < fuel)%nat.
Proof.
  intros HF. unfold Resolution.nesting_bound. unfold Service.fuelled in HF. simpl.
  rewrite map_size_fmap. rewrite N.add_0_r in HF. lia.
Qed.

(** [stopScope] of a running scope. *)
Lemma stopScope_runs W sc o st defer : running W → fuelled 0 W → objects_ W !! sc = Some o →
  Runtime.scopeState_ (info o) = Runtime.Running_ → calm_env (env_of H W) →
  Runtime.sessions (rt W) !! sc = Some st →
  ends never (stopScope H fuel sc defer) W (λ _ W', running W' ∧ ∃ R1,
      swept (sweeping sc (env_of H W)) sc defer (reverse (SessionStore.insertionOrder st)) (rt W) R1 ∧
      W' = set_objects (alter (stopped sc) sc (objects_ W)) (set_rt (released defer sc R1) W))
    (λ _ _, False).
Proof.
  intros HW HF Ho Hs HC Hst. set (E := env_of H W). set (E1 := sweeping sc E).
  pose proof (running_env HG W HW) as EO. pose proof (sweeping_env_ok sc E EO) as EO1.
  assert (Runtime.scopes_ E !! sc = Some (info o)) as Hi by (simpl; by rewrite lookup_fmap, Ho).
  destruct (i_sessions _ _ (rn_inv _ HW) sc (info o) Hi) as (st' & Hst' & Hok); [by rewrite Hs|].
  rewrite Hst in Hst'. injection Hst' as <-.
  assert (inv E1 (rt W)) as HI by (by apply (sweeping_inv sc (info o)); [|apply HW|..]).
  assert (calm_env E1) as HC1 by (destruct HC; by split).
  assert (sc ≠ nullptr) as Hnull by (intros ->; pose proof (rn_null _ HW); congruence).
  unfold stopScope. eapply ends_bind with (P := λ _ W', ∃ R1,
    swept E1 sc defer (reverse (SessionStore.insertionOrder st)) (rt W) R1 ∧ W' = set_rt (released defer sc R1) W).
  - apply (on_rt_ends H known HG). unfold Runtime.stopScope. cbv zeta. fold E E1.
    eapply (ends_bind_lift E1).
    { unfold E1. rewrite sweeping_scope, decide_True, Hi by done. done. }
    eapply ends_bind with (P := λ s R, s = st ∧ R = rt W).
    { unfold ends, Runtime.lift. by rewrite Hst. }
    intros ? ? [-> ->]. eapply ends_bind.
    { eapply (destroy_sessions_swept E1 EO1 fuel); try done.
      - unfold E1. rewrite sweeping_bound. by apply fuelled_bound.
      - unfold E1. rewrite sweeping_scope, decide_True, Hi by done. done.
      - intros k c Hk Hsc Hi'. change (instance_of E (rt W) k ≠ nullptr) in Hi'.
        pose proof (i_trace _ _ (rn_inv _ HW) k c Hk) as Ht. rewrite decide_False in Ht by done.
        destruct Ht as [Ht|Ht]; [by destruct (running_settled W _ HW Ht)|exact Ht].
      - apply Forall_reverse. apply Forall_forall. intros d Hd. exact (so_known _ _ Hok d Hd). }
    intros ? R1 H1. apply ends_upd. by exists R1.
  - intros ? ? (R1 & H1 & ->). apply ends_upd. split; [|by exists R1].
    by apply (released_running W sc o defer st R1).
Qed.
(** [ScopedContext::stop]: a scope that does not run is left alone. *)
Lemma scope_stop_runs W sc o : running W → fuelled 0 W → objects_ W !! sc = Some o →
  calm_env (env_of H W) → ends never (scope_stop H fuel sc) W
    (λ _ W', running W' ∧ descs W' = descs W ∧ names W' = names W ∧
       dom (objects_ W') = dom (objects_ W)) (λ _ _, False).
Proof.
  intros HW HF Ho HC. unfold scope_stop. eapply ends_run; [by unfold object; rewrite Ho|].
  case_decide as Hs; [by apply ends_return|].
  assert (Runtime.scopeState_ (info o) = Runtime.Running_) as Hrun by by destruct (Runtime.scopeState_ (info o)).
  destruct (scope_running W sc o HW Ho) as (st & Hst & _); [by rewrite Hrun|].
  eapply ends_mono; [by apply (stopScope_runs W sc o st false)| |done].
  intros ? ? (HW' & R1 & _ & ->). split_and!; [done..|]. simpl. apply dom_alter_L.
Qed.

(** [ScopedContext::restart], before its start. *)
Lemma restart_stop_runs W sc o : running W → fuelled 0 W → objects_ W !! sc = Some o →
  calm_env (env_of H W) →
  ends never (if decide (Runtime.scopeState_ (info o) = Runtime.Running_)
              then stopScope H fuel sc true else scope_stop H fuel sc) W
    (λ _ W', running W' ∧ descs W' = descs W ∧ names W' = names W ∧
       dom (objects_ W') = dom (objects_ W)) (λ _ _, False).
Proof.
  intros HW HF Ho HC. case_decide as Hs; [|by apply (scope_stop_runs W sc o)].
  destruct (scope_running W sc o HW Ho) as (st & Hst & _); [by rewrite Hs|].
  eapply ends_mono; [by apply (stopScope_runs W sc o st true)| |done].
  intros ? ? (HW' & R1 & _ & ->). split_and!; [done..|]. simpl. apply dom_alter_L.
Qed.

End stop.
#[global] Arguments stopScope_runs {H fuel known} HG W.
#[global] Arguments scope_stop_runs {H fuel known} HG W.
#[global] Arguments restart_stop_runs {H fuel known} HG W.

End ScopeStop.
