(* ===== verification/Holding.v ===== *)
(** Handles to prototypes in a started context: copies and releases.

    [Module Holding] models what the special member functions of [Bean<T>] and [AnyBean],
    which are alike ([api/ctr/Bean.hpp], [api/ctr/AnyBean.hpp],
    [internal/detail/HandleInlineImpl.hpp]), do to the registry of a context ([World]): a
    copy retains the slot, the last release runs [releasePrototypeLast] with its hooks and
    listeners. *)
From S2P Require Import Prelude Tables Interning Index Stores Startup Freelist Prototypes Listeners Claims Handles Casts Caches Runtime RuntimeFacts Resolution Ready World Contexts Living Service Sweep.

Local Open Scope N_scope.

Module Holding.
Import World RuntimeFacts Living Service Sweep.
Local Open Scope ctr_scope.
#[local] Existing Instance Runtime.ScopeState_eq_dec.

(** ** The operations *)

Section operations.
Context (H : host) (fuel : nat).

(** [releaseIfPrototype]: [OpDrop] is the decrement and, for the last reference, the
    removal of the object from its slot. *)
Definition releaseIfPrototype (slot : SlotId) : M t unit :=
  on_rt H (λ E,
    let! meta := (λ R, (Ok (PrototypeStore.takeSlotMetaForDestruction slot
                              (PrototypeStore.store (Runtime.prototypes_ R))).1, R)) in
    do! Runtime.proto_op E (PrototypeStore.OpDrop slot) in
    let! last := (λ R, (Ok (bool_decide (slot ∈ PrototypeStore.dying (Runtime.prototypes_ R))), R)) in
    if last : bool then Runtime.releasePrototypeLast E fuel slot meta else mreturn tt).

Definition retainIfPrototype (slot : SlotId) : M t unit :=
  on_rt H (λ E, Runtime.proto_op E (PrototypeStore.OpCopy slot)).

(** [AnyBean(const AnyBean&)] *)
Definition copy (other : Handle.Bean) : M t Handle.Bean :=
  do! (if Handle.tracked other then retainIfPrototype (Handle.slot other) else mreturn tt) in
  mreturn other.

(** [~AnyBean()] *)
Definition destruct_ (b : Handle.Bean) : M t unit :=
  if Handle.tracked b then releaseIfPrototype (Handle.slot b) else mreturn tt.
End operations.

(** ** The steps on the prototype store *)

Section protos.
Context (cap : option N) (P : DescriptorId → Prop).
Import PrototypeStore.
Implicit Types (X : PrototypeStore.sys) (s : SlotId).

(** The object in a slot and its descriptor. *)
Abbreviation meta_of s X := ((takeSlotMetaForDestruction s (store X)).1) (only parsing).

Lemma copy_any s n X : protos_ok P X → handles X !! s = Some n → n + 1 < two32 →
  memoryAt (store X) s ≠ nullptr →
  ∃ X', PrototypeStore.exec cap (OpCopy s) X = Some X' ∧ protos_ok P X' ∧
    pending X' = pending X ∧ dying X' = dying X ∧ handles X' = <[s := n + 1]> (handles X).
Proof.
  intros Hok Hs Hn Hm. destruct (step_ok cap P X (OpCopy s) Hok) as (X' & He & Hok').
  { by exists n. }
  { cbn [PrototypeStore.exec]. unfold retain. destruct (cellAt _ s); simpl; [|done].
    case_match; [|done]. destruct (updCell s _ _) as [S1|] eqn:E; simpl; [|done].
    intros ? [= <-]. split; [by apply updCell_alive in E|].
    by eapply (labelled_upd P X _ s); [apply Hok|done|done|exact E|..]. }
  exists X'. split; [done|]. split; [done|]. cbn [PrototypeStore.exec] in He.
  rewrite Hs in He. destruct (retain s (store X)); by simplify_eq/=.
Qed.

(** A live slot of a started registry belongs to a prototype. *)
Lemma slot_label X s n d mem : protos_ok P X → handles X !! s = Some n →
  meta_of s X = (mem, d) → mem ≠ nullptr → P d.
Proof.
  intros [(L & live & Hinv) _ [Hl _]] Hs Hmeta Hm. pose proof (i_core _ _ _ Hinv) as Hc.
  destruct (held_place _ _ _ _ _ Hc Hs) as (Hlt & _).
  destruct (cellAt_exists _ _ (i_chunks _ _ _ Hc) Hlt) as [c Hcell].
  unfold takeSlotMetaForDestruction in Hmeta. rewrite (proj2 (N.leb_gt _ _) Hlt), Hcell in Hmeta.
  injection Hmeta as <- <-. pose proof (lookup_live _ _ _ _ _ Hc Hcell) as Hlv.
  rewrite Hs in Hlv. simpl in Hlv. rewrite (proj2 (N.eqb_neq _ _) Hm) in Hlv.
  rewrite (i_log _ _ _ Hinv) in Hl. apply Forall_app in Hl as [_ Hl].
  rewrite Forall_forall in Hl. apply (Hl (descId c, memory c)).
  apply list_elem_of_fmap. exists (s, (descId c, memory c)). split; [done|].
  by apply elem_of_map_to_list.
Qed.

(** A release: of one reference of several, or of the last one. *)
Lemma drop_any s n X : protos_ok P X → handles X !! s = Some n →
  ∃ X', PrototypeStore.exec cap (OpDrop s) X = Some X' ∧ protos_ok P X' ∧
    pending X' = pending X ∧
    if decide (n = 1) then handles X' = delete s (handles X) ∧ dying X' = {[s]} ∪ dying X
    else handles X' = <[s := n - 1]> (handles X) ∧ dying X' = dying X ∧ s ∉ dying X.
Proof.
  intros Hok Hs. pose proof Hok as [(L & live & Hinv) Ha Hlab].
  pose proof (i_core _ _ _ Hinv) as Hc. pose proof (i_pos _ _ _ Hc _ _ Hs) as Hpos.
  destruct (held_place _ _ _ _ _ Hc Hs) as (Hlt & HL & Hpe & Hdy & _).
  destruct (updCell_spec _ s (set_refcount (n - 1)) (i_chunks _ _ _ Hc) Hlt)
    as (c & Hcell & Hupd & Hwf' & (T1 & T2 & T3 & T4 & T5 & T6) & Hcs & Hne).
  pose proof (i_ref _ _ _ Hc _ _ Hlt Hcell) as Href. rewrite Hs in Href. simpl in Href.
  set (S1 := setCell s (set_refcount (n - 1) c) (store X)) in *.
  assert (releaseAcquire s (store X) = Some (n =? 1, S1)) as Hrel.
  { unfold releaseAcquire. rewrite Hcell; simpl. rewrite (proj2 (N.ltb_lt _ _) Hlt).
    rewrite Href, u32_pred by lia. by rewrite Hupd. }
  assert (∃ X', PrototypeStore.exec cap (OpDrop s) X = Some X' ∧
    (alive (store X') = alive (store X) ∧ labelled P X') ∧ pending X' = pending X ∧
    if decide (n = 1) then handles X' = delete s (handles X) ∧ dying X' = {[s]} ∪ dying X
    else handles X' = <[s := n - 1]> (handles X) ∧ dying X' = dying X ∧ s ∉ dying X)
    as (X1 & He & Hal & Hrest).
  { cbn [PrototypeStore.exec]. unfold PrototypeStore.releaseIfPrototype. rewrite Hrel, Hs. simpl.
    destruct (decide (n = 1)) as [->|Hn1].
    - simpl. rewrite T1, Ha. simpl. unfold takeSlotMetaForDestruction.
      rewrite T3, (proj2 (N.leb_gt _ _) Hlt), Hcs. eexists. split; [done|]. simpl.
      destruct (setCell_same s (set_memory nullptr (set_refcount (1 - 1) c)) S1) as (U1 & _).
      split_and!; [by rewrite U1, T1| |done..].
      apply (labelled_keep P X); [done..|]. simpl. intros j c' Hj.
      assert (j ≠ s) as Hjs by by intros ->.
      rewrite cellAt_setCell, decide_False, Hne by (done || by eexists). by eauto.
    - rewrite (proj2 (N.eqb_neq _ _) Hn1). simpl. eexists. split; [done|]. simpl. split_and!; try done.
      by eapply (labelled_upd P X _ s); [done|done|done|exact Hupd|..]. }
  destruct (step_ok cap P X (OpDrop s) Hok) as (X' & He' & Hok').
  { by exists n. }
  { rewrite He. by intros ? [= <-]. }
  rewrite He in He'. injection He' as <-. by exists X1.
Qed.

Lemma releaseLiveSlot_same S S' : releaseLiveSlot S = Some S' →
  alive S' = alive S ∧ chunks_ S' = chunks_ S.
Proof.
  unfold releaseLiveSlot, tryDeleteIfUnused. destruct (_ =? 0); [done|]. intros [= <-].
  repeat case_match; simpl; done.
Qed.

(** The end of a last release. *)
Lemma reclaim_any s X : protos_ok P X → s ∈ dying X →
  ∃ X', PrototypeStore.exec cap (OpReclaim s) X = Some X' ∧ protos_ok P X' ∧
    pending X' = pending X ∧ handles X' = handles X ∧ handles X !! s = None.
Proof.
  intros Hok Hs. pose proof Hok as [(L & live & Hinv) _ _].
  destruct (dying_place _ _ _ _ (i_core _ _ _ Hinv) Hs) as (_ & _ & _ & Hh & _).
  destruct (step_ok cap P X (OpReclaim s) Hok Hs) as (X' & He & Hok').
  { cbn [PrototypeStore.exec]. unfold reclaimSlot.
    destruct (updCell s _ _) as [S1|] eqn:E; simpl; [|done].
    destruct (cellAt S1 s); simpl; [|done].
    destruct (releaseLiveSlot _) as [S2|] eqn:E2; simpl; [|done]. intros ? [= <-].
    destruct (releaseLiveSlot_same _ _ E2) as [Ha2 Hc2]. simpl in *. split.
    - rewrite Ha2. by apply updCell_alive in E.
    - eapply (labelled_upd P X _ s); [apply Hok|done|done|exact E|done|].
      intros j. by apply cellAt_ext. }
  exists X'. split; [done|]. cbn [PrototypeStore.exec] in He.
  destruct (reclaimSlot s (store X)); by simplify_eq/=.
Qed.
End protos.

(** ** In a started registry *)

Section release.
Import Runtime.
Context (E : env) (EO : env_ok E) (fuel : nat) (Hfuel : (Resolution.nesting_bound E < fuel)%nat).
Context (HC : calm_env E).

Abbreviation inv := (inv E).
Abbreviation good := (good E).
Abbreviation aside := (aside E).
Abbreviation full := (full E).
Abbreviation handles R := (PrototypeStore.handles (prototypes_ R)).

(** The events of the destruction of [mem] are among those since [R0], in order. *)
Definition witnessed (k : Claims.MaterializationKey) (mem : ptr) (R0 : t) (steps : list step_kind)
    (R : t) : Prop :=
  good R0 R ∧ ∃ es, trace R = trace R0 ++ es ∧ ((λ s, Life s k mem) <$> steps) `sublist_of` es.

Lemma witnessed_emit k mem R0 s steps R : (∀ c, ¬ kept E k c) → witnessed k mem R0 steps R →
  witnessed k mem R0 (steps ++ [s]) (log (Life s k mem) R).
Proof.
  intros Hk (HR & es & Ht & Hs). split.
  - eapply good_trans; [exact HR|]. apply good_log; [apply HR|]. intros k' c' Hk'.
    apply life_other. intros ->. by apply (Hk c').
  - exists (es ++ [Life s k mem]). split; [by rewrite (assoc_L (++)), <-Ht|].
    rewrite fmap_app. by apply sublist_app.
Qed.

Lemma witnessed_good k mem R0 steps R R' : witnessed k mem R0 steps R → good R R' →
  witnessed k mem R0 steps R'.
Proof.
  intros (HR & es & Ht & Hs) HR'. split; [by eapply good_trans|].
  destruct (x_trace _ _ _ _ (proj2 HR')) as (es' & Ht' & _). exists (es ++ es').
  split; [by rewrite Ht', Ht, (assoc_L (++))|]. by apply sublist_inserts_r.
Qed.

(** The object [mem] of descriptor [d] had its destruction. *)
Definition ended_object (d : DescriptorId) (mem : ptr) (es : list event) : Prop :=
  ∀ c, DescriptorTable.coldAt (descriptors_ E) d = Some c →
    ((λ s, Life s (Claims.Key d nullptr) mem) <$> death E c) `sublist_of` es.

(** What a release leaves: it is as if requests had been made, except for the slot. *)
Record let_go (s : SlotId) (R R' : t) : Prop := {
  lg_inv : inv R';
  lg_aside : aside R R';
  lg_handles s' n : s' ≠ s → handles R !! s' = Some n → handles R' !! s' = Some n
}.

Lemma good_let_go s R R' : good R R' → let_go s R R'.
Proof.
  intros [HR HX]. split; [done|by apply ext_aside|]. intros s' n _. apply (x_handles _ _ _ _ HX).
Qed.

Lemma let_go_trans s R1 R2 R3 : let_go s R1 R2 → let_go s R2 R3 → let_go s R1 R3.
Proof.
  intros [_ A1 A2] [B0 B1 B2]. split; [done|by eapply aside_trans|]. intros s' n Hs Hn. by apply B2, A2.
Qed.

Lemma prototypes_let_go s R X : inv R → protos_ok (of_lifetime E Prototype) X →
  (∀ s' n, s' ≠ s → handles R !! s' = Some n → PrototypeStore.handles X !! s' = Some n) →
  let_go s R (set_prototypes X R).
Proof.
  intros HR HX Hh. split; [by apply inv_prototypes| |done].
  unfold RuntimeFacts.aside. destruct R. apply ext_refl.
Qed.

Lemma releasePrototypeLast_spec s meta R : inv R →
  s ∈ PrototypeStore.dying (prototypes_ R) → (meta.1 ≠ nullptr → of_lifetime E Prototype meta.2) →
  ends full (releasePrototypeLast E fuel s meta) R
    (λ _ R', let_go s R R' ∧ handles R' !! s = None ∧
       ∃ es, trace R' = trace R ++ es ∧ (meta.1 ≠ nullptr → ended_object meta.2 meta.1 es))
    (λ _ _, False).
Proof.
  intros HR Hs Hmeta. unfold releasePrototypeLast.
  eapply ends_bind with (P := λ _ R', good R R' ∧
    ∃ es, trace R' = trace R ++ es ∧ (meta.1 ≠ nullptr → ended_object meta.2 meta.1 es)).
  { destruct (N.eqb_spec meta.1 nullptr) as [Hz|Hz]; cbn [negb].
    { apply ends_return. split; [by apply good_refl|]. exists []. split; [by rewrite app_nil_r|done]. }
    destruct (Hmeta Hz) as (x & Hx & Hl). destruct (lookups E EO _ x Hx) as (_ & c & Hc).
    assert (∀ c', ¬ kept E (Claims.Key meta.2 nullptr) c') as Hk.
    { intros c' (y & Hy & _ & Hly & _). simpl in Hy. congruence. }
    eapply ends_mono with (X := λ _ _, False)
      (Q := λ _ R', witnessed (Claims.Key meta.2 nullptr) meta.1 R (death E c) R'); [| |done].
    2: { intros ? R' [Hg (es & Ht & Hsub)]. split; [exact Hg|].
         exists es. split; [exact Ht|]. intros _ c' Hc'. by simplify_eq. }
    apply (executeDestruction_steps E EO fuel Hfuel HC (Claims.Key meta.2 nullptr) c meta.1
      (witnessed (Claims.Key meta.2 nullptr) meta.1 R)); [done|by intros ?? [[? _] _]| | |].
    - intros st steps R'. by apply witnessed_emit.
    - intros steps R' R''. apply witnessed_good.
    - split; [by apply good_refl|]. exists []. split; [by rewrite app_nil_r|done]. }
  intros ? R1 (H1 & es & Ht & Hend).
  destruct (reclaim_any (maxSlots E) _ s (prototypes_ R1) (i_protos _ _ (proj1 H1)))
    as (X & HX & Hok & _ & Hh & Hnone); [by rewrite (x_dying _ _ _ _ (proj2 H1))|].
  eapply proto_op_spec; [exact HX|]. split; [|split; [simpl; by rewrite Hh|by exists es]].
  eapply let_go_trans; [by apply good_let_go|]. apply prototypes_let_go; [apply H1|done|].
  intros s' n _. by rewrite Hh.
Qed.
End release.

(** ** In a started context *)

Section holding.
Context `{SS : StdSort} (H : host) (fuel : nat) (known : gset ptr) (HG : host_good H known).

Abbreviation running := (running H known).
Abbreviation fuelled := (fuelled fuel).
Abbreviation protos W := (Runtime.prototypes_ (rt W)).
Abbreviation handles W := (PrototypeStore.handles (Runtime.prototypes_ (rt W))).
Abbreviation meta_of s W := (PrototypeStore.takeSlotMetaForDestruction s
  (PrototypeStore.store (Runtime.prototypes_ (rt W)))).1.

Lemma running_aside W R : running W → inv (env_of H W) R → RuntimeFacts.aside (env_of H W) (rt W) R →
  running (set_rt R W).
Proof.
  intros HW HR HX. pose proof (i_protos _ _ (rn_inv _ HW)) as Hp.
  assert (running (set_rt (Runtime.set_prototypes (protos W) R) W)) as HW'.
  { apply running_good; [done|]. split; [by apply inv_prototypes|exact HX]. }
  split; try apply HW'; [exact HR| |].
  - intros sc o Ho. by destruct (rn_scopes _ HW' sc o Ho).
  - by destruct (rn_defaults _ HW').
Qed.

(** A copy: one reference more. *)
Lemma copy_runs W b : running W →
  (Handle.tracked b = true → ∃ n, handles W !! Handle.slot b = Some n ∧ n + 1 < two32 ∧
     PrototypeStore.memoryAt (PrototypeStore.store (protos W)) (Handle.slot b) ≠ nullptr) →
  ends never (copy H b) W (λ b' W', b' = b ∧ running W' ∧
      (∃ X, W' = set_rt (Runtime.set_prototypes X (rt W)) W) ∧
      handles W' = (if Handle.tracked b
        then <[Handle.slot b := default 0 (handles W !! Handle.slot b) + 1]> (handles W)
        else handles W)) (λ _ _, False).
Proof.
  intros HW Hb. unfold copy. destruct (Handle.tracked b).
  2: { apply ends_return. split_and!; [done|done| |done]. exists (protos W). by destruct W as [? []]. }
  destruct (Hb eq_refl) as (n & Hs & Hn & Hm).
  pose proof (i_protos _ _ (rn_inv _ HW)) as Hp.
  destruct (copy_any (maxSlots H) _ (Handle.slot b) n (protos W) Hp Hs Hn Hm)
    as (X & HX & Hok & _ & _ & Hh).
  eapply ends_bind with (P := λ _ W', W' = set_rt (Runtime.set_prototypes X (rt W)) W).
  { apply (on_rt_ends H known HG). by eapply (proto_op_spec (env_of H W)). }
  intros ? ? ->. apply ends_return. split_and!; [done| |by exists X|].
  - apply running_aside; [done|apply inv_prototypes; [apply HW|done]|].
    unfold RuntimeFacts.aside. destruct (rt W). apply ext_refl.
  - rewrite Hs. exact Hh.
Qed.

(** What the release of a reference, of [n], does. *)
Definition let_go_of (s : SlotId) (n : N) (W W' : t) : Prop :=
  ∃ R, W' = set_rt R W ∧ let_go (env_of H W) s (rt W) R ∧
    if decide (n = 1) then handles W' !! s = None ∧ ∃ es, Runtime.trace R = Runtime.trace (rt W) ++ es ∧
      ((meta_of s W).1 ≠ nullptr → ended_object (env_of H W) (meta_of s W).2 (meta_of s W).1 es)
    else handles W' !! s = Some (n - 1) ∧ Runtime.trace R = Runtime.trace (rt W).

Lemma release_runs W s n : running W → fuelled 0 W → calm_env (env_of H W) →
  handles W !! s = Some n →
  ends never (releaseIfPrototype H fuel s) W (λ _ W', running W' ∧ let_go_of s n W W') (λ _ _, False).
Proof.
  intros HW HF HC Hs. set (E := env_of H W). pose proof (running_env HG W HW) as EO.
  assert (Resolution.nesting_bound E < fuel)%nat as Hfuel by by apply ScopeStop.fuelled_bound.
  pose proof (i_protos _ _ (rn_inv _ HW)) as Hp.
  eapply ends_mono with (Q := λ _ W', let_go_of s n W W') (X := λ _ _, False); [| |done].
  2: { intros ? W' Hl. split; [|exact Hl]. destruct Hl as (R & -> & [HR HX _] & _). by apply running_aside. }
  unfold releaseIfPrototype. apply (on_rt_ends H known HG). fold E. set (meta := meta_of s W).
  eapply ends_bind with (P := λ m R, m = meta ∧ R = rt W); [done|]. intros ? ? [-> ->].
  destruct (drop_any (maxSlots H) _ s n (protos W) Hp Hs) as (X & HX & Hok & _ & Hcase).
  eapply ends_bind with (P := λ _ R, R = Runtime.set_prototypes X (rt W)).
  { by eapply (proto_op_spec E). }
  intros ? ? ->. assert (let_go E s (rt W) (Runtime.set_prototypes X (rt W))) as H1.
  { apply prototypes_let_go; [apply HW|done|]. intros s' m Hne Hm.
    destruct (decide (n = 1)) as [->|Hn1]; destruct Hcase as [-> _].
    - by rewrite lookup_delete_ne.
    - by rewrite lookup_insert_ne. }
  eapply ends_bind with (P := λ l R, l = bool_decide (s ∈ PrototypeStore.dying X) ∧
    R = Runtime.set_prototypes X (rt W)); [done|]. intros ? ? [-> ->].
  unfold let_go_of. destruct (decide (n = 1)) as [->|Hn1].
  - destruct Hcase as [Hh Hd]. rewrite bool_decide_true by set_solver.
    eapply ends_mono; [apply (releasePrototypeLast_spec E EO fuel Hfuel HC s meta); [apply H1|simpl; set_solver|]|
      |done].
    + intros Hm. eapply (slot_label _ (protos W) s 1); [exact Hp|exact Hs| |exact Hm].
      unfold meta. by destruct (meta_of s W).
    + intros ? R' (H2 & Hnone & es & Ht & Hend). exists R'. split; [done|].
      split; [by eapply let_go_trans|]. split; [exact Hnone|]. by exists es.
  - destruct Hcase as (Hh & Hd & Hnd). rewrite bool_decide_false by by rewrite Hd.
    apply ends_return. eexists. split; [done|]. split; [exact H1|]. simpl. by rewrite Hh, lookup_insert_eq.
Qed.

(** [~Bean()] of any handle; only prototypes are counted. *)
Lemma destruct_runs W b : running W → fuelled 0 W → calm_env (env_of H W) →
  (Handle.tracked b = true → is_Some (handles W !! Handle.slot b)) →
  ends never (destruct_ H fuel b) W (λ _ W', running W') (λ _ _, False).
Proof.
  intros HW HF HC Hb. unfold destruct_. destruct (Handle.tracked b); [|by apply ends_return].
  destruct (Hb eq_refl) as [n Hn]. eapply ends_mono; [by apply (release_runs W _ n)| |done].
  by intros ? W' [].
Qed.
End holding.

#[global] Arguments copy_runs {H known} HG W b.
#[global] Arguments release_runs {H fuel known} HG W s n.
#[global] Arguments destruct_runs {H fuel known} HG W b.

End Holding.
