(* ===== verification/Starting.v ===== *)
(** [BeanContext::start] as a whole: a registry that opens, its listeners, the announced
    bindings and the eager singletons; or everything taken back. *)
From S2P Require Import Prelude Tables Interning Index Stores Startup StartupFacts Started SampleStart Opened Freelist Prototypes Listeners Claims Handles Casts Caches Runtime RuntimeFacts Sample Resolution Shutdown Ready World SampleWorld Contexts Living Service.

Local Open Scope N_scope.

Module Starting.
Import World RuntimeFacts Living Service.
Local Open Scope ctr_scope.
#[local] Existing Instance Runtime.ScopeState_eq_dec.

Abbreviation contributions W := (mjoin (Startup.pending_ (reg W))) (only parsing).

Section starting.
Context `{SS : StdSort} (H : host) (fuel : nat) (known : gset ptr).
Hypothesis HG : host_good H known.
Abbreviation running := (running H known).
Abbreviation fuelled := (fuelled fuel).

(** The iteration order lists the values of the map. *)
Hypothesis Horder : ∀ m sc, sc ∈ scope_order H m → ∃ k, m !! k = Some sc.

(** ** Before the start *)

(** A scope before the start: it was never started, its default table is empty and its
    bindings are in the registry. *)
Record waiting (W : t) (sc : ptr) (o : ScopeObject) : Prop := {
  wt_state : Runtime.scopeState_ (info o) = Runtime.Stopped;
  wt_name : Runtime.scopeNameId_ (info o) < two32;
  wt_defaults : Runtime.scopedDefaults_ (info o) = DefaultsTable.empty;
  wt_deferred d : d ∈ scopeDeferred_ o → df_phaseIndex d < ListenerStore.kPhaseCount;
  wt_pending p : p ∈ pendingRuntimeSessions_ o →
    p.2 ≠ nullptr ∧ p.1 < DescriptorTable.size (descs W);
  wt_store : ∃ st, Runtime.sessions (rt W) !! sc = Some st ∧ SessionStore.wf st ∧
    SessionStore.insertionOrder st = []
}.

(** A context that was filled with contributions, bindings, scopes and listeners. *)
Record unopened (W : t) : Prop := {
  uo_unstarted : Started.unstarted (registry W);
  uo_room : Started.enough_room (registry W);
  uo_generated : Ready.generated (contributions W);
  uo_sessions : Ready.only_sessions (registry W);
  uo_idle : Ready.idle (env_of H W) 0 (rt W);
  uo_stack : Runtime.stack (rt W) = [];
  uo_listeners : ListenerStore.usable (listeners_ W);
  uo_deferred d : d ∈ deferredListeners_ W → df_phaseIndex d < ListenerStore.kPhaseCount;
  uo_known sc : sc ∈ known → is_Some (objects_ W !! sc);
  uo_null : objects_ W !! nullptr = None;
  uo_scopes k sc : scopes_ W !! k = Some sc → is_Some (objects_ W !! sc);
  uo_waiting sc o : objects_ W !! sc = Some o → waiting W sc o;
  uo_chunks : listed (scopeChunks_ W) (objects_ W);
  uo_fuel : (N.to_nat (DescriptorTable.size (descs W) + nlen (contributions W) +
      nlen (Startup.pendingRuntimeSingletons_ (reg W)) + 1) * S (base.size (objects_ W)) < fuel)%nat
}.

(** The context when its registry has opened. *)
Definition opened_world (R' : Startup.t) (W : t) : t :=
  set_rt (Runtime.set_singletons (Startup.singletons_ R') (rt W)) (set_reg R' W).

Section opened.
Context (W : t) (root : ptr) (R' : Startup.t) (bound : list Startup.StartBound)
  (T : Startup.tables) (ty : TypeId) (T1 T2 : Startup.tables).
Hypothesis HW : unopened W.
Hypothesis Hroot : root ≠ nullptr.
Hypothesis HO : Started.opened (noop H) (contextTypeInfo H) (contextAlign H) root (registry W) R'
  bound T ty T1 T2.
Hypothesis Hac : Started.acceptable (Startup.tables_ (registry W)) (contributions W)
  (Startup.pendingRuntimeSingletons_ (registry W)).

Let W1 := opened_world R' W.

Lemma distinct_length seen cds : nlen (StartupFacts.distinct seen cds) ≤ nlen seen + nlen cds.
Proof.
  revert seen. induction cds as [|cd cds IH]; intros seen; [simpl; lia|]. cbn [StartupFacts.distinct].
  assert (nlen (cd :: cds) = nlen cds + 1) as Hl by (unfold nlen; simpl; lia).
  destruct (StartupFacts.knows _ _); [specialize (IH seen)|specialize (IH (seen ++ [cd]))]; [lia|].
  rewrite nlen_snoc in IH. lia.
Qed.

Lemma opened_size : DescriptorTable.size (descs W1) ≤
  DescriptorTable.size (descs W) + nlen (contributions W) +
  nlen (Startup.pendingRuntimeSingletons_ (reg W)) + 1.
Proof.
  change (descs W1) with (Startup.descriptors_ (Startup.tables_ R')).
  rewrite (Opened.final_size _ _ _ _ _ _ _ _ _ _ _ HO).
  destruct (Started.p_graph _ _ _ _ _ _ _ _ _ _ _ HO) as [L G].
  rewrite (StartupFacts.k_size _ _ _ _ _ _ _ (Started.gr_linked _ _ _ _ _ _ _ G)).
  pose proof (distinct_length [] (contributions W)) as Hd.
  change (mjoin (Startup.pending_ (registry W))) with (contributions W).
  change (Startup.tables_ (registry W)) with (Startup.tables_ (reg W)).
  change (Startup.pendingRuntimeSingletons_ (registry W)) with (Startup.pendingRuntimeSingletons_ (reg W)).
  change (nlen []) with 0 in Hd. lia.
Qed.

Lemma opened_fuelled : fuelled 0 W1.
Proof.
  pose proof (uo_fuel _ HW) as HF. pose proof opened_size as Hs. unfold Service.fuelled.
  change (objects_ W1) with (objects_ W). rewrite N.add_0_r. nia.
Qed.

Lemma opening_env : env_ok (env_of H W1).
Proof.
  apply (Ready.opened_env _ _ _ _ _ _ _ _ _ _ _ (uo_unstarted _ HW) HO Hroot Hac
    (uo_generated _ HW) (uo_sessions _ HW) (env_of H W)).
  apply (host_env HG); [apply HW|apply HW|]. intros sc o Ho. apply (uo_waiting _ HW sc o Ho).
Qed.

Lemma opened_tables : tables_ok (descs W1) (index W1).
Proof.
  destruct opening_env as [E1 E2 E3 E4 E5 E6 E7 E8]. split; try done.
  - destruct (Started.p_graph _ _ _ _ _ _ _ _ _ _ _ HO) as [L G].
    exact (Ready.final_small _ _ _ _ _ _ _ _ _ _ _ HO).
  - intros ty' n e He. exact (Ready.head_candidate _ _ _ _ _ _ _ _ _ _ _ HO ty' n e He).
  - intros ty' d Hd Hne.
    pose proof (Ready.single_candidate _ _ _ _ _ _ _ _ _ _ _ HO ty' d Hd Hne) as Hin.
    pose proof (Ready.final_lists _ _ _ _ _ _ _ _ _ _ _ HO Hroot) as HL.
    pose proof (TypeIndex.lists_entry _ _ ty' kUnnamed HL) as Hl. unfold TypeIndex.candidatesFor in Hin.
    destruct (TypeIndex.entryFor _ ty' kUnnamed) as [e|]; [|by apply not_elem_of_nil in Hin].
    destruct Hl as [Hl _]. simpl in Hin. by rewrite Hl in Hin.
  - exact (Ready.final_lists _ _ _ _ _ _ _ _ _ _ _ HO Hroot).
Qed.

Lemma opened_inv : inv (env_of H W1) (rt W1).
Proof.
  apply (Ready.opened_idle _ _ _ _ _ _ _ _ _ _ _ (uo_unstarted _ HW) HO Hroot
    (uo_generated _ HW) (uo_sessions _ HW) (env_of H W)); [|done].
  destruct (uo_idle _ HW) as [I1 I2 I3 I4 I5 I6 I7]. split; try done.
  intros sc i. simpl. rewrite lookup_fmap. destruct (objects_ W !! sc) as [o|] eqn:Ho; [|done].
  intros [= <-] Hs. destruct Hs. apply (uo_waiting _ HW sc o Ho).
Qed.

(** A binding made before the start keeps its descriptor, with a slot. *)
Lemma opened_bound_session d : d < DescriptorTable.size (descs W) → bound_session (descs W1) d.
Proof.
  intros Hd. destruct (DescriptorTable.at_is_Some (descs W) d) as (x & c & Hx & Hc & _); [|done|].
  { apply (StartupFacts.b_table _ (Started.u_built _ (uo_unstarted _ HW))). }
  destruct (uo_sessions _ HW d x Hx) as [Hl Hp].
  pose proof (Started.u_runtime _ (uo_unstarted _ HW) d c Hc) as Ho.
  destruct (Started.p_graph _ _ _ _ _ _ _ _ _ _ _ HO) as [L G].
  pose proof (Started.gr_linked _ _ _ _ _ _ _ G) as HL.
  destruct (StartupFacts.k_old _ _ _ _ _ _ _ HL d Hd) as [E1 E2].
  assert (d ≠ DescriptorTable.size (Startup.descriptors_ T)) as Hne.
  { rewrite (StartupFacts.k_size _ _ _ _ _ _ _ HL).
    change (DescriptorTable.size (Startup.descriptors_ (Startup.tables_ (registry W))))
      with (DescriptorTable.size (descs W)). lia. }
  unfold bound_session. change (descs W1) with (Startup.descriptors_ (Startup.tables_ R')).
  rewrite (Opened.final_at _ _ _ _ _ _ _ _ _ _ _ HO), (Opened.final_cold _ _ _ _ _ _ _ _ _ _ _ HO).
  rewrite !decide_False by done.
  change (DescriptorTable.at_ (Startup.descriptors_ (Startup.tables_ (registry W))) d)
    with (DescriptorTable.at_ (descs W) d) in E1.
  change (DescriptorTable.coldAt (Startup.descriptors_ (Startup.tables_ (registry W))) d)
    with (DescriptorTable.coldAt (descs W) d) in E2.
  rewrite E1, E2, Hx, Hc. eexists _, _. split_and!; [done..|].
  unfold Runtime.is_primary_elsewhere. simpl. rewrite Hp, N.eqb_refl. done.
Qed.

Lemma opened_primary d x c : DescriptorTable.at_ (descs W1) d = Some x →
  DescriptorTable.coldAt (descs W1) d = Some c → origin c = RuntimeBinding →
  Runtime.is_primary_elsewhere x d = false.
Proof.
  intros Hx Hc Ho. unfold Runtime.is_primary_elsewhere.
  destruct (Ready.final_source _ _ _ _ _ _ _ _ _ _ _ (uo_unstarted _ HW) HO (uo_sessions _ HW) d x c Hx Hc)
    as [_ _ -> _|L j cd G _ Hj _ _ Hor|b _ _ _ -> _|_ _ -> _].
  - rewrite N.eqb_refl. by case (_ =? _).
  - destruct (Ready.gn_origin _ (uo_generated _ HW) cd); [|congruence].
    apply (StartupFacts.distinct_from []), vat_elem. by exists j.
  - rewrite N.eqb_refl. by case (_ =? _).
  - rewrite N.eqb_refl. by case (_ =? d).
Qed.

Lemma opened_names : NameInterning.wf (names W1).
Proof.
  change (NameInterning.wf (Startup.nameInterning_ (Startup.tables_ R'))).
  rewrite (Started.p_tables _ _ _ _ _ _ _ _ _ _ _ HO).
  apply (StartupFacts.c_names _ (Started.l_core _ _ (Started.p_slots _ _ _ _ _ _ _ _ _ _ _ HO))).
Qed.

Lemma opened_count : slots W1 ≤ DescriptorTable.size (descs W1).
Proof.
  change (Startup.sessionSlotCount_ R' ≤ DescriptorTable.size (Startup.descriptors_ (Startup.tables_ R'))).
  rewrite (Started.p_count _ _ _ _ _ _ _ _ _ _ _ HO), (Opened.final_size _ _ _ _ _ _ _ _ _ _ _ HO).
  etrans; [apply Opened.sessions_in_length|].
  pose proof (Started.x_size _ _ _ _ _ _ (Started.p_context _ _ _ _ _ _ _ _ _ _ _ HO)) as Hs.
  unfold DescriptorTable.size in *. lia.
Qed.

Lemma opened_defaults : Contexts.defaults_ok W1.
Proof.
  pose proof (Started.p_defaults _ _ _ _ _ _ _ _ _ _ _ HO) as Hd.
  assert (∀ ty, DefaultsTable.getDefault (Startup.defaults_ R') ty = kUnnamed) as Hg.
  { intros ty'. rewrite Hd. apply DefaultsTable.getDefault_resize. }
  split.
  - change (DefaultsTable.wf (Startup.defaults_ R')). rewrite Hd. apply DefaultsTable.wf_resize.
  - intros ty' _. apply Hg.
  - intros sc o Ho. rewrite (wt_defaults _ _ _ (uo_waiting _ HW sc o Ho)). split; [done|by left].
  - intros sc o ty' Ho _. rewrite (wt_defaults _ _ _ (uo_waiting _ HW sc o Ho)).
    apply DefaultsTable.getDefault_out, N.le_0_l.
Qed.

Lemma opened_running : running W1.
Proof.
  split.
  - exact (Started.p_started _ _ _ _ _ _ _ _ _ _ _ HO).
  - exact opened_tables.
  - exact opened_inv.
  - apply HW.
  - exact opened_names.
  - apply HW.
  - apply HW.
  - intros sc o Ho. destruct (uo_waiting _ HW sc o Ho) as [Q1 Q2 Q3 Q4 Q5 (st & Hst & Hwf & Hord)]. split.
    + exists st. split_and!; [done..|by rewrite Hord; intros d ?%not_elem_of_nil|]. intros _ d x c _ _ _ _.
      by apply (Ready.id_sessions _ _ _ (uo_idle _ HW) sc).
    + by rewrite Q1.
    + done.
    + intros p Hp. destruct (Q5 p Hp). split; [done|]. by apply opened_bound_session.
  - intros d x. apply (Ready.slot_small _ _ _ _ _ _ _ _ _ _ _ HO).
  - exact opened_count.
  - exact opened_primary.
  - apply HW.
  - exact opened_defaults.
  - simpl. by rewrite (Ready.id_claims _ _ _ (uo_idle _ HW)).
  - apply HW.
Qed.

(** A bean the container did not build. *)
Definition foreign (V : t) (d : DescriptorId) : Prop :=
  ∃ c, DescriptorTable.coldAt (descs V) d = Some c ∧ origin c = RuntimeBinding.

Lemma opened_context : foreign W1 (Startup.beanContextDescId_ (reg W1)).
Proof.
  unfold foreign. change (descs W1) with (Startup.descriptors_ (Startup.tables_ R')).
  change (reg W1) with R'. rewrite (Started.p_id _ _ _ _ _ _ _ _ _ _ _ HO).
  rewrite (Opened.final_cold _ _ _ _ _ _ _ _ _ _ _ HO), decide_True by done. by eexists.
Qed.

Lemma opened_bindings b : b ∈ Startup.startLifecyclePending_ (reg W1) →
  foreign W1 (Startup.sb_descId b).
Proof.
  change (reg W1) with R'. rewrite (Started.p_lifecycle _ _ _ _ _ _ _ _ _ _ _ HO).
  intros [j Hj]%vat_elem. destruct (Started.p_graph _ _ _ _ _ _ _ _ _ _ _ HO) as [L G].
  pose proof (Started.gr_linked _ _ _ _ _ _ _ G) as HL.
  destruct (Started.gr_bound _ _ _ _ _ _ _ G j b Hj) as (pb & Hpb & -> & _).
  destruct (StartupFacts.k_bound _ _ _ _ _ _ _ HL _ _ Hpb) as (_ & ty' & Hc & _).
  pose proof (vat_lt _ _ _ Hpb) as Hlt. eexists. split.
  - change (descs W1) with (Startup.descriptors_ (Startup.tables_ R')).
    rewrite (Opened.final_cold _ _ _ _ _ _ _ _ _ _ _ HO), decide_False; [exact Hc|].
    rewrite (StartupFacts.k_size _ _ _ _ _ _ _ HL). lia.
  - done.
Qed.

End opened.
(** ** The listeners that were registered before the start *)

(** A listener that waits for the start. *)
Definition deferred_in (W : t) (d : Deferred) : Prop :=
  d ∈ deferredListeners_ W ∨ ∃ sc o, objects_ W !! sc = Some o ∧ d ∈ scopeDeferred_ o.

(** A context whose listeners changed: those that waited were added. *)
Record flushed (W W' : t) : Prop := {
  fl_running : running W';
  fl_reg : reg W' = reg W;
  fl_rt : rt W' = rt W;
  fl_scopes : scopes_ W' = scopes_ W;
  fl_size : base.size (objects_ W') = base.size (objects_ W);
  fl_live sc : is_Some (objects_ W !! sc) → is_Some (objects_ W' !! sc);
  fl_deferred sc o' d : objects_ W' !! sc = Some o' → d ∈ scopeDeferred_ o' →
    ∃ o, objects_ W !! sc = Some o ∧ d ∈ scopeDeferred_ o;
  fl_root d : d ∈ deferredListeners_ W' → d ∈ deferredListeners_ W;
  fl_heard P : ListenerStore.heard P (listeners_ W) →
    (∀ d, deferred_in W d → P (df_phaseIndex d) (df_callback d)) → ListenerStore.heard P (listeners_ W')
}.

Lemma flushed_refl W : running W → flushed W W.
Proof. intros HW. split; try done. intros sc o d Ho Hd. by exists o. Qed.

Lemma flushed_trans W1 W2 W3 : flushed W1 W2 → flushed W2 W3 → flushed W1 W3.
Proof.
  intros [A1 A2 A3 A4 A5 A6 A7 A8 A9] [B1 B2 B3 B4 B5 B6 B7 B8 B9].
  split; [done|congruence|congruence|congruence|congruence| | | |].
  - intros sc Hs. by apply B6, A6.
  - intros sc o d Ho Hd. destruct (B7 sc o d Ho Hd) as (o2 & Ho2 & Hd2). by apply (A7 sc o2).
  - intros d Hd. by apply A8, B8.
  - intros P HP Hd. apply B9; [by apply A9|]. intros d [Hr|(sc & o & Ho & Hs)]; apply Hd.
    + left. by apply A8.
    + right. exists sc. by apply (A7 sc o d).
Qed.

Lemma flushed_listeners W L : running W → ListenerStore.usable L →
  (∀ P, ListenerStore.heard P (listeners_ W) →
     (∀ d, deferred_in W d → P (df_phaseIndex d) (df_callback d)) → ListenerStore.heard P L) →
  flushed W (set_listeners L W).
Proof.
  intros HW HL HP. split; try done; [|intros sc o d Ho Hd; by exists o].
  apply (running_registry HG W); try done; apply HW.
Qed.

Lemma flush_one_runs d W : running W → df_phaseIndex d < ListenerStore.kPhaseCount → deferred_in W d →
  ∃ L, flush_one d W = (Ok tt, set_listeners L W) ∧ flushed W (set_listeners L W).
Proof.
  intros HW Hd Hin. unfold flush_one.
  destruct (ListenerStore.usable_deferred (df_phaseIndex d) kInvalidTypeId (df_listenerScope d)
    (df_callback d) (df_priority d) (df_token d) (listeners_ W) (rn_listeners _ HW) Hd) as (L & Hrun & HL).
  rewrite Hrun. exists L. split; [done|]. apply flushed_listeners; [done|done|].
  intros P HP Hall. apply (ListenerStore.heard_deferred P _ _ _ _ _ _ _ _ HP (Hall d Hin) Hrun).
Qed.

Lemma flush_all_run l : ∀ W, running W → (∀ d, d ∈ l → df_phaseIndex d < ListenerStore.kPhaseCount) →
  (∀ d, d ∈ l → deferred_in W d) →
  ∃ W', mfor flush_one l W = (Ok tt, W') ∧ flushed W W'.
Proof.
  induction l as [|d l IH]; intros W HW Hl Hin; [exists W; split; [done|by apply flushed_refl]|].
  destruct (flush_one_runs d W HW) as (L & H1 & F1); [apply Hl; by left|apply Hin; by left|].
  destruct (IH (set_listeners L W)) as (W2 & H2 & F2);
    [apply F1|intros; apply Hl; by right|intros; apply Hin; by right|].
  exists W2. cbn [mfor]. unfold mbind_. rewrite H1. split; [exact H2|by eapply flushed_trans].
Qed.

(** The phases of what a context has deferred. *)
Definition phases_ok (ctx : option ptr) (W : t) : Prop :=
  match ctx with
  | None => ∀ d, d ∈ deferredListeners_ W → df_phaseIndex d < ListenerStore.kPhaseCount
  | Some sc => ∃ o, objects_ W !! sc = Some o ∧
      ∀ d, d ∈ scopeDeferred_ o → df_phaseIndex d < ListenerStore.kPhaseCount
  end.

(** What [flushDeferredListeners_] does with the list [l]. *)
Definition flush_list (ctx : option ptr) (l : list Deferred) : M t unit :=
  if decide (l = []) then mreturn tt
  else
    do! mfor flush_one l in
    do! mupd (λ W, set_listeners (ListenerStore.finalizeListeners (listeners_ W)) W) in
    match ctx with
    | None => mupd (set_deferred [])
    | Some sc => upd_object sc (with_deferred [])
    end.

Lemma flush_list_runs ctx l W : running W → Contexts.live ctx W →
  (∀ d, d ∈ l → df_phaseIndex d < ListenerStore.kPhaseCount) → (∀ d, d ∈ l → deferred_in W d) →
  ∃ W', flush_list ctx l W = (Ok tt, W') ∧ flushed W W'.
Proof.
  intros HW Hlive Hl Hin. unfold flush_list.
  case_decide; [exists W; split; [done|by apply flushed_refl]|].
  destruct (flush_all_run l W HW Hl Hin) as (W1 & H1 & F1).
  set (W2 := set_listeners (ListenerStore.finalizeListeners (listeners_ W1)) W1).
  assert (flushed W1 W2) as F2.
  { apply flushed_listeners; [apply F1|apply ListenerStore.usable_finalize, F1|].
    intros P HP _. by apply ListenerStore.heard_finalize. }
  pose proof (flushed_trans _ _ _ F1 F2) as F. unfold mbind_ at 1. rewrite H1. unfold mbind_ at 1, mupd at 1.
  fold W2. destruct ctx as [sc|].
  - destruct (fl_live _ _ F sc Hlive) as [o Ho]. eexists. split; [done|].
    apply (flushed_trans W W2); [done|]. split; try done; simpl.
    + apply (running_scope HG W2 sc o _ (fl_running _ _ F) Ho); [| |done|by apply listed_alter; [apply F|]].
      * destruct (rn_scopes _ (fl_running _ _ F) sc o Ho). by split.
      * exact (scope_running W2 sc o (fl_running _ _ F) Ho).
    + rewrite <-!(size_dom (D := gset ptr)). by rewrite dom_alter_L.
    + intros sc' [o' Ho']. rewrite lookup_alter. case_decide; [subst sc'; simpl in Ho; rewrite Ho|]; by eexists.
    + intros sc' o' d. rewrite lookup_alter. case_decide; [|by exists o'].
      subst sc'. simpl in Ho. rewrite Ho. intros [= <-]. by intros ?%not_elem_of_nil.
  - eexists. split; [done|]. apply (flushed_trans W W2); [done|]. split; try done; [|by intros sc o d Ho Hd; exists o|by intros d ?%not_elem_of_nil].
    pose proof (fl_running _ _ F) as HW2. apply (running_registry HG W2); try done; apply HW2.
Qed.

Lemma flush_runs ctx W : running W → phases_ok ctx W →
  ∃ W', flushDeferredListeners_ ctx W = (Ok tt, W') ∧ flushed W W'.
Proof.
  intros HW Hp.
  assert (∃ l, flushDeferredListeners_ ctx W = flush_list ctx l W ∧ Contexts.live ctx W ∧
    (∀ d, d ∈ l → df_phaseIndex d < ListenerStore.kPhaseCount) ∧
    ∀ d, d ∈ l → deferred_in W d) as (l & -> & Hlive & Hl & Hin).
  { destruct ctx as [sc|].
    2: { exists (deferredListeners_ W). split_and!; [done..|]. by left. }
    destruct Hp as (o & Ho & Hl).
    exists (scopeDeferred_ o). split_and!; [|by exists o|done|intros d Hd; right; by exists sc, o].
    unfold flushDeferredListeners_, flush_list, mbind_ at 1. unfold mbind_ at 1, object. by rewrite Ho. }
  by apply flush_list_runs.
Qed.

Lemma flush_scopes_run l : ∀ W, running W → (∀ sc, sc ∈ l → phases_ok (Some sc) W) →
  ∃ W', mfor (λ sc, flushDeferredListeners_ (Some sc)) l W = (Ok tt, W') ∧ flushed W W'.
Proof.
  induction l as [|sc l IH]; intros W HW Hl; [exists W; split; [done|by apply flushed_refl]|].
  destruct (flush_runs (Some sc) W HW) as (W1 & H1 & F1); [apply Hl; by left|].
  destruct (IH W1) as (W2 & H2 & F2); [apply F1| |].
  - intros sc' Hsc. destruct (Hl sc') as (o & Ho & Hd); [by right|].
    destruct (fl_live _ _ F1 sc') as [o' Ho']; [by exists o|]. exists o'. split; [done|].
    intros d Hd'. destruct (fl_deferred _ _ F1 sc' o' d Ho' Hd') as (o0 & Ho0 & Hd0).
    apply Hd. by replace o with o0 by congruence.
  - exists W2. cbn [mfor]. unfold mbind_. rewrite H1. split; [exact H2|by eapply flushed_trans].
Qed.

(** ** Announcements and eager singletons *)

(** Run-time code ran, and the registry's own bookkeeping changed. *)
Record later (W W' : t) : Prop := {
  lt_running : running W';
  lt_env : env_of H W' = env_of H W;
  lt_tables : Startup.tables_ (reg W') = Startup.tables_ (reg W);
  lt_objects : objects_ W' = objects_ W;
  lt_good : good (env_of H W) (rt W) (rt W')
}.

Lemma later_refl W : running W → later W W.
Proof. intros HW. split; try done. apply good_refl, HW. Qed.

Lemma later_trans W1 W2 W3 : later W1 W2 → later W2 W3 → later W1 W3.
Proof.
  intros [A1 A2 A3 A4 A5] [B1 B2 B3 B4 B5]. split; [done|congruence..|].
  rewrite A2 in B5. by eapply good_trans.
Qed.

Lemma later_descs W W' : later W W' → descs W' = descs W.
Proof. intros [_ HE _ _ _]. exact (f_equal Runtime.descriptors_ HE). Qed.

Lemma later_fuelled W W' : later W W' → fuelled 0 W → fuelled 0 W'.
Proof.
  intros HL. unfold Service.fuelled. by rewrite (later_descs _ _ HL), (lt_objects _ _ HL).
Qed.

Lemma later_set_rt W R : running W → good (env_of H W) (rt W) R → later W (set_rt R W).
Proof. intros HW HR. split; try done. by apply running_good. Qed.

(** A field of the registry that the environment does not show. *)
Lemma later_reg W f : running W →
  Startup.started_ (f (reg W)) = Startup.started_ (reg W) →
  Startup.tables_ (f (reg W)) = Startup.tables_ (reg W) →
  Startup.defaults_ (f (reg W)) = Startup.defaults_ (reg W) →
  Startup.sessionSlotCount_ (f (reg W)) = Startup.sessionSlotCount_ (reg W) →
  later W (set_reg (f (reg W)) W).
Proof.
  intros HW Hs Ht Hd Hc. split; [|unfold env_of; simpl; by rewrite Hs, Ht, Hd|done|done|].
  - apply (running_registry HG W); simpl; rewrite ?Ht; try done; apply HW.
  - apply good_refl, HW.
Qed.

Lemma announce_later W id ty object emitter : running W → fuelled 0 W → foreign W id →
  ends never (announce H fuel (Claims.Key id nullptr) ty object emitter) W
    (λ _ W', later W W') (λ _ W', later W W').
Proof.
  intros HW HF (c & Hc & Ho).
  eapply ends_mono; [apply (announce_runs HG); [done|done|]|..].
  - intros c' (y & _ & Hc' & _ & Ho'). simpl in Hc'. congruence.
  - intros _ W' (_ & R & HR & ->). by apply later_set_rt.
  - intros _ W' (_ & R & HR & ->). by apply later_set_rt.
Qed.

Lemma context_announced W : running W → fuelled 0 W →
  foreign W (Startup.beanContextDescId_ (reg W)) →
  ends never (dispatchBeanContextStartLifecycle H fuel) W
    (λ _ W', later W W' ∧
       Startup.startLifecyclePending_ (reg W') = Startup.startLifecyclePending_ (reg W))
    (λ _ W', later W W').
Proof.
  intros HW HF Hf. unfold dispatchBeanContextStartLifecycle. eapply ends_run; [done|].
  destruct (negb _); [by apply ends_return; split; [apply later_refl|]|].
  set (W1 := set_reg (set_contextPending false (reg W)) W).
  assert (later W W1) as HL by by apply later_reg.
  eapply ends_run with (s' := W1); [done|]. cbv zeta.
  destruct Hf as (c & Hc & Ho). rewrite Hc. eapply ends_run; [done|].
  assert (running W1) as HW1 by apply HL.
  eapply ends_mono; [apply (announce_runs HG W1); [done|done|]|..].
  - intros c' (y & _ & Hc' & _ & Ho'). simpl in Hc'. congruence.
  - intros _ W' (_ & R & HR & ->). split; [|done].
    eapply later_trans; [exact HL|]. by apply later_set_rt.
  - intros _ W' (_ & R & HR & ->). eapply later_trans; [exact HL|]. by apply later_set_rt.
Qed.

(** A loop of run-time steps. *)
Lemma later_for {A} (f : A → M t unit) (P : A → t → Prop) l : ∀ W, running W → fuelled 0 W →
  (∀ a W', a ∈ l → later W W' →
     ends never (f a) W' (λ _ W'', later W' W'' ∧ P a W'') (λ _ W'', later W' W'')) →
  (∀ a W' W'', running W' → P a W' → later W' W'' → P a W'') →
  ends never (mfor f l) W (λ _ W', later W W' ∧ ∀ a, a ∈ l → P a W') (λ _ W', later W W').
Proof.
  induction l as [|a l IH]; intros W HW HF Hf HP; apply ends_for.
  { split; [by apply later_refl|]. by intros a ?%not_elem_of_nil. }
  eapply ends_mono; [apply (Hf a W); [by left|by apply later_refl]| |done].
  intros _ W1 [H1 HP1]. eapply ends_mono; [apply IH| |].
  - apply H1.
  - by eapply later_fuelled.
  - intros b W' Hb HL. apply Hf; [by right|by eapply later_trans].
  - done.
  - intros _ W2 [H2 HP2]. split; [by eapply later_trans|].
    intros b [->|Hb]%elem_of_cons; [|by apply HP2].
    eapply HP; [apply H1|done|done].
  - intros ? W2 H2. by eapply later_trans.
Qed.

Lemma foreign_later W W' d : later W W' → foreign W d → foreign W' d.
Proof. intros HL (c & Hc & Ho). exists c. by rewrite (later_descs _ _ HL). Qed.

Lemma bindings_announced W : running W → fuelled 0 W →
  (∀ b, b ∈ Startup.startLifecyclePending_ (reg W) → foreign W (Startup.sb_descId b)) →
  ends never (dispatchBoundSingletonLifecycle H fuel) W
    (λ _ W', later W W') (λ _ W', later W W').
Proof.
  intros HW HF Hb. unfold dispatchBoundSingletonLifecycle. eapply ends_run; [done|].
  eapply ends_bind; [apply (later_for _ (λ _ _, True)); [done|done| |done]|].
  - intros b W' Hin HL. eapply ends_mono; [apply announce_later|by intros|by intros].
    + apply HL.
    + by eapply later_fuelled.
    + eapply foreign_later; [exact HL|]. by apply Hb.
  - cbv beta. intros _ W' [HL _]. apply ends_upd. eapply later_trans; [exact HL|].
    by apply later_reg; [apply HL|..].
Qed.

(** A singleton to build at the start. *)
Definition eager_at (D : DescriptorTable.t) (d : DescriptorId) : Prop := ∃ x c,
  DescriptorTable.at_ D d = Some x ∧ DescriptorTable.coldAt D d = Some c ∧
  lifetime x = Singleton ∧ origin c ≠ RuntimeBinding ∧ lazy c = false ∧ primaryDescriptor x = d.

Lemma eager_from_spec xs : ∀ id p d, (p, d) ∈ eager_from id xs ↔
  ∃ i x c, xs !! i = Some (x, c) ∧ d = id + N.of_nat i ∧ p = priority x ∧ lifetime x = Singleton ∧
    origin c ≠ RuntimeBinding ∧ lazy c = false ∧ primaryDescriptor x = d.
Proof.
  induction xs as [|[x c] xs IH]; intros id p d; cbn [eager_from].
  { split; [by intros ?%not_elem_of_nil|by intros (i & x & c & Hi & _)]. }
  rewrite elem_of_app, IH. split.
  - intros [Hin|(i & x' & c' & Hi & -> & Hr)].
    + destruct (bool_decide (lifetime x = Singleton)) eqn:H1; [|by apply not_elem_of_nil in Hin].
      destruct (bool_decide (origin c ≠ RuntimeBinding)) eqn:H2; [|by apply not_elem_of_nil in Hin].
      apply bool_decide_eq_true in H1, H2.
      destruct (lazy c) eqn:H3; simpl in Hin; [by apply not_elem_of_nil in Hin|].
      destruct (N.eqb_spec (primaryDescriptor x) id); [|by apply not_elem_of_nil in Hin].
      apply list_elem_of_singleton in Hin. injection Hin as -> ->.
      exists O, x, c. split_and!; try done. lia.
    + exists (S i), x', c'. split; [done|]. split; [lia|exact Hr].
  - intros ([|i] & x' & c' & Hi & -> & -> & H1 & H2 & H3 & H4); simpl in Hi.
    + left. injection Hi as -> ->. rewrite N.add_0_r in *.
      rewrite !bool_decide_true, H3 by done. rewrite (proj2 (N.eqb_eq _ _) H4). by left.
    + right. exists i, x', c'. split; [done|]. split; [lia|done].
Qed.

Lemma eager_spec D d : DescriptorTable.wf D → (∃ p, (p, d) ∈ eager D) ↔ eager_at D d.
Proof.
  intros [Hc _]. unfold eager.
  assert (∀ p, (p, d) ∈ std_sort (λ a b : Z * N, Z.gtb a.1 b.1)
    (eager_from 0 (zip (DescriptorTable.entries_ D) (DescriptorTable.coldEntries_ D))) ↔
    (p, d) ∈ eager_from 0 (zip (DescriptorTable.entries_ D) (DescriptorTable.coldEntries_ D))) as Hs.
  { intros p. by rewrite (std_sort_perm _ _ _). }
  unfold eager_at, DescriptorTable.at_, DescriptorTable.coldAt. split.
  - intros [p Hp]. apply Hs, eager_from_spec in Hp as (i & x & c & Hi & -> & _ & H1 & H2 & H3 & H4).
    apply lookup_zip_with_Some in Hi as (x' & c' & [= -> ->] & Hx & Hcc).
    exists x', c'. rewrite !vat_lookup, N.add_0_l, Nat2N.id. done.
  - intros (x & c & Hx & Hcc & H1 & H2 & H3 & H4). exists (priority x).
    apply Hs, eager_from_spec. exists (N.to_nat d), x, c. rewrite vat_lookup in Hx. rewrite vat_lookup in Hcc.
    split; [|split_and!; try done; lia]. apply lookup_zip_with_Some. by exists x, c.
Qed.

(** The object of a singleton. *)
Abbreviation object_of W d := (SingletonStore.value (Runtime.singletons_ (rt W)) d) (only parsing).

Lemma instance_object W R d x : DescriptorTable.at_ (descs W) d = Some x → lifetime x = Singleton →
  instance_of (env_of H W) R (Claims.Key d nullptr) ≠ nullptr →
  SingletonStore.value (Runtime.singletons_ R) d ≠ nullptr.
Proof. intros Hx Hl. unfold instance_of. simpl. by rewrite Hx, Hl. Qed.

Lemma object_kept W W' d : running W → object_of W d ≠ nullptr → later W W' → object_of W' d ≠ nullptr.
Proof.
  intros HW Hv [_ _ _ _ [_ HX]].
  destruct (i_stored _ _ (rn_inv _ HW) d Hv) as (x & Hx & Hl).
  pose proof (x_instance _ _ _ _ HX (Claims.Key d nullptr)) as Hi.
  unfold instance_of, busy in Hi. simpl in Hi, Hx. rewrite Hx, Hl in Hi. simpl in Hi.
  rewrite Hi; [done|]. left. unfold instance_of. simpl. by rewrite Hx, Hl.
Qed.

Lemma eager_built W : running W → fuelled 0 W →
  ends never (materializeEagerSingletons H fuel) W
    (λ _ W', later W W' ∧ ∀ d, eager_at (descs W) d → object_of W' d ≠ nullptr)
    (λ _ W', later W W').
Proof.
  intros HW HF. unfold materializeEagerSingletons. eapply ends_run; [done|].
  assert (DescriptorTable.wf (descs W)) as Hwf by apply (rn_tables _ HW).
  eapply ends_mono; [apply (later_for _ (λ y W', object_of W' y.2 ≠ nullptr)); [done|done|..]| |done].
  - intros [p d] W' Hin HL.
    destruct (proj1 (eager_spec (descs W) d Hwf)) as (x & c & Hx & Hc & Hl & Ho & Hlz & Hp); [by exists p|].
    assert (running W') as HW' by apply HL.
    assert (DescriptorTable.at_ (descs W') d = Some x) as Hx'.
    { by rewrite (later_descs _ _ HL). }
    eapply ends_bind with (P := λ _ W'', later W' W'' ∧ object_of W'' d ≠ nullptr).
    2: { intros h W'' HL''. by apply ends_return. }
    apply (on_rt_ends H known HG). eapply ends_mono;
      [apply (materializeOneImpl_spec (env_of H W') (running_env HG _ HW') _ fuel (rec_keeps H fuel known HG W' HW') d x)|..].
    + done.
    + apply HW'.
    + done.
    + apply Nat.lt_le_incl, fuel_enough. by eapply later_fuelled.
    + intros h R [HR Hd]. split; [by apply later_set_rt|]. unfold designates in Hd. rewrite Hl in Hd.
      destruct Hd as [[Hb _] _]. unfold Runtime.materializationDescId, Runtime.is_primary_elsewhere in Hb.
      rewrite Hp, N.eqb_refl in Hb. cbn [negb andb] in Hb. exact (instance_object W' R d x Hx' Hl Hb).
    + intros e R HR. by apply later_set_rt.
  - intros [p d] W' W'' HW' Hv HL. by apply (object_kept W').
  - cbv beta. intros _ W' [HL Hall]. split; [done|]. intros d [p Hd]%(eager_spec _ _ Hwf). by apply (Hall (p, d)).
Qed.

(** ** The whole start, and its rollback *)

(** What a rollback may run throws nothing: the destruction hooks of the contributions and
    of the bindings, and the listeners of the two destruction phases.  The registry is
    marked stopped by then, so every resolution in them throws, which they must catch. *)
Definition quiet_hook (h : option FnPtr) : Prop :=
  ∀ f p, h = Some f → Shutdown.quiet (call_hook H f None p).

Definition quiet_callback (ph : N) (cb : N) : Prop :=
  ph = ListenerStore.phasePreDestroy ∨ ph = ListenerStore.phaseDestroyed →
  ∀ bean, Shutdown.quiet (call_listener H cb bean).

Record quiet_start (W : t) : Prop := {
  qs_described d c : DescriptorTable.coldAt (descs W) d = Some c → quiet_hook (preDestroy c);
  qs_contributed cd : cd ∈ contributions W → quiet_hook (cd_preDestroy cd);
  qs_bound pb : pb ∈ Startup.pendingRuntimeSingletons_ (reg W) → quiet_hook (Startup.p_preDestroy pb);
  qs_listeners : ListenerStore.heard quiet_callback (listeners_ W);
  qs_deferred d : deferred_in W d → quiet_callback (df_phaseIndex d) (df_callback d)
}.

(** [W'] is [V] after a rollback: each stored singleton got its destruction, in reverse
    order of construction, then each prototype that was alive; nothing is stored. *)
Definition taken_back (V W' : t) : Prop := ∃ swept,
  Runtime.trace (rt W') = Runtime.trace (rt V) ++
    ((Shutdown.stored_beans (reverse (SingletonStore.insertionOrder (Runtime.singletons_ (rt V)))) (rt V)
      ++ swept) ≫= Shutdown.death_of (env_of H V)) ∧
  PrototypeStore.created (Runtime.prototypes_ (rt V)) ≡ₚ
    PrototypeStore.destroyed (Runtime.prototypes_ (rt V)) ++ swept ∧
  PrototypeStore.created (Runtime.prototypes_ (rt W')) = PrototypeStore.created (Runtime.prototypes_ (rt V)) ∧
  ∀ d, object_of W' d = nullptr.

Lemma rollback_run V : running V → Shutdown.quiet_env (env_of H V) → fuel ≠ O →
  PrototypeStore.pending (Runtime.prototypes_ (rt V)) = ∅ →
  ∃ W', rollbackFailedStart H fuel V = (Ok tt, W') ∧ Startup.started_ (reg W') = false ∧
    taken_back V W'.
Proof.
  intros HV HQ Hf Hp. set (V1 := set_reg (set_startLifecycle [] (reg V)) V).
  assert (later V V1) as HL by by apply later_reg.
  assert (running V1) as HV1 by apply HL.
  destruct fuel as [|f] eqn:Ef; [done|].
  destruct (Shutdown.stopRegistryOwnedBeans_run (env_of H V1) f (rt V1) (running_env HG _ HV1))
    as (X & swept & Hrun & Hc & Hperm).
  { exact HQ. }
  { apply HV1. } { apply HV1. } { exact Hp. }
  eexists. split; [|split].
  - unfold rollbackFailedStart. unfold mbind_ at 1, upd_reg at 1, mupd at 1. fold V1.
    unfold mbind_ at 1, mupd at 1.
    assert (set_rt (Runtime.set_claims (Claims.with_materializing [] (Runtime.claims (rt V1))) (rt V1)) V1 = V1)
      as ->.
    { assert (Claims.with_materializing [] (Runtime.claims (rt V1)) = Runtime.claims (rt V1)) as ->.
      { pose proof (rn_claims _ HV1) as Hm. destruct (Runtime.claims (rt V1)). simpl in *. by rewrite Hm. }
      destruct V1 as [? [] ? ? ? ? ? ?]. done. }
    unfold mbind_ at 1, stopRegistryOwnedBeans at 1. unfold mbind_ at 1, on_rt at 1. rewrite Hrun.
    unfold mbind_ at 1, upd_reg at 1, mupd at 1. reflexivity.
  - done.
  - exists swept. split_and!; [done|exact Hperm|exact Hc|]. done.
Qed.

(** The tables of [W'] are those that [Registry::start] made of the registry of [W]. *)
Definition translates (root : ptr) (W W' : t) : Prop := ∃ R',
  Startup.start (noop H) (contextTypeInfo H) (contextAlign H) root (registry W) = (Ok tt, R') ∧
  Startup.tables_ (reg W') = Startup.tables_ R'.

(** The registry opens, or the start is refused. *)
Lemma registry_opens root W : unopened W → root ≠ nullptr →
  ends never (on_reg (Startup.start (noop H) (contextTypeInfo H) (contextAlign H) root)) W
    (λ _ W1, running W1 ∧ fuelled 0 W1 ∧ foreign W1 (Startup.beanContextDescId_ (reg W1)) ∧
       (∀ b, b ∈ Startup.startLifecyclePending_ (reg W1) → foreign W1 (Startup.sb_descId b)) ∧
       PrototypeStore.pending (Runtime.prototypes_ (rt W1)) = ∅ ∧
       deferredListeners_ W1 = deferredListeners_ W ∧ scopes_ W1 = scopes_ W ∧
       objects_ W1 = objects_ W ∧ listeners_ W1 = listeners_ W ∧ translates root W W1)
    (λ e W1, StartupFacts.is_config e ∧ Startup.started_ (reg W1) = false ∧
       Runtime.trace (rt W1) = []).
Proof.
  intros HW Hr. pose proof (Started.start_spec (noop H) (contextTypeInfo H) (contextAlign H) root
    (registry W) (uo_unstarted _ HW) (uo_room _ HW) Hr) as Hs.
  unfold ends, on_reg in *.
  destruct (Startup.start _ _ _ root (registry W)) as [[[]|e| | |] R'] eqn:Hrun; [|by destruct Hs as (? & ? & _);
    split_and!; [..|apply (Ready.id_trace _ _ _ (uo_idle _ HW))]|done..].
  destruct Hs as (Hac & bound & T & ty & T1 & T2 & HO & _).
  fold (opened_world R' W). split_and!; try done.
  - by eapply opened_running.
  - by eapply opened_fuelled.
  - by eapply opened_context.
  - by eapply opened_bindings.
  - simpl. by rewrite (Ready.id_protos _ _ _ (uo_idle _ HW)).
  - by exists R'.
Qed.

(** The [try] block: what a failure leaves is a running context, or a refused start. *)
Definition failed (e : exn) (V : t) : Prop :=
  (StartupFacts.is_config e ∧ Startup.started_ (reg V) = false ∧ Runtime.trace (rt V) = []) ∨
  (running V ∧ Shutdown.quiet_env (env_of H V) ∧
   PrototypeStore.pending (Runtime.prototypes_ (rt V)) = ∅).

Lemma later_pending V V' : later V V' → PrototypeStore.pending (Runtime.prototypes_ (rt V)) = ∅ →
  PrototypeStore.pending (Runtime.prototypes_ (rt V')) = ∅.
Proof. intros [_ _ _ _ [_ HX]] <-. exact (x_pending _ _ _ _ HX). Qed.

Lemma later_failed V V' e : later V V' → Shutdown.quiet_env (env_of H V) →
  PrototypeStore.pending (Runtime.prototypes_ (rt V)) = ∅ → failed e V'.
Proof.
  intros HL HQ Hp. right. split; [apply HL|]. split; [by rewrite (lt_env _ _ HL)|by eapply later_pending].
Qed.

(** The destructions that may come, once the registry is open and the listeners are in. *)
Lemma opened_quiet root W W1 W3 : unopened W → root ≠ nullptr → quiet_start W → translates root W W1 →
  listeners_ W1 = listeners_ W → deferredListeners_ W1 = deferredListeners_ W → objects_ W1 = objects_ W →
  flushed W1 W3 → Shutdown.quiet_env (env_of H W3).
Proof.
  intros HW Hr HQ (R' & Hrun & Htab) Hli Hdef Hob F. split.
  - intros d c f p Hc Hf. simpl in Hc. rewrite (fl_reg _ _ F), Htab in Hc.
    destruct (Opened.start_opened _ _ _ root (registry W) R' (uo_unstarted _ HW) (uo_room _ HW) Hr Hrun)
      as (_ & bound & T & ty & T1 & T2 & O & _).
    destruct (Opened.final_hooks _ _ _ _ _ _ _ _ _ _ _ O d c f Hc Hf)
      as [(d0 & c0 & Hc0 & Hf0)|[(cd & Hcd & Hf0)|(pb & Hpb & Hf0)]].
    + by apply (qs_described _ HQ d0 c0).
    + by apply (qs_contributed _ HQ cd).
    + by apply (qs_bound _ HQ pb).
  - intros ph ty em cbs bean Hph Hd. assert (ListenerStore.heard quiet_callback (listeners_ W3)) as Hh.
    { apply (fl_heard _ _ F); [rewrite Hli; apply HQ|]. unfold deferred_in. rewrite Hdef, Hob. apply HQ. }
    eapply Forall_impl; [exact (ListenerStore.heard_dispatch _ _ _ _ _ _ Hh Hd)|].
    intros cb Hcb. by apply Hcb.
Qed.

(** The flushes, once the registry is open. *)
Lemma flushes_run W W1 : unopened W → running W1 → deferredListeners_ W1 = deferredListeners_ W →
  scopes_ W1 = scopes_ W → objects_ W1 = objects_ W →
  ∃ W3, flushed W1 W3 ∧ ∀ B (k : M t B),
    (do! flushDeferredListeners_ None in
     let! V := mget in
     do! mfor (λ sc, flushDeferredListeners_ (Some sc)) (scope_order H (scopes_ V)) in k) W1 = k W3.
Proof.
  intros HW HW1 Hdef Hsc Hob.
  destruct (flush_runs None W1 HW1) as (W2 & R2 & F2).
  { simpl. rewrite Hdef. apply HW. }
  destruct (flush_scopes_run (scope_order H (scopes_ W2)) W2) as (W3 & R3 & F3); [apply F2| |].
  { intros sc (key & Hk)%Horder. rewrite (fl_scopes _ _ F2), Hsc in Hk.
    destruct (uo_scopes _ HW key sc Hk) as [o Ho].
    destruct (fl_live _ _ F2 sc) as [o2 Ho2]; [by rewrite Hob; exists o|].
    exists o2. split; [done|]. intros d Hd.
    destruct (fl_deferred _ _ F2 sc o2 d Ho2 Hd) as (o1 & Ho1 & Hd1). rewrite Hob in Ho1.
    by apply (wt_deferred _ _ _ (uo_waiting _ HW sc o1 Ho1)). }
  exists W3. split; [by eapply flushed_trans|]. intros B k.
  unfold mbind_ at 1. rewrite R2. unfold mbind_ at 1, mget at 1. unfold mbind_ at 1. by rewrite R3.
Qed.

Lemma start_body_runs root W : unopened W → root ≠ nullptr → quiet_start W →
  ends never (start_body H fuel root) W
    (λ _ W', running W' ∧ Startup.pending_ (reg W') = [] ∧
       (∀ d, eager_at (descs W') d → object_of W' d ≠ nullptr) ∧ translates root W W')
    failed.
Proof.
  intros HW Hr HQ. unfold start_body. eapply ends_bind.
  { eapply ends_mono; [by apply registry_opens| |].
    - intros a W1 HP. exact HP.
    - intros e W1 HX. by left. }
  cbv beta. intros _ W1 (HW1 & HF1 & Hctx & Hb & Hpend & Hdef & Hsc & Hob & Hli & Htr).
  pose proof Htr as (R' & HR' & Htab).
  destruct (flushes_run W W1 HW HW1 Hdef Hsc Hob) as (W3 & F & Hrun).
  pose proof (opened_quiet root W W1 W3 HW Hr HQ Htr Hli Hdef Hob F) as HQ3.
  unfold ends. rewrite Hrun. clear Hrun Hdef Hsc Hob Htr Hli.
  assert (running W3) as HW3 by apply F.
  assert (fuelled 0 W3) as HF3.
  { unfold Service.fuelled in *. by rewrite (fl_reg _ _ F), (fl_size _ _ F). }
  assert (∀ d, foreign W1 d → foreign W3 d) as Hfor.
  { intros d (c & Hc & Ho). exists c. by rewrite (fl_reg _ _ F). }
  rewrite <-(fl_reg _ _ F) in Hctx, Hb. rewrite <-(fl_rt _ _ F) in Hpend. clear HF1 HW1.
  rewrite <-(fl_reg _ _ F) in Htab.
  change (ends never (
    do! dispatchBeanContextStartLifecycle H fuel in
    do! dispatchBoundSingletonLifecycle H fuel in
    do! materializeEagerSingletons H fuel in completeStart) W3
    (λ _ W', running W' ∧ Startup.pending_ (reg W') = [] ∧
       (∀ d, eager_at (descs W') d → object_of W' d ≠ nullptr) ∧ translates root W W') failed).
  eapply ends_bind.
  { eapply ends_mono; [apply context_announced; [done|done|by apply Hfor]| |].
    - intros a V HV. exact HV.
    - intros e V HV. exact (later_failed W3 V e HV HQ3 Hpend). }
  cbv beta. intros _ W4 [L4 Hsl]. eapply ends_bind.
  { eapply ends_mono; [apply (bindings_announced W4); [apply L4|by eapply later_fuelled|]| |].
    - rewrite Hsl. intros b Hin. eapply foreign_later; [exact L4|]. by apply Hfor, Hb.
    - intros a V HV. exact (later_trans _ _ _ L4 HV).
    - intros e V HV. apply (later_failed W3); [exact (later_trans _ _ _ L4 HV)|done|done]. }
  cbv beta. intros _ W5 L5. eapply ends_bind.
  { eapply ends_mono; [apply (eager_built W5); [apply L5|by eapply later_fuelled]| |].
    - intros a V HV. exact HV.
    - intros e V HV. apply (later_failed W3); [exact (later_trans _ _ _ L5 HV)|done|done]. }
  cbv beta. intros _ W6 [L6 He]. apply ends_upd.
  assert (later W6 (set_reg (set_pending [] (reg W6)) W6)) as L7 by by apply later_reg; [apply L6|..].
  split_and!; [apply L7|done| |].
  - intros d Hd. apply He. by rewrite <-(later_descs _ _ L6).
  - exists R'. split; [done|]. by rewrite (lt_tables _ _ L7), (lt_tables _ _ L6), (lt_tables _ _ L5).
Qed.

(** How [start] ends. *)
Lemma start_ends (root : ptr) (W : t) : unopened W → root ≠ nullptr → quiet_start W →
  match start H fuel root W with
  | (Ok _, W') => running W' ∧ Startup.pending_ (reg W') = [] ∧
      (∀ d, eager_at (descs W') d → object_of W' d ≠ nullptr) ∧ translates root W W'
  | (Throw e, W') => Startup.started_ (reg W') = false ∧
      ((StartupFacts.is_config e ∧ Runtime.trace (rt W') = []) ∨
       ∃ V, running V ∧ taken_back V W')
  | _ => False
  end.
Proof.
  intros HW Hr HQ. pose proof (start_body_runs root W HW Hr HQ) as Hb. unfold start, mcatch, ends in *.
  destruct (start_body H fuel root W) as [[a|e| | |] V]; [exact Hb| |done..].
  unfold mbind_ at 1. destruct Hb as [(Hc & Hs & Ht)|(HV & HQV & Hp)].
  - assert (Hrun : ∃ W', rollbackFailedStart H fuel V = (Ok tt, W') ∧ Startup.started_ (reg W') = false ∧
      Runtime.trace (rt W') = []).
    { unfold rollbackFailedStart, mbind_, upd_reg, mupd, stopRegistryOwnedBeans, on_rt, mbind_.
      unfold Runtime.stopRegistryOwnedBeans. cbn [env_of Runtime.started_ reg set_rt set_reg
        set_startLifecycle Startup.started_]. rewrite Hs. cbn [negb mreturn].
      eexists. split; [reflexivity|]. by split. }
    destruct Hrun as (W' & Hrun & Hst & Htr). rewrite Hrun. split; [exact Hst|]. by left.
  - destruct (rollback_run V HV HQV) as (W' & Hrun & Hst & Hback); [|done|].
    { intros Hz. pose proof (uo_fuel _ HW). lia. }
    rewrite Hrun. split; [done|]. right. by exists V.
Qed.


(** The [start] that succeeds, for the theorems about what follows. *)
Lemma start_running root W W' : unopened W → root ≠ nullptr → quiet_start W →
  start H fuel root W = (Ok tt, W') → running W'.
Proof.
  intros HW Hr HQ. pose proof (start_body_runs root W HW Hr HQ) as Hb. unfold start, mcatch, ends in *.
  destruct (start_body H fuel root W) as [[[]|e| | |] V]; try done.
  - intros [= <-]. apply Hb.
  - unfold mbind_. by destruct (rollbackFailedStart H fuel V) as [[[]|e'| | |] V'].
Qed.

End starting.

(** ** Witnesses *)

Lemma sample_host : host_good SampleWorld.host ∅.
Proof.
  split; try done.
  - by exists 1000.
  - intros f sc p. simpl. unfold SampleWorld.constructor. by case_match.
Qed.

Lemma sample_order m sc : sc ∈ scope_order SampleWorld.host m → ∃ k, m !! k = Some sc.
Proof.
  simpl. intros ([k v] & -> & Hk)%list_elem_of_fmap. exists k. by apply elem_of_map_to_list in Hk.
Qed.

Lemma fresh_unopened R fuel : Started.unstarted R → Started.enough_room R →
  Ready.generated (mjoin (Startup.pending_ R)) → Ready.only_sessions R →
  (N.to_nat (DescriptorTable.size (Startup.descriptors_ (Startup.tables_ R)) +
     nlen (mjoin (Startup.pending_ R)) + nlen (Startup.pendingRuntimeSingletons_ R) + 1) < fuel)%nat →
  unopened SampleWorld.host fuel ∅ (SampleWorld.fresh R).
Proof.
  intros H1 H2 H3 H4 H5.
  assert (registry (SampleWorld.fresh R) = R) as HR by by destruct R.
  split; rewrite ?HR; try done.
  - apply ListenerStore.usable_empty.
  - by intros d ?%not_elem_of_nil.
  - split; [exists ∅; apply ScopeTable.holds_empty|]. intros n Hn.
    by rewrite ScopeTable.findScope_empty in Hn.
  - simpl. rewrite map_size_empty. lia.
Qed.

Lemma eager_unopened b : unopened SampleWorld.host 15 ∅
  (SampleWorld.fresh (SampleStart.registry (SampleWorld.eager_units b))).
Proof.
  apply fresh_unopened.
  - apply SampleStart.registry_unstarted.
  - by destruct b.
  - assert (Forall (λ cd, cd_origin cd ≠ RuntimeBinding ∧ StartupFacts.alias_ref cd = None)
      (mjoin (Startup.pending_ (SampleStart.registry (SampleWorld.eager_units b))))) as Hall.
    { destruct b; repeat (apply Forall_cons; split; [done|]); by apply Forall_nil. }
    rewrite Forall_forall in Hall. split.
    + intros cd Hcd. by apply (Hall cd Hcd).
    + intros cd cd' Hcd _ Ha. destruct (Hall cd Hcd). congruence.
  - intros i x Hx. apply vat_lt in Hx. by apply N.nlt_0_r in Hx.
  - destruct b; vm_compute; lia.
Qed.

(** The sample program throws nothing from its destructions. *)
Lemma fresh_quiet R : quiet_start SampleWorld.host (SampleWorld.fresh R).
Proof.
  split; [by intros|by intros|by intros|apply ListenerStore.heard_empty|].
  intros d [Hd|(sc & o & Ho & _)]; [by apply not_elem_of_nil in Hd|].
  change (objects_ (SampleWorld.fresh R)) with (∅ : gmap ptr ScopeObject) in Ho. by rewrite lookup_empty in Ho.
Qed.

Lemma app_running : running SampleWorld.host ∅ SampleWorld.app.
Proof.
  apply (start_running SampleWorld.host 15 ∅ sample_host sample_order) with (root := 300)
    (W := SampleWorld.fresh SampleStart.discovered); [|done|apply fresh_quiet|].
  - apply fresh_unopened; [apply SampleStart.discovered_unstarted|apply SampleStart.discovered_room|
      apply Ready.discovered_generated|apply Ready.discovered_sessions|vm_compute; lia].
  - unfold SampleWorld.app, SampleWorld.launch.
    assert ((start SampleWorld.host 15 300 (SampleWorld.fresh SampleStart.discovered)).1 = Ok tt) as Ho
      by (vm_compute; reflexivity).
    destruct (start SampleWorld.host 15 300 _) as [o W']. simpl in *. by rewrite Ho.
Qed.


End Starting.
