(* ===== verification/Serving.v ===== *)
(** The operations of a started context, one by one: what each answers, and that it keeps
    the invariant of [Service]; then any sequence of them. *)
From S2P Require Import Prelude Tables Interning Index Stores Startup StartupFacts Started SampleStart Opened Freelist Prototypes Listeners Claims Handles Casts Caches Runtime RuntimeFacts Sample Resolution Shutdown Ready World SampleWorld Contexts Living Service Access Sweep Holding Starting.

Local Open Scope N_scope.

Module Serving.
Import World RuntimeFacts Living Service.
Local Open Scope ctr_scope.
#[local] Existing Instance Runtime.ScopeState_eq_dec.

Section serving.
Context `{SS : StdSort} (H : host) (fuel : nat) (known : gset ptr).
Hypothesis HG : host_good H known.
Abbreviation running := (running H known).
Abbreviation fuelled := (fuelled fuel).
Abbreviation room := (room fuel).
Abbreviation handles W := (PrototypeStore.handles (Runtime.prototypes_ (rt W))) (only parsing).

(** ** [bindSingleton] *)

Abbreviation priority_in W := (Startup.priority_at (descs W)) (only parsing).

(** The index answers for the descriptors: candidates sorted, heads and ties up to date. *)
Definition answers (W : t) : Prop :=
  TypeIndex.settled (priority_in W) (StartupFacts.keys (descs W)) (index W).

(** [W'] is [W] with one more runtime binding, [x] and [c]. *)
Record adds (W W' : t) (x : Descriptor) (c : DescriptorCold) : Prop := {
  ad_descriptor : extended (descs W) (descs W') x c;
  ad_answers : answers W'
}.

(** The descriptor and its candidate, in the order the code adds them. *)
Lemma append_resort W d c : tables_ok (descs W) (index W) →
  DescriptorTable.size (descs W) + 1 < kInvalidDescriptorId →
  let id := DescriptorTable.size (descs W) in
  ∃ D', append_primary d c (Startup.tables_ (reg W)) =
      (Ok id, Startup.set_descriptors D' (Startup.tables_ (reg W))) ∧
    extended (descs W) D' (set_primaryDescriptor id d) c ∧
    let I' := TypeIndex.updateSingleUnnamed (exposedType c)
      (TypeIndex.sortAllCandidates (Startup.priority_at D')
         (TypeIndex.insertCandidate (exposedType c) (name c) id (index W))) in
    TypeIndex.lists (StartupFacts.keys D') I' ∧
    TypeIndex.settled (Startup.priority_at D') (StartupFacts.keys D') I'.
Proof.
  intros HT Hsz id.
  destruct (append_extended d c (descs W)) as (D1 & HD1 & D' & HD' & HX).
  { apply HT. } { unfold kInvalidDescriptorId, two32 in *. lia. }
  exists D'. unfold append_primary. rewrite HD1, HD'. split; [done|]. split; [done|].
  rewrite (xt_keys _ _ _ _ HX). apply TypeIndex.lists_resort, TypeIndex.lists_insert, HT.
Qed.

Abbreviation singleton_hot W prio :=
  (set_primaryDescriptor (DescriptorTable.size (descs W)) (Startup.runtime_hot prio)) (only parsing).
Abbreviation singleton_cold T object n prio ty :=
  (Startup.bound_cold (noop H) (binding_of T object n prio) ty) (only parsing).

(** The context with the new singleton, before it is announced. *)
Lemma singleton_added W T object n prio ty : running W →
  DescriptorTable.size (descs W) + 1 < kInvalidDescriptorId → object ≠ nullptr →
  ∃ W', (∀ k : DescriptorId → M t Handle.Bean,
      mbind_ (on_reg (Startup.on_tables (append_primary (Startup.runtime_hot prio)
        (singleton_cold T object n prio ty)))) (λ id,
      do! grow_and_store id object in
      do! on_reg (Startup.on_tables (insert_candidate ty n id)) in
      do! on_reg (Startup.on_tables (resort ty)) in
      k id) W = k (DescriptorTable.size (descs W)) W') ∧
    running W' ∧ adds W W' (singleton_hot W prio) (singleton_cold T object n prio ty) ∧
    objects_ W' = objects_ W ∧ names W' = names W ∧
    SingletonStore.value (Runtime.singletons_ (rt W')) (DescriptorTable.size (descs W)) = object.
Proof.
  intros HW Hsz Hp. set (id := DescriptorTable.size (descs W)).
  destruct (append_resort W (Startup.runtime_hot prio) (singleton_cold T object n prio ty)
    (rn_tables _ HW) Hsz) as (D' & Ha & HX & HL & HS).
  assert (SingletonStore.value (Runtime.singletons_ (rt W)) id = nullptr) as Hnull.
  { destruct (decide (SingletonStore.value (Runtime.singletons_ (rt W)) id = nullptr)) as [|Hv]; [done|].
    destruct (i_stored _ _ (rn_inv _ HW) id Hv) as (y & Hy & _). apply vat_lt in Hy. simpl in Hy.
    unfold id, DescriptorTable.size in Hy. lia. }
  destruct (SingletonStore.growAndStore_spec id object (Runtime.singletons_ (rt W))
    (i_singletons _ _ (rn_inv _ HW)) Hnull Hp) as (st & Hst & Hwf & _ & _ & Hv).
  eexists. split.
  { intros k. unfold mbind_ at 1. rewrite on_tables_run, Ha. cbn [fst snd].
    unfold mbind_ at 1, grow_and_store at 1. cbn [rt with_tables set_reg]. fold id. rewrite Hst.
    unfold mbind_ at 1. rewrite on_tables_run. cbn [fst snd insert_candidate].
    unfold mbind_ at 1. rewrite on_tables_run. cbn [fst snd resort]. reflexivity. }
  split; [|split; [split|]]; [| |exact HS|].
  - apply (running_extended HG W _ (singleton_hot W prio) (singleton_cold T object n prio ty) st
      (Startup.priority_at D')); try done.
    + unfold Runtime.is_primary_elsewhere, set_primaryDescriptor. simpl. by rewrite N.eqb_refl.
    + left. split_and!; [done..|]. by exists object.
  - exact HX.
  - split_and!; [done..|]. simpl. by rewrite Hv, decide_True.
Qed.

(** A free key in a started registry. *)
Definition taken (W : t) (ty : TypeId) (n : NameId) (prio : Z) : bool :=
  Startup.candidateKeyExists (descs W) ty n prio.

Lemma not_kept_bound E' d x c sc : DescriptorTable.at_ (Runtime.descriptors_ E') d = Some x →
  DescriptorTable.coldAt (Runtime.descriptors_ E') d = Some c → origin c = RuntimeBinding →
  ∀ c', ¬ kept E' (Claims.Key d sc) c'.
Proof. intros Hx Hc Ho c' (y & _ & Hc' & _ & Ho'). simpl in *. congruence. Qed.

(** What run-time code leaves of a context: everything that is not in [rt], the bound
    objects included. *)
Lemma adds_good W W' R x c : adds W W' x c → adds W (set_rt R W') x c.
Proof. intros [H1 H2]. by split. Qed.

Lemma value_kept W R d x : DescriptorTable.at_ (descs W) d = Some x → lifetime x = Singleton →
  good (env_of H W) (rt W) R → SingletonStore.value (Runtime.singletons_ (rt W)) d ≠ nullptr →
  SingletonStore.value (Runtime.singletons_ R) d =
  SingletonStore.value (Runtime.singletons_ (rt W)) d.
Proof.
  intros Hx Hl [_ HX] Hv. pose proof (x_instance _ _ _ _ HX (Claims.Key d nullptr)) as Hi.
  unfold instance_of, busy in Hi. simpl in Hi. rewrite Hx, Hl in Hi. simpl in Hi.
  apply Hi. left. unfold instance_of. simpl. by rewrite Hx, Hl.
Qed.

(** The branches of [registry_bindSingleton] in a started registry. *)
Lemma registry_bind_spec W T object n prio : running W →
  DescriptorTable.size (descs W) + 1 < kInvalidDescriptorId → fuelled 1 W →
  object ≠ nullptr → is_Some (NameInterning.nameOf (names W) n) →
  let bean := Handle.makeDirect object kInvalidSlotId (DescriptorTable.size (descs W)) (registryId H) in
  let post W' := running W' ∧ names W' = names W ∧ objects_ W' = objects_ W ∧
    adds W W' (singleton_hot W prio) (singleton_cold T object n prio
      (adopted T W)) ∧
    SingletonStore.value (Runtime.singletons_ (rt W')) (DescriptorTable.size (descs W)) = object in
  if bt_isContext T then registry_bindSingleton H fuel T object n prio W = (Throw context_bind_error, W)
  else if taken W (adopted T W) n prio then
    ∃ boundName W', NameInterning.nameOf (names W) n = Some boundName ∧
      registry_bindSingleton H fuel T object n prio W =
        (Throw (exists_error (bt_name T) boundName), W') ∧
      running W' ∧ descs W' = descs W ∧ index W' = index W ∧ names W' = names W ∧
      objects_ W' = objects_ W ∧ rt W' = rt W
  else ends never (registry_bindSingleton H fuel T object n prio) W
    (λ b W', b = bean ∧ post W') (λ _ W', post W').
Proof.
  intros HW Hsz HF Hp [nm Hnm] bean post.
  destruct (bt_isContext T) eqn:Hctx; [by unfold registry_bindSingleton; rewrite Hctx|].
  destruct (adopt_runs HG T W HW) as (ty & ti & Hty & HW1).
  assert (adopted T W = ty) as Had by by unfold adopted; rewrite Hty.
  rewrite Had in *.
  set (W1 := with_tables (Startup.set_typeInterning ti (Startup.tables_ (reg W))) W) in *.
  assert (∀ k : TypeId → M t Handle.Bean,
    mbind_ (on_reg (Startup.on_tables (adopt_type T))) k W = k ty W1) as Hk.
  { intros k. unfold mbind_. by rewrite on_tables_run, Hty. }
  destruct (taken W ty n prio) eqn:Ht.
  - exists nm, W1. split; [done|]. split; [|by split_and!].
    unfold registry_bindSingleton. rewrite Hctx.
    unfold mbind_ at 1, mget at 1. rewrite (rn_started _ HW), Hk.
    unfold mbind_ at 1, mget at 1. change (descs W1) with (descs W).
    unfold taken in Ht. rewrite Ht. change (names W1) with (names W). by rewrite Hnm.
  - destruct (singleton_added W1 T object n prio ty HW1 Hsz Hp)
      as (W2 & Hrun & HW2 & HA & Ho & Hn & Hv).
    assert (registry_bindSingleton H fuel T object n prio W =
      (do! announce H fuel (Claims.Key (DescriptorTable.size (descs W)) nullptr) ty object
         ListenerStore.kNoScope in mreturn bean) W2) as Heq.
    { unfold registry_bindSingleton. rewrite Hctx.
      unfold mbind_ at 1, mget at 1. rewrite (rn_started _ HW), Hk.
      unfold mbind_ at 1, mget at 1. change (descs W1) with (descs W).
      unfold taken in Ht. rewrite Ht. change (Claims.materializing_ (Runtime.claims (rt W1)))
        with (Claims.materializing_ (Runtime.claims (rt W))).
      rewrite (rn_claims _ HW). cbn [conflicting]. unfold mbind_ at 1, mlift at 1.
      exact (Hrun (λ id, do! announce H fuel (Claims.Key id nullptr) ty object
        ListenerStore.kNoScope in
        mreturn (Handle.makeDirect object kInvalidSlotId id (registryId H)))). }
    unfold ends. rewrite Heq.
    assert (fuelled 0 W2) as HF2.
    { unfold fuelled in *. rewrite (xt_size _ _ _ _ (ad_descriptor _ _ _ _ HA)), Ho.
      change (descs W1) with (descs W). change (objects_ W1) with (objects_ W). by rewrite N.add_0_r. }
    destruct HA as [HX HS]. change (descs W1) with (descs W) in *.
    assert (∀ i, i = DescriptorTable.size (descs W) →
      DescriptorTable.at_ (descs W2) i = Some (singleton_hot W prio) ∧
      DescriptorTable.coldAt (descs W2) i = Some (singleton_cold T object n prio ty)) as Hnew.
    { intros i ->. by rewrite (xt_at _ _ _ _ HX), (xt_cold _ _ _ _ HX), !decide_True. }
    destruct (Hnew _ eq_refl) as [Hx Hc].
    assert (∀ W', (running W' ∧ ∃ R, good (env_of H W2) (rt W2) R ∧ W' = set_rt R W2) → post W') as Hpost.
    { intros W' (HW' & R & HR & ->). split_and!; [done|exact Hn|exact Ho|split; [rewrite Had; exact HX|exact HS]|].
      simpl. rewrite (value_kept W2 R _ _ Hx); [done..|]. by rewrite Hv. }
    change (ends never (do! announce H fuel (Claims.Key (DescriptorTable.size (descs W)) nullptr) ty
      object ListenerStore.kNoScope in mreturn bean) W2 (λ b W', b = bean ∧ post W') (λ _ W', post W')).
    eapply ends_bind.
    + eapply ends_mono; [apply (announce_runs HG W2); try done|by intros ? W' HW'%Hpost; exact HW'|].
      * by eapply not_kept_bound.
      * intros e W' HW'. by apply Hpost.
    + cbv beta. intros _ W' HW'. by apply ends_return.
Qed.

Lemma adopted_names T N W : adopted T (Contexts.with_names N W) = adopted T W.
Proof.
  unfold adopted, adopt_type, Startup.internByName. simpl.
  destruct (_ =? kInvalidTypeId); [|done]. by destruct (TypeInterning.internByName _ _ _).
Qed.

(** The context with a name interned: only the names differ. *)
Lemma interned W nm : running W → NameInterning.size (names W) < kThreadLocalSentinel - 1 → ∃ n W1,
  internNameSafe nm W = (Ok n, W1) ∧ running W1 ∧ NameInterning.nameOf (names W1) n = Some nm ∧
  n < two32 ∧ descs W1 = descs W ∧ index W1 = index W ∧ rt W1 = rt W ∧ objects_ W1 = objects_ W ∧
  (∀ T, adopted T W1 = adopted T W) ∧ scopeChunks_ W1 = scopeChunks_ W ∧ scopes_ W1 = scopes_ W.
Proof.
  intros HW Hr. destruct (intern_runs HG W nm HW Hr) as (n & W1 & Hi & HW1 & Hn & Hlt & T & HT).
  exists n, W1. split; [done|]. split; [done|]. split; [done|]. split; [done|].
  destruct HT as [-> | ->]; (split_and!; [done..| |done|done]).
  - intros T0. apply adopted_names.
  - done.
Qed.

Lemma room_interned W W1 : room W → descs W1 = descs W → objects_ W1 = objects_ W →
  DescriptorTable.size (descs W1) + 1 < kInvalidDescriptorId ∧ fuelled 1 W1.
Proof. intros [H1 _ H3] HD Ho. unfold Service.fuelled in *. by rewrite HD, Ho. Qed.

(** What a successful binding leaves, and one of which a listener threw an exception: the
    object is stored under a new descriptor and the index answers for it. *)
Record bound_singleton (W W' : t) (ty : TypeId) (n : NameId) (prio : Z) (object : ptr) : Prop := {
  bs_running : running W';
  bs_objects : objects_ W' = objects_ W;
  bs_descriptor : ∃ x c, extended (descs W) (descs W') x c ∧ exposedType c = ty ∧ name c = n ∧
    priority x = prio ∧ lifetime x = Singleton ∧ origin c = RuntimeBinding;
  bs_object : SingletonStore.value (Runtime.singletons_ (rt W')) (DescriptorTable.size (descs W)) = object;
  bs_selects i ty' n' : Resolution.flags_ok (env_of H W') i →
    Runtime.selectCandidate (env_of H W') i ty' n' =
      Resolution.reference_select (priority_in W') (StartupFacts.keys (descs W')) ty'
        (Resolution.reference_name (env_of H W') i ty' n')
}.

Lemma answers_selects W i ty n : running W → answers W → Resolution.flags_ok (env_of H W) i →
  Runtime.selectCandidate (env_of H W) i ty n =
    Resolution.reference_select (priority_in W) (StartupFacts.keys (descs W)) ty
      (Resolution.reference_name (env_of H W) i ty n).
Proof.
  intros HW HA Hf. unfold Runtime.selectCandidate.
  rewrite Resolution.effectiveName_reference by done.
  apply (Resolution.select_settled (priority_in W) (env_of H W)); [exact HA|].
  apply Forall_forall. intros [[a b] d] Hd. simpl.
  assert (d ∈ TypeIndex.registered (StartupFacts.keys (descs W)) a b) as Hd'.
  { unfold TypeIndex.registered. apply list_elem_of_fmap. exists (a, b, d).
    split; [done|]. by apply list_elem_of_filter. }
  pose proof (rn_tables _ HW) as HT. apply keys_elem in Hd'; [|apply HT].
  pose proof (tk_size _ _ HT). lia.
Qed.

(** [BeanContext::bindSingleton] *)
Lemma bindSingleton_spec W T object bindName prio : running W → room W → object ≠ nullptr →
  ∃ n W1, internNameSafe bindName W = (Ok n, W1) ∧ running W1 ∧
  if bt_isContext T then
    bindSingleton H fuel T object bindName prio W = (Throw context_bind_error, W1)
  else if taken W (adopted T W) n prio then
    ∃ W', bindSingleton H fuel T object bindName prio W =
        (Throw (exists_error (bt_name T) bindName), W') ∧ running W' ∧
      descs W' = descs W ∧ index W' = index W ∧ objects_ W' = objects_ W ∧ rt W' = rt W
  else
    let post W' := bound_singleton W W' (adopted T W) n prio object in
    ends never (bindSingleton H fuel T object bindName prio) W (λ _ W', post W') (λ _ W', post W').
Proof.
  intros HW HR Hp. destruct (interned W bindName HW (rm_names _ _ HR))
    as (n & W1 & Hi & HW1 & Hn & Hlt & HD & HI & Hrt & Ho & Had & _ & _).
  exists n, W1. split; [done|]. split; [done|].
  destruct (room_interned W W1 HR HD Ho) as [Hsz HF].
  pose proof (registry_bind_spec W1 T object n prio HW1 Hsz HF Hp (mk_is_Some _ _ Hn)) as Hspec.
  assert (∀ k : NameId → M t unit, (let! n := internNameSafe bindName in k n) W = k n W1) as Hk.
  { intros k. unfold mbind_. by rewrite Hi. }
  cbv zeta in Hspec. rewrite Had in Hspec. unfold bindSingleton.
  destruct (bt_isContext T); [rewrite Hk; unfold mbind_; by rewrite Hspec|].
  assert (taken W1 (adopted T W) n prio = taken W (adopted T W) n prio) as Ht by by unfold taken; rewrite HD.
  rewrite Ht in Hspec. destruct (taken W _ n prio).
  - destruct Hspec as (b & W' & Hb & Heq & HW' & HD' & HI' & _ & Ho' & Hrt').
    rewrite Hn in Hb. injection Hb as <-. exists W'. rewrite Hk. unfold mbind_ at 1.
    rewrite Heq. split_and!; [done|done|congruence..].
  - set (post := λ W', bound_singleton W W' (adopted T W) n prio object).
    unfold ends. rewrite Hk.
    change (ends never (do! registry_bindSingleton H fuel T object n prio in mreturn tt) W1
      (λ _ W', post W') (λ _ W', post W')).
    assert (∀ W', (running W' ∧ names W' = names W1 ∧ objects_ W' = objects_ W1 ∧
        adds W1 W' (singleton_hot W1 prio) (singleton_cold T object n prio (adopted T W)) ∧
        SingletonStore.value (Runtime.singletons_ (rt W')) (DescriptorTable.size (descs W1)) = object) →
      post W') as Hpost.
    { intros W' (HW' & _ & Ho' & [HX HA] & Hv). rewrite HD in HX, Hv.
      split; [done|congruence|by eexists _, _|done|].
      intros i ty' n'. by apply answers_selects. }
    eapply ends_bind with (P := λ _ W', post W');
      [eapply ends_mono; [exact Hspec|intros b W' [_ HW']; exact (Hpost W' HW')|]|].
    + intros e W' HW'. exact (Hpost W' HW').
    + intros _ W' HW'. by apply ends_return.
Qed.

(** ** The session store of a scope *)

Definition with_session (sc : ptr) (st : SessionStore.t) (W : t) : t :=
  set_rt (Runtime.set_sessions (<[sc := st]> (Runtime.sessions (rt W))) (rt W)) W.

(** A store may change at the slots of bound sessions. *)
Lemma running_session W sc o st st' : running W → objects_ W !! sc = Some o →
  Runtime.sessions (rt W) !! sc = Some st → SessionStore.wf st' →
  (∀ d x c, DescriptorTable.at_ (descs W) d = Some x → DescriptorTable.coldAt (descs W) d = Some c →
     lifetime x = Session → origin c ≠ RuntimeBinding ∨ Runtime.is_primary_elsewhere x d = true →
     InstanceArray.cur (SessionStore.instances_ st') (sessionSlot x) =
     InstanceArray.cur (SessionStore.instances_ st) (sessionSlot x)) →
  (∀ d, d ∈ SessionStore.insertionOrder st' → session_known (descs W) d) →
  (Runtime.scopeState_ (info o) ≠ Runtime.Stopped → session_ok (env_of H W) st') →
  running (with_session sc st' W).
Proof.
  intros HW Ho Hst Hwf Hcur Hkn Hok.
  assert (∀ sc', Runtime.sessions (rt (with_session sc st' W)) !! sc' =
    if decide (sc' = sc) then Some st' else Runtime.sessions (rt W) !! sc') as Hs.
  { intros sc'. simpl. case_decide; [subst; by rewrite lookup_insert_eq|by rewrite lookup_insert_ne]. }
  split; try apply HW.
  - apply (inv_transfer (env_of H W) (env_of H W) (rt W)); try done.
    + by apply (running_env HG).
    + by apply (running_env HG).
    + by apply grows_same.
    + apply HW.
    + apply (i_singletons _ _ (rn_inv _ HW)).
    + apply (i_capacity _ _ (rn_inv _ HW)).
    + intros d Hn. split; [|by intros (x & Hx & _); congruence]. intros Hv.
      destruct (i_stored _ _ (rn_inv _ HW) d Hv) as (x & Hx & _). congruence.
    + intros k c _ Hk. by left.
    + intros sc' i Hi Hne. rewrite Hs. case_decide; [|by apply (i_sessions _ _ (rn_inv _ HW) sc' i)].
      subst sc'. exists st'. split; [done|]. apply Hok. simpl in Hi. rewrite lookup_fmap, Ho in Hi.
      by injection Hi as <-.
    + intros [d sc'] x c Hx Hc Hl Hor. unfold instance_of. simpl in Hx, Hc |- *. rewrite Hx, Hl.
      specialize (Hs sc'). simpl in Hs. rewrite Hs. case_decide; [subst|done].
      rewrite Hst. by apply (Hcur d x c).
  - intros sc' o' Ho'. destruct (rn_scopes _ HW sc' o' Ho') as [(ss & Hss & Hw & Hk & Hb) H2 H3 H4].
    split; try done. rewrite Hs. case_decide; [|by exists ss].
    subst sc'. exists st'. split_and!; [done..|]. intros Hstop d x c Hx Hc Hl Hor.
    change (descs (with_session sc st' W)) with (descs W) in *.
    rewrite (Hcur d x c) by done. replace st with ss by congruence. by apply (Hb Hstop d x c).
  - apply (defaults_frame W); [apply HW|done|done|]. intros sc' o' Ho'. left. by exists o'.
Qed.

(** The slot of a bound session belongs to no other session. *)
Lemma bound_slot W id y p st st' : running W → bound_session (descs W) id →
  DescriptorTable.at_ (descs W) id = Some y →
  (∀ j, InstanceArray.cur (SessionStore.instances_ st') j =
     if decide (j = sessionSlot y) then p else InstanceArray.cur (SessionStore.instances_ st) j) →
  ∀ d x c, DescriptorTable.at_ (descs W) d = Some x → DescriptorTable.coldAt (descs W) d = Some c →
     lifetime x = Session → origin c ≠ RuntimeBinding ∨ Runtime.is_primary_elsewhere x d = true →
     InstanceArray.cur (SessionStore.instances_ st') (sessionSlot x) =
     InstanceArray.cur (SessionStore.instances_ st) (sessionSlot x).
Proof.
  intros HW (x0 & c0 & Hx0 & Hc0 & Hl0 & Hr0 & He0) Hy Hcur d x c Hx Hc Hl Hor.
  rewrite Hcur, decide_False; [done|]. intros Hs.
  assert (d = id) as ->.
  { apply (tk_slots _ _ (rn_tables _ HW) d id x y); try done. congruence. }
  simplify_eq. destruct Hor; congruence.
Qed.

(** A bound object enters the store of its scope. *)
Lemma session_stored W sc o st id y p st' : running W → objects_ W !! sc = Some o →
  Runtime.sessions (rt W) !! sc = Some st → bound_session (descs W) id →
  DescriptorTable.at_ (descs W) id = Some y → SessionStore.wf st' →
  InstanceArray.size (SessionStore.instances_ st) ≤ InstanceArray.size (SessionStore.instances_ st') →
  (∀ j, InstanceArray.cur (SessionStore.instances_ st') j =
     if decide (j = sessionSlot y) then p else InstanceArray.cur (SessionStore.instances_ st) j) →
  SessionStore.insertionOrder st' = SessionStore.insertionOrder st ++ [id] →
  running (with_session sc st' W).
Proof.
  intros HW Ho Hst Hb Hy Hwf Hsz Hcur Hord.
  assert (∀ d, d ∈ SessionStore.insertionOrder st' → session_known (descs W) d) as Hkn.
  { intros d. rewrite Hord. intros [Hd|Hd]%elem_of_app.
    - destruct (sk_store _ _ _ (rn_scopes _ HW sc o Ho)) as (ss & Hss & _ & Hk & _).
      rewrite Hst in Hss. injection Hss as <-. by apply Hk.
    - apply list_elem_of_singleton in Hd as ->. destruct Hb as (x & c & Hx & _ & Hl & _). by exists x. }
  apply (running_session W sc o st st' HW Ho Hst Hwf); [|done|].
  - by apply (bound_slot W id y p st st').
  - intros Hs. destruct (scope_running W sc o HW Ho Hs) as (ss & Hss & [_ Hk Hk2 _]).
    replace ss with st in * by congruence. split; [done|intros d x c Hx Hc Hl Hor..|done].
    + specialize (Hk d x c Hx Hc Hl Hor). lia.
    + rewrite (bound_slot W id y p st st' HW Hb Hy Hcur d x c) by (done || by left). intros Hne.
      rewrite Hord. apply elem_of_app. left. by apply (Hk2 d x c).
Qed.

(** ** [bindSession] *)

Lemma pending_key_total W ty n prio ps :
  (∀ p, p ∈ ps → bound_session (descs W) p.1) →
  ∃ b, pending_key (descs W) ty n prio ps = Some b.
Proof.
  induction ps as [|p ps IH]; intros Hp; [by exists false|]. simpl.
  destruct (Hp p) as (x & c & -> & -> & _); [by left|]. simpl.
  destruct (_ && _); [by exists true|]. apply IH. intros q Hq. apply Hp. by right.
Qed.

(** The descriptors of a started registry, in terms of what the index lists. *)
Lemma reusable_total W prio ids : running W → (∀ d, d ∈ ids → d < DescriptorTable.size (descs W)) →
  ∃ id, reusable (descs W) prio ids = Some id ∧
    (id = kInvalidDescriptorId ∨ bound_session (descs W) id).
Proof.
  intros HW. induction ids as [|id ids IH]; intros Hids; [exists kInvalidDescriptorId; by auto|]. simpl.
  destruct (DescriptorTable.at_is_Some (descs W) id) as (x & c & Hx & Hc & _).
  { apply (rn_tables _ HW). } { apply Hids. by left. }
  rewrite Hx. simpl. rewrite Hc. simpl.
  destruct (bool_decide (origin c = RuntimeBinding)) eqn:Ho; [|by apply IH; intros; apply Hids; right].
  destruct (bool_decide (lifetime x = Session)) eqn:Hl; [|by apply IH; intros; apply Hids; right].
  apply bool_decide_eq_true in Ho, Hl.
  destruct (Z.eqb _ _); simpl; [|by apply IH; intros; apply Hids; right].
  exists id. split; [done|]. right. exists x, c. split_and!; try done.
  by apply (rn_bound _ HW id x c).
Qed.

(** The descriptor of a session key: one of an earlier binding, or a new one. *)
Lemma session_descriptor_runs W T ty n prio : running W →
  DescriptorTable.size (descs W) + 1 < kInvalidDescriptorId →
  ∃ id W', on_reg (session_descriptor H T ty n prio) W = (Ok id, W') ∧ running W' ∧
    bound_session (descs W') id ∧ objects_ W' = objects_ W ∧ names W' = names W ∧
    Runtime.sessions (rt W') = Runtime.sessions (rt W) ∧
    DescriptorTable.size (descs W') ≤ DescriptorTable.size (descs W) + 1 ∧
    (∀ d, bound_session (descs W) d → bound_session (descs W') d).
Proof.
  intros HW Hsz.
  assert (∃ old, (match TypeIndex.candidatesFor (index W) ty n with
     | Some ids => reusable (descs W) prio ids | None => Some kInvalidDescriptorId end) = Some old ∧
     (old = kInvalidDescriptorId ∨ bound_session (descs W) old)) as (old & Hold & Hor).
  { unfold TypeIndex.candidatesFor. destruct (TypeIndex.entryFor (index W) ty n) as [e|] eqn:He; simpl.
    - apply reusable_total; [done|]. intros d Hd. pose proof (rn_tables _ HW) as HT.
      apply (tk_entries _ _ HT ty n e d He); [by left|]. intros ->. by apply (tk_valid _ _ HT ty n e He).
    - exists kInvalidDescriptorId. by auto. }
  assert (session_descriptor H T ty n prio (registry W) =
    (if old =? kInvalidDescriptorId then new_session_descriptor H T ty n prio else mreturn old)
      (registry W)) as Heq.
  { unfold session_descriptor. unfold mbind_ at 1, mget at 1. cbn [registry with_singletons Startup.started_].
    rewrite (rn_started _ HW). unfold mbind_.
    change (Startup.tables_ (registry W)) with (Startup.tables_ (reg W)).
    revert Hold. destruct (TypeIndex.candidatesFor _ ty n) as [ids|].
    - intros Hr. unfold mlift. by rewrite Hr.
    - by intros [= <-]. }
  unfold on_reg. rewrite Heq. destruct (N.eqb_spec old kInvalidDescriptorId) as [Hk|Hk].
  - set (slot := slots W).
    assert (u32 slot = slot) as Hu.
    { apply u32_small. pose proof (rn_count _ HW). unfold slot, kInvalidDescriptorId, two32 in *. lia. }
    destruct (append_resort W (session_hot prio slot)
      (Startup.bound_cold (noop H) (binding_of T nullptr n prio) ty) (rn_tables _ HW) Hsz)
      as (D' & Ha & HX & HL & HS).
    eexists _, _. split.
    { unfold new_session_descriptor. unfold mbind_ at 1, mget at 1.
      cbn [registry with_singletons Startup.started_]. rewrite (rn_started _ HW).
      unfold mbind_ at 1, next_slot at 1. cbn [Startup.sessionSlotCount_ registry with_singletons].
      fold slot. rewrite Hu. unfold mbind_ at 1, Startup.on_tables at 1.
      cbn [Startup.tables_ Startup.set_slotCount registry with_singletons]. rewrite Ha.
      unfold mbind_ at 1, Startup.on_tables at 1. cbn [insert_candidate].
      unfold mbind_ at 1, Startup.on_tables at 1. cbn [resort mreturn]. reflexivity. }
    assert (Runtime.is_primary_elsewhere (set_primaryDescriptor (DescriptorTable.size (descs W))
      (session_hot prio slot)) (DescriptorTable.size (descs W)) = false) as He.
    { unfold Runtime.is_primary_elsewhere, set_primaryDescriptor. simpl. by rewrite N.eqb_refl. }
    split; [|split_and!; try done].
    + eapply (running_extended HG W _ _ _ (Runtime.singletons_ (rt W)) (Startup.priority_at D') HW);
        [exact HX|exact HL|exact HS|try done..]. by right.
    + eexists _, _. simpl. rewrite (xt_at _ _ _ _ HX), (xt_cold _ _ _ _ HX), !decide_True by done. done.
    + simpl. by rewrite (xt_size _ _ _ _ HX).
    + intros d. eapply (extended_bound W); [apply HW|exact HX].
  - destruct Hor as [|Hb]; [done|]. exists old. eexists. split; [reflexivity|]. simpl.
    split_and!; try done; [|lia].
    apply (running_registry HG W); try done; try apply HW. by destruct W as [? []].
Qed.

Abbreviation keeps := (λ W', running W') (only parsing).

Lemma object_run W sc o : objects_ W !! sc = Some o → object sc W = (Ok o, W).
Proof. intros Ho. unfold object. by rewrite Ho. Qed.

Lemma find_run W sc o slot : running W → objects_ W !! sc = Some o →
  ∃ st, Runtime.sessions (rt W) !! sc = Some st ∧ SessionStore.wf st ∧
    find_instance sc slot W = (Ok (InstanceArray.cur (SessionStore.instances_ st) slot), W).
Proof.
  intros HW Ho. destruct (rn_scopes _ HW sc o Ho) as [(st & Hst & Hwf & _) _ _ _].
  exists st. split; [done|]. split; [done|]. unfold find_instance, Runtime.find_session.
  rewrite Hst. cbn [mbind option_bind]. by rewrite SessionStore.find_spec.
Qed.

(** The last step of a binding in a running scope: the object is stored and announced. *)
Lemma session_bound_runs W sc o id object ty : running W → fuelled 0 W → objects_ W !! sc = Some o →
  bound_session (descs W) id →
  ends never (
    let! W := mget in
    let! d := mlift (DescriptorTable.at_ (Startup.descriptors_ (Startup.tables_ (reg W))) id) in
    let! present := find_instance sc (sessionSlot d) in
    if negb (present =? nullptr) then mthrow_ session_bound_error
    else
      do! upd_session sc (SessionStore.growAndStore (sessionSlot d) id object) in
      announce H fuel (Claims.Key id sc) ty object (Runtime.scopeNameId_ (info o)))
    W (λ _, keeps) (λ _, keeps).
Proof.
  intros HW HF Ho Hb. destruct Hb as (x & c & Hx & Hc & Hb).
  eapply ends_run; [done|]. cbv beta. rewrite Hx. eapply ends_run; [done|].
  destruct (find_run W sc o (sessionSlot x) HW Ho) as (st & Hst & Hwf & Hf).
  eapply ends_run; [exact Hf|]. destruct (negb _); [by apply ends_throw|].
  destruct (SessionStore.growAndStore_slot (sessionSlot x) id object st Hwf) as (st' & Hst' & Hwf' & Hsz & Hcur).
  assert (running (with_session sc st' W)) as HW'.
  { apply (session_stored W sc o st id x object st'); try done; [by exists x, c|].
    by eapply SessionStore.growAndStore_order. }
  eapply ends_run with (s' := with_session sc st' W).
  { unfold upd_session. by rewrite Hst, Hst'. }
  eapply ends_mono; [apply (announce_runs HG); [exact HW'|exact HF|]|by intros ?? []|by intros ?? []].
  eapply not_kept_bound; [exact Hx|exact Hc|apply Hb].
Qed.

Lemma session_type_run W T : Startup.started_ (reg W) = true →
  on_reg (session_type T) W = on_reg (Startup.on_tables (adopt_type T)) W.
Proof.
  intros Hs. unfold on_reg, session_type, mbind_, mget. cbn [Startup.started_ registry with_singletons].
  by rewrite Hs.
Qed.

Lemma bindSession_runs W sc T object bindName prio : running W → room W →
  is_Some (objects_ W !! sc) → object ≠ nullptr →
  ends never (bindSession H fuel sc T object bindName prio) W (λ _, keeps) (λ _, keeps).
Proof.
  intros HW HR [o Ho] Hp. unfold bindSession. destruct (bt_isContext T); [by apply ends_throw|].
  destruct (interned W bindName HW (rm_names _ _ HR))
    as (n & W1 & Hi & HW1 & Hn & Hlt & HD & HI & Hrt & Ho1 & _ & _ & _).
  destruct (room_interned W W1 HR HD Ho1) as [Hsz HF]. rewrite <-Ho1 in Ho. clear HI Hrt.
  eapply ends_run; [exact Hi|].
  destruct (adopt_runs HG T W1 HW1) as (ty & ti & Hty & HW2).
  set (W2 := with_tables (Startup.set_typeInterning ti (Startup.tables_ (reg W1))) W1) in *.
  eapply ends_run with (s' := W2).
  { rewrite session_type_run, on_tables_run, Hty by apply HW1. done. }
  eapply ends_run; [by apply (object_run W2 sc o)|]. eapply ends_run; [done|].
  destruct (pending_key_total W2 ty n prio (pendingRuntimeSessions_ o)) as [again Ha].
  { intros p Hpp. by apply (rn_scopes _ HW2 sc o Ho). }
  cbv beta. rewrite Ha. eapply ends_run; [done|]. destruct again; [by apply ends_throw|].
  destruct (session_descriptor_runs W2 T ty n prio HW2 Hsz)
    as (id & W3 & Hid & HW3 & Hb & Ho3 & _ & _ & Hs3 & _).
  eapply ends_run; [exact Hid|]. assert (objects_ W3 !! sc = Some o) as Ho' by by rewrite Ho3.
  destruct (decide (id ∈ _)); [by apply ends_throw|]. destruct (decide _) as [Hst|Hst].
  - apply ends_upd. apply (running_scope HG W3 sc o _ HW3 Ho').
    + destruct (rn_scopes _ HW3 sc o Ho') as [A1 A2 A3 A4]. split; try done. simpl.
      intros p [Hpp| ->%list_elem_of_singleton]%elem_of_app; [by apply A4|done].
    + by apply (scope_running W3 sc o HW3 Ho').
    + done.
    + by apply listed_alter; [apply HW3|].
  - apply (session_bound_runs W3 sc o id object ty HW3); [|done..].
    unfold Service.fuelled in *. rewrite N.add_0_r. change (descs W2) with (descs W1) in Hs3.
    rewrite Ho3. change (objects_ W2) with (objects_ W1). nia.
Qed.

(** ** Scopes *)

(** The first steps of [resolveScope] for a new key. *)
Definition with_scope (key : string) (candidate : ptr) (W : t) : t :=
  let W1 := set_scopes (<[key := candidate]> (scopes_ W)) (set_object candidate new_scope W) in
  set_rt (Runtime.set_sessions (<[candidate := SessionStore.empty]> (Runtime.sessions (rt W1))) (rt W1)) W1.

Lemma running_new_scope W key candidate : running W → objects_ W !! candidate = None →
  Runtime.sessions (rt W) !! candidate = None → candidate ≠ nullptr →
  running (with_scope key candidate W).
Proof.
  intros HW Ho Hs Hc. set (W' := with_scope key candidate W).
  assert (∀ sc o, objects_ W' !! sc = Some o →
    (sc = candidate ∧ o = new_scope) ∨ (sc ≠ candidate ∧ objects_ W !! sc = Some o)) as Hobj.
  { intros sc o. simpl. destruct (decide (sc = candidate)) as [->|Hne].
    - rewrite lookup_insert_eq. intros [= <-]. by left.
    - rewrite lookup_insert_ne by done. by right. }
  assert (∀ sc, sc ≠ candidate →
    Runtime.sessions (rt W') !! sc = Runtime.sessions (rt W) !! sc) as Hother.
  { intros sc Hne. simpl. by rewrite lookup_insert_ne. }
  assert (Runtime.sessions (rt W') !! candidate = Some SessionStore.empty) as Hnew by apply lookup_insert_eq.
  assert (∀ sc o, objects_ W' !! sc = Some o → scope_ok W' sc o) as Hok.
  { intros sc o [[-> ->]|[Hne Hsc]]%Hobj.
    - split; [|done|done|by intros p ?%not_elem_of_nil]. exists SessionStore.empty.
      split_and!; [done|apply SessionStore.session_wf_empty|by intros d ?%not_elem_of_nil|done].
    - apply (scope_kept W); [by apply HW|done|by apply Hother]. }
  split; try apply HW.
  - apply (inv_transfer (env_of H W) (env_of H W') (rt W)); try done.
    + by apply (running_env HG).
    + apply (env_good H known HG); [apply HW|apply HW| |by intros sc o Hsc; apply (Hok sc o)].
      intros sc Hk. simpl. destruct (decide (sc = candidate)) as [->|Hne].
      { rewrite lookup_insert_eq. by eexists. } rewrite lookup_insert_ne by done. by apply (rn_known _ HW).
    + by apply grows_same.
    + apply HW.
    + apply (i_singletons _ _ (rn_inv _ HW)).
    + apply (i_capacity _ _ (rn_inv _ HW)).
    + intros d Hn. simpl in Hn. split; [|by intros (x & Hx & _); simpl in Hx; congruence]. intros Hv.
      destruct (i_stored _ _ (rn_inv _ HW) d Hv) as (x & Hx & _). simpl in Hx. congruence.
    + intros k c' _ Hk. by destruct (running_settled W _ HW Hk).
    + intros sc i Hi Hne. simpl in Hi.
      rewrite lookup_fmap in Hi. destruct (<[_ := _]> (objects_ W) !! sc) as [o|] eqn:Hsc; [|done].
      injection Hi as <-. destruct (Hobj sc o Hsc) as [[-> ->]|[Hc' Hsc']]; [done|].
      rewrite Hother by done.
      destruct (scope_running W sc o HW Hsc' Hne) as (ss & Hss & [B1 B2 B3 B4]). exists ss.
      split; [done|]. by split.
    + intros [d sc] x c Hx _ Hl _. unfold instance_of. simpl in Hx |- *. rewrite Hx, Hl.
      destruct (decide (sc = candidate)) as [->|Hne].
      * by rewrite lookup_insert_eq, Hs.
      * by rewrite lookup_insert_ne.
  - intros sc Hk. simpl. destruct (decide (sc = candidate)) as [->|Hne].
    { rewrite lookup_insert_eq. by eexists. } rewrite lookup_insert_ne by done. by apply (rn_known _ HW).
  - simpl. rewrite lookup_insert_ne by done. apply HW.
  - exact Hok.
  - apply (listed_frame _ (objects_ W)); [apply HW|]. intros sc o Hsc. simpl.
    exists o. rewrite lookup_insert_ne; [done|]. intros ->. congruence.
  - apply (defaults_frame W); [apply HW|done|done|]. intros sc o [[_ ->]|[_ Hsc]]%Hobj; [by right|].
    left. by exists o.
Qed.

Lemma running_chunks W T : running W → listed T (objects_ W) → running (set_chunks T W).
Proof.
  intros HW HT. apply (running_objects HG W); try done; try apply HW.
  - intros sc o Ho. apply (scope_kept W); [|done..]. by apply HW.
  - intros sc o Ho. by apply (scope_running W sc o HW).
  - apply (defaults_frame W); [apply HW|done|done|]. intros sc o Ho. left. by exists o.
Qed.

(** [registerScope] of a live scope under its name. *)
Lemma listed_register T objs n sc o : listed T objs → objs !! sc = Some o →
  Runtime.scopeNameId_ (info o) = n → listed (ScopeTable.registerScope n sc T).2 objs.
Proof.
  intros [[m Hm] Hl] Ho Hn. destruct (decide (ScopeTable.room n)) as [Hr|Hr].
  - destruct (ScopeTable.registerScope_holds n sc T m Hm Hr) as (T' & HT & Hm'). rewrite HT. cbn [snd].
    split; [by eexists|]. intros n'. destruct (decide (ScopeTable.room n')) as [Hr'|Hr'].
    + rewrite (ScopeTable.h_map _ _ Hm' n' Hr'). destruct (decide (n' = n)) as [->|Hne].
      * rewrite lookup_insert_eq. cbn. intros _. by exists o.
      * rewrite lookup_insert_ne by done. rewrite <-(ScopeTable.h_map _ _ Hm n' Hr'). apply Hl.
    + unfold ScopeTable.findScope at 1. by rewrite ScopeTable.room_spec, bool_decide_false.
  - unfold ScopeTable.registerScope. rewrite ScopeTable.room_spec, bool_decide_false by done.
    split; [by eexists|done].
Qed.

Lemma resolveScope_runs W key candidate : running W → room W → objects_ W !! candidate = None →
  Runtime.sessions (rt W) !! candidate = None → candidate ≠ nullptr →
  ends never (resolveScope key candidate) W (λ _, keeps) (λ _, keeps).
Proof.
  intros HW HR Ho Hs Hc. unfold resolveScope. eapply ends_run; [done|].
  destruct (scopes_ W !! key); [by apply ends_return|].
  eapply ends_run; [done|]. eapply ends_run; [done|].
  pose proof (running_new_scope W key candidate HW Ho Hs Hc) as HW1.
  destruct (interned (with_scope key candidate W) key HW1) as
    (n & W2 & Hi & HW2 & _ & Hlt & _ & _ & _ & Ho2 & _).
  { apply HR. }
  eapply ends_run; [exact Hi|].
  assert (objects_ W2 !! candidate = Some new_scope) as Hnew.
  { rewrite Ho2. apply lookup_insert_eq. }
  eapply ends_run; [done|]. destruct (rn_scopes _ HW2 _ _ Hnew) as [A1 A2 A3 A4].
  pose proof (running_scope HG W2 candidate new_scope (λ o, with_info (with_name n (info o)) o)
    HW2 Hnew) as HW3.
  assert (listed (scopeChunks_ W2)
    (alter (λ o, with_info (with_name n (info o)) o) candidate (objects_ W2))) as Hlist.
  { destruct (rn_chunks _ HW2) as [Hm Hl]. split; [done|]. intros n' Hn'.
    destruct (Hl n' Hn') as (o & Hoo & Hname). rewrite lookup_alter. case_decide as He; [|by exists o].
    exfalso. subst n'. rewrite <-He, Hnew in Hoo. injection Hoo as <-. exact (Hn' eq_refl). }
  assert (running (set_objects (alter (λ o, with_info (with_name n (info o)) o) candidate (objects_ W2)) W2))
    as HW4 by by apply HW3. clear HW3.
  set (W3 := set_objects _ W2) in *.
  eapply ends_bind with (P := λ _ W', running W'); [|by intros; apply ends_return].
  assert (listed (ScopeTable.registerScope n candidate (scopeChunks_ W3)).2 (objects_ W3)) as Hreg.
  { eapply listed_register; [apply HW4| |].
    - simpl. rewrite lookup_alter, decide_True by done. by rewrite Hnew.
    - done. }
  destruct (rn_chunks _ HW4) as [[m Hm] _].
  unfold ends. destruct (ScopeTable.registerScope n candidate (scopeChunks_ W3)) as [o T] eqn:HT.
  cbn [snd] in Hreg. pose proof (running_chunks W3 T HW4 Hreg) as HW5.
  destruct (decide (ScopeTable.room n)) as [Hr|Hr].
  - destruct (ScopeTable.registerScope_holds n candidate _ m Hm Hr) as (T' & HT' & _).
    rewrite HT in HT'. by injection HT' as -> _.
  - unfold ScopeTable.registerScope in HT.
    rewrite ScopeTable.room_spec, bool_decide_false in HT by done. by injection HT as <- _.
Qed.

(** *** Starting a scope *)

(** The store of [sc] has room for every session slot. *)
Definition roomy (sc : ptr) (W : t) : Prop :=
  ∃ st, Runtime.sessions (rt W) !! sc = Some st ∧ SessionStore.wf st ∧
    slots W ≤ InstanceArray.size (SessionStore.instances_ st).

Lemma start_pending_runs W sc o p : running W → fuelled 0 W → objects_ W !! sc = Some o →
  Runtime.scopeState_ (info o) = Runtime.Stopped → roomy sc W → bound_session (descs W) p.1 →
  ends never (start_pending H fuel sc p) W
    (λ _ W', running W' ∧ roomy sc W' ∧ ∃ R, W' = set_rt R W) (λ _, keeps).
Proof.
  intros HW HF Ho Hstop (st & Hst & Hwf & Hsz) Hb.
  pose proof Hb as (x & c & Hx & Hc & Hl & Hor & _). unfold start_pending.
  eapply ends_run; [done|]. cbv beta zeta. rewrite Hx. eapply ends_run; [done|]. rewrite Hc.
  eapply ends_run; [done|].
  destruct (SessionStore.store_slot (sessionSlot x) p.1 p.2 st Hwf) as (st' & Hst' & Hwf' & Hsz' & Hcur).
  { pose proof (rn_slots _ HW _ _ Hx Hl). lia. }
  assert (running (with_session sc st' W)) as HW'.
  { apply (session_stored W sc o st p.1 x p.2 st'); try done; [lia|].
    by eapply SessionStore.store_order. }
  eapply ends_run with (s' := with_session sc st' W).
  { unfold upd_session. by rewrite Hst, Hst'. }
  eapply ends_run; [by apply (object_run _ sc o)|].
  eapply ends_mono; [apply (announce_runs HG); [exact HW'|exact HF|]|..].
  - eapply not_kept_bound; [exact Hx|exact Hc|exact Hor].
  - intros _ W' (HW'' & R & HR & ->). split; [done|]. split; [|by exists R].
    exists st'. split; [|split; [done|]].
    + destruct HR as [_ HX]. simpl. rewrite (x_stopped _ _ _ _ HX); [apply lookup_insert_eq|].
      intros i Hi. simpl in Hi. rewrite lookup_fmap, Ho in Hi. injection Hi as <-. by rewrite Hstop.
    + change (slots W ≤ InstanceArray.size (SessionStore.instances_ st')). by rewrite Hsz'.
  - by intros ?? [].
Qed.

Lemma start_pendings_run sc o ps : ∀ W, running W → fuelled 0 W → objects_ W !! sc = Some o →
  Runtime.scopeState_ (info o) = Runtime.Stopped → roomy sc W →
  (∀ p, p ∈ ps → bound_session (descs W) p.1) →
  ends never (mfor (start_pending H fuel sc) ps) W
    (λ _ W', running W' ∧ roomy sc W' ∧ ∃ R, W' = set_rt R W) (λ _, keeps).
Proof.
  induction ps as [|p ps IH]; intros W HW HF Ho Hs Hr Hb; apply ends_for.
  { split_and!; [done..|]. exists (rt W). by destruct W. }
  eapply ends_mono; [apply (start_pending_runs W sc o); [done..|apply Hb; by left]| |done].
  intros _ W' (HW' & Hr' & R & ->). eapply ends_mono; [apply IH; try done| |done].
  - intros q Hq. apply (Hb q). by right.
  - intros _ W'' (HW'' & Hr'' & R' & ->). split_and!; [done..|]. by exists R'.
Qed.

Lemma scope_start_runs W sc : running W → room W → is_Some (objects_ W !! sc) →
  ends never (scope_start H fuel sc) W (λ _, keeps) (λ _, keeps).
Proof.
  intros HW HR [o Ho]. unfold scope_start. eapply ends_run; [done|]. rewrite (rn_started _ HW). cbn [negb].
  eapply ends_run; [by apply (object_run _ sc o)|].
  destruct (Runtime.scopeState_ (info o)) eqn:Hstate; [|by apply ends_return|].
  2: { by destruct (sk_state _ _ _ (rn_scopes _ HW sc o Ho)). }
  destruct (rn_scopes _ HW sc o Ho) as [(st & Hst & Hwf & Hkn & Hb) _ Hn Hp].
  set (st' := SessionStore.resize (slots W) st).
  destruct (InstanceArray.resize_spec (slots W) (SessionStore.instances_ st)) as (_ & Hsz & _ & Hcur).
  assert (running (with_session sc st' W)) as HW1.
  { apply (running_session W sc o st st' HW Ho Hst (SessionStore.session_resize_wf _ _)).
    - intros d x c Hx Hc Hl Hor. rewrite (Hb Hstate d x c Hx Hc Hl Hor). apply Hcur.
    - exact Hkn.
    - by rewrite Hstate. }
  eapply ends_run with (s' := with_session sc st' W).
  { unfold upd_session. by rewrite Hst. }
  eapply ends_bind; [apply (start_pendings_run sc o (pendingRuntimeSessions_ o))|]; try done.
  - exact (room_fuelled _ _ HR).
  - exists st'. split; [apply lookup_insert_eq|]. split; [apply SessionStore.session_resize_wf|].
    change (slots W ≤ InstanceArray.size (InstanceArray.resize (slots W) (SessionStore.instances_ st))).
    by rewrite Hsz.
  - intros p Hpp. by apply (Hp p).
  - cbv beta. intros _ W' (HW' & (ss & Hss & Hwfs & Hszs) & R & ->).
    assert (objects_ (set_rt R (with_session sc st' W)) !! sc = Some o) as Ho' by exact Ho.
    assert ((∀ d, d ∈ SessionStore.insertionOrder ss → session_known (descs W) d) ∧
      only_bound (descs W) ss) as [Hk2 Hb2].
    { destruct (sk_store _ _ _ (rn_scopes _ HW' sc o Ho')) as (s2 & Hs2 & _ & Hk2 & Hb2).
      rewrite Hss in Hs2. injection Hs2 as <-. split; [exact Hk2|exact (Hb2 Hstate)]. }
    assert (running (set_objects (alter (with_pending []) sc (objects_ (set_rt R (with_session sc st' W))))
      (set_rt R (with_session sc st' W)))) as HW2.
    { apply (running_scope HG _ sc o _ HW' Ho'); [|by simpl; rewrite Hstate|done|by apply listed_alter; [apply HW'|]].
      destruct (rn_scopes _ HW' sc o Ho') as [A1 A2 A3 A4]. split; try done.
      by intros p ?%not_elem_of_nil. }
    eapply ends_run; [done|]. apply ends_upd. set (W2 := set_objects _ _) in *.
    assert (objects_ W2 !! sc = Some (with_pending [] o)) as Ho2.
    { simpl. rewrite lookup_alter, decide_True by done. by rewrite Ho. }
    apply (running_scope HG W2 sc (with_pending [] o) _ HW2 Ho2); [| |done|by apply listed_alter; [apply HW2|]].
    + destruct (rn_scopes _ HW2 sc _ Ho2) as [A1 A2 A3 A4]. split; try done.
      exists ss. split_and!; [exact Hss|done|exact Hk2|done].
    + intros _. exists ss. split; [exact Hss|]. split; [done|intros d x c Hx Hc Hl Hor..|exact Hk2].
      * change (DescriptorTable.at_ (descs (set_rt R (with_session sc st' W))) d = Some x) in Hx.
        pose proof (rn_slots _ HW' d x Hx Hl) as Hlt. lia.
      * intros []. apply (Hb2 d x c); [done..|by left].
Qed.

(** ** Defaults and listeners *)

(** A change of names and defaults. *)
Lemma running_framed W W' : running W → Contexts.framed W W' → Contexts.defaults_ok W' →
  Startup.started_ (reg W') = Startup.started_ (reg W) →
  Startup.tables_ (reg W') = Startup.tables_ (reg W) →
  (∀ c, Contexts.live c W → Contexts.live c W') → running W'.
Proof.
  intros HW [F1 F2 F3 F4 F5] HD Est Etb Hlive.
  apply (running_objects HG W); rewrite ?Etb, ?F2, ?F3; try done; try apply HW.
  - apply (listed_frame _ (objects_ W)); [apply HW|]. intros sc o Ho.
    destruct (Hlive (Some sc)) as [o' Ho']; [by eexists|]. exists o'. split; [done|].
    destruct (F5 _ _ Ho') as (o2 & Ho2 & _ & _ & ->). congruence.
  - intros sc. exact (Hlive (Some sc)).
  - destruct (objects_ W' !! nullptr) as [o'|] eqn:Ho; [|done].
    destruct (F5 _ _ Ho) as (o & Ho' & _). pose proof (rn_null _ HW). congruence.
  - intros sc o' Ho'. destruct (F5 _ _ Ho') as (o & Ho & Hp & Hs & Hn).
    destruct (rn_scopes _ HW sc o Ho) as [A1 A2 A3 A4]. split; rewrite ?Etb, ?F1, ?Hp, ?Hs, ?Hn; done.
  - intros sc o' Ho' Hst. destruct (F5 _ _ Ho') as (o & Ho & Hp & Hs & Hn).
    rewrite Hs in Hst. exact (scope_running W sc o HW Ho Hst).
Qed.

Lemma defaultNamed_runs ctx g nm W : running W → room W → Contexts.live ctx W →
  ends never (defaultNamed ctx g nm) W (λ _, keeps) (λ _, keeps).
Proof.
  intros HW HR Hl. pose proof (rn_started _ HW) as Hs.
  destruct (decide (nm = ""%string)) as [He|He].
  { unfold defaultNamed. eapply ends_run; [done|]. rewrite Hs. cbn [negb].
    rewrite decide_True by done. by apply ends_throw. }
  destruct (N.leb_spec (DefaultsTable.size_ (Startup.defaults_ (reg W))) (typeIdFor g W)) as [Hsz|Hsz].
  { unfold defaultNamed. eapply ends_run; [done|]. rewrite Hs. cbn [negb].
    rewrite decide_False by done. cbv zeta. rewrite (proj2 (N.leb_le _ _) Hsz). by apply ends_throw. }
  destruct (Contexts.defaultNamed_run ctx g nm W Hs He Hsz (rn_defaults _ HW) Hl)
    as (W1 & Hrun & HD & Hlive & _ & _ & Hst & Htb & _ & HF).
  unfold ends. rewrite Hrun. eapply (running_framed _ _ _ HF HD Hst Htb Hlive). Unshelve.
  destruct HR as [_ Hr _]. pose proof (NameInterning.name_intern_wf nm _ (rn_names _ HW) Hr) as Hwf.
  apply (running_registry HG W); try done; apply HW.
Qed.

Lemma defaultNamed_clear_runs ctx g W : running W → Contexts.live ctx W →
  ends never (defaultNamed_clear ctx g) W (λ _, keeps) (λ _, keeps).
Proof.
  intros HW Hl. pose proof (rn_started _ HW) as Hs.
  destruct (N.leb_spec (DefaultsTable.size_ (Startup.defaults_ (reg W))) (typeIdFor g W)) as [Hsz|Hsz].
  { unfold defaultNamed_clear. eapply ends_run; [done|]. rewrite Hs. cbn [negb]. cbv zeta.
    rewrite (proj2 (N.leb_le _ _) Hsz). by apply ends_return. }
  destruct (Contexts.defaultNamed_clear_run ctx g W Hs Hsz (rn_defaults _ HW) Hl)
    as (W1 & Hrun & HD & Hlive & _ & _ & Hst & Htb & _ & HF).
  unfold ends. rewrite Hrun. by apply (running_framed W).
Qed.

Lemma running_listeners W L : running W → ListenerStore.usable L → running (set_listeners L W).
Proof. intros HW HL. apply (running_registry HG W); try done; apply HW. Qed.

Lemma scope_of_live ctx W : Contexts.live ctx W →
  ∃ n, listenerScope_of ctx W = (Ok n, W).
Proof.
  destruct ctx as [sc|]; [|by eexists]. intros [o Ho]. unfold listenerScope_of, mbind_.
  rewrite (object_run W sc o Ho). by eexists.
Qed.

Lemma add_runs phase n cb prio W : running W → phase < ListenerStore.kPhaseCount →
  ends never (add_listener phase n cb prio) W (λ _, keeps) (λ _, keeps).
Proof.
  intros HW Hp. unfold ends, add_listener.
  destruct (ListenerStore.usable_add phase kInvalidTypeId n cb prio (listeners_ W) (rn_listeners _ HW) Hp)
    as (tok & L & -> & HL). by apply running_listeners.
Qed.

Lemma on_typed_runs ctx g phase cb prio W : running W → Contexts.live ctx W →
  phase < ListenerStore.kPhaseCount →
  ends never (on_typed ctx g phase cb prio) W (λ _, keeps) (λ _, keeps).
Proof.
  intros HW Hl Hp. unfold on_typed. destruct (scope_of_live ctx W Hl) as [n Hn].
  eapply ends_run; [exact Hn|]. eapply ends_run; [done|]. rewrite (rn_started _ HW). by apply add_runs.
Qed.

Lemma on_any_runs ctx phase cb prio W : running W → Contexts.live ctx W →
  phase < ListenerStore.kPhaseCount →
  ends never (on_any ctx phase cb prio) W (λ _, keeps) (λ _, keeps).
Proof.
  intros HW Hl Hp. unfold on_any. destruct (scope_of_live ctx W Hl) as [n Hn].
  eapply ends_run; [exact Hn|]. by apply add_runs.
Qed.

Lemma remove_runs h W : running W → ends never (remove h) W (λ _, keeps) (λ _, keeps).
Proof.
  intros HW. unfold ends, remove.
  assert (ListenerStore.usable (ListenerStore.handle_remove h (listeners_ W)).2) as HL.
  { unfold ListenerStore.handle_remove. destruct (ListenerStore.store_ h); simpl; [|apply HW].
    by apply ListenerStore.usable_remove, HW. }
  destruct (ListenerStore.handle_remove h (listeners_ W)) as [h' L]. by apply running_listeners.
Qed.

(** ** Any sequence *)

(** The operations of a root context and its scopes on the calling thread, the stop of the
    root aside. *)
Inductive op : Type :=
| Resolve (ctx : option ptr) (g : TypeInfo)
| ResolveNamed (ctx : option ptr) (g : TypeInfo) (key : string)
| BindSingleton (T : BoundType) (object : ptr) (name : string) (prio : Z)
| BindSession (sc : ptr) (T : BoundType) (object : ptr) (name : string) (prio : Z)
| ResolveScope (key : string) (candidate : ptr)
| ScopeStart (sc : ptr)
| ScopeStop (sc : ptr)
| ScopeRestart (sc : ptr)
| DefaultNamed (ctx : option ptr) (g : TypeInfo) (name : string)
| DefaultClear (ctx : option ptr) (g : TypeInfo)
| OnTyped (ctx : option ptr) (g : TypeInfo) (phase cb : N) (prio : Z)
| OnAny (ctx : option ptr) (phase cb : N) (prio : Z)
| Remove (h : ListenerStore.ListenerHandle)
| Deref (b : Handle.Bean)
| HandleCopy (b : Handle.Bean)
| HandleDrop (b : Handle.Bean).

Definition exec (o : op) : M t unit :=
  match o with
  | Resolve ctx g => do! resolve H fuel ctx g in mreturn tt
  | ResolveNamed ctx g key => do! resolve_named H fuel ctx g key in mreturn tt
  | BindSingleton T object name prio => bindSingleton H fuel T object name prio
  | BindSession sc T object name prio => bindSession H fuel sc T object name prio
  | ResolveScope key candidate => do! resolveScope key candidate in mreturn tt
  | ScopeStart sc => scope_start H fuel sc
  | ScopeStop sc => scope_stop H fuel sc
  | ScopeRestart sc => scope_restart H fuel sc
  | DefaultNamed ctx g name => defaultNamed ctx g name
  | DefaultClear ctx g => defaultNamed_clear ctx g
  | OnTyped ctx g phase cb prio => do! on_typed ctx g phase cb prio in mreturn tt
  | OnAny ctx phase cb prio => do! on_any ctx phase cb prio in mreturn tt
  | Remove h => do! remove h in mreturn tt
  | Deref b => do! Access.arrow H fuel b in mreturn tt
  | HandleCopy b => do! Holding.copy H b in mreturn tt
  | HandleDrop b => Holding.destruct_ H fuel b
  end.

(** The arguments a C++ caller can have: references to live contexts and objects, the
    address of a new object, a phase of the enumeration, a handle that is still counted,
    to an object that still exists if it is copied.  A stop and the destructor of a handle
    are [noexcept]: what they call must not let an exception escape. *)
Definition allowed (o : op) (W : t) : Prop :=
  match o with
  | Resolve ctx _ | ResolveNamed ctx _ _ | DefaultNamed ctx _ _ | DefaultClear ctx _ => Contexts.live ctx W
  | BindSingleton _ object _ _ => object ≠ nullptr
  | BindSession sc _ object _ _ => Contexts.live (Some sc) W ∧ object ≠ nullptr
  | ResolveScope _ candidate => objects_ W !! candidate = None ∧
      Runtime.sessions (rt W) !! candidate = None ∧ candidate ≠ nullptr
  | ScopeStart sc => Contexts.live (Some sc) W
  | ScopeStop sc | ScopeRestart sc =>
      Contexts.live (Some sc) W ∧ Sweep.calm_env (env_of H W)
  | OnTyped ctx _ phase _ _ | OnAny ctx phase _ _ =>
      Contexts.live ctx W ∧ phase < ListenerStore.kPhaseCount
  | Remove _ => True
  | Deref b => Access.derefable b W
  | HandleCopy b => Handle.tracked b = true → ∃ n, handles W !! Handle.slot b = Some n ∧
      n + 1 < two32 ∧
      PrototypeStore.memoryAt (PrototypeStore.store (Runtime.prototypes_ (rt W))) (Handle.slot b) ≠ nullptr
  | HandleDrop b => (Handle.tracked b = true → is_Some (handles W !! Handle.slot b)) ∧
      Sweep.calm_env (env_of H W)
  end.

(** The callers see each exception and go on. *)
Fixpoint execs (ops : list op) (W : t) : list (outcome unit) * t :=
  match ops with
  | [] => ([], W)
  | o :: ops' => let '(r, W1) := exec o W in let '(rs, W2) := execs ops' W1 in (r :: rs, W2)
  end.

Fixpoint permitted (ops : list op) (W : t) : Prop :=
  match ops with
  | [] => True
  | o :: ops' => room W ∧ allowed o W ∧ permitted ops' (exec o W).2
  end.

Lemma ignore_result {A} (m : M t A) W : ends never m W (λ _, keeps) (λ _, keeps) →
  ends never (do! m in mreturn tt) W (λ _, keeps) (λ _, keeps).
Proof. intros Hm. eapply ends_bind with (P := λ _, keeps); [exact Hm|]. intros _ W' HW'. by apply ends_return. Qed.

Lemma room_kept W W' : room W → descs W' = descs W → names W' = names W →
  dom (objects_ W') = dom (objects_ W) → room W'.
Proof.
  intros [R1 R2 R3] Hd Hn Ho. split; rewrite ?Hd, ?Hn; [done..|]. unfold Service.fuelled in *.
  by rewrite Hd, <-size_dom, Ho, size_dom.
Qed.

(** [ScopedContext::restart] *)
Lemma scope_restart_runs W sc o : running W → room W → objects_ W !! sc = Some o →
  Sweep.calm_env (env_of H W) → ends never (scope_restart H fuel sc) W (λ _, keeps) (λ _, keeps).
Proof.
  intros HW HR Ho HC. unfold scope_restart. eapply ends_run; [by apply (object_run _ sc o)|].
  eapply ends_bind; [eapply ends_mono; [apply (ScopeStop.restart_stop_runs HG W sc o HW); try done|..]|].
  - by apply room_fuelled.
  - intros ?? H1. exact H1.
  - by intros ?? [].
  - intros ? W1 (HW1 & Hd & Hn & Hdom). apply scope_start_runs; [done|by eapply room_kept|].
    apply elem_of_dom. rewrite Hdom. apply elem_of_dom. by exists o.
Qed.

Lemma exec_runs o W : running W → room W → allowed o W →
  ends never (exec o) W (λ _, keeps) (λ _, keeps).
Proof.
  intros HW HR Ha. pose proof (room_fuelled _ _ HR) as HF.
  destruct o as [ctx g|ctx g key|T object nm prio|sc T object nm prio|key cand|sc|sc|sc|ctx g nm|ctx g
    |ctx g phase cb prio|ctx phase cb prio|h|b|b|b]; cbn [exec allowed] in *.
  - apply ignore_result. eapply ends_run; [done|]. by apply (request_runs HG).
  - apply ignore_result. eapply ends_run; [done|]. cbv zeta.
    destruct (_ =? kInvalidNameId); [by apply ends_throw|]. by apply (request_runs HG).
  - destruct (bindSingleton_spec W T object nm prio HW HR Ha) as (n & W1 & Hi & HW1 & Hspec).
    destruct (bt_isContext T); [unfold ends; by rewrite Hspec|].
    destruct (taken _ _ _ _).
    + destruct Hspec as (W' & Heq & HW' & _). unfold ends. by rewrite Heq.
    + eapply ends_mono; [exact Hspec|by intros ?? []|by intros ?? []].
  - destruct Ha. by apply bindSession_runs.
  - destruct Ha as (? & ? & ?). apply ignore_result. by apply resolveScope_runs.
  - by apply scope_start_runs.
  - destruct Ha as [[o Ho] HC]. eapply ends_mono; [by apply (ScopeStop.scope_stop_runs HG W sc o)|..];
      by intros ?? [].
  - destruct Ha as [[o Ho] HC]. by apply (scope_restart_runs W sc o).
  - by apply defaultNamed_runs.
  - by apply defaultNamed_clear_runs.
  - destruct Ha. apply ignore_result. by apply on_typed_runs.
  - destruct Ha. apply ignore_result. by apply on_any_runs.
  - apply ignore_result. by apply remove_runs.
  - apply ignore_result. eapply ends_mono; [by apply (Access.arrow_runs HG)|..];
      intros ? W'; by apply Access.advanced_running.
  - apply ignore_result. eapply ends_mono; [by apply (Holding.copy_runs HG)|by intros ?? (_ & ? & _)|done].
  - destruct Ha as [Hb HC]. by eapply ends_mono; [by apply (Holding.destruct_runs HG)|..].
Qed.

Lemma execs_run ops : ∀ W, running W → permitted ops W →
  Forall (λ r, r = Ok tt ∨ ∃ e, r = Throw e) (execs ops W).1 ∧ running (execs ops W).2.
Proof.
  induction ops as [|o ops IH]; intros W HW Hp; [done|].
  destruct Hp as (HR & Ha & Hp). cbn [execs].
  pose proof (exec_runs o W HW HR Ha) as Hrun. unfold ends in Hrun.
  destruct (exec o W) as [r W1]. cbn [snd] in Hp.
  assert ((r = Ok tt ∨ ∃ e, r = Throw e) ∧ running W1) as [Hr HW1].
  { destruct r as [[]|e| | |]; try done; (split; [|done]); [by left|]. right. by exists e. }
  specialize (IH W1 HW1 Hp). destruct (execs ops W1) as [rs W2].
  destruct IH as (H1 & H2). split; [by constructor|done].
Qed.

(** C6 A started context stays ready: from a running context with a configured limit of
    prototype slots within the slot table, any sequence of requests, singleton and session
    bindings, scope creations, starts, stops and restarts, defaults, listeners added or
    removed, and handles dereferenced, copied and destroyed (the last one to a prototype
    with its object), with user code that ends and resolves whatever it wants (from the
    root, its own scope or a scope that exists) in its hooks, constructors and listeners,
    those of a destruction included, ends operation by operation with a result or an
    exception (no undefined behaviour, deadlock or endless recursion) and leaves tables and
    stores that satisfy all that resolution and destruction rely on, whether or not some of
    the operations failed. The conditions: before each operation there is room for one more
    descriptor and name below the 32-bit sentinels; a scope is stopped or restarted, and a
    handle destroyed, only when the destruction hooks and the listeners of the two
    destruction phases let no exception escape, whatever their resolutions give (the code
    calls them from [noexcept] functions, where one would be [std::terminate]); the contexts
    an operation names exist, bound objects are not null, and a handle is copied or
    destroyed while it is counted, copied only to an object that still exists. *)
Theorem context_stays_ready (W : t) (ops : list op) : running W → permitted ops W →
  let '(rs, W') := execs ops W in
  Forall (λ r, r = Ok tt ∨ ∃ e, r = Throw e) rs ∧ running W' ∧
  env_ok (env_of H W') ∧ inv (env_of H W') (rt W').
Proof.
  intros HW Hp. destruct (execs_run ops W HW Hp) as [H1 H2].
  destruct (execs ops W) as [rs W']. split_and!; [done|done|by apply (running_env HG)|by apply H2].
Qed.

(** A request, by type or by type and name. *)
Definition request (ctx : option ptr) (g : TypeInfo) (key : option string) : M t Handle.Bean :=
  match key with
  | None => resolve H fuel ctx g
  | Some k => resolve_named H fuel ctx g k
  end.

Definition requested (W : t) (key : option string) : NameId :=
  match key with None => kUnnamed | Some k => NameInterning.lookup (names W) k end.

Lemma request_run ctx g key W b W' : request ctx g key W = (Ok b, W') →
  on_rt H (λ E, Runtime.resolve E fuel ctx (typeIdFor g W) (requested W key)) W = (Ok b, W') ∧
  (∀ k, key = Some k → requested W key ≠ kInvalidNameId).
Proof.
  destruct key as [k|]; [|done]. cbn [request requested]. unfold resolve_named, mbind_ at 1, mget. cbv zeta.
  destruct (N.eqb_spec (NameInterning.lookup (names W) k) kInvalidNameId) as [|Hn]; [done|].
  intros Hr. split; [exact Hr|done].
Qed.

(** The descriptor a request is served from. *)
Lemma request_typed (W : t) (ctx : option ptr) (g : TypeInfo) (key : option string) :
  running W → fuelled 0 W → Contexts.live ctx W →
  match request ctx g key W with
  | (Ok b, W') => running W' ∧ (∃ R, W' = set_rt R W) ∧ ∃ d x c, DescriptorTable.at_ (descs W) d = Some x ∧
      DescriptorTable.coldAt (descs W) d = Some c ∧ exposedType c = typeIdFor g W ∧
      name c = Contexts.wanted ctx W (typeIdFor g W) (requested W key) ∧
      (∀ k, key = Some k → k ≠ ""%string → NameInterning.nameOf (names W) (name c) = Some k) ∧
      served (env_of H W) d x ctx (rt W) (rt W') b
  | (Throw _, _) => True
  | _ => False
  end.
Proof.
  intros HW HF Hl.
  assert (ends never (request ctx g key) W (λ _, keeps) (λ _, keeps)) as Hends.
  { destruct key as [k|]; cbn [request].
    - eapply ends_run; [done|]. cbv zeta.
      destruct (_ =? kInvalidNameId); [by apply ends_throw|]. by apply (request_runs HG).
    - eapply ends_run; [done|]. by apply (request_runs HG). }
  unfold ends in Hends. destruct (request ctx g key W) as [[b|e| | |] W'] eqn:Hr; [|done..].
  apply request_run in Hr as [Hr Hname]. unfold on_rt in Hr.
  pose proof (resolve_fuel_spec (env_of H W) (running_env HG _ HW) fuel ctx (typeIdFor g W)
    (requested W key) (rt W) (live_valid _ _ _ Hl) (rn_inv _ HW) (fuel_enough _ _ _ _ HF)) as Hspec.
  unfold ends in Hspec.
  destruct (Runtime.resolve _ _ _ _ _ _) as [o R']. injection Hr as -> <-.
  destruct Hspec as (HR' & i & d & x & Hi & Hsel & Hx & Hserved).
  split; [by apply running_good|]. split; [by eexists|].
  rewrite Contexts.live_scope in Hi by done. injection Hi as <-.
  destruct (selected_typed (env_of H W) _ _ _ _ (rn_tables _ HW) Hsel) as (c & Hc & Hty & Hn).
  rewrite Contexts.effective_wanted in Hn by (try done; apply HW).
  exists d, x, c. split_and!; try done. intros k -> Hk. cbn [requested] in *.
  pose proof (NameInterning.lookup_cases k _ (rn_names _ HW) (Hname k eq_refl)) as Hof.
  rewrite Hn. unfold Contexts.wanted. rewrite decide_True; [done|].
  intros Hz. rewrite Hz in Hof. pose proof (NameInterning.wf_unnamed _ (rn_names _ HW)) as H0.
  change kUnnamed with 0 in Hof. rewrite H0 in Hof. by injection Hof.
Qed.


(** C9 Resolution is well typed: in a running context, whatever was bound to it since it
    started, a request that returns gives a handle to a descriptor of the type that was
    asked for, under the name that was asked for, or under the default name of the scope
    or the root for an unnamed request; and the handle is of the kind the descriptor's
    lifetime calls for: the object itself, a proxy through the scope, or a thread-local
    reference. *)
Theorem resolve_typed (W : t) (ctx : option ptr) (g : TypeInfo) (key : option string) :
  running W → fuelled 0 W → Contexts.live ctx W →
  match request ctx g key W with
  | (Ok b, W') => ∃ d x c, DescriptorTable.at_ (descs W) d = Some x ∧
      DescriptorTable.coldAt (descs W) d = Some c ∧ exposedType c = typeIdFor g W ∧
      name c = Contexts.wanted ctx W (typeIdFor g W) (requested W key) ∧
      (∀ k, key = Some k → k ≠ ""%string → NameInterning.nameOf (names W) (name c) = Some k) ∧
      served (env_of H W) d x ctx (rt W) (rt W') b
  | (Throw _, _) => True
  | _ => False
  end.
Proof.
  intros HW HF Hl. pose proof (request_typed W ctx g key HW HF Hl) as Hr.
  destruct (request ctx g key W) as [[b|e| | |] W']; [|done..]. apply Hr.
Qed.

End serving.

(** ** Witnesses *)

(** A class the registry has not seen, and one that another type id names. *)
Definition widget : BoundType :=
  {| bt_name := "W"; bt_typeInfo := 71; bt_isContext := false; bt_destroy := 0;
     bt_preDestroy := None; bt_dealloc := 0; bt_size := 8; bt_align := 8 |}.

(** A scope with a session object, a named singleton bound twice (the second binding is
    refused), a default, a listener, requests in between, a restart and a stop. *)
Definition session : list op :=
  [ResolveScope "desk" 700; BindSession 700 widget 800 "" 0; ScopeStart 700;
   Resolve (Some 700) 71; BindSingleton widget 900 "main" 5; BindSingleton widget 901 "main" 5;
   ResolveNamed (Some 700) 71 "main"; DefaultNamed None 41 "main"; OnAny (Some 700) 0 3 1%Z;
   Resolve None 41; BindSession 700 widget 801 "spare" 2; DefaultClear None 41;
   Resolve (Some 700) 43; ScopeRestart 700; Resolve (Some 700) 43; ScopeStop 700].

Lemma sample_calm W : Sweep.calm_env (env_of SampleWorld.host W).
Proof. split; [done|]. intros ph ty em cbs bean _ _. by apply Forall_true. Qed.

Ltac permitted_step :=
  repeat first [apply sample_calm|split]; first [by vm_compute; eexists | by vm_compute | by vm_compute; lia | vm_compute; congruence].

Lemma session_permitted : permitted SampleWorld.host 200 session SampleWorld.app.
Proof.
  cbn [session permitted allowed Contexts.live]. permitted_step.
Qed.

Lemma context_stays_ready_witness :
  let '(rs, W') := execs SampleWorld.host 200 session SampleWorld.app in
  running SampleWorld.host ∅ W' ∧ inv (env_of SampleWorld.host W') (rt W') ∧
  rs !! 0%nat = Some (Ok tt) ∧
  rs !! 5%nat = Some (Throw (exists_error "W" "main")).
Proof.
  pose proof (context_stays_ready SampleWorld.host 200 ∅ Starting.sample_host SampleWorld.app session
    Starting.app_running session_permitted) as Hs.
  assert ((execs SampleWorld.host 200 session SampleWorld.app).1 !! 0%nat = Some (Ok tt)) as H0
    by (vm_compute; reflexivity).
  assert ((execs SampleWorld.host 200 session SampleWorld.app).1 !! 5%nat =
    Some (Throw (exists_error "W" "main"))) as H5 by (vm_compute; reflexivity).
  destruct (execs SampleWorld.host 200 session SampleWorld.app) as [rs W'].
  destruct Hs as (_ & HW & _ & HI). by split_and!.
Defined.

(** The object that was bound under a name, and the factory of type 0. *)
Lemma resolve_typed_witness :
  let W := (execs SampleWorld.host 200 [BindSingleton widget 900 "main" 5] SampleWorld.app).2 in
  (request SampleWorld.host 200 None 71 (Some "main"%string) W).1 = Ok (Handle.makeDirect 900 kInvalidSlotId 7 1) ∧
  ∃ d c, DescriptorTable.coldAt (descs W) d = Some c ∧ exposedType c = 7 ∧
    NameInterning.nameOf (names W) (name c) = Some "main"%string.
Proof.
  intros W.
  assert (running SampleWorld.host ∅ W) as HW.
  { pose proof (bindSingleton_spec SampleWorld.host 200 ∅ Starting.sample_host SampleWorld.app widget 900
      "main" 5 Starting.app_running) as Hs.
    destruct Hs as (n & W1 & Hi & _ & Hspec); [split; vm_compute; [done|done|lia]|done|].
    assert ((internNameSafe "main" SampleWorld.app).1 = Ok 1) as Hn by (vm_compute; reflexivity).
    rewrite Hi in Hn. injection Hn as ->.
    replace (taken SampleWorld.app (adopted widget SampleWorld.app) 1 5) with false in Hspec
      by (vm_compute; reflexivity).
    cbn [bt_isContext widget] in Hspec. unfold ends in Hspec. unfold W. cbn [execs exec].
    assert ((bindSingleton SampleWorld.host 200 widget 900 "main" 5 SampleWorld.app).1 = Ok tt) as Ho
      by (vm_compute; reflexivity).
    destruct (bindSingleton SampleWorld.host 200 widget 900 "main" 5 SampleWorld.app) as [o W'].
    cbn [fst] in Ho. subst o. cbn [snd]. apply Hspec. }
  assert (fuelled 200 0 W) as HF by (vm_compute; lia).
  assert ((request SampleWorld.host 200 None 71 (Some "main"%string) W).1 =
    Ok (Handle.makeDirect 900 kInvalidSlotId 7 1)) as Ho by (vm_compute; reflexivity).
  assert (typeIdFor 71 W = 7) as Hty by (vm_compute; reflexivity).
  pose proof (resolve_typed SampleWorld.host 200 ∅ Starting.sample_host W None 71 (Some "main"%string) HW HF I) as Hs.
  split; [exact Ho|].
  destruct (request SampleWorld.host 200 None 71 (Some "main"%string) W) as [o W']. cbn [fst] in Ho. subst o.
  destruct Hs as (d & x & c & _ & Hc & He & _ & Hn & _). exists d, c. split; [exact Hc|].
  split; [by rewrite He|by apply Hn].
Defined.

(** C10 What [bindSingleton] does on a started context: [ctr::BeanContext] is refused; so
    is a type, name and priority that some descriptor already has, without any change of
    descriptors, index, stores or trace; otherwise, whether or not a listener throws, the
    object is stored under a new singleton descriptor and every request of every context
    selects, from then on, what the descriptors' priorities say. *)
Theorem bindSingleton_decides `{SS : StdSort} (H : host) (fuel : nat) (known : gset ptr)
    (W : t) (T : BoundType) (object : ptr) (bindName : string) (prio : Z) :
  host_good H known → running H known W → room fuel W → object ≠ nullptr →
  ∃ n W1, internNameSafe bindName W = (Ok n, W1) ∧
  if bt_isContext T then
    bindSingleton H fuel T object bindName prio W = (Throw context_bind_error, W1)
  else if taken W (adopted T W) n prio then
    ∃ W', bindSingleton H fuel T object bindName prio W =
        (Throw (exists_error (bt_name T) bindName), W') ∧
      descs W' = descs W ∧ index W' = index W ∧ rt W' = rt W
  else
    let post W' := bound_singleton H known W W' (adopted T W) n prio object in
    ends never (bindSingleton H fuel T object bindName prio) W (λ _ W', post W') (λ _ W', post W').
Proof.
  intros HG HW HR Hp.
  destruct (bindSingleton_spec H fuel known HG W T object bindName prio HW HR Hp)
    as (n & W1 & Hi & _ & Hspec).
  exists n, W1. split; [done|]. destruct (bt_isContext T); [done|].
  destruct (taken _ _ _ _); [|done].
  destruct Hspec as (W' & Heq & _ & HD & HI & _ & Hrt). by exists W'.
Qed.

Lemma bindSingleton_decides_witness :
  ∃ W', bindSingleton SampleWorld.host 200 widget 900 "main" 5 SampleWorld.app = (Ok tt, W') ∧
    bound_singleton SampleWorld.host ∅ SampleWorld.app W' 7 1 5 900 ∧
    SingletonStore.value (Runtime.singletons_ (rt W')) 7 = 900.
Proof.
  destruct (bindSingleton_decides SampleWorld.host 200 ∅ SampleWorld.app widget 900 "main" 5
    Starting.sample_host Starting.app_running) as (n & W1 & Hi & Hspec).
  { split; vm_compute; [done|done|lia]. }
  { done. }
  assert ((internNameSafe "main" SampleWorld.app).1 = Ok 1) as Hn by (vm_compute; reflexivity).
  rewrite Hi in Hn. injection Hn as ->.
  replace (adopted widget SampleWorld.app) with 7 in Hspec by (vm_compute; reflexivity).
  replace (taken SampleWorld.app 7 1 5) with false in Hspec by (vm_compute; reflexivity).
  cbn [bt_isContext widget] in Hspec. unfold ends in Hspec.
  assert ((bindSingleton SampleWorld.host 200 widget 900 "main" 5 SampleWorld.app).1 = Ok tt) as Ho
    by (vm_compute; reflexivity).
  destruct (bindSingleton SampleWorld.host 200 widget 900 "main" 5 SampleWorld.app) as [o W'].
  cbn [fst] in Ho. subst o. exists W'. split; [done|]. split; [exact Hspec|].
  destruct Hspec as [_ _ _ Hv _].
  replace (DescriptorTable.size (descs SampleWorld.app)) with 7 in Hv by (vm_compute; reflexivity). done.
Defined.

End Serving.
