(* ===== verification/Reflection.v ===== *)
(** What the compile-time half reads: the reflection of a program.

    The descriptor generator ([internal/detail/*Gen.hpp], [internal/Discovery.hpp])
    is [consteval] code over [std::meta].  [Module Meta] has the entities of a
    program with the facts [std::meta] tells about them, its queries, the annotations
    of [api/ctr/Markers.hpp], and the outcome of constant evaluation: a value or a
    diagnostic. *)
From S2P Require Import Prelude.

Local Open Scope N_scope.

Module Meta.

(** ** Constant evaluation *)

(** Why a translation unit is rejected: the [throw], the call of an undefined
    function and the [static_assert]s of the generator, an exception of [std::meta]
    that nothing catches, an access outside a vector, and the compiler's limit on
    nested constant evaluation. *)
Inductive diagnostic : Type :=
| FactoryWithLifetime
| RequiresNamespaceOrClassType
| LifetimeConflict
| EmptyNamedKey
| ConstructorConflict (typeName : string)
| MetaException
| OutOfBounds
| DepthLimit.

Inductive consteval (A : Type) : Type :=
| Value (a : A)
| IllFormed (d : diagnostic).
Arguments Value {A} _.
Arguments IllFormed {A} _.

#[export] Instance consteval_ret : MRet consteval := λ A, Value.
#[export] Instance consteval_bind : MBind consteval := λ A B k m,
  match m with Value a => k a | IllFormed d => IllFormed d end.

(** [for (auto a : l)] over a value carried along, by reference in the source. *)
Fixpoint foldM {A B} (f : A → B → consteval B) (l : list A) (b : B) : consteval B :=
  match l with
  | [] => Value b
  | a :: l' => b' ← f a b; foldM f l' b'
  end.

(** [static_assert(b, message)] *)
Definition static_assert (b : bool) (d : diagnostic) : consteval unit :=
  if b then Value tt else IllFormed d.

(** ** Annotations *)

(** A value of one of the annotation types of [api/ctr/Markers.hpp], or of any other
    type.  A [const char*] is null or a C string. *)
Inductive annotation : Type :=
| an_singleton (priority : Z) (lazy : bool)
| an_prototype (priority : Z)
| an_session (priority : Z)
| an_threadLocal (priority : Z)
| an_named (name : option string)
| an_factory
| an_postConstruct
| an_preDestroy
| an_scoped (name : option string)
| an_other (type : N).

(** [^^ctr::singleton] and so on. *)
Inductive marker : Type :=
| mk_singleton
| mk_prototype
| mk_session
| mk_threadLocal
| mk_named
| mk_factory
| mk_postConstruct
| mk_preDestroy
| mk_scoped
| mk_other (type : N).

#[export] Instance marker_eq_dec : EqDecision marker.
Proof. solve_decision. Defined.

(** [remove_const(type_of(ann))] *)
Definition type_of (ann : annotation) : marker :=
  match ann with
  | an_singleton _ _ => mk_singleton
  | an_prototype _ => mk_prototype
  | an_session _ => mk_session
  | an_threadLocal _ => mk_threadLocal
  | an_named _ => mk_named
  | an_factory => mk_factory
  | an_postConstruct => mk_postConstruct
  | an_preDestroy => mk_preDestroy
  | an_scoped _ => mk_scoped
  | an_other t => mk_other t
  end.

(** ** Entities *)

(** [std::meta::info]; [0] is [std::meta::info{}]. *)
Abbreviation info := N (only parsing).

Definition null_info : info := 0.

(** [TypeAlias t]: an alias of [t], which is not an alias itself. *)
Inductive kind : Type :=
| Namespace
| NamespaceAlias
| ClassType
| TypeAlias (target : info)
| OtherType
| Constructor
| OtherMember.

(** A base class relation and a parameter. *)
Record base_relation : Type := { base_type : info; is_public : bool }.

Record parameter : Type := { parameter_type : info; parameter_annotations : list annotation }.

(** An entity with the answers of the queries.  [identifier], [parent],
    [parameters], [template] are [None] where the query throws; [template] is the
    template and the arguments of a specialization; [virtual_bases] are the types for
    which [is_virtual_base_of_type(_, e)] holds. *)
Record entity : Type := {
  entity_kind : kind;
  identifier : option string;
  display_string : string;
  parent : option info;
  members : list info;
  bases : list base_relation;
  virtual_bases : list info;
  annotations : list annotation;
  special_member : bool;
  parameters : option (list parameter);
  return_type : option info;
  template : option (info * list info);
  type_size : N;
  type_align : N
}.

(** A program, with [^^ctr::Bean] and [^^std::unique_ptr]. *)
Record program : Type := {
  entity_of : info → entity;
  Bean_template : info;
  unique_ptr_template : info
}.

Section queries.
Context (P : program).

Definition is_namespace (e : info) : bool :=
  match entity_kind (entity_of P e) with Namespace | NamespaceAlias => true | _ => false end.

Definition is_namespace_alias (e : info) : bool :=
  match entity_kind (entity_of P e) with NamespaceAlias => true | _ => false end.

Definition is_type (e : info) : bool :=
  match entity_kind (entity_of P e) with
  | ClassType | TypeAlias _ | OtherType => true
  | _ => false
  end.

Definition is_type_alias (e : info) : bool :=
  match entity_kind (entity_of P e) with TypeAlias _ => true | _ => false end.

Definition is_constructor (e : info) : bool :=
  match entity_kind (entity_of P e) with Constructor => true | _ => false end.

Definition is_special_member_function (e : info) : bool := special_member (entity_of P e).

Definition dealias (e : info) : info :=
  match entity_kind (entity_of P e) with TypeAlias t => t | _ => e end.

(** An alias of a class type is a class type. *)
Definition is_class_type (e : info) : bool :=
  match entity_kind (entity_of P (dealias e)) with ClassType => true | _ => false end.

Definition is_same_type (a b : info) : bool := dealias a =? dealias b.

(** A query that throws when it does not apply. *)
Definition or_throw {A} (o : option A) : consteval A :=
  match o with Some a => Value a | None => IllFormed MetaException end.

Definition has_identifier (e : info) : bool := bool_decide (is_Some (identifier (entity_of P e))).

Definition identifier_of (e : info) : consteval string := or_throw (identifier (entity_of P e)).

Definition display_string_of (e : info) : string := display_string (entity_of P e).

Definition parent_of (e : info) : consteval info := or_throw (parent (entity_of P e)).

Definition members_of (e : info) : list info := members (entity_of P e).

Definition bases_of (e : info) : list base_relation := bases (entity_of P e).

Definition annotations_of (e : info) : list annotation := annotations (entity_of P e).

Definition parameters_of (e : info) : consteval (list parameter) :=
  or_throw (parameters (entity_of P e)).

Definition return_type_of (e : info) : consteval info := or_throw (return_type (entity_of P e)).

(** [None]: the query throws ([e] is not a specialization). *)
Definition template_arguments_of (e : info) : option (list info) :=
  snd <$> template (entity_of P e).

Definition template_of (e : info) : option info := fst <$> template (entity_of P e).

Definition is_virtual_base_of_type (base derived : info) : bool :=
  bool_decide (base ∈ virtual_bases (entity_of P derived)).

(** *** What every program satisfies *)

(** Scopes and base classes nest finitely ([scope] and [inheritance] are depths), what
    has a name is declared in a scope, a namespace is the scope of those declared in it,
    a constructor has a parameter list, and the target of an alias is not an alias. *)
Record nested (scope inheritance : info → nat) : Prop := {
  ns_parent e p : parent (entity_of P e) = Some p → (scope p < scope e)%nat;
  ns_named e s : identifier (entity_of P e) = Some s → is_Some (parent (entity_of P e));
  ns_member e m : is_namespace e = true → m ∈ members_of e → is_namespace m = true →
    is_namespace_alias m = false → parent (entity_of P m) = Some e;
  ns_base e b : b ∈ bases_of e →
    (inheritance (dealias (base_type b)) < inheritance e)%nat;
  ns_constructor e : is_constructor e = true → is_Some (parameters (entity_of P e));
  ns_alias e : dealias (dealias e) = dealias e
}.
End queries.

(** ** Reasoning about constant evaluation *)

Lemma value_bind {A B} (a : A) (k : A → consteval B) : (Value a ≫= k) = k a.
Proof. done. Qed.

Lemma bind_value {A B} (m : consteval A) (k : A → consteval B) b :
  (m ≫= k) = Value b → ∃ a, m = Value a ∧ k a = Value b.
Proof. destruct m; [by eauto|done]. Qed.

Lemma static_assert_value b d u : static_assert b d = Value u → b = true.
Proof. by destruct b. Qed.

Lemma or_throw_value {A} (o : option A) a : or_throw o = Value a → o = Some a.
Proof. destruct o; [by intros [= ->]|done]. Qed.

Lemma foldM_app {A B} (f : A → B → consteval B) l1 l2 b :
  foldM f (l1 ++ l2) b = (foldM f l1 b ≫= foldM f l2).
Proof.
  revert b. induction l1 as [|a l1 IH]; intros b; [done|]. cbn.
  destruct (f a b); [apply IH|done].
Qed.

(** A loop whose body always has a value. *)
Lemma foldM_value {A B} (f : A → B → consteval B) (g : A → B → B) l b :
  (∀ a b', a ∈ l → f a b' = Value (g a b')) →
  foldM f l b = Value (foldl (λ b' a, g a b') b l).
Proof.
  revert b. induction l as [|a l IH]; intros b Hf; [done|]. cbn.
  rewrite Hf by left. apply IH. intros a' b' Ha. apply Hf. by right.
Qed.
End Meta.

(** Take apart a hypothesis that a constant evaluation has a value. *)
Ltac consteval_inv :=
  repeat match goal with
  | H : mbind _ _ = Meta.Value _ |- _ =>
      let a := fresh "a" in let Ha := fresh "Ha" in
      apply Meta.bind_value in H; destruct H as (a & Ha & H)
  | H : Meta.static_assert _ _ = Meta.Value _ |- _ => apply Meta.static_assert_value in H
  | H : Meta.or_throw _ = Meta.Value _ |- _ => apply Meta.or_throw_value in H
  | H : Meta.Value _ = Meta.Value _ |- _ => injection H as H
  | H : mret _ = Meta.Value _ |- _ => injection H as H
  end.

(** Run the steps of a constant evaluation that are known to have a value. *)
Ltac consteval_run := rewrite Meta.value_bind; cbv beta iota zeta.
