(* ===== verification/Identities.v ===== *)
(** Names, identities and annotations of the entities that become beans.

    [Module IdentityGen] models [internal/detail/IdentityGen.hpp] and
    [computeIdentityForExposedType] of [DescriptorThunkGen.hpp]: the FNV-1a hash, the
    two-pass construction of a qualified name, the identities that [start()] merges
    contributions by, and the scan of an entity's annotations. *)
From Stdlib Require Import NArith Ascii String Wf_nat.
From S2P Require Import Prelude Tables Reflection.

Local Open Scope N_scope.

Module IdentityGen.
Import Meta.

(** ** FNV-1a, on 64 bits *)

Definition two64 : N := 18446744073709551616.

Definition fnv_offset : Identity := 14695981039346656037.

Definition fnv_prime : N := 1099511628211.

Fixpoint fnv1a64 (data : string) (seed : Identity) : Identity :=
  match data with
  | EmptyString => seed
  | String c data' =>
      fnv1a64 data' ((N.lxor seed (Ascii.N_of_ascii c) * fnv_prime) mod two64)
  end.

Definition fnv1a64Byte (b : N) (seed : Identity) : Identity :=
  (N.lxor seed b * fnv_prime) mod two64.

(** ** Qualified names *)

(** [std::size_t] arithmetic and [std::string_view::size()]. *)
Definition size_add (a b : N) : N := (a + b) mod two64.

Definition size_sub (a b : N) : N := (a + two64 - b) mod two64.

Definition size_of (s : string) : N := N.of_nat (String.length s).

(** [buffer[i] = c] and the loop that writes a segment from index [i] on. *)
Definition put (i : N) (c : Ascii.ascii) (buffer : list Ascii.ascii)
    : consteval (list Ascii.ascii) :=
  if i <? nlen buffer then Value (vset i c buffer) else IllFormed OutOfBounds.

Fixpoint put_string (i : N) (s : string) (buffer : list Ascii.ascii)
    : consteval (list Ascii.ascii) :=
  match s with
  | EmptyString => Value buffer
  | String c s' => b ← put i c buffer; put_string (size_add i 1) s' b
  end.

Section names.
Context (P : program).

Definition isTemplateSpecialization (e : info) : bool :=
  match template_arguments_of P e with
  | Some args => 0 <? nlen args
  | None => false
  end.

Definition parentInScope (parent : info) : bool :=
  is_namespace P parent || (is_type P parent && is_class_type P parent).

(** The segment and [stopAfterSegment]. *)
Definition parentSegment (parent : info) : consteval (string * bool) :=
  if negb (has_identifier P parent) then Value (""%string, false)
  else if is_type P parent && is_class_type P parent && isTemplateSpecialization parent
  then Value (display_string_of P parent, true)
  else s ← identifier_of P parent; Value (s, false).

(** The first pass: [segmentLength] and [segmentCount]. *)
Fixpoint measure_segments (limit : nat) (parent : info) (segmentLength segmentCount : N)
    : consteval (N * N) :=
  match limit with
  | O => IllFormed DepthLimit
  | S limit' =>
      if parentInScope parent then
        '(segment, stopAfterSegment) ← parentSegment parent;
        if size_of segment =? 0 then Value (segmentLength, segmentCount)
        else
          let segmentLength := size_add segmentLength (size_of segment) in
          let segmentCount := size_add segmentCount 1 in
          if (stopAfterSegment : bool) then Value (segmentLength, segmentCount)
          else p ← parent_of P parent; measure_segments limit' p segmentLength segmentCount
      else Value (segmentLength, segmentCount)
  end.

(** The separator in front of what is written so far. *)
Definition put_separator (writeEnd : N) (buffer : list Ascii.ascii)
    : consteval (N * list Ascii.ascii) :=
  if 0 <? writeEnd then
    let writeEnd := size_sub writeEnd 2 in
    b ← put writeEnd ":"%char buffer;
    b' ← put (size_add writeEnd 1) ":"%char b;
    Value (writeEnd, b')
  else Value (writeEnd, buffer).

(** The second pass: every segment goes to its final place, from the end. *)
Fixpoint write_segments (limit : nat) (parent : info) (writeEnd : N)
    (buffer : list Ascii.ascii) : consteval (list Ascii.ascii) :=
  match limit with
  | O => IllFormed DepthLimit
  | S limit' =>
      if parentInScope parent then
        '(segment, stopAfterSegment) ← parentSegment parent;
        if size_of segment =? 0 then Value buffer
        else
          '(writeEnd, b) ← put_separator writeEnd buffer;
          let writeEnd := size_sub writeEnd (size_of segment) in
          b' ← put_string writeEnd segment b;
          if (stopAfterSegment : bool) then Value b'
          else p ← parent_of P parent; write_segments limit' p writeEnd b'
      else Value buffer
  end.

Definition qualifiedNameOf (limit : nat) (entity : info) : consteval string :=
  if isTemplateSpecialization entity then Value (display_string_of P entity)
  else
    entitySegment ← identifier_of P entity;
    parent ← parent_of P entity;
    '(segmentLength, segmentCount) ←
      measure_segments limit parent (size_of entitySegment) 1;
    let totalLength := size_add segmentLength
      (if 1 <? segmentCount then (size_sub segmentCount 1 * 2) mod two64 else 0) in
    let buffer := replicate (N.to_nat totalLength) Ascii.zero in
    let writeEnd := size_sub totalLength (size_of entitySegment) in
    b ← put_string writeEnd entitySegment buffer;
    b' ← write_segments limit parent writeEnd b;
    Value (String.string_of_list_ascii b').
End names.

(** ** Identities *)

(** [static_cast<std::uint8_t>(lifetime)] *)
Definition lifetime_byte (lt : Lifetime) : N :=
  match lt with Prototype => 0 | Singleton => 1 | Session => 2 | ThreadLocal => 3 end.

Definition computeIdentityForType (typeName beanName : string) (lt : Lifetime) : Identity :=
  let h := fnv1a64Byte 0 fnv_offset in
  let h := fnv1a64 typeName h in
  let h := fnv1a64 ";" h in
  let h := fnv1a64 beanName h in
  let h := fnv1a64 ";" h in
  fnv1a64Byte (lifetime_byte lt) h.

(** [producerName] is [identifier_of(producerMethod)]. *)
Definition computeIdentityForProduct (producerName factoryName beanName : string)
    (lt : Lifetime) : Identity :=
  let h := fnv1a64Byte 1 fnv_offset in
  let h := fnv1a64 factoryName h in
  let h := fnv1a64 "::" h in
  let h := fnv1a64 producerName h in
  let h := fnv1a64 ";" h in
  let h := fnv1a64 beanName h in
  let h := fnv1a64 ";" h in
  fnv1a64Byte (lifetime_byte lt) h.

Definition computeIdentityForExposedType (baseName concreteName beanName : string)
    (lt : Lifetime) : Identity :=
  let h := fnv1a64Byte 2 fnv_offset in
  let h := fnv1a64 baseName h in
  let h := fnv1a64 ";" h in
  let h := fnv1a64 concreteName h in
  let h := fnv1a64 ";" h in
  let h := fnv1a64 beanName h in
  let h := fnv1a64 ";" h in
  fnv1a64Byte (lifetime_byte lt) h.

(** ** Annotations *)

Record AnnotationScan : Type := {
  scanned_lifetime : Lifetime;
  scanned_priority : Z;
  scanned_name : string;
  scanned_lazy : bool;
  lifetimeConflict : bool;
  hasLifetimeMarker : bool;
  emptyNameError : bool
}.

Definition empty_scan : AnnotationScan :=
  {| scanned_lifetime := Singleton; scanned_priority := 0; scanned_name := ""; scanned_lazy := true;
     lifetimeConflict := false; hasLifetimeMarker := false; emptyNameError := false |}.

(** One lifetime marker; only [singleton] writes [lazy]. *)
Definition see_lifetime (lt : Lifetime) (priority : Z) (lazy : bool) (r : AnnotationScan)
    : AnnotationScan :=
  {| scanned_lifetime := lt; scanned_priority := priority; scanned_name := scanned_name r;
     scanned_lazy := lazy; lifetimeConflict := hasLifetimeMarker r || lifetimeConflict r;
     hasLifetimeMarker := true; emptyNameError := emptyNameError r |}.

(** [""] for a null pointer. *)
Definition c_string (n : option string) : string := default ""%string n.

Definition see_named (n : option string) (r : AnnotationScan) : AnnotationScan :=
  {| scanned_lifetime := scanned_lifetime r; scanned_priority := scanned_priority r; scanned_name := c_string n;
     scanned_lazy := scanned_lazy r; lifetimeConflict := lifetimeConflict r;
     hasLifetimeMarker := hasLifetimeMarker r;
     emptyNameError := emptyNameError r || (size_of (c_string n) =? 0) |}.

Definition scan_annotation (r : AnnotationScan) (ann : annotation) : AnnotationScan :=
  match ann with
  | an_singleton priority lazy => see_lifetime Singleton priority lazy r
  | an_prototype priority => see_lifetime Prototype priority (scanned_lazy r) r
  | an_session priority => see_lifetime Session priority (scanned_lazy r) r
  | an_threadLocal priority => see_lifetime ThreadLocal priority (scanned_lazy r) r
  | an_named n => see_named n r
  | _ => r
  end.

Definition scanAnnotations (P : program) (entity : info) : AnnotationScan :=
  foldl scan_annotation empty_scan (annotations_of P entity).

(** ** Qualified names: the two passes write the scopes in front of the name *)

Lemma size_add_small a b : a + b < two64 → size_add a b = a + b.
Proof. apply N.mod_small. Qed.

Lemma size_sub_small a b : b ≤ a → a < two64 → size_sub a b = a - b.
Proof.
  intros H1 H2. unfold size_sub. replace (a + two64 - b) with (a - b + 1 * two64) by lia.
  rewrite N.Div0.mod_add. apply N.mod_small. lia.
Qed.

Lemma size_of_app s t : size_of (s +:+ t) = size_of s + size_of t.
Proof.
  unfold size_of. assert (String.length (s +:+ t) = String.length s + String.length t)%nat as ->;
    [|lia].
  induction s as [|c s IH]; [done|]. simpl. by rewrite IH.
Qed.

Lemma size_of_list s : nlen (list_ascii_of_string s) = size_of s.
Proof.
  unfold nlen, size_of. f_equal. induction s as [|c s IH]; [done|]. simpl. by f_equal.
Qed.

Lemma list_ascii_app s t :
  list_ascii_of_string (s +:+ t) = list_ascii_of_string s ++ list_ascii_of_string t.
Proof. induction s as [|c s IH]; [done|]. simpl. by rewrite IH. Qed.

Lemma put_middle pre c0 c post :
  put (nlen pre) c (pre ++ c0 :: post) = Value (pre ++ c :: post).
Proof.
  unfold put. rewrite (proj2 (N.ltb_lt _ _)) by (rewrite nlen_app; unfold nlen; cbn; lia).
  f_equal. rewrite vset_insert. unfold nlen. rewrite Nat2N.id.
  by rewrite insert_app_r_alt, Nat.sub_diag by lia.
Qed.

Lemma put_string_middle s pre mid post :
  length mid = String.length s → nlen pre + size_of s < two64 →
  put_string (nlen pre) s (pre ++ mid ++ post) = Value (pre ++ list_ascii_of_string s ++ post).
Proof.
  revert pre mid. induction s as [|c s IH]; intros pre mid Hm Hlt.
  { by destruct mid. }
  destruct mid as [|c0 mid]; [done|]. injection Hm as Hm. cbn [put_string app].
  rewrite put_middle. cbn. rewrite size_add_small by (unfold size_of in Hlt; cbn in Hlt; lia).
  rewrite <-(nlen_snoc pre c).
  replace (pre ++ c :: mid ++ post) with ((pre ++ [c]) ++ mid ++ post) by by rewrite <-app_assoc.
  rewrite IH by (done || (rewrite nlen_snoc; unfold size_of in *; cbn in Hlt; lia)).
  by rewrite <-app_assoc.
Qed.

(** Writing a string so that it ends where [post] starts. *)
Lemma put_string_end s w post : size_of s ≤ w → w < two64 →
  put_string (w - size_of s) s (replicate (N.to_nat w) Ascii.zero ++ post)
  = Value (replicate (N.to_nat (w - size_of s)) Ascii.zero ++ list_ascii_of_string s ++ post).
Proof.
  intros H1 H2. set (a := N.to_nat (w - size_of s)).
  assert (N.to_nat w = a + String.length s)%nat as ->.
  { unfold a, size_of in *. lia. }
  rewrite replicate_add, <-app_assoc.
  assert (w - size_of s = nlen (replicate a Ascii.zero)) as ->.
  { unfold nlen. rewrite length_replicate. unfold a. lia. }
  apply put_string_middle; [by rewrite length_replicate|].
  unfold nlen. rewrite length_replicate. unfold a. lia.
Qed.

Section qualified.
Context (P : program) (scope inheritance : info → nat).
Hypothesis HN : nested P scope inheritance.

(** What one enclosing entity contributes, and whether it is the last one: an unnamed
    scope contributes nothing, and a specialization's name is qualified already. *)
Definition segment_of (p : info) : string * bool :=
  match identifier (entity_of P p) with
  | None => (""%string, false)
  | Some s =>
      if is_type P p && is_class_type P p && isTemplateSpecialization P p
      then (display_string_of P p, true) else (s, false)
  end.

(** The names in front of an entity declared in [p], from the innermost on. *)
Inductive scopes : info → list string → Prop :=
| scopes_end p : parentInScope P p = false ∨ size_of (segment_of p).1 = 0 → scopes p []
| scopes_last p s : parentInScope P p = true → segment_of p = (s, true) → size_of s ≠ 0 →
    scopes p [s]
| scopes_next p s q path : parentInScope P p = true → segment_of p = (s, false) →
    size_of s ≠ 0 → parent (entity_of P p) = Some q → scopes q path → scopes p (s :: path).

Definition qualify (name : string) (path : list string) : string :=
  foldl (λ acc s, s +:+ "::" +:+ acc) name path.

(** The characters and separators of the scopes. *)
Definition prefix_size (path : list string) : N :=
  foldr (λ s n, size_of s + 2 + n) 0 path.

Lemma prefix_size_cons s path : prefix_size (s :: path) = size_of s + 2 + prefix_size path.
Proof. done. Qed.

Lemma prefix_size_nlen path : 2 * nlen path ≤ prefix_size path.
Proof.
  induction path as [|s path IH]; [done|]. rewrite prefix_size_cons.
  change (s :: path) with ([s] ++ path). rewrite nlen_app. change (nlen [s]) with 1. lia.
Qed.

Lemma qualify_size name path : size_of (qualify name path) = size_of name + prefix_size path.
Proof.
  revert name. induction path as [|s path IH]; intros name; cbn [qualify foldl prefix_size foldr].
  { lia. }
  fold (qualify (s +:+ "::" +:+ name) path) (prefix_size path).
  rewrite IH, !size_of_app. change (size_of "::") with 2. lia.
Qed.

Lemma parentSegment_of p : parentSegment P p = Value (segment_of p).
Proof.
  unfold parentSegment, segment_of, has_identifier, identifier_of.
  destruct (identifier (entity_of P p)) as [s|] eqn:E.
  - rewrite bool_decide_eq_true_2 by by exists s. change (negb true) with false. cbv iota.
    by destruct (_ && _ && _).
  - by rewrite bool_decide_eq_false_2 by by intros [? ?].
Qed.

Lemma scopes_exist p : ∃ path, scopes p path.
Proof.
  induction p as [p IH] using (well_founded_ind (Wf_nat.well_founded_ltof _ scope)).
  destruct (parentInScope P p) eqn:Hin; [|exists []; apply scopes_end; by left].
  destruct (segment_of p) as [s stop] eqn:Hs.
  destruct (decide (size_of s = 0)) as [H0|H0].
  { exists []. apply scopes_end. right. by rewrite Hs. }
  destruct stop; [exists [s]; by apply scopes_last|].
  assert (∃ q, parent (entity_of P p) = Some q) as [q Hq].
  { unfold segment_of in Hs. destruct (identifier (entity_of P p)) as [s'|] eqn:Hi.
    - destruct (ns_named _ _ _ HN p s' Hi) as [q Hq]. by exists q.
    - injection Hs as <-. by destruct H0. }
  destruct (IH q (ns_parent _ _ _ HN _ _ Hq)) as [path Hp].
  exists (s :: path). by eapply scopes_next.
Qed.

Lemma measure_scopes p path : scopes p path → ∀ limit len count, (scope p < limit)%nat →
  len + prefix_size path < two64 → count + nlen path < two64 →
  measure_segments P limit p len count
  = Value (len + prefix_size path - 2 * nlen path, count + nlen path).
Proof.
  induction 1 as [p He|p s Hin Hs H0|p s q path Hin Hs H0 Hq _ IH];
    intros [|limit] len count Hl Hlen Hcount; try lia; cbn [measure_segments].
  - change (prefix_size []) with 0. change (nlen (@nil string)) with 0.
    replace (len + 0 - 2 * 0) with len by lia. rewrite N.add_0_r.
    destruct (parentInScope P p) eqn:Hin; [|done]. destruct He as [?|He]; [done|].
    rewrite parentSegment_of. destruct (segment_of p) as [s stop]. cbn in *. by rewrite He.
  - rewrite Hin, parentSegment_of, Hs. change (nlen [s]) with 1 in *.
    change (prefix_size [s]) with (size_of s + 2 + 0) in *. cbn.
    rewrite (proj2 (N.eqb_neq _ _)) by done.
    rewrite !size_add_small by lia. do 2 f_equal. lia.
  - rewrite Hin, parentSegment_of, Hs. cbn [prefix_size foldr] in *. fold (prefix_size path) in *.
    change (s :: path) with ([s] ++ path) in *. rewrite nlen_app in *.
    change (nlen [s]) with 1 in *. cbn. rewrite (proj2 (N.eqb_neq _ _)) by done.
    unfold parent_of. rewrite Hq. cbn. rewrite !size_add_small by lia.
    rewrite IH; [do 2 f_equal; lia| |lia..].
    pose proof (ns_parent _ _ _ HN _ _ Hq). lia.
Qed.

Lemma put_separator_end w post : 2 ≤ w → w < two64 →
  put_separator w (replicate (N.to_nat w) Ascii.zero ++ post)
  = Value (w - 2, replicate (N.to_nat (w - 2)) Ascii.zero ++ list_ascii_of_string "::" ++ post).
Proof.
  intros H1 H2. unfold put_separator. rewrite (proj2 (N.ltb_lt _ _)) by lia.
  rewrite size_sub_small by lia. change 2 with (size_of "::") at 1 2 3.
  pose proof (put_string_end "::" w post) as Hp. cbn [put_string] in Hp.
  specialize (Hp H1 H2). change (size_of "::") with 2 in *.
  destruct (put (w - 2) _ _) as [b|]; [|done]. cbn in Hp |- *.
  destruct (put (size_add (w - 2) 1) _ b) as [b'|]; [|done]. cbn in Hp |- *. by injection Hp as ->.
Qed.

Lemma write_scopes p path : scopes p path → ∀ limit acc w, (scope p < limit)%nat →
  w = prefix_size path → w < two64 →
  write_segments P limit p w (replicate (N.to_nat w) Ascii.zero ++ list_ascii_of_string acc)
  = Value (list_ascii_of_string (qualify acc path)).
Proof.
  induction 1 as [p He|p s Hin Hs H0|p s q path Hin Hs H0 Hq _ IH];
    intros [|limit] acc w Hl Hw Hlt; try lia; cbn [write_segments].
  - subst w. destruct (parentInScope P p) eqn:Hin; [|done]. destruct He as [?|He]; [done|].
    rewrite parentSegment_of. destruct (segment_of p) as [s stop]. cbn in *. by rewrite He.
  - rewrite Hin, parentSegment_of, Hs. change (prefix_size [s]) with (size_of s + 2 + 0) in *.
    cbn. rewrite (proj2 (N.eqb_neq _ _)) by done. rewrite put_separator_end by lia. consteval_run.
    rewrite size_sub_small, put_string_end by lia. consteval_run.
    replace (w - 2 - size_of s) with 0 by lia. by rewrite !list_ascii_app.
  - rewrite Hin, parentSegment_of, Hs.
    change (prefix_size (s :: path)) with (size_of s + 2 + prefix_size path) in *.
    cbn. rewrite (proj2 (N.eqb_neq _ _)) by done. rewrite put_separator_end by lia. consteval_run.
    rewrite size_sub_small, put_string_end by lia. consteval_run. unfold parent_of. rewrite Hq. cbn [or_throw]. consteval_run.
    rewrite <-!list_ascii_app. apply IH; [|lia..].
    pose proof (ns_parent _ _ _ HN _ _ Hq). lia.
Qed.

(** The name of an entity that is not a specialization: the names of its scopes, then
    its own; computed within the limit of the nesting. *)
Lemma qualifiedNameOf_scopes limit e id p path :
  isTemplateSpecialization P e = false → identifier (entity_of P e) = Some id →
  parent (entity_of P e) = Some p → scopes p path → (scope e ≤ limit)%nat →
  size_of (qualify id path) < two64 - 1 →
  qualifiedNameOf P limit e = Value (qualify id path).
Proof.
  intros Ht Hid Hp Hs Hl Hsize. unfold qualifiedNameOf, identifier_of, parent_of.
  rewrite Ht, Hid, Hp. cbn. pose proof (ns_parent _ _ _ HN _ _ Hp) as Hlt.
  rewrite qualify_size in Hsize.
  pose proof (prefix_size_nlen path) as Hn.
  rewrite (measure_scopes p path Hs) by lia. cbn.
  set (total := size_add _ _).
  assert (total = size_of id + prefix_size path) as ->.
  { unfold total. destruct (N.ltb_spec 1 (1 + nlen path)).
    - rewrite size_sub_small, (N.mod_small (_ * 2)) by lia. rewrite size_add_small by lia. lia.
    - rewrite size_add_small by lia. assert (prefix_size path = 0) as ->; [|lia].
      destruct path as [|s path']; [done|]. change (s :: path') with ([s] ++ path') in *.
      rewrite nlen_app in *. change (nlen [s]) with 1 in *. lia. }
  rewrite size_sub_small by lia.
  rewrite <-(app_nil_r (replicate _ _)), put_string_end by lia. cbn.
  replace (size_of id + prefix_size path - size_of id) with (prefix_size path) by lia.
  rewrite app_nil_r, (write_scopes p path Hs) by lia. cbn.
  by rewrite string_of_list_ascii_of_string.
Qed.
End qualified.

(** ** The hash *)

Lemma fnv1a64_app s t h : fnv1a64 (s +:+ t) h = fnv1a64 t (fnv1a64 s h).
Proof. revert h. induction s as [|c s IH]; intros h; [done|]. simpl. by rewrite IH. Qed.

Lemma fnv1a64Byte_char b h : b < 256 →
  fnv1a64Byte b h = fnv1a64 (String (Ascii.ascii_of_N b) "") h.
Proof. intros Hb. unfold fnv1a64Byte. simpl. by rewrite Ascii.N_ascii_embedding. Qed.

(** The prime is odd: multiplication by it is a permutation of the 64-bit words. *)
Definition fnv_inverse : N := 14886173955864302971.

Lemma fnv_prime_inverse : (fnv_prime * fnv_inverse) mod two64 = 1.
Proof. by vm_compute. Qed.

Lemma times_prime_inj a b : a < two64 → b < two64 →
  (a * fnv_prime) mod two64 = (b * fnv_prime) mod two64 → a = b.
Proof.
  intros Ha Hb He. assert (∀ x, x < two64 →
    (((x * fnv_prime) mod two64) * fnv_inverse) mod two64 = x) as Hinv.
  { intros x Hx. rewrite N.Div0.mul_mod_idemp_l, <-N.mul_assoc.
    by rewrite <-N.Div0.mul_mod_idemp_r, fnv_prime_inverse, N.mul_1_r, N.mod_small. }
  by rewrite <-(Hinv a Ha), <-(Hinv b Hb), He.
Qed.

Lemma lxor_lt a b : a < two64 → b < two64 → N.lxor a b < two64.
Proof.
  intros Ha Hb. change two64 with (2 ^ 64) in *.
  destruct (decide (N.lxor a b = 0)) as [->|Hx]; [done|].
  apply N.log2_lt_pow2; [lia|]. eapply N.le_lt_trans; [apply N.log2_lxor|].
  apply N.max_lub_lt; (destruct (decide (a = 0)) as [->|]; [done|]) || idtac;
    match goal with |- N.log2 ?x < _ => destruct (decide (x = 0)) as [->|]; [done|] end;
    by apply N.log2_lt_pow2; [lia|].
Qed.

Lemma fnv1a64_lt s h : h < two64 → fnv1a64 s h < two64.
Proof.
  revert h. induction s as [|c s IH]; intros h Hh; [done|]. apply IH. by apply N.mod_lt.
Qed.

Lemma ascii_lt c : Ascii.N_of_ascii c < two64.
Proof. eapply N.lt_trans; [apply Ascii.N_ascii_bounded|done]. Qed.

Lemma fnv1a64_state_inj s h h' : h < two64 → h' < two64 →
  fnv1a64 s h = fnv1a64 s h' → h = h'.
Proof.
  revert h h'. induction s as [|c s IH]; intros h h' Hh Hh' He; [done|].
  apply IH in He; [|by apply N.mod_lt..].
  apply times_prime_inj in He; [|by apply lxor_lt, ascii_lt..].
  apply (f_equal (λ x, N.lxor x (Ascii.N_of_ascii c))) in He.
  by rewrite !N.lxor_assoc, !N.lxor_nilpotent, !N.lxor_0_r in He.
Qed.

(** Two texts that differ in one character have different hashes. *)
Lemma fnv1a64_one_char s c c' t h : h < two64 → c ≠ c' →
  fnv1a64 (s +:+ String c t) h ≠ fnv1a64 (s +:+ String c' t) h.
Proof.
  intros Hh Hc He. apply Hc. rewrite !fnv1a64_app in He. cbn [fnv1a64] in He.
  pose proof (fnv1a64_lt s h Hh) as Hs.
  apply fnv1a64_state_inj in He; [|by apply N.mod_lt..].
  apply times_prime_inj in He; [|by apply lxor_lt, ascii_lt..].
  apply (f_equal (N.lxor (fnv1a64 s h))) in He.
  rewrite <-!N.lxor_assoc, !N.lxor_nilpotent, !N.lxor_0_l in He.
  rewrite <-(Ascii.ascii_N_embedding c), <-(Ascii.ascii_N_embedding c'). by rewrite He.
Qed.

(** ** The texts that are hashed *)

(** What an identity stands for: a discovered class, the product of a producer
    method, or a class seen as one of its bases. *)
Inductive subject : Type :=
| TypeBean (typeName beanName : string) (lt : Lifetime)
| ProductBean (factoryName producerName beanName : string) (lt : Lifetime)
| AliasBean (baseName concreteName beanName : string) (lt : Lifetime).

#[export] Instance subject_eq_dec : EqDecision subject.
Proof. solve_decision. Defined.

Definition identity_of (x : subject) : Identity :=
  match x with
  | TypeBean ty n lt => computeIdentityForType ty n lt
  | ProductBean fn pn n lt => computeIdentityForProduct pn fn n lt
  | AliasBean b c n lt => computeIdentityForExposedType b c n lt
  end.

Definition byte_string (b : N) : string := String (Ascii.ascii_of_N b) "".

(** The bytes in the order the three functions feed them to the hash. *)
Definition text (x : subject) : string :=
  match x with
  | TypeBean ty n lt =>
      byte_string 0 +:+ ty +:+ ";" +:+ n +:+ ";" +:+ byte_string (lifetime_byte lt)
  | ProductBean fn pn n lt =>
      byte_string 1 +:+ fn +:+ "::" +:+ pn +:+ ";" +:+ n +:+ ";" +:+ byte_string (lifetime_byte lt)
  | AliasBean b c n lt =>
      byte_string 2 +:+ b +:+ ";" +:+ c +:+ ";" +:+ n +:+ ";" +:+ byte_string (lifetime_byte lt)
  end.

Lemma identity_of_text x : identity_of x = fnv1a64 (text x) fnv_offset.
Proof.
  assert (∀ lt, lifetime_byte lt < 256) as Hlt by by intros [].
  destruct x; cbn [identity_of text]; unfold byte_string;
    rewrite !fnv1a64_app, <-!fnv1a64Byte_char by done;
    unfold computeIdentityForType, computeIdentityForProduct, computeIdentityForExposedType;
    reflexivity.
Qed.

(** Reading a text back. *)
Definition lifetime_of_byte (b : N) : option Lifetime :=
  match b with
  | 0 => Some Prototype | 1 => Some Singleton | 2 => Some Session | 3 => Some ThreadLocal
  | _ => None
  end.

Fixpoint until_semicolon (s : string) : option (string * string) :=
  match s with
  | EmptyString => None
  | String a s' =>
      if bool_decide (a = ";"%char) then Some (""%string, s')
      else '(x, y) ← until_semicolon s'; Some (String a x, y)
  end.

Fixpoint split_tail (s : string) : option (string * Lifetime) :=
  match s with
  | EmptyString => None
  | String a s' =>
      match s' with
      | String b EmptyString =>
          if bool_decide (a = ";"%char) then
            lt ← lifetime_of_byte (Ascii.N_of_ascii b); Some (""%string, lt)
          else None
      | _ => '(x, y) ← split_tail s'; Some (String a x, y)
      end
  end.

Fixpoint split_last_colons (s : string) : option (string * string) :=
  match s with
  | EmptyString => None
  | String a s' =>
      match split_last_colons s' with
      | Some (x, y) => Some (String a x, y)
      | None =>
          match s' with
          | String b s'' =>
              if bool_decide (a = ":"%char) && bool_decide (b = ":"%char)
              then Some (""%string, s'') else None
          | EmptyString => None
          end
      end
  end.

Definition parse (s : string) : option subject :=
  match s with
  | EmptyString => None
  | String k s' =>
      '(first, rest) ← until_semicolon s';
      match Ascii.N_of_ascii k with
      | 0 => '(n, lt) ← split_tail rest; Some (TypeBean first n lt)
      | 1 =>
          '(fn, pn) ← split_last_colons first;
          '(n, lt) ← split_tail rest; Some (ProductBean fn pn n lt)
      | 2 =>
          '(second, rest') ← until_semicolon rest;
          '(n, lt) ← split_tail rest'; Some (AliasBean first second n lt)
      | _ => None
      end
  end.

(** [c] does not occur in [s]. *)
Definition free_of (c : ascii) (s : string) : bool :=
  forallb (λ a, negb (bool_decide (a = c))) (list_ascii_of_string s).

(** Names of classes and methods: no [';'], and no [':'] in a method's identifier.
    Bean names are arbitrary. *)
Definition legal (x : subject) : bool :=
  match x with
  | TypeBean ty _ _ => free_of ";" ty
  | ProductBean fn pn _ _ => free_of ";" fn && free_of ";" pn && free_of ":" pn
  | AliasBean b c _ _ => free_of ";" b && free_of ";" c
  end.

Lemma until_semicolon_app s t : free_of ";" s = true →
  until_semicolon (s +:+ ";" +:+ t) = Some (s, t).
Proof.
  induction s as [|a s IH]; intros Hs; [done|]. cbn in Hs.
  apply andb_true_iff in Hs as [Ha Hs]. simpl. apply negb_true_iff in Ha. rewrite Ha.
  by rewrite IH.
Qed.

Lemma split_tail_app n lt :
  split_tail (n +:+ ";" +:+ byte_string (lifetime_byte lt)) = Some (n, lt).
Proof.
  induction n as [|a n IH]; [by destruct lt|]. simpl in *. rewrite IH.
  destruct n as [|b n]; [done|]. simpl. by destruct n.
Qed.

Lemma split_last_free s : free_of ":" s = true → split_last_colons s = None.
Proof.
  induction s as [|a s IH]; intros Hs; [done|]. cbn in Hs.
  apply andb_true_iff in Hs as [Ha Hs]. simpl. rewrite IH by done.
  apply negb_true_iff in Ha. rewrite Ha. by destruct s.
Qed.

Lemma split_last_app f m : free_of ":" m = true →
  split_last_colons (f +:+ "::" +:+ m) = Some (f, m).
Proof.
  intros Hm. induction f as [|a f IH]; simpl in *.
  - rewrite split_last_free by done. destruct m as [|b m]; [done|]. cbn in Hm.
    apply andb_true_iff in Hm as [Hb _]. apply negb_true_iff in Hb.
    change ("" +:+ String b m) with (String b m). cbv beta iota. rewrite Hb. done.
  - by rewrite IH.
Qed.

Lemma free_of_app c s t : free_of c (s +:+ t) = free_of c s && free_of c t.
Proof. unfold free_of. by rewrite list_ascii_app, forallb_app. Qed.

Lemma string_app_assoc (s t u : string) : (s +:+ t) +:+ u = s +:+ (t +:+ u).
Proof. induction s as [|c s IH]; [done|]. apply (f_equal (String c)), IH. Qed.

Lemma parse_type s : parse (byte_string 0 +:+ s) =
  '(ty, rest) ← until_semicolon s; '(n, lt) ← split_tail rest; Some (TypeBean ty n lt).
Proof. done. Qed.

Lemma parse_product s : parse (byte_string 1 +:+ s) =
  '(first, rest) ← until_semicolon s; '(fn, pn) ← split_last_colons first;
  '(n, lt) ← split_tail rest; Some (ProductBean fn pn n lt).
Proof. done. Qed.

Lemma parse_alias s : parse (byte_string 2 +:+ s) =
  '(b, rest) ← until_semicolon s; '(c, rest') ← until_semicolon rest;
  '(n, lt) ← split_tail rest'; Some (AliasBean b c n lt).
Proof. done. Qed.

Lemma parse_text x : legal x = true → parse (text x) = Some x.
Proof.
  intros Hx. destruct x as [ty n lt|fn pn n lt|b c n lt]; cbn [legal text] in *;
    rewrite ?andb_true_iff in Hx.
  - rewrite parse_type, until_semicolon_app by done. cbn -[split_tail append].
    by rewrite split_tail_app.
  - destruct Hx as [[Hf Hp] Hc]. rewrite parse_product.
    rewrite <-(string_app_assoc "::"), <-(string_app_assoc fn).
    rewrite until_semicolon_app by by rewrite !free_of_app, Hf, Hp.
    cbn -[split_tail split_last_colons append]. rewrite split_last_app by done.
    cbn -[split_tail append]. by rewrite split_tail_app.
  - destruct Hx as [Hb Hc]. rewrite parse_alias, until_semicolon_app by done.
    cbn -[split_tail until_semicolon append]. rewrite until_semicolon_app by done.
    cbn -[split_tail append]. by rewrite split_tail_app.
Qed.
End IdentityGen.
