(* ===== verification/Discovery.v ===== *)
(** Discovery: the entities of a program that become beans, and their members.

    [Module Discovery] models [internal/Discovery.hpp] (the enumeration of the
    annotated classes, the factories and their producer methods) and the member scan of
    [internal/detail/DescriptorThunkGen.hpp] (the compatible constructor and the hooks
    of a class and of its public bases). *)
From S2P Require Import Prelude Tables Reflection Identities.

Local Open Scope N_scope.

Module Discovery.
Import Meta IdentityGen.

(** ** [internal/Discovery.hpp] *)

Inductive EntityKind : Type := AnnotatedType | Factory | FactoryProduct.

#[export] Instance EntityKind_eq_dec : EqDecision EntityKind.
Proof. solve_decision. Defined.

Record DiscoveredEntity : Type := {
  entity : info;
  entityKind : EntityKind;
  declaringFactory : info
}.

Section discovery.
Context (P : program).

Definition hasAnnotationOfType (e : info) (markerType : marker) : bool :=
  existsb (λ ann, bool_decide (type_of ann = markerType)) (annotations_of P e).

Definition hasLifetimeMarker (e : info) : bool :=
  hasAnnotationOfType e mk_singleton || hasAnnotationOfType e mk_prototype
  || hasAnnotationOfType e mk_session || hasAnnotationOfType e mk_threadLocal.

(** A producer method of the factory [type]. *)
Definition add_product (type member : info) (result : list DiscoveredEntity)
    : list DiscoveredEntity :=
  if negb (is_type P member) && negb (is_special_member_function P member)
     && hasLifetimeMarker member
  then result ++ [{| entity := member; entityKind := FactoryProduct;
                     declaringFactory := type |}]
  else result.

Definition classifyType (type : info) (result : list DiscoveredEntity)
    : consteval (list DiscoveredEntity) :=
  if hasAnnotationOfType type mk_factory then
    if hasLifetimeMarker type then IllFormed FactoryWithLifetime
    else
      let result := result ++ [{| entity := type; entityKind := Factory;
                                  declaringFactory := null_info |}] in
      Value (foldl (λ r member, add_product type member r) result (members_of P type))
  else if hasLifetimeMarker type then
    Value (result ++ [{| entity := type; entityKind := AnnotatedType;
                         declaringFactory := null_info |}])
  else Value result.

Fixpoint processRoot (limit : nat) (root : info) (result : list DiscoveredEntity)
    : consteval (list DiscoveredEntity) :=
  match limit with
  | O => IllFormed DepthLimit
  | S limit' =>
      if is_namespace P root then
        foldM (λ member result,
          if is_namespace P member && negb (is_namespace_alias P member) then
            processRoot limit' member result
          else if is_type P member && is_class_type P member && negb (is_type_alias P member)
          then classifyType member result
          else Value result) (members_of P root) result
      else if is_type P root && is_class_type P root then classifyType root result
      else IllFormed RequiresNamespaceOrClassType
  end.

Definition enumerateDiscovery (limit : nat) (roots : list info)
    : consteval (list DiscoveredEntity) :=
  foldM (processRoot limit) roots [].

(** ** Members: the constructor and the hooks *)

Definition isBeanType (paramType : info) : bool :=
  let d := dealias P paramType in
  if negb (is_type P d) || negb (is_class_type P d) then false
  else
    match template_arguments_of P d with
    | Some args => (nlen args =? 1) && bool_decide (template_of P d = Some (Bean_template P))
    | None => false
    end.

(** [MemberScan]: [HookList] is a list. *)
Record MemberScan : Type := {
  ctor : info;
  postConstructHooks : list info;
  preDestroyHooks : list info;
  compatibleConstructorConflict : bool
}.

Definition empty_members : MemberScan :=
  {| ctor := null_info; postConstructHooks := []; preDestroyHooks := [];
     compatibleConstructorConflict := false |}.

(** The variables of [scanMembers] the scan functions share by reference. *)
Record scan : Type := {
  visitedBaseTypes : list info;
  found : MemberScan;
  compatibleConstructorCount : N
}.

Definition see_constructor (m : info) (s : scan) : scan :=
  let count := compatibleConstructorCount s + 1 in
  {| visitedBaseTypes := visitedBaseTypes s;
     found := {| ctor := m; postConstructHooks := postConstructHooks (found s);
                 preDestroyHooks := preDestroyHooks (found s);
                 compatibleConstructorConflict :=
                   (2 <=? count) || compatibleConstructorConflict (found s) |};
     compatibleConstructorCount := count |}.

Definition see_method (m : info) (s : scan) : scan :=
  {| visitedBaseTypes := visitedBaseTypes s;
     found := {| ctor := ctor (found s);
                 postConstructHooks := postConstructHooks (found s)
                   ++ (if hasAnnotationOfType m mk_postConstruct then [m] else []);
                 preDestroyHooks := preDestroyHooks (found s)
                   ++ (if hasAnnotationOfType m mk_preDestroy then [m] else []);
                 compatibleConstructorConflict := compatibleConstructorConflict (found s) |};
     compatibleConstructorCount := compatibleConstructorCount s |}.

Definition scan_member (includeConstructors : bool) (m : info) (s : scan) : consteval scan :=
  if includeConstructors && is_constructor P m then
    params ← parameters_of P m;
    let compatible := forallb (λ p, isBeanType (parameter_type p)) params in
    Value (if compatible then see_constructor m s else s)
  else if negb (is_type P m) && negb (is_special_member_function P m) then
    Value (see_method m s)
  else Value s.

Definition scanMembersOfType (type : info) (includeConstructors : bool) (s : scan)
    : consteval scan :=
  foldM (scan_member includeConstructors) (members_of P type) s.

Definition containsType (types : list info) (type : info) : bool :=
  existsb (λ current, is_same_type P current type) types.

Definition visit (type : info) (s : scan) : scan :=
  {| visitedBaseTypes := visitedBaseTypes s ++ [type]; found := found s;
     compatibleConstructorCount := compatibleConstructorCount s |}.

Fixpoint scanBaseHooks (limit : nat) (type : info) (s : scan) : consteval scan :=
  match limit with
  | O => IllFormed DepthLimit
  | S limit' =>
      foldM (λ baseRel s,
        if is_public baseRel then
          let baseTypeInfo := dealias P (base_type baseRel) in
          if negb (containsType (visitedBaseTypes s) baseTypeInfo) then
            s' ← scanBaseHooks limit' baseTypeInfo (visit baseTypeInfo s);
            scanMembersOfType baseTypeInfo false s'
          else Value s
        else Value s) (bases_of P type) s
  end.

Definition scanMembers (limit : nat) (type : info) : consteval MemberScan :=
  s ← scanBaseHooks limit type
        {| visitedBaseTypes := []; found := empty_members; compatibleConstructorCount := 0 |};
  s' ← scanMembersOfType type true s;
  Value (found s').

Definition scanMembersIfBean (limit : nat) (type : info) (isBean : bool) : consteval MemberScan :=
  if isBean then scanMembers limit type else Value empty_members.
End discovery.

(** [reverseInfos]: [infos.data[i - 1]] for [i] from [size] down to one. *)
Fixpoint reverse_from (infos : list info) (i : nat) : list info :=
  match i with
  | O => []
  | S i' => option_list (infos !! i') ++ reverse_from infos i'
  end.

Definition reverseInfos (infos : list info) : list info := reverse_from infos (length infos).

(** The calls of [postConstructThunkImpl] and [preDestroyThunkImpl], in order. *)
Definition postConstructCalls (r : MemberScan) : list info := postConstructHooks r.

Definition preDestroyCalls (r : MemberScan) : list info := reverseInfos (preDestroyHooks r).

(** ** What the enumeration finds *)

Section enumeration.
Context (P : program) (scope inheritance : info → nat) (limit : nat).
Hypothesis HP : nested P scope inheritance.
Hypothesis Hlimit : ∀ e, (scope e < limit)%nat.

(** The classes below a root, depth first in declaration order. *)
Fixpoint classes (depth : nat) (root : info) : list info :=
  match depth with
  | O => []
  | S depth' =>
      if is_namespace P root then
        mjoin ((λ m,
          if is_namespace P m && negb (is_namespace_alias P m) then classes depth' m
          else if is_type P m && is_class_type P m && negb (is_type_alias P m) then [m]
          else []) <$> members_of P root)
      else [root]
  end.

(** The entities of one class. *)
Definition producers (type : info) : list info :=
  filter (λ m, negb (is_type P m) && negb (is_special_member_function P m)
               && hasLifetimeMarker P m) (members_of P type).

Definition entities_of (type : info) : list DiscoveredEntity :=
  if hasAnnotationOfType P type mk_factory then
    {| entity := type; entityKind := Factory; declaringFactory := null_info |}
    :: ((λ m, {| entity := m; entityKind := FactoryProduct; declaringFactory := type |})
        <$> producers type)
  else if hasLifetimeMarker P type then
    [{| entity := type; entityKind := AnnotatedType; declaringFactory := null_info |}]
  else [].

Definition well_marked (type : info) : bool :=
  negb (hasAnnotationOfType P type mk_factory && hasLifetimeMarker P type).

Definition is_root (root : info) : bool :=
  is_namespace P root || (is_type P root && is_class_type P root).

Lemma add_products type ms result :
  foldl (λ r member, add_product P type member r) result ms
  = result ++ ((λ m, {| entity := m; entityKind := FactoryProduct; declaringFactory := type |})
               <$> filter (λ m, negb (is_type P m) && negb (is_special_member_function P m)
                                && hasLifetimeMarker P m) ms).
Proof.
  revert result. induction ms as [|m ms IH]; intros result; [by rewrite app_nil_r|].
  cbn [foldl]. rewrite IH. unfold add_product. rewrite filter_cons.
  destruct (_ && _ && _); cbn; [|done]. by rewrite <-app_assoc.
Qed.

Lemma classifyType_spec type result :
  classifyType P type result
  = if well_marked type then Value (result ++ entities_of type)
    else IllFormed FactoryWithLifetime.
Proof.
  unfold classifyType, well_marked, entities_of, producers.
  destruct (hasAnnotationOfType P type mk_factory); cbn.
  - destruct (hasLifetimeMarker P type); cbn; [done|]. by rewrite add_products, <-app_assoc.
  - destruct (hasLifetimeMarker P type); [done|]. by rewrite app_nil_r.
Qed.

(** A loop over members each of which appends its entities or fails. *)
Lemma foldM_entities {A} (f : A → list DiscoveredEntity → consteval (list DiscoveredEntity))
    (g : A → list info) l result :
  (∀ a r, a ∈ l → f a r = if forallb well_marked (g a) then Value (r ++ mjoin (entities_of <$> g a))
                          else IllFormed FactoryWithLifetime) →
  foldM f l result
  = let cs := mjoin (g <$> l) in
    if forallb well_marked cs then Value (result ++ mjoin (entities_of <$> cs))
    else IllFormed FactoryWithLifetime.
Proof.
  revert result. induction l as [|a l IH]; intros result Hf; cbn.
  { by rewrite app_nil_r. }
  rewrite Hf by left. rewrite forallb_app. destruct (forallb well_marked (g a)); [|done]. cbn.
  rewrite IH by (intros; apply Hf; by right). cbn.
  by rewrite fmap_app, join_app, <-app_assoc.
Qed.

Lemma processRoot_spec depth root result :
  (∀ e, scope e < scope root + depth)%nat → is_root root = true →
  processRoot P depth root result
  = if forallb well_marked (classes depth root)
    then Value (result ++ mjoin (entities_of <$> classes depth root))
    else IllFormed FactoryWithLifetime.
Proof.
  revert root result. induction depth as [|depth IH]; intros root result Hd Hr.
  { specialize (Hd root). lia. }
  cbn [processRoot classes]. unfold is_root in Hr. destruct (is_namespace P root) eqn:Hns.
  - apply foldM_entities. intros m r Hm.
    destruct (is_namespace P m && negb (is_namespace_alias P m)) eqn:E.
    + apply andb_true_iff in E as [Hm1 Hm2]. apply negb_true_iff in Hm2.
      apply IH; [|unfold is_root; by rewrite Hm1].
      pose proof (ns_parent _ _ _ HP _ _ (ns_member _ _ _ HP _ _ Hns Hm Hm1 Hm2)).
      intros e. specialize (Hd e). lia.
    + destruct (is_type P m && is_class_type P m && negb (is_type_alias P m)); cbn.
      * rewrite classifyType_spec, andb_true_r, app_nil_r. done.
      * by rewrite app_nil_r.
  - cbn in Hr. rewrite Hr. rewrite classifyType_spec. cbn. by rewrite andb_true_r, app_nil_r.
Qed.

Lemma processRoot_other root result : is_root root = false →
  processRoot P limit root result = IllFormed RequiresNamespaceOrClassType.
Proof.
  intros Hr. unfold is_root in Hr. apply orb_false_iff in Hr as [H1 H2].
  specialize (Hlimit root). destruct limit as [|l]; [lia|]. cbn [processRoot]. by rewrite H1, H2.
Qed.

(** The enumeration: the entities of the classes, or what is wrong with a root. *)
Lemma enumerateDiscovery_spec roots result :
  let cs := mjoin (classes limit <$> roots) in
  match foldM (processRoot P limit) roots result with
  | Value ents => ents = result ++ mjoin (entities_of <$> cs) ∧ forallb well_marked cs = true ∧
      forallb is_root roots = true
  | IllFormed d => (d = FactoryWithLifetime ∧ forallb well_marked cs = false) ∨
      (d = RequiresNamespaceOrClassType ∧ forallb is_root roots = false)
  end.
Proof.
  revert result. induction roots as [|root roots IH]; intros result.
  { cbn. by rewrite app_nil_r. }
  cbn [foldM fmap list_fmap mjoin list_join forallb]. rewrite forallb_app.
  destruct (is_root root) eqn:Hr.
  2:{ rewrite processRoot_other by done. by right. }
  rewrite processRoot_spec by (done || (intros e; specialize (Hlimit e); lia)).
  destruct (forallb well_marked (classes limit root)); [|by left]. consteval_run.
  specialize (IH (result ++ mjoin (entities_of <$> classes limit root))). cbn [andb].
  by rewrite fmap_app, join_app, (app_assoc result).
Qed.
End enumeration.

(** ** What the member scan finds *)

Section members.
Context (P : program) (scope inheritance : info → nat).
Hypothesis HP : nested P scope inheritance.

Definition public_bases (type : info) : list info :=
  (λ b, dealias P (base_type b)) <$> filter is_public (bases_of P type).

(** [above b t]: [t] inherits from [b], publicly at every step. *)
Definition above : info → info → Prop := tc (λ b t, b ∈ public_bases t).

(** The methods of one type that carry a hook annotation, in declaration order. *)
Definition own_hooks (hook : marker) (includeConstructors : bool) (type : info) : list info :=
  filter (λ m, negb (includeConstructors && is_constructor P m) && negb (is_type P m)
               && negb (is_special_member_function P m) && hasAnnotationOfType P m hook)
         (members_of P type).

Definition compatible (m : info) : bool :=
  match parameters (entity_of P m) with
  | Some params => forallb (λ p, isBeanType P (parameter_type p)) params
  | None => false
  end.

Definition compatible_constructors (type : info) : list info :=
  filter (λ m, is_constructor P m && compatible m) (members_of P type).

Definition add_hooks (post pre : list info) (s : scan) : scan :=
  {| visitedBaseTypes := visitedBaseTypes s;
     found := {| ctor := ctor (found s);
                 postConstructHooks := postConstructHooks (found s) ++ post;
                 preDestroyHooks := preDestroyHooks (found s) ++ pre;
                 compatibleConstructorConflict := compatibleConstructorConflict (found s) |};
     compatibleConstructorCount := compatibleConstructorCount s |}.

Lemma add_hooks_nil s : add_hooks [] [] s = s.
Proof. destruct s as [v [c po pr cf] n]. unfold add_hooks. cbn. by rewrite !app_nil_r. Qed.

Lemma add_hooks_add po pr po' pr' s :
  add_hooks po' pr' (add_hooks po pr s) = add_hooks (po ++ po') (pr ++ pr') s.
Proof. unfold add_hooks. cbn. by rewrite !app_assoc. Qed.

(** [m] if it is a method with the annotation. *)
Definition hook_of (hook : marker) (includeConstructors : bool) (m : info) : list info :=
  if negb (includeConstructors && is_constructor P m) && negb (is_type P m)
     && negb (is_special_member_function P m) && hasAnnotationOfType P m hook
  then [m] else [].

Lemma own_hooks_cons (p : info → bool) m ms :
  filter p (m :: ms) = (if p m then [m] else []) ++ filter p ms.
Proof. rewrite filter_cons. by destruct (p m). Qed.

Lemma scan_method inc m s : inc && is_constructor P m = false →
  scan_member P inc m s
  = Value (add_hooks (hook_of mk_postConstruct inc m) (hook_of mk_preDestroy inc m) s).
Proof.
  intros Hc. unfold scan_member, hook_of. rewrite Hc. cbn [negb andb].
  destruct (negb (is_type P m) && negb (is_special_member_function P m)); cbn [andb].
  - done.
  - by rewrite add_hooks_nil.
Qed.

(** One base class: its hooks, in declaration order. *)
Lemma scan_base_members type s :
  scanMembersOfType P type false s
  = Value (add_hooks (own_hooks mk_postConstruct false type) (own_hooks mk_preDestroy false type) s).
Proof.
  unfold scanMembersOfType, own_hooks. revert s.
  induction (members_of P type) as [|m ms IH]; intros s.
  { cbn. by rewrite add_hooks_nil. }
  cbn [foldM]. rewrite scan_method by done. consteval_run.
  by rewrite IH, add_hooks_add, !own_hooks_cons.
Qed.

(** The scanned class itself: its compatible constructors too. *)
Definition add_constructors (cs : list info) (s : scan) : scan := foldl (λ s m, see_constructor m s) s cs.

Lemma add_constructors_hooks cs po pr s :
  add_constructors cs (add_hooks po pr s) = add_hooks po pr (add_constructors cs s).
Proof. revert s. induction cs as [|m cs IH]; intros s; [done|]. apply (IH (see_constructor m s)). Qed.

Lemma scan_constructor m s : is_constructor P m = true →
  scan_member P true m s = Value (if compatible m then see_constructor m s else s).
Proof.
  intros Hc. destruct (ns_constructor _ _ _ HP m Hc) as [ps Hps].
  unfold scan_member, parameters_of, compatible. by rewrite Hc, Hps.
Qed.

Lemma scan_own_members type s :
  scanMembersOfType P type true s
  = Value (add_hooks (own_hooks mk_postConstruct true type) (own_hooks mk_preDestroy true type)
             (add_constructors (compatible_constructors type) s)).
Proof.
  unfold scanMembersOfType, own_hooks, compatible_constructors. revert s.
  induction (members_of P type) as [|m ms IH]; intros s.
  { cbn. by rewrite add_hooks_nil. }
  cbn [foldM]. rewrite !own_hooks_cons. destruct (is_constructor P m) eqn:Hc.
  - rewrite scan_constructor by done. consteval_run. cbn [andb negb app]. rewrite IH.
    by destruct (compatible m).
  - rewrite scan_method by (cbn; exact Hc). consteval_run.
    rewrite IH, add_constructors_hooks, add_hooks_add.
    unfold hook_of. by rewrite Hc.
Qed.

Lemma add_constructors_found cs s :
  let s' := add_constructors cs s in
  ctor (found s') = default (ctor (found s)) (last cs) ∧
  compatibleConstructorCount s' = compatibleConstructorCount s + nlen cs ∧
  (compatibleConstructorConflict (found s) = (2 <=? compatibleConstructorCount s) →
   compatibleConstructorConflict (found s') = (2 <=? compatibleConstructorCount s + nlen cs)) ∧
  postConstructHooks (found s') = postConstructHooks (found s) ∧
  preDestroyHooks (found s') = preDestroyHooks (found s).
Proof.
  cbv zeta. revert s. induction cs as [|m cs IH]; intros s.
  { change (nlen (@nil info)) with 0. rewrite N.add_0_r. by split_and!. }
  change (add_constructors (m :: cs) s) with (add_constructors cs (see_constructor m s)).
  destruct (IH (see_constructor m s)) as (-> & -> & H3 & -> & ->).
  change (m :: cs) with ([m] ++ cs). rewrite nlen_app. change (nlen [m]) with 1.
  cbn [see_constructor compatibleConstructorCount found ctor postConstructHooks preDestroyHooks
       compatibleConstructorConflict] in *.
  rewrite N.add_assoc. split_and!; [|done| |done..].
  { change ([m] ++ cs) with (m :: cs). rewrite last_cons. by destruct (last cs). }
  intros Hs. apply H3. rewrite Hs.
  destruct (N.leb_spec 2 (compatibleConstructorCount s + 1)); [done|]. cbn.
  apply N.leb_gt. lia.
Qed.

(** *** Base classes *)

(** Every type comes after its public bases. *)
Definition bases_first (order : list info) : Prop := ∀ l x r, order = l ++ x :: r →
  ∀ b, b ∈ public_bases x → b ∈ l.

Definition hooks_of (hook : marker) (types : list info) : list info :=
  mjoin (own_hooks hook false <$> types).

(** The scan of [types], having visited [seen] more. *)
Definition explore (seen types : list info) (s : scan) : scan :=
  {| visitedBaseTypes := visitedBaseTypes s ++ seen;
     found := found (add_hooks (hooks_of mk_postConstruct types) (hooks_of mk_preDestroy types) s);
     compatibleConstructorCount := compatibleConstructorCount s |}.

Lemma explore_explore seen types seen' types' s :
  explore seen' types' (explore seen types s) = explore (seen ++ seen') (types ++ types') s.
Proof. unfold explore, add_hooks, hooks_of. cbn. by rewrite !fmap_app, !join_app, !app_assoc. Qed.

Lemma explore_nil s : explore [] [] s = s.
Proof. destruct s as [v [c po pr cf] n]. unfold explore, add_hooks. cbn. by rewrite !app_nil_r. Qed.

Lemma explore_one t s :
  add_hooks (own_hooks mk_postConstruct false t) (own_hooks mk_preDestroy false t) s
  = explore [] [t] s.
Proof. unfold explore, add_hooks, hooks_of. cbn. by rewrite !app_nil_r. Qed.

Lemma bases_first_snoc order b : bases_first order →
  (∀ b', b' ∈ public_bases b → b' ∈ order) → bases_first (order ++ [b]).
Proof.
  intros Ho Hb l x r He. destruct r as [|y r _] using rev_ind.
  - apply app_inj_tail in He as [-> <-]. done.
  - rewrite app_comm_cons, app_assoc in He. apply app_inj_tail in He as [He _]. by apply (Ho l x r).
Qed.

Lemma containsType_iff seen b : (∀ x, x ∈ seen → dealias P x = x) → dealias P b = b →
  containsType P seen b = true ↔ b ∈ seen.
Proof.
  intros Hs Hb. unfold containsType, is_same_type. rewrite existsb_exists. split.
  - intros (x & Hx%list_elem_of_In & He%N.eqb_eq). by rewrite <-Hb, <-He, Hs.
  - intros Hin. exists b. split; [by apply list_elem_of_In|by apply N.eqb_eq].
Qed.

(** [scanned t s order s' new]: [s'] is [s] after the scan of the bases of [t], where
    [order] was complete before and [new] is scanned on the way. *)
Record scanned (rank : nat) (s : scan) (order : list info) : Prop := {
  sd_types x : x ∈ visitedBaseTypes s → dealias P x = x;
  sd_open x : x ∈ visitedBaseTypes s → x ∈ order ∨ (rank ≤ inheritance x)%nat;
  sd_order x : x ∈ order → x ∈ visitedBaseTypes s;
  sd_nodup : NoDup (visitedBaseTypes s);
  sd_first : bases_first order
}.

Lemma scanned_visit rank s order b : scanned rank s order → (inheritance b < rank)%nat →
  dealias P b = b → b ∉ visitedBaseTypes s → scanned (inheritance b) (visit b s) order.
Proof.
  intros [H1 H2 H3 H4 H5] Hr Hb Hn. split; cbn.
  - intros x [Hx| ->%list_elem_of_singleton]%elem_of_app; [by apply H1|done].
  - intros x [Hx| ->%list_elem_of_singleton]%elem_of_app; [|by right].
    destruct (H2 x Hx); [by left|right; lia].
  - intros x Hx. apply elem_of_app. left. by apply H3.
  - apply NoDup_app. split_and!; [done| |apply NoDup_singleton].
    intros x Hx ->%list_elem_of_singleton. done.
  - done.
Qed.

(** What the scan of the bases [bs] of [t] leaves: [new] comes after [order]. *)
Definition scan_result (t : info) (bs : list info) (s s' : scan) (order new : list info) : Prop :=
  ∃ seen, s' = explore seen new s ∧ seen ≡ₚ new ∧
    scanned (inheritance t) s' (order ++ new) ∧
    (∀ b, b ∈ bs → b ∈ order ++ new) ∧ (∀ x, x ∈ new → above x t).

Lemma scan_result_trans t bs bs' s s1 s2 order new new' :
  scan_result t bs s s1 order new → scan_result t bs' s1 s2 (order ++ new) new' →
  scan_result t (bs ++ bs') s s2 order (new ++ new').
Proof.
  intros (seen & -> & Hp & Hd & Hb & Ha) (seen' & -> & Hp' & Hd' & Hb' & Ha').
  exists (seen ++ seen'). rewrite <-app_assoc in Hd', Hb'. split_and!.
  - apply explore_explore.
  - by rewrite Hp, Hp'.
  - done.
  - intros b [Hin|Hin]%elem_of_app; [|by apply Hb']. rewrite app_assoc. apply elem_of_app.
    left. by apply Hb.
  - intros x [Hx|Hx]%elem_of_app; [by apply Ha|by apply Ha'].
Qed.

(** A base that was visited before. *)
Lemma scan_result_skip t b s order : scanned (inheritance t) s order → b ∈ order →
  scan_result t [b] s s order [].
Proof.
  intros Hs Hb. exists []. rewrite explore_nil, app_nil_r.
  split_and!; try done; [by intros b' ->%list_elem_of_singleton|by intros x Hx%elem_of_nil].
Qed.

(** A new base: its own bases, then itself. *)
Lemma scan_result_base t b s s1 order new : scanned (inheritance t) s order →
  b ∈ public_bases t →
  scan_result b (public_bases b) (visit b s) s1 order new →
  scan_result t [b] s (explore [] [b] s1) order (new ++ [b]).
Proof.
  intros Hsc Hbt (seen & -> & Hp & [D1 D2 D3 D4 D5] & Hbs & Ha).
  exists (b :: seen). rewrite explore_explore, app_nil_r.
  assert (∀ x, x ∈ (visitedBaseTypes s ++ [b]) ++ seen ↔
               x ∈ visitedBaseTypes s ∨ x = b ∨ x ∈ new) as Hin.
  { intros x. rewrite !elem_of_app, list_elem_of_singleton, Hp. tauto. }
  assert (∀ x, x ∈ order ++ new ++ [b] ↔ x ∈ order ∨ x ∈ new ∨ x = b) as Hon.
  { intros x. by rewrite !elem_of_app, list_elem_of_singleton. }
  split_and!.
  - unfold explore, visit. cbn. by rewrite <-app_assoc.
  - by rewrite Hp, (Permutation_app_comm new [b]).
  - split; cbn in *; [done| | |done|rewrite app_assoc; by apply bases_first_snoc].
    + intros x Hx%Hin. rewrite Hon. destruct Hx as [Hx|Hx]; [|tauto].
      destruct (sd_open _ _ _ Hsc x Hx); tauto.
    + intros x Hx%Hon. apply Hin. destruct Hx as [Hx|Hx]; [|tauto].
      left. by apply (sd_order _ _ _ Hsc).
  - intros b' ->%list_elem_of_singleton. apply Hon. tauto.
  - intros x [Hx| ->%list_elem_of_singleton]%elem_of_app; [|by apply tc_once].
    eapply tc_transitive; [by apply Ha|by apply tc_once].
Qed.

Lemma scanBaseHooks_spec limit t s order : (inheritance t < limit)%nat →
  scanned (inheritance t) s order →
  ∃ s' new, scanBaseHooks P limit t s = Value s' ∧
    scan_result t (public_bases t) s s' order new.
Proof.
  revert t s order. induction limit as [|limit IH]; intros t s order Hl Hsc; [lia|].
  cbn [scanBaseHooks].
  assert (∀ b, b ∈ bases_of P t → b ∈ bases_of P t) as Hsub by done. revert Hsub.
  unfold public_bases at 1. generalize (bases_of P t) at 1 3 4 as l. intros l.
  revert s order Hsc. induction l as [|b l IHl]; intros s order Hsc Hsub.
  { exists s, []. split; [done|]. exists []. rewrite explore_nil, app_nil_r.
    split_and!; try done; by intros x Hx%elem_of_nil. }
  cbn [foldM]. assert (b ∈ bases_of P t) as Hin by (apply Hsub; by left).
  assert (∀ b', b' ∈ l → b' ∈ bases_of P t) as Hsub' by (intros; apply Hsub; by right).
  destruct (is_public b) eqn:Hpub; cbv zeta.
  2:{ consteval_run. rewrite filter_cons_False by (rewrite Hpub; intros []). by apply IHl. }
  rewrite filter_cons_True by (by rewrite Hpub). rewrite fmap_cons.
  set (bt := dealias P (base_type b)). assert (dealias P bt = bt) as Hbt by apply (ns_alias _ _ _ HP).
  pose proof (ns_base _ _ _ HP t b Hin) as Hlt. fold bt in Hlt.
  pose proof (containsType_iff (visitedBaseTypes s) bt (sd_types _ _ _ Hsc) Hbt) as Hc.
  assert (∃ s1 new, (if negb (containsType P (visitedBaseTypes s) bt)
      then s' ← scanBaseHooks P limit bt (visit bt s); scanMembersOfType P bt false s'
      else Value s) = Value s1 ∧ scan_result t [bt] s s1 order new) as (s1 & new & -> & H1).
  { destruct (containsType P (visitedBaseTypes s) bt); cbn [negb].
    - exists s, []. split; [done|]. apply scan_result_skip; [done|].
      destruct (sd_open _ _ _ Hsc bt); [by apply Hc|done|lia].
    - assert (bt ∉ visitedBaseTypes s) as Hn by by rewrite <-Hc.
      destruct (IH bt (visit bt s) order) as (s1 & new & -> & Hr); [lia|by eapply scanned_visit|].
      consteval_run. rewrite scan_base_members, explore_one. eexists _, _. split; [done|].
      eapply scan_result_base; [done| |done]. apply list_elem_of_fmap. exists b.
      split; [done|]. apply list_elem_of_filter. by rewrite Hpub. }
  consteval_run. destruct H1 as (seen & Hs1 & H1).
  destruct (IHl s1 (order ++ new)) as (s' & new' & Hs' & Hr); [apply H1|done|].
  exists s', (new ++ new'). split; [done|].
  apply (scan_result_trans t [bt] _ s s1); [by exists seen|done].
Qed.

Lemma scanned_start rank s : visitedBaseTypes s = [] → scanned rank s [].
Proof.
  intros Hs. split; rewrite ?Hs; try (by intros x Hx%elem_of_nil); [apply NoDup_nil_2|].
  intros [|] x r He; done.
Qed.

Lemma above_in order x t : bases_first order → (∀ b, b ∈ public_bases t → b ∈ order) →
  above x t → x ∈ order.
Proof.
  intros Ho Ht. induction 1 as [x t Hx|x y t Hx _ IH]; [by apply Ht|].
  apply list_elem_of_split in IH as (l & r & He); [|done]. rewrite He.
  apply elem_of_app. left. by eapply Ho.
Qed.

(** [order]: every public base once, each after its own bases. *)
Record base_order (t : info) (order : list info) : Prop := {
  bo_nodup : NoDup order;
  bo_first : bases_first (order ++ [t]);
  bo_all x : x ∈ order ↔ above x t
}.

Lemma scanMembers_spec limit t : (inheritance t < limit)%nat →
  ∃ r order, scanMembers P limit t = Value r ∧ base_order t order ∧
    postConstructCalls r = hooks_of mk_postConstruct order ++ own_hooks mk_postConstruct true t ∧
    preDestroyHooks r = hooks_of mk_preDestroy order ++ own_hooks mk_preDestroy true t ∧
    ctor r = default null_info (last (compatible_constructors t)) ∧
    compatibleConstructorConflict r = (2 <=? nlen (compatible_constructors t)).
Proof.
  intros Hl. unfold scanMembers. set (s := {| visitedBaseTypes := [] |}).
  destruct (scanBaseHooks_spec limit t s [] Hl (scanned_start _ s eq_refl))
    as (s' & order & -> & seen & -> & Hp & Hd & Hb & Ha).
  consteval_run. rewrite scan_own_members. consteval_run.
  set (s1 := explore seen order s). set (cs := compatible_constructors t).
  destruct (add_constructors_found cs s1) as (H1 & _ & H3 & H4 & H5).
  eexists _, order. split; [done|]. cbn [app] in *. split_and!.
  - split.
    + rewrite <-Hp. apply (sd_nodup _ _ _ Hd).
    + by apply bases_first_snoc; [apply (sd_first _ _ _ Hd)|].
    + intros x. split; [apply Ha|]. by apply above_in; [apply (sd_first _ _ _ Hd)|].
  - unfold postConstructCalls. cbn. by rewrite H4.
  - cbn. by rewrite H5.
  - cbn. by rewrite H1.
  - cbn. by rewrite H3.
Qed.
End members.

Lemma reverseInfos_rev l : reverseInfos l = reverse l.
Proof.
  unfold reverseInfos. induction l as [|x l IH] using rev_ind; [done|].
  rewrite length_app, Nat.add_1_r. cbn [reverse_from].
  rewrite lookup_app_r, Nat.sub_diag, reverse_snoc by done. cbn. f_equal. rewrite <-IH.
  clear IH. assert (∀ n, (n ≤ length l)%nat → reverse_from (l ++ [x]) n = reverse_from l n) as Hn.
  { induction n as [|n IH]; intros Hn; [done|]. cbn [reverse_from].
    rewrite lookup_app_l by lia. by rewrite IH by lia. }
  by apply Hn.
Qed.
End Discovery.
