(* ===== verification/Generation.v ===== *)
(** The descriptors the compiler generates for a program.

    [Module Generation] models [internal/detail/DescriptorBuilderGen.hpp], the consteval
    half of [DescriptorThunkGen.hpp] (exposed bases, parameter descriptors, the
    unwrapping of [unique_ptr] returns) and [ReflectiveDataGen.hpp]: what
    [discover<roots...>()] submits to the registry.  The theorems connect it with what
    [start()] relies on. *)
From S2P Require Import Prelude Tables Reflection Identities Discovery.

Local Open Scope N_scope.

Module Generation.
Import Meta IdentityGen Discovery.

(** ** What the toolchain adds *)

(** The functions whose addresses a descriptor carries; a type or a function argument
    of the template is an [info]. *)
Inductive thunk : Type :=
| noopConstruct
| noopDestroy
| adjustToExposedThunk (concrete base : info)
| adjustToConcreteThunk (concrete base : info)
| destroyThunk (T : info)
| constructThunkDefault (T : info)
| constructThunkInjected (T ctor : info)
| postConstructThunkImpl (T : info)
| preDestroyThunkImpl (T : info)
| constructFactoryProductThunk (T factory method : info)
| allocAndConstructFactoryProductThunk (T factory method : info)
| deallocFactoryProductThunk (T : info).

#[export] Instance thunk_eq_dec : EqDecision thunk.
Proof. solve_decision. Defined.

(** Addresses of functions, [TypeInfoGetter<T>::get] and static data. *)
Class Toolchain : Type := {
  address_of : thunk → FnPtr;
  TypeInfoGetter : info → TypeInfo;
  address_of_kData : info → N
}.

Section generation.
Context `{Toolchain} (P : program) (limit : nat).

(** ** Types in signatures *)

Definition isUniquePtrType (returnType : info) : bool :=
  let d := dealias P returnType in
  match template_arguments_of P d with
  | Some args => (0 <? nlen args) && bool_decide (template_of P d = Some (unique_ptr_template P))
  | None => false
  end.

(** [template_arguments_of(d)[i]]: the query or the access may fail. *)
Definition template_argument (d : info) (i : N) : consteval info :=
  args ← or_throw (template_arguments_of P d);
  match vat args i with Some a => Value a | None => IllFormed OutOfBounds end.

Definition unwrapUniquePtr (returnType : info) : consteval info :=
  let d := dealias P returnType in
  if isUniquePtrType d then template_argument d 0 else Value returnType.

Definition isRetainedBeanParameter (paramType : info) : bool := isBeanType P paramType.

Definition retainedParameterType (paramType : info) : consteval info :=
  if isRetainedBeanParameter paramType then template_argument (dealias P paramType) 0
  else Value paramType.

(** ** [makeReflectiveData] *)

Record BeanParameterRecord : Type := { param_injectedTypeInfo : TypeInfo }.

Record BeanMethodRecord : Type := {
  method_name : string;
  isPostConstruct : bool;
  isPreDestroy : bool;
  method_params : list BeanParameterRecord
}.

Definition makeMethodParameterRecords (method : info) : consteval (list BeanParameterRecord) :=
  params ← parameters_of P method;
  mapM (λ p, injectedType ← retainedParameterType (dealias P (parameter_type p));
             Value {| param_injectedTypeInfo := TypeInfoGetter injectedType |}) params.

Definition hasRetainedParameterList (member : info) : bool :=
  bool_decide (is_Some (parameters (entity_of P member))).

Definition is_method (m : info) : bool :=
  negb (is_type P m) && negb (is_special_member_function P m) && negb (is_constructor P m).

Definition method_record (m : info) : consteval BeanMethodRecord :=
  params ← (if hasRetainedParameterList m then makeMethodParameterRecords m else Value []);
  name ← identifier_of P m;
  Value {| method_name := name; isPostConstruct := hasAnnotationOfType P m mk_postConstruct;
           isPreDestroy := hasAnnotationOfType P m mk_preDestroy; method_params := params |}.

(** The records of [kData]; a null pointer when there is no method. *)
Definition reflective_records (type : info) : consteval (list BeanMethodRecord) :=
  mapM method_record (filter is_method (members_of P type)).

Definition makeReflectiveData (type : info) : consteval (option N) :=
  records ← reflective_records type;
  Value (match records with [] => None | _ => Some (address_of_kData type) end).

(** ** [makeParamDescriptors] *)

(** The loop over the annotations of a parameter: the last of a kind counts. *)
Record param_scan : Type := {
  hasScopedAnn : bool;
  hasNamedAnn : bool;
  scan_targetName : string;
  scan_scopeName : string
}.

Definition see_param_annotation (r : param_scan) (ann : annotation) : param_scan :=
  match ann with
  | an_scoped n =>
      {| hasScopedAnn := true; hasNamedAnn := hasNamedAnn r;
         scan_targetName := scan_targetName r; scan_scopeName := c_string n |}
  | an_named n =>
      {| hasScopedAnn := hasScopedAnn r; hasNamedAnn := true;
         scan_targetName := c_string n; scan_scopeName := scan_scopeName r |}
  | _ => r
  end.

Definition scan_param (anns : list annotation) : param_scan :=
  foldl see_param_annotation
    {| hasScopedAnn := false; hasNamedAnn := false; scan_targetName := "";
       scan_scopeName := "" |} anns.

Definition makeParamDescriptor (p : parameter) : consteval ContributedParamDescriptor :=
  beanArg ← template_argument (dealias P (parameter_type p)) 0;
  let r := scan_param (parameter_annotations p) in
  typeName ← qualifiedNameOf P limit beanArg;
  Value {| injectedTypeName := Some typeName; injectedTypeInfo := TypeInfoGetter beanArg;
           hasScopedAnnotation := hasScopedAnn r; hasNamedAnnotation := hasNamedAnn r;
           targetName := Some (scan_targetName r); scopeName := scan_scopeName r |}.

Definition makeParamDescriptors (ctor : info) : consteval (list ContributedParamDescriptor) :=
  params ← parameters_of P ctor;
  mapM makeParamDescriptor params.

(** ** The descriptor builders *)

(** [hasParams]; no constructor is [info{}]. *)
Definition hasParams (ctor : info) : consteval bool :=
  if negb (ctor =? null_info) then params ← parameters_of P ctor; Value (0 <? nlen params)
  else Value false.

Definition hook_thunk (hooks : list info) (t : thunk) : option FnPtr :=
  match hooks with [] => None | _ => Some (address_of t) end.

Definition construct_thunk (injected : bool) (T ctor : info) : FnPtr :=
  address_of (if injected then constructThunkInjected T ctor else constructThunkDefault T).

Definition makeDescriptorForAnnotatedType (e : DiscoveredEntity) (retainMeta : bool)
    : consteval ContributedDescriptor :=
  let T := entity e in
  let ann := scanAnnotations P T in
  _ ← static_assert (negb (lifetimeConflict ann)) LifetimeConflict;
  _ ← static_assert (negb (emptyNameError ann)) EmptyNamedKey;
  members ← scanMembers P limit T;
  typeName ← qualifiedNameOf P limit T;
  _ ← static_assert (negb (compatibleConstructorConflict members)) (ConstructorConflict typeName);
  injected ← hasParams (ctor members);
  params ← (if injected : bool then makeParamDescriptors (ctor members) else Value []);
  data ← (if retainMeta then makeReflectiveData T else Value None);
  Value
    {| cd_identity := computeIdentityForType typeName (scanned_name ann) (scanned_lifetime ann);
       cd_exposedTypeName := typeName; cd_concreteTypeName := typeName;
       cd_exposedTypeInfo := TypeInfoGetter T; cd_concreteTypeInfo := TypeInfoGetter T;
       cd_beanName := scanned_name ann; cd_priority := scanned_priority ann;
       cd_lazy := scanned_lazy ann; cd_lifetime := scanned_lifetime ann;
       cd_origin := Tables.AnnotatedType;
       cd_construct := construct_thunk injected T (ctor members);
       cd_destroy := address_of (destroyThunk T);
       cd_postConstruct := hook_thunk (postConstructHooks members) (postConstructThunkImpl T);
       cd_preDestroy := hook_thunk (preDestroyHooks members) (preDestroyThunkImpl T);
       cd_size := type_size (entity_of P T); cd_align := type_align (entity_of P T);
       cd_factoryMethodIdentity := kNoFactoryMethod; cd_factoryMethodName := None;
       cd_allocAndConstruct := None; cd_dealloc := None; cd_params := params;
       cd_reflectiveData := data; cd_isExposedAlias := false;
       cd_aliasOfPrimaryIdentity := kNoFactoryMethod; cd_adjustToExposed := None;
       cd_adjustToConcrete := None |}.

(** [lazy] and [params] keep their default member initializers. *)
Definition makeDescriptorForFactory (e : DiscoveredEntity) : consteval ContributedDescriptor :=
  let T := entity e in
  members ← scanMembers P limit T;
  typeName ← qualifiedNameOf P limit T;
  _ ← static_assert (negb (compatibleConstructorConflict members)) (ConstructorConflict typeName);
  injected ← hasParams (ctor members);
  Value
    {| cd_identity := computeIdentityForType typeName "" Singleton;
       cd_exposedTypeName := typeName; cd_concreteTypeName := typeName;
       cd_exposedTypeInfo := TypeInfoGetter T; cd_concreteTypeInfo := TypeInfoGetter T;
       cd_beanName := ""; cd_priority := 0; cd_lazy := true; cd_lifetime := Singleton;
       cd_origin := Tables.AnnotatedType;
       cd_construct := construct_thunk injected T (ctor members);
       cd_destroy := address_of (destroyThunk T);
       cd_postConstruct := hook_thunk (postConstructHooks members) (postConstructThunkImpl T);
       cd_preDestroy := hook_thunk (preDestroyHooks members) (preDestroyThunkImpl T);
       cd_size := type_size (entity_of P T); cd_align := type_align (entity_of P T);
       cd_factoryMethodIdentity := kNoFactoryMethod; cd_factoryMethodName := None;
       cd_allocAndConstruct := None; cd_dealloc := None; cd_params := [];
       cd_reflectiveData := None; cd_isExposedAlias := false;
       cd_aliasOfPrimaryIdentity := kNoFactoryMethod; cd_adjustToExposed := None;
       cd_adjustToConcrete := None |}.

Definition makeDescriptorForProduct (e : DiscoveredEntity) : consteval ContributedDescriptor :=
  let method := entity e in
  let factory := declaringFactory e in
  rawReturn ← return_type_of P method;
  T ← unwrapUniquePtr rawReturn;
  let ann := scanAnnotations P method in
  _ ← static_assert (negb (lifetimeConflict ann)) LifetimeConflict;
  _ ← static_assert (negb (emptyNameError ann)) EmptyNamedKey;
  let productAnn := scanAnnotations P T in
  members ← scanMembersIfBean P limit T (IdentityGen.hasLifetimeMarker productAnn);
  productName ← qualifiedNameOf P limit T;
  factoryName ← qualifiedNameOf P limit factory;
  factoryMethodName ← identifier_of P method;
  let factoryIdentity := computeIdentityForType factoryName "" Singleton in
  let isBean := IdentityGen.hasLifetimeMarker productAnn in
  let isUniquePtrReturn := isUniquePtrType rawReturn in
  Value
    {| cd_identity := computeIdentityForProduct factoryMethodName factoryName
         (scanned_name ann) (scanned_lifetime ann);
       cd_exposedTypeName := productName; cd_concreteTypeName := productName;
       cd_exposedTypeInfo := TypeInfoGetter T; cd_concreteTypeInfo := TypeInfoGetter T;
       cd_beanName := scanned_name ann; cd_priority := scanned_priority ann;
       cd_lazy := true; cd_lifetime := scanned_lifetime ann;
       cd_origin := Tables.FactoryProduct;
       cd_construct := address_of (if isUniquePtrReturn then noopConstruct
                                   else constructFactoryProductThunk T factory method);
       cd_destroy := address_of (destroyThunk T);
       cd_postConstruct := if isBean then hook_thunk (postConstructHooks members)
                             (postConstructThunkImpl T) else None;
       cd_preDestroy := if isBean then hook_thunk (preDestroyHooks members)
                          (preDestroyThunkImpl T) else None;
       cd_size := type_size (entity_of P T); cd_align := type_align (entity_of P T);
       cd_factoryMethodIdentity := factoryIdentity;
       cd_factoryMethodName := Some factoryMethodName;
       cd_allocAndConstruct := if isUniquePtrReturn
         then Some (address_of (allocAndConstructFactoryProductThunk T factory method)) else None;
       cd_dealloc := if isUniquePtrReturn
         then Some (address_of (deallocFactoryProductThunk T)) else None;
       cd_params := []; cd_reflectiveData := None; cd_isExposedAlias := false;
       cd_aliasOfPrimaryIdentity := kNoFactoryMethod; cd_adjustToExposed := None;
       cd_adjustToConcrete := None |}.

(** One public base of [T]. *)
Definition exposed_descriptor (T : info) (ann : AnnotationScan) (concreteName : string)
    (primaryIdentity : Identity) (base : info) (baseName : string) : ContributedDescriptor :=
  {| cd_identity := computeIdentityForExposedType baseName concreteName (scanned_name ann)
       (scanned_lifetime ann);
     cd_exposedTypeName := baseName; cd_concreteTypeName := concreteName;
     cd_exposedTypeInfo := TypeInfoGetter base; cd_concreteTypeInfo := TypeInfoGetter T;
     cd_beanName := scanned_name ann; cd_priority := scanned_priority ann;
     cd_lazy := scanned_lazy ann; cd_lifetime := scanned_lifetime ann;
     cd_origin := Tables.AnnotatedType; cd_construct := address_of noopConstruct;
     cd_destroy := address_of noopDestroy; cd_postConstruct := None; cd_preDestroy := None;
     cd_size := 0; cd_align := 1; cd_factoryMethodIdentity := kNoFactoryMethod;
     cd_factoryMethodName := None; cd_allocAndConstruct := None; cd_dealloc := None;
     cd_params := []; cd_reflectiveData := None; cd_isExposedAlias := true;
     cd_aliasOfPrimaryIdentity := primaryIdentity;
     cd_adjustToExposed := Some (address_of (adjustToExposedThunk T base));
     cd_adjustToConcrete := if is_virtual_base_of_type P base T then None
                            else Some (address_of (adjustToConcreteThunk T base)) |}.

Definition makeExposedDescriptors (e : DiscoveredEntity) (result : list ContributedDescriptor)
    : consteval (list ContributedDescriptor) :=
  let T := entity e in
  let ann := scanAnnotations P T in
  concreteName ← qualifiedNameOf P limit T;
  let primaryIdentity :=
    computeIdentityForType concreteName (scanned_name ann) (scanned_lifetime ann) in
  foldM (λ base_rel result,
    if is_public base_rel then
      let base := dealias P (base_type base_rel) in
      baseName ← qualifiedNameOf P limit base;
      Value (result ++ [exposed_descriptor T ann concreteName primaryIdentity base baseName])
    else Value result) (bases_of P T) result.

Definition make_descriptors (retainMeta : bool) (e : DiscoveredEntity)
    (result : list ContributedDescriptor) : consteval (list ContributedDescriptor) :=
  match entityKind e with
  | AnnotatedType =>
      cd ← makeDescriptorForAnnotatedType e retainMeta;
      makeExposedDescriptors e (result ++ [cd])
  | Factory => cd ← makeDescriptorForFactory e; Value (result ++ [cd])
  | FactoryProduct => cd ← makeDescriptorForProduct e; Value (result ++ [cd])
  end.

Definition makeAllDescriptors (retainMeta : bool) (roots : list info)
    : consteval (list ContributedDescriptor) :=
  kEntities ← enumerateDiscovery P limit roots;
  foldM (make_descriptors retainMeta) kEntities [].
End generation.
End Generation.
