(* ===== verification/Generated.v ===== *)
(** What [start()] can rely on in the descriptors of a program.

    Theorems about [Generation]: where each contributed descriptor comes from, that the
    links between them lead to descriptors of the same contribution, and what the
    descriptor of an annotated class says. *)
From S2P Require Import Prelude Tables Reflection Identities Discovery Generation Startup StartupFacts Started Ready.

Local Open Scope N_scope.

Module Generated.
Import StartupFacts Meta IdentityGen Discovery Generation.

(** ** Loops *)

Lemma foldM_inv {A B} (I : B → Prop) (f : A → B → consteval B) l b b' :
  foldM f l b = Value b' → I b →
  (∀ a b1 b2, a ∈ l → I b1 → f a b1 = Value b2 → I b2) → I b'.
Proof.
  revert b. induction l as [|a l IH]; intros b Hf Hb Hs; cbn in Hf; consteval_inv; [by subst|].
  eapply IH; [done| |by intros; eapply Hs; [right|..]]. by eapply Hs; [left| |].
Qed.

(** An iteration of a loop that only adds to a list. *)
Lemma foldM_step {A B} (f : A → list B → consteval (list B)) l b b' a :
  (∀ a b1 b2, f a b1 = Value b2 → b1 ⊆ b2) →
  foldM f l b = Value b' → a ∈ l → ∃ b1 b2, f a b1 = Value b2 ∧ b2 ⊆ b'.
Proof.
  intros Hm. revert b. induction l as [|a' l IH]; intros b Hf Ha; [by apply elem_of_nil in Ha|].
  cbn in Hf. consteval_inv. apply elem_of_cons in Ha as [->|Ha]; [|by eapply IH].
  eexists _, _. split; [done|]. apply (foldM_inv (λ r, a0 ⊆ r) f l a0); [done..|].
  intros x b1 b2 _ H1 H2. etrans; [done|by eapply Hm].
Qed.

(** ** Producer methods and their factories *)

Section enumerated.
Context (P : program).

Definition with_factories (ents : list DiscoveredEntity) : Prop := ∀ d, d ∈ ents →
  entityKind d = FactoryProduct →
  ∃ d', d' ∈ ents ∧ entityKind d' = Factory ∧ entity d' = declaringFactory d.

Lemma with_factories_app l l' : with_factories l → with_factories l' → with_factories (l ++ l').
Proof.
  intros H1 H2 d [Hd|Hd]%elem_of_app Hk; [destruct (H1 d Hd Hk) as (d' & H & ?)|
    destruct (H2 d Hd Hk) as (d' & H & ?)]; exists d'; split; try done; apply elem_of_app; auto.
Qed.

Lemma with_factories_class type : with_factories (entities_of P type).
Proof.
  unfold entities_of. destruct (hasAnnotationOfType P type mk_factory).
  - intros d [->|(m & -> & _)%list_elem_of_fmap]%elem_of_cons Hk; [done|].
    eexists. split; [by left|done].
  - destruct (hasLifetimeMarker P type).
    + by intros d ->%list_elem_of_singleton Hk.
    + by intros d Hd%elem_of_nil.
Qed.

Lemma with_factories_classify type r r' : classifyType P type r = Value r' →
  with_factories r → with_factories r'.
Proof.
  rewrite classifyType_spec. destruct (well_marked P type); [|done]. intros [= <-] Hr.
  apply with_factories_app; [done|apply with_factories_class].
Qed.

Lemma with_factories_root limit root r r' : processRoot P limit root r = Value r' →
  with_factories r → with_factories r'.
Proof.
  revert root r r'. induction limit as [|limit IH]; intros root r r' Hp Hr; [done|].
  cbn [processRoot] in Hp. destruct (is_namespace P root).
  - eapply (foldM_inv with_factories); [exact Hp|done|]. intros m r1 r2 _ H1 H2.
    cbv beta in H2. destruct (_ && _); [by eapply IH|].
    destruct (_ && _ && _); [by eapply with_factories_classify|by injection H2 as <-].
  - destruct (_ && _); [|done]. by eapply with_factories_classify.
Qed.

Lemma enumerate_factories limit roots ents :
  enumerateDiscovery P limit roots = Value ents → with_factories ents.
Proof.
  intros He. eapply (foldM_inv with_factories); [exact He|by intros d Hd%elem_of_nil|].
  intros root r1 r2 _ H1 H2. by eapply with_factories_root.
Qed.
End enumerated.

(** ** Where descriptors come from *)

Section generated.
Context `{TC : Toolchain} (P : program) (limit : nat).

(** The descriptors of one entity. *)
Inductive generated_by (retainMeta : bool) (e : DiscoveredEntity) (cd : ContributedDescriptor)
    : Prop :=
| by_class : entityKind e = AnnotatedType →
    makeDescriptorForAnnotatedType P limit e retainMeta = Value cd → generated_by retainMeta e cd
| by_base (b : base_relation) (concreteName baseName : string) :
    let T := entity e in
    let ann := scanAnnotations P T in
    let base := dealias P (base_type b) in
    entityKind e = AnnotatedType → b ∈ bases_of P T → is_public b = true →
    qualifiedNameOf P limit T = Value concreteName →
    qualifiedNameOf P limit base = Value baseName →
    cd = exposed_descriptor P T ann concreteName
           (computeIdentityForType concreteName (scanned_name ann) (scanned_lifetime ann))
           base baseName → generated_by retainMeta e cd
| by_factory : entityKind e = Factory →
    makeDescriptorForFactory P limit e = Value cd → generated_by retainMeta e cd
| by_product : entityKind e = FactoryProduct →
    makeDescriptorForProduct P limit e = Value cd → generated_by retainMeta e cd.

Lemma exposed_generated retainMeta e r r' : entityKind e = AnnotatedType →
  makeExposedDescriptors P limit e r = Value r' →
  r ⊆ r' ∧ (∀ cd, cd ∈ r' → cd ∈ r ∨ generated_by retainMeta e cd).
Proof.
  intros Hk Hr. unfold makeExposedDescriptors in Hr. consteval_inv.
  apply (foldM_inv (λ r', r ⊆ r' ∧ (∀ cd, cd ∈ r' → cd ∈ r ∨ generated_by retainMeta e cd)) _ _ _ _ Hr).
  { split; [done|by left]. }
  intros b r1 r2 Hb [H1 H2] Hs. cbv beta in Hs. destruct (is_public b) eqn:Hpub; consteval_inv; subst; [|done].
  split; [set_solver|]. intros cd [Hcd| ->%list_elem_of_singleton]%elem_of_app; [by apply H2|].
  right. by eapply by_base.
Qed.

Lemma make_generated retainMeta e r r' : make_descriptors P limit retainMeta e r = Value r' →
  r ⊆ r' ∧ (∀ cd, cd ∈ r' → cd ∈ r ∨ generated_by retainMeta e cd).
Proof.
  unfold make_descriptors. destruct (entityKind e) eqn:Hk; intros Hr; consteval_inv; subst.
  - apply (exposed_generated retainMeta) in Hr as [H1 H2]; [|done]. split; [set_solver|].
    intros cd [[?| ->%list_elem_of_singleton]%elem_of_app|?]%H2; [by left| |by right].
    right. by apply by_class.
  - split; [set_solver|]. intros cd [?| ->%list_elem_of_singleton]%elem_of_app; [by left|].
    right. by apply by_factory.
  - split; [set_solver|]. intros cd [?| ->%list_elem_of_singleton]%elem_of_app; [by left|].
    right. by apply by_product.
Qed.

(** The whole contribution: every descriptor has its entity, and every entity its
    descriptors. *)
Lemma all_generated retainMeta roots cds ents :
  enumerateDiscovery P limit roots = Value ents →
  makeAllDescriptors P limit retainMeta roots = Value cds →
  (∀ cd, cd ∈ cds → ∃ e, e ∈ ents ∧ generated_by retainMeta e cd) ∧
  (∀ e, e ∈ ents → ∃ r r', make_descriptors P limit retainMeta e r = Value r' ∧ r' ⊆ cds).
Proof.
  intros He Hm. unfold makeAllDescriptors in Hm. rewrite He in Hm.
  rewrite value_bind in Hm. split.
  - apply (foldM_inv (λ r, ∀ cd, cd ∈ r → ∃ e, e ∈ ents ∧ generated_by retainMeta e cd) _ _ _ _ Hm).
    { by intros cd Hcd%elem_of_nil. }
    intros e r1 r2 Hin H1 H2 cd Hcd. apply make_generated in H2 as [_ H2].
    destruct (H2 cd Hcd); [by apply H1|by exists e].
  - intros e Hin. eapply foldM_step; [|done..]. intros a b1 b2 Hb. by apply make_generated in Hb as [? _].
Qed.

(** The fields of each kind of descriptor that the registry's links depend on. *)
Lemma class_fields e retainMeta cd : makeDescriptorForAnnotatedType P limit e retainMeta = Value cd →
  ∃ typeName, let ann := scanAnnotations P (entity e) in
    qualifiedNameOf P limit (entity e) = Value typeName ∧
    cd_identity cd = computeIdentityForType typeName (scanned_name ann) (scanned_lifetime ann) ∧
    cd_lifetime cd = scanned_lifetime ann ∧ cd_isExposedAlias cd = false ∧
    cd_origin cd = Tables.AnnotatedType ∧ cd_factoryMethodIdentity cd = kNoFactoryMethod.
Proof. unfold makeDescriptorForAnnotatedType. intros Hm. consteval_inv. subst. by eexists. Qed.

Lemma factory_fields e cd : makeDescriptorForFactory P limit e = Value cd →
  ∃ typeName, qualifiedNameOf P limit (entity e) = Value typeName ∧
    cd_identity cd = computeIdentityForType typeName "" Singleton ∧
    cd_isExposedAlias cd = false ∧ cd_origin cd = Tables.AnnotatedType ∧
    cd_factoryMethodIdentity cd = kNoFactoryMethod ∧ cd_params cd = [].
Proof. unfold makeDescriptorForFactory. intros Hm. consteval_inv. subst. by eexists. Qed.

Lemma product_fields e cd : makeDescriptorForProduct P limit e = Value cd →
  ∃ factoryName, let ann := scanAnnotations P (entity e) in
    qualifiedNameOf P limit (declaringFactory e) = Value factoryName ∧
    cd_factoryMethodIdentity cd = computeIdentityForType factoryName "" Singleton ∧
    cd_lifetime cd = scanned_lifetime ann ∧ cd_isExposedAlias cd = false ∧
    cd_origin cd = Tables.FactoryProduct ∧ cd_params cd = [] ∧ cd_lazy cd = true.
Proof. unfold makeDescriptorForProduct. intros Hm. consteval_inv. subst. by eexists. Qed.

Section contribution.
Context (retainMeta : bool) (roots : list info) (cds : list ContributedDescriptor).
Hypothesis Hcds : makeAllDescriptors P limit retainMeta roots = Value cds.

Lemma entities_exist : ∃ ents, enumerateDiscovery P limit roots = Value ents.
Proof. unfold makeAllDescriptors in Hcds. by destruct (enumerateDiscovery P limit roots); [eexists|]. Qed.

(** An alias has the descriptor of its class beside it. *)
Lemma exposed_primary cd k : cd ∈ cds → alias_ref cd = Some k →
  ∃ cd', cd' ∈ cds ∧ cd_identity cd' = k ∧ cd_isExposedAlias cd' = false ∧
    cd_lifetime cd' = cd_lifetime cd.
Proof.
  intros Hin Ha. destruct entities_exist as [ents He].
  destruct (all_generated retainMeta roots cds ents He Hcds) as [Hs Hc].
  destruct (Hs cd Hin) as (e & Hein & Hg). unfold alias_ref in Ha.
  destruct Hg as [_ Hm|b cn bn T ann base Hk _ _ Hcn _ ->|_ Hm|_ Hm].
  - destruct (class_fields _ _ _ Hm) as (ty & _ & _ & _ & Hal & _). by rewrite Hal in Ha.
  - cbn in Ha. destruct (_ =? _); [done|]. injection Ha as <-.
    destruct (Hc e Hein) as (r & r' & Hr & Hsub). unfold make_descriptors in Hr. rewrite Hk in Hr.
    consteval_inv. destruct (class_fields _ _ _ Ha) as (ty & Hty & Hid & Hlt & Hal & _).
    fold T in Hty. rewrite Hcn in Hty. injection Hty as <-. exists a. split_and!; try done.
    apply Hsub. apply (exposed_generated retainMeta) in Hr as [Hr _]; [|done]. set_solver.
  - destruct (factory_fields _ _ Hm) as (ty & _ & _ & Hal & _). by rewrite Hal in Ha.
  - destruct (product_fields _ _ Hm) as (ty & _ & _ & _ & Hal & _). by rewrite Hal in Ha.
Qed.

(** A product has the descriptor of its factory beside it. *)
Lemma product_factory cd k : cd ∈ cds → factory_ref cd = Some k →
  ∃ cd', cd' ∈ cds ∧ cd_identity cd' = k ∧ cd_isExposedAlias cd' = false ∧
    cd_origin cd = Tables.FactoryProduct.
Proof.
  intros Hin Ha. destruct entities_exist as [ents He].
  destruct (all_generated retainMeta roots cds ents He Hcds) as [Hs Hc].
  destruct (Hs cd Hin) as (e & Hein & Hg). unfold factory_ref in Ha.
  destruct Hg as [_ Hm|b cn bn T ann base Hk _ _ Hcn _ ->|_ Hm|Hk Hm].
  - destruct (class_fields _ _ _ Hm) as (ty & _ & _ & _ & _ & _ & Hf). by rewrite Hf in Ha.
  - done.
  - destruct (factory_fields _ _ Hm) as (ty & _ & _ & _ & _ & Hf & _). by rewrite Hf in Ha.
  - destruct (product_fields _ _ Hm) as (fn & Hfn & Hid & _ & _ & Ho & _). rewrite Hid in Ha.
    destruct (_ =? _); [done|]. injection Ha as <-.
    destruct (enumerate_factories _ _ _ _ He e Hein Hk) as (e' & Hein' & Hk' & Hf).
    destruct (Hc e' Hein') as (r & r' & Hr & Hsub). unfold make_descriptors in Hr. rewrite Hk' in Hr.
    consteval_inv. destruct (factory_fields _ _ Ha) as (ty & Hty & Hid' & Hal & _).
    rewrite Hf, Hfn in Hty. injection Hty as <-. exists a. split_and!; try done.
    subst. set_solver.
Qed.

Lemma contributed_origin cd : cd ∈ cds → cd_origin cd ≠ RuntimeBinding.
Proof.
  intros Hin. destruct entities_exist as [ents He].
  destruct (all_generated retainMeta roots cds ents He Hcds) as [Hs _].
  destruct (Hs cd Hin) as (e & _ & [_ Hm|b cn bn T ann base _ _ _ _ _ ->|_ Hm|_ Hm]).
  - destruct (class_fields _ _ _ Hm) as (ty & _ & _ & _ & _ & Ho & _). by rewrite Ho.
  - done.
  - destruct (factory_fields _ _ Hm) as (ty & _ & _ & _ & Ho & _). by rewrite Ho.
  - destruct (product_fields _ _ Hm) as (ty & _ & _ & _ & _ & Ho & _). by rewrite Ho.
Qed.
End contribution.

(** The 64-bit identities tell apart descriptors that are not exchangeable as the end of
    a link. *)
Definition unambiguous (cds : list ContributedDescriptor) : Prop := ∀ cd cd',
  cd ∈ cds → cd' ∈ cds → cd_identity cd = cd_identity cd' →
  cd_isExposedAlias cd = cd_isExposedAlias cd' ∧ cd_lifetime cd = cd_lifetime cd'.

Lemma distinct_covers seen cds cd : cd ∈ cds →
  ∃ cd', cd' ∈ distinct seen cds ∧ cd_identity cd' = cd_identity cd.
Proof.
  revert seen. induction cds as [|cd0 cds IH]; intros seen Hcd; [by apply elem_of_nil in Hcd|].
  cbn [distinct]. apply elem_of_cons in Hcd as [->|Hcd]; [|case_match; by apply IH].
  destruct (knows seen (cd_identity cd0)) eqn:Hk.
  - apply knows_spec in Hk as (cd' & Hin & He). exists cd'. split; [by apply distinct_known|done].
  - exists cd0. split; [|done]. apply distinct_known, elem_of_app. right. by left.
Qed.

Section contribution_links.
Context (retainMeta : bool) (roots : list info) (cds : list ContributedDescriptor).
Hypothesis Hcds : makeAllDescriptors P limit retainMeta roots = Value cds.

Lemma aliases_known : Started.refs_known alias_ref (distinct [] cds).
Proof.
  intros cd k Hin%distinct_from Hk.
  destruct (exposed_primary _ _ _ Hcds cd k Hin Hk) as (cd' & Hin' & <- & _). by apply distinct_covers.
Qed.

Lemma factories_known : Started.refs_known factory_ref (distinct [] cds).
Proof.
  intros cd k Hin%distinct_from Hk.
  destruct (product_factory _ _ _ Hcds cd k Hin Hk) as (cd' & Hin' & <- & _). by apply distinct_covers.
Qed.

Lemma contribution_generated : unambiguous cds → Ready.generated cds.
Proof.
  intros Hu. split.
  - intros cd. by apply (contributed_origin _ _ _ Hcds).
  - intros cd cd' Hin Hin' Ha. destruct (exposed_primary _ _ _ Hcds cd _ Hin Ha)
      as (cd'' & Hin'' & Hid & Hal & <-).
    destruct (Hu cd'' cd') as [<- <-]; done.
Qed.
End contribution_links.
End generated.
End Generated.
