(* ===== verification/SampleProgram.v ===== *)
(** A program for the witnesses: a namespace with an annotated class, a class exposed
    through its base, a class with a scoped dependency and a factory; its contribution,
    and the context it starts. *)
From S2P Require Import Prelude Tables Reflection Identities Discovery Generation Index Stores Startup StartupFacts Started SampleStart Ready Generated World SampleWorld Living Service Starting.

Local Open Scope N_scope.

Module SampleProgram.
Import Meta.

Definition blank : entity :=
  {| entity_kind := OtherMember; identifier := None; display_string := ""; parent := None;
     members := []; bases := []; virtual_bases := []; annotations := [];
     special_member := false; parameters := None; return_type := None; template := None;
     type_size := 0; type_align := 0 |}.

Definition class (n : string) (ms : list info) (bs : list base_relation)
    (anns : list annotation) : entity :=
  {| entity_kind := ClassType; identifier := Some n; display_string := n; parent := Some 2;
     members := ms; bases := bs; virtual_bases := []; annotations := anns;
     special_member := false; parameters := None; return_type := None; template := None;
     type_size := 16; type_align := 8 |}.

Definition method (n : string) (scope : info) (anns : list annotation) (result : info) : entity :=
  {| entity_kind := OtherMember; identifier := Some n; display_string := n;
     parent := Some scope; members := []; bases := []; virtual_bases := [];
     annotations := anns; special_member := false; parameters := Some [];
     return_type := Some result; template := None; type_size := 0; type_align := 0 |}.

Definition constructor (scope : info) (params : list parameter) : entity :=
  {| entity_kind := Constructor; identifier := None; display_string := "";
     parent := Some scope; members := []; bases := []; virtual_bases := [];
     annotations := []; special_member := false; parameters := Some params;
     return_type := None; template := None; type_size := 0; type_align := 0 |}.

Definition specialization (name : string) (tmpl arg : info) : entity :=
  {| entity_kind := ClassType; identifier := None; display_string := name; parent := None;
     members := []; bases := []; virtual_bases := []; annotations := [];
     special_member := false; parameters := None; return_type := None;
     template := Some (tmpl, [arg]); type_size := 16; type_align := 8 |}.

Definition space (n : option string) (up : option info) (ms : list info) : entity :=
  {| entity_kind := Namespace; identifier := n; display_string := default ""%string n;
     parent := up; members := ms; bases := []; virtual_bases := []; annotations := [];
     special_member := false; parameters := None; return_type := None; template := None;
     type_size := 0; type_align := 0 |}.

(** The parameter of [Editor]: a session bean behind its base, in the scope ["doc"]. *)
Definition store_param : parameter :=
  {| parameter_type := 16;
     parameter_annotations := [an_scoped (Some "doc"); an_named (Some "file")] |}.

Definition void_type : info := 19.

Definition entities : list entity :=
  [blank;
   space None None [2];                                                          (* 1 *)
   space (Some "app") (Some 1) [3; 4; 6; 9; 11; 14];                              (* 2 *)
   class "Config" [17] [] [an_singleton 0 false];                                 (* 3 *)
   class "Store" [5] [] [];                                                       (* 4 *)
   method "open" 4 [an_postConstruct] 19;                                         (* 5 *)
   class "FileStore" [7; 8] [{| base_type := 4; is_public := true |}]
     [an_session 3; an_named (Some "file")];                                      (* 6 *)
   constructor 6 [{| parameter_type := 15; parameter_annotations := [] |}];       (* 7 *)
   method "close" 6 [an_preDestroy] 19;                                           (* 8 *)
   class "Editor" [10] [] [an_singleton 0 true];                                  (* 9 *)
   constructor 9 [store_param];                                                   (* 10 *)
   class "Toolkit" [18; 12] [] [an_factory];                                      (* 11 *)
   method "pen" 11 [an_prototype 0] 13;                                           (* 12 *)
   specialization "std::unique_ptr<app::Pen>" 21 14;                              (* 13 *)
   class "Pen" [] [] [];                                                          (* 14 *)
   specialization "ctr::Bean<app::Config>" 20 3;                                  (* 15 *)
   specialization "ctr::Bean<app::Store>" 20 4;                                   (* 16 *)
   constructor 3 [];                                                              (* 17 *)
   constructor 11 [];                                                             (* 18 *)
   blank; blank; blank].

Definition program : program :=
  {| entity_of := λ e, default blank (vat entities e); Bean_template := 20;
     unique_ptr_template := 21 |}.

(** Depths. *)
Definition scope (e : info) : nat :=
  match e with
  | 1 => 0%nat
  | 2 => 1%nat
  | 5 | 7 | 8 | 10 | 12 | 17 | 18 => 3%nat
  | _ => 2%nat
  end.

Definition inheritance (e : info) : nat := match e with 6 => 1%nat | _ => 0%nat end.

Definition ids : list info := Eval vm_compute in N.of_nat <$> seq 0 22.

Lemma entity_cases (Q : info → Prop) :
  Forall Q ids → (∀ e, entity_of program e = blank → Q e) → ∀ e, Q e.
Proof.
  intros Hs Hb e. destruct (decide (e < 22)) as [He|He].
  - rewrite Forall_forall in Hs. apply Hs. change ids with (N.of_nat <$> seq 0 22). apply list_elem_of_fmap. exists (N.to_nat e).
    split; [by rewrite N2Nat.id|]. apply elem_of_seq. lia.
  - apply Hb. cbn. rewrite (proj2 (vat_None entities e)); [done|].
    change (nlen entities) with 22. lia.
Qed.

(** The two cases of a fact about every entity. *)
Ltac by_entity :=
  lazymatch goal with |- ∀ e, @?Q e => apply (entity_cases Q) end;
  [unfold ids; repeat (apply Forall_cons; split; [cbv beta|]); [..|constructor]|intros e He].

Lemma program_nested : nested program scope inheritance.
Proof.
  split.
  - by_entity; [intros p Hp; cbv in Hp; try done; injection Hp as <-; cbv; lia..|].
    rewrite He. by intros p Hp.
  - by_entity; [intros s Hs; cbv in Hs; try done; by eexists..|]. rewrite He. by intros s Hs.
  - by_entity.
    23: { intros m Hns. unfold is_namespace in Hns. by rewrite He in Hns. }
    all: intros m Hns Hm Hn Ha; try done; cbn in Hm;
      repeat (apply elem_of_cons in Hm as [->|Hm]; [try done|]); by apply elem_of_nil in Hm.
  - by_entity.
    23: { intros b Hb. unfold bases_of in Hb. rewrite He in Hb. by apply elem_of_nil in Hb. }
    all: intros b Hb; cbn in Hb;
      repeat (apply elem_of_cons in Hb as [->|Hb]; [cbv; lia|]); by apply elem_of_nil in Hb.
  - by_entity.
    23: { unfold is_constructor. by rewrite He. }
    all: intros Hc; try done; by eexists.
  - by_entity; [done..|].
    assert (dealias program e = e) as Hd by (unfold dealias; by rewrite He). by rewrite !Hd.
Qed.

(** Every function has an address, every type a [type_info]. *)
#[export] Instance toolchain : Generation.Toolchain :=
  {| Generation.address_of := λ t,
       match t with
       | Generation.noopConstruct | Generation.noopDestroy => 1
       | Generation.destroyThunk T => 100 + T
       | Generation.constructThunkDefault T | Generation.constructThunkInjected T _ => 200 + T
       | _ => 300
       end;
     Generation.TypeInfoGetter := λ T, 1000 + T; Generation.address_of_kData := λ T, 2000 + T |}.

Definition contribution : list ContributedDescriptor :=
  match Generation.makeAllDescriptors program 4 true [1] with
  | Value cds => cds
  | IllFormed _ => []
  end.

Lemma contribution_compiles : Generation.makeAllDescriptors program 4 true [1] = Value contribution.
Proof. vm_compute. reflexivity. Qed.

(** The identities of the sample are different. *)
Lemma contribution_unambiguous : Generated.unambiguous contribution.
Proof.
  assert (forallb (λ cd, forallb (λ cd', bool_decide (cd_identity cd = cd_identity cd' →
    cd_isExposedAlias cd = cd_isExposedAlias cd' ∧ cd_lifetime cd = cd_lifetime cd'))
    contribution) contribution = true) as Hall by by vm_compute.
  rewrite forallb_forall in Hall. intros cd cd' H1%list_elem_of_In H2%list_elem_of_In.
  specialize (Hall cd H1). rewrite forallb_forall in Hall. specialize (Hall cd' H2).
  by apply bool_decide_eq_true in Hall.
Qed.

(** The registry after [discover<^^::>()], and the context after [start()]. *)
Definition registry : Startup.t := SampleStart.registry [contribution].

Definition started : World.t := SampleWorld.launch (SampleWorld.fresh registry).

Lemma contribution_ready : Ready.generated contribution.
Proof.
  apply (Generated.contribution_generated program 4 true [1] contribution contribution_compiles),
    contribution_unambiguous.
Qed.

Lemma started_running : Service.running SampleWorld.host ∅ started.
Proof.
  apply (Starting.start_running SampleWorld.host 15 ∅ Starting.sample_host Starting.sample_order)
    with (root := 300) (W := SampleWorld.fresh registry); [|done|apply Starting.fresh_quiet|].
  - apply Starting.fresh_unopened; [apply SampleStart.registry_unstarted| | | |vm_compute; lia].
    + by vm_compute.
    + assert (mjoin (Startup.pending_ registry) = contribution) as -> by (vm_compute; reflexivity).
      exact contribution_ready.
    + intros i x Hx. apply vat_lt in Hx. by apply N.nlt_0_r in Hx.
  - unfold started, SampleWorld.launch.
    assert ((World.start SampleWorld.host 15 300 (SampleWorld.fresh registry)).1 = Ok tt) as Ho
      by (vm_compute; reflexivity).
    destruct (World.start SampleWorld.host 15 300 _) as [o W']. simpl in *. by rewrite Ho.
Qed.
End SampleProgram.
