(* ===== verification/Compiled.v ===== *)
(** Theorems about the compile-time half: enumeration, names and identities, members,
    the contribution of a program. *)
From Stdlib Require Import String Ascii.
From S2P Require Import Prelude Tables Reflection Identities Discovery Generation Startup StartupFacts Started Ready Generated World SampleWorld SampleProgram.

Local Open Scope N_scope.

Module Compiled.
Import StartupFacts Meta IdentityGen Discovery Generation Generated.

(** ** Enumeration *)

(** C25 Discovery finds what the roots declare: in a program whose scopes nest within the
    limit, the enumeration visits the classes below the roots depth first, in declaration
    order, and lists for each factory the factory and then its producer methods, for each
    class with a lifetime marker the class, for any other class nothing; it is rejected
    exactly when one of these classes is a factory with a lifetime marker, or a root is
    neither a namespace nor a class. *)
Theorem discovery_enumerates (P : program) (scope inheritance : info → nat) (limit : nat)
    (roots : list info) :
  nested P scope inheritance → (∀ e, (scope e < limit)%nat) →
  let cs := mjoin (classes P limit <$> roots) in
  match enumerateDiscovery P limit roots with
  | Value ents => ents = mjoin (entities_of P <$> cs) ∧ forallb (well_marked P) cs = true ∧
      forallb (is_root P) roots = true
  | IllFormed d => (d = FactoryWithLifetime ∧ forallb (well_marked P) cs = false) ∨
      (d = RequiresNamespaceOrClassType ∧ forallb (is_root P) roots = false)
  end.
Proof.
  intros HP Hl. exact (enumerateDiscovery_spec P scope inheritance limit HP Hl roots []).
Qed.

(** ** Names and identities *)

(** C32 Qualified names: for an entity that is not a template specialization, the two
    passes of [qualifiedNameOf] end within the nesting depth, stay inside the buffer the
    first one measured, and give the names of the enclosing scopes, outermost first and
    up to an unnamed scope or a specialization, then the entity's own, with ["::"] between
    them; a specialization has its display string. *)
Theorem qualified_name (P : program) (scope inheritance : info → nat) (limit : nat) (e : info) :
  nested P scope inheritance → (scope e ≤ limit)%nat →
  match identifier (entity_of P e), parent (entity_of P e) with
  | Some id, Some p =>
      ∃ path, scopes P p path ∧
        let name := if isTemplateSpecialization P e then display_string_of P e
                    else qualify id path in
        (size_of name < two64 - 1 → qualifiedNameOf P limit e = Value name)
  | _, _ =>
      qualifiedNameOf P limit e = if isTemplateSpecialization P e
        then Value (display_string_of P e) else IllFormed MetaException
  end.
Proof.
  intros HP Hl. destruct (identifier (entity_of P e)) as [id|] eqn:Hid.
  - destruct (ns_named _ _ _ HP e id Hid) as [p Hp]. rewrite Hp.
    destruct (scopes_exist P scope inheritance HP p) as [path Hs]. exists path. split; [done|].
    intros name Hn. unfold name in *. destruct (isTemplateSpecialization P e) eqn:Ht.
    + unfold qualifiedNameOf. by rewrite Ht.
    + by eapply qualifiedNameOf_scopes.
  - unfold qualifiedNameOf, identifier_of. rewrite Hid. by destruct (isTemplateSpecialization P e).
Qed.

(** Two texts that differ in one character. *)
Definition one_char_apart (s t : string) : Prop := ∃ l c c' r, c ≠ c' ∧
  s = l +:+ String c r ∧ t = l +:+ String c' r.

(** C31 Identities: an identity is the 64-bit FNV-1a hash of a text from which the kind of
    the descriptor, the names and the lifetime can be read back (class and method names
    without [';'], bean names arbitrary), so beans that differ in one of these have
    different texts and only a collision of the hash can give them one identity; and the
    hash has none between texts that differ in one character, such as the same bean declared
    with two lifetimes. Beans that agree in all of these share their text: the overloads of
    one producer method, whose parameters and produced type the text does not tell. *)
Theorem identity_of_bean (x : subject) : legal x = true →
  identity_of x = fnv1a64 (text x) fnv_offset ∧ parse (text x) = Some x ∧
  ∀ y, one_char_apart (text x) (text y) → identity_of x ≠ identity_of y.
Proof.
  intros Hx. split_and!; [apply identity_of_text|by apply parse_text|].
  intros y (l & c & c' & r & Hc & Ht & Ht'). rewrite !identity_of_text, Ht, Ht'.
  by apply fnv1a64_one_char.
Qed.

(** ** Members *)

(** C20 The scan of a class: the walk over the base classes ends, visits every class it
    inherits from publicly exactly once (a virtual diamond's shared base too), each after
    its own bases; the [postConstruct] hooks run in that order, the class's own last, in
    declaration order within a class, and the [preDestroy] hooks in the reverse order; the
    constructor is the only one that takes [Bean] parameters alone, and two of them are a
    conflict. *)
Theorem member_scan (P : program) (scope inheritance : info → nat) (limit : nat) (T : info) :
  nested P scope inheritance → (inheritance T < limit)%nat →
  ∃ r order, scanMembers P limit T = Value r ∧ base_order P T order ∧
    postConstructCalls r
      = hooks_of P mk_postConstruct order ++ own_hooks P mk_postConstruct true T ∧
    preDestroyCalls r
      = reverse (hooks_of P mk_preDestroy order ++ own_hooks P mk_preDestroy true T) ∧
    match compatible_constructors P T with
    | [] => ctor r = null_info ∧ compatibleConstructorConflict r = false
    | [c] => ctor r = c ∧ compatibleConstructorConflict r = false
    | _ => compatibleConstructorConflict r = true
    end.
Proof.
  intros HP Hl. destruct (scanMembers_spec P scope inheritance HP limit T Hl)
    as (r & order & Hr & Ho & Hpost & Hpre & Hc & Hk).
  exists r, order. split_and!; try done.
  - unfold preDestroyCalls. by rewrite reverseInfos_rev, Hpre.
  - rewrite Hc, Hk. destruct (compatible_constructors P T) as [|c [|c' cs]]; [done..|].
    apply N.leb_le. unfold nlen. cbn [length]. lia.
Qed.

(** ** Contributions *)

(** C19 The contribution of a program is what [start()] asks for: whatever roots are
    discovered, if the program compiles then every exposed alias and every product
    refers to a descriptor that the merge of the contribution keeps (so neither link
    step of [start()] can fail on it); and, when the identities do not collide, an alias
    leads to the descriptor of its own class, which has its lifetime and is no alias. *)
Theorem contribution_well_formed `{Toolchain} (P : program) (limit : nat) (retainMeta : bool)
    (roots : list info) (cds : list ContributedDescriptor) :
  makeAllDescriptors P limit retainMeta roots = Value cds →
  Started.refs_known alias_ref (distinct [] cds) ∧
  Started.refs_known factory_ref (distinct [] cds) ∧
  (unambiguous cds → Ready.generated cds).
Proof.
  intros Hcds. split_and!.
  - by eapply aliases_known.
  - by eapply factories_known.
  - by eapply contribution_generated.
Qed.

(** ** Witnesses *)

Import SampleProgram.

Lemma sample_depths e : (SampleProgram.scope e < 4)%nat ∧ (inheritance e < 4)%nat.
Proof.
  split; [unfold SampleProgram.scope|unfold inheritance];
    repeat match goal with |- context [match ?x with _ => _ end] => destruct x end; lia.
Qed.

Lemma discovery_enumerates_witness :
  enumerateDiscovery program 4 [1]
  = Value (mjoin (entities_of program <$> [3; 4; 6; 9; 11; 14])) ∧
  match enumerateDiscovery program 4 [1; 5] with
  | Value _ => False
  | IllFormed d => d = RequiresNamespaceOrClassType
  end.
Proof.
  pose proof (discovery_enumerates program SampleProgram.scope inheritance 4 [1] program_nested
    (λ e, proj1 (sample_depths e))) as H1.
  pose proof (discovery_enumerates program SampleProgram.scope inheritance 4 [1; 5] program_nested
    (λ e, proj1 (sample_depths e))) as H2.
  cbv zeta in H1, H2. split.
  - destruct (enumerateDiscovery program 4 [1]) as [ents|d] eqn:E.
    + rewrite (proj1 H1). vm_compute. reflexivity.
    + vm_compute in E. discriminate.
  - destruct (enumerateDiscovery program 4 [1; 5]) as [ents|d].
    + destruct H2 as (_ & _ & H2). vm_compute in H2. discriminate.
    + destruct H2 as [[_ H2]|[H2 _]]; [vm_compute in H2; discriminate|exact H2].
Defined.

Lemma qualified_name_witness : qualifiedNameOf program 4 6 = Value "app::FileStore"%string.
Proof.
  pose proof (qualified_name program SampleProgram.scope inheritance 4 6 program_nested) as Hq.
  destruct Hq as (path & Hs & Hq); [cbv; lia|].
  vm_compute. reflexivity.
Defined.

Lemma identity_of_bean_witness :
  parse (text (TypeBean "app::Config" "main;1" Singleton)) = Some (TypeBean "app::Config" "main;1" Singleton) ∧
  computeIdentityForType "app::Config" "main;1" Singleton
    ≠ computeIdentityForType "app::Config" "main;1" Session.
Proof.
  destruct (identity_of_bean (TypeBean "app::Config" "main;1" Singleton)) as (_ & Hp & Ha);
    [reflexivity|].
  split; [exact Hp|]. apply (Ha (TypeBean "app::Config" "main;1" Session)).
  exists (String (ascii_of_N 0) "app::Config;main;1;"%string), (ascii_of_N 1), (ascii_of_N 2), ""%string.
  split_and!; [done|reflexivity|reflexivity].
Defined.

Lemma member_scan_witness : ∃ r,
  scanMembers program 4 6 = Value r ∧ postConstructCalls r = [5] ∧ preDestroyCalls r = [8] ∧
  ctor r = 7.
Proof.
  destruct (member_scan program SampleProgram.scope inheritance 4 6 program_nested) as
    (r & order & Hr & _); [cbv; lia|].
  exists r. vm_compute in Hr. injection Hr as <-. by split_and!.
Defined.

Lemma contribution_well_formed_witness :
  makeAllDescriptors program 4 true [1] = Value contribution ∧ Ready.generated contribution.
Proof.
  split; [exact contribution_compiles|].
  apply (contribution_well_formed program 4 true [1] contribution contribution_compiles).
  exact contribution_unambiguous.
Defined.
End Compiled.
