(* ===== verification/Injection.v ===== *)
(** Injection: what a generated thunk passes for a [Bean<U>] parameter.

    [Module Injection] models [injectParam] of [internal/detail/DescriptorThunkGen.hpp]
    and [Registry::internScopeNameCached] on a context ([World]), with the two packed
    caches of the call site, and relates the injected bean to the one [start()] checked
    (the parameter descriptor of [Generation], [Startup.injected]). *)
From S2P Require Import Prelude Tables Reflection Identities Discovery Generation Interning Index Stores Listeners Claims Handles Casts Runtime Startup Caches World Contexts Living Service SampleWorld SampleProgram.

Local Open Scope N_scope.

Module Injection.
Import Meta IdentityGen.
Local Open Scope ctr_scope.

(** The context and the static caches of one call site: [scopeCache], and
    [candidateCache] or [nameCache] (only one of them exists). *)
Record t : Type := {
  world : World.t;
  scopeCache : N;
  nameCache : N
}.

Definition set_world (W : World.t) (S : t) : t :=
  {| world := W; scopeCache := scopeCache S; nameCache := nameCache S |}.

Definition set_scopeCache (c : N) (S : t) : t :=
  {| world := world S; scopeCache := c; nameCache := nameCache S |}.

Definition set_nameCache (c : N) (S : t) : t :=
  {| world := world S; scopeCache := scopeCache S; nameCache := c |}.

Definition on_world {A} (m : M World.t A) : M t A := λ S,
  let '(o, W) := m (world S) in (o, set_world W S).

(** ** Annotations of a parameter *)

Definition scoped_names (anns : list annotation) : list (option string) :=
  omap (λ ann, match ann with an_scoped n => Some n | _ => None end) anns.

Definition qualifiers (anns : list annotation) : list (option string) :=
  omap (λ ann, match ann with an_named n => Some n | _ => None end) anns.

Definition kHasScoped (anns : list annotation) : bool :=
  existsb (λ ann, bool_decide (type_of ann = mk_scoped)) anns.

Definition kHasNamed (anns : list annotation) : bool :=
  existsb (λ ann, bool_decide (type_of ann = mk_named)) anns.

(** The first annotation of the type, [nullptr] without one. *)
Definition kScopeNameStr (anns : list annotation) : option string := mjoin (head (scoped_names anns)).

Definition kNameStr (anns : list annotation) : option string := mjoin (head (qualifiers anns)).

Definition registered_error : exn :=
  ResolutionError "Registry::resolve: the requested type was not registered in this context via discover<>() or bindSingleton().".

Definition qualifier_error (n : string) : exn :=
  ResolutionError ("injectParam: unknown named qualifier '" +:+ n +:+ "'.").

Section inject.
Context `{SS : StdSort} (H : World.host) (fuel : nat).

Abbreviation rid := (World.registryId H).

(** [(registryId << 32) | id], read back when its registry is this one. *)
Definition cached (c : N) : option NameId :=
  if N.shiftr c 32 =? rid then Some (N.land c 0xFFFFFFFF) else None.

Definition internScopeNameCached (name : option string) : M t NameId :=
  if decide (c_string name = ""%string) then mreturn kUnnamed
  else
    let! st := mget in
    match cached (scopeCache st) with
    | Some id => mreturn id
    | None =>
        let! nid := on_world (World.internNameSafe (c_string name)) in
        do! mupd (set_scopeCache (ScopeNameCache.pack rid nid)) in
        mreturn nid
    end.

Definition lookupNameCached (name : option string) : M t NameId :=
  let! st := mget in
  match cached (nameCache st) with
  | Some id => mreturn id
  | None =>
      let nid := NameInterning.lookup
        (Startup.nameInterning_ (Startup.tables_ (World.reg (world st)))) (c_string name) in
      if nid =? kInvalidNameId then mthrow_ (qualifier_error (c_string name))
      else do! mupd (set_nameCache (ScopeNameCache.pack rid nid)) in mreturn nid
  end.

(** The deferred handle of a scoped parameter. *)
Definition injectScoped (anns : list annotation) (g : TypeInfo) : M t Handle.Bean :=
  let! scopeId := internScopeNameCached (kScopeNameStr anns) in
  let! candidateNameId :=
    (if kHasNamed anns then lookupNameCached (kNameStr anns) else mreturn kUnnamed) in
  let! st := mget in
  let T := Startup.tables_ (World.reg (world st)) in
  let targetTypeId := World.typeIdFor g (world st) in
  if targetTypeId =? kInvalidTypeId then mthrow_ registered_error
  else
    match TypeIndex.candidatesFor (Startup.typeIndex_ T) targetTypeId candidateNameId with
    | None | Some [] => mthrow_ Runtime.no_bean_error
    | Some [d] => mreturn (Handle.makeDeferred scopeId d rid)
    | Some (d :: d' :: _) =>
        let! x := mlift (DescriptorTable.at_ (Startup.descriptors_ T) d) in
        let! x' := mlift (DescriptorTable.at_ (Startup.descriptors_ T) d') in
        if (priority x =? priority x')%Z then mthrow_ Runtime.ambiguous_error
        else mreturn (Handle.makeDeferred scopeId d rid)
    end.

(** [ctx.registry.resolve<U>(nid, ctx)]; [ctx] is the root or a scope. *)
Definition resolve_in (ctx : option ptr) (g : TypeInfo) (nid : NameId) : M t Handle.Bean :=
  on_world (λ W, World.on_rt H (λ E, Runtime.resolve E fuel ctx (World.typeIdFor g W) nid) W).

Definition injectParam (ctx : option ptr) (anns : list annotation) (g : TypeInfo)
    : M t Handle.Bean :=
  if kHasScoped anns then injectScoped anns g
  else if kHasNamed anns then
    let! nid := lookupNameCached (kNameStr anns) in resolve_in ctx g nid
  else resolve_in ctx g kUnnamed.

(** ** What [start()] checks and what the thunk injects *)

Abbreviation tables st := (Startup.tables_ (World.reg (world st))) (only parsing).
Abbreviation names st := (Startup.nameInterning_ (tables st)) (only parsing).

(** The caches hold what this registry would answer: entries of other registries, and
    the initial zero, do not match. *)
Record coherent (anns : list annotation) (st : t) : Prop := {
  ch_small : ScopeNameCache.small_ids (names st);
  ch_scope id : cached (scopeCache st) = Some id → c_string (kScopeNameStr anns) ≠ ""%string →
    NameInterning.nameToId_ (names st) !! c_string (kScopeNameStr anns) = Some id;
  ch_name id : cached (nameCache st) = Some id →
    NameInterning.lookup (names st) (c_string (kNameStr anns)) = id ∧ id ≠ kInvalidNameId
}.

Lemma cached_pack id : id < two32 → cached (ScopeNameCache.pack rid id) = Some id.
Proof.
  intros Hid. unfold cached.
  by rewrite ScopeNameCache.unpack_registry, N.eqb_refl, ScopeNameCache.unpack_id.
Qed.

Lemma qualifier_stable s s' T id : NameInterning.lookup T s = id → id ≠ kInvalidNameId →
  NameInterning.lookup (NameInterning.intern s' T).2 s = id.
Proof.
  unfold NameInterning.lookup. case_decide; [done|].
  destruct (NameInterning.nameToId_ T !! s) as [k|] eqn:Hk; cbn; [|by intros <- []].
  intros <- _. by rewrite (ScopeNameCache.entry_stable s s' T k Hk).
Qed.

Definition scope_of (anns : list annotation) : string := c_string (kScopeNameStr anns).

(** The tables when the scope's name is interned. *)
Definition scope_interned (anns : list annotation) (T : Startup.tables) : Startup.tables :=
  Startup.set_nameInterning (NameInterning.intern (scope_of anns) (Startup.nameInterning_ T)).2 T.

Lemma set_names_same T : Startup.set_nameInterning (Startup.nameInterning_ T) T = T.
Proof. by destruct T. Qed.

Lemma mget_bind {S B} (k : S → M S B) (s : S) : mbind_ mget k s = k s s.
Proof. done. Qed.

Lemma ok_bind {S A B} (m : M S A) (k : A → M S B) s a s' :
  m s = (Ok a, s') → mbind_ m k s = k a s'.
Proof. intros Hm. unfold mbind_. by rewrite Hm. Qed.

Lemma throw_bind {S A B} (m : M S A) (k : A → M S B) s e s' :
  m s = (Throw e, s') → mbind_ m k s = (Throw e, s').
Proof. intros Hm. unfold mbind_. by rewrite Hm. Qed.

(** The context is as before, or the scope's name was interned in it. *)
Definition scope_named (anns : list annotation) (st st' : t) : Prop :=
  world st' = world st ∨
  ∃ id, World.internNameSafe (scope_of anns) (world st) = (Ok id, world st').

(** [internScopeNameCached] is [intern], whatever the cache holds. *)
Lemma internScope_run anns st : coherent anns st →
  ∃ st', internScopeNameCached (kScopeNameStr anns) st
         = (Ok (NameInterning.intern (scope_of anns) (names st)).1, st') ∧
    tables st' = scope_interned anns (tables st) ∧ coherent anns st' ∧ scope_named anns st st'.
Proof.
  intros [Hs Hc Hn]. unfold internScopeNameCached, scope_interned. fold (scope_of anns) in *.
  case_decide as He.
  { rewrite He. exists st. split_and!; [done| |by split|by left]. symmetry. apply set_names_same. }
  unfold mbind_ at 1, mget. destruct (cached (scopeCache st)) as [id|] eqn:Hid.
  { specialize (Hc id eq_refl He). rewrite (ScopeNameCache.intern_hit _ _ _ He Hc). cbn.
    exists st. split_and!; [done| |split; [done| |done]|by left].
    - symmetry. apply set_names_same.
    - intros id' Hid' _. rewrite Hid in Hid'. by injection Hid' as <-. }
  unfold on_world, mbind_. rewrite Contexts.internNameSafe_run by done.
  pose proof (ScopeNameCache.intern_entry (scope_of anns) (names st) He) as Hent.
  pose proof (ScopeNameCache.intern_small (scope_of anns) (names st) Hs) as Hsm.
  eexists. split; [reflexivity|]. split; [reflexivity|].
  split; [|right; eexists; by rewrite Contexts.internNameSafe_run]. split.
  - exact Hsm.
  - intros id. cbn [set_scopeCache scopeCache mupd].
    rewrite cached_pack by by eapply Hsm. intros [= <-] _. exact Hent.
  - intros id Hid'. destruct (Hn id Hid') as [Hl Hne]. split; [|done]. by apply qualifier_stable.
Qed.

Lemma lookup_small T s : ScopeNameCache.small_ids T → NameInterning.lookup T s ≠ kInvalidNameId →
  NameInterning.lookup T s < two32.
Proof.
  unfold NameInterning.lookup. intros Hs. case_decide; [done|].
  destruct (NameInterning.nameToId_ T !! s) as [k|] eqn:Hk; cbn; [|done]. intros _. by eapply Hs.
Qed.

Definition qualifier_of (anns : list annotation) : string := c_string (kNameStr anns).

(** [lookupNameCached] is [lookup], whatever the cache holds; only a known name is cached. *)
Lemma lookupName_run anns st : coherent anns st →
  let nid := NameInterning.lookup (names st) (qualifier_of anns) in
  if nid =? kInvalidNameId
  then lookupNameCached (kNameStr anns) st = (Throw (qualifier_error (qualifier_of anns)), st)
  else ∃ st', lookupNameCached (kNameStr anns) st = (Ok nid, st') ∧ world st' = world st ∧
    coherent anns st'.
Proof.
  intros Hco nid. unfold lookupNameCached. rewrite mget_bind.
  fold (qualifier_of anns) nid. destruct (cached (nameCache st)) as [id|] eqn:Hid.
  { destruct (ch_name _ _ Hco id Hid) as [Hl Hne]. fold (qualifier_of anns) nid in Hl. subst id.
    rewrite (proj2 (N.eqb_neq _ _)) by done. exists st. by split_and!. }
  destruct (N.eqb_spec nid kInvalidNameId) as [He|He]; [done|].
  eexists. split; [reflexivity|]. split; [done|]. destruct Hco as [Hs Hc Hn]. split; [done|done|].
  assert (nid < two32) as Hlt by exact (lookup_small (names st) _ Hs He).
  intros id. cbn [set_nameCache nameCache mupd]. rewrite cached_pack by done.
  by intros [= <-].
Qed.

(** The two best candidates of a pair share a priority. *)
Definition tied (T : Startup.tables) (ty : TypeId) (n : NameId) : bool :=
  match TypeIndex.candidatesFor (Startup.typeIndex_ T) ty n with
  | Some (d :: d' :: _) =>
      match DescriptorTable.at_ (Startup.descriptors_ T) d,
            DescriptorTable.at_ (Startup.descriptors_ T) d' with
      | Some x, Some x' => (priority x =? priority x')%Z
      | _, _ => false
      end
  | _ => false
  end.

(** The fields of a parameter descriptor that describe the parameter [anns], [g]. *)
Record param_matches (p : ContributedParamDescriptor) (anns : list annotation) (g : TypeInfo)
    : Prop := {
  pm_type : injectedTypeInfo p = g;
  pm_scoped : hasScopedAnnotation p = kHasScoped anns;
  pm_named : hasNamedAnnotation p = kHasNamed anns;
  pm_target : targetName p = Some (qualifier_of anns)
}.

(** The candidate name of a parameter. *)
Definition candidate_name (T : Startup.tables) (anns : list annotation) : NameId :=
  if kHasNamed anns then NameInterning.lookup (Startup.nameInterning_ T) (qualifier_of anns)
  else kUnnamed.

Lemma candidate_run anns st : coherent anns st →
  let n := candidate_name (tables st) anns in
  let m := (if kHasNamed anns then lookupNameCached (kNameStr anns) else mreturn kUnnamed) in
  if kHasNamed anns && (n =? kInvalidNameId)
  then m st = (Throw (qualifier_error (qualifier_of anns)), st)
  else ∃ st', m st = (Ok n, st') ∧ world st' = world st ∧ coherent anns st'.
Proof.
  intros Hc. unfold candidate_name. destruct (kHasNamed anns); cbn [andb].
  - by apply lookupName_run.
  - exists st. by split_and!.
Qed.

Lemma injected_matches T p anns g : param_matches p anns g →
  Startup.injected T p =
    let ty := TypeInterning.lookupByTypeIndex (Startup.typeInterning_ T) g in
    let n := candidate_name T anns in
    if (ty =? kInvalidTypeId) || (kHasNamed anns && (n =? kInvalidNameId)) then None
    else match TypeIndex.candidatesFor (Startup.typeIndex_ T) ty n with
         | Some (d :: _) => Some d
         | _ => None
         end.
Proof.
  intros [<- Hs Hn Ht]. unfold Startup.injected, candidate_name. rewrite Hn, Ht.
  cbn [default]. cbv zeta. destruct (_ =? kInvalidTypeId); [done|]. cbn [orb].
  by destruct (kHasNamed anns).
Qed.

Lemma candidate_at D I ty n l d : Living.tables_ok D I →
  TypeIndex.candidatesFor I ty n = Some l → d ∈ l → ∃ x, DescriptorTable.at_ D d = Some x.
Proof.
  intros Hok Hl Hd. unfold TypeIndex.candidatesFor in Hl.
  destruct (TypeIndex.entryFor I ty n) as [e|] eqn:He; [|done]. injection Hl as <-.
  apply vat_is_Some. apply (Living.tk_entries _ _ Hok ty n e d He); [by left|].
  intros ->. by apply (Living.tk_valid _ _ Hok ty n e He).
Qed.

(** The scoped branch. *)
Lemma injectScoped_run anns g p st : coherent anns st → param_matches p anns g →
  Living.tables_ok (Startup.descriptors_ (tables st)) (Startup.typeIndex_ (tables st)) →
  ∃ o st', injectScoped anns g st = (o, st') ∧ coherent anns st' ∧
    tables st' = scope_interned anns (tables st) ∧ scope_named anns st st' ∧
    match Startup.injected (tables st') p with
    | None => ∃ message, o = Throw (ResolutionError message)
    | Some d =>
        let ty := TypeInterning.lookupByTypeIndex (Startup.typeInterning_ (tables st)) g in
        if tied (tables st') ty (candidate_name (tables st') anns)
        then o = Throw Runtime.ambiguous_error
        else o = Ok (Handle.makeDeferred (NameInterning.intern (scope_of anns) (names st)).1 d rid)
    end.
Proof.
  intros Hc Hp Hok. destruct (internScope_run anns st Hc) as (st1 & Hrun & HT & Hc1 & Hsn).
  unfold injectScoped. rewrite (ok_bind _ _ _ _ _ Hrun).
  pose proof (candidate_run anns st1 Hc1) as Hcand. cbv zeta in Hcand.
  assert (TypeInterning.lookupByTypeIndex (Startup.typeInterning_ (tables st)) g
          = World.typeIdFor g (world st1)) as -> by by (unfold World.typeIdFor; rewrite HT).
  pose proof (injected_matches (tables st1) _ _ _ Hp) as Hinj. cbv zeta in Hinj.
  fold (World.typeIdFor g (world st1)) in Hinj.
  destruct (kHasNamed anns && (candidate_name (tables st1) anns =? kInvalidNameId)) eqn:Hu.
  { rewrite (throw_bind _ _ _ _ _ Hcand). eexists _, st1. split; [reflexivity|].
    split_and!; [done|done|done|]. rewrite Hinj, orb_true_r. by eexists. }
  destruct Hcand as (st2 & Hrun2 & Hw & Hc2). rewrite (ok_bind _ _ _ _ _ Hrun2), mget_bind, Hw.
  assert (scope_named anns st st2) as Hsn2 by by unfold scope_named; rewrite Hw.
  rewrite orb_false_r in Hinj. set (ty := World.typeIdFor g (world st1)) in *.
  set (n := candidate_name (tables st1) anns) in *.
  assert (∀ l d, TypeIndex.candidatesFor (Startup.typeIndex_ (tables st1)) ty n = Some l → d ∈ l →
    ∃ x, DescriptorTable.at_ (Startup.descriptors_ (tables st1)) d = Some x) as Hat.
  { intros l d Hl Hd. rewrite HT in *. by eapply candidate_at. }
  assert (tied (tables st1) ty n =
    match TypeIndex.candidatesFor (Startup.typeIndex_ (tables st1)) ty n with
    | Some (d :: d' :: _) =>
        match DescriptorTable.at_ (Startup.descriptors_ (tables st1)) d,
              DescriptorTable.at_ (Startup.descriptors_ (tables st1)) d' with
        | Some x, Some x' => (priority x =? priority x')%Z
        | _, _ => false
        end
    | _ => false
    end) as Htied by done.
  destruct (ty =? kInvalidTypeId).
  { eexists _, st2. split; [reflexivity|]. rewrite Hw, Hinj. by split_and!; [..|eexists]. }
  destruct (TypeIndex.candidatesFor _ ty n) as [[|d [|d' l]]|] eqn:Hcf.
  - eexists _, st2. split; [reflexivity|]. rewrite Hw, Hinj. by split_and!; [..|eexists].
  - eexists _, st2. split; [reflexivity|]. rewrite Hw, Hinj. fold n. cbv zeta. rewrite Htied.
    by split_and!.
  - destruct (Hat _ d eq_refl) as [x Hx]; [by left|].
    destruct (Hat _ d' eq_refl) as [x' Hx']; [by right; left|].
    rewrite Hx, Hx' in *. cbn [mlift].
    rewrite (ok_bind _ _ st2 x st2), (ok_bind _ _ st2 x' st2) by done.
    destruct (priority x =? priority x')%Z; eexists _, st2; (split; [reflexivity|]);
      rewrite Hw, Hinj; fold n; cbv zeta; rewrite Htied; by split_and!.
  - eexists _, st2. split; [reflexivity|]. rewrite Hw, Hinj. by split_and!; [..|eexists].
Qed.

(** The other branches: [resolve] with the candidate name. *)
Lemma injectPlain_run ctx anns g st : coherent anns st → kHasScoped anns = false →
  ∃ st', coherent anns st' ∧
    let n := candidate_name (tables st) anns in
    if kHasNamed anns && (n =? kInvalidNameId)
    then injectParam ctx anns g st = (Throw (qualifier_error (qualifier_of anns)), st') ∧
         world st' = world st
    else injectParam ctx anns g st
         = ((World.on_rt H (λ E, Runtime.resolve E fuel ctx (World.typeIdFor g (world st)) n)
              (world st)).1, st') ∧
         world st' = (World.on_rt H (λ E, Runtime.resolve E fuel ctx
                        (World.typeIdFor g (world st)) n) (world st)).2.
Proof.
  intros Hc Hs. unfold injectParam. rewrite Hs.
  pose proof (candidate_run anns st Hc) as Hrun. cbv zeta in *.
  assert (∀ st1 n, coherent anns st1 → world st1 = world st → ∃ st', coherent anns st' ∧
    resolve_in ctx g n st1
    = ((World.on_rt H (λ E, Runtime.resolve E fuel ctx (World.typeIdFor g (world st)) n)
              (world st)).1, st') ∧
    world st' = (World.on_rt H (λ E, Runtime.resolve E fuel ctx
                   (World.typeIdFor g (world st)) n) (world st)).2) as Hres.
  { intros st1 n Hc1 Hw. unfold resolve_in, on_world, World.on_rt. rewrite Hw.
    destruct (Runtime.resolve _ fuel ctx _ n _) as [o R]. eexists. split; [|by split].
    destruct Hc1 as [H1 H2 H3]. rewrite Hw in *. by split. }
  destruct (kHasNamed anns) eqn:Hn; cbn [andb] in *.
  - destruct (_ =? kInvalidNameId).
    + exists st. by rewrite (throw_bind _ _ _ _ _ Hrun).
    + destruct Hrun as (st1 & Hrun & Hw & Hc1). rewrite (ok_bind _ _ _ _ _ Hrun). by apply Hres.
  - unfold candidate_name. rewrite Hn. by apply Hres.
Qed.

(** ** The parameter descriptor and the parameter *)

Lemma has_marker anns : kHasScoped anns = negb (bool_decide (scoped_names anns = [])) ∧
  kHasNamed anns = negb (bool_decide (qualifiers anns = [])).
Proof.
  unfold kHasScoped, kHasNamed, scoped_names, qualifiers.
  induction anns as [|ann anns [IH1 IH2]]; [done|]. destruct ann; cbn in *; by rewrite ?IH1, ?IH2.
Qed.

(** The loop of [makeParamDescriptors] keeps the last annotation of a kind. *)
Lemma scan_param_spec anns r :
  let r' := foldl Generation.see_param_annotation r anns in
  Generation.hasScopedAnn r' = Generation.hasScopedAnn r || kHasScoped anns ∧
  Generation.hasNamedAnn r' = Generation.hasNamedAnn r || kHasNamed anns ∧
  Generation.scan_targetName r'
    = default (Generation.scan_targetName r) (c_string <$> last (qualifiers anns)) ∧
  Generation.scan_scopeName r'
    = default (Generation.scan_scopeName r) (c_string <$> last (scoped_names anns)).
Proof.
  cbv zeta. revert r. unfold kHasScoped, kHasNamed, scoped_names, qualifiers.
  induction anns as [|ann anns IH]; intros r; [by rewrite !orb_false_r|].
  cbn [foldl]. destruct (IH (Generation.see_param_annotation r ann)) as (-> & -> & -> & ->).
  destruct ann; cbn [omap list_omap existsb type_of Generation.see_param_annotation
    Generation.hasScopedAnn Generation.hasNamedAnn Generation.scan_targetName
    Generation.scan_scopeName]; rewrite ?bool_decide_eq_false_2 by done; try done;
    rewrite ?bool_decide_eq_true_2 by done; rewrite ?last_cons, ?orb_true_r; split_and!; try done;
    lazymatch goal with |- context [match last ?l with _ => _ end] => by destruct (last l) end.
Qed.

Lemma last_single {A} (l : list A) : (length l ≤ 1)%nat → last l = head l.
Proof. destruct l as [|x [|y l]]; cbn; [done..|lia]. Qed.

(** A parameter with at most one annotation of each kind. *)
Lemma param_descriptor_matches `{Generation.Toolchain} (P : program) (limit : nat) (q : parameter) p U :
  Generation.makeParamDescriptor P limit q = Value p →
  Generation.template_argument P (dealias P (parameter_type q)) 0 = Value U →
  (length (scoped_names (parameter_annotations q)) ≤ 1)%nat →
  (length (qualifiers (parameter_annotations q)) ≤ 1)%nat →
  param_matches p (parameter_annotations q) (Generation.TypeInfoGetter U) ∧
  scopeName p = scope_of (parameter_annotations q).
Proof.
  intros Hp HU Hs Hq. unfold Generation.makeParamDescriptor in Hp. rewrite HU in Hp.
  rewrite value_bind in Hp. consteval_inv. subst p.
  destruct (scan_param_spec (parameter_annotations q)
    {| Generation.hasScopedAnn := false; Generation.hasNamedAnn := false;
       Generation.scan_targetName := ""; Generation.scan_scopeName := "" |}) as (E1 & E2 & E3 & E4).
  unfold Generation.scan_param. split; [split|]; cbn; rewrite ?E1, ?E2, ?E3, ?E4; try done.
  - unfold qualifier_of, kNameStr. rewrite last_single by done.
    by destruct (head (qualifiers _)) as [[n|]|].
  - unfold scope_of, kScopeNameStr. rewrite last_single by done.
    by destruct (head (scoped_names _)) as [[n|]|].
Qed.

(** C29 What is injected: for a constructor parameter with at most one [scoped] and one
    [named] annotation, in a context with usable tables and whatever the two packed caches
    of the call site hold from any registry, [injectParam] ends, leaves the caches coherent,
    and goes by the (type, name) pair of the parameter descriptor that the compiler
    generated for [start()]'s check: a scoped parameter becomes a deferred handle to the
    candidate that the lookup of this check gives on the tables of the moment of the
    injection, in the scope of the descriptor's scope name, unless two candidates tie or
    there is none (a [ResolutionError]); any other parameter is resolved for that pair, and
    an unknown qualifier is refused before resolution. On tables unchanged since the check
    it is the candidate [start()] looked at; a later binding, or the context bean, which is
    added after the check, can give another one. *)
Theorem injection_as_checked `{Generation.Toolchain} (P : program) (limit : nat) (q : parameter)
    (p : ContributedParamDescriptor) (U : info) (ctx : option ptr) (st : t) :
  let anns := parameter_annotations q in
  let g := Generation.TypeInfoGetter U in
  Generation.makeParamDescriptor P limit q = Value p →
  Generation.template_argument P (dealias P (parameter_type q)) 0 = Value U →
  (length (scoped_names anns) ≤ 1)%nat → (length (qualifiers anns) ≤ 1)%nat →
  coherent anns st →
  Living.tables_ok (Startup.descriptors_ (tables st)) (Startup.typeIndex_ (tables st)) →
  ∃ o st', injectParam ctx anns g st = (o, st') ∧ coherent anns st' ∧
    let ty := TypeInterning.lookupByTypeIndex (Startup.typeInterning_ (tables st)) g in
    if hasScopedAnnotation p then
      let '(scope, T) := NameInterning.intern (scopeName p) (names st) in
      names st' = T ∧
      match Startup.injected (tables st') p with
      | None => ∃ message, o = Throw (ResolutionError message)
      | Some d =>
          o = if tied (tables st') ty (candidate_name (tables st') anns)
              then Throw Runtime.ambiguous_error
              else Ok (Handle.makeDeferred scope d rid)
      end
    else
      let n := if hasNamedAnnotation p
               then NameInterning.lookup (names st) (default ""%string (targetName p))
               else kUnnamed in
      if hasNamedAnnotation p && (n =? kInvalidNameId)
      then o = Throw (qualifier_error (default ""%string (targetName p))) ∧ world st' = world st
      else (o, world st') = World.on_rt H (λ E, Runtime.resolve E fuel ctx ty n) (world st).
Proof.
  intros anns g Hp HU Hs Hq Hc Hok.
  destruct (param_descriptor_matches P limit q p U Hp HU Hs Hq) as [Hm Hsn]. fold anns g in Hm, Hsn.
  rewrite (pm_scoped _ _ _ Hm). destruct (kHasScoped anns) eqn:Hsc.
  - destruct (injectScoped_run anns g p st Hc Hm Hok) as (o & st' & Hrun & Hc' & HT & _ & Hres).
    exists o, st'. split; [unfold injectParam; by rewrite Hsc|]. split; [done|]. cbv zeta.
    rewrite Hsn. destruct (NameInterning.intern (scope_of anns) (names st)) as [sid T] eqn:Hi.
    split; [rewrite HT; unfold scope_interned; by rewrite Hi|].
    destruct (Startup.injected (tables st') p) as [d|]; [|done].
    revert Hres. cbv zeta. by destruct (tied _ _ _).
  - destruct (injectPlain_run ctx anns g st Hc Hsc) as (st' & Hc' & Hrun). cbv zeta in *.
    rewrite (pm_named _ _ _ Hm), (pm_target _ _ _ Hm). unfold candidate_name in Hrun. cbn [default].
    destruct (kHasNamed anns); cbn [andb] in *.
    + destruct (_ =? kInvalidNameId).
      * destruct Hrun as [Hrun Hw]. eexists _, st'. by split_and!.
      * destruct Hrun as [Hrun Hw]. eexists _, st'. split_and!; [exact Hrun|done|].
        rewrite Hw. symmetry. apply surjective_pairing.
    + destruct Hrun as [Hrun Hw]. eexists _, st'. split_and!; [exact Hrun|done|].
      rewrite Hw. symmetry. apply surjective_pairing.
Qed.
End inject.

(** ** Witness *)

#[local] Existing Instance SampleProgram.toolchain.

(** A call site that has not run, in the context the sample program starts. *)
Definition sample_site : t := {| world := SampleProgram.started; scopeCache := 0; nameCache := 0 |}.

Lemma sample_coherent anns : coherent SampleWorld.host anns sample_site.
Proof.
  pose proof (Service.rn_names _ SampleProgram.started_running) as Hwf.
  split; [|done..]. intros s id Hs. destruct (NameInterning.wf_forward _ Hwf s id Hs) as (_ & Hn & _).
  apply vat_lt in Hn. eapply N.lt_trans; [exact Hn|]. vm_compute. reflexivity.
Qed.

(** The parameter of [Editor]: a deferred handle to the file store behind its base, in the
    scope ["doc"], which gets its id on the way. *)
Lemma injection_as_checked_witness : ∃ st',
  injectParam SampleWorld.host 15 None (parameter_annotations SampleProgram.store_param) 1004
    sample_site = (Ok (Handle.makeDeferred 2 2 1), st') ∧
  coherent SampleWorld.host (parameter_annotations SampleProgram.store_param) st'.
Proof.
  destruct (Generation.makeParamDescriptor SampleProgram.program 4 SampleProgram.store_param)
    as [p|] eqn:Hp; [|vm_compute in Hp; discriminate].
  destruct (injection_as_checked SampleWorld.host 15 SampleProgram.program 4
    SampleProgram.store_param p 4 None sample_site Hp) as (o & st' & Hrun & Hc & _).
  - reflexivity.
  - cbn. lia.
  - cbn. lia.
  - apply sample_coherent.
  - apply (Service.rn_tables _ SampleProgram.started_running).
  - exists st'. split; [|exact Hc].
    assert ((injectParam SampleWorld.host 15 None (parameter_annotations SampleProgram.store_param)
      1004 sample_site).1 = Ok (Handle.makeDeferred 2 2 1)) as Ho by (vm_compute; reflexivity).
    change (Generation.TypeInfoGetter 4) with 1004 in Hrun. rewrite Hrun in Ho.
    cbn in Ho. subst o. exact Hrun.
Defined.
End Injection.
