(* ===== verification/Metadata.v ===== *)
(** Bean metadata: what a handle tells about its bean.

    [Module Metadata] models [api/ctr/BeanMetadata.hpp] (the view, the range of retained
    methods and the filtered range with its iterator) and [Bean::metadata] and
    [AnyBean::metadata] of [internal/detail/HandleInlineImpl.hpp].  The theorem follows
    the data from the annotations of a class to the view. *)
From S2P Require Import Prelude Tables Reflection Identities Discovery Generation Interning Stores Handles Startup StartupFacts Started SampleStart Opened Ready Generated World SampleWorld Living Service SampleProgram.

Local Open Scope N_scope.

Module Metadata.
Import StartupFacts Meta IdentityGen Discovery Generation.

(** ** Records and annotations *)

(** The annotation types [hasAnnotation<A>] and [annotatedWith<A>] distinguish. *)
Definition matches (A : marker) (r : BeanMethodRecord) : bool :=
  match A with
  | mk_postConstruct => isPostConstruct r
  | mk_preDestroy => isPreDestroy r
  | _ => false
  end.

Definition hasAnnotation (A : marker) (r : BeanMethodRecord) : bool := matches A r.

(** [annotation<A>()]: the annotation value, which has no fields. *)
Definition annotation_of (A : marker) (r : BeanMethodRecord) : option marker :=
  match A with
  | mk_postConstruct => if isPostConstruct r then Some A else None
  | mk_preDestroy => if isPreDestroy r then Some A else None
  | _ => None
  end.

Definition parameterCount (r : BeanMethodRecord) : N := nlen (method_params r).

(** ** Ranges over the retained methods *)

Section ranges.
Context (methods : list BeanMethodRecord).

(** [MethodsRange]: the array and its length; a pointer is an index into the array. *)
Definition methods_size : N := nlen methods.

Definition methods_empty : bool := methods_size =? 0.

(** [FilteredMethodsRange<A>::Iterator]: [while (ptr != end && !matches( *ptr)) ++ptr].
    The distance to [end] bounds the loop; [None] is a read outside the array. *)
Fixpoint advance_loop (A : marker) (distance : nat) (ptr end_ : N) : option N :=
  if ptr =? end_ then Some ptr
  else
    r ← vat methods ptr;
    if matches A r then Some ptr
    else match distance with
         | O => None
         | S distance' => advance_loop A distance' (ptr + 1) end_
         end.

Definition advance (A : marker) (ptr end_ : N) : option N :=
  advance_loop A (N.to_nat (end_ - ptr)) ptr end_.

Definition filtered_begin (A : marker) : option N := advance A 0 methods_size.

Definition next (A : marker) (ptr : N) : option N := advance A (ptr + 1) methods_size.

Definition filtered_empty (A : marker) : option bool :=
  b ← filtered_begin A; Some (b =? methods_size).

(** [for (auto m : range)]: from [begin()] to [end()], at most [steps] times. *)
Fixpoint iterate (A : marker) (steps : nat) (ptr : N) : option (list BeanMethodRecord) :=
  if ptr =? methods_size then Some []
  else
    match steps with
    | O => None
    | S steps' =>
        r ← vat methods ptr;
        p ← next A ptr;
        l ← iterate A steps' p;
        Some (r :: l)
    end.

Definition annotatedWith (A : marker) : option (list BeanMethodRecord) :=
  b ← filtered_begin A; iterate A (length methods) b.

(** *** The loop visits the matching records *)

Lemma advance_loop_spec A n p :
  (N.to_nat p + n = length methods)%nat →
  ∃ q, advance_loop A n p methods_size = Some q ∧ p ≤ q ∧ q ≤ methods_size ∧
    filter (matches A) (drop (N.to_nat p) methods) = filter (matches A) (drop (N.to_nat q) methods) ∧
    (q ≠ methods_size → ∃ r, vat methods q = Some r ∧ matches A r = true).
Proof.
  unfold methods_size, nlen. revert p. induction n as [|n IH]; intros p Hp; cbn [advance_loop].
  - assert (p = N.of_nat (length methods)) as -> by lia. rewrite N.eqb_refl.
    eexists. by split_and!; [| | | |intros []].
  - destruct (N.eqb_spec p (N.of_nat (length methods))) as [->|Hne]; [lia|].
    destruct (proj2 (vat_is_Some methods p)) as [r Hr]; [unfold nlen; lia|].
    rewrite Hr. cbn [mbind option_bind]. destruct (matches A r) eqn:Hm.
    + exists p. split_and!; [done|lia|lia|done|]. intros _. by exists r.
    + destruct (IH (p + 1)) as (q & Hq & H1 & H2 & H3 & H4); [lia|].
      exists q. split_and!; [done|lia|done| |done]. rewrite <-H3.
      rewrite vat_lookup in Hr. rewrite (drop_S _ _ _ Hr), filter_cons, Hm.
      by replace (N.to_nat (p + 1)) with (S (N.to_nat p)) by lia.
Qed.

Lemma advance_spec A p : p ≤ methods_size →
  ∃ q, advance A p methods_size = Some q ∧ p ≤ q ∧ q ≤ methods_size ∧
    filter (matches A) (drop (N.to_nat p) methods) = filter (matches A) (drop (N.to_nat q) methods) ∧
    (q ≠ methods_size → ∃ r, vat methods q = Some r ∧ matches A r = true).
Proof. intros Hp. apply advance_loop_spec. unfold methods_size, nlen in *. lia. Qed.

Lemma iterate_spec A n p : p ≤ methods_size → (N.to_nat (methods_size - p) ≤ n)%nat →
  (p ≠ methods_size → ∃ r, vat methods p = Some r ∧ matches A r = true) →
  iterate A n p = Some (filter (matches A) (drop (N.to_nat p) methods)).
Proof.
  revert p. induction n as [|n IH]; intros p Hp Hn Hm; cbn [iterate].
  - assert (p = methods_size) as -> by lia. rewrite N.eqb_refl.
    unfold methods_size, nlen. by rewrite Nat2N.id, drop_all.
  - destruct (N.eqb_spec p methods_size) as [->|Hne].
    { unfold methods_size, nlen. by rewrite Nat2N.id, drop_all. }
    destruct (Hm Hne) as (r & Hr & Hmr). rewrite Hr. cbn [mbind option_bind]. unfold next.
    destruct (advance_spec A (p + 1)) as (q & -> & H1 & H2 & H3 & H4); [lia|].
    cbn [mbind option_bind]. rewrite IH by (done || lia). cbn [mbind option_bind].
    rewrite vat_lookup in Hr. rewrite (drop_S _ _ _ Hr), filter_cons, Hmr, <-H3.
    by replace (N.to_nat (p + 1)) with (S (N.to_nat p)) by lia.
Qed.

Lemma annotatedWith_spec A : annotatedWith A = Some (filter (matches A) methods).
Proof.
  unfold annotatedWith, filtered_begin.
  destruct (advance_spec A 0) as (q & -> & _ & H2 & H3 & H4); [unfold methods_size; lia|].
  cbn [mbind option_bind]. rewrite iterate_spec; [by rewrite <-H3|done| |done].
  unfold methods_size, nlen in *. lia.
Qed.
End ranges.

(** ** [BeanMetadata] *)

Record BeanMetadata : Type := {
  observedTypeGetter_ : option TypeInfo;
  exactTypeGetter_ : option TypeInfo;
  nameStr_ : option string;
  factoryMethodName_ : option string;
  lifetime_ : Lifetime;
  origin_ : Origin;
  reflective_ : option N
}.

(** [typeid(void)]. *)
Definition observedType (typeid_void : TypeInfo) (m : BeanMetadata) : TypeInfo :=
  default typeid_void (observedTypeGetter_ m).

Definition exactType (typeid_void : TypeInfo) (m : BeanMetadata) : TypeInfo :=
  default typeid_void (exactTypeGetter_ m).

Definition bean_name (m : BeanMetadata) : string := default ""%string (nameStr_ m).

Definition factoryMethod (m : BeanMetadata) : string := default ""%string (factoryMethodName_ m).

(** [methods()]: the array at the retained address ([kData] is static data). *)
Definition methods_of (kData : N → list BeanMethodRecord) (m : BeanMetadata)
    : list BeanMethodRecord :=
  match reflective_ m with None => [] | Some a => kData a end.

(** A handle without a registry. *)
Definition no_metadata : BeanMetadata :=
  {| observedTypeGetter_ := None; exactTypeGetter_ := None; nameStr_ := Some ""%string;
     factoryMethodName_ := Some ""%string; lifetime_ := Singleton;
     origin_ := Tables.AnnotatedType; reflective_ := None |}.

(** The view of one descriptor; [None] is an id outside the table. *)
Definition metadata_at (D : DescriptorTable.t) (id : DescriptorId) : option BeanMetadata :=
  d ← DescriptorTable.at_ D id;
  cold ← DescriptorTable.coldAt D id;
  Some {| observedTypeGetter_ := observedTypeGetter cold;
          exactTypeGetter_ := exactTypeGetter cold; nameStr_ := Some (nameStr cold);
          factoryMethodName_ := factoryMethodName cold; lifetime_ := lifetime d;
          origin_ := origin cold; reflective_ := reflectiveData cold |}.

#[local] Existing Instance Handle.anchor_eq_dec.

Definition has_registry (b : Handle.Bean) : bool := bool_decide (Handle.registry b ≠ Handle.ANull).

(** [Bean::metadata]; the two forms of a handle keep the id in the same bits. *)
Definition metadata (D : DescriptorTable.t) (b : Handle.Bean) : option BeanMetadata :=
  if negb (Handle.object_ b =? nullptr) && has_registry b then metadata_at D (Handle.descId b)
  else if has_registry b then metadata_at D (Handle.descId b)
  else Some no_metadata.

(** [AnyBean::metadata] *)
Definition any_metadata (D : DescriptorTable.t) (b : Handle.AnyBean) : option BeanMetadata :=
  if has_registry b then metadata_at D (Handle.descId b) else Some no_metadata.

Lemma any_metadata_same D b : any_metadata D b = metadata D b.
Proof.
  unfold any_metadata, metadata. destruct (has_registry b); [|by rewrite andb_false_r].
  by destruct (negb _ && _).
Qed.

(** ** From the class to the view *)

Section records.
Context `{Toolchain} (P : program).

Lemma method_record_spec m r : method_record P m = Value r →
  identifier (entity_of P m) = Some (method_name r) ∧
  isPostConstruct r = hasAnnotationOfType P m mk_postConstruct ∧
  isPreDestroy r = hasAnnotationOfType P m mk_preDestroy.
Proof. unfold method_record, identifier_of. intros Hr. consteval_inv. by subst. Qed.

Lemma mapM_value {A B} (f : A → consteval B) l k : mapM f l = Value k →
  Forall2 (λ a b, f a = Value b) l k.
Proof.
  revert k. induction l as [|a l IH]; intros k Hk; cbn in Hk; consteval_inv; subst; constructor; auto.
Qed.

(** The methods of [T] that carry [A], with their names. *)
Lemma records_annotated T records A : A = mk_postConstruct ∨ A = mk_preDestroy →
  reflective_records P T = Value records →
  Forall2 (λ m r, identifier (entity_of P m) = Some (method_name r))
    (filter (λ m, hasAnnotationOfType P m A) (filter (is_method P) (members_of P T)))
    (filter (matches A) records).
Proof.
  intros HA Hr%mapM_value. induction Hr as [|m r ms rs Hm _ IH]; [constructor|].
  apply method_record_spec in Hm as (Hid & Hpc & Hpd). rewrite !filter_cons.
  assert (matches A r = hasAnnotationOfType P m A) as -> by by destruct HA as [-> | ->].
  by destruct (hasAnnotationOfType P m A); [constructor|].
Qed.

(** No record matches another annotation. *)
Lemma records_unmatched (records : list BeanMethodRecord) A : ¬ (A = mk_postConstruct ∨ A = mk_preDestroy) →
  filter (matches A) records = [].
Proof.
  intros HA. induction records as [|r l IH]; [done|]. rewrite filter_cons, IH.
  assert (matches A r = false) as -> by (destruct A; try done; destruct HA; auto). done.
Qed.

Lemma class_metadata limit e retainMeta cd : makeDescriptorForAnnotatedType P limit e retainMeta = Value cd →
  let ann := scanAnnotations P (entity e) in
  cd_exposedTypeInfo cd = TypeInfoGetter (entity e) ∧
  cd_concreteTypeInfo cd = TypeInfoGetter (entity e) ∧ cd_beanName cd = scanned_name ann ∧
  cd_lifetime cd = scanned_lifetime ann ∧ cd_origin cd = Tables.AnnotatedType ∧
  cd_factoryMethodName cd = None ∧
  (if retainMeta then makeReflectiveData P (entity e) = Value (cd_reflectiveData cd)
   else cd_reflectiveData cd = None).
Proof.
  unfold makeDescriptorForAnnotatedType. intros Hm. consteval_inv. subst. cbn.
  split_and!; try done. destruct retainMeta; [done|]. by consteval_inv.
Qed.
End records.

(** C30 What a handle tells is what the class declares: for any program, when the descriptor
    of an annotated class takes part in a start that succeeds, the metadata of a handle to
    it ([Bean] or [AnyBean], direct or proxy) has the class as observed and exact type, the
    name and the lifetime of its annotations and no producer method; with retained metadata
    its method records are those of the members of the class that are no types, constructors
    or special member functions (data members included), in declaration order, and the
    filtered range of [postConstruct] or of [preDestroy] visits, within the array, exactly
    those that carry the annotation, in order, while the range of any other annotation is
    empty, whatever the members carry; without retained metadata there are no records. *)
Theorem metadata_reports_class `{SS : StdSort} `{Toolchain} (P : program) (limit : nat)
    (e : DiscoveredEntity) (retainMeta : bool) (cd : ContributedDescriptor)
    (noop : FnPtr) (contextTypeInfo typeid_void : TypeInfo) (contextAlign : N)
    (kData : N → list BeanMethodRecord) (ctx : ptr) (R R' : Startup.t) (i : N) (b : Handle.Bean) :
  let T := entity e in
  let ann := scanAnnotations P T in
  makeDescriptorForAnnotatedType P limit e retainMeta = Value cd →
  Started.unstarted R → Started.enough_room R → ctx ≠ nullptr →
  Startup.start noop contextTypeInfo contextAlign ctx R = (Ok tt, R') →
  vat (distinct [] (mjoin (Startup.pending_ R))) i = Some cd →
  (∀ records, reflective_records P T = Value records → kData (address_of_kData T) = records) →
  has_registry b = true →
  Handle.descId b = DescriptorTable.size (Startup.descriptors_ (Startup.tables_ R)) + i →
  ∃ m, metadata (Startup.descriptors_ (Startup.tables_ R')) b = Some m ∧
    any_metadata (Startup.descriptors_ (Startup.tables_ R')) b = Some m ∧
    observedType typeid_void m = TypeInfoGetter T ∧ exactType typeid_void m = TypeInfoGetter T ∧
    bean_name m = scanned_name ann ∧ lifetime_ m = scanned_lifetime ann ∧
    origin_ m = Tables.AnnotatedType ∧ factoryMethod m = ""%string ∧
    if retainMeta then
      reflective_records P T = Value (methods_of kData m) ∧
      ∀ A, ∃ visited, annotatedWith (methods_of kData m) A = Some visited ∧
        if decide (A = mk_postConstruct ∨ A = mk_preDestroy)
        then Forall2 (λ f r, identifier (entity_of P f) = Some (method_name r))
          (filter (λ f, hasAnnotationOfType P f A) (filter (is_method P) (members_of P T))) visited
        else visited = []
    else methods_of kData m = [].
Proof.
  intros T ann Hcd HR Hroom Hctx Hstart Hi Hdata Hb Hid.
  destruct (class_metadata P limit e retainMeta cd Hcd) as (E1 & E2 & E3 & E4 & E5 & E6 & E7).
  destruct (Opened.contribution_translated noop contextTypeInfo contextAlign ctx R R' i cd
    HR Hroom Hctx Hstart Hi) as (slot & p & f & t1 & t2 & n & Hat & Hcold & _).
  rewrite any_metadata_same. unfold metadata. rewrite Hb, Hid.
  assert (∀ c : bool, (if c then metadata_at (Startup.descriptors_ (Startup.tables_ R'))
      (DescriptorTable.size (Startup.descriptors_ (Startup.tables_ R)) + i)
    else metadata_at (Startup.descriptors_ (Startup.tables_ R'))
      (DescriptorTable.size (Startup.descriptors_ (Startup.tables_ R)) + i)) =
    metadata_at (Startup.descriptors_ (Startup.tables_ R'))
      (DescriptorTable.size (Startup.descriptors_ (Startup.tables_ R)) + i)) as -> by by intros [].
  unfold metadata_at. rewrite Hat, Hcold. cbn [mbind option_bind].
  eexists. split; [reflexivity|]. split; [reflexivity|]. cbn. rewrite E1, E2, E3, E4, E5, E6.
  split_and!; try done. unfold methods_of. cbn. destruct retainMeta; [|by rewrite E7].
  unfold makeReflectiveData in E7. consteval_inv. rewrite <-E7. specialize (Hdata _ Ha).
  fold T in Ha.
  assert ((match match a with [] => None | _ :: _ => Some (address_of_kData (entity e)) end with
    None => [] | Some a0 => kData a0 end) = a) as ->.
  { destruct a; [done|]. exact Hdata. }
  split; [done|]. intros A. rewrite annotatedWith_spec. eexists. split; [done|].
  case_decide as HA; [by apply records_annotated|by apply records_unmatched].
Qed.

(** ** Witness *)

#[local] Existing Instance SampleProgram.toolchain.

Definition sample_data (a : N) : list BeanMethodRecord :=
  match reflective_records SampleProgram.program (a - 2000) with Value l => l | _ => [] end.

Definition file_store : DiscoveredEntity :=
  {| entity := 6; entityKind := AnnotatedType; declaringFactory := null_info |}.

Definition file_store_bean : Handle.Bean := Handle.makeDirect 500 kInvalidSlotId 1 1.

Lemma program_room : Started.enough_room SampleProgram.registry.
Proof. by vm_compute. Qed.

Lemma file_store_compiled : ∃ cd,
  makeDescriptorForAnnotatedType SampleProgram.program 4 file_store true = Value cd ∧
  vat (distinct [] (mjoin (Startup.pending_ SampleProgram.registry))) 1 = Some cd.
Proof.
  assert (match makeDescriptorForAnnotatedType SampleProgram.program 4 file_store true with
    | Value cd => vat (distinct [] (mjoin (Startup.pending_ SampleProgram.registry))) 1 = Some cd
    | IllFormed _ => False end) as H by (vm_compute; reflexivity).
  revert H. generalize (makeDescriptorForAnnotatedType SampleProgram.program 4 file_store true).
  intros [cd|] H; [exists cd; split; [reflexivity|exact H]|destruct H].
Qed.

(** The file store of the sample program, with its [preDestroy] method. *)
Lemma metadata_reports_class_witness : ∃ R' m,
  Startup.start 1 99 8 300 SampleProgram.registry = (Ok tt, R') ∧
  metadata (Startup.descriptors_ (Startup.tables_ R')) file_store_bean = Some m ∧
  bean_name m = "file"%string ∧ lifetime_ m = Session ∧
  method_name <$> methods_of sample_data m = ["close"%string].
Proof.
  destruct file_store_compiled as (cd & Hcd & Hc).
  assert ((Startup.start 1 99 8 300 SampleProgram.registry).1 = Ok tt) as Ho
    by (vm_compute; reflexivity).
  destruct (Startup.start 1 99 8 300 SampleProgram.registry) as [o R'] eqn:Hs. cbn [fst] in Ho. subst o.
  destruct (metadata_reports_class SampleProgram.program 4 file_store true cd 1 99 0 8 sample_data
    300 SampleProgram.registry R' 1 file_store_bean Hcd) as (m & Hm & _ & _ & _ & Hn & Hl & _ & _ & Hr & _).
  - apply SampleStart.registry_unstarted.
  - exact program_room.
  - discriminate.
  - exact Hs.
  - exact Hc.
  - intros records Hr. change (address_of_kData (entity file_store)) with 2006. unfold sample_data.
    change (2006 - 2000) with 6. change (entity file_store) with 6 in Hr. rewrite Hr. reflexivity.
  - reflexivity.
  - vm_compute. reflexivity.
  - exists R', m. split; [reflexivity|]. split; [exact Hm|]. split; [exact Hn|]. split; [exact Hl|].
    change (entity file_store) with 6 in Hr.
    revert Hr. generalize (methods_of sample_data m). intros l Hr.
    vm_compute in Hr. injection Hr as Hr. rewrite <-Hr. reflexivity.
Defined.
End Metadata.
