(* ===== verification/Dereferenced.v ===== *)
(** Theorems about dereferenced handles, in a started context.

    [Module Dereferenced]: a proxy is looked up again on every access ([proxy_live]), and
    what a request returns can be dereferenced at once ([request_access]). *)
From S2P Require Import Prelude Tables Interning Index Stores Startup Freelist Prototypes Listeners Claims Handles Casts Caches Runtime RuntimeFacts Resolution Ready World SampleWorld Contexts Living Service Access Starting Serving SampleProgram.

Local Open Scope N_scope.

Module Dereferenced.
Import World RuntimeFacts Living Service Access Serving.
Local Open Scope ctr_scope.
#[local] Existing Instance Runtime.ScopeState_eq_dec.

Section access.
Context `{SS : StdSort} (H : host) (fuel : nat) (known : gset ptr) (HG : host_good H known).

Abbreviation running := (running H known).
Abbreviation fuelled := (fuelled fuel).
Abbreviation instance W := (instance_of (env_of H W) (rt W)).
Abbreviation arrow := (Access.arrow H fuel).
Abbreviation adjusted := (Access.adjusted H).

(** C11 A session handle is live: whatever happened to the context, dereferencing a proxy for
    scope name [n] looks the scope up again. Without a scope of that name, or with a
    stopped one, it gives the null pointer and changes nothing; otherwise it gives the
    exposed object of the bean that the scope holds, building it (once, with its whole
    lifecycle) if the scope has none; once it has returned an object it keeps returning it
    without touching anything; an exception comes from such a construction only; and
    [context()] is the scope of that name, the root if there is none. *)
Theorem proxy_live (W : t) (b : Handle.Bean) (n : NameId) (d : DescriptorId) (x : Descriptor) :
  running W → fuelled 0 W → Handle.arrow b = Handle.ViaProxy n d →
  DescriptorTable.at_ (descs W) d = Some x → lifetime x = Session →
  let sc := ScopeTable.findScope (scopeChunks_ W) n in
  let k := Claims.Key (Runtime.materializationDescId x d) sc in
  let '(o, W') := arrow b W in
  running W' ∧
  match objects_ W !! sc with
  | None => o = Ok nullptr ∧ W' = W ∧ context b W = Some None
  | Some s =>
      Runtime.scopeNameId_ (info s) = n ∧ context b W = Some (Some sc) ∧
      if decide (Runtime.scopeState_ (info s) = Runtime.Stopped) then o = Ok nullptr ∧ W' = W
      else
        match o with
        | Ok p => p = adjusted x (instance W' k) ∧ instance W' k ≠ nullptr ∧
            (instance W k ≠ nullptr → W' = W) ∧
            (instance W k = nullptr → ∀ c, kept (env_of H W) k c →
               life k (Runtime.trace (rt W')) = life k (Runtime.trace (rt W)) ++ full_life c (instance W' k)) ∧
            arrow b W' = (Ok p, W')
        | Throw _ => instance W k = nullptr
        | _ => False
        end
  end.
Proof.
  intros HW Hf Hb Hx Hl sc k.
  assert (∀ W, arrow b W = proxyResolve_ H fuel n d W) as Har by (intros W0; unfold Access.arrow; by rewrite Hb).
  rewrite Har. destruct (proxy_context b n d Hb) as (Hctx & _).
  destruct (decide (sc = nullptr)) as [Hz|Hz].
  { rewrite Hz, (rn_null _ HW), Hctx. fold sc. rewrite Hz.
    unfold proxyResolve_, mbind_ at 1, mget. fold sc. by rewrite Hz. }
  destruct (target_scope W n HW Hz) as (s & Hs & Hname). fold sc in Hs. rewrite Hs, Hctx. fold sc.
  rewrite (proj2 (N.eqb_neq _ _) Hz).
  destruct (decide (Runtime.scopeState_ (info s) = Runtime.Stopped)) as [Hst|Hst].
  { unfold proxyResolve_, mbind_ at 1, mget. fold sc. rewrite (proj2 (N.eqb_neq _ _) Hz).
    unfold mbind_ at 1, object. by rewrite Hs, decide_True. }
  destruct (decide (instance W k = nullptr)) as [Hi|Hi].
  - pose proof (proxy_built HG W n d x s HW Hx Hl Hz Hs Hst Hf Hi) as Hrun. unfold ends in Hrun.
    destruct (proxyResolve_ H fuel n d W) as [[p|e| | |] W']; try done.
    + destruct (reached_running _ _ _ _ _ HW Hrun) as (HW' & Hn' & Hp).
      destruct Hrun as (R & -> & HR & [_ Hlife] & _). split_and!; try done.
      rewrite Har, Hp. by apply (proxy_found fuel HG (set_rt R W) n d x s).
    + split; [by eapply advanced_running|]. done.
  - rewrite (proxy_found fuel HG W n d x s HW Hx Hl Hz Hs Hst Hi). split_and!; try done.
    rewrite Har. by apply (proxy_found fuel HG W n d x s).
Qed.

(** Where a bean of descriptor [d] lives for a request from [ctx]. *)
Definition home (x : Descriptor) (ctx : option ptr) : ptr :=
  match lifetime x with Session => default nullptr ctx | _ => nullptr end.

(** The pointer a handle to descriptor [d] gives: a singleton's handle was adjusted when it
    was made, if [d] is an alias; the other forms adjust on every access. *)
Definition view (x : Descriptor) (d : DescriptorId) (p : ptr) : ptr :=
  match lifetime x with
  | Singleton =>
      if Runtime.is_primary_elsewhere x d then adjusted x p else p
  | _ => adjusted x p
  end.

Lemma proxy_arrow n d r : n < kThreadLocalSentinel →
  let b := Handle.makeProxy n d r in
  Handle.arrow b = Handle.ViaProxy n d ∧ ∀ W, arrow b W = proxyResolve_ H fuel n d W.
Proof.
  intros Hn b. assert (n < two32). { unfold kThreadLocalSentinel, kInvalidNameId, two32 in *. lia. }
  assert (Handle.arrow b = Handle.ViaProxy n d) as Ha.
  { unfold b, Handle.arrow, Handle.makeProxy, Handle.scopeNameId, Handle.descId. cbn.
    rewrite Treiber.low_pack, Handle.high_pack by done. by rewrite (proj2 (N.eqb_neq _ _)) by lia. }
  split; [done|]. intros W. unfold Access.arrow. by rewrite Ha.
Qed.

Lemma local_arrow d r :
  Handle.arrow (Handle.makeThreadLocal d r) = Handle.ViaThreadLocal d.
Proof.
  unfold Handle.arrow, Handle.makeThreadLocal, Handle.scopeNameId, Handle.descId. cbn [Handle.bits_ Handle.object_ Handle.registry_].
  by rewrite Treiber.low_pack, Handle.high_pack by done.
Qed.

Lemma direct_arrow p d r : p ≠ nullptr →
  (∀ W, arrow (Handle.makeDirect p kInvalidSlotId d r) W = (Ok p, W)) ∧
  ∀ W, context (Handle.makeDirect p kInvalidSlotId d r) W = Some None.
Proof.
  intros Hp. apply N.eqb_neq in Hp. unfold Access.arrow, Handle.arrow, context, Handle.registry, Handle.tracked.
  cbn [Handle.bits_ Handle.object_ Handle.registry_ Handle.makeDirect]. rewrite Hp. cbn [negb].
  split; [done|]. intros W. by rewrite Treiber.low_pack.
Qed.

Lemma served_descId (W W' : t) ctx d x R b : running W → running W' →
  served (env_of H W) d x ctx R (rt W') b → Handle.descId b = d.
Proof.
  intros HW HW' Hs. unfold served in Hs. destruct (lifetime x).
  - destruct Hs as (q & s & -> & Hs). pose proof (held_small (env_of H W') s _ (rn_inv _ HW') (proj1 Hs)).
    apply Handle.high_pack. unfold Handle.kMaterializedThreadLocalSlot, kInvalidSlotId, two32 in *. lia.
  - destruct Hs as [_ ->]. by apply Handle.high_pack.
  - destruct Hs as (sc & info & _ & Hi & _ & _ & ->). apply Handle.high_pack.
    by eapply (eo_scopeName _ (running_env HG _ HW)).
  - destruct Hs as [_ ->]. by apply Handle.high_pack.
Qed.

(** C14 What a request returns can be dereferenced: the handle of a singleton, session or
    thread-local bean, once returned, gives at once the (exposed) object of the instance
    that the request found or built, never null, without building anything, names the
    descriptor it was selected from, and the context it belongs to; for a session bean, when the scope is the one registered under
    its name. *)
Theorem request_access (W : t) (ctx : option ptr) (g : TypeInfo) (key : option string) :
  running W → fuelled 0 W → Contexts.live ctx W →
  (∀ f p, p ≠ nullptr → call_adjust H f p ≠ nullptr) →
  (∀ sc o, ctx = Some sc → objects_ W !! sc = Some o →
     ScopeTable.findScope (scopeChunks_ W) (Runtime.scopeNameId_ (info o)) = sc) →
  match request H fuel ctx g key W with
  | (Ok b, W') => ∃ d x c, DescriptorTable.at_ (descs W) d = Some x ∧
      DescriptorTable.coldAt (descs W) d = Some c ∧ exposedType c = typeIdFor g W ∧
      Handle.descId b = d ∧
      let k := Claims.Key (Runtime.materializationDescId x d) (home x ctx) in
      lifetime x = Prototype ∨
      ∃ W'', arrow b W' = (Ok (view x d (instance W' k)), W'') ∧ instance W' k ≠ nullptr ∧
        running W'' ∧ Runtime.trace (rt W'') = Runtime.trace (rt W') ∧
        context b W' = Some (if decide (lifetime x = Session) then ctx else None)
  | (Throw _, _) => True
  | _ => False
  end.
Proof.
  intros HW HF Hl Hadj Hreg. pose proof (request_typed H fuel known HG W ctx g key HW HF Hl) as Hr.
  destruct (request H fuel ctx g key W) as [[b|e| | |] W']; try done.
  destruct Hr as (HW' & (R & ->) & d & x & c & Hx & Hc & Hty & _ & _ & Hserved).
  exists d, x, c. split_and!; [done..|by eapply served_descId|]. unfold home, view. unfold served in Hserved. cbv zeta.
  destruct (lifetime x) eqn:Hlt; [by left|right..].
  - destruct Hserved as [[Hi _] ->]. exists (set_rt R W).
    set (i := instance_of _ (rt (set_rt R W)) _) in *.
    assert ((if Runtime.is_primary_elsewhere x d then adjusted x i else i) ≠ nullptr) as Hq.
    { destruct (Runtime.is_primary_elsewhere x d); [|exact Hi]. unfold Access.adjusted, Cast.adjust.
      destruct (adjustToExposed x); [by apply Hadj|exact Hi]. }
    destruct (direct_arrow _ d (registryId H) Hq) as [Ha Hctx].
    rewrite decide_False by done.
    split; [exact (Ha (set_rt R W))|split_and!; [exact Hi|exact HW'|done|exact (Hctx (set_rt R W))]].
  - destruct Hserved as (sc & i & -> & Hi & Hst & [Hb _] & ->). cbn [default].
    simpl in Hi. rewrite lookup_fmap in Hi. destruct (objects_ W !! sc) as [o|] eqn:Ho; [|done].
    injection Hi as <-. pose proof (Hreg sc o eq_refl Ho) as Hsc.
    assert (sc ≠ nullptr) as Hn. { intros ->. pose proof (rn_null _ HW). congruence. }
    assert (Runtime.scopeNameId_ (info o) < kThreadLocalSentinel) as Hname.
    { destruct (decide (ScopeTable.room (Runtime.scopeNameId_ (info o)))) as [Hr|Hr].
      - unfold ScopeTable.room, ScopeTable.kScopeChunkSize, ScopeTable.kScopeTopCapacity in Hr.
        unfold kThreadLocalSentinel, kInvalidNameId. lia.
      - exfalso. apply Hn. rewrite <-Hsc. unfold ScopeTable.findScope.
        by rewrite ScopeTable.room_spec, bool_decide_false. }
    destruct (proxy_arrow _ d (registryId H) Hname) as [Ha Hrun].
    destruct (proxy_context _ _ _ Ha) as [Hctx _].
    exists (set_rt R W). split; [|split_and!; [exact Hb|exact HW'|done|]].
    + refine (eq_trans (Hrun (set_rt R W)) _).
      pose proof (proxy_found fuel HG (set_rt R W) (Runtime.scopeNameId_ (info o)) d x o HW' Hx Hlt) as Hf.
      change (scopeChunks_ (set_rt R W)) with (scopeChunks_ W) in Hf. rewrite Hsc in Hf.
      by apply Hf.
    + rewrite decide_True by done. rewrite Hctx. change (scopeChunks_ (set_rt R W)) with (scopeChunks_ W).
      rewrite Hsc. by rewrite (proj2 (N.eqb_neq _ _) Hn).
  - destruct Hserved as [[Hb _] ->].
    destruct (local_found fuel HG (set_rt R W) d x HW' Hx Hlt Hb) as (T & Hrun & HT).
    eexists. split; [|split_and!; [exact Hb|exact HT|done|]].
    + unfold Access.arrow. rewrite local_arrow. exact Hrun.
    + rewrite decide_False by done. unfold context, Handle.registry, Handle.tracked, Handle.scopeNameId.
      cbn [Handle.makeThreadLocal Handle.bits_ Handle.object_ Handle.registry_].
      by rewrite Treiber.low_pack.
Qed.

End access.

(** ** Witnesses *)

(** [SampleWorld.app] with a started scope: object 700, name 1, no instance in it. *)
Definition desk : t :=
  (execs SampleWorld.host 200 [ResolveScope "desk" 700; ScopeStart 700] SampleWorld.app).2.

Lemma desk_running : running SampleWorld.host ∅ desk.
Proof.
  apply (execs_run SampleWorld.host 200 ∅ Starting.sample_host); [exact Starting.app_running|].
  cbn [permitted allowed]. repeat split; first [by vm_compute; eexists | by vm_compute | by vm_compute; lia].
Qed.

(** The proxy of the session bean, descriptor 1: the first access builds it, the second
    finds it. *)
Lemma proxy_live_witness :
  let '(o, W') := Access.arrow SampleWorld.host 200 (Handle.makeProxy 1 1 1) desk in
  ∃ p, o = Ok p ∧ p ≠ nullptr ∧ Access.arrow SampleWorld.host 200 (Handle.makeProxy 1 1 1) W' = (Ok p, W').
Proof.
  assert (fuelled 200 0 desk) as HF by (vm_compute; lia).
  assert (∃ x, DescriptorTable.at_ (descs desk) 1 = Some x ∧ lifetime x = Session) as (x & Hx & Hl)
    by (vm_compute; eexists; split; reflexivity).
  pose proof (proxy_live SampleWorld.host 200 ∅ Starting.sample_host desk (Handle.makeProxy 1 1 1) 1 1 x
    desk_running HF eq_refl Hx Hl) as Hs.
  cbv zeta in Hs.
  assert (ScopeTable.findScope (scopeChunks_ desk) 1 = 700) as Hsc by (vm_compute; reflexivity).
  assert (∃ s, objects_ desk !! 700 = Some s ∧ Runtime.scopeState_ (info s) = Runtime.Running_) as (s & Hos & Hst)
    by (vm_compute; eexists; split; reflexivity).
  rewrite Hsc, Hos in Hs.
  assert ((Access.arrow SampleWorld.host 200 (Handle.makeProxy 1 1 1) desk).1 = Ok 4096) as Ho
    by (vm_compute; reflexivity).
  destruct (Access.arrow SampleWorld.host 200 (Handle.makeProxy 1 1 1) desk) as [o W']. cbn [fst] in Ho.
  rewrite Ho in Hs |- *. destruct Hs as (_ & _ & _ & Hs).
  rewrite decide_False in Hs by (rewrite Hst; done). exists 4096. destruct Hs as (_ & _ & _ & _ & Hs).
  split; [reflexivity|split; [|exact Hs]]. discriminate.
Defined.

(** The request builds the bean; the proxy it returns leads to it. *)
Lemma request_access_witness :
  match request SampleWorld.host 200 (Some 700) 43 None desk with
  | (Ok b, W') => b = Handle.makeProxy 1 1 1 ∧
      ∃ p, (Access.arrow SampleWorld.host 200 b W').1 = Ok p ∧
        Access.context b W' = Some (Some 700)
  | _ => False
  end.
Proof.
  assert (fuelled 200 0 desk) as HF by (vm_compute; lia).
  assert (Contexts.live (Some 700) desk) as Hlive by (vm_compute; eexists; split; reflexivity).
  assert (∀ f p, p ≠ nullptr → call_adjust SampleWorld.host f p ≠ nullptr) as Hadj.
  { intros f p _. change (p + 16 ≠ 0). lia. }
  assert (∀ o, objects_ desk !! 700 = Some o →
    ScopeTable.findScope (scopeChunks_ desk) (Runtime.scopeNameId_ (info o)) = 700) as Hreg.
  { intros o Ho. assert (fmap (λ o, ScopeTable.findScope (scopeChunks_ desk) (Runtime.scopeNameId_ (info o)))
      (objects_ desk !! 700) = Some 700) as Hm by (vm_compute; reflexivity).
    rewrite Ho in Hm. by injection Hm. }
  assert (∀ sc o, Some 700 = Some sc → objects_ desk !! sc = Some o →
    ScopeTable.findScope (scopeChunks_ desk) (Runtime.scopeNameId_ (info o)) = sc) as Hreg'.
  { intros sc o [= <-]. apply Hreg. }
  pose proof (request_access SampleWorld.host 200 ∅ Starting.sample_host desk (Some 700) 43 None
    desk_running HF Hlive Hadj Hreg') as Hs.
  assert ((request SampleWorld.host 200 (Some 700) 43 None desk).1 = Ok (Handle.makeProxy 1 1 1)) as Ho
    by (vm_compute; reflexivity).
  destruct (request SampleWorld.host 200 (Some 700) 43 None desk) as [o W']. cbn [fst] in Ho.
  rewrite Ho in Hs |- *. split; [reflexivity|].
  destruct Hs as (d & x & c & Hx & _ & _ & Hd & Hs).
  assert (d = 1) as -> by (rewrite <-Hd; vm_compute; reflexivity).
  assert (fmap lifetime (DescriptorTable.at_ (descs desk) 1) = Some Session) as Hl by (vm_compute; reflexivity).
  rewrite Hx in Hl. injection Hl as Hl. rewrite Hl in Hs.
  destruct Hs as [Hp|(W'' & Ha & _ & _ & _ & Hc)]; [discriminate Hp|].
  rewrite decide_True in Hc by reflexivity. rewrite Ha. eexists. split; [reflexivity|exact Hc].
Defined.

End Dereferenced.
