(* ===== verification/Cycles.v ===== *)
(** The cycles of a scope: what stopping and restarting it does to its beans.

    [Module Cycles]: the sweep of [stop()] ends each life of the scope, in reverse
    construction order ([scope_stop_ends]), and after a [restart()] a proxy leads to a new
    bean ([restart_renews]). *)
From S2P Require Import Prelude Tables Interning Index Stores Startup Freelist Prototypes Listeners Claims Handles Casts Caches Runtime RuntimeFacts Resolution Ready World SampleWorld Contexts Living Service Access Sweep Starting Serving SampleProgram Dereferenced.

Local Open Scope N_scope.

Module Cycles.
Import World RuntimeFacts Living Service Access Sweep ScopeStop Serving.
Local Open Scope ctr_scope.
#[local] Existing Instance Runtime.ScopeState_eq_dec.

Section cycles.
Context `{SS : StdSort} (H : host) (fuel : nat) (known : gset ptr) (HG : host_good H known).

Abbreviation running := (running H known).
Abbreviation fuelled := (fuelled fuel).
Abbreviation room := (room fuel).
Abbreviation instance W := (instance_of (env_of H W) (rt W)).
Abbreviation trace W := (Runtime.trace (rt W)).
Abbreviation arrow := (Access.arrow H fuel).
Abbreviation adjusted := (Access.adjusted H).

(** The state and the store of the scope at [sc]. *)
Definition state_of (W : t) (sc : ptr) : option Runtime.ScopeState :=
  Runtime.scopeState_ ∘ info <$> objects_ W !! sc.

Definition order_of (W : t) (sc : ptr) : list DescriptorId :=
  from_option SessionStore.insertionOrder [] (Runtime.sessions (rt W) !! sc).

(** No bean of the scope is left; each container-built one that existed in [W] has had its
    destruction, [rites], bean by bean in the given order, and nothing else happened to
    the scope's beans; elsewhere it is as if requests had been made. *)
Record ended (sc : ptr) (defer : bool) (order : list DescriptorId) (W W' : t) : Prop := {
  en_none k : Claims.key_scope k = sc → instance W' k = nullptr;
  en_death k c : kept (env_of H W) k c → Claims.key_scope k = sc →
    if decide (instance W k = nullptr) then life k (trace W') = life k (trace W)
    else life k (trace W') =
      life k (trace W) ++ ((λ s, (s, instance W k)) <$> rites (env_of H W) defer c);
  en_other k c : kept (env_of H W) k c → Claims.key_scope k ≠ sc →
    once (env_of H W) k c (rt W) (rt W');
  en_order : ∃ parts, trace W' = trace W ++ concat parts ∧
    Forall2 (λ d part, ∀ k c, kept (env_of H W) k c → Claims.key_scope k = sc →
      Claims.key_descId k ≠ d → life k part = []) order parts
}.

(** The memory of the scope's beans after a restart's stop: nothing was freed, and the
    store has a block for each container-built bean there was. *)
Definition retired (sc : ptr) (defer : bool) (W W' : t) : Prop := defer = true →
  ∃ st st', Runtime.sessions (rt W) !! sc = Some st ∧ Runtime.sessions (rt W') !! sc = Some st' ∧
    SessionStore.freed st' = SessionStore.freed st ∧
    ∀ k c, kept (env_of H W) k c → Claims.key_scope k = sc → instance W k ≠ nullptr →
      block_of (Claims.key_descId k) c (instance W k) ∈ SessionStore.retiredBlocks_ st'.

(** The sweep reaches every container-built bean of the scope. *)
Lemma kept_in_order W sc st k c : sc ≠ nullptr → session_ok (env_of H W) st →
  Runtime.sessions (rt W) !! sc = Some st → kept (env_of H W) k c → Claims.key_scope k = sc →
  instance W k ≠ nullptr → Claims.key_descId k ∈ reverse (SessionStore.insertionOrder st).
Proof.
  intros Hnull Hok Hst Hk Hsc Hi. apply elem_of_reverse. destruct k as [d sc']. simpl in Hsc. subst sc'.
  destruct Hk as (x & Hx & Hc & Hl & Hor). simpl in *.
  destruct (decide (lifetime x = Session)) as [Hse|Hse].
  - apply (so_order _ _ Hok d x c); [done..|].
    by rewrite <-(session_at (env_of H W) sc (rt W) st d x).
  - destruct Hi. unfold instance_of. simpl. rewrite Hx, (proj2 (N.eqb_neq _ _) Hnull).
    by destruct (lifetime x).
Qed.

Lemma stopScope_ended W sc o defer : running W → fuelled 0 W → objects_ W !! sc = Some o →
  Runtime.scopeState_ (info o) = Runtime.Running_ → calm_env (env_of H W) →
  ends never (stopScope H fuel sc defer) W (λ _ W', running W' ∧ ended sc defer (reverse (order_of W sc)) W W' ∧
      retired sc defer W W' ∧ ∃ R, W' = set_objects (alter (λ o, with_info (with_state Runtime.Stopped (info o)) o) sc (objects_ W))
                  (set_rt R W)) (λ _ _, False).
Proof.
  intros HW HF Ho Hs HC. destruct (scope_running W sc o HW Ho) as (st & Hst & Hok); [by rewrite Hs|].
  assert (sc ≠ nullptr) as Hnull by (intros ->; pose proof (rn_null _ HW); congruence).
  eapply ends_mono; [by apply (stopScope_runs HG W sc o st defer)| |done].
  intros ? ? (HW' & R1 & HS & ->). split; [exact HW'|]. split; [|split; [|by eexists]].
  2: { intros ->. destruct (sw_store _ _ _ _ _ _ HS st Hst) as (st1 & Hst1 & Hf & _ & Hb).
       exists st, (SessionStore.releaseAll false st1). split; [done|]. split; [|split; [exact Hf|]].
       - simpl. by rewrite lookup_alter, decide_True, Hst1.
       - intros [d sc'] c Hk Hsc Hi. simpl in Hsc. subst sc'.
         apply (Hb d); [done|by apply (kept_in_order W sc st (Claims.Key d sc) c)|exact Hi|].
         by destruct Hk as (? & _ & ? & _). }
  unfold order_of. rewrite Hst. cbn [from_option].
  destruct (sw_told _ _ _ _ _ _ HS) as (parts & Ht & Hparts & Hob).
  destruct (b_order _ _ _ _ (sw_beyond _ _ _ _ _ _ HS) st Hst) as (st1 & Hst1 & _).
  split.
  - intros [d sc'] Hsc. simpl in Hsc. subst sc'. unfold instance_of. simpl.
    destruct (DescriptorTable.at_ (descs W) d) as [x|]; [|done].
    rewrite lookup_alter, decide_True, Hst1 by done. rewrite (proj2 (N.eqb_neq _ _) Hnull).
    by destruct (lifetime x).
  - intros k c Hk Hsc. change (trace (set_objects _ _)) with (Runtime.trace R1). rewrite Ht, life_app.
    specialize (Hob k c Hk Hsc). unfold obituary in Hob.
    change (instance_of (sweeping sc (env_of H W)) (rt W) k) with (instance W k) in Hob.
    destruct (decide (instance W k = nullptr)) as [Hi|Hi].
    + assert (life k (concat parts) = []) as -> by (by case_decide). by rewrite app_nil_r.
    + rewrite decide_True in Hob by by apply (kept_in_order W sc st k c). by rewrite Hob.
  - intros k c Hk Hsc. pose proof (b_once _ _ _ _ (sw_beyond _ _ _ _ _ _ HS) k c Hk Hsc) as Hon.
    change (once (env_of H W) k c (rt W) R1) in Hon. revert Hon. unfold once, grown.
    change (trace (set_objects _ _)) with (Runtime.trace R1).
    assert (∀ m, (∀ sc', sc' ≠ sc → m !! sc' = Runtime.sessions R1 !! sc') →
      instance_of (env_of H W) (Runtime.set_sessions m R1) k = instance_of (env_of H W) R1 k) as Hm.
    { intros m Hm. unfold instance_of. simpl. by rewrite Hm. }
    simpl. rewrite Hm; [done|]. intros sc' Hne. by rewrite lookup_alter, decide_False.
  - by exists parts.
Qed.

(** C8 What [ScopedContext::stop] does to the beans of a running scope, in a context with a
    configured limit of prototype slots: whatever the hooks and the listeners resolve
    meanwhile, as long as no exception escapes from the destruction hooks and the listeners
    of the destruction phases, it returns and the context stays ready; the scope is stopped
    and has no bean left; every bean the container had built in it has, since then, exactly
    one complete destruction in its life, on the object it had (each of the two listener
    phases just if it has listeners, the hook if there is one, the destructor, and the
    deallocation unless the descriptor has no size and no deallocation function), one bean
    after the other in the reverse order of their construction; and nothing happened to the
    beans of other scopes and of the root but that some were built. *)
Theorem scope_stop_ends (W : t) (sc : ptr) (o : ScopeObject) :
  running W → fuelled 0 W → objects_ W !! sc = Some o →
  Runtime.scopeState_ (info o) = Runtime.Running_ → calm_env (env_of H W) →
  let '(r, W') := scope_stop H fuel sc W in
  r = Ok tt ∧ running W' ∧ state_of W' sc = Some Runtime.Stopped ∧
  ended sc false (reverse (order_of W sc)) W W'.
Proof.
  intros HW HF Ho Hs HC. pose proof (stopScope_ended W sc o false HW HF Ho Hs HC) as Hrun.
  assert (scope_stop H fuel sc W = stopScope H fuel sc false W) as Heq.
  { unfold scope_stop, mbind_ at 1, object. rewrite Ho. by rewrite decide_False by (rewrite Hs; tauto). }
  rewrite Heq. unfold ends in Hrun. destruct (stopScope H fuel sc false W) as [[[]|e| | |] W']; try done.
  destruct Hrun as (HW' & He & _ & R & ->). split_and!; [done|done| |done].
  unfold state_of. simpl. by rewrite lookup_alter, decide_True, Ho.
Qed.

(** ** Restart *)

Abbreviation restarted sc W := (set_objects
  (alter (λ o, with_info (with_state Runtime.Running_ (info o)) o) sc
     (alter (with_pending []) sc (objects_ W))) W) (only parsing).

(** [start()] of a stopped scope for which no object waits. *)
Lemma scope_start_plain W sc o st : Startup.started_ (reg W) = true → objects_ W !! sc = Some o →
  Runtime.scopeState_ (info o) = Runtime.Stopped → pendingRuntimeSessions_ o = [] →
  Runtime.sessions (rt W) !! sc = Some st →
  scope_start H fuel sc W = (Ok tt, restarted sc (with_session sc (SessionStore.resize (slots W) st) W)).
Proof.
  intros Hst Ho Hs Hp Hss. unfold scope_start, mbind_ at 1, mget. rewrite Hst. cbn [negb].
  unfold mbind_ at 1, object. rewrite Ho, Hs. unfold mbind_ at 1, upd_session. rewrite Hss, Hp. done.
Qed.

Lemma restart_runs W sc o : running W → room W → objects_ W !! sc = Some o →
  Runtime.scopeState_ (info o) = Runtime.Running_ → pendingRuntimeSessions_ o = [] →
  calm_env (env_of H W) →
  ∃ W0 W1, scope_restart H fuel sc W = (Ok tt, W1) ∧ running W1 ∧ room W1 ∧
    ended sc true (reverse (order_of W sc)) W W0 ∧ retired sc true W W1 ∧ trace W1 = trace W0 ∧
    descs W1 = descs W ∧ scopeChunks_ W1 = scopeChunks_ W ∧
    (∃ o1, objects_ W1 !! sc = Some o1 ∧ Runtime.scopeState_ (info o1) = Runtime.Running_) ∧
    ∀ k, Claims.key_scope k = sc → instance W1 k = nullptr.
Proof.
  intros HW HR Ho Hs Hp HC.
  assert (sc ≠ nullptr) as Hnull by (intros ->; pose proof (rn_null _ HW); congruence).
  pose proof (stopScope_ended W sc o true HW (room_fuelled _ _ HR) Ho Hs HC) as Hstop.
  assert (scope_restart H fuel sc W =
    (do! stopScope H fuel sc true in scope_start H fuel sc) W) as Heq.
  { unfold scope_restart, mbind_ at 1, object. rewrite Ho. by rewrite decide_True. }
  rewrite Heq. unfold ends in Hstop. unfold mbind_ at 1.
  destruct (stopScope H fuel sc true W) as [[[]|e| | |] W0]; try done.
  destruct Hstop as (HW0 & He & Hret & R & HW0eq).
  assert (objects_ W0 !! sc = Some (with_info (with_state Runtime.Stopped (info o)) o)) as Ho0.
  { subst W0. simpl. by rewrite lookup_alter, decide_True, Ho. }
  assert (room W0) as HR0.
  { subst W0. apply (room_kept fuel W); [done..|]. simpl. apply dom_alter_L. }
  destruct (rn_scopes _ HW0 sc _ Ho0) as [(st & Hst & _) _ _ _].
  pose proof (scope_start_plain W0 sc _ st (rn_started _ HW0) Ho0 eq_refl Hp Hst) as Hstart.
  pose proof (scope_start_runs H fuel known HG W0 sc HW0 HR0 ltac:(by eexists)) as Hrun.
  unfold ends in Hrun. rewrite Hstart in Hrun. eexists W0, _. split; [exact Hstart|].
  split; [exact Hrun|]. split; [apply (room_kept fuel W0); [done..|simpl; by rewrite !dom_alter_L]|].
  split_and!; [exact He| |done|by subst W0|by subst W0| |].
  - intros _. destruct (Hret eq_refl) as (st0 & st1 & Hst0 & Hst1 & Hf & Hb).
    rewrite Hst in Hst1. injection Hst1 as <-. exists st0, (SessionStore.resize (slots W0) st).
    split_and!; [done|simpl; by rewrite lookup_insert_eq|exact Hf|exact Hb].
  - simpl. rewrite !lookup_alter, !decide_True, Ho0 by done. by eexists.
  - intros [d sc'] Hsc. simpl in Hsc. subst sc'. unfold instance_of. simpl.
    destruct (DescriptorTable.at_ _ d) as [x|]; [|done].
    rewrite lookup_insert_eq, (proj2 (N.eqb_neq _ _) Hnull).
    destruct (lifetime x); try done.
    apply (InstanceArray.resize_spec (slots W0) (SessionStore.instances_ st)).
Qed.

(** C12 A restart gives every proxy a new bean. When a running scope with no object waiting
    for a start is restarted, in a context with a configured limit of prototype slots and
    with user code as in [scope_stop_ends], the call returns and the scope runs again
    without any bean; a bean that the container had built in it has had its destruction, in
    lifecycle order up to the destructor, while its memory is not freed but among the
    retired blocks of the scope's store; and a proxy made at any time for the scope's name
    and this bean's descriptor (or an alias of it), dereferenced after that, gives the
    exposed object of a bean of its own, whose life is one more complete construction, or
    throws what the construction throws. *)
Theorem restart_renews (W : t) (sc : ptr) (o : ScopeObject) (b : Handle.Bean) (n : NameId)
    (d : DescriptorId) (x : Descriptor) (c : DescriptorCold) :
  running W → room W → objects_ W !! sc = Some o →
  Runtime.scopeState_ (info o) = Runtime.Running_ → pendingRuntimeSessions_ o = [] →
  calm_env (env_of H W) →
  ScopeTable.findScope (scopeChunks_ W) n = sc → Handle.arrow b = Handle.ViaProxy n d →
  DescriptorTable.at_ (descs W) d = Some x → lifetime x = Session →
  let k := Claims.Key (Runtime.materializationDescId x d) sc in
  kept (env_of H W) k c → instance W k ≠ nullptr →
  let '(r, W1) := scope_restart H fuel sc W in
  let '(q, W2) := arrow b W1 in
  r = Ok tt ∧ running W1 ∧ state_of W1 sc = Some Runtime.Running_ ∧ instance W1 k = nullptr ∧
  life k (trace W1) = life k (trace W) ++ ((λ s, (s, instance W k)) <$> farewell (env_of H W) c) ∧
  (∃ st st1, Runtime.sessions (rt W) !! sc = Some st ∧ Runtime.sessions (rt W1) !! sc = Some st1 ∧
     SessionStore.freed st1 = SessionStore.freed st ∧
     block_of (Claims.key_descId k) c (instance W k) ∈ SessionStore.retiredBlocks_ st1) ∧
  match q with
  | Ok p => running W2 ∧ instance W2 k ≠ nullptr ∧ p = adjusted x (instance W2 k) ∧
      life k (trace W2) = life k (trace W1) ++ full_life c (instance W2 k)
  | Throw _ => running W2
  | _ => False
  end.
Proof.
  intros HW HR Ho Hs Hp HC Hn Hb Hx Hl k Hk Hi.
  destruct (restart_runs W sc o HW HR Ho Hs Hp HC) as
    (W0 & W1 & -> & HW1 & HR1 & He & Hret & Ht & HD & Hch & (o1 & Ho1 & Hs1) & Hnone).
  assert (sc ≠ nullptr) as Hnull by (intros ->; pose proof (rn_null _ HW); congruence).
  assert (arrow b W1 = proxyResolve_ H fuel n d W1) as Har by (unfold Access.arrow; by rewrite Hb).
  assert (ScopeTable.findScope (scopeChunks_ W1) n = sc) as Hn1 by by rewrite Hch.
  assert (DescriptorTable.at_ (descs W1) d = Some x) as Hx1 by by rewrite HD.
  pose proof (proxy_built (fuel := fuel) HG W1 n d x o1 HW1 Hx1 Hl) as Hrun. rewrite Hn1 in Hrun.
  specialize (Hrun Hnull Ho1 ltac:(by rewrite Hs1) (room_fuelled _ _ HR1) (Hnone k eq_refl)).
  rewrite Har. unfold ends in Hrun.
  destruct (proxyResolve_ H fuel n d W1) as [q W2] eqn:Hq.
  split_and!; [done|done|unfold state_of; rewrite Ho1; simpl; by rewrite Hs1|by apply Hnone| | |].
  { pose proof (en_death _ _ _ _ _ He k c Hk eq_refl) as Hd. rewrite decide_False in Hd by done.
    rewrite Ht. exact Hd. }
  { destruct (Hret eq_refl) as (st & st1 & H1 & H2 & H3 & H4). exists st, st1.
    split_and!; [done..|by apply H4]. }
  destruct q as [p|e| | |]; try done; [|by eapply advanced_running].
  destruct (reached_running _ _ _ _ _ HW1 Hrun) as (HW2 & Hi2 & Hpp).
  destruct Hrun as (R & HW2eq & _ & [_ Hlife] & _). split_and!; [done..|].
  subst W2. apply Hlife; [by apply Hnone|]. unfold kept in *. simpl in *. by rewrite HD.
Qed.

End cycles.

(** ** Witnesses *)

(** [Dereferenced.desk] with the session bean of scope 700 built: object 4096. *)
Definition busy : t :=
  (execs SampleWorld.host 200 [ResolveScope "desk" 700; ScopeStart 700; Resolve (Some 700) 43] SampleWorld.app).2.

Lemma busy_running : running SampleWorld.host ∅ busy.
Proof.
  apply (execs_run SampleWorld.host 200 ∅ Starting.sample_host); [exact Starting.app_running|].
  cbn [permitted allowed Contexts.live].
  repeat split; first [by vm_compute; eexists | by vm_compute | by vm_compute; lia].
Qed.

Lemma busy_scope : ∃ o, objects_ busy !! 700 = Some o ∧
  Runtime.scopeState_ (info o) = Runtime.Running_ ∧ pendingRuntimeSessions_ o = [].
Proof. vm_compute. eexists. split_and!; reflexivity. Qed.

Lemma busy_kept : ∃ x c, DescriptorTable.at_ (descs busy) 1 = Some x ∧ lifetime x = Session ∧
  Runtime.materializationDescId x 1 = 1 ∧ kept (env_of SampleWorld.host busy) (Claims.Key 1 700) c ∧
  instance_of (env_of SampleWorld.host busy) (rt busy) (Claims.Key 1 700) = 4096.
Proof.
  assert (∃ x c, DescriptorTable.at_ (descs busy) 1 = Some x ∧ DescriptorTable.coldAt (descs busy) 1 = Some c ∧
    lifetime x = Session ∧ origin c ≠ RuntimeBinding ∧ Runtime.materializationDescId x 1 = 1)
    as (x & c & Hx & Hc & Hl & Ho & Hm).
  { vm_compute. do 2 eexists. split_and!; try reflexivity. discriminate. }
  exists x, c. split_and!; [exact Hx|exact Hl|exact Hm| |vm_compute; reflexivity].
  exists x. split_and!; [exact Hx|exact Hc|rewrite Hl; discriminate|exact Ho].
Qed.

Lemma busy_rites c (defer : bool) : kept (env_of SampleWorld.host busy) (Claims.Key 1 700) c →
  rites (env_of SampleWorld.host busy) defer c =
    if defer then [Runtime.Destructor] else [Runtime.Destructor; Runtime.Deallocated].
Proof.
  intros (x & _ & Hc & _). simpl in Hc.
  assert (∃ c', DescriptorTable.coldAt (descs busy) 1 = Some c' ∧
    rites (env_of SampleWorld.host busy) true c' = [Runtime.Destructor] ∧
    rites (env_of SampleWorld.host busy) false c' = [Runtime.Destructor; Runtime.Deallocated])
    as (c' & Hc' & H1 & H2) by (vm_compute; eexists; split_and!; reflexivity).
  rewrite Hc in Hc'. injection Hc' as <-. by destruct defer.
Qed.

(** The bean is destroyed: its life ends with the steps of a complete destruction. *)
Lemma scope_stop_ends_witness :
  let '(r, W') := scope_stop SampleWorld.host 200 700 busy in
  r = Ok tt ∧ state_of W' 700 = Some Runtime.Stopped ∧
  life (Claims.Key 1 700) (Runtime.trace (rt W')) =
    life (Claims.Key 1 700) (Runtime.trace (rt busy)) ++ [(Runtime.Destructor, 4096); (Runtime.Deallocated, 4096)].
Proof.
  destruct busy_scope as (o & Ho & Hs & _). destruct busy_kept as (x & c & _ & _ & _ & Hk & Hi).
  assert (fuelled 200 0 busy) as HF by (vm_compute; lia).
  pose proof (scope_stop_ends SampleWorld.host 200 ∅ Starting.sample_host busy 700 o busy_running HF Ho Hs
    (sample_calm busy)) as Hrun.
  destruct (scope_stop SampleWorld.host 200 700 busy) as [r W'].
  destruct Hrun as (Hr & _ & Hst & He). split; [exact Hr|]. split; [exact Hst|].
  pose proof (en_death _ _ _ _ _ _ He (Claims.Key 1 700) c Hk eq_refl) as Hd.
  rewrite Hi, decide_False in Hd by discriminate. rewrite Hd, (busy_rites c false Hk). reflexivity.
Defined.

(** The proxy of the bean leads to another object after the restart. *)
Lemma restart_renews_witness :
  let '(r, W1) := scope_restart SampleWorld.host 200 700 busy in
  let '(q, W2) := Access.arrow SampleWorld.host 200 (Handle.makeProxy 1 1 1) W1 in
  r = Ok tt ∧ state_of W1 700 = Some Runtime.Running_ ∧
  ∃ c p i, q = Ok p ∧ life (Claims.Key 1 700) (Runtime.trace (rt W2)) =
    (life (Claims.Key 1 700) (Runtime.trace (rt busy)) ++ [(Runtime.Destructor, 4096)]) ++ full_life c i.
Proof.
  destruct busy_scope as (o & Ho & Hs & Hp). destruct busy_kept as (x & c & Hx & Hl & Hm & Hk & Hi).
  assert (Service.room 200 busy) as HR by (split; vm_compute; first [reflexivity|lia]).
  assert (ScopeTable.findScope (scopeChunks_ busy) 1 = 700) as Hsc by (vm_compute; reflexivity).
  pose proof (restart_renews SampleWorld.host 200 ∅ Starting.sample_host busy 700 o (Handle.makeProxy 1 1 1) 1 1 x c
    busy_running HR Ho Hs Hp (sample_calm busy) Hsc eq_refl Hx Hl) as Hrun.
  cbv zeta in Hrun. rewrite Hm, Hi in Hrun. specialize (Hrun Hk ltac:(discriminate)).
  assert (∃ v, (let '(r, W1) := scope_restart SampleWorld.host 200 700 busy in
    (Access.arrow SampleWorld.host 200 (Handle.makeProxy 1 1 1) W1).1) = Ok v) as (v & Hv)
    by (vm_compute; eexists; reflexivity).
  destruct (scope_restart SampleWorld.host 200 700 busy) as [r W1].
  destruct (Access.arrow SampleWorld.host 200 (Handle.makeProxy 1 1 1) W1) as [q W2]. cbn [fst] in Hv.
  rewrite Hv in Hrun |- *.
  destruct Hrun as (Hr & _ & Hst & _ & Ht & _ & _ & _ & _ & Hlife).
  split; [exact Hr|]. split; [exact Hst|]. exists c.
  do 2 eexists. split; [reflexivity|]. rewrite Ht in Hlife.
  change (farewell (env_of SampleWorld.host busy) c) with (rites (env_of SampleWorld.host busy) true c) in Hlife.
  rewrite (busy_rites c true Hk) in Hlife. exact Hlife.
Defined.

End Cycles.
