(* ===== verification/Owned.v ===== *)
(** Ownership of prototypes in a started context.

    [Module Owned]: the last handle of a prototype takes the object with it
    ([prototype_released]). *)
From S2P Require Import Prelude Tables Interning Index Stores Startup Freelist Prototypes Listeners Claims Handles Casts Caches Runtime RuntimeFacts Resolution Ready World SampleWorld Contexts Living Service Access Sweep Holding Starting Serving SampleProgram.

Local Open Scope N_scope.

Module Owned.
Import World RuntimeFacts Living Service Sweep Holding Serving.
Local Open Scope ctr_scope.

Section owned.
Context `{SS : StdSort} (H : host) (fuel : nat) (known : gset ptr) (HG : host_good H known).

Abbreviation running := (running H known).
Abbreviation fuelled := (fuelled fuel).
Abbreviation handles W := (PrototypeStore.handles (Runtime.prototypes_ (rt W))).
Abbreviation object_at s W := ((PrototypeStore.takeSlotMetaForDestruction s
  (PrototypeStore.store (Runtime.prototypes_ (rt W)))).1) (only parsing).

(** The frame of a release, bean by bean. *)
Lemma let_go_once s W R k c : running W → let_go (env_of H W) s (rt W) R → kept (env_of H W) k c →
  once (env_of H W) k c (rt W) R.
Proof.
  intros HW [HR HX _] Hk. pose proof (i_protos _ _ (rn_inv _ HW)) as Hp.
  exact (good_once (env_of H W) k c (rt W) (Runtime.set_prototypes (Runtime.prototypes_ (rt W)) R)
    (conj (inv_prototypes _ _ _ HR Hp) HX) Hk).
Qed.

(** C13 A prototype lives as long as its handles: in a started context with a configured
    limit of prototype slots, with destruction hooks and listeners that let no exception
    escape, the destructor of a handle to a prototype returns and leaves the context ready;
    while other handles to the object remain, only the count changes; with the last one the
    slot is given up and the object has its complete destruction, in lifecycle order (the
    listener phases if somebody listens, the hook, the destructor, the deallocation of
    memory that the container owns); either way the references to other prototypes stay, and
    the other beans are as if requests had been made. *)
Theorem prototype_released (W : t) (b : Handle.Bean) (n : N) (mem : ptr) (d : DescriptorId)
    (c : DescriptorCold) :
  running W → fuelled 0 W → calm_env (env_of H W) → Handle.tracked b = true →
  handles W !! Handle.slot b = Some n → object_at (Handle.slot b) W = (mem, d) → mem ≠ nullptr →
  DescriptorTable.coldAt (descs W) d = Some c →
  let '(r, W') := destruct_ H fuel b W in
  r = Ok tt ∧ running W' ∧
  (∀ k c', kept (env_of H W) k c' → once (env_of H W) k c' (rt W) (rt W')) ∧
  (∀ s m, s ≠ Handle.slot b → handles W !! s = Some m → handles W' !! s = Some m) ∧
  if decide (n = 1) then
    handles W' !! Handle.slot b = None ∧
    ∃ es, Runtime.trace (rt W') = Runtime.trace (rt W) ++ es ∧
      ((λ s, Runtime.Life s (Claims.Key d nullptr) mem) <$> death (env_of H W) c) `sublist_of` es
  else handles W' !! Handle.slot b = Some (n - 1) ∧ Runtime.trace (rt W') = Runtime.trace (rt W).
Proof.
  intros HW HF HC Hb Hn Hmeta Hmem Hc.
  pose proof (release_runs HG W (Handle.slot b) n HW HF HC Hn) as Hrun.
  unfold destruct_. rewrite Hb. unfold ends in Hrun.
  destruct (releaseIfPrototype H fuel (Handle.slot b) W) as [[[]|e| | |] W']; try done.
  destruct Hrun as (HW' & R & -> & HL & Hcase). rewrite Hmeta in Hcase.
  split_and!; [done|done|intros k c'; by apply (let_go_once (Handle.slot b))|intros s m; by apply (lg_handles _ _ _ _ HL)|].
  destruct (decide (n = 1)) as [->|Hn1]; [|done].
  destruct Hcase as (Hnone & es & Ht & Hend). split; [done|].
  exists es. split; [done|]. by apply Hend.
Qed.
End owned.

(** ** Witness *)

(** The sample program with one [Pen] in use, behind slot 0. *)
Definition desk : t :=
  (execs SampleWorld.host 200 [Resolve None 1014] SampleProgram.started).2.

Definition pen : Handle.Bean := Handle.makeDirect 4097 0 5 1.

Lemma pen_desk_running : running SampleWorld.host ∅ desk.
Proof.
  apply (execs_run SampleWorld.host 200 ∅ Starting.sample_host); [exact SampleProgram.started_running|].
  cbn [permitted allowed Contexts.live]. repeat split; first [by vm_compute | by vm_compute; lia].
Qed.

Lemma prototype_released_witness :
  let '(r, W') := destruct_ SampleWorld.host 200 pen desk in
  r = Ok tt ∧ PrototypeStore.handles (Runtime.prototypes_ (rt W')) !! 0 = None ∧
  ∃ es, Runtime.trace (rt W') = Runtime.trace (rt desk) ++ es ∧
    ((λ s, Runtime.Life s (Claims.Key 5 nullptr) 4097) <$> [Runtime.Destructor; Runtime.Deallocated]) `sublist_of` es.
Proof.
  assert (fuelled 200 0 desk) as HF by (vm_compute; lia).
  assert (PrototypeStore.handles (Runtime.prototypes_ (rt desk)) !! Handle.slot pen = Some 1) as Hn
    by (vm_compute; reflexivity).
  assert ((PrototypeStore.takeSlotMetaForDestruction (Handle.slot pen)
    (PrototypeStore.store (Runtime.prototypes_ (rt desk)))).1 = (4097, 5)) as Hm by (vm_compute; reflexivity).
  assert (∃ c, DescriptorTable.coldAt (descs desk) 5 = Some c ∧
    death (env_of SampleWorld.host desk) c = [Runtime.Destructor; Runtime.Deallocated]) as (c & Hc & Hdeath)
    by (vm_compute; eexists; split; reflexivity).
  pose proof (prototype_released SampleWorld.host 200 ∅ Starting.sample_host desk pen 1 4097 5 c
    pen_desk_running HF (sample_calm desk) eq_refl Hn Hm ltac:(discriminate) Hc) as Hrun.
  destruct (destruct_ SampleWorld.host 200 pen desk) as [r W'].
  destruct Hrun as (Hr & _ & _ & _ & Hcase). rewrite decide_True in Hcase by reflexivity.
  destruct Hcase as (Hnone & es & Ht & Hs). rewrite Hdeath in Hs.
  split; [exact Hr|]. split; [exact Hnone|]. exists es. split; [exact Ht|exact Hs].
Defined.

End Owned.
