(* ===== verification/Thunks.v ===== *)
(** The bodies of the generated thunks: what runs behind a descriptor's function pointers.

    [Module Thunks] models the function templates of
    [internal/detail/DescriptorThunkGen.hpp] that inject the arguments of a constructor, a
    lifecycle hook or a factory method and call it, on a context ([World]) with the static
    caches of the call sites ([Injection]).  The code they call is the user's: a
    [Runtime.prog] per call, which takes over the handles it gets.  A template is a
    [consteval] computation that gives the run-time function.  [thunk_constructs],
    [hooks_in_order] and [factory_produces] say what a constructor thunk, the hook thunks
    and the thunks of a factory product call, with which arguments, and what they leave. *)
From S2P Require Import Prelude Tables Reflection Identities Discovery Generation Interning Index Stores Startup Freelist Prototypes Listeners Claims Handles Casts Caches Runtime RuntimeFacts Resolution Ready World SampleWorld Contexts Living Service Access Sweep Holding Starting Serving SampleProgram Injection.

Local Open Scope N_scope.

Module Thunks.
Import Meta IdentityGen Discovery.
Local Open Scope ctr_scope.

(** ** User code and state *)

Inductive call : Type :=
| DefaultConstructor (T : info) (mem : ptr)
| Constructor (T ctor : info) (mem : ptr) (args : list Handle.Bean)
| Method (T method : info) (obj : ptr) (args : list Handle.Bean)
| FactoryMethod (T factory method : info) (mem : option ptr) (fp : ptr) (args : list Handle.Bean)
| Destructor (T : info) (mem : ptr).

(** What the calls do, and the order in which the compiler evaluates the [n] arguments of
    a call. *)
Class UserCode : Type := {
  user : option ptr → call → Runtime.prog;
  argument_order : nat → list nat;
  argument_order_all n : argument_order n ≡ₚ seq 0 n
}.

(** The context, the caches of each [injectParam<T, Ctor, ParamIndex>], and the user calls
    made so far. *)
Record t : Type := {
  world : World.t;
  caches : gmap (info * info * nat) (N * N);
  calls : list call
}.

Definition at_site (k : info * info * nat) (S : t) : Injection.t :=
  let '(sc, nm) := default (0, 0) (caches S !! k) in
  {| Injection.world := world S; Injection.scopeCache := sc; Injection.nameCache := nm |}.

Definition on_site {A} (k : info * info * nat) (m : M Injection.t A) : M t A := λ S,
  let '(o, J) := m (at_site k S) in
  (o, {| world := Injection.world J;
         caches := <[k := (Injection.scopeCache J, Injection.nameCache J)]> (caches S);
         calls := calls S |}).

Definition on_world {A} (m : M World.t A) : M t A := λ S,
  let '(o, W) := m (world S) in (o, {| world := W; caches := caches S; calls := calls S |}).

Definition called (c : call) (S : t) : t :=
  {| world := world S; caches := caches S; calls := calls S ++ [c] |}.

Section thunks.
Context `{SS : StdSort} `{TC : Generation.Toolchain} `{UC : UserCode} (H : World.host) (fuel : nat).
Context (P : program) (limit : nat).

(** The parameters of a function the thunks inject: [annotations_of] and the [U] of
    [Bean<U>]. *)
Definition injected_params (f : info) : consteval (list (list annotation * TypeInfo)) :=
  params ← parameters_of P f;
  mapM (λ p, U ← Generation.template_argument P (dealias P (parameter_type p)) 0;
             Value (parameter_annotations p, Generation.TypeInfoGetter U)) params.

(** ** The calls; [ctx] is the [ResolutionContext] of the thunk *)

Section run.
Context (ctx : option ptr).

Definition perform (c : call) : M t unit :=
  do! mupd (called c) in
  on_world (World.on_rt H (λ E, Runtime.run_prog (Runtime.resolve E fuel) (user ctx c))).

Definition release_all (got : list (nat * Handle.Bean)) : M t unit :=
  mfor (λ b, on_world (Holding.destruct_ H fuel b.2)) got.

(** The arguments, in the order of evaluation; when one throws, those that are there are
    destroyed, the last first. *)
Fixpoint inject_in (T f : info) (params : list (list annotation * TypeInfo)) (order : list nat)
    (got : list (nat * Handle.Bean)) : M t (list (nat * Handle.Bean)) :=
  match order with
  | [] => mreturn got
  | i :: order' =>
      let! p := mlift (params !! i) in
      let! b := mcatch (on_site (T, f, i) (Injection.injectParam H fuel ctx p.1 p.2))
                  (λ e, do! release_all got in mthrow_ e) in
      inject_in T f params order' ((i, b) :: got)
  end.

(** [injectParam<T, f, Is>(ctx)...], in the positions of the parameters. *)
Definition injected_args (T f : info) (params : list (list annotation * TypeInfo))
    : M t (list Handle.Bean) :=
  let! got := inject_in T f params (argument_order (length params)) [] in
  mlift (mapM (λ i, (list_to_map got : gmap nat Handle.Bean) !! i) (seq 0 (length params))).

Definition constructThunkDefault (T : info) (mem : ptr) : M t unit := perform (DefaultConstructor T mem).

Definition constructThunkInjected (T ctor : info) : consteval (ptr → M t unit) :=
  params ← injected_params ctor;
  Value (λ mem, let! args := injected_args T ctor params in perform (Constructor T ctor mem args)).

Definition invokeLifecycleHook (T method : info) : consteval (ptr → M t unit) :=
  params ← injected_params method;
  Value (λ obj, let! args := injected_args T method params in perform (Method T method obj args)).

Definition postConstructThunkImpl (T : info) : consteval (ptr → M t unit) :=
  members ← scanMembers P limit T;
  kHooks ← mapM (invokeLifecycleHook T) (postConstructHooks members);
  Value (λ instance, mfor (λ hook, hook instance) kHooks).

Definition preDestroyThunkImpl (T : info) : consteval (ptr → M t unit) :=
  members ← scanMembers P limit T;
  kHooks ← mapM (invokeLifecycleHook T) (reverseInfos (preDestroyHooks members));
  Value (λ instance, mfor (λ hook, hook instance) kHooks).

(** The factory is resolved, and its handle lives as long as the call. *)
Definition with_factory {A} (F : info) (k : ptr → M t A) : M t A :=
  let! factoryBean := on_world (λ W, World.on_rt H (λ E, Runtime.resolve E fuel ctx
      (World.typeIdFor (Generation.TypeInfoGetter F) W) kUnnamed) W) in
  let! r := mcatch (let! fp := on_world (Access.arrow H fuel factoryBean) in k fp)
              (λ e, do! on_world (Holding.destruct_ H fuel factoryBean) in mthrow_ e) in
  do! on_world (Holding.destruct_ H fuel factoryBean) in
  mreturn r.

Definition constructFactoryProductThunk (T F method : info) : consteval (ptr → M t unit) :=
  params ← injected_params method;
  Value (λ mem, with_factory F (λ fp,
    let! args := injected_args F method params in
    perform (FactoryMethod T F method (Some mem) fp args))).

(** The object the factory method allocated. *)
Definition allocAndConstructFactoryProductThunk (T F method : info) : consteval (M t ptr) :=
  params ← injected_params method;
  Value (with_factory F (λ fp,
    let! args := injected_args F method params in
    do! perform (FactoryMethod T F method None fp args) in
    on_world (World.on_rt H (λ _, Runtime.operator_new)))).

(** [noexcept] *)
Definition destroyThunk (T : info) (mem : ptr) : M t unit := λ S,
  match perform (Destructor T mem) S with (Throw _, S') => (Ub, S') | r => r end.
End run.
End thunks.

(** ** What a thunk leaves *)

Section facts.
Import World RuntimeFacts Living Service Sweep Holding.
Context `{SS : StdSort} (H : host) (fuel : nat) (known : gset ptr) (HG : host_good H known).
Context (ctx : option ptr).

Abbreviation running := (running H known).
Abbreviation fuelled := (fuelled fuel).
Abbreviation handles W := (PrototypeStore.handles (Runtime.prototypes_ (rt W))).

(** A context after requests, in which at most [n] names are new; other handles are
    counted as before. *)
Record steady (n : N) (W W' : World.t) : Prop := {
  sd_descs : descs W' = descs W;
  sd_objects : objects_ W' = objects_ W;
  sd_listeners : listeners_ W' = listeners_ W;
  sd_names s k : NameInterning.nameToId_ (names W) !! s = Some k →
    NameInterning.nameToId_ (names W') !! s = Some k;
  sd_size : NameInterning.size (names W') ≤ NameInterning.size (names W) + n;
  sd_handles s m : handles W !! s = Some m → handles W' !! s = Some m
}.

Lemma steady_refl n W : steady n W W.
Proof. split; try done. lia. Qed.

Lemma steady_trans n m W1 W2 W3 : steady n W1 W2 → steady m W2 W3 → steady (n + m) W1 W3.
Proof.
  intros [A1 A2 A3 A4 A5 A6] [B1 B2 B3 B4 B5 B6]. split; [congruence..| | |].
  - intros s k Hs. by apply B4, A4.
  - lia.
  - intros s k Hs. by apply B6, A6.
Qed.

Lemma steady_good W R : good (env_of H W) (rt W) R → steady 0 W (set_rt R W).
Proof. intros [_ HX]. split; try done; [simpl; lia|]. apply (x_handles _ _ _ _ HX). Qed.

(** What a thunk needs of the context; [n] names are to come. *)
Record set_for (n : N) (W : World.t) : Prop := {
  sf_running : running W;
  sf_fuel : fuelled 0 W;
  sf_live : Contexts.live ctx W;
  sf_calm : calm_env (env_of H W);
  sf_names : NameInterning.size (names W) + n < kThreadLocalSentinel
}.

Lemma set_steady n m W W' : set_for (n + m) W → running W' → steady n W W' → set_for m W'.
Proof.
  intros [H1 H2 H3 H4 H5] HW' [S1 S2 S3 S4 S5 S6]. split; [done|..].
  - unfold Service.fuelled in *. by rewrite S1, S2.
  - destruct ctx; [|done]. unfold Contexts.live in *. by rewrite S2.
  - destruct H4 as [C1 C2]. split; simpl in *; rewrite ?S1, ?S3; done.
  - lia.
Qed.

Lemma running_small W : running W → ScopeNameCache.small_ids (names W).
Proof.
  intros HW s id Hs. pose proof (rn_names _ HW) as Hwf.
  destruct (NameInterning.wf_forward _ Hwf s id Hs) as (_ & Hn & _). apply vat_lt in Hn.
  pose proof (NameInterning.wf_small _ Hwf). unfold NameInterning.size, kThreadLocalSentinel, kInvalidNameId, two32 in *. lia.
Qed.

Lemma lookup_kept T T' s id : NameInterning.lookup T s = id → id ≠ kInvalidNameId →
  (∀ s k, NameInterning.nameToId_ T !! s = Some k → NameInterning.nameToId_ T' !! s = Some k) →
  NameInterning.lookup T' s = id.
Proof.
  intros Hl Hn HT. revert Hl. unfold NameInterning.lookup. case_decide; [done|].
  destruct (NameInterning.nameToId_ T !! s) as [k|] eqn:Hk; simpl.
  - by rewrite (HT _ _ Hk).
  - by intros <-.
Qed.

(** Caches stay coherent while names are added. *)
Lemma coherent_steady anns J n W' : running W' → Injection.coherent H anns J →
  steady n (Injection.world J) W' →
  Injection.coherent H anns {| Injection.world := W'; Injection.scopeCache := Injection.scopeCache J;
                               Injection.nameCache := Injection.nameCache J |}.
Proof.
  intros HW' [H1 H2 H3] HS. split; simpl.
  - by apply running_small.
  - intros id Hid Hs. by apply (sd_names _ _ _ HS), H2.
  - intros id Hid. destruct (H3 id Hid) as [Hl Hn]. split; [|done].
    by eapply lookup_kept, HS.
Qed.

(** A run may be asked for its result. *)
Lemma ends_told {St A} (m : M St A) s Q :
  ends never m s (λ a s', m s = (Ok a, s') → Q a s') (λ _ _, False) → ends never m s Q (λ _ _, False).
Proof. unfold ends. destruct (m s) as [[a|e| | |] s']; auto. Qed.

Lemma ends_traced {St A} (m : M St A) s Q X : ends never m s Q X →
  ends never m s (λ a s', m s = (Ok a, s') ∧ Q a s') (λ e s', m s = (Throw e, s') ∧ X e s').
Proof. unfold ends. by destruct (m s) as [[a|e| | |] s']. Qed.

(** A handle that is counted, and was not before. *)
Definition counted (b : Handle.Bean) (W W' : World.t) : Prop :=
  Handle.tracked b = true → handles W' !! Handle.slot b = Some 1 ∧ handles W !! Handle.slot b = None.

Lemma served_counted W R d x b : running (set_rt R W) →
  served (env_of H W) d x ctx (rt W) R b → counted b W (set_rt R W).
Proof.
  intros HW' Hs Ht. unfold served in Hs. destruct (lifetime x).
  - destruct Hs as (q & s & -> & Hs & Hn). unfold Handle.slot, Handle.makeDirect. simpl.
    pose proof (held_small (env_of H W) s R (rn_inv _ HW') Hs) as Hlt.
    rewrite Treiber.low_pack; [by split|].
    unfold Handle.kMaterializedThreadLocalSlot, kInvalidSlotId, two32 in *. lia.
  - destruct Hs as [_ ->]. unfold Handle.tracked, Handle.makeDirect in Ht. simpl in Ht.
    by rewrite Treiber.low_pack in Ht.
  - destruct Hs as (sc & i & _ & _ & _ & _ & ->). unfold Handle.tracked in Ht. simpl in Ht.
    by rewrite andb_false_r in Ht.
  - destruct Hs as [_ ->]. unfold Handle.tracked in Ht. simpl in Ht. by rewrite andb_false_r in Ht.
Qed.

Lemma resolve_runs n W ty nm : set_for n W →
  ends never (on_rt H (λ E, Runtime.resolve E fuel ctx ty nm)) W
    (λ b W', running W' ∧ steady 0 W W' ∧ counted b W W') (λ _ W', running W' ∧ steady 0 W W').
Proof.
  intros [HW HF HL _ _]. apply (on_rt_ends H known HG). set (E := env_of H W).
  eapply ends_mono; [apply (resolve_fuel_spec E (running_env HG W HW) fuel ctx ty nm (rt W))|..].
  - by apply live_valid.
  - apply HW.
  - by apply fuel_enough.
  - intros b R [Hg (i & d & x & _ & _ & _ & Hs)]. assert (running (set_rt R W)) by by apply running_good.
    split_and!; [done|by apply steady_good|by eapply served_counted].
  - intros e R Hg. split; [by apply running_good|by apply steady_good].
Qed.

(** ** One argument *)

Lemma scope_named_runs n anns J J' : set_for (1 + n) (Injection.world J) →
  Injection.scope_named anns J J' →
  running (Injection.world J') ∧ steady 1 (Injection.world J) (Injection.world J').
Proof.
  intros HF [->|(id & Hi)]; [split; [apply HF|apply steady_refl]|].
  pose proof (sf_names _ _ HF) as Hn.
  destruct (intern_runs HG (Injection.world J) (Injection.scope_of anns)) as (id' & W' & Hi' & HW' & _ & _ & T);
    [apply HF|unfold kThreadLocalSentinel, kInvalidNameId in *; lia|].
  rewrite Hi in Hi'. injection Hi' as _ <-. split; [done|].
  destruct (decide (Injection.scope_of anns = ""%string)) as [He|He].
  { rewrite He in Hi. injection Hi as _ <-. apply steady_refl. }
  rewrite Contexts.internNameSafe_run in Hi by done. injection Hi as _ <-. split; try done; simpl.
  - intros s k. by apply ScopeNameCache.entry_stable.
  - apply NameInterning.intern_size.
Qed.

Lemma unscoped_params anns g : ∃ p, Injection.param_matches p anns g.
Proof.
  exists {| injectedTypeName := None; injectedTypeInfo := g;
    hasNamedAnnotation := Injection.kHasNamed anns; targetName := Some (Injection.qualifier_of anns);
    scopeName := ""; hasScopedAnnotation := Injection.kHasScoped anns |}. by split.
Qed.

(** [injectParam] of a ready context. *)
Lemma injectParam_runs n anns g J : set_for (1 + n) (Injection.world J) → Injection.coherent H anns J →
  let after J' := running (Injection.world J') ∧ Injection.coherent H anns J' ∧
    steady 1 (Injection.world J) (Injection.world J') in
  ends never (Injection.injectParam H fuel ctx anns g) J
    (λ b J', after J' ∧ counted b (Injection.world J) (Injection.world J')) (λ _ J', after J').
Proof.
  intros HF Hc. cbv zeta. pose proof (sf_running _ _ HF) as HW.
  destruct (Injection.kHasScoped anns) eqn:Hs.
  - destruct (unscoped_params anns g) as [p Hp].
    destruct (Injection.injectScoped_run H anns g p J Hc Hp (rn_tables _ HW))
      as (o & J' & Hrun & Hc' & _ & Hsn & Ho).
    destruct (scope_named_runs n anns J J' HF Hsn) as [HW' HS].
    unfold ends, Injection.injectParam. rewrite Hs, Hrun.
    destruct (Startup.injected _ p) as [d|].
    + cbv zeta in Ho. destruct (Injection.tied _ _ _) in Ho; subst o; [by split_and!|].
      split; [by split_and!|]. intros Ht. unfold Handle.tracked in Ht. simpl in Ht. by rewrite andb_false_r in Ht.
    + destruct Ho as [m ->]. by split_and!.
  - destruct (Injection.injectPlain_run H fuel ctx anns g J Hc Hs) as (J' & Hc' & Hrun).
    cbv zeta in Hrun. destruct (_ && _).
    + destruct Hrun as [Hrun HW']. unfold ends. rewrite Hrun, HW'.
      split_and!; [done|done|]. apply steady_refl.
    + destruct Hrun as [Hrun HW'].
      pose proof (resolve_runs (1 + n) (Injection.world J)
        (World.typeIdFor g (Injection.world J)) (Injection.candidate_name
          (Startup.tables_ (World.reg (Injection.world J))) anns) HF) as Hres.
      unfold ends in *. rewrite Hrun, HW'.
      destruct (World.on_rt H _ (Injection.world J)) as [[b|e| | |] W']; try done; simpl.
      * destruct Hres as (H1 & H2 & H3). split_and!; [done|done| |done].
        exact (steady_trans 0 1 _ _ _ H2 (steady_refl 1 _)).
      * destruct Hres as (H1 & H2). split_and!; [done|done|].
        exact (steady_trans 0 1 _ _ _ H2 (steady_refl 1 _)).
Qed.

(** ** The arguments of a call *)

Context `{TC : Generation.Toolchain} `{UC : UserCode} (P : program) (limit : nat).

(** The parameters of [f]; of a program that compiles they are there. *)
Definition params_of (f : Meta.info) : list (list annotation * TypeInfo) :=
  match injected_params P f with Value ps => ps | IllFormed _ => [] end.

(** The caches of every call site. *)
Definition sited (S : Thunks.t) : Prop := ∀ T f i ps p,
  injected_params P f = Value ps → ps !! i = Some p → Injection.coherent H p.1 (at_site (T, f, i) S).

(** *** What the arguments of one call are *)

(** From [S0] to [S], the parameters of [f] numbered in [order] were injected, each in the
    state that the ones before it left; [got] has what they got, the last first. *)
Inductive injections (T f : Meta.info) (S0 : Thunks.t) :
    list nat → list (nat * Handle.Bean) → Thunks.t → Prop :=
| inj_none : injections T f S0 [] [] S0
| inj_more order got S1 i p b S2 :
    injections T f S0 order got S1 → running (world S1) → sited S1 → params_of f !! i = Some p →
    on_site (T, f, i) (Injection.injectParam H fuel ctx p.1 p.2) S1 = (Ok b, S2) →
    injections T f S0 (order ++ [i]) ((i, b) :: got) S2.

(** The arguments of a call of [f], all injected from [S] to [S'] in the order in which the
    compiler evaluates them. *)
Definition passed (T f : Meta.info) (S : Thunks.t) (args : list Handle.Bean) (S' : Thunks.t) : Prop :=
  ∃ got, injections T f S (argument_order (length (params_of f))) got S' ∧
    length args = length (params_of f) ∧ ∀ i b, (i, b) ∈ got → args !! i = Some b.

(** [b] was destroyed between [W] and [W']: a handle to a prototype, the only one, with the
    destruction of the object, and its slot is free again; of another handle nothing is
    left to give back. *)
Definition given_back (b : Handle.Bean) (W W' : World.t) : Prop :=
  destruct_ H fuel b W = (Ok tt, W') ∧
  if Handle.tracked b then
    handles W !! Handle.slot b = Some 1 ∧ let_go_of H (Handle.slot b) 1 W W'
  else W' = W.

(** All of [got], in this order. *)
Inductive all_given_back : list (nat * Handle.Bean) → World.t → World.t → Prop :=
| gb_none W : all_given_back [] W W
| gb_more i b got W W1 W2 : given_back b W W1 → all_given_back got W1 W2 →
    all_given_back ((i, b) :: got) W W2.

(** The injection of some parameter threw [e]: the ones before it were given back, the last
    first. *)
Definition refused_in (T f : Meta.info) (order : list nat) (e : exn) (S S' : Thunks.t) : Prop :=
  ∃ order1 i order2 p got S1 S2,
    order = order1 ++ i :: order2 ∧ injections T f S order1 got S1 ∧ params_of f !! i = Some p ∧
    on_site (T, f, i) (Injection.injectParam H fuel ctx p.1 p.2) S1 = (Throw e, S2) ∧
    all_given_back got (world S2) (world S') ∧ caches S' = caches S2 ∧ calls S' = calls S.

Definition refused (T f : Meta.info) : exn → Thunks.t → Thunks.t → Prop :=
  refused_in T f (argument_order (length (params_of f))).

(** The call [mk args] of [f] with its injected arguments, and how it can fail. *)
Definition made (T f : Meta.info) (mk : list Handle.Bean → call) (S S' : Thunks.t) : Prop :=
  ∃ args S1, passed T f S args S1 ∧ perform H fuel ctx (mk args) S1 = (Ok tt, S') ∧
    calls S' = calls S ++ [mk args].

Definition stopped_at (T f : Meta.info) (mk : list Handle.Bean → call) (e : exn) (S S' : Thunks.t) : Prop :=
  refused T f e S S' ∨
  ∃ args S1, passed T f S args S1 ∧ perform H fuel ctx (mk args) S1 = (Throw e, S') ∧
    calls S' = calls S ++ [mk args].

(** *** How the arguments come *)

(** [S] comes after [S0]: at most [n] names are new, no user code was called. *)
Record later (n : N) (S0 S : Thunks.t) : Prop := {
  lt_running : running (world S);
  lt_sited : sited S;
  lt_steady : steady n (world S0) (world S);
  lt_calls : calls S = calls S0
}.

Lemma later_later n m S1 S2 S3 : later n S1 S2 → later m S2 S3 → later (n + m) S1 S3.
Proof.
  intros [A1 A2 A3 A4] [B1 B2 B3 B4]. split; [done|done|by eapply steady_trans|congruence].
Qed.

Lemma at_site_world k S : Injection.world (at_site k S) = world S.
Proof. unfold at_site. by destruct (default (0, 0) (caches S !! k)). Qed.

Lemma sited_world n W S : sited S → running W → steady n (world S) W →
  sited {| world := W; caches := caches S; calls := calls S |}.
Proof.
  intros HS HW Hn T f i ps p Hps Hp. pose proof (HS T f i ps p Hps Hp) as Hc.
  assert (steady n (Injection.world (at_site (T, f, i) S)) W) as Hn' by by rewrite at_site_world.
  pose proof (coherent_steady p.1 _ n W HW Hc Hn') as Hc'.
  revert Hc'. unfold at_site. simpl. by destruct (default (0, 0) (caches S !! (T, f, i))).
Qed.

Lemma on_site_runs n T f i ps p S : set_for (1 + n) (world S) → sited S →
  injected_params P f = Value ps → ps !! i = Some p →
  ends never (on_site (T, f, i) (Injection.injectParam H fuel ctx p.1 p.2)) S
    (λ b S', later 1 S S' ∧ counted b (world S) (world S')) (λ _ S', later 1 S S').
Proof.
  intros HF HS Hps Hp. pose proof (HS T f i ps p Hps Hp) as Hc.
  pose proof (injectParam_runs n p.1 p.2 (at_site (T, f, i) S)) as Hrun. cbv zeta in Hrun.
  rewrite at_site_world in Hrun. specialize (Hrun HF Hc).
  assert (∀ J', running (Injection.world J') → Injection.coherent H p.1 J' →
    steady 1 (world S) (Injection.world J') →
    later 1 S {| world := Injection.world J';
      caches := <[(T, f, i) := (Injection.scopeCache J', Injection.nameCache J')]> (caches S);
      calls := calls S |}) as Hlater.
  { intros J' HW' Hc' Hst. split; [done| |done|done]. intros T' f' i' ps' p' Hps' Hp'.
    destruct (decide ((T', f', i') = (T, f, i))) as [[= -> -> ->]|Hne].
    - rewrite Hps in Hps'. injection Hps' as <-. rewrite Hp in Hp'. injection Hp' as <-.
      unfold at_site. simpl. rewrite lookup_insert_eq. by destruct J'.
    - pose proof (sited_world 1 _ S HS HW' Hst T' f' i' ps' p' Hps' Hp') as Hother.
      revert Hother. unfold at_site. simpl. by rewrite lookup_insert_ne. }
  unfold ends, on_site in *.
  destruct (Injection.injectParam H fuel ctx p.1 p.2 (at_site (T, f, i) S)) as [[b|e| | |] J'] eqn:Hj; try done.
  - destruct Hrun as [(H1 & H2 & H3) H4]. split; [by apply Hlater|exact H4].
  - destruct Hrun as (H1 & H2 & H3). by apply Hlater.
Qed.

(** The counted slots of the arguments that are there. *)
Definition slots_of (got : list (nat * Handle.Bean)) : list SlotId :=
  omap (λ b, if Handle.tracked b.2 then Some (Handle.slot b.2) else None) got.

Definition owned (got : list (nat * Handle.Bean)) (W : World.t) : Prop :=
  NoDup (slots_of got) ∧ ∀ s, s ∈ slots_of got → handles W !! s = Some 1.

Lemma slots_cons i b got : slots_of ((i, b) :: got) =
  (if Handle.tracked b then [Handle.slot b] else []) ++ slots_of got.
Proof. unfold slots_of. simpl. by destruct (Handle.tracked b). Qed.

(** The destructor of one handle. *)
Lemma destruct_frames n W b : set_for n W →
  (Handle.tracked b = true → handles W !! Handle.slot b = Some 1) →
  ends never (destruct_ H fuel b) W (λ _ W', running W' ∧ given_back b W W' ∧ ∃ R, W' = set_rt R W ∧
      ∀ s m, (Handle.tracked b = true → s ≠ Handle.slot b) → handles W !! s = Some m →
        handles W' !! s = Some m) (λ _ _, False).
Proof.
  intros [HW HF _ HC _] Hb. apply ends_told. unfold given_back, destruct_. destruct (Handle.tracked b).
  - pose proof (Hb eq_refl) as Hm. eapply ends_mono; [by apply (release_runs HG W _ 1)| |done].
    intros [] W' [HW' Hlet] Hrun. pose proof Hlet as (R & -> & [_ _ HL] & _).
    split; [done|]. split; [done|]. exists R. split; [done|]. intros s m' Hs. by apply HL, Hs.
  - apply ends_return. intros _. split; [done|]. split; [done|]. exists (rt W). split; [by destruct W|done].
Qed.

(** The arguments are destroyed: nothing else changes for the handles there were. *)
Lemma release_all_runs k n got : ∀ S0 S, set_for k (world S) → later n S0 S →
  owned got (world S) → (∀ s, s ∈ slots_of got → handles (world S0) !! s = None) →
  ends never (release_all H fuel got) S
    (λ _ S', later n S0 S' ∧ all_given_back got (world S) (world S') ∧ caches S' = caches S) (λ _ _, False).
Proof.
  induction got as [|[i b] got IH]; intros S0 S HF HL Ho Hnew.
  { apply ends_return. split_and!; [done|constructor|done]. }
  cbn [release_all mfor].
  destruct Ho as [Hnd Hc]. rewrite slots_cons in Hnd, Hc, Hnew.
  apply NoDup_app in Hnd as (_ & Hdis & Hnd).
  assert (Handle.tracked b = true → Handle.slot b ∈ slots_of ((i, b) :: got)) as Hin.
  { intros Ht. rewrite slots_cons, Ht. by left. }
  rewrite slots_cons in Hin.
  eapply ends_bind with (P := λ _ S', later n S0 S' ∧ set_for k (world S') ∧ owned got (world S') ∧
    given_back b (world S) (world S') ∧ caches S' = caches S).
  2: { intros ? S' (HL' & HF' & Ho' & Hb' & Hca). eapply ends_mono; [apply (IH S0 S'); [done..|]| |done].
       - intros s Hs. apply Hnew, elem_of_app. by right.
       - intros ? S2 (H1 & H2 & H3). split_and!; [done| |congruence]. by econstructor. }
  pose proof (destruct_frames k (world S) b HF) as Hrun.
  unfold ends, on_world in *. simpl. destruct (destruct_ H fuel b (world S)) as [[[]|e| | |] W'].
  2-5: by destruct Hrun; intros Ht; apply Hc, Hin.
  destruct Hrun as (HW' & Hback & R & -> & Hh); [intros Ht; by apply Hc, Hin|].
  destruct HL as [L1 L2 L3 L4].
  assert (sited {| world := set_rt R (world S); caches := caches S; calls := calls S |}) as Hsite.
  { intros T' f' i' ps' p' Hps' Hp'. destruct (L2 T' f' i' ps' p' Hps' Hp') as [C1 C2 C3].
    revert C1 C2 C3. unfold at_site. simpl. destruct (default (0, 0) (caches S !! (T', f', i'))).
    intros C1 C2 C3. by split. }
  assert (steady n (world S0) (set_rt R (world S))) as Hst.
  { destruct L3 as [A1 A2 A3 A4 A5 A6]. split; [done..|].
    intros s m Hs. apply Hh; [|by apply A6]. intros Ht ->.
    by rewrite (Hnew _ (Hin Ht)) in Hs. }
  split; [by split|]. split.
  - destruct HF as [F1 F2 F3 F4 F5]. by split.
  - split; [|done]. split; [done|]. intros s Hs. apply Hh; [|apply Hc, elem_of_app; by right].
    intros Ht ->. apply (Hdis (Handle.slot b)); [rewrite Ht; by left|done].
Qed.

Lemma injections_order T f S0 order got S : injections T f S0 order got S → got.*1 = reverse order.
Proof.
  induction 1 as [|order got S1 i p b S2 _ IH]; [done|]. cbn [fmap list_fmap].
  by rewrite reverse_app, <-IH.
Qed.

Lemma later_weaken n m S0 S : n ≤ m → later n S0 S → later m S0 S.
Proof.
  intros Hn [L1 L2 [A1 A2 A3 A4 A5 A6] L4]. split; [done|done|split; try done; lia|done].
Qed.

Lemma owned_cons i b got S S1 : owned got (world S) → later 1 S S1 → counted b (world S) (world S1) →
  owned ((i, b) :: got) (world S1).
Proof.
  intros [Hnd Hc] HL Hb.
  assert (∀ s, s ∈ slots_of got → handles (world S1) !! s = Some 1) as Hc1.
  { intros s Hs. apply (sd_handles _ _ _ (lt_steady _ _ _ HL)). by apply Hc. }
  unfold owned. rewrite slots_cons. destruct (Handle.tracked b) eqn:Ht; [|by split].
  destruct (Hb Ht) as [H1 H2]. split.
  - apply NoDup_cons. split; [|done]. intros Hs. by rewrite (Hc _ Hs) in H2.
  - intros s [->|Hs]%elem_of_cons; [done|by apply Hc1].
Qed.

Lemma inject_in_runs T f ps n S0 : injected_params P f = Value ps → ∀ order got S m before,
  set_for (N.of_nat (length order) + n) (world S) → later m S0 S →
  (∀ i, i ∈ order → (i < length ps)%nat) → owned got (world S) →
  (∀ s, s ∈ slots_of got → handles (world S0) !! s = None) → injections T f S0 before got S →
  ends never (inject_in H fuel ctx T f ps order got) S
    (λ got' S', later (m + N.of_nat (length order)) S0 S' ∧ injections T f S0 (before ++ order) got' S')
    (λ e S', later (m + N.of_nat (length order)) S0 S' ∧ refused_in T f (before ++ order) e S0 S').
Proof.
  intros Hps. assert (params_of f = ps) as Hpo by (unfold params_of; by rewrite Hps).
  induction order as [|i order IH]; intros got S m before HF HL Hi Ho Hnew Hans.
  { apply ends_return. rewrite app_nil_r. split; [by apply (later_weaken m); [lia|]|done]. }
  cbn [inject_in]. destruct (lookup_lt_is_Some_2 ps i) as [p Hp]; [apply Hi; by left|].
  rewrite Hp. eapply ends_run; [done|]. cbn [length] in HF |- *.
  replace (N.of_nat (Datatypes.S (length order)) + n) with (1 + (N.of_nat (length order) + n)) in HF
    by (clear; lia).
  pose proof (on_site_runs (N.of_nat (length order) + n) T f i ps p S HF (lt_sited _ _ _ HL) Hps Hp) as Hone.
  apply ends_traced in Hone.
  assert (∀ S1, later 1 S S1 → later (m + 1) S0 S1 ∧ set_for (N.of_nat (length order) + n) (world S1) ∧
    owned got (world S1)) as Hnext.
  { intros S1 H1. split; [by eapply later_later|]. split.
    - eapply set_steady; [exact HF|apply H1|apply H1].
    - destruct Ho as [Hnd Hc]. split; [done|]. intros s Hs.
      apply (sd_handles _ _ _ (lt_steady _ _ _ H1)). by apply Hc. }
  eapply ends_bind.
  - eapply ends_catch; [exact Hone|]. cbv beta. intros e S1 [Hrun H1]. destruct (Hnext S1 H1) as (H2 & H3 & H4).
    eapply ends_bind with (X := λ e' S2, later (m + N.of_nat (Datatypes.S (length order))) S0 S2 ∧
      refused_in T f (before ++ i :: order) e' S0 S2).
    + eapply ends_mono; [apply (release_all_runs (N.of_nat (length order) + n) (m + N.of_nat (Datatypes.S (length order))) got S0 S1);
        [exact H3|by apply (later_weaken (m + 1)); [lia|]|exact H4|exact Hnew]| |done].
      intros ? S2 HS2. exact HS2.
    + cbv beta. intros ? S2 (HS2 & Hback & Hca). apply ends_throw. split; [done|].
      exists before, i, order, p, got, S, S1. rewrite Hpo. split_and!; try done. apply HS2.
  - cbv beta. intros b S1 (Hrun & H1 & Hcnt). destruct (Hnext S1 H1) as (H2 & H3 & H4).
    replace (before ++ i :: order) with ((before ++ [i]) ++ order) by by rewrite <-(assoc_L (++)).
    eapply ends_mono; [apply (IH ((i, b) :: got) S1 (m + 1) (before ++ [i])); try done|..].
    + intros j Hj. apply Hi. by right.
    + exact (owned_cons i b got S S1 Ho H1 Hcnt).
    + intros s. rewrite slots_cons, elem_of_app. intros [Hs|Hs]; [|by apply Hnew].
      destruct (Handle.tracked b) eqn:Ht; [|by apply elem_of_nil in Hs].
      apply list_elem_of_singleton in Hs as ->. destruct (Hcnt Ht) as [_ Hnone].
      destruct (handles (world S0) !! Handle.slot b) as [k|] eqn:Hk; [|done].
      by rewrite (sd_handles _ _ _ (lt_steady _ _ _ HL) _ _ Hk) in Hnone.
    + by econstructor; [exact Hans|apply HL|apply HL|rewrite Hpo; exact Hp|].
    + intros got' S2 [HL2 Ha]. split; [|exact Ha].
      apply (later_weaken (m + 1 + N.of_nat (length order))); [lia|done].
    + intros e S2 [HL2 Ha]. split; [|exact Ha].
      apply (later_weaken (m + 1 + N.of_nat (length order))); [lia|done].
Qed.

(** The arguments in the positions of the parameters. *)
Lemma arguments_placed n got : got.*1 = reverse (argument_order n) →
  ∃ args, mapM (λ i, (list_to_map got : gmap nat Handle.Bean) !! i) (seq 0 n) = Some args ∧
    length args = n ∧ ∀ i b, (i, b) ∈ got → args !! i = Some b.
Proof.
  intros Hf. assert (NoDup got.*1) as Hnd.
  { rewrite Hf, reverse_Permutation, argument_order_all. apply NoDup_seq. }
  assert (∀ i, i ∈ got.*1 ↔ (i < n)%nat) as Hin.
  { intros i. rewrite Hf, elem_of_reverse, argument_order_all, elem_of_seq. lia. }
  destruct (mapM_is_Some_2 (λ i, (list_to_map got : gmap nat Handle.Bean) !! i) (seq 0 n)) as [args Hargs].
  { apply Forall_forall. intros i Hi. apply elem_of_seq in Hi.
    destruct (proj1 (list_elem_of_fmap _ _ _) (proj2 (Hin i) ltac:(lia))) as ([i' b] & -> & Hb).
    exists b. by apply elem_of_list_to_map_1. }
  exists args. split; [done|]. apply mapM_Some_1 in Hargs. pose proof (Forall2_length _ _ _ Hargs) as Hlen.
  rewrite length_seq in Hlen. split; [done|]. intros i b Hb.
  assert (i < n)%nat as Hi by (apply Hin, list_elem_of_fmap; by exists (i, b)).
  destruct (Forall2_lookup_l _ _ _ i i Hargs) as (b' & Hb' & Hl); [by apply lookup_seq|].
  apply (elem_of_list_to_map_1 (M := gmap nat)) in Hb; [|done]. by rewrite Hb in Hl; simplify_eq.
Qed.

(** The arguments of a call. *)
Lemma injected_args_runs n T f ps S : injected_params P f = Value ps →
  set_for (N.of_nat (length ps) + n) (world S) → sited S →
  ends never (injected_args H fuel ctx T f ps) S
    (λ args S', later (N.of_nat (length ps)) S S' ∧ passed T f S args S')
    (λ e S', later (N.of_nat (length ps)) S S' ∧ refused T f e S S').
Proof.
  intros Hps HF HS. pose proof (argument_order_all (length ps)) as Hperm.
  assert (params_of f = ps) as Hpo by (unfold params_of; by rewrite Hps).
  assert (length (argument_order (length ps)) = length ps) as Hlen by by rewrite Hperm, length_seq.
  unfold injected_args, refused. rewrite Hpo.
  eapply ends_bind; [eapply ends_mono; [apply (inject_in_runs T f ps n S Hps (argument_order (length ps)) [] S 0 [])|..]|].
  - by rewrite Hlen.
  - split; [apply HF|done|apply steady_refl|done].
  - intros i Hi. rewrite Hperm in Hi. apply elem_of_seq in Hi. lia.
  - split; [constructor|]. by intros s ?%elem_of_nil.
  - by intros s ?%elem_of_nil.
  - constructor.
  - intros got S' H'. exact H'.
  - cbv beta. intros e S' [HL Href]. rewrite Hlen in HL. by split.
  - cbv beta. intros got S' [HL Ha]. rewrite Hlen in HL.
    destruct (arguments_placed (length ps) got) as (args & -> & Hargs); [by eapply injections_order|].
    apply ends_return. split; [done|]. exists got. by rewrite Hpo.
Qed.

(** ** The calls *)

Context (HU : ∀ c, confined known ctx (user ctx c)).

(** [S] comes after [S0], with the calls [cs] of user code. *)
Record follows (n : N) (cs : list call) (S0 S : Thunks.t) : Prop := {
  fo_running : running (world S);
  fo_sited : sited S;
  fo_steady : steady n (world S0) (world S);
  fo_calls : calls S = calls S0 ++ cs
}.

Lemma later_follows n S0 S : later n S0 S → follows n [] S0 S.
Proof. intros [L1 L2 L3 L4]. split; [done..|]. by rewrite app_nil_r. Qed.

Lemma follows_trans n m cs ds S1 S2 S3 : follows n cs S1 S2 → follows m ds S2 S3 →
  follows (n + m) (cs ++ ds) S1 S3.
Proof.
  intros [A1 A2 A3 A4] [B1 B2 B3 B4]. split; [done|done|by eapply steady_trans|].
  by rewrite B4, A4, (assoc_L (++)).
Qed.

Lemma follows_refl S : running (world S) → sited S → follows 0 [] S S.
Proof. intros HW HS. split; [done|done|apply steady_refl|by rewrite app_nil_r]. Qed.

Lemma on_world_follows {A} n (m : M World.t A) S Q X : sited S →
  ends never m (world S) (λ a W', running W' ∧ steady n (world S) W' ∧ Q a W')
    (λ e W', running W' ∧ steady n (world S) W' ∧ X e W') →
  ends never (on_world m) S (λ a S', follows n [] S S' ∧ Q a (world S'))
    (λ e S', follows n [] S S' ∧ X e (world S')).
Proof.
  intros HS Hm. unfold ends, on_world in *.
  destruct (m (world S)) as [[a|e| | |] W']; try done;
    destruct Hm as (HW' & Hst & Hq); (split; [|done]);
    (split; [done|by eapply sited_world|done|by rewrite app_nil_r]).
Qed.

(** A call of user code. *)
Lemma perform_runs n c S : set_for n (world S) → sited S →
  ends never (perform H fuel ctx c) S (λ _ S', follows 0 [c] S S') (λ _ S', follows 0 [c] S S').
Proof.
  intros [HW HF HL _ _] HS. unfold perform. set (S1 := called c S).
  eapply ends_bind with (P := λ _ S', S' = S1); [done|]. intros ? ? ->.
  assert (∀ S', follows 0 [] S1 S' → follows 0 [c] S S') as Hc.
  { intros S' [F1 F2 F3 F4]. split; [done..|]. rewrite F4, app_nil_r. done. }
  eapply ends_mono; [apply (on_world_follows 0 _ S1 (λ _ _, True) (λ _ _, True)); [done|]|
    by intros ? S' [HS' _]; apply Hc|by intros ? S' [HS' _]; apply Hc].
  apply (on_rt_ends H known HG). change (world S1) with (world S). set (E := env_of H (world S)).
  eapply ends_mono; [eapply (run_prog_keeps E (Runtime.resolve E fuel) fuel
    (rec_keeps H fuel known HG (world S) HW) (user ctx c))|..].
  - apply (confined_ok known E ctx); [by apply live_valid| |apply HU].
    intros sc Hsc. unfold E. simpl. rewrite lookup_fmap. destruct (rn_known _ HW sc Hsc) as [o ->]. by eexists.
  - apply HW.
  - by apply fuel_enough.
  - intros ? R Hg. split_and!; [by apply running_good|by apply steady_good|done].
  - intros ? R Hg. split_and!; [by apply running_good|by apply steady_good|done].
Qed.

(** Arguments, then the call that takes them. *)
Lemma inject_and_call n T f ps (mk : list Handle.Bean → call) S : injected_params P f = Value ps →
  set_for (N.of_nat (length ps) + n) (world S) → sited S →
  ends never (let! args := injected_args H fuel ctx T f ps in perform H fuel ctx (mk args)) S
    (λ _ S', made T f mk S S' ∧ ∃ cs, follows (N.of_nat (length ps)) cs S S')
    (λ e S', stopped_at T f mk e S S' ∧ ∃ cs, follows (N.of_nat (length ps)) cs S S').
Proof.
  intros Hps HF HS.
  eapply ends_bind; [eapply ends_mono; [by apply (injected_args_runs n T f ps S)| |]|].
  - intros args S1 H1. exact H1.
  - cbv beta. intros e S1 [H1 Href]. split; [by left|]. exists []. by apply later_follows.
  - cbv beta. intros args S1 [H1 Ha].
    assert (∀ S2, follows 0 [mk args] S1 S2 → follows (N.of_nat (length ps)) [mk args] S S2) as Hf.
    { intros S2 H2. pose proof (follows_trans _ _ _ _ _ _ _ (later_follows _ _ _ H1) H2) as H3.
      by rewrite N.add_0_r in H3. }
    eapply ends_mono; [apply ends_traced, (perform_runs n (mk args) S1)|..].
    + eapply set_steady; [exact HF|apply H1|apply H1].
    + apply H1.
    + cbv beta. intros [] S2 [Hrun H2%Hf]. split; [|by eexists]. exists args, S1. split_and!; [done..|apply H2].
    + cbv beta. intros e S2 [Hrun H2%Hf]. split; [|by eexists]. right. exists args, S1.
      split_and!; [done..|apply H2].
Qed.

(** ** Lifecycle hooks *)

Definition needs (methods : list Meta.info) : N :=
  foldr (λ m n, N.of_nat (length (params_of m)) + n) 0 methods.

(** The hooks [methods] were called on [obj], one after the other. *)
Inductive hooked (T : Meta.info) (obj : ptr) : list Meta.info → Thunks.t → Thunks.t → Prop :=
| hk_none S : hooked T obj [] S S
| hk_more m methods S S1 S2 : made T m (Method T m obj) S S1 → hooked T obj methods S1 S2 →
    hooked T obj (m :: methods) S S2.

Lemma needs_le n m : n ≤ n + m. Proof. lia. Qed.

Lemma follows_weaken n m cs S0 S : n ≤ m → follows n cs S0 S → follows m cs S0 S.
Proof.
  intros Hn [L1 L2 [A1 A2 A3 A4 A5 A6] L4]. split; [done|done|split; try done; lia|done].
Qed.

Lemma hooks_run T obj methods : ∀ hooks S n,
  mapM (invokeLifecycleHook H fuel P ctx T) methods = Value hooks →
  set_for (needs methods + n) (world S) → sited S →
  ends never (mfor (λ hook : ptr → M Thunks.t unit, hook obj) hooks) S
    (λ _ S', hooked T obj methods S S' ∧ ∃ cs, follows (needs methods) cs S S')
    (λ e S', (∃ k m S1, hooked T obj (take k methods) S S1 ∧ methods !! k = Some m ∧
       stopped_at T m (Method T m obj) e S1 S') ∧ ∃ cs, follows (needs methods) cs S S').
Proof.
  induction methods as [|m methods IH]; intros hooks S n Hh HF HS.
  { injection Hh as <-. apply ends_return. split; [constructor|]. exists []. apply follows_refl; [apply HF|done]. }
  cbn in Hh. apply bind_value in Hh as (hook & Hhook & Hh). apply bind_value in Hh as (hooks' & Hh' & Hh).
  injection Hh as <-. unfold invokeLifecycleHook in Hhook.
  apply bind_value in Hhook as (ps & Hps & Hhook). injection Hhook as <-.
  assert (params_of m = ps) as Hpo by (unfold params_of; by rewrite Hps).
  cbn [needs foldr] in *. fold (needs methods) in *. rewrite Hpo in *. rewrite <-N.add_assoc in HF.
  cbn [mfor]. eapply ends_bind; [eapply ends_mono; [by apply (inject_and_call (needs methods + n) T m ps (Method T m obj) S)| |]|].
  - intros ? S1 H1. exact H1.
  - cbv beta. intros e S1 [Hst [cs H1]]. split; [by exists 0%nat, m, S; split; [constructor|]|].
    exists cs. by apply (follows_weaken (N.of_nat (length ps))); [apply needs_le|].
  - cbv beta. intros ? S1 [Hmade [cs H1]].
    eapply ends_mono; [apply (IH hooks' S1 n Hh')|..].
    + eapply set_steady; [exact HF|apply H1|apply H1].
    + apply H1.
    + intros ? S2 [Hk [ds H2]]. split; [by econstructor|]. exists (cs ++ ds).
      exact (follows_trans _ _ _ _ _ _ _ H1 H2).
    + intros e S2 [(k & m' & S3 & Hk & Hm & Hst) [ds H2]]. split.
      * exists (Datatypes.S k), m', S3. split; [by econstructor|done].
      * exists (cs ++ ds). exact (follows_trans _ _ _ _ _ _ _ H1 H2).
Qed.

(** One hook, one call. *)
Lemma hooked_one T obj m S S' : hooked T obj [m] S S' →
  ∃ args, length args = length (params_of m) ∧ calls S' = calls S ++ [Method T m obj args].
Proof.
  intros Hk. inversion Hk as [|? ? ? S1 ? (args & S2 & (got & _ & Hlen & _) & _ & Hc) Hn]; subst.
  inversion Hn; subst. by exists args.
Qed.

(** C26 A generated constructor thunk injects, then constructs: for a constructor of [Bean]
    parameters, on a context that is ready, with a configured limit of prototype slots, room
    for the names and destructions from which no exception escapes, whatever the caches of
    the call sites hold, the thunk of [T] ends with the context ready, every cache coherent
    and the handles others hold counted as before. It injects the arguments one after the
    other, in the order in which the compiler evaluates them, each being what [injectParam]
    gave for its own parameter in the state that the ones before it left. If it returns, it
    has called the constructor once, with these arguments and on the memory it was given,
    and the constructor returned. If it throws, either an injection threw this exception,
    the constructor was not called, and the arguments that were there were given back, the
    last first, each handle to a prototype being the only one, with the whole destruction of
    the object in its slot, which is free again; or the constructor, called with all of
    them, threw it. What becomes of the handles passed to the call is up to the code called.
    *)
Theorem thunk_constructs (T ctor : Meta.info) (thunk : ptr → M Thunks.t unit) (mem : ptr) (S : Thunks.t) :
  constructThunkInjected H fuel P ctx T ctor = Value thunk →
  set_for (N.of_nat (length (params_of ctor))) (world S) → sited S →
  let '(o, S') := thunk mem S in
  running (world S') ∧ sited S' ∧ steady (N.of_nat (length (params_of ctor))) (world S) (world S') ∧
  match o with
  | Ok _ => made T ctor (Constructor T ctor mem) S S'
  | Throw e => stopped_at T ctor (Constructor T ctor mem) e S S'
  | _ => False
  end.
Proof.
  intros Ht HF HS. unfold constructThunkInjected in Ht. apply bind_value in Ht as (ps & Hps & Ht).
  injection Ht as <-. assert (params_of ctor = ps) as Hpo by (unfold params_of; by rewrite Hps).
  rewrite Hpo in *. rewrite <-(N.add_0_r (N.of_nat _)) in HF.
  pose proof (inject_and_call 0 T ctor ps (Constructor T ctor mem) S Hps HF HS) as Hrun.
  unfold ends in Hrun. destruct (mbind_ _ _ S) as [[[]|e| | |] S']; try done;
    destruct Hrun as [Hres [cs [H1 H2 H3 H4]]]; by split_and!.
Qed.

(** C27 The hooks of a class run in order: on a ready context (as in [thunk_constructs]),
    the [postConstruct] thunk of [T] calls the hooks that the scan of the class found, in
    that order (those of a base before its own), and the [preDestroy] thunk calls its hooks
    in the reverse order; each on the object it was given and with its own arguments,
    injected one after the other in the state that the calls and injections before left;
    after an exception exactly the hooks before it, and possibly the one it came from, have
    been called, and if it came from an injection the arguments that were there have been
    given back; and the context is ready in each case. *)
Theorem hooks_in_order (T : Meta.info) (members : MemberScan) (post pre : ptr → M Thunks.t unit)
    (obj : ptr) (S : Thunks.t) (first : bool) :
  scanMembers P limit T = Value members →
  postConstructThunkImpl H fuel P limit ctx T = Value post →
  preDestroyThunkImpl H fuel P limit ctx T = Value pre →
  let hooks := if first then postConstructHooks members else reverse (preDestroyHooks members) in
  set_for (needs hooks) (world S) → sited S →
  let '(o, S') := (if first then post else pre) obj S in
  running (world S') ∧ sited S' ∧ steady (needs hooks) (world S) (world S') ∧
  match o with
  | Ok _ => hooked T obj hooks S S'
  | Throw e => ∃ k m S1, hooked T obj (take k hooks) S S1 ∧ hooks !! k = Some m ∧
      stopped_at T m (Method T m obj) e S1 S'
  | _ => False
  end.
Proof.
  intros Hm Hpost Hpre hooks HF HS. unfold postConstructThunkImpl in Hpost. unfold preDestroyThunkImpl in Hpre.
  rewrite Hm, value_bind in Hpost, Hpre. rewrite reverseInfos_rev in Hpre.
  apply bind_value in Hpost as (hs1 & H1 & Hpost). apply bind_value in Hpre as (hs2 & H2 & Hpre).
  injection Hpost as <-. injection Hpre as <-.
  assert (∃ hs, mapM (invokeLifecycleHook H fuel P ctx T) hooks = Value hs ∧
    (if first then (λ instance, mfor (λ hook : ptr → M Thunks.t unit, hook instance) hs1)
     else λ instance, mfor (λ hook, hook instance) hs2) obj = mfor (λ hook, hook obj) hs) as (hs & Hhs & ->).
  { subst hooks. destruct first; [by exists hs1|by exists hs2]. }
  rewrite <-(N.add_0_r (needs hooks)) in HF.
  pose proof (hooks_run T obj hooks hs S 0 Hhs HF HS) as Hrun. unfold ends in Hrun.
  destruct (mfor _ hs S) as [[[]|e| | |] S']; try done;
    destruct Hrun as [Hres [cs [F1 F2 F3 F4]]]; by split_and!.
Qed.

(** ** Factory products *)

(** The descriptors of [F] are singletons, as generation makes them
    ([makeDescriptorForFactory]). *)
Definition singletons_of (F : Meta.info) (W : World.t) : Prop := ∀ d x c,
  DescriptorTable.at_ (descs W) d = Some x → DescriptorTable.coldAt (descs W) d = Some c →
  exposedType c = World.typeIdFor (Generation.TypeInfoGetter F) W → lifetime x = Singleton.

(** [fp] is the instance behind a descriptor of [F], as a request made in [W] left it. *)
Definition factory_object (F : Meta.info) (W : World.t) (fp : ptr) : Prop := fp ≠ nullptr ∧ ∃ R d x c,
  good (env_of H W) (rt W) R ∧ DescriptorTable.at_ (descs W) d = Some x ∧
  DescriptorTable.coldAt (descs W) d = Some c ∧
  exposedType c = World.typeIdFor (Generation.TypeInfoGetter F) W ∧
  fp = exposed (env_of H W) x d (instance_of (env_of H W) R
         (Claims.Key (Runtime.materializationDescId x d) nullptr)).

Hypothesis Hadjust : ∀ f p, p ≠ nullptr → call_adjust H f p ≠ nullptr.

Lemma exposed_nonnull W x d p : p ≠ nullptr → exposed (env_of H W) x d p ≠ nullptr.
Proof.
  intros Hp. unfold exposed, Cast.adjust. destruct (Runtime.is_primary_elsewhere x d); [|done].
  destruct (adjustToExposed x); [by apply Hadjust|done].
Qed.

(** The request for the factory: a handle that is not counted and gives the object. *)
Lemma factory_runs n F W : set_for n W → singletons_of F W →
  ends never (World.on_rt H (λ E, Runtime.resolve E fuel ctx
      (World.typeIdFor (Generation.TypeInfoGetter F) W) kUnnamed)) W
    (λ b W', running W' ∧ steady 0 W W' ∧ Handle.tracked b = false ∧
       ∃ fp, factory_object F W fp ∧ Handle.arrow b = Handle.Object fp)
    (λ _ W', running W' ∧ steady 0 W W').
Proof.
  intros [HW HF HL _ _] HS. apply (on_rt_ends H known HG). set (E := env_of H W).
  eapply ends_mono; [apply (resolve_fuel_spec E (running_env HG W HW) fuel ctx _ kUnnamed (rt W))|..].
  - by apply live_valid.
  - apply HW.
  - by apply fuel_enough.
  - intros b R [Hg (i & d & x & _ & Hsel & Hx & Hs)].
    destruct (selected_typed E _ _ _ _ (rn_tables _ HW) Hsel) as (c & Hc & Hty & _).
    unfold served in Hs. rewrite (HS d x c Hx Hc Hty) in Hs. destruct Hs as [[Hi _] ->].
    set (q := exposed E x d _).
    assert (q ≠ nullptr) as Hq by by apply exposed_nonnull.
    split_and!; [by apply running_good|by apply steady_good| |].
    + unfold Handle.tracked, Handle.makeDirect. simpl. by rewrite Treiber.low_pack.
    + exists q. split; [split; [done|]; by exists R, d, x, c|].
      unfold Handle.arrow, Handle.makeDirect. simpl. by rewrite (proj2 (N.eqb_neq _ _) Hq).
  - intros e R Hg. split; [by apply running_good|by apply steady_good].
Qed.

(** The factory was resolved from [S] to [S1]: a handle that counts no reference, to [fp]. *)
Definition asked (F : Meta.info) (S S1 : Thunks.t) (fp : ptr) : Prop := ∃ b,
  on_world (λ W, World.on_rt H (λ E, Runtime.resolve E fuel ctx
    (World.typeIdFor (Generation.TypeInfoGetter F) W) kUnnamed) W) S = (Ok b, S1) ∧
  Handle.tracked b = false ∧ Handle.arrow b = Handle.Object fp ∧ factory_object F (world S) fp ∧
  calls S1 = calls S.

(** The request for the factory threw. *)
Definition denied (F : Meta.info) (e : exn) (S S' : Thunks.t) : Prop :=
  on_world (λ W, World.on_rt H (λ E, Runtime.resolve E fuel ctx
    (World.typeIdFor (Generation.TypeInfoGetter F) W) kUnnamed) W) S = (Throw e, S') ∧
  calls S' = calls S.

Lemma with_factory_runs {A} n F (k : ptr → M Thunks.t A) S Q X :
  set_for n (world S) → sited S → singletons_of F (world S) →
  (∀ e S1, denied F e S S1 → follows 0 [] S S1 → X e S1) →
  (∀ fp S1, asked F S S1 fp → follows 0 [] S S1 → set_for n (world S1) →
     ends never (k fp) S1 Q X) →
  ends never (with_factory H fuel ctx F k) S Q X.
Proof.
  intros HF HS HFs HX Hk. unfold with_factory.
  eapply ends_bind; [eapply ends_mono; [apply ends_traced, (on_world_follows 0 _ S
    (λ b _, Handle.tracked b = false ∧ ∃ fp, factory_object F (world S) fp ∧
       Handle.arrow b = Handle.Object fp) (λ _ _, True)); [done|]| |]|].
  - eapply ends_mono; [by apply (factory_runs n F (world S))|done|].
    cbv beta. intros e W' [HW' Hst]. by split_and!.
  - intros b S1 H1. exact H1.
  - cbv beta. intros e S1 [Hrun [H1 _]]. apply HX; [|done]. split; [done|].
    by rewrite (fo_calls _ _ _ _ H1), app_nil_r.
  - cbv beta. intros b S1 (Hrun & H1 & Ht & fp & Hfp & Ha).
    assert (set_for n (world S1)) as HF1 by (eapply (set_steady 0); [exact HF|apply H1|apply H1]).
    assert (asked F S S1 fp) as Hask.
    { exists b. split_and!; try done. by rewrite (fo_calls _ _ _ _ H1), app_nil_r. }
    assert (∀ S2, on_world (Holding.destruct_ H fuel b) S2 = (Ok tt, S2)) as Hd.
    { intros S2. unfold on_world, Holding.destruct_. rewrite Ht. by destruct S2. }
    eapply ends_bind with (P := Q).
    + eapply ends_catch with (Y := X); [|intros e S2 HX2; eapply ends_run; [apply Hd|by apply ends_throw]].
      eapply ends_run with (a := fp) (s' := S1); [|by apply Hk].
      unfold on_world, Access.arrow. rewrite Ha. by destruct S1.
    + intros a S2 H2. eapply ends_run; [apply Hd|]. by apply ends_return.
Qed.

(** What a thunk of a product leaves. *)
Definition after (n : N) (S S' : Thunks.t) : Prop :=
  running (world S') ∧ sited S' ∧ steady n (world S) (world S').

Lemma factory_body T F method ps mem S S1 fp : injected_params P method = Value ps →
  let n := N.of_nat (length ps) in
  follows 0 [] S S1 → set_for n (world S1) →
  ends never (let! args := injected_args H fuel ctx F method ps in
              perform H fuel ctx (FactoryMethod T F method mem fp args)) S1
    (λ _ S', after n S S' ∧ made F method (FactoryMethod T F method mem fp) S1 S')
    (λ e S', after n S S' ∧ stopped_at F method (FactoryMethod T F method mem fp) e S1 S').
Proof.
  intros Hps n H1 HF1.
  assert (∀ cs S2, follows n cs S1 S2 → after n S S2) as Hf.
  { intros cs S2 H2. by destruct (follows_trans _ _ _ _ _ _ _ H1 H2) as [F1 F2 F3 F4]. }
  rewrite <-(N.add_0_r n) in HF1.
  eapply ends_mono; [apply (inject_and_call 0 F method ps (FactoryMethod T F method mem fp) S1 Hps HF1)|..].
  - apply H1.
  - intros ? S2 [Hmade [cs H2]]. split; [by eapply Hf|done].
  - intros e S2 [Hst [cs H2]]. split; [by eapply Hf|done].
Qed.

Lemma ends_assoc {A B C} (m : M Thunks.t A) (f : A → M Thunks.t B) (k : B → M Thunks.t C) S Q X :
  ends never (let! b := (let! a := m in f a) in k b) S Q X →
  ends never (let! a := m in let! b := f a in k b) S Q X.
Proof. unfold ends, mbind_. by destruct (m S) as [[]]. Qed.

(** The object behind a [unique_ptr]. *)
Lemma allocated n S S1 : after n S S1 →
  ends never (on_world (World.on_rt H (λ _, Runtime.operator_new))) S1
    (λ p S2, after n S S2 ∧ p ≠ nullptr ∧ calls S2 = calls S1) (λ _ _, False).
Proof.
  intros (HW & HS & Hst).
  eapply ends_mono; [apply (on_world_follows 0 _ S1 (λ p _, p ≠ nullptr) (λ _ _, False)); [done|]|..].
  - apply (on_rt_ends H known HG).
    set (E := env_of H (world S1)).
    eapply ends_mono with (Q := λ p R, good E (rt (world S1)) R ∧ p ≠ nullptr) (X := λ _ _, False);
      [|intros p R [Hg Hp]|done].
    + exact (operator_new_keeps E (rt (world S1)) (rn_inv _ HW)).
    + split_and!; [by apply running_good|by apply steady_good|done].
  - cbv beta. intros p S2 [[F1 F2 F3 F4] Hp]. rewrite app_nil_r in F4. split; [|done].
    split_and!; try done. rewrite <-(N.add_0_r n). by eapply steady_trans.
  - by intros e S2 [_ ?].
Qed.

(** C28 A factory product comes from its factory: on a ready context (as in
    [thunk_constructs]) whose descriptors of the factory class are singletons (as generation
    makes them), the construction thunk of a product resolves the factory, whose handle
    counts no reference and so leaves nothing to give back; injects the arguments of the
    method, one after the other in the order in which the compiler evaluates them, each in
    the state that the ones before it left; and calls the method once, on the instance of
    the factory, for the memory it was given. A product behind a [unique_ptr] is made the
    same way, without memory, and its fresh object is returned. If it throws, the request
    for the factory threw, or an injection did and the arguments that were there were given
    back, the last first (the handles to prototypes with their objects), or the method did.
    The context is ready in each case. *)
Theorem factory_produces (T F method : Meta.info) (construct : ptr → M Thunks.t unit)
    (allocAndConstruct : M Thunks.t ptr) (mem : ptr) (S : Thunks.t) (heap : bool) :
  constructFactoryProductThunk H fuel P ctx T F method = Value construct →
  allocAndConstructFactoryProductThunk H fuel P ctx T F method = Value allocAndConstruct →
  set_for (N.of_nat (length (params_of method))) (world S) → sited S → singletons_of F (world S) →
  let '(o, S') := (if heap then allocAndConstruct else (do! construct mem in mreturn mem)) S in
  running (world S') ∧ sited S' ∧ steady (N.of_nat (length (params_of method))) (world S) (world S') ∧
  let call_of := FactoryMethod T F method (if heap then None else Some mem) in
  match o with
  | Ok p => ∃ S1 fp S2, asked F S S1 fp ∧ made F method (call_of fp) S1 S2 ∧
      if heap then on_world (World.on_rt H (λ _, Runtime.operator_new)) S2 = (Ok p, S') ∧
        p ≠ nullptr ∧ calls S' = calls S2
      else S' = S2 ∧ p = mem
  | Throw e => denied F e S S' ∨ ∃ S1 fp, asked F S S1 fp ∧ stopped_at F method (call_of fp) e S1 S'
  | _ => False
  end.
Proof.
  unfold constructFactoryProductThunk, allocAndConstructFactoryProductThunk.
  intros H1 H2 HF HS HFs. apply bind_value in H1 as (ps & Hps & H1).
  rewrite Hps, value_bind in H2. injection H1 as <-. injection H2 as <-.
  assert (params_of method = ps) as Hpo by (unfold params_of; by rewrite Hps). rewrite Hpo in *.
  set (n := N.of_nat (length ps)) in *. cbv zeta.
  set (call_of := FactoryMethod T F method (if heap then None else Some mem)).
  set (X := λ e S', after n S S' ∧ (denied F e S S' ∨
    ∃ S1 fp, asked F S S1 fp ∧ stopped_at F method (call_of fp) e S1 S')).
  assert (∀ e S1, denied F e S S1 → follows 0 [] S S1 → X e S1) as HX.
  { intros e S1 Hd H1. destruct (follows_weaken 0 n [] S S1 (needs_le 0 n) H1) as [F1 F2 F3 F4].
    split; [by split_and!|by left]. }
  set (Q := λ p S', after n S S' ∧ ∃ S1 fp S2, asked F S S1 fp ∧ made F method (call_of fp) S1 S2 ∧
    if heap then on_world (World.on_rt H (λ _, Runtime.operator_new)) S2 = (Ok p, S') ∧
      p ≠ nullptr ∧ calls S' = calls S2
    else S' = S2 ∧ p = mem).
  match goal with |- let '(o, S') := ?run S in _ => assert (ends never run S Q X) as Hrun end.
  { subst Q. destruct heap.
    - apply (with_factory_runs n); [done..|]. intros fp S1 Hask H1 HF1. apply ends_assoc.
      eapply ends_bind; [eapply ends_mono; [by apply (factory_body T F method ps None S S1 fp)| |]|].
      + intros ? S2 H3. exact H3.
      + intros e S2 [Ha Hst]. split; [done|]. right. by exists S1, fp.
      + cbv beta. intros ? S2 [Ha Hmade]. eapply ends_mono; [by apply ends_traced, (allocated n S)| |by intros ?? []].
        intros p S3 (Hnew & Ha3 & Hp & Hc). split; [done|]. by exists S1, fp, S2.
    - eapply ends_bind with (P := λ _ S', after n S S' ∧ ∃ S1 fp, asked F S S1 fp ∧
        made F method (call_of fp) S1 S').
      + apply (with_factory_runs n); [done..|]. intros fp S1 Hask H1 HF1.
        eapply ends_mono; [by apply (factory_body T F method ps (Some mem) S S1 fp)|..].
        * intros ? S2 [Ha Hmade]. split; [done|]. by exists S1, fp.
        * intros e S2 [Ha Hst]. split; [done|]. right. by exists S1, fp.
      + cbv beta. intros ? S' [Ha (S1 & fp & Hask & Hmade)]. apply ends_return. split; [done|].
        by exists S1, fp, S'. }
  unfold ends in Hrun. match type of Hrun with context [match ?r with _ => _ end] =>
    destruct r as [[p|e| | |] S']; try done end.
  - destruct Hrun as [(A1 & A2 & A3) Hmade]. by split_and!.
  - destruct Hrun as [(A1 & A2 & A3) Hmade]. by split_and!.
Qed.
End facts.

(** ** Witnesses *)

#[local] Existing Instance SampleProgram.toolchain.

(** User code that does nothing, arguments evaluated from the last to the first. *)
#[local] Instance idle : UserCode.
Proof.
  refine {| user := λ _ _, Runtime.Return; argument_order := λ n, reverse (seq 0 n) |}.
  intros n. apply reverse_Permutation.
Defined.

(** The sample program's context before any thunk has run. *)
Definition desk : t := {| world := SampleProgram.started; caches := ∅; calls := [] |}.

Lemma desk_set n : NameInterning.size (Service.names SampleProgram.started) + n < kThreadLocalSentinel →
  set_for SampleWorld.host 200 ∅ None n (world desk).
Proof.
  intros Hn. split; [exact SampleProgram.started_running|vm_compute; lia|exact I|
    apply Serving.sample_calm|exact Hn].
Qed.

Lemma desk_sited : sited SampleWorld.host SampleProgram.program desk.
Proof. intros T f i ps p _ _. exact (Injection.sample_coherent p.1). Qed.

(** [FileStore], class 6, is constructed with its [Bean<Config>]. *)
Lemma thunk_constructs_witness :
  match constructThunkInjected SampleWorld.host 200 SampleProgram.program None 6 7 with
  | Value thunk => let '(o, S') := thunk 5000 desk in
      o = Ok tt ∧ sited SampleWorld.host SampleProgram.program S' ∧
      ∃ b, calls S' = [Constructor 6 7 5000 [b]]
  | IllFormed _ => False
  end.
Proof.
  assert (match constructThunkInjected SampleWorld.host 200 SampleProgram.program None 6 7 with
    | Value thunk => match (thunk 5000 desk).1 with Ok _ => true | _ => false end | _ => false end = true) as Hok
    by (vm_compute; reflexivity).
  destruct (constructThunkInjected SampleWorld.host 200 SampleProgram.program None 6 7) as [thunk|] eqn:Ht;
    [|discriminate Hok].
  pose proof (thunk_constructs SampleWorld.host 200 ∅ Starting.sample_host None SampleProgram.program
    (λ _, I) 6 7 thunk 5000 desk Ht) as Hrun.
  specialize (Hrun (desk_set (N.of_nat (length (params_of SampleProgram.program 7)))
    ltac:(vm_compute; reflexivity)) desk_sited).
  destruct (thunk 5000 desk) as [o S']. cbn [fst] in Hok. destruct o as [[]|e| | |]; [|discriminate Hok..].
  destruct Hrun as (_ & HS & _ & args & S1 & (got & _ & Ha & _) & _ & Hc).
  split; [reflexivity|]. split; [exact HS|].
  assert (length (params_of SampleProgram.program 7) = 1%nat) as H1 by (vm_compute; reflexivity).
  rewrite H1 in Ha. destruct args as [|b [|b' args]]; [discriminate Ha| |discriminate Ha].
  exists b. exact Hc.
Defined.

(** [FileStore] opens with the hook of its base and closes with its own. *)
Lemma hooks_in_order_witness :
  match postConstructThunkImpl SampleWorld.host 200 SampleProgram.program 4 None 6,
        preDestroyThunkImpl SampleWorld.host 200 SampleProgram.program 4 None 6 with
  | Value post, Value pre =>
      calls (post 5000 desk).2 = [Method 6 5 5000 []] ∧ calls (pre 5000 desk).2 = [Method 6 8 5000 []]
  | _, _ => False
  end.
Proof.
  destruct (scanMembers SampleProgram.program 4 6) as [ms|] eqn:Hm; [|vm_compute in Hm; discriminate Hm].
  assert (postConstructHooks ms = [5] ∧ preDestroyHooks ms = [8]) as [H5 H8].
  { assert (match scanMembers SampleProgram.program 4 6 with
      | Value ms => bool_decide (postConstructHooks ms = [5] ∧ preDestroyHooks ms = [8])
      | _ => false end = true) as Hb by (vm_compute; reflexivity).
    rewrite Hm in Hb. by apply bool_decide_eq_true in Hb. }
  assert (match postConstructThunkImpl SampleWorld.host 200 SampleProgram.program 4 None 6,
        preDestroyThunkImpl SampleWorld.host 200 SampleProgram.program 4 None 6 with
    | Value post, Value pre => match (post 5000 desk).1, (pre 5000 desk).1 with Ok _, Ok _ => true | _, _ => false end
    | _, _ => false end = true) as Hok by (vm_compute; reflexivity).
  destruct (postConstructThunkImpl SampleWorld.host 200 SampleProgram.program 4 None 6) as [post|] eqn:Hpost;
    [|discriminate Hok].
  destruct (preDestroyThunkImpl SampleWorld.host 200 SampleProgram.program 4 None 6) as [pre|] eqn:Hpre;
    [|discriminate Hok].
  assert (params_of SampleProgram.program 5 = [] ∧ params_of SampleProgram.program 8 = []) as [P5 P8]
    by (vm_compute; split; reflexivity).
  assert (∀ m, m = 5 ∨ m = 8 → ∀ S', hooked SampleWorld.host 200 ∅ None SampleProgram.program 6 5000
    [m] desk S' → calls S' = [Method 6 m 5000 []]) as Hone.
  { intros m Hm' S' Hk. apply hooked_one in Hk as (args & Hlen & ->).
    destruct Hm' as [->| ->]; rewrite ?P5, ?P8 in Hlen; apply nil_length_inv in Hlen as ->; reflexivity. }
  pose proof (hooks_in_order SampleWorld.host 200 ∅ Starting.sample_host None SampleProgram.program 4
    (λ _, I) 6 ms post pre 5000 desk) as Hrun.
  split.
  - specialize (Hrun true Hm Hpost Hpre). cbv zeta in Hrun. rewrite H5 in Hrun.
    specialize (Hrun (desk_set (needs SampleProgram.program [5]) ltac:(vm_compute; reflexivity)) desk_sited).
    destruct (post 5000 desk) as [o S']. cbn [fst snd] in *. destruct o; try discriminate Hok.
    destruct Hrun as (_ & _ & _ & Hk). apply (Hone 5); [by left|exact Hk].
  - specialize (Hrun false Hm Hpost Hpre). cbv zeta in Hrun. rewrite H8 in Hrun.
    specialize (Hrun (desk_set (needs SampleProgram.program [8]) ltac:(vm_compute; reflexivity)) desk_sited).
    destruct (pre 5000 desk) as [o S'], (post 5000 desk).1; try discriminate Hok.
    cbn [fst snd] in *. destruct o; try discriminate Hok.
    destruct Hrun as (_ & _ & _ & Hk). apply (Hone 8); [by right|exact Hk].
Defined.

(** The factory of the sample, [Toolkit], is a singleton. *)
Definition factory_check (F : Meta.info) (W : World.t) (d : DescriptorId) : bool :=
  match DescriptorTable.at_ (Service.descs W) d, DescriptorTable.coldAt (Service.descs W) d with
  | Some x, Some c => bool_decide (exposedType c = World.typeIdFor (Generation.TypeInfoGetter F) W →
      lifetime x = Singleton)
  | _, _ => true
  end.

Lemma singletons_checked F W :
  forallb (factory_check F W)
    (N.of_nat <$> seq 0 (length (DescriptorTable.entries_ (Service.descs W)))) = true → singletons_of F W.
Proof.
  intros Hall d x c Hx Hc Hty. rewrite forallb_forall in Hall. specialize (Hall d).
  unfold factory_check in Hall. rewrite Hx, Hc, bool_decide_eq_true in Hall. apply Hall; [|done].
  apply list_elem_of_In, list_elem_of_fmap. exists (N.to_nat d). split; [by rewrite N2Nat.id|].
  apply elem_of_seq. apply vat_lt in Hx. unfold nlen in Hx. lia.
Qed.

Lemma desk_factory : singletons_of 11 SampleProgram.started.
Proof. apply singletons_checked. vm_compute. reflexivity. Qed.

Lemma valued {A} (m : consteval A) :
  match m with Value _ => true | IllFormed _ => false end = true → ∃ a, m = Value a.
Proof. destruct m as [a|]; [by exists a|done]. Qed.

(** A [Pen], class 14, comes from the method [pen], 12, of the factory. *)
Lemma factory_produces_witness :
  match allocAndConstructFactoryProductThunk SampleWorld.host 200 SampleProgram.program None 14 11 12 with
  | Value alloc => let '(o, S') := alloc desk in
      ∃ p fp, o = Ok p ∧ fp ≠ nullptr ∧ calls S' = [FactoryMethod 14 11 12 None fp []]
  | IllFormed _ => False
  end.
Proof.
  assert (match allocAndConstructFactoryProductThunk SampleWorld.host 200 SampleProgram.program None 14 11 12 with
    | Value alloc => match (alloc desk).1 with Ok _ => true | _ => false end | _ => false end = true) as Hok
    by (vm_compute; reflexivity).
  destruct (allocAndConstructFactoryProductThunk SampleWorld.host 200 SampleProgram.program None 14 11 12)
    as [alloc|] eqn:Ha; [|discriminate Hok].
  destruct (valued (constructFactoryProductThunk SampleWorld.host 200 SampleProgram.program None 14 11 12))
    as [construct Hc]; [vm_compute; reflexivity|].
  assert (params_of SampleProgram.program 12 = []) as Hno by (vm_compute; reflexivity).
  assert (∀ f p, p ≠ nullptr → World.call_adjust SampleWorld.host f p ≠ nullptr) as Hadj.
  { intros f p _. change (p + 16 ≠ 0). lia. }
  pose proof (factory_produces SampleWorld.host 200 ∅ Starting.sample_host None SampleProgram.program
    (λ _, I) Hadj 14 11 12 construct alloc 4096 desk true Hc Ha
    (desk_set (N.of_nat (length (params_of SampleProgram.program 12))) ltac:(vm_compute; reflexivity))
    desk_sited desk_factory) as Hrun.
  cbv iota in Hrun. destruct (alloc desk) as [o S']. cbn [fst] in Hok.
  destruct o as [p|e| | |]; [|discriminate Hok..].
  destruct Hrun as (_ & _ & _ & S1 & fp & S2 & (b & _ & _ & _ & [Hfp _] & Hc1) &
    (args & S3 & (got & _ & Hargs & _) & _ & Hc2) & _ & _ & Hc3).
  rewrite Hno in Hargs. apply nil_length_inv in Hargs as ->.
  exists p, fp. split; [reflexivity|]. split; [exact Hfp|].
  rewrite Hc3, Hc2, Hc1. reflexivity.
Defined.

End Thunks.
