(* ===== verification/Views.v ===== *)
(** Casts of handles in a started context.

    [Module Views] models [exact], [compatible], [cast] and [tryCast] of [AnyBean]
    ([internal/detail/HandleInlineImpl.hpp]) on a context ([World]), over the lookup of
    [Cast], with the reference that a view of a prototype takes; [view_keeps_alive]: a view
    is a handle of its own. *)
From S2P Require Import Prelude Tables Reflection Interning Index Stores Startup Freelist Prototypes Listeners Claims Handles Casts Caches Runtime RuntimeFacts Resolution Ready World SampleWorld Contexts Living Service Access Sweep Holding Starting Serving SampleProgram Owned.

Local Open Scope N_scope.

Module Views.
Import World.
Local Open Scope ctr_scope.

(** ** The operations *)

Section operations.
Context (H : host).

(** [registry()], as what a cast reads of it; a handle of another registry does not get here. *)
Definition registry (b : Handle.AnyBean) (W : t) : option Cast.view :=
  match Handle.registry b with
  | Handle.ANull => None
  | _ => Some {| Cast.descriptors := Startup.descriptors_ (Startup.tables_ (reg W));
                 Cast.index := Startup.typeIndex_ (Startup.tables_ (reg W)) |}
  end.

(** [resolveCastTarget<U>(reg, object_, descId)]; [g] is [typeid(U)]. *)
Definition resolveCastTarget (g : TypeInfo) (b : Handle.AnyBean) : M t Cast.CastTarget :=
  let! W := mget in
  mlift (Cast.resolveCastTarget (call_adjust H) (registry b W) (typeIdFor g W)
    (Handle.object_ b) (Handle.descId b)).

Definition exact (g : TypeInfo) (b : Handle.AnyBean) : M t bool :=
  let! W := mget in mlift (Cast.exact (registry b W) (typeIdFor g W) b).

Definition compatible (g : TypeInfo) (b : Handle.AnyBean) : M t bool :=
  let! target := resolveCastTarget g b in mreturn (Cast.target_compatible target).

(** The handle made of a castable target; a view of a prototype is retained. *)
Definition view_of (b : Handle.AnyBean) (target : Cast.CastTarget) : M t Handle.Bean :=
  let r := Cast.cast_result b target in
  do! (if r.2 : bool then Holding.retainIfPrototype H (Handle.slot r.1) else mreturn tt) in
  mreturn r.1.

Definition cast (g : TypeInfo) (b : Handle.AnyBean) : M t Handle.Bean :=
  let! target := resolveCastTarget g b in
  if negb (Cast.target_compatible target) then
    mthrow_ (ResolutionError "AnyBean::cast: the bean is not compatible with the requested type.")
  else if negb (Cast.castable target) then
    mthrow_ (ResolutionError "AnyBean::cast: cannot cast from virtual base — downcast unavailable.")
  else view_of b target.

Definition tryCast (g : TypeInfo) (b : Handle.AnyBean) : M t (option Handle.Bean) :=
  let! target := resolveCastTarget g b in
  if negb (Cast.castable target) then mreturn None
  else let! v := view_of b target in mreturn (Some v).
End operations.

(** ** Views in a started context *)

Section views.
Import RuntimeFacts Living Service Sweep Holding.
Context `{SS : StdSort} (H : host) (fuel : nat) (known : gset ptr) (HG : host_good H known).

Abbreviation running := (running H known).
Abbreviation fuelled := (fuelled fuel).
Abbreviation handles W := (PrototypeStore.handles (Runtime.prototypes_ (rt W))).

Definition tables_view (W : t) : Cast.view := {| Cast.descriptors := descs W; Cast.index := index W |}.

Lemma running_index W : running W → Cast.index_ok (tables_view W).
Proof.
  intros HW ty n l d Hl Hd. pose proof (rn_tables _ HW) as HT. simpl in *.
  unfold TypeIndex.candidatesFor in Hl. destruct (TypeIndex.entryFor _ ty n) as [e|] eqn:He; [|done].
  injection Hl as <-.
  assert (d ≠ kInvalidDescriptorId) as Hn by (intros ->; by apply (tk_valid _ _ HT ty n e)).
  split; [|done]. apply vat_is_Some. apply (tk_entries _ _ HT ty n e d); [done|by left|done].
Qed.

Hypothesis Hadjust : ∀ f p, p ≠ nullptr → call_adjust H f p ≠ nullptr.

Lemma adjust_nonnull f p : p ≠ nullptr → Cast.adjust (call_adjust H) f p ≠ nullptr.
Proof. intros Hp. destruct f as [f|]; [by apply Hadjust|done]. Qed.

(** The handle made of a target for a prototype's handle: in the same slot, and counted. *)
Lemma cast_result_counted R uid b desc cold target : Handle.tracked b = true →
  Cast.target_spec (call_adjust H) R uid (Handle.object_ b) (Handle.descId b) desc cold target →
  Cast.castable target = true →
  ∃ v, Cast.cast_result b target = (v, true) ∧ Handle.tracked v = true ∧ Handle.slot v = Handle.slot b.
Proof.
  intros Hb Hs Hc. unfold Handle.tracked in Hb. apply andb_true_iff in Hb as [Hslot Hobj].
  apply negb_true_iff, N.eqb_neq in Hobj.
  assert (∀ p d, p ≠ nullptr → let v := {| Handle.object_ := p; Handle.bits_ := Treiber.pack d (Handle.slot b);
    Handle.registry_ := Handle.registry_ b |} in Handle.tracked v = true ∧ Handle.slot v = Handle.slot b) as Hpack.
  { intros p d Hp. unfold Handle.tracked, Handle.slot. simpl.
    rewrite Treiber.low_pack by apply Treiber.low_lt. by rewrite Hslot, (proj2 (N.eqb_neq _ _) Hp). }
  unfold Cast.target_spec, Cast.castable, Cast.target_compatible, Cast.cast_result in *.
  destruct (Cast.kind target) eqn:Hk; try done.
  - by destruct Hs.
  - destruct Hs as (_ & _ & _ & Ho). eexists. unfold Handle.tracked at 1. simpl.
    rewrite Hslot, Ho, (proj2 (N.eqb_neq _ _) Hobj). split_and!; [done| |done].
    unfold Handle.tracked. simpl. by rewrite Hslot, (proj2 (N.eqb_neq _ _) Hobj).
  - destruct Hs as (_ & _ & _ & _ & _ & Ho).
    destruct (Hpack (Cast.t_object target) (Cast.t_descId target)) as [Ht Hsl];
      [rewrite Ho; by apply adjust_nonnull|].
    eexists. split; [by rewrite Ht|done].
  - destruct Hs as (_ & _ & _ & _ & td & _ & Ho).
    destruct (Hpack (Cast.t_object target) (Cast.t_descId target)) as [Ht Hsl];
      [rewrite Ho; by apply adjust_nonnull, adjust_nonnull|].
    eexists. split; [by rewrite Ht|done].
Qed.

Lemma view_is_copy b target v : Cast.cast_result b target = (v, true) → Handle.tracked v = true →
  view_of H b target = copy H v.
Proof. intros Hr Ht. unfold view_of, copy. rewrite Hr, Ht. done. Qed.

(** The two casts of one target. *)
Lemma cast_agrees R g W b desc cold target : resolveCastTarget H g b W = (Ok target, W) →
  Cast.target_spec (call_adjust H) R (typeIdFor g W) (Handle.object_ b) (Handle.descId b) desc cold target →
  let conv := Cast.convertible R (typeIdFor g W) (Handle.descId b) desc cold in
  let stuck := Cast.blocked (typeIdFor g W) (Handle.object_ b) (Handle.descId b) desc cold in
  if Cast.castable target then
    (conv ∧ ¬ stuck) ∧ tryCast H g b W = (let! v := view_of H b target in mreturn (Some v)) W ∧
    cast H g b W = view_of H b target W
  else ¬ (conv ∧ ¬ stuck) ∧ tryCast H g b W = (Ok None, W) ∧
    ∃ m, cast H g b W = (Throw (ResolutionError m), W).
Proof.
  intros Hrun Hs conv stuck. unfold tryCast, cast, mbind_. rewrite Hrun.
  unfold Cast.target_spec, Cast.castable, Cast.target_compatible in *. fold conv in Hs. fold stuck in Hs.
  destruct (Cast.kind target); simpl.
  - split_and!; [tauto|done|by eexists].
  - destruct Hs as [Hcv Ho]. split_and!; [done|by intros [? _]|done|done].
  - destruct Hs as (He & _). split_and!; [by left|by intros (_ & ? & _)|done|done].
  - destruct Hs as (_ & He & _ & Hb & _). split_and!; [by right; left|done|done|done].
  - destruct Hs as (_ & _ & Hb & Hx & _). split_and!; [right; right; by eexists|done|done|done].
  - split_and!; [tauto|done|by eexists].
Qed.

(** A view is taken, then the handle it came from goes. *)
Lemma view_then_drop W b v n : running W → fuelled 0 W → calm_env (env_of H W) →
  Handle.tracked b = true → Handle.tracked v = true → Handle.slot v = Handle.slot b →
  handles W !! Handle.slot b = Some n → n + 1 < two32 →
  PrototypeStore.memoryAt (PrototypeStore.store (Runtime.prototypes_ (rt W))) (Handle.slot b) ≠ nullptr →
  ends never (let! r := copy H v in do! destruct_ H fuel b in mreturn (Some r)) W
    (λ r W', r = Some v ∧ running W' ∧ Runtime.trace (rt W') = Runtime.trace (rt W) ∧
       ∀ s m, handles W !! s = Some m → handles W' !! s = Some m) (λ _ _, False).
Proof.
  intros HW HF HC Hb Hv Hslot Hn Hsmall Hmem.
  eapply ends_bind; [apply (copy_runs HG W v HW)| ].
  { intros _. rewrite Hslot. by exists n. }
  cbv beta. intros r W1 (-> & HW1 & (X & ->) & Hh). set (W1 := set_rt _ W) in *.
  rewrite Hv, Hslot, Hn in Hh. cbn [default option.from_option id] in Hh.
  assert (handles W1 !! Handle.slot b = Some (n + 1)) as Hn1 by by rewrite Hh, lookup_insert_eq.
  assert (n ≠ 0) as Hpos.
  { pose proof (i_protos _ _ (rn_inv _ HW)) as [(L & live & Hinv) _ _].
    pose proof (PrototypeStore.i_pos _ _ _ (PrototypeStore.i_core _ _ _ Hinv) _ _ Hn). lia. }
  eapply ends_bind with (P := λ _ W', running W' ∧ let_go_of H (Handle.slot b) (n + 1) W1 W').
  { unfold destruct_. rewrite Hb.
    eapply ends_mono; [by apply (release_runs HG W1 _ (n + 1))|done|done]. }
  intros ? W2 (HW2 & R & -> & HL & Hcase). rewrite decide_False in Hcase by lia.
  destruct Hcase as [Hc Ht]. apply ends_return. split_and!; [done|done|exact Ht|].
  intros s m Hs. destruct (decide (s = Handle.slot b)) as [->|Hne].
  - rewrite Hn in Hs. injection Hs as <-. rewrite Hc. f_equal. lia.
  - apply (lg_handles _ _ _ _ HL); [done|].
    assert (handles W1 !! s = Some m) as Hm by by rewrite Hh, lookup_insert_ne.
    exact Hm.
Qed.

(** C36 A view keeps the bean alive: in a started context, when a handle to a prototype is
    cast and then goes, the casts decide alike ([tryCast] gives a view exactly when the
    bean is convertible to the type and its object can be recovered; [cast] gives the same
    view or throws a [ResolutionError] and changes nothing), and with a view the object
    stays: no lifecycle event happens, the view is a counted handle to the same slot with
    the count the handle had, and the counts of the other prototypes stay. *)
Theorem view_keeps_alive (W : t) (g : TypeInfo) (b : Handle.AnyBean) (n : N) (desc : Descriptor)
    (cold : DescriptorCold) :
  running W → fuelled 0 W → calm_env (env_of H W) →
  Handle.tracked b = true → Handle.registry b ≠ Handle.ANull →
  handles W !! Handle.slot b = Some n → n + 1 < two32 →
  PrototypeStore.memoryAt (PrototypeStore.store (Runtime.prototypes_ (rt W))) (Handle.slot b) ≠ nullptr →
  DescriptorTable.at_ (descs W) (Handle.descId b) = Some desc →
  DescriptorTable.coldAt (descs W) (Handle.descId b) = Some cold →
  typeIdFor g W ≠ kInvalidTypeId →
  let conv := Cast.convertible (tables_view W) (typeIdFor g W) (Handle.descId b) desc cold in
  let stuck := Cast.blocked (typeIdFor g W) (Handle.object_ b) (Handle.descId b) desc cold in
  match (let! v := tryCast H g b in do! destruct_ H fuel b in mreturn v) W with
  | (Ok (Some v), W') => conv ∧ ¬ stuck ∧ (cast H g b W).1 = Ok v ∧ running W' ∧
      Handle.tracked v = true ∧ Handle.slot v = Handle.slot b ∧
      Runtime.trace (rt W') = Runtime.trace (rt W) ∧
      ∀ s m, handles W !! s = Some m → handles W' !! s = Some m
  | (Ok None, W') => ¬ (conv ∧ ¬ stuck) ∧ running W' ∧ ∃ m, cast H g b W = (Throw (ResolutionError m), W)
  | _ => False
  end.
Proof.
  intros HW HF HC Hb Hreg Hn Hsmall Hmem Hd Hc Hu conv stuck.
  destruct (Cast.resolve_spec (call_adjust H) (tables_view W) (typeIdFor g W) (Handle.object_ b)
    (Handle.descId b) desc cold (running_index W HW) Hd Hc Hu) as (target & Ht & Hs).
  assert (resolveCastTarget H g b W = (Ok target, W)) as Hrun.
  { unfold resolveCastTarget, mbind_, mget, registry. fold (tables_view W).
    destruct (Handle.registry b); [done|..]; by rewrite Ht. }
  pose proof (cast_agrees (tables_view W) g W b desc cold target Hrun Hs) as Hagree.
  destruct (Cast.castable target) eqn:Hcast.
  - destruct (cast_result_counted _ _ b desc cold target Hb Hs Hcast) as (v & Hv & Hvt & Hvs).
    pose proof (view_then_drop W b v n HW HF HC Hb Hvt Hvs Hn Hsmall Hmem) as Hends.
    destruct Hagree as (Hconv & Htry & Hcst). rewrite (view_is_copy b target v Hv Hvt) in Htry, Hcst.
    assert ((let! v := tryCast H g b in do! destruct_ H fuel b in mreturn v) W =
      (let! r := copy H v in do! destruct_ H fuel b in mreturn (Some r)) W) as ->.
    { unfold mbind_ at 1. rewrite Htry. unfold mbind_. by destruct (copy H v W) as [[]]. }
    pose proof (copy_runs HG W v HW) as Hcopy. rewrite Hvs in Hcopy.
    specialize (Hcopy (λ _, ex_intro _ n (conj Hn (conj Hsmall Hmem)))). unfold ends in Hends, Hcopy.
    match type of Hends with context [match ?run with _ => _ end] =>
      destruct run as [[r|e| | |] W']; try done end. destruct Hends as (-> & HW' & Htr & Hh).
    split_and!; try done; [by apply Hconv..|]. rewrite Hcst.
    destruct (copy H v W) as [[v'|e| | |] W1]; try done. by destruct Hcopy as [-> _].
  - destruct Hagree as (Hconv & Htry & m & Hcst).
    pose proof (destruct_runs HG W b HW HF HC (λ _, ex_intro _ n Hn)) as Hdrop.
    unfold mbind_. rewrite Htry. unfold ends in Hdrop.
    destruct (destruct_ H fuel b W) as [[[]|e| | |] W']; try done. split_and!; [done|done|by exists m].
Qed.
End views.
(** ** Witness *)

(** The [Pen] of [Owned.desk], seen as a [Pen]: the view outlives the handle. *)
Lemma view_keeps_alive_witness :
  match (let! v := tryCast SampleWorld.host 1014 Owned.pen in
         do! Holding.destruct_ SampleWorld.host 200 Owned.pen in mreturn v) Owned.desk with
  | (Ok (Some v), W') => Handle.slot v = 0 ∧
      PrototypeStore.handles (Runtime.prototypes_ (rt W')) !! 0 = Some 1
  | _ => False
  end.
Proof.
  assert (Service.fuelled 200 0 Owned.desk) as HF by (vm_compute; lia).
  assert (PrototypeStore.handles (Runtime.prototypes_ (rt Owned.desk)) !! Handle.slot Owned.pen = Some 1) as Hn
    by (vm_compute; reflexivity).
  assert (PrototypeStore.memoryAt (PrototypeStore.store (Runtime.prototypes_ (rt Owned.desk)))
    (Handle.slot Owned.pen) ≠ nullptr) as Hm by (vm_compute; discriminate).
  assert (∃ x, DescriptorTable.at_ (Service.descs Owned.desk) (Handle.descId Owned.pen) = Some x) as (x & Hx)
    by (vm_compute; eexists; reflexivity).
  assert (∃ c, DescriptorTable.coldAt (Service.descs Owned.desk) (Handle.descId Owned.pen) = Some c) as (c & Hc)
    by (vm_compute; eexists; reflexivity).
  assert (typeIdFor 1014 Owned.desk ≠ kInvalidTypeId) as Hu by (vm_compute; discriminate).
  assert (∀ f p, p ≠ nullptr → call_adjust SampleWorld.host f p ≠ nullptr) as Hadj.
  { intros f p _. change (p + 16 ≠ 0). lia. }
  assert (1 + 1 < two32) as Hsmall by (vm_compute; reflexivity).
  pose proof (view_keeps_alive SampleWorld.host 200 ∅ Starting.sample_host Hadj Owned.desk 1014 Owned.pen 1 x c
    Owned.pen_desk_running HF (Serving.sample_calm Owned.desk) eq_refl ltac:(discriminate) Hn Hsmall Hm Hx Hc Hu) as Hs.
  assert (match (let! v := tryCast SampleWorld.host 1014 Owned.pen in
         do! Holding.destruct_ SampleWorld.host 200 Owned.pen in mreturn v) Owned.desk with
    | (Ok (Some _), _) => true | _ => false end = true) as Hok by (vm_compute; reflexivity).
  cbv zeta in Hs. destruct (mbind_ (tryCast _ _ _) _ Owned.desk) as [[[v|]|e| | |] W']; try discriminate Hok.
  destruct Hs as (_ & _ & _ & _ & _ & Hslot & _ & Hh).
  split; [exact Hslot|]. exact (Hh 0 1 Hn).
Defined.

End Views.
